(* ===== verification/_CoqProject ===== *)
-Q . S2P
Prelude.v
Error.v
Buffer.v
RingBuffer.v
ArrayBuffer.v
Fifo.v
BufferView.v
ViewTheory.v
StreamEndian.v
Message.v
MessageAccess.v
ProtoKel.v
ProtoKelDecode.v
ProtoKelCodec.v
EventLoop.v
EventQueue.v
EventTheory.v
IoHelpers.v
Conveyor.v
ConveyorRules.v
ConveyorPipeline.v
ConveyorBounds.v
ConveyorTheory.v
Stations.v
UnixIo.v
UnixTheory.v
IoPeer.v
IoPeerTheory.v
IoPeerLink.v
SocketPeers.v
AsyncStream.v
AsyncLoop.v
UnixPort.v
UnixLoop.v
PeerStations.v
PeerServing.v
PeerLoop.v
Tls.v
TlsTheory.v
