(* ===== verification/Prelude.v ===== *)
(** * forstio: a verification library

    forstio is a C++ library for asynchronous input and output: byte buffers, a
    message model described by schema templates, a binary codec for messages, an
    event loop with composable values over time (conveyors), peers that exchange
    messages over a stream, a Unix driver and a TLS layer.
    This library models these parts as executable functions and proves what they
    promise to each other.

    ** How the parts interact

    A message (a [Builder] on a [MessageRoot]) is encoded by [ProtoKelCodec] into
    a [Buffer], through a [BufferView] that is committed when all of it fits.
    The integers on the wire are [ShiftStreamValue]s.  [AsyncIoStream] moves the
    bytes of a buffer through an [IoStream]; a [StreamingIoPeer] joins the two to send
    and receive messages.  The Unix driver is such a stream, and TLS another on top of
    it.  The driver learns from [epoll] when to go on, and tells so by feeding conveyors, whose
    nodes are events of the [EventLoop], which asks the driver's event port for
    news and then fires what is armed.  So the way of a received byte is: the kernel
    reports its socket to [UnixEventPort::pollImpl]; [UnixIoStream::notify] feeds the
    conveyor of its owner; the loop fires it; the function of [AsyncIoStream] on it
    reads, and feeds the conveyor of the client that waits for the bytes; the loop
    fires that, and the client's function runs.  Each step of this way has its file,
    and [UnixLoop] walks all of it.  With a peer it goes one conveyor further: the
    function behind [readDone] decodes what was read and feeds the messages to the
    conveyor of the client, who may answer through [send].  [PeerLoop] walks this way,
    in both directions.

    ** The files (source files are under [source/forstio/])

    - [Prelude]: faults and the outcome monad, machine integers, bytes, lists
      indexed by [Z].  A computation that asserts, throws, is undefined or never
      ends is a [Halt]; [+!] and [-!] are the operations of [size_t].
    - [Error] ([error.h], [error.cpp]): [Error], [ErrorOr].
    - [Buffer] ([buffer.h], [buffer.cpp]): the interface as the class [BufferOps],
      [push], [pop], [toString] and [toHex] on it, and the contract
      ([BufferLaws], [StreamBuffer]) that their theorems assume;
      [RingBuffer], [ArrayBuffer] and [BufferView] model these classes and
      discharge it.  [Fifo]: the queues they implement.  [ViewTheory]: views, and
      the printing functions.
    - [StreamEndian] ([stream_endian.h]): little endian values.
    - [Message] ([schema.h], [message_container.h], [message.h]): schemas, values of
      a schema, default construction.  [MessageAccess]: chains of [init], [get],
      [resize] and the operations at their end, key lookup.
    - [ProtoKel] ([proto_kel.h]): sizes, encoders, decoders, packet framing.
      [ProtoKelDecode]: the decoder on the encoder's output, on every input, and on
      a beginning of it.  [ProtoKelCodec]: both ends of the codec over any buffer.
    - [EventLoop] ([async.h], [async.cpp]): events and the loop at the level of
      their pointers, [turn], [turnLoop], [wait].  Handlers are programs ([prog])
      that arm, disarm and query events.  [EventQueue]: the abstract specification,
      a queue in three tiers, and that the pointers implement it
      ([repr]).  [EventTheory]: what clients of the loop may rely on.
    - [Conveyor] ([async.h], [async.tmpl.h], [async.cpp]): the nodes behind
      [Conveyor<T>] on a store of nodes, their virtual functions (one definition per
      class and method, behind a dispatch) and destructors
      in a monad over [prog], and what a client calls.  [ConveyorRules]: proof
      rules for it.  [ConveyorPipeline]: a pipeline of buffers refines a list of
      bounded queues.  [Stations]: conveyors whose functions feed one another refine
      a set of queues, of which some are closed by a critical error.  [ConveyorBounds]: an invariant of all reachable worlds.
      [ConveyorTheory]: conveyors the client takes from, and where wake-ups,
      assertions and destruction go wrong.
    - [IoHelpers] ([io_helpers.h], [io_helpers.cpp], [io.cpp]): the read and write
      tasks of an [AsyncIoStream].
    - [UnixIo] ([driver/io-unix.h], [driver/io-unix.cpp]): results of system calls,
      notification, signals, [pollImpl], descriptors, [listen], [connect],
      [datagram].  [UnixTheory]: its theorems, for any kernel that does what the
      manual pages say.
    - [AsyncStream] ([io.h], [io.cpp]): the class [AsyncIoStream] with both its tasks,
      over a sequence of events.  [AsyncLoop]: the same class on the event loop, its
      four conveyors being stations.
    - [UnixPort] (the rest of [driver/io-unix.h] and [io-unix.cpp]): the event port from
      construction to destruction, timed waits, addresses and the resolver.
      [UnixLoop]: the event port below the event loop, a socket and a client on it.
    - [IoPeer] ([io_peer.h], [io_peer.tmpl.h]): [StreamingIoPeer], as a receiving and a
      sending half with their events.  [IoPeerTheory]: the states each half goes
      through.  [IoPeerLink]: two peers over one wire.  [SocketPeers]: that sockets are
      such a wire.  [PeerStations]: the functions of a peer and of its client as
      stations; [PeerServing]: what holds of them between the events; [PeerLoop]: a
      peer on the event loop over a Unix socket.
    - [Tls] ([tls/tls.h], [tls/tls.cpp]): streams, connecting and listening over a
      record of the GnuTLS calls.  [TlsTheory]: its theorems.

    ** What the theorems show

    - Buffers: [ring_refines_fifo], [array_refines_fifo], [buffer_conserves_bytes],
      [view_reads_commit], [view_writes_commit]; the lemma [printing_content].
    - Codec: [codec_roundtrip], [codec_encode_spec], [codec_decode_spec],
      [codec_decode_incomplete], [stream_value_encode], [stream_value_roundtrip];
      also the lemma [codec_decode_limit].
    - Peers: [peer_link_delivers] for two peers under any order of their events, and
      [unix_peer_on_loop] for one on the event loop, with every layer below it: no
      message is lost, and when no event is armed the peer waits for the kernel;
      by [unix_peer_catches_up] that happens again and again.
    - Messages: [message_build_typed], [message_set_get].
    - Event loop: [event_loop_refines], [event_arm_refines], [event_disarm_refines],
      [event_loop_fair], [event_loop_drains]; the lemma [wait_scope_bracket].
    - Conveyors: [conveyor_pipeline_delivers] and [stations_refine] (functions that
      feed other conveyors), [conveyor_bounds], [conveyor_take_fifo].
    - From the kernel to a client: [async_stream_on_loop] and
      [unix_stream_on_loop], by which no wake-up is lost on the way: after every
      call of [wait] or [poll] that returns nothing is left undone that what the kernel has
      reported allows.
    - Input and output: [async_read_result], [async_write_result],
      [unix_poll_delivers], [unix_sockets_owned], [unix_port_lifecycle],
      [unix_timed_wait], [unix_parse_address], [tls_connect_answers]; the lemma
      [unix_async_duplex].
    - Where the code does not do what it means to: [codec_decode_array_bomb], [adapter_spins_on_full_buffer],
      [peer_full_buffer_fatal], [tls_read_overstates], [tls_handshake_spins], parts of
      the theorems on the event port, its waits and addresses, and the lemmas
      [union_get_resets], [ring_zero_advance_on_full], [ring_segments_at_the_end],
      [event_disarm_dangling], [conveyor_take_stalls], [conveyor_merge_aborts],
      [conveyor_merge_stalls], [conveyor_error_breaks_loop], [conveyor_immediate],
      [exec_later_detached] and [server_accepts].

    ** Bounds and fuel

    The copy loops of [push] and [pop] move at least one byte per round, so the
    request is enough fuel; a [readStep] shortens its task with every successful
    read, so [max_length + 1] rounds are enough; the drains of [pollImpl] need one
    round more than there are signals or bytes, its outer loop one per 256 events.
    A peer takes at least the eight bytes of a packet length out of its buffer per
    message, so one round more than there are bytes is enough.  The handshake loop
    needs as many rounds as the library says in a row that it has to wait, and
    without such a bound it does not end ([tls_handshake_spins]).
    [turnLoop] runs 65536 turns as in the source, which the theorems about whole
    [wait]s mention: [n] elements and [k] buffers need at most
    [(n (k + 1) + 1) (k + 1)].  [unix_peer_on_loop] needs no such bound: what a call
    leaves armed the next one goes on with.  A call reports at most 10922 events of
    [epoll] here, which feed less than the 65536 elements it can serve, so
    that the rank of [PeerServing] falls with every call.  Destruction follows ownership, whose depth is below
    the number of nodes.

    ** Assumptions and what is not modelled

    The host is little endian with 8-bit bytes and a 64-bit [size_t], asserts are
    compiled in, and memory allocation of nodes does not fail.  A floating point
    value is its bit pattern.  A destroyed event stays in the model of the loop
    as a disarmed one.  The theorems on a socket below the loop are about one that
    [epoll] has taken; whether it has is the matter of [unix_sockets_owned], since the
    driver drops the error of [epoll_ctl].  A timed [epoll_wait] may last longer than
    asked, by an amount that [unix_timed_wait] is given.  The functions given to [then] are computations that may
    feed, take from and destroy conveyors; [conveyor_pipeline_delivers] and
    [conveyor_bounds] are about those that only work on their own state, the theorems
    on stations about those that feed.  A station whose function answers with
    a critical error must have an empty queue.  The caller's [buffer] of a read or write is not null.  The memories of the two tasks of a stream do not overlap.  The templates of
    [io_peer.tmpl.h] do not compile when they are used; [IoPeer] says how their
    misspelled names are read.

    Not modelled: [ChainArrayBuffer] (declared, never defined);
    [OneTimeConveyorNode] (it cannot be instantiated) and [JoinConveyorNode] (it is
    commented out); what the kernel, the resolver and GnuTLS do (they are parameters);
    accessors that only forward; logging and the timer; tests and build files. *)

From Stdlib Require Export ZArith Lia.
From Corelib Require Export Init.Byte.
From stdpp Require Export base tactics strings list numbers option.
From coqutil Require Export Byte Word.LittleEndianList.

#[global] Open Scope Z_scope.

(** ** Faults and the outcome monad

    The C++ code aborts through [assert], has undefined behaviour on an out of
    range vector access, and throws from the standard library.  A computation
    of the model either returns a value or stops with one of these. *)
Inductive fault :=
| AssertionFailed      (* assert(e) with e false *)
| UndefinedBehaviour   (* out of range operator[], memcpy, bad std::get<i> *)
| OutOfRange           (* std::out_of_range, thrown by vector::at *)
| LengthError          (* std::length_error or std::bad_alloc of resize *)
| Diverges.            (* a loop or a call that never ends *)

Inductive outcome (A : Type) :=
| Ret (a : A)
| Halt (f : fault).
Arguments Ret {A} a.
Arguments Halt {A} f.

#[global] Instance fault_eq_dec : EqDecision fault.
Proof. solve_decision. Defined.

#[global] Instance outcome_ret : MRet outcome := @Ret.
#[global] Instance outcome_bind : MBind outcome := fun A B k m =>
  match m with Ret a => k a | Halt f => Halt f end.
#[global] Instance outcome_map : FMap outcome := fun A B g m =>
  match m with Ret a => Ret (g a) | Halt f => Halt f end.

Definition assert_that (b : bool) : outcome unit :=
  if b then Ret tt else Halt AssertionFailed.

Lemma bind_ret {A B} (a : A) (k : A -> outcome B) : (Ret a ≫= k) = k a.
Proof. reflexivity. Qed.

Lemma bind_halt {A B} f (k : A -> outcome B) : (Halt f ≫= k) = Halt f.
Proof. reflexivity. Qed.

Lemma bind_Ret_inv {A B} (m : outcome A) (k : A -> outcome B) b :
  (m ≫= k) = Ret b -> exists a, m = Ret a /\ k a = Ret b.
Proof. destruct m as [a|f]; cbn; [eauto | discriminate]. Qed.

Lemma assert_that_true b : b = true -> assert_that b = Ret tt.
Proof. by intros ->. Qed.

Lemma assert_that_inv b u : assert_that b = Ret u -> b = true.
Proof. by destruct b. Qed.

(** ** Machine integers: [size_t] and [uint64_t] are 64 bits wide and wrap. *)
Definition size_mod : Z := 18446744073709551616.
Definition size_max : Z := size_mod - 1.
(** [PTRDIFF_MAX], the largest size of a [std::vector<uint8_t>]. *)
Definition ptrdiff_max : Z := 9223372036854775807.

Definition wadd (a b : Z) : Z := (a + b) mod size_mod.
Definition wsub (a b : Z) : Z := (a - b) mod size_mod.

Declare Scope size_scope.
Delimit Scope size_scope with size.
Infix "+!" := wadd (at level 50, left associativity) : size_scope.
Infix "-!" := wsub (at level 50, left associativity) : size_scope.
#[global] Open Scope size_scope.

Lemma wadd_small a b : 0 <= a + b < size_mod -> a +! b = a + b.
Proof. intros. unfold wadd. by rewrite Z.mod_small. Qed.

Lemma wsub_small a b : 0 <= a - b < size_mod -> a -! b = a - b.
Proof. intros. unfold wsub. by rewrite Z.mod_small. Qed.

(** [wsimp] removes the wrap-around of every sum and difference that is
    provably in range; [zsolve] then closes the linear goal. *)
Ltac wconst := unfold size_mod, size_max, ptrdiff_max in *.
Ltac wsimp :=
  repeat match goal with
  | |- context [wadd ?a ?b] => rewrite (wadd_small a b) by (wconst; lia)
  | |- context [wsub ?a ?b] => rewrite (wsub_small a b) by (wconst; lia)
  end.
Ltac zsolve := wconst; lia.

(** [bcase] splits on the innermost boolean test of the goal. *)
Ltac bcase :=
  match goal with
  | |- context [Z.leb ?a ?b] => destruct (Z.leb_spec a b)
  | |- context [Z.ltb ?a ?b] => destruct (Z.ltb_spec a b)
  | |- context [Z.eqb ?a ?b] => destruct (Z.eqb_spec a b)
  | |- context [Nat.eqb ?a ?b] => destruct (Nat.eqb_spec a b)
  | |- context [Nat.ltb ?a ?b] => destruct (Nat.ltb_spec a b)
  end.

(** ** Lists indexed by machine integers

    A [std::vector<uint8_t>] is a list of bytes; its indices are [size_t]. *)
Definition zlen {A} (l : list A) : Z := Z.of_nat (length l).
Definition ztake {A} (n : Z) (l : list A) : list A := take (Z.to_nat n) l.
Definition zdrop {A} (n : Z) (l : list A) : list A := drop (Z.to_nat n) l.
Arguments zlen {A} l : simpl never.
Arguments ztake {A} n l : simpl never.
Arguments zdrop {A} n l : simpl never.

(** [v[i]] on a vector: undefined behaviour out of range. *)
Definition vec_get {A} (v : list A) (i : Z) : outcome A :=
  match v !! Z.to_nat i with Some x => Ret x | None => Halt UndefinedBehaviour end.

(** [memcpy(dst, &v[p], n)] and [memcpy(&v[p], bs, n)]. *)
Definition mem_read {A} (v : list A) (p n : Z) : outcome (list A) :=
  if p + n <=? zlen v then Ret (ztake n (zdrop p v)) else Halt UndefinedBehaviour.
Definition mem_write {A} (v : list A) (p : Z) (bs : list A) : outcome (list A) :=
  if p + zlen bs <=? zlen v then Ret (list_inserts (Z.to_nat p) bs v)
  else Halt UndefinedBehaviour.

(** [rot k l] is [l] read from position [k] with wrap-around. *)
Definition rot {A} (k : Z) (l : list A) : list A := zdrop k l ++ ztake k l.

(** Index [k + i] in a vector of [n] cells, wrapped once. *)
Definition wrap_index (k i n : Z) : Z := if n <=? k + i then k + i - n else k + i.

Lemma Forall_combine {A} (P Q R : A -> Prop) l :
  Forall P l -> Forall Q l -> (forall x, P x -> Q x -> R x) -> Forall R l.
Proof. intros HP HQ HR. induction HP; inversion HQ; subst; constructor; auto. Qed.

Section lists.
Context {A : Type}.
Implicit Types l k : list A.

Lemma zlen_nonneg l : 0 <= zlen l.
Proof. unfold zlen; lia. Qed.
Lemma zlen_nil : zlen (@nil A) = 0.
Proof. reflexivity. Qed.
Lemma zlen_cons x l : zlen (x :: l) = 1 + zlen l.
Proof. unfold zlen; cbn [length]; lia. Qed.
Lemma zlen_app l k : zlen (l ++ k) = zlen l + zlen k.
Proof. unfold zlen; rewrite length_app; lia. Qed.
Lemma zlen_take n l : 0 <= n <= zlen l -> zlen (ztake n l) = n.
Proof. unfold zlen, ztake; rewrite length_take; lia. Qed.
Lemma zlen_drop n l : 0 <= n <= zlen l -> zlen (zdrop n l) = zlen l - n.
Proof. unfold zlen, zdrop; rewrite length_drop; lia. Qed.
Lemma zlen_inserts i k l : zlen (list_inserts i k l) = zlen l.
Proof. unfold zlen; by rewrite length_inserts. Qed.
Lemma zlen_rot n l : 0 <= n <= zlen l -> zlen (rot n l) = zlen l.
Proof. intros. unfold rot. rewrite zlen_app, zlen_take, zlen_drop; lia. Qed.
Lemma ztake_all n l : zlen l <= n -> ztake n l = l.
Proof. unfold zlen, ztake; intros; rewrite take_ge; [done|lia]. Qed.
Lemma zdrop_all n l : zlen l <= n -> zdrop n l = [].
Proof. unfold zlen, zdrop; intros; rewrite drop_ge; [done|lia]. Qed.
Lemma ztake_0 n l : n <= 0 -> ztake n l = [].
Proof. unfold ztake; intros. by replace (Z.to_nat n) with 0%nat by lia. Qed.
Lemma zdrop_0 n l : n <= 0 -> zdrop n l = l.
Proof. unfold zdrop; intros. by replace (Z.to_nat n) with 0%nat by lia. Qed.
Lemma ztake_drop n l : ztake n l ++ zdrop n l = l.
Proof. apply take_drop. Qed.
Lemma zdrop_drop n m l : 0 <= n -> 0 <= m -> zdrop n (zdrop m l) = zdrop (m + n) l.
Proof. intros; unfold zdrop. rewrite drop_drop. f_equal; lia. Qed.
Lemma ztake_app_exact l k n : n = zlen l -> ztake n (l ++ k) = l.
Proof. intros ->. unfold ztake, zlen. by rewrite take_app_length' by lia. Qed.
Lemma zdrop_app_exact l k n : n = zlen l -> zdrop n (l ++ k) = k.
Proof. intros ->. unfold zdrop, zlen. by rewrite drop_app_length' by lia. Qed.
Lemma ztake_app_le n l k : n <= zlen l -> ztake n (l ++ k) = ztake n l.
Proof. unfold ztake, zlen; intros. by rewrite take_app_le by lia. Qed.
Lemma zdrop_app_le n l k : n <= zlen l -> zdrop n (l ++ k) = zdrop n l ++ k.
Proof. unfold zdrop, zlen; intros. by rewrite drop_app_le by lia. Qed.
Lemma ztake_split n m l :
  0 <= n <= m -> m <= zlen l ->
  ztake n l ++ ztake (m - n) (zdrop n l) = ztake m l.
Proof.
  unfold ztake, zdrop, zlen. intros.
  rewrite <- (take_drop (Z.to_nat n) (take (Z.to_nat m) l)).
  rewrite take_take, skipn_firstn_comm. f_equal; f_equal; lia.
Qed.
Lemma zlen_zero l : zlen l <= 0 -> l = [].
Proof. destruct l; [done|]. rewrite zlen_cons; pose proof (zlen_nonneg l); lia. Qed.

Lemma mem_read_ok l p n :
  0 <= p -> 0 <= n -> p + n <= zlen l -> mem_read l p n = Ret (ztake n (zdrop p l)).
Proof. intros. unfold mem_read. bcase; [done|lia]. Qed.
Lemma mem_write_ok l p k :
  0 <= p -> p + zlen k <= zlen l ->
  mem_write l p k = Ret (list_inserts (Z.to_nat p) k l).
Proof. intros. unfold mem_write. bcase; [done|lia]. Qed.

(** Position [i] of the rotated list is position [c + i], wrapped. *)
Lemma rot_lookup (c : Z) l (i : nat) :
  0 <= c < zlen l -> (i < length l)%nat ->
  rot c l !! i =
  l !! (if (Z.to_nat c + i <? length l)%nat then Z.to_nat c + i
        else Z.to_nat c + i - length l)%nat.
Proof.
  unfold rot, zdrop, ztake, zlen; intros Hk Hi.
  destruct (Nat.ltb_spec (Z.to_nat c + i) (length l)).
  - rewrite lookup_app_l by (rewrite length_drop; lia). by rewrite lookup_drop.
  - rewrite lookup_app_r by (rewrite length_drop; lia).
    rewrite length_drop, lookup_take by lia.
    case_decide; [|lia]. f_equal; lia.
Qed.

Lemma lookup_ztake n l (i : nat) :
  Z.of_nat i < n -> ztake n l !! i = l !! i.
Proof. unfold ztake; intros. by rewrite lookup_take_lt by lia. Qed.
Lemma lookup_zdrop n l (i : nat) :
  zdrop n l !! i = l !! (Z.to_nat n + i)%nat.
Proof. unfold zdrop. by rewrite lookup_drop. Qed.

(** Two segments agree when they agree position by position. *)
Lemma segment_eq s p i l k :
  0 <= p -> 0 <= i -> 0 <= s -> p + s <= zlen l -> i + s <= zlen k ->
  (forall j : nat, Z.of_nat j < s ->
     l !! (Z.to_nat p + j)%nat = k !! (Z.to_nat i + j)%nat) ->
  ztake s (zdrop p l) = ztake s (zdrop i k).
Proof.
  intros ????? Heq. apply list_eq; intros j.
  destruct (decide (Z.of_nat j < s)).
  - by rewrite !lookup_ztake, !lookup_zdrop, Heq by done.
  - rewrite !lookup_ge_None_2; [done| |];
      unfold ztake, zdrop, zlen in *; rewrite length_take, length_drop; lia.
Qed.

Lemma ztake_zdrop_ztake s i n l :
  0 <= s -> 0 <= i -> i + s <= n -> n <= zlen l ->
  ztake s (zdrop i (ztake n l)) = ztake s (zdrop i l).
Proof.
  intros. apply segment_eq; [lia..| | |].
  - by rewrite zlen_take by lia.
  - lia.
  - intros. apply lookup_ztake. lia.
Qed.

Lemma rot_lookup_wrap (c : Z) l (i : Z) (j : nat) :
  0 <= c < zlen l -> 0 <= i -> Z.of_nat j + i < zlen l ->
  wrap_index c i (zlen l) + Z.of_nat j < zlen l ->
  l !! (Z.to_nat (wrap_index c i (zlen l)) + j)%nat = rot c l !! (Z.to_nat i + j)%nat.
Proof.
  unfold wrap_index, zlen. intros.
  rewrite rot_lookup by (unfold zlen; lia).
  revert H2. bcase; bcase; intros; f_equal; lia.
Qed.

Lemma rot_segment (c : Z) l (i s : Z) :
  0 <= c < zlen l -> 0 <= i -> 0 <= s -> i + s <= zlen l ->
  wrap_index c i (zlen l) + s <= zlen l ->
  ztake s (zdrop (wrap_index c i (zlen l)) l) = ztake s (zdrop i (rot c l)).
Proof.
  intros. apply segment_eq; [|lia..| |].
  - unfold wrap_index. bcase; lia.
  - rewrite zlen_rot; lia.
  - intros. apply rot_lookup_wrap; lia.
Qed.

Lemma lookup_inserts (i : nat) k l (j : nat) :
  (i + length k <= length l)%nat ->
  list_inserts i k l !! j =
  if (decide (i <= j < i + length k)%nat) then k !! (j - i)%nat else l !! j.
Proof.
  intros. case_decide.
  - apply list_lookup_inserts; lia.
  - destruct (decide (j < i)%nat);
      [apply list_lookup_inserts_lt|apply list_lookup_inserts_ge]; lia.
Qed.

Lemma rot_inserts (c : Z) l (i : Z) k :
  0 <= c < zlen l -> 0 <= i -> i + zlen k <= zlen l ->
  wrap_index c i (zlen l) + zlen k <= zlen l ->
  rot c (list_inserts (Z.to_nat (wrap_index c i (zlen l))) k l) =
  list_inserts (Z.to_nat i) k (rot c l).
Proof.
  intros Hc Hi Hk Hw. set (p := wrap_index c i (zlen l)) in *.
  assert (Hp : p = c + i \/ p = c + i - zlen l) by (subst p; unfold wrap_index; bcase; lia).
  assert (0 <= p) by (subst p; unfold wrap_index; bcase; lia).
  assert (Hrl : length (rot c l) = length l)
    by (pose proof (zlen_rot c l); unfold zlen in *; lia).
  apply list_eq; intros j. destruct (decide (j < length l)%nat); last first.
  { rewrite !lookup_ge_None_2; [done| |].
    - rewrite length_inserts; lia.
    - pose proof (zlen_rot c (list_inserts (Z.to_nat p) k l)) as Hz.
      rewrite zlen_inserts in Hz. unfold zlen in *. lia. }
  rewrite rot_lookup by (rewrite ?zlen_inserts, ?length_inserts; lia).
  rewrite length_inserts. unfold zlen in *.
  rewrite !lookup_inserts by lia. rewrite rot_lookup by (unfold zlen; lia).
  destruct (Nat.ltb_spec (Z.to_nat c + j) (length l)); repeat case_decide;
    (f_equal; lia) || lia.
Qed.

Lemma rot_advance (c : Z) l (n : Z) :
  0 <= c < zlen l -> 0 <= n <= zlen l ->
  rot (wrap_index c n (zlen l)) l = zdrop n (rot c l) ++ ztake n (rot c l).
Proof.
  intros Hc Hn. set (w := wrap_index c n (zlen l)).
  assert (Hw : w = c + n \/ w = c + n - zlen l)
    by (subst w; unfold wrap_index; bcase; lia).
  assert (0 <= w < zlen l) by (subst w; unfold wrap_index; bcase; lia).
  assert (Hl : forall k : Z, 0 <= k < zlen l -> length (rot k l) = length l)
    by (intros k ?; pose proof (zlen_rot k l); unfold zlen in *; lia).
  apply list_eq; intros j. destruct (decide (j < length l)%nat); last first.
  { rewrite !lookup_ge_None_2; [done| |]; rewrite ?length_app; unfold ztake, zdrop;
      rewrite ?length_take, ?length_drop, ?Hl by done; lia. }
  rewrite rot_lookup by done.
  assert (Hd : length (zdrop n (rot c l)) = (length l - Z.to_nat n)%nat)
    by (unfold zdrop; by rewrite length_drop, Hl).
  destruct (decide (j < length l - Z.to_nat n)%nat).
  - rewrite lookup_app_l, lookup_zdrop by lia.
    rewrite rot_lookup by (unfold zlen in *; lia). unfold zlen in *.
    destruct (Nat.ltb_spec (Z.to_nat w + j) (length l)), 
      (Nat.ltb_spec (Z.to_nat c + (Z.to_nat n + j)) (length l)); f_equal; lia.
  - rewrite lookup_app_r, Hd by lia. unfold zlen in *.
    rewrite lookup_ztake, rot_lookup by (unfold zlen in *; lia).
    destruct (Nat.ltb_spec (Z.to_nat w + j) (length l)), 
      (Nat.ltb_spec (Z.to_nat c + (j - (length l - Z.to_nat n))) (length l));
      f_equal; lia.
Qed.
End lists.

(** The list facts used by rewriting everywhere. *)
Create Rewrite HintDb zlist.
#[export] Hint Rewrite @zlen_nil @zlen_cons @zlen_app @zlen_inserts : zlist.
#[export] Hint Rewrite @zlen_take @zlen_drop @zlen_rot using zsolve : zlist.
Ltac zlist := autorewrite with zlist in *.

(** ** Strings *)
Lemma string_prefix_app s t : String.prefix s t = true -> exists rest, t = s +:+ rest.
Proof.
  revert t. induction s as [|c s IH]; intros [|d t]; cbn [String.prefix]; try done; [by eexists..|].
  destruct (Ascii.ascii_dec c d) as [->|]; [|done]. intros (rest&->)%IH. by exists rest.
Qed.

Lemma string_prefix_of_app s t : String.prefix s (s +:+ t) = true.
Proof.
  induction s as [|c s IH]; [by destruct t|].
  change (String c s +:+ t) with (String c (s +:+ t)). cbn [String.prefix].
  by destruct (Ascii.ascii_dec c c).
Qed.

Lemma substring_all s : String.substring 0 (String.length s) s = s.
Proof. induction s as [|c s IH]; [done|]. cbn. by rewrite IH. Qed.
