(* ===== verification/Error.v ===== *)
(** Model of [source/forstio/error.h] and [error.cpp]: the [Error] class with
    its signed 16-bit code, the functions that build errors, and [ErrorOr]. *)

From S2P Require Import Prelude.

(** ** [Error::Code], an [int16_t] *)
Definition Code := Z.
Definition GenericCritical : Code := -1.
Definition GenericRecoverable : Code := 1.
Definition Disconnected : Code := -99.
Definition Exhausted : Code := -98.

(** [std::variant<std::string_view, std::string>]: a borrowed or an owned text. *)
Inductive message_text :=
| StringView (s : string)
| OwnedString (s : string).

(** The class [Error]. *)
Record Error := mkError {
  error_message : message_text;
  error_ : Code
}.

#[global] Instance message_text_eq_dec : EqDecision message_text.
Proof. solve_decision. Defined.
#[global] Instance Error_eq_dec : EqDecision Error.
Proof. solve_decision. Defined.

Definition message (e : Error) : string :=
  match error_message e with StringView s => s | OwnedString s => s end.

Definition failed (e : Error) : bool := negb (error_ e =? 0).
Definition isCritical (e : Error) : bool := error_ e <? 0.
Definition isRecoverable (e : Error) : bool := 0 <? error_ e.
Definition code (e : Error) : Code := error_ e.

(** [Error::Error()]: the variant holds its first alternative, an empty view. *)
Definition noError : Error := mkError (StringView "") 0.

Definition makeError (generic : string) (c : Code) : Error :=
  mkError (StringView generic) c.

(** The overload with a formatter; [None] is a formatter that threw
    [std::bad_alloc]. *)
Definition makeError_format (formatter : option string) (c : Code)
    (generic : string) : Error :=
  match formatter with
  | Some error_msg => mkError (OwnedString error_msg) c
  | None => mkError (StringView generic) c
  end.

(** [criticalError] and [recoverableError]; the code has a default argument. *)
Definition criticalError_code (generic : string) (c : Code) : Error :=
  makeError generic c.
Definition criticalError (generic : string) : Error :=
  criticalError_code generic GenericCritical.
Definition criticalError_format (formatter : option string) (generic : string)
  : Error := makeError_format formatter GenericCritical generic.
Definition recoverableError_code (generic : string) (c : Code) : Error :=
  makeError generic c.
Definition recoverableError (generic : string) : Error :=
  recoverableError_code generic GenericRecoverable.
Definition recoverableError_format (formatter : option string) (generic : string)
  : Error := makeError_format formatter GenericRecoverable generic.

(** [Error::copyError]; [oom] says that copying the text threw
    [std::bad_alloc]. *)
Definition copyError (oom : bool) (e : Error) : Error :=
  mkError
    (if oom then StringView "Error while copying Error string. Out of memory"
     else error_message e)
    (error_ e).

(** ** [ErrorOr<T>], a [std::variant<Error, T>]; the default is [noError]. *)
Inductive ErrorOr (T : Type) :=
| IsError (e : Error)
| IsValue (v : T).
Arguments IsError {T} e.
Arguments IsValue {T} v.

Definition ErrorOr_default {T} : ErrorOr T := IsError noError.
Definition isValue {T} (x : ErrorOr T) : bool :=
  match x with IsValue _ => true | IsError _ => false end.
Definition isError {T} (x : ErrorOr T) : bool :=
  match x with IsError _ => true | IsValue _ => false end.

(** ** Properties *)

(** Every code is of exactly one class: no error, recoverable or critical. *)
Lemma failed_split (e : Error) : failed e = isCritical e || isRecoverable e.
Proof. unfold failed, isCritical, isRecoverable. repeat bcase; lia. Qed.

Lemma critical_not_recoverable (e : Error) :
  isCritical e && isRecoverable e = false.
Proof. unfold isCritical, isRecoverable. repeat bcase; lia. Qed.

Lemma isCritical_failed e : isCritical e = true -> failed e = true.
Proof. rewrite failed_split. by intros ->. Qed.

Lemma isRecoverable_failed e : isRecoverable e = true -> failed e = true.
Proof. rewrite failed_split. intros ->. apply orb_true_r. Qed.

Lemma not_failed_code e : failed e = false <-> code e = 0.
Proof. unfold failed, code. bcase; naive_solver. Qed.

Lemma copyError_code oom e : code (copyError oom e) = code e.
Proof. reflexivity. Qed.

Lemma copyError_id e : copyError false e = e.
Proof. by destruct e. Qed.

Lemma isError_negb {T} (x : ErrorOr T) : isError x = negb (isValue x).
Proof. by destruct x. Qed.
