(* ===== verification/Buffer.v ===== *)
(** Model of the abstract class [Buffer] of [source/forstio/buffer.h] and of
    its non-virtual operations in [buffer.cpp].

    [BufferOps] lists the virtual functions; a reference [uint8_t &] into a
    buffer is an index into the vector behind it ([memory]), so that
    [read(i)], [write(i) = v] and the [memcpy] calls are all expressed on it.
    [BufferLaws] is the contract an implementation promises to its clients: a
    buffer stands for the bytes it can deliver ([input]), the bytes committed
    by the writer ([output]) and the writable bytes ([room]). *)

From Stdlib Require Import Ascii.
From S2P Require Import Prelude Error.

(** ** The virtual functions *)
Class BufferOps (B : Type) := {
  memory : B -> list byte;
  set_memory : list byte -> B -> B;

  readPosition : B -> Z;
  readCompositeLength : B -> outcome Z;
  readSegmentLength : Z -> B -> outcome Z;
  readAdvance : Z -> B -> outcome B;
  read_ref : Z -> B -> outcome Z;         (* read(i), non-const *)
  const_read_ref : Z -> B -> outcome Z;   (* read(i) const *)

  writePosition : B -> Z;
  writeCompositeLength : B -> outcome Z;
  writeSegmentLength : Z -> B -> outcome Z;
  writeAdvance : Z -> B -> outcome B;
  write_ref : Z -> B -> outcome Z;

  writeRequireLength : Z -> B -> outcome Error
}.

(** ** Operations on top of the virtual functions *)
Section operations.
Context {B : Type} `{BufferOps B}.
Implicit Types b : B.

(** The value of [read(i)], and the assignment [write(i) = v]. *)
Definition read (i : Z) b : outcome byte :=
  p ← read_ref i b; vec_get (memory b) p.

Definition const_read (i : Z) b : outcome byte :=
  p ← const_read_ref i b; vec_get (memory b) p.

Definition write (i : Z) (v : byte) b : outcome B :=
  p ← write_ref i b;
  m ← mem_write (memory b) p [v];
  Ret (set_memory m b).

(** [Error Buffer::push(const uint8_t &value)] *)
Definition push_value (value : byte) b : outcome (Error * B) :=
  write_remain ← writeCompositeLength b;
  if 0 <? write_remain then
    b ← write 0 value b;
    b ← writeAdvance 1 b;
    Ret (noError, b)
  else Ret (recoverableError "Buffer too small", b).

(** The loop of [Error Buffer::push(const uint8_t &buffer, size_t size)];
    [src] is the memory from [buffer_ptr] on.  An iteration that moves no
    byte would repeat for ever, so [size] iterations are enough fuel. *)
Fixpoint push_loop (fuel : nat) (src : list byte) (size : Z) b : outcome B :=
  if 0 <? size then
    match fuel with
    | O => Halt Diverges
    | S fuel =>
        remaining ← writeSegmentLength 0 b;
        let segment := Z.min remaining size in
        p ← write_ref 0 b;
        bytes ← mem_read src 0 segment;
        m ← mem_write (memory b) p bytes;
        b ← writeAdvance segment (set_memory m b);
        push_loop fuel (zdrop segment src) (size -! segment) b
    end
  else Ret b.

Definition push (buffer : list byte) (size : Z) b : outcome (Error * B) :=
  error ← writeRequireLength size b;
  if failed error then Ret (error, b)
  else
    b ← push_loop (Z.to_nat size) buffer size b;
    Ret (noError, b).

(** [Error Buffer::pop(uint8_t &value)]; the middle component is [value]. *)
Definition pop_value (value : byte) b : outcome (Error * byte * B) :=
  n ← readCompositeLength b;
  if 0 <? n then
    value ← read 0 b;
    b ← readAdvance 1 b;
    Ret (noError, value, b)
  else Ret (recoverableError "Buffer too small", value, b).

(** The loop of [Error Buffer::pop(uint8_t &buffer, size_t size)]; the result
    is the bytes stored from [buffer_ptr] on. *)
Fixpoint pop_loop (fuel : nat) (size : Z) b : outcome (list byte * B) :=
  if 0 <? size then
    match fuel with
    | O => Halt Diverges
    | S fuel =>
        remaining ← readSegmentLength 0 b;
        let segment := Z.min remaining size in
        p ← read_ref 0 b;
        bytes ← mem_read (memory b) p segment;
        b ← readAdvance segment b;
        '(rest, b) ← pop_loop fuel (size -! segment) b;
        Ret (bytes ++ rest, b)
    end
  else Ret ([], b).

(** [dst] is the caller's memory, kept when the pop is refused. *)
Definition pop (dst : list byte) (size : Z) b : outcome (Error * list byte * B) :=
  n ← readCompositeLength b;
  if size <=? n then
    '(bytes, b) ← pop_loop (Z.to_nat size) size b;
    Ret (noError, bytes, b)
  else Ret (recoverableError "Buffer too small", dst, b).

(** [std::string Buffer::toString() const] *)
Definition toString b : outcome (list byte) :=
  n ← readCompositeLength b;
  mapM (fun i => const_read i b) (seqZ 0 n).

(** [std::string Buffer::toHex() const] *)
Definition hex_digit (d : Z) : Ascii.ascii :=
  Ascii.ascii_of_N (Z.to_N (if d <? 10 then 48 + d else 87 + d)).

Definition toHex_step (n i : Z) (v : byte) : list Ascii.ascii :=
  [hex_digit (byte.unsigned v / 16); hex_digit (byte.unsigned v mod 16)] ++
  (if i + 1 <? n then [if i mod 4 =? 3 then "010"%char else " "%char] else []).

Definition toHex b : outcome (list Ascii.ascii) :=
  n ← readCompositeLength b;
  chunks ← mapM (fun i => v ← const_read i b; Ret (toHex_step n i v)) (seqZ 0 n);
  Ret (concat chunks).
End operations.

(** ** The contract *)
Class BufferLaws (B : Type) `{BufferOps B} := {
  wf : B -> Prop;
  input : B -> list byte;
  output : B -> list byte;
  room : B -> list byte;
  (** what reading, respectively writing, leaves alone *)
  rframe_t : Type;
  rframe : B -> rframe_t;
  wframe_t : Type;
  wframe : B -> wframe_t;

  law_bounds b : wf b -> zlen (input b) <= ptrdiff_max /\ zlen (room b) <= ptrdiff_max;
  law_readCompositeLength b : wf b -> readCompositeLength b = Ret (zlen (input b));
  law_writeCompositeLength b : wf b -> writeCompositeLength b = Ret (zlen (room b));

  law_readSegment b off : wf b -> 0 <= off < zlen (input b) ->
    exists seg p, readSegmentLength off b = Ret seg /\
      0 < seg <= zlen (input b) - off /\
      read_ref off b = Ret p /\ const_read_ref off b = Ret p /\
      0 <= p /\ p + seg <= zlen (memory b) /\
      ztake seg (zdrop p (memory b)) = ztake seg (zdrop off (input b));
  law_writeSegment b off : wf b -> 0 <= off < zlen (room b) ->
    exists seg p, writeSegmentLength off b = Ret seg /\
      0 < seg <= zlen (room b) - off /\
      write_ref off b = Ret p /\ 0 <= p /\ p + seg <= zlen (memory b) /\
      forall bs, zlen bs <= seg ->
        let b' := set_memory (list_inserts (Z.to_nat p) bs (memory b)) b in
        wf b' /\ input b' = input b /\ output b' = output b /\
        room b' = list_inserts (Z.to_nat off) bs (room b) /\ wframe b' = wframe b;

  law_readAdvance b n : wf b -> 0 <= n <= zlen (input b) ->
    exists b', readAdvance n b = Ret b' /\ wf b' /\ input b' = zdrop n (input b) /\
      rframe b' = rframe b;
  law_writeAdvance b n : wf b -> 0 < n <= zlen (room b) ->
    exists b', writeAdvance n b = Ret b' /\ wf b' /\
      output b' = output b ++ ztake n (room b) /\ room b' = zdrop n (room b) /\
      wframe b' = wframe b;
  law_writeRequireLength b n : wf b -> 0 <= n <= ptrdiff_max ->
    exists e, writeRequireLength n b = Ret e /\
      failed e = (zlen (room b) <? n) /\ isRecoverable e = failed e
}.

(** A buffer that owns its bytes (not a view): what the writer commits is what
    it delivers, and it answers every request of a [size_t] amount. *)
Class StreamBuffer (B : Type) `{BufferLaws B} := {
  stream_output b : wf b -> output b = input b;
  stream_require b n : wf b -> 0 <= n < size_mod ->
    exists e, writeRequireLength n b = Ret e /\
      failed e = (zlen (room b) <? n) /\ isRecoverable e = failed e
}.

(** A buffer on which [writeAdvance(0)] does nothing. *)
Class ZeroAdvance (B : Type) `{BufferLaws B} :=
  writeAdvance_zero b : wf b -> writeAdvance 0 b = Ret b.

(** ** What an operation does to the abstract buffer *)
Section effects.
Context {B : Type} `{BufferLaws B}.

(** [n] bytes were consumed. *)
Definition consumes (n : Z) (b b' : B) : Prop :=
  wf b' /\ 0 <= n <= zlen (input b) /\ input b' = zdrop n (input b) /\
  rframe b' = rframe b.

(** the bytes [bs] were consumed. *)
Definition eats (bs : list byte) (b b' : B) : Prop :=
  wf b' /\ input b = bs ++ input b' /\ rframe b' = rframe b.

(** the bytes [bs] were stored at offset [off] of the room, uncommitted. *)
Definition stores (off : Z) (bs : list byte) (b b' : B) : Prop :=
  wf b' /\ input b' = input b /\ output b' = output b /\
  room b' = list_inserts (Z.to_nat off) bs (room b) /\ wframe b' = wframe b.

(** the bytes [bs] were written and committed. *)
Definition appends (bs : list byte) (b b' : B) : Prop :=
  wf b' /\ zlen bs <= zlen (room b) /\ output b' = output b ++ bs /\
  room b' = zdrop (zlen bs) (room b) /\ wframe b' = wframe b.

(** [for (i = 0; i < bs.size(); ++i) write(off + i) = bs[i];] *)
Fixpoint write_bytes (off : Z) (bs : list byte) (b : B) : outcome B :=
  match bs with
  | [] => Ret b
  | v :: bs => b ← write off v b; write_bytes (off + 1) bs b
  end.
End effects.

(** ** Generic facts *)
Section laws.
Context {B : Type} `{BufferLaws B}.
Implicit Types b : B.

Lemma consumes_refl b : wf b -> consumes 0 b b.
Proof.
  intros. pose proof (zlen_nonneg (input b)).
  split; [done|]. rewrite zdrop_0 by lia. repeat split; (done || lia).
Qed.

Lemma consumes_trans n m b b1 b2 :
  consumes n b b1 -> consumes m b1 b2 -> consumes (n + m) b b2.
Proof.
  intros (?&?&Hi1&?) (?&Hm&Hi2&?). rewrite Hi1 in Hm. zlist.
  repeat split; [done|lia|lia| |congruence].
  rewrite Hi2, Hi1, zdrop_drop by lia. done.
Qed.

Lemma consumes_eats n b b' : consumes n b b' -> eats (ztake n (input b)) b b'.
Proof. intros (?&?&Hi&?). repeat split; [done| |done]. by rewrite Hi, ztake_drop. Qed.

Lemma eats_nil b : wf b -> eats [] b b.
Proof. done. Qed.

Lemma eats_trans bs1 bs2 b b1 b2 :
  eats bs1 b b1 -> eats bs2 b1 b2 -> eats (bs1 ++ bs2) b b2.
Proof.
  intros (?&Hi1&?) (?&Hi2&?). repeat split; [done| |congruence].
  by rewrite Hi1, Hi2, app_assoc.
Qed.

Lemma eats_rest bs rest b b' :
  eats bs b b' -> input b = bs ++ rest -> input b' = rest.
Proof. intros (_&->&_). apply app_inv_head. Qed.

Lemma appends_nil b : wf b -> appends [] b b.
Proof.
  intros. pose proof (zlen_nonneg (room b)). zlist.
  repeat split; (done || lia || by rewrite ?app_nil_r, ?zdrop_0).
Qed.

Lemma appends_trans bs1 bs2 b b1 b2 :
  appends bs1 b b1 -> appends bs2 b1 b2 -> appends (bs1 ++ bs2) b b2.
Proof.
  intros (?&?&Ho1&Hr1&?) (?&Hl&Ho2&Hr2&?). rewrite Hr1 in Hl.
  pose proof (zlen_nonneg bs1); pose proof (zlen_nonneg bs2). zlist.
  repeat split; [done|zlist;lia| | |congruence].
  - by rewrite Ho2, Ho1, app_assoc.
  - rewrite Hr2, Hr1, zdrop_drop by lia. by zlist.
Qed.

Lemma appends_room bs b b' :
  appends bs b b' -> zlen (room b') = zlen (room b) - zlen bs.
Proof. intros (?&?&?&->&?). pose proof (zlen_nonneg bs). by zlist. Qed.

Lemma consumes_input n b b' :
  consumes n b b' -> zlen (input b') = zlen (input b) - n.
Proof. intros (?&?&->&?). by zlist. Qed.

Lemma readAdvance_consumes n b :
  wf b -> 0 <= n <= zlen (input b) ->
  exists b', readAdvance n b = Ret b' /\ consumes n b b'.
Proof.
  intros Hwf Hn. destruct (law_readAdvance b n Hwf Hn) as (b'&->&?&?&?).
  exists b'. split; [done|]. repeat split; (done || lia).
Qed.

(** A read of one byte: [read(i)] is the [i]-th input byte. *)
Lemma lookup_segment (l k : list byte) p off seg :
  0 < seg -> 0 <= p -> 0 <= off ->
  ztake seg (zdrop p l) = ztake seg (zdrop off k) ->
  l !! Z.to_nat p = k !! Z.to_nat off.
Proof.
  unfold ztake, zdrop. intros Hs Hp Ho Heq.
  apply (f_equal (fun x => x !! 0%nat)) in Heq.
  rewrite !lookup_take_lt, !lookup_drop, !Nat.add_0_r in Heq by lia. done.
Qed.

Lemma vec_get_Some {A} (l : list A) i x :
  l !! Z.to_nat i = Some x -> vec_get l i = Ret x.
Proof. unfold vec_get. by intros ->. Qed.

Lemma read_ok i b x :
  wf b -> 0 <= i -> input b !! Z.to_nat i = Some x ->
  read i b = Ret x /\ const_read i b = Ret x.
Proof.
  intros Hwf Hi Hx. pose proof (lookup_lt_Some _ _ _ Hx).
  destruct (law_readSegment b i Hwf) as (seg&p&?&?&Hr&Hc&?&?&Heq);
    [unfold zlen; lia|].
  unfold read, const_read. rewrite Hr, Hc, !bind_ret.
  split; apply vec_get_Some; rewrite <- Hx; eapply lookup_segment; eauto; lia.
Qed.

Lemma write_stores i v b :
  wf b -> 0 <= i < zlen (room b) ->
  exists b', write i v b = Ret b' /\ stores i [v] b b'.
Proof.
  intros Hwf Hi.
  destruct (law_writeSegment b i Hwf Hi) as (seg&p&?&?&Hr&?&?&Hw).
  unfold write. rewrite Hr, bind_ret, mem_write_ok by (zlist; lia).
  rewrite bind_ret. eexists; split; [done|]. apply Hw. zlist; lia.
Qed.

Lemma stores_nil off b : wf b -> stores off [] b b.
Proof. intros. repeat split; done. Qed.

Lemma stores_app off bs1 bs2 b b1 b2 :
  0 <= off -> stores off bs1 b b1 -> stores (off + zlen bs1) bs2 b1 b2 ->
  stores off (bs1 ++ bs2) b b2.
Proof.
  intros ? (?&?&?&Hr1&?) (?&?&?&Hr2&?).
  repeat split; [done|congruence|congruence| |congruence].
  rewrite Hr2, Hr1, list_inserts_app_l. f_equal. unfold zlen; lia.
Qed.

Lemma write_bytes_stores bs off b :
  wf b -> 0 <= off -> off + zlen bs <= zlen (room b) ->
  exists b', write_bytes off bs b = Ret b' /\ stores off bs b b'.
Proof.
  revert off b. induction bs as [|v bs IH]; intros off b Hwf Ho Hl; cbn.
  { exists b. split; [done|]. by apply stores_nil. }
  pose proof (zlen_nonneg bs). zlist.
  destruct (write_stores off v b Hwf) as (b1&->&Hs1); [lia|].
  rewrite bind_ret. pose proof Hs1 as (?&?&?&Hr1&?).
  destruct (IH (off + 1) b1) as (b2&->&Hs2); [done|lia| |].
  { rewrite Hr1. zlist. lia. }
  exists b2. split; [done|].
  apply (stores_app off [v] bs b b1 b2); [lia|done|]. by zlist.
Qed.

(** Bytes stored at the front of the room and then committed. *)
Lemma commit_stores bs b b1 :
  wf b -> 0 < zlen bs <= zlen (room b) -> stores 0 bs b b1 ->
  exists b2, writeAdvance (zlen bs) b1 = Ret b2 /\ appends bs b b2.
Proof.
  intros Hwf Hl (Hwf1&Hi&Ho&Hr&Hf).
  destruct (law_writeAdvance b1 (zlen bs) Hwf1) as (b2&->&?&Ho2&Hr2&Hf2).
  { rewrite Hr. zlist. lia. }
  exists b2. split; [done|].
  rewrite <- (ztake_drop (zlen bs) (room b)) in Hr.
  change (Z.to_nat 0) with 0%nat in Hr.
  rewrite list_inserts_0_r in Hr
    by (unfold zlen, ztake in *; rewrite length_take; lia).
  rewrite Hr in Ho2, Hr2. rewrite ztake_app_exact in Ho2 by done.
  rewrite zdrop_app_exact in Hr2 by done.
  repeat split; [done|lia|congruence|done|congruence].
Qed.

(** Several bytes at once: the two [memcpy] steps. *)
Lemma memcpy_appends b :
  wf b -> 0 < zlen (room b) ->
  exists seg p, writeSegmentLength 0 b = Ret seg /\ 0 < seg <= zlen (room b) /\
    write_ref 0 b = Ret p /\ 0 <= p /\ p + seg <= zlen (memory b) /\
    forall k, 0 < zlen k <= seg -> exists m b',
      mem_write (memory b) p k = Ret m /\
      writeAdvance (zlen k) (set_memory m b) = Ret b' /\ appends k b b'.
Proof.
  intros Hwf Hl.
  destruct (law_writeSegment b 0 Hwf) as (seg&p&?&?&?&?&?&Hw); [lia|].
  exists seg, p. do 5 (split; [done || lia|]). intros k Hk.
  assert (Hs : stores 0 k b (set_memory (list_inserts (Z.to_nat p) k (memory b)) b))
    by (apply Hw; lia).
  destruct (commit_stores k b _ Hwf ltac:(lia) Hs) as (b'&Ha&?).
  rewrite mem_write_ok by lia. eauto.
Qed.

Lemma push_loop_appends fuel src size b :
  wf b -> (Z.to_nat size <= fuel)%nat -> 0 <= size <= zlen src ->
  size <= zlen (room b) ->
  exists b', push_loop fuel src size b = Ret b' /\
    appends (ztake size src) b b'.
Proof.
  revert src size b. induction fuel as [|fuel IH]; intros src size b Hwf Hf Hs Hr.
  { cbn. bcase; [lia|]. exists b. split; [done|].
    rewrite ztake_0 by lia. by apply appends_nil. }
  cbn. bcase; last first.
  { exists b. split; [done|]. rewrite ztake_0 by lia. by apply appends_nil. }
  destruct (memcpy_appends b Hwf) as (seg&p&->&?&->&?&?&Hc); [lia|].
  rewrite !bind_ret. set (k := ztake (Z.min seg size) src).
  assert (Hk : zlen k = Z.min seg size) by (apply zlen_take; lia).
  rewrite mem_read_ok, (zdrop_0 0), bind_ret by lia. fold k.
  destruct (Hc k) as (m&b1&->&Hb1&Ha); [lia|].
  rewrite bind_ret, <- Hk, Hb1, bind_ret.
  pose proof (appends_room _ _ _ Ha). destruct (law_bounds b Hwf).
  wsimp. destruct (IH (zdrop (zlen k) src) (size - zlen k) b1) as (b2&->&Ha2).
  { apply Ha. } { lia. } { zlist. lia. } { lia. }
  exists b2. split; [done|].
  replace (ztake size src)
    with (k ++ ztake (size - zlen k) (zdrop (zlen k) src)).
  { by eapply appends_trans. }
  subst k. rewrite zlen_take by lia. unfold ztake, zdrop.
  rewrite <- (take_drop (Z.to_nat (Z.min seg size)) (take (Z.to_nat size) src)).
  rewrite take_take, skipn_firstn_comm. f_equal; f_equal; lia.
Qed.

Lemma memcpy_consumes b :
  wf b -> 0 < zlen (input b) ->
  exists seg p, readSegmentLength 0 b = Ret seg /\ 0 < seg <= zlen (input b) /\
    read_ref 0 b = Ret p /\
    forall n, 0 < n <= seg -> mem_read (memory b) p n = Ret (ztake n (input b)).
Proof.
  intros Hwf Hl.
  destruct (law_readSegment b 0 Hwf) as (seg&p&?&?&?&?&?&?&Heq); [lia|].
  exists seg, p. do 3 (split; [done || lia|]). intros n Hn.
  rewrite mem_read_ok by lia. f_equal.
  apply (f_equal (ztake n)) in Heq. unfold ztake, zdrop in *.
  rewrite !take_take in Heq.
  by replace (Z.to_nat n `min` Z.to_nat seg)%nat with (Z.to_nat n) in Heq by lia.
Qed.

Lemma pop_loop_consumes fuel size b :
  wf b -> (Z.to_nat size <= fuel)%nat -> 0 <= size <= zlen (input b) ->
  exists b', pop_loop fuel size b = Ret (ztake size (input b), b') /\
    consumes size b b'.
Proof.
  revert size b. induction fuel as [|fuel IH]; intros size b Hwf Hf Hs.
  { cbn. bcase; [lia|]. exists b. rewrite ztake_0 by lia. split; [done|].
    replace size with 0 by lia. by apply consumes_refl. }
  cbn. bcase; last first.
  { exists b. rewrite ztake_0 by lia. split; [done|].
    replace size with 0 by lia. by apply consumes_refl. }
  destruct (memcpy_consumes b Hwf) as (seg&p&->&?&->&Hc); [lia|].
  rewrite !bind_ret, Hc, bind_ret by lia.
  destruct (readAdvance_consumes (Z.min seg size) b Hwf) as (b1&->&Hb1); [lia|].
  destruct (law_bounds b Hwf).
  rewrite bind_ret. wsimp. pose proof (consumes_input _ _ _ Hb1).
  destruct (IH (size - Z.min seg size) b1) as (b2&->&Hb2); [apply Hb1|lia|lia|].
  rewrite bind_ret. exists b2. split.
  - destruct Hb1 as (?&?&->&?). by rewrite ztake_split by lia.
  - replace size with (Z.min seg size + (size - Z.min seg size)) by lia.
    by eapply consumes_trans.
Qed.

(** *** [push] and [pop] *)
Lemma push_ok src size b :
  wf b -> 0 <= size <= zlen src -> size <= zlen (room b) ->
  exists b', push src size b = Ret (noError, b') /\ appends (ztake size src) b b'.
Proof.
  intros Hwf Hs Hr. destruct (law_bounds b Hwf).
  destruct (law_writeRequireLength b size Hwf) as (e&He&Hf&?); [lia|].
  unfold push. rewrite He, bind_ret, Hf. bcase; [lia|].
  destruct (push_loop_appends (Z.to_nat size) src size b) as (b'&->&?);
    [done..|]. rewrite bind_ret. eauto.
Qed.

Lemma push_refused src size b :
  wf b -> zlen (room b) < size <= ptrdiff_max ->
  exists e, push src size b = Ret (e, b) /\ isRecoverable e = true.
Proof.
  intros Hwf Hs. pose proof (zlen_nonneg (room b)).
  destruct (law_writeRequireLength b size Hwf) as (e&He&Hf&Hr); [lia|].
  unfold push. rewrite He, bind_ret, Hf. revert Hf. bcase; [|lia].
  intros Hf. exists e. by rewrite Hr.
Qed.

Lemma pop_ok dst size b :
  wf b -> 0 <= size <= zlen (input b) ->
  exists b', pop dst size b = Ret (noError, ztake size (input b), b') /\
    consumes size b b'.
Proof.
  intros Hwf Hs. unfold pop. rewrite law_readCompositeLength, bind_ret by done.
  bcase; [|lia].
  destruct (pop_loop_consumes (Z.to_nat size) size b) as (b'&->&?); [done..|].
  rewrite bind_ret. eauto.
Qed.

Lemma pop_refused dst size b :
  wf b -> zlen (input b) < size ->
  pop dst size b = Ret (recoverableError "Buffer too small", dst, b).
Proof.
  intros. unfold pop. rewrite law_readCompositeLength, bind_ret by done.
  by bcase; [lia|].
Qed.

Lemma push_value_ok v b :
  wf b -> 0 < zlen (room b) ->
  exists b', push_value v b = Ret (noError, b') /\ appends [v] b b'.
Proof.
  intros Hwf Hr. unfold push_value.
  rewrite law_writeCompositeLength, bind_ret by done. bcase; [|lia].
  destruct (write_stores 0 v b Hwf) as (b1&->&Hs); [lia|].
  destruct (commit_stores [v] b b1 Hwf ltac:(zlist; lia) Hs) as (b2&Ha&?).
  change (zlen [v]) with 1 in Ha. rewrite bind_ret, Ha. eauto.
Qed.

Lemma pop_value_ok v0 v k b :
  wf b -> input b = v :: k ->
  exists b', pop_value v0 b = Ret (noError, v, b') /\ consumes 1 b b'.
Proof.
  intros Hwf Hi. unfold pop_value.
  rewrite law_readCompositeLength, bind_ret, Hi by done.
  pose proof (zlen_nonneg k). rewrite zlen_cons. bcase; [|lia].
  destruct (read_ok 0 b v Hwf) as [-> _]; [lia|by rewrite Hi|].
  destruct (readAdvance_consumes 1 b Hwf) as (b'&->&?); [|eauto].
  rewrite Hi, zlen_cons. lia.
Qed.

(** *** Printing *)
Lemma mapM_seqZ {A} (g : Z -> outcome A) (f : byte -> Z -> A) (l : list byte) k :
  (forall i x, l !! i = Some x -> g (k + Z.of_nat i) = Ret (f x (k + Z.of_nat i))) ->
  mapM g (seqZ k (zlen l)) = Ret (zip_with f l (seqZ k (zlen l))).
Proof.
  revert k. induction l as [|x l IH]; intros k Hg; [done|].
  pose proof (zlen_nonneg l). rewrite zlen_cons, seqZ_cons by lia. cbn.
  pose proof (Hg 0%nat x eq_refl) as Hx. rewrite Z.add_0_r in Hx. rewrite Hx.
  replace (Z.pred (1 + zlen l)) with (zlen l) by lia. cbn.
  rewrite IH; [done|]. intros i y Hy.
  replace (Z.succ k + Z.of_nat i) with (k + Z.of_nat (S i)) by lia. by apply Hg.
Qed.

Lemma const_read_input b i x :
  wf b -> input b !! i = Some x -> const_read (Z.of_nat i) b = Ret x.
Proof.
  intros Hwf Hx.
  destruct (read_ok (Z.of_nat i) b x Hwf) as [_ H']; [lia| |done].
  by rewrite Nat2Z.id.
Qed.

Lemma zip_with_left {A C} (l : list A) (k : list C) :
  length l = length k -> zip_with (fun x _ => x) l k = l.
Proof.
  revert k. induction l as [|x l IH]; intros [|y k]; cbn; try done.
  intros [= ?]. f_equal. auto.
Qed.

(** Reading positions [0 .. n-1] without advancing. *)
Lemma read_all n b :
  wf b -> 0 <= n <= zlen (input b) ->
  mapM (fun i => read i b) (seqZ 0 n) = Ret (ztake n (input b)).
Proof.
  intros Hwf Hn.
  pose proof (mapM_seqZ (fun i => read i b) (fun x _ => x) (ztake n (input b)) 0) as Hm.
  rewrite zlen_take in Hm by lia. rewrite Hm.
  - rewrite zip_with_left; [done|]. rewrite length_seqZ.
    pose proof (zlen_take n (input b)). unfold zlen in *. lia.
  - intros i x Hx. cbn. unfold ztake in Hx. apply lookup_take_Some in Hx as [Hx _].
    destruct (read_ok (Z.of_nat i) b x Hwf) as [? _]; [lia| |done]. by rewrite Nat2Z.id.
Qed.
End laws.
