(* ===== verification/RingBuffer.v ===== *)
(** Model of the class [RingBuffer] of [source/forstio/buffer.h] and
    [buffer.cpp]: a vector read and written with wrap-around, and the proof that
    it implements the [Buffer] contract by a rotated window of the vector. *)

From S2P Require Import Prelude Error Buffer.

Definition RING_BUFFER_MAX_SIZE : Z := 4096.

Record RingBuffer := mkRing {
  buffer : list byte;
  read_position : Z;
  write_position : Z;
  write_reached_read : bool
}.

Module Ring.
Implicit Types b : RingBuffer.

(** [buffer.size()] *)
Definition size b : Z := zlen (buffer b).

(** [RingBuffer(size_t size)]; [vector::resize] throws beyond its maximum. *)
Definition make (n : Z) : outcome RingBuffer :=
  if n <=? ptrdiff_max then Ret (mkRing (replicate (Z.to_nat n) x00) 0 0 false)
  else Halt LengthError.
Definition make_default : outcome RingBuffer := make RING_BUFFER_MAX_SIZE.

Definition readPosition b : Z := read_position b.
Definition writePosition b : Z := write_position b.

Definition readCompositeLength b : Z :=
  if writePosition b <? readPosition b
  then size b -! (readPosition b -! writePosition b)
  else if write_reached_read b then size b
       else writePosition b -! readPosition b.

Definition readSegmentLength (offset : Z) b : outcome Z :=
  let read_composite := readCompositeLength b in
  _ ← assert_that (offset <=? read_composite);
  let offset := Z.min offset read_composite in
  let remaining := read_composite -! offset in
  let read_offset := readPosition b +! offset in
  let read_offset := if size b <=? read_offset then read_offset -! size b
                     else read_offset in
  Ret (if writePosition b <? read_offset then size b -! read_offset
       else if writePosition b =? read_offset then
         (if 0 <? remaining then size b -! read_offset else 0)
       else writePosition b -! read_offset).

Definition readAdvance (bytes : Z) b : outcome RingBuffer :=
  let read_composite := readCompositeLength b in
  _ ← assert_that (bytes <=? read_composite);
  let bytes := Z.min bytes read_composite in
  let advanced := read_position b +! bytes in
  Ret (mkRing (buffer b)
         (if size b <=? advanced then advanced -! size b else advanced)
         (write_position b)
         (if 0 <? bytes then false else write_reached_read b)).

(** The index [read(i)] refers to; the const overload has the same body. *)
Definition read_ref (i : Z) b : outcome Z :=
  _ ← assert_that (i <? readCompositeLength b);
  let pos := read_position b +! i in
  Ret (if size b <=? pos then pos -! size b else pos).

Definition writeCompositeLength b : Z :=
  if writePosition b <? readPosition b then readPosition b -! writePosition b
  else if write_reached_read b then 0
       else size b -! (writePosition b -! readPosition b).

Definition writeSegmentLength (offset : Z) b : outcome Z :=
  let write_composite := writeCompositeLength b in
  _ ← assert_that (offset <=? write_composite);
  let offset := Z.min offset write_composite in
  let write_offset := writePosition b +! offset in
  let write_offset := if size b <=? write_offset then write_offset -! size b
                      else write_offset in
  Ret (if write_offset <? read_position b then read_position b -! write_offset
       else if write_reached_read b then 0
       else size b -! write_offset).

Definition writeAdvance (bytes : Z) b : outcome RingBuffer :=
  _ ← assert_that (bytes <=? writeCompositeLength b);
  let advanced := write_position b +! bytes in
  let write_position := if size b <=? advanced then advanced -! size b
                        else advanced in
  Ret (mkRing (buffer b) (read_position b) write_position
         (if (write_position =? read_position b) && (0 <? bytes)
          then true else false)).

Definition write_ref (i : Z) b : outcome Z :=
  _ ← assert_that (i <? writeCompositeLength b);
  let pos := write_position b +! i in
  Ret (if size b <=? pos then pos -! size b else pos).

Definition writeRequireLength (bytes : Z) b : outcome Error :=
  let write_remain := writeCompositeLength b in
  if write_remain <? bytes then Ret (recoverableError "Buffer too small")
  else Ret noError.

Definition set_buffer (v : list byte) b : RingBuffer :=
  mkRing v (read_position b) (write_position b) (write_reached_read b).
End Ring.

#[export] Instance ring_ops : BufferOps RingBuffer := {
  memory := buffer;
  set_memory := Ring.set_buffer;
  readPosition := Ring.readPosition;
  readCompositeLength b := Ret (Ring.readCompositeLength b);
  readSegmentLength := Ring.readSegmentLength;
  readAdvance := Ring.readAdvance;
  read_ref := Ring.read_ref;
  const_read_ref := Ring.read_ref;
  writePosition := Ring.writePosition;
  writeCompositeLength b := Ret (Ring.writeCompositeLength b);
  writeSegmentLength := Ring.writeSegmentLength;
  writeAdvance := Ring.writeAdvance;
  write_ref := Ring.write_ref;
  writeRequireLength := Ring.writeRequireLength
}.

(** ** The invariant and the abstraction *)

(** Both positions are inside the vector; the flag is only set when they meet. *)
Definition ring_wf (b : RingBuffer) : Prop :=
  0 < Ring.size b <= ptrdiff_max /\
  0 <= read_position b < Ring.size b /\ 0 <= write_position b < Ring.size b /\
  (write_reached_read b = true -> read_position b = write_position b).

(** The vector read from [read_position] on: first the stored bytes, then the
    free cells in the order in which they will be written. *)
Definition ring_window (b : RingBuffer) : list byte :=
  rot (read_position b) (buffer b).
Definition ring_input (b : RingBuffer) : list byte :=
  ztake (Ring.readCompositeLength b) (ring_window b).
Definition ring_room (b : RingBuffer) : list byte :=
  zdrop (Ring.readCompositeLength b) (ring_window b).

(** ** Arithmetic of the two positions *)
Section arithmetic.
Implicit Types b : RingBuffer.

Ltac ring_unfold :=
  unfold ring_wf, Ring.readCompositeLength, Ring.writeCompositeLength,
    Ring.readPosition, Ring.writePosition in *.

Lemma ring_composite b :
  ring_wf b ->
  0 <= Ring.readCompositeLength b <= Ring.size b /\
  Ring.writeCompositeLength b = Ring.size b - Ring.readCompositeLength b.
Proof.
  intros (?&?&?&Hf). ring_unfold.
  destruct (write_reached_read b); [specialize (Hf eq_refl)|clear Hf];
    repeat bcase; wsimp; zsolve.
Qed.

(** The write position is [readCompositeLength] cells after the read one. *)
Lemma ring_write_position b :
  ring_wf b ->
  write_position b =
    (if Ring.size b <=? read_position b + Ring.readCompositeLength b
     then read_position b + Ring.readCompositeLength b - Ring.size b
     else read_position b + Ring.readCompositeLength b).
Proof.
  intros (?&?&?&Hf). ring_unfold.
  destruct (write_reached_read b); [specialize (Hf eq_refl)|clear Hf];
    destruct (Z.ltb_spec (write_position b) (read_position b));
    wsimp; repeat bcase; zsolve.
Qed.

(** [write_reached_read] is set exactly on the full buffer. *)
Lemma ring_full b :
  ring_wf b ->
  write_reached_read b = true <-> Ring.readCompositeLength b = Ring.size b.
Proof.
  intros (?&?&?&Hf). ring_unfold. split.
  - intros E. specialize (Hf E). rewrite E. bcase; lia.
  - bcase; wsimp; [zsolve|]. destruct (write_reached_read b); [done|].
    wsimp. zsolve.
Qed.
End arithmetic.

(** ** The operations through the window *)
Section window.
Implicit Types b : RingBuffer.

Lemma ring_window_len b : ring_wf b -> zlen (ring_window b) = Ring.size b.
Proof. intros (?&?&?&?). apply zlen_rot. unfold Ring.size in *. lia. Qed.

Lemma ring_input_len b : ring_wf b -> zlen (ring_input b) = Ring.readCompositeLength b.
Proof.
  intros Hwf. pose proof (ring_composite b Hwf).
  apply zlen_take. rewrite ring_window_len by done. lia.
Qed.

Lemma ring_room_len b : ring_wf b -> zlen (ring_room b) = Ring.writeCompositeLength b.
Proof.
  intros Hwf. pose proof (ring_composite b Hwf).
  unfold ring_room. rewrite zlen_drop; rewrite ring_window_len by done; lia.
Qed.

(** The index arithmetic of [read], [write] and the two segments. *)
Lemma ring_read_index b off :
  ring_wf b -> 0 <= off <= Ring.size b ->
  (if Ring.size b <=? read_position b +! off
   then read_position b +! off -! Ring.size b else read_position b +! off) =
  wrap_index (read_position b) off (Ring.size b).
Proof.
  intros (?&?&?&_) ?. unfold wrap_index. wsimp. bcase; wsimp; zsolve.
Qed.

Lemma ring_write_index b off :
  ring_wf b -> 0 <= off < Ring.writeCompositeLength b ->
  (if Ring.size b <=? write_position b +! off
   then write_position b +! off -! Ring.size b else write_position b +! off) =
  wrap_index (read_position b) (Ring.readCompositeLength b + off) (Ring.size b).
Proof.
  intros Hwf ?. pose proof (ring_composite b Hwf).
  pose proof (ring_write_position b Hwf) as Hw. destruct Hwf as (?&?&?&_).
  revert Hw. unfold wrap_index. wsimp.
  repeat bcase; intros; wsimp; zsolve.
Qed.

Lemma ring_read_segment b off :
  ring_wf b -> 0 <= off < Ring.readCompositeLength b ->
  exists seg, Ring.readSegmentLength off b = Ret seg /\
    0 < seg <= Ring.readCompositeLength b - off /\
    wrap_index (read_position b) off (Ring.size b) + seg <= Ring.size b.
Proof.
  intros Hwf Ho. pose proof (ring_composite b Hwf).
  pose proof (ring_write_position b Hwf) as Hw. pose proof Hwf as (?&?&?&_).
  unfold Ring.readSegmentLength. rewrite assert_that_true by (bcase; lia).
  cbn -[Ring.readCompositeLength]. rewrite Z.min_l by lia. eexists; split; [done|].
  unfold Ring.readPosition, Ring.writePosition.
  pose proof (ring_read_index b off Hwf ltac:(lia)) as ->.
  revert Hw. unfold wrap_index. wsimp.
  repeat (bcase; wsimp); intros; zsolve.
Qed.

Lemma ring_write_segment b off :
  ring_wf b -> 0 <= off < Ring.writeCompositeLength b ->
  exists seg, Ring.writeSegmentLength off b = Ret seg /\
    0 < seg <= Ring.writeCompositeLength b - off /\
    wrap_index (read_position b) (Ring.readCompositeLength b + off) (Ring.size b)
      + seg <= Ring.size b.
Proof.
  intros Hwf Ho. pose proof (ring_composite b Hwf).
  pose proof (ring_write_position b Hwf) as Hw. pose proof (ring_full b Hwf) as Hfull.
  pose proof Hwf as (?&?&?&_).
  unfold Ring.writeSegmentLength. rewrite assert_that_true by (bcase; lia).
  cbn -[Ring.writeCompositeLength]. rewrite Z.min_l by lia. eexists; split; [done|].
  unfold Ring.readPosition, Ring.writePosition.
  pose proof (ring_write_index b off Hwf ltac:(lia)) as ->.
  destruct (write_reached_read b); [specialize (proj1 Hfull eq_refl); lia|].
  revert Hw. unfold wrap_index. repeat (bcase; wsimp); intros; zsolve.
Qed.
End window.

(** ** The contract *)
Section contract.
Implicit Types b : RingBuffer.

Lemma ring_bounds b :
  ring_wf b -> zlen (ring_input b) <= ptrdiff_max /\ zlen (ring_room b) <= ptrdiff_max.
Proof.
  intros Hwf. rewrite ring_input_len, ring_room_len by done.
  pose proof (ring_composite b Hwf). destruct Hwf. lia.
Qed.

Lemma ring_law_readSegment b off :
  ring_wf b -> 0 <= off < zlen (ring_input b) ->
  exists seg p, Ring.readSegmentLength off b = Ret seg /\
    0 < seg <= zlen (ring_input b) - off /\
    Ring.read_ref off b = Ret p /\ Ring.read_ref off b = Ret p /\
    0 <= p /\ p + seg <= zlen (buffer b) /\
    ztake seg (zdrop p (buffer b)) = ztake seg (zdrop off (ring_input b)).
Proof.
  intros Hwf. rewrite ring_input_len by done. intros Ho.
  pose proof (ring_composite b Hwf). pose proof (ring_window_len b Hwf).
  destruct (ring_read_segment b off Hwf Ho) as (seg&Hs&?&?).
  assert (Ring.read_ref off b = Ret (wrap_index (read_position b) off (Ring.size b)))
    as Hr.
  { unfold Ring.read_ref. rewrite assert_that_true by (bcase; lia). cbn.
    by rewrite ring_read_index by (done || lia). }
  exists seg, (wrap_index (read_position b) off (Ring.size b)).
  do 4 (split; [done|]). destruct Hwf as (?&?&_).
  split; [unfold wrap_index; bcase; lia|]. split; [done|].
  unfold ring_input. rewrite ztake_zdrop_ztake by lia.
  unfold Ring.size in *. apply rot_segment; lia.
Qed.

Lemma ring_law_writeSegment b off :
  ring_wf b -> 0 <= off < zlen (ring_room b) ->
  exists seg p, Ring.writeSegmentLength off b = Ret seg /\
    0 < seg <= zlen (ring_room b) - off /\
    Ring.write_ref off b = Ret p /\ 0 <= p /\ p + seg <= zlen (buffer b) /\
    forall bs, zlen bs <= seg ->
      let b' := Ring.set_buffer (list_inserts (Z.to_nat p) bs (buffer b)) b in
      ring_wf b' /\ ring_input b' = ring_input b /\ ring_input b' = ring_input b /\
      ring_room b' = list_inserts (Z.to_nat off) bs (ring_room b) /\
      (Ring.size b', read_position b') = (Ring.size b, read_position b).
Proof.
  intros Hwf. rewrite ring_room_len by done. intros Ho.
  pose proof (ring_composite b Hwf). pose proof (ring_window_len b Hwf) as Hwl.
  destruct (ring_write_segment b off Hwf Ho) as (seg&Hs&?&?).
  set (n := Ring.readCompositeLength b) in *.
  assert (Ring.write_ref off b = Ret (wrap_index (read_position b) (n + off) (Ring.size b)))
    as Hr.
  { unfold Ring.write_ref. rewrite assert_that_true by (bcase; lia). cbn.
    by rewrite ring_write_index by (done || lia). }
  exists seg, (wrap_index (read_position b) (n + off) (Ring.size b)).
  do 3 (split; [done|]). pose proof Hwf as (?&?&_).
  split; [unfold wrap_index; bcase; lia|]. split; [done|]. intros bs Hbs b'.
  assert (Hsz : Ring.size b' = Ring.size b) by (unfold Ring.size; apply zlen_inserts).
  assert (Hc : Ring.readCompositeLength b' = n).
  { unfold n, Ring.readCompositeLength. by rewrite Hsz. }
  assert (Hwin : ring_window b' =
    list_inserts (Z.to_nat (n + off)) bs (ring_window b)).
  { unfold Ring.size in *. apply rot_inserts; lia. }
  unfold ring_wf, ring_input, ring_room. rewrite Hsz, Hc, Hwin. fold n.
  split; [exact Hwf|].
  assert (ztake n (list_inserts (Z.to_nat (n + off)) bs (ring_window b)) =
          ztake n (ring_window b)) as Ht.
  { apply list_eq; intros j. unfold ztake. rewrite !lookup_take. case_decide; [|done].
    apply list_lookup_inserts_lt. lia. }
  do 2 (split; [exact Ht|]). split; [|done].
  apply list_eq; intros j. rewrite lookup_zdrop.
  rewrite !lookup_inserts by (unfold zdrop, zlen in *; rewrite ?length_drop; lia).
  rewrite lookup_zdrop. repeat case_decide; (f_equal; lia) || lia.
Qed.

Lemma ring_readAdvance_eq b n :
  ring_wf b -> 0 <= n <= Ring.readCompositeLength b ->
  Ring.readAdvance n b =
    Ret (mkRing (buffer b) (wrap_index (read_position b) n (Ring.size b))
           (write_position b) (if 0 <? n then false else write_reached_read b)).
Proof.
  intros Hwf Hn. pose proof (ring_composite b Hwf).
  unfold Ring.readAdvance. rewrite assert_that_true by (bcase; lia). cbn.
  rewrite Z.min_l by lia. by rewrite ring_read_index by (done || lia).
Qed.

Lemma ring_readAdvance_wf b n b' :
  ring_wf b -> 0 <= n <= Ring.readCompositeLength b ->
  Ring.readAdvance n b = Ret b' ->
  ring_wf b' /\ Ring.readCompositeLength b' = Ring.readCompositeLength b - n.
Proof.
  intros Hwf Hn. rewrite ring_readAdvance_eq by done. intros [= <-].
  destruct Hwf as (?&?&?&Hf). revert Hn.
  unfold ring_wf, Ring.readCompositeLength, Ring.readPosition, Ring.writePosition,
    Ring.size, wrap_index in *; cbn.
  destruct (write_reached_read b); [specialize (Hf eq_refl)|clear Hf];
    repeat (bcase; wsimp); cbn; intros; wsimp; zsolve.
Qed.

Lemma ring_law_readAdvance b n :
  ring_wf b -> 0 <= n <= zlen (ring_input b) ->
  exists b', Ring.readAdvance n b = Ret b' /\ ring_wf b' /\
    ring_input b' = zdrop n (ring_input b) /\
    ring_room b' = ring_room b ++ ztake n (ring_input b) /\
    (buffer b', write_position b') = (buffer b, write_position b).
Proof.
  intros Hwf. rewrite ring_input_len by done. intros Hn.
  pose proof (ring_composite b Hwf). pose proof (ring_window_len b Hwf).
  pose proof (ring_readAdvance_eq b n Hwf Hn) as Ha.
  destruct (ring_readAdvance_wf b n _ Hwf Hn Ha) as [Hwf' Hc'].
  eexists; split; [exact Ha|]. split; [exact Hwf'|].
  unfold ring_input, ring_room. rewrite Hc'. unfold ring_window at 1 3. cbn.
  pose proof Hwf as (_&Hp&_). unfold Ring.size in *. rewrite rot_advance by lia.
  fold (ring_window b). set (c := Ring.readCompositeLength b) in *.
  set (w := ring_window b) in *. unfold ztake, zdrop, zlen in *.
  rewrite take_app_le, drop_app_le by (rewrite length_drop; lia).
  rewrite drop_drop, skipn_firstn_comm, take_take.
  split; [f_equal; lia|]. split; [|done]. f_equal; f_equal; lia.
Qed.

Lemma ring_writeAdvance_eq b n :
  ring_wf b -> 0 < n <= Ring.writeCompositeLength b ->
  exists wp flag, Ring.writeAdvance n b = Ret (mkRing (buffer b) (read_position b) wp flag) /\
    let b' := mkRing (buffer b) (read_position b) wp flag in
    ring_wf b' /\ Ring.readCompositeLength b' = Ring.readCompositeLength b + n.
Proof.
  intros Hwf Hn. pose proof (ring_composite b Hwf).
  pose proof Hwf as (?&?&?&Hf). assert (n <= Ring.size b) by lia.
  unfold Ring.writeAdvance. rewrite assert_that_true by (bcase; lia). cbn. wsimp.
  do 2 eexists; split; [done|]. revert Hn.
  unfold ring_wf, Ring.readCompositeLength, Ring.writeCompositeLength,
    Ring.readPosition, Ring.writePosition, Ring.size in *; cbn.
  destruct (Z.leb_spec (zlen (buffer b)) (write_position b + n)); wsimp;
    (destruct (write_reached_read b); [specialize (Hf eq_refl)|clear Hf]);
    repeat (bcase; wsimp); cbn; intros; wsimp; zsolve.
Qed.

Lemma ring_law_writeAdvance b n :
  ring_wf b -> 0 < n <= zlen (ring_room b) ->
  exists b', Ring.writeAdvance n b = Ret b' /\ ring_wf b' /\
    ring_input b' = ring_input b ++ ztake n (ring_room b) /\
    ring_room b' = zdrop n (ring_room b) /\
    (Ring.size b', read_position b') = (Ring.size b, read_position b).
Proof.
  intros Hwf. rewrite ring_room_len by done. intros Hn.
  pose proof (ring_composite b Hwf). pose proof (ring_window_len b Hwf).
  destruct (ring_writeAdvance_eq b n Hwf Hn) as (wp&flag&->&Hwf'&Hc').
  eexists; split; [done|]. split; [exact Hwf'|].
  unfold ring_input, ring_room. rewrite Hc'.
  change (ring_window (mkRing (buffer b) (read_position b) wp flag))
    with (ring_window b). set (c := Ring.readCompositeLength b) in *.
  split; [|split; [by rewrite zdrop_drop by lia|done]].
  rewrite <- (ztake_split c (c + n)) by lia. by replace (c + n - c) with n by lia.
Qed.

Lemma ring_law_writeRequireLength b n :
  ring_wf b -> 0 <= n < size_mod ->
  exists e, Ring.writeRequireLength n b = Ret e /\
    failed e = (zlen (ring_room b) <? n) /\ isRecoverable e = failed e.
Proof.
  intros Hwf _. rewrite ring_room_len by done. unfold Ring.writeRequireLength.
  bcase; eauto.
Qed.
End contract.

#[export, refine] Instance ring_laws : BufferLaws RingBuffer := {
  wf := ring_wf;
  input := ring_input;
  output := ring_input;
  room := ring_room;
  rframe_t := list byte * Z; rframe b := (buffer b, write_position b);
  wframe_t := Z * Z; wframe b := (Ring.size b, read_position b);
  law_bounds := ring_bounds;
  law_readSegment := ring_law_readSegment;
  law_writeSegment := ring_law_writeSegment;
  law_writeAdvance := ring_law_writeAdvance
}.
Proof.
  - intros b Hwf. cbn. by rewrite ring_input_len.
  - intros b Hwf. cbn. by rewrite ring_room_len.
  - intros b n Hwf Hn. destruct (ring_law_readAdvance b n Hwf Hn) as (b'&?&?&?&?&?).
    by exists b'.
  - intros b n Hwf Hn. apply ring_law_writeRequireLength; [done|zsolve].
Defined.

#[export] Instance ring_stream : StreamBuffer RingBuffer.
Proof. split; [by intros|exact ring_law_writeRequireLength]. Qed.

Lemma ring_make_wf n b :
  0 < n -> Ring.make n = Ret b -> ring_wf b /\ ring_input b = [] /\ zlen (ring_room b) = n.
Proof.
  unfold Ring.make. bcase; [|done]. intros ? [= <-].
  assert (Hs : Ring.size (mkRing (replicate (Z.to_nat n) x00) 0 0 false) = n)
    by (unfold Ring.size, zlen; cbn; rewrite length_replicate; lia).
  assert (Hwf : ring_wf (mkRing (replicate (Z.to_nat n) x00) 0 0 false))
    by (unfold ring_wf; rewrite Hs; cbn; lia).
  split; [done|]. split; [by apply ztake_0|].
  rewrite ring_room_len by done. unfold Ring.writeCompositeLength. cbn.
  rewrite Hs. wsimp. lia.
Qed.

(** ** Access to the vector through a pointer: [&read()] and [&write()] *)
Section pointers.
Implicit Types b : RingBuffer.

Lemma ring_write_wrap b :
  ring_wf b ->
  write_position b = wrap_index (read_position b) (Ring.readCompositeLength b) (Ring.size b).
Proof. intros Hwf. rewrite (ring_write_position b Hwf). by unfold wrap_index. Qed.

Lemma ring_read_pointer b :
  ring_wf b -> ring_input b <> [] ->
  Ring.read_ref 0 b = Ret (read_position b) /\
  exists n, Ring.readSegmentLength 0 b = Ret n /\ 0 < n <= zlen (ring_input b) /\
    read_position b + n <= Ring.size b.
Proof.
  intros Hwf Hne. assert (Hpos : 0 < zlen (ring_input b)).
  { destruct (ring_input b); [done|]. rewrite zlen_cons. pose proof (zlen_nonneg l). lia. }
  rewrite ring_input_len in * by done. pose proof Hwf as (Hs&Hr&_).
  assert (Hw : wrap_index (read_position b) 0 (Ring.size b) = read_position b).
  { unfold wrap_index. bcase; lia. }
  split.
  - unfold Ring.read_ref. rewrite assert_that_true by (bcase; lia). cbn.
    rewrite ring_read_index by (done || lia). by rewrite Hw.
  - destruct (ring_read_segment b 0 Hwf) as (n&?&?&?); [lia|]. exists n.
    rewrite Hw in *. split_and!; (done || lia).
Qed.

Lemma ring_write_pointer b :
  ring_wf b -> ring_room b <> [] ->
  Ring.write_ref 0 b = Ret (write_position b) /\
  exists n, Ring.writeSegmentLength 0 b = Ret n /\ 0 < n <= zlen (ring_room b) /\
    write_position b + n <= Ring.size b.
Proof.
  intros Hwf Hne. assert (Hpos : 0 < zlen (ring_room b)).
  { destruct (ring_room b); [done|]. rewrite zlen_cons. pose proof (zlen_nonneg l). lia. }
  rewrite ring_room_len in * by done. pose proof (ring_write_wrap b Hwf) as Hw.
  split.
  - unfold Ring.write_ref. rewrite assert_that_true by (bcase; lia). cbn.
    rewrite ring_write_index by (done || lia). by rewrite Z.add_0_r, Hw.
  - destruct (ring_write_segment b 0 Hwf) as (n&?&?&?); [lia|]. exists n.
    rewrite Z.add_0_r, <- Hw in *. split_and!; (done || lia).
Qed.

Lemma ring_no_segment b :
  ring_wf b ->
  (ring_input b = [] -> Ring.readSegmentLength 0 b = Ret 0) /\
  (ring_room b = [] -> Ring.writeSegmentLength 0 b = Ret 0).
Proof.
  intros Hwf. pose proof (ring_composite b Hwf) as [Hc Hw].
  pose proof (ring_full b Hwf) as Hf. pose proof (ring_write_position b Hwf) as Hp.
  pose proof Hwf as ((?&?)&?&?&Hmeet). split; intros E.
  - assert (Ring.readCompositeLength b = 0) as E0 by (rewrite <- ring_input_len, E; done).
    unfold Ring.readSegmentLength. rewrite E0 in *. rewrite assert_that_true by done. cbn.
    unfold Ring.writePosition, Ring.readPosition. revert Hp. wsimp.
    rewrite !Z.add_0_r. repeat bcase; intros; try done; lia.
  - assert (Ring.writeCompositeLength b = 0) as E0 by (rewrite <- ring_room_len, E; done).
    unfold Ring.writeSegmentLength. rewrite E0 in *. rewrite assert_that_true by done. cbn.
    rewrite (proj2 Hf) in * by lia. specialize (Hmeet eq_refl).
    unfold Ring.writePosition. wsimp. rewrite !Z.add_0_r, Hmeet. by repeat (bcase; try lia).
Qed.

(** The bytes behind the two pointers, up to the end of the vector. *)
Lemma ring_input_front b n :
  ring_wf b -> 0 <= n <= zlen (ring_input b) -> read_position b + n <= Ring.size b ->
  ztake n (zdrop (read_position b) (buffer b)) = ztake n (ring_input b).
Proof.
  intros Hwf. rewrite ring_input_len by done. intros Hn Hle.
  pose proof (ring_composite b Hwf). pose proof Hwf as (?&?&_). unfold Ring.size in *.
  pose proof (rot_segment (read_position b) (buffer b) 0 n) as Hrot.
  assert (Hw : wrap_index (read_position b) 0 (zlen (buffer b)) = read_position b).
  { unfold wrap_index. bcase; lia. }
  rewrite Hw, (zdrop_0 0) in Hrot by lia. rewrite Hrot by lia.
  unfold ring_input, ring_window, ztake. rewrite take_take. f_equal. lia.
Qed.

Lemma ring_room_front b n :
  ring_wf b -> 0 <= n <= zlen (ring_room b) -> write_position b + n <= Ring.size b ->
  ztake n (zdrop (write_position b) (buffer b)) = ztake n (ring_room b).
Proof.
  intros Hwf. rewrite ring_room_len by done. intros Hn Hle.
  pose proof (ring_composite b Hwf). pose proof Hwf as (?&?&_).
  rewrite (ring_write_wrap b Hwf) in *. unfold Ring.size in *.
  rewrite rot_segment by lia. done.
Qed.

(** Bytes stored behind [&write()]. *)
Lemma ring_store b bs :
  ring_wf b -> zlen bs <= zlen (ring_room b) -> write_position b + zlen bs <= Ring.size b ->
  let b' := Ring.set_buffer (list_inserts (Z.to_nat (write_position b)) bs (buffer b)) b in
  ring_wf b' /\ ring_input b' = ring_input b /\
  ring_room b' = list_inserts 0 bs (ring_room b).
Proof.
  intros Hwf Hl Hle. destruct bs as [|x bs].
  { cbn. destruct b. done. }
  pose proof (zlen_nonneg bs). rewrite zlen_cons in *.
  destruct (ring_write_pointer b Hwf) as [Hp (n&Hn&Hb&Hend)].
  { intros E. rewrite E in Hl. rewrite zlen_nil in Hl. lia. }
  destruct (ring_law_writeSegment b 0 Hwf) as (n'&p&Hn'&?&Hp'&?&?&Hst); [lia|].
  rewrite Hn in Hn'. injection Hn' as <-. rewrite Hp in Hp'. injection Hp' as <-.
  destruct (Hst (x :: bs)) as (?&?&_&?&_); [|done]. rewrite zlen_cons.
  revert Hn Hl Hle Hend. rewrite ring_room_len by done.
  pose proof (ring_composite b Hwf) as [Hc Hw]. rewrite Hw.
  pose proof (ring_write_position b Hwf) as Hwp. pose proof (ring_full b Hwf) as Hf.
  pose proof Hwf as (?&?&?&_). unfold Ring.writeSegmentLength, Ring.writePosition.
  destruct (assert_that _); [|done]. cbn. rewrite Hw. intros [= <-]. wsimp.
  rewrite Z.min_l, !Z.add_0_r by lia.
  destruct (write_reached_read b); [specialize (proj1 Hf eq_refl); lia|].
  repeat bcase; revert Hwp; repeat bcase; intros; wsimp; zsolve.
Qed.
End pointers.

(** ** Two edge cases *)

(** [writeAdvance(0)] on a full buffer clears the flag that tells full from
    empty, so that everything stored is lost. *)
Lemma ring_zero_advance_on_full (b : RingBuffer) :
  ring_wf b -> Ring.writeCompositeLength b = 0 ->
  zlen (ring_input b) = Ring.size b /\
  exists b', Ring.writeAdvance 0 b = Ret b' /\ ring_input b' = [] /\
    Ring.writeCompositeLength b' = Ring.size b.
Proof.
  intros Hwf Hfull. destruct (ring_composite b Hwf) as [Hc Hw].
  rewrite ring_input_len by done. split; [lia|].
  pose proof (ring_full b Hwf) as [_ Hf]. specialize (Hf ltac:(lia)).
  pose proof Hwf as ((?&?)&?&?&Hmeet). specialize (Hmeet Hf).
  unfold Ring.writeAdvance. rewrite assert_that_true by (bcase; lia).
  rewrite bind_ret, andb_false_r. wsimp. rewrite Z.add_0_r. bcase; [lia|].
  eexists; split; [done|].
  unfold ring_input, Ring.readCompositeLength, Ring.writeCompositeLength,
    Ring.readPosition, Ring.writePosition in *. cbn.
  rewrite Hmeet. bcase; [lia|]. wsimp.
  rewrite Z.sub_diag, ztake_0 by lia. split; [done|].
  unfold Ring.size in *. cbn. wsimp. lia.
Qed.

Lemma ring_zero_advance_on_full_witness :
  let b := mkRing [x61; x62; x63] 1 1 true in
  zlen (ring_input b) = Ring.size b /\
  exists b', Ring.writeAdvance 0 b = Ret b' /\ ring_input b' = [] /\
    Ring.writeCompositeLength b' = Ring.size b.
Proof.
  apply (ring_zero_advance_on_full (mkRing [x61; x62; x63] 1 1 true)).
  - vm_compute. repeat split; discriminate || done.
  - reflexivity.
Defined.

(** Asked for the segment that starts right after the last byte,
    [readSegmentLength] answers that there is none, but [writeSegmentLength] of a
    buffer that is not full answers with a segment that overlaps stored bytes. *)
Lemma ring_segments_at_the_end (b : RingBuffer) :
  ring_wf b -> write_reached_read b = false ->
  Ring.readSegmentLength (Ring.readCompositeLength b) b = Ret 0 /\
  Ring.writeSegmentLength (Ring.writeCompositeLength b) b =
    Ret (Ring.size b - read_position b) /\ 0 < Ring.size b - read_position b.
Proof.
  intros Hwf Hf. destruct (ring_composite b Hwf) as [Hc Hw].
  pose proof (ring_write_position b Hwf) as Hp. pose proof (ring_full b Hwf) as Hfull.
  assert (Ring.readCompositeLength b <> Ring.size b)
    by (intros E; apply Hfull in E; congruence).
  pose proof Hwf as ((?&?)&?&?&_).
  unfold Ring.readSegmentLength, Ring.writeSegmentLength.
  rewrite !assert_that_true by (bcase; lia). rewrite !bind_ret, !Z.min_id, Hw, Hf.
  unfold Ring.writePosition, Ring.readPosition.
  set (c := Ring.readCompositeLength b) in *. set (n := Ring.size b) in *.
  set (w := write_position b) in *. set (r := read_position b) in *.
  split; [|split; [|lia]].
  - wsimp. rewrite Z.sub_diag. revert Hp.
    destruct (Z.leb_spec n (r + c)); wsimp; intros Hp; repeat bcase; try done; lia.
  - wsimp. revert Hp.
    destruct (Z.leb_spec n (r + c)), (Z.leb_spec n (w + (n - c))); wsimp; intros Hp;
      (bcase; [lia|]); wsimp; do 2 f_equal; lia.
Qed.

Lemma ring_segments_at_the_end_witness :
  let b := mkRing [x61; x62; x63; x00] 1 3 false in
  Ring.readSegmentLength (Ring.readCompositeLength b) b = Ret 0 /\
  Ring.writeSegmentLength (Ring.writeCompositeLength b) b =
    Ret (Ring.size b - read_position b) /\ 0 < Ring.size b - read_position b.
Proof.
  apply (ring_segments_at_the_end (mkRing [x61; x62; x63; x00] 1 3 false)).
  - vm_compute. repeat split; discriminate || done.
  - reflexivity.
Defined.
