(* ===== verification/ArrayBuffer.v ===== *)
(** Model of the class [ArrayBuffer] ("one time buffer") of
    [source/forstio/buffer.h] and [buffer.cpp], and the proof that it implements
    the [Buffer] contract.  Cells before [read_position] are never used again. *)

From S2P Require Import Prelude Error Buffer.

Record ArrayBuffer := mkArray {
  abuffer : list byte;
  aread_position : Z;
  awrite_position : Z
}.

Module Array.
Implicit Types b : ArrayBuffer.

Definition size b : Z := zlen (abuffer b).

Definition make (n : Z) : outcome ArrayBuffer :=
  if n <=? ptrdiff_max then Ret (mkArray (replicate (Z.to_nat n) x00) 0 0)
  else Halt LengthError.

Definition readPosition b : Z := aread_position b.
Definition readCompositeLength b : Z := awrite_position b -! aread_position b.

Definition readSegmentLength (offset : Z) b : outcome Z :=
  let read_composite := readCompositeLength b in
  _ ← assert_that (offset <=? read_composite);
  let offset := Z.min read_composite offset in
  let read_offset := aread_position b +! offset in
  Ret (awrite_position b -! read_offset).

Definition readAdvance (bytes : Z) b : outcome ArrayBuffer :=
  _ ← assert_that (bytes <=? readCompositeLength b);
  Ret (mkArray (abuffer b) (aread_position b +! bytes) (awrite_position b)).

(** [uint8_t &read(size_t)] and its const overload assert different bounds. *)
Definition read_ref (i : Z) b : outcome Z :=
  _ ← assert_that (i <? readCompositeLength b);
  Ret (i +! aread_position b).
Definition const_read_ref (i : Z) b : outcome Z :=
  _ ← assert_that (i +! aread_position b <? size b);
  Ret (i +! aread_position b).

Definition writePosition b : Z := awrite_position b.
Definition writeCompositeLength b : outcome Z :=
  _ ← assert_that (awrite_position b <=? size b);
  Ret (size b -! awrite_position b).

Definition writeSegmentLength (offset : Z) b : outcome Z :=
  _ ← assert_that (awrite_position b <=? size b);
  write_composite ← writeCompositeLength b;
  _ ← assert_that (offset <=? write_composite);
  let offset := Z.min write_composite offset in
  let write_offset := awrite_position b +! offset in
  Ret (size b -! write_offset).

Definition writeAdvance (bytes : Z) b : outcome ArrayBuffer :=
  n ← writeCompositeLength b;
  _ ← assert_that (bytes <=? n);
  Ret (mkArray (abuffer b) (aread_position b) (awrite_position b +! bytes)).

Definition write_ref (i : Z) b : outcome Z :=
  n ← writeCompositeLength b;
  _ ← assert_that (i <? n);
  Ret (i +! awrite_position b).

Definition writeRequireLength (bytes : Z) b : outcome Error :=
  write_remain ← writeCompositeLength b;
  if write_remain <? bytes then Ret (recoverableError "Buffer too small")
  else Ret noError.

Definition set_buffer (v : list byte) b : ArrayBuffer :=
  mkArray v (aread_position b) (awrite_position b).
End Array.

#[export] Instance array_ops : BufferOps ArrayBuffer := {
  memory := abuffer;
  set_memory := Array.set_buffer;
  readPosition := Array.readPosition;
  readCompositeLength b := Ret (Array.readCompositeLength b);
  readSegmentLength := Array.readSegmentLength;
  readAdvance := Array.readAdvance;
  read_ref := Array.read_ref;
  const_read_ref := Array.const_read_ref;
  writePosition := Array.writePosition;
  writeCompositeLength := Array.writeCompositeLength;
  writeSegmentLength := Array.writeSegmentLength;
  writeAdvance := Array.writeAdvance;
  write_ref := Array.write_ref;
  writeRequireLength := Array.writeRequireLength
}.

(** The invariant: read <= write <= size; and the abstraction. *)
Definition array_wf (b : ArrayBuffer) : Prop :=
  0 <= aread_position b <= awrite_position b /\
  awrite_position b <= Array.size b <= ptrdiff_max.

Definition array_input (b : ArrayBuffer) : list byte :=
  zdrop (aread_position b) (ztake (awrite_position b) (abuffer b)).
Definition array_room (b : ArrayBuffer) : list byte :=
  zdrop (awrite_position b) (abuffer b).

(** ** The contract *)
Section contract.
Implicit Types b : ArrayBuffer.

Ltac array_start :=
  intros; match goal with H : array_wf _ |- _ => pose proof H as ((?&?)&?&?) end;
  unfold Array.size in *.

Lemma array_read_composite b :
  array_wf b -> Array.readCompositeLength b = awrite_position b - aread_position b.
Proof. array_start. unfold Array.readCompositeLength. by wsimp. Qed.

Lemma array_input_len b :
  array_wf b -> zlen (array_input b) = awrite_position b - aread_position b.
Proof. array_start. unfold array_input. rewrite zlen_drop; rewrite zlen_take; lia. Qed.

Lemma array_room_len b :
  array_wf b -> zlen (array_room b) = Array.size b - awrite_position b.
Proof. array_start. unfold array_room. rewrite zlen_drop; lia. Qed.

Lemma array_write_composite b :
  array_wf b -> Array.writeCompositeLength b = Ret (Array.size b - awrite_position b).
Proof.
  array_start. unfold Array.writeCompositeLength, Array.size.
  rewrite assert_that_true by (bcase; lia). cbn. by wsimp.
Qed.

Lemma array_law_readSegment b off :
  array_wf b -> 0 <= off < zlen (array_input b) ->
  exists seg p, Array.readSegmentLength off b = Ret seg /\
    0 < seg <= zlen (array_input b) - off /\
    Array.read_ref off b = Ret p /\ Array.const_read_ref off b = Ret p /\
    0 <= p /\ p + seg <= zlen (abuffer b) /\
    ztake seg (zdrop p (abuffer b)) = ztake seg (zdrop off (array_input b)).
Proof.
  intros Hwf. rewrite array_input_len by done. array_start.
  pose proof (array_read_composite b Hwf) as Hc.
  exists (awrite_position b - (aread_position b + off)), (off + aread_position b).
  unfold Array.readSegmentLength, Array.read_ref, Array.const_read_ref, Array.size.
  rewrite Hc. wsimp. rewrite !assert_that_true by (bcase; lia). cbn.
  rewrite Z.min_r by lia. wsimp.
  do 6 (split; [done || lia|]). unfold array_input.
  rewrite zdrop_drop, ztake_zdrop_ztake by lia. f_equal. f_equal. lia.
Qed.

Lemma array_law_writeSegment b off :
  array_wf b -> 0 <= off < zlen (array_room b) ->
  exists seg p, Array.writeSegmentLength off b = Ret seg /\
    0 < seg <= zlen (array_room b) - off /\
    Array.write_ref off b = Ret p /\ 0 <= p /\ p + seg <= zlen (abuffer b) /\
    forall bs, zlen bs <= seg ->
      let b' := Array.set_buffer (list_inserts (Z.to_nat p) bs (abuffer b)) b in
      array_wf b' /\ array_input b' = array_input b /\ array_input b' = array_input b /\
      array_room b' = list_inserts (Z.to_nat off) bs (array_room b) /\ tt = tt.
Proof.
  intros Hwf. rewrite array_room_len by done. array_start.
  pose proof (array_write_composite b Hwf) as Hc. unfold Array.size in Hc.
  exists (zlen (abuffer b) - (awrite_position b + off)), (off + awrite_position b).
  unfold Array.writeSegmentLength, Array.write_ref, Array.size.
  rewrite Hc, !assert_that_true by (bcase; lia). cbn.
  rewrite !assert_that_true by (bcase; lia). cbn.
  rewrite Z.min_r by lia. wsimp.
  do 5 (split; [done || lia|]). intros bs Hbs.
  unfold array_wf, array_input, array_room, Array.size, Array.set_buffer. cbn.
  rewrite zlen_inserts.
  assert (ztake (awrite_position b)
     (list_inserts (Z.to_nat (off + awrite_position b)) bs (abuffer b)) =
     ztake (awrite_position b) (abuffer b)) as ->.
  { apply list_eq; intros j. unfold ztake. rewrite !lookup_take. case_decide; [|done].
    apply list_lookup_inserts_lt. lia. }
  do 3 (split; [done || lia|]). split; [|done].
  apply list_eq; intros j. rewrite lookup_zdrop.
  rewrite !lookup_inserts by (unfold zdrop, zlen in *; rewrite ?length_drop; lia).
  rewrite lookup_zdrop. repeat case_decide; (f_equal; lia) || lia.
Qed.

Lemma array_law_readAdvance b n :
  array_wf b -> 0 <= n <= zlen (array_input b) ->
  exists b', Array.readAdvance n b = Ret b' /\ array_wf b' /\
    array_input b' = zdrop n (array_input b) /\ array_room b' = array_room b.
Proof.
  intros Hwf. rewrite array_input_len by done. array_start.
  unfold Array.readAdvance. rewrite array_read_composite, assert_that_true
    by (done || bcase; lia). cbn. wsimp. eexists; split; [done|].
  unfold array_wf, array_input, Array.size. cbn.
  split; [lia|]. split; [|done]. by rewrite zdrop_drop by lia.
Qed.

Lemma array_law_writeAdvance b n :
  array_wf b -> 0 <= n <= zlen (array_room b) ->
  exists b', Array.writeAdvance n b = Ret b' /\ array_wf b' /\
    array_input b' = array_input b ++ ztake n (array_room b) /\
    array_room b' = zdrop n (array_room b) /\ tt = tt.
Proof.
  intros Hwf. rewrite array_room_len by done. array_start.
  unfold Array.writeAdvance. rewrite array_write_composite by done. cbn.
  unfold Array.size. rewrite assert_that_true by (bcase; lia). cbn. wsimp.
  eexists; split; [done|].
  unfold array_wf, array_input, array_room, Array.size. cbn.
  split; [lia|]. split; [|by rewrite zdrop_drop by lia].
  rewrite <- (ztake_split (awrite_position b) (awrite_position b + n)) by lia.
  rewrite zdrop_app_le by (rewrite zlen_take; lia).
  by replace (awrite_position b + n - awrite_position b) with n by lia.
Qed.

Lemma array_law_writeRequireLength b n :
  array_wf b -> 0 <= n < size_mod ->
  exists e, Array.writeRequireLength n b = Ret e /\
    failed e = (zlen (array_room b) <? n) /\ isRecoverable e = failed e.
Proof.
  intros Hwf _. unfold Array.writeRequireLength.
  rewrite array_write_composite, array_room_len by done. cbn. bcase; eauto.
Qed.
End contract.

#[export, refine] Instance array_laws : BufferLaws ArrayBuffer := {
  wf := array_wf;
  input := array_input;
  output := array_input;
  room := array_room;
  rframe_t := list byte; rframe := array_room;
  wframe_t := unit; wframe _ := tt;
  law_readSegment := array_law_readSegment;
  law_writeSegment := array_law_writeSegment;
  law_readAdvance := array_law_readAdvance
}.
Proof.
  - intros b Hwf. rewrite array_input_len, array_room_len by done.
    destruct Hwf as ((?&?)&?&?). lia.
  - intros b Hwf. cbn. by rewrite array_input_len, array_read_composite.
  - intros b Hwf. cbn. by rewrite array_room_len, array_write_composite.
  - intros b n Hwf Hn. apply array_law_writeAdvance; [done|lia].
  - intros b n Hwf Hn. apply array_law_writeRequireLength; [done|zsolve].
Defined.

#[export] Instance array_stream : StreamBuffer ArrayBuffer.
Proof. split; [by intros|exact array_law_writeRequireLength]. Qed.

#[export] Instance array_zero : ZeroAdvance ArrayBuffer.
Proof.
  intros b Hwf. cbn in *. unfold Array.writeAdvance.
  rewrite array_write_composite by done. cbn.
  destruct Hwf as ((?&?)&?&?). rewrite assert_that_true by (bcase; lia). cbn.
  wsimp. destruct b; cbn. by rewrite Z.add_0_r.
Qed.

Lemma array_make_wf n b :
  0 <= n -> Array.make n = Ret b ->
  array_wf b /\ array_input b = [] /\ zlen (array_room b) = n.
Proof.
  unfold Array.make. bcase; [|done]. intros ? [= <-].
  assert (zlen (replicate (Z.to_nat n) x00) = n)
    by (unfold zlen; rewrite length_replicate; lia).
  unfold array_wf, array_input, array_room, Array.size. cbn.
  rewrite !zdrop_0, ztake_0 by lia. split_and!; (done || lia).
Qed.
