(* ===== verification/Fifo.v ===== *)
(** The queue of bytes that a buffer implements: an abstract specification of
    [push] and [pop], the accounting interface a buffer has to satisfy, and the
    refinement of whole sequences of operations by [RingBuffer] and
    [ArrayBuffer]. *)

From S2P Require Import Prelude Error Buffer RingBuffer ArrayBuffer.

(** ** The specification *)

(** The calls of the four overloads of [push] and [pop]. *)
Inductive call :=
| PushBytes (data : list byte)
| PushByte (value : byte)
| PopBytes (size : Z)
| PopByte.

(** What the caller sees. *)
Inductive reply :=
| Done (data : list byte)
| Refused    (* a recoverable error *)
| Broken.    (* a critical error *)

(** The amounts are [size_t], and pushed bytes are an object in memory. *)
Definition call_ok (c : call) : Prop :=
  match c with
  | PushBytes data => zlen data <= ptrdiff_max
  | PopBytes size => 0 <= size < size_mod
  | _ => True
  end.

Module Fifo.
(** [reclaims]: the cells of popped bytes are used again. *)
Record t := mk { content : list byte; free : Z }.

Definition push (data : list byte) (q : t) : reply * t :=
  if zlen data <=? free q
  then (Done [], mk (content q ++ data) (free q - zlen data))
  else (Refused, q).

Definition pop (reclaims : bool) (size : Z) (q : t) : reply * t :=
  if size <=? zlen (content q)
  then (Done (ztake size (content q)),
        mk (zdrop size (content q)) (free q + if reclaims then size else 0))
  else (Refused, q).

Definition step (reclaims : bool) (c : call) (q : t) : reply * t :=
  match c with
  | PushBytes data => push data q
  | PushByte value => push [value] q
  | PopBytes size => pop reclaims size q
  | PopByte => pop reclaims 1 q
  end.

Fixpoint run (reclaims : bool) (cs : list call) (q : t) : list reply * t :=
  match cs with
  | [] => ([], q)
  | c :: cs =>
      let '(r, q) := step reclaims c q in
      let '(rs, q) := run reclaims cs q in
      (r :: rs, q)
  end.
End Fifo.

(** ** The calls on a buffer *)
Section calls.
Context {B : Type} `{BufferOps B}.
Implicit Types b : B.

Definition reply_of (e : Error) (data : list byte) : reply :=
  if isCritical e then Broken
  else if isRecoverable e then Refused else Done data.

Definition do_call (c : call) b : outcome (reply * B) :=
  match c with
  | PushBytes data => '(e, b) ← push data (zlen data) b; Ret (reply_of e [], b)
  | PushByte value => '(e, b) ← push_value value b; Ret (reply_of e [], b)
  | PopBytes size => '(e, data, b) ← pop [] size b; Ret (reply_of e data, b)
  | PopByte => '(e, value, b) ← pop_value x00 b; Ret (reply_of e [value], b)
  end.

Fixpoint do_calls (cs : list call) b : outcome (list reply * B) :=
  match cs with
  | [] => Ret ([], b)
  | c :: cs =>
      '(r, b) ← do_call c b;
      '(rs, b) ← do_calls cs b;
      Ret (r :: rs, b)
  end.
End calls.

(** The bytes a sequence of calls stored, and those it delivered. *)
Fixpoint pushed (cs : list call) (rs : list reply) : list byte :=
  match cs, rs with
  | PushBytes data :: cs, Done _ :: rs => data ++ pushed cs rs
  | PushByte v :: cs, Done _ :: rs => v :: pushed cs rs
  | _ :: cs, _ :: rs => pushed cs rs
  | _, _ => []
  end.
Fixpoint popped (rs : list reply) : list byte :=
  match rs with
  | Done data :: rs => data ++ popped rs
  | _ :: rs => popped rs
  | [] => []
  end.

(** ** One call on any buffer that honours the contract, views included *)
Section one_call.
Context {B : Type} `{BufferLaws B}.
Implicit Types b : B.

Lemma push_call data b :
  wf b -> zlen data <= ptrdiff_max ->
  exists b', do_call (PushBytes data) b =
      Ret (if zlen data <=? zlen (room b) then Done [] else Refused, b') /\
    appends (if zlen data <=? zlen (room b) then data else []) b b'.
Proof.
  intros Hwf Hd. unfold do_call. pose proof (zlen_nonneg data). bcase.
  - destruct (push_ok data (zlen data) b Hwf) as (b'&->&Ha); [lia..|].
    rewrite ztake_all in Ha by lia. by exists b'.
  - destruct (push_refused data (zlen data) b Hwf) as (e&->&He); [lia|].
    exists b. cbn. unfold reply_of. rewrite He.
    pose proof (critical_not_recoverable e) as Hc. rewrite He, andb_true_r in Hc.
    rewrite Hc. split; [done|]. by apply appends_nil.
Qed.

Lemma push_value_call v b :
  wf b ->
  exists b', do_call (PushByte v) b =
      Ret (if zlen [v] <=? zlen (room b) then Done [] else Refused, b') /\
    appends (if zlen [v] <=? zlen (room b) then [v] else []) b b'.
Proof.
  intros Hwf. unfold do_call. change (zlen [v]) with 1. bcase.
  - destruct (push_value_ok v b Hwf) as (b'&->&Ha); [lia|]. by exists b'.
  - exists b. unfold push_value. rewrite law_writeCompositeLength, bind_ret by done.
    bcase; [lia|]. split; [done|]. by apply appends_nil.
Qed.

Lemma pop_call n b :
  wf b -> 0 <= n ->
  exists b', do_call (PopBytes n) b =
      Ret (if n <=? zlen (input b) then Done (ztake n (input b)) else Refused, b') /\
    consumes (if n <=? zlen (input b) then n else 0) b b'.
Proof.
  intros Hwf Hn. unfold do_call. bcase.
  - destruct (pop_ok [] n b Hwf) as (b'&->&Hc); [lia|]. by exists b'.
  - rewrite pop_refused by (done || lia). exists b. split; [done|].
    by apply consumes_refl.
Qed.

Lemma pop_value_call b :
  wf b ->
  exists b', do_call PopByte b =
      Ret (if 1 <=? zlen (input b) then Done (ztake 1 (input b)) else Refused, b') /\
    consumes (if 1 <=? zlen (input b) then 1 else 0) b b'.
Proof.
  intros Hwf. unfold do_call. destruct (input b) as [|v k] eqn:Hi.
  - exists b. unfold pop_value. rewrite law_readCompositeLength, Hi by done. cbn.
    split; [done|]. by apply consumes_refl.
  - pose proof (zlen_nonneg k). rewrite zlen_cons. bcase; [|lia].
    destruct (pop_value_ok x00 v k b Hwf Hi) as (b'&->&Hc). by exists b'.
Qed.
End one_call.

(** ** The interface: what becomes of the cells that were read *)
Class Accounting (B : Type) `{StreamBuffer B} := {
  reclaims : bool;
  account_read b b' : wf b -> wf b' -> rframe b' = rframe b ->
    zlen (room b') =
      zlen (room b) + if reclaims then zlen (input b) - zlen (input b') else 0
}.

#[export, refine] Instance ring_accounting : Accounting RingBuffer := {
  reclaims := true
}.
Proof.
  intros b b' Hwf Hwf'. cbn. intros [= Hbuf _].
  rewrite !ring_room_len, !ring_input_len by done.
  pose proof (ring_composite b Hwf) as [_ ->].
  pose proof (ring_composite b' Hwf') as [_ ->].
  unfold Ring.size. rewrite Hbuf. lia.
Defined.

#[export, refine] Instance array_accounting : Accounting ArrayBuffer := {
  reclaims := false
}.
Proof. intros b b' _ _. cbn. intros ->. lia. Defined.

(** ** Refinement *)
Section refinement.
Context {B : Type} `{Accounting B}.
Implicit Types b : B.

(** The queue a buffer stands for. *)
Definition queue_of b : Fifo.t := Fifo.mk (input b) (zlen (room b)).

Lemma queue_push bs b b' :
  wf b -> appends bs b b' ->
  queue_of b' = Fifo.mk (input b ++ bs) (zlen (room b) - zlen bs).
Proof.
  intros Hwf Ha. unfold queue_of. rewrite (appends_room _ _ _ Ha).
  destruct Ha as (Hwf'&_&Ho&_). rewrite !stream_output in Ho by done. by rewrite Ho.
Qed.

Lemma queue_pop n b b' :
  wf b -> consumes n b b' ->
  queue_of b' = Fifo.mk (zdrop n (input b))
    (zlen (room b) + if reclaims then n else 0).
Proof.
  intros Hwf Hc. pose proof (consumes_input _ _ _ Hc).
  destruct Hc as (Hwf'&_&Hi&Hf). unfold queue_of. rewrite Hi. f_equal.
  rewrite (account_read b b' Hwf Hwf' Hf). destruct reclaims; lia.
Qed.

Lemma do_call_refines c b :
  wf b -> call_ok c ->
  exists b', do_call c b = Ret ((Fifo.step reclaims c (queue_of b)).1, b') /\ wf b' /\
    queue_of b' = (Fifo.step reclaims c (queue_of b)).2.
Proof.
  assert (Hq : forall bs b b', wf b ->
    appends (if zlen bs <=? zlen (room b) then bs else []) b b' ->
    wf b' /\ queue_of b' = (Fifo.push bs (queue_of b)).2).
  { intros bs b0 b' Hwf Ha. split; [apply Ha|]. rewrite (queue_push _ _ _ Hwf Ha).
    unfold Fifo.push. cbn. bcase; cbn; [done|].
    by rewrite app_nil_r, Z.sub_0_r. }
  assert (Hp : forall n b b', wf b ->
    consumes (if n <=? zlen (input b) then n else 0) b b' ->
    wf b' /\ queue_of b' = (Fifo.pop reclaims n (queue_of b)).2).
  { intros n b0 b' Hwf Hc. split; [apply Hc|]. rewrite (queue_pop _ _ _ Hwf Hc).
    unfold Fifo.pop. cbn. bcase; cbn; [done|].
    rewrite zdrop_0 by lia. unfold queue_of. f_equal. destruct reclaims; lia. }
  intros Hwf Hok. destruct c as [data|v|n|]; cbn [call_ok] in Hok.
  - destruct (push_call data b Hwf Hok) as (b'&->&Ha). exists b'.
    split; [cbn; unfold Fifo.push; cbn; by bcase|]. by apply Hq.
  - destruct (push_value_call v b Hwf) as (b'&->&Ha). exists b'.
    split; [cbn; unfold Fifo.push; cbn; by bcase|]. by apply Hq.
  - destruct (pop_call n b Hwf) as (b'&->&Hc); [lia|]. exists b'.
    split; [cbn; unfold Fifo.pop; cbn; by bcase|]. by apply Hp.
  - destruct (pop_value_call b Hwf) as (b'&->&Hc). exists b'.
    split; [cbn; unfold Fifo.pop; cbn; by bcase|]. by apply Hp.
Qed.

Lemma do_calls_refine cs b :
  wf b -> Forall call_ok cs ->
  exists b', do_calls cs b = Ret ((Fifo.run reclaims cs (queue_of b)).1, b') /\ wf b' /\
    queue_of b' = (Fifo.run reclaims cs (queue_of b)).2.
Proof.
  intros Hwf Hcs. revert b Hwf. induction Hcs as [|c cs Hc _ IH]; intros b Hwf.
  { exists b. done. }
  destruct (do_call_refines c b Hwf Hc) as (b1&Hb1&Hwf1&Hq1).
  destruct (IH b1 Hwf1) as (b2&Hb2&Hwf2&Hq2).
  cbn [do_calls Fifo.run]. destruct (Fifo.step reclaims c (queue_of b)) as [r q1].
  cbn in Hb1, Hq1. rewrite <- Hq1. rewrite Hb1, bind_ret, Hb2, bind_ret.
  destruct (Fifo.run reclaims cs (queue_of b1)) as [rs q2]. by exists b2.
Qed.

(** The specification never loses, reorders or invents a byte. *)
Lemma fifo_conserves r cs q :
  Fifo.content q ++ pushed cs (Fifo.run r cs q).1 =
  popped (Fifo.run r cs q).1 ++ Fifo.content (Fifo.run r cs q).2.
Proof.
  revert q. induction cs as [|c cs IH]; intros q; [by rewrite app_nil_r|].
  cbn [Fifo.run]. destruct c as [data|v|n|]; cbn [Fifo.step]; unfold Fifo.push, Fifo.pop;
    bcase; cbn;
    match goal with |- context [Fifo.run r cs ?q'] =>
      specialize (IH q'); destruct (Fifo.run r cs q') as [rs q2] end; cbn in IH |- *;
    rewrite <- ?app_assoc, <- ?IH, <- ?app_assoc; try done;
    by rewrite app_assoc, ztake_drop.
Qed.
End refinement.

(** ** The buffers as queues *)

(** C6: every sequence of pushes and pops on a fresh [RingBuffer] of [n] bytes
    answers exactly as a queue of capacity [n] that reuses popped cells, faults
    nowhere, and ends with the queue's content. *)
Theorem ring_refines_fifo (n : Z) (cs : list call) :
  0 < n <= ptrdiff_max -> Forall call_ok cs ->
  exists b b', Ring.make n = Ret b /\
    do_calls cs b = Ret ((Fifo.run true cs (Fifo.mk [] n)).1, b') /\ wf b' /\
    queue_of b' = (Fifo.run true cs (Fifo.mk [] n)).2.
Proof.
  intros Hn Hcs.
  assert (Hm : Ring.make n = Ret (mkRing (replicate (Z.to_nat n) x00) 0 0 false))
    by (unfold Ring.make; bcase; [done|lia]).
  set (b := mkRing _ _ _ _) in Hm.
  destruct (ring_make_wf n b ltac:(lia) Hm) as (Hwf&Hi&Hr).
  destruct (do_calls_refine cs b) as (b'&Hb'&Hwf'&Hq); [exact Hwf|done|].
  assert (Hq0 : queue_of b = Fifo.mk [] n) by (unfold queue_of; cbn; by rewrite Hi, Hr).
  rewrite Hq0 in Hb', Hq. by exists b, b'.
Qed.

Lemma ring_refines_fifo_witness :
  exists b b', Ring.make 3 = Ret b /\
    do_calls [PushBytes [x61; x62]; PopByte; PushBytes [x63; x64]; PushByte x65;
              PopBytes 2; PopBytes 9; PopByte] b =
      Ret ([Done []; Done [x61]; Done []; Refused; Done [x62; x63]; Refused; Done [x64]],
           b') /\ wf b' /\ queue_of b' = Fifo.mk [] 3.
Proof.
  apply (ring_refines_fifo 3 [PushBytes [x61; x62]; PopByte; PushBytes [x63; x64];
    PushByte x65; PopBytes 2; PopBytes 9; PopByte]).
  - vm_compute. by split.
  - repeat constructor; vm_compute; by try split.
Defined.

(** C17: every sequence of pushes and pops on a fresh [ArrayBuffer] of [n] bytes
    answers exactly as a queue that never reuses a cell: [n] bytes can be
    pushed over its whole life. *)
Theorem array_refines_fifo (n : Z) (cs : list call) :
  0 <= n <= ptrdiff_max -> Forall call_ok cs ->
  exists b b', Array.make n = Ret b /\
    do_calls cs b = Ret ((Fifo.run false cs (Fifo.mk [] n)).1, b') /\ wf b' /\
    queue_of b' = (Fifo.run false cs (Fifo.mk [] n)).2.
Proof.
  intros Hn Hcs.
  assert (Hm : Array.make n = Ret (mkArray (replicate (Z.to_nat n) x00) 0 0))
    by (unfold Array.make; bcase; [done|lia]).
  set (b := mkArray _ _ _) in Hm.
  destruct (array_make_wf n b ltac:(lia) Hm) as (Hwf&Hi&Hr).
  destruct (do_calls_refine cs b) as (b'&Hb'&Hwf'&Hq); [exact Hwf|done|].
  assert (Hq0 : queue_of b = Fifo.mk [] n) by (unfold queue_of; cbn; by rewrite Hi, Hr).
  rewrite Hq0 in Hb', Hq. by exists b, b'.
Qed.

Lemma array_refines_fifo_witness :
  exists b b', Array.make 3 = Ret b /\
    do_calls [PushBytes [x61; x62]; PopByte; PushBytes [x63; x64]; PushByte x65;
              PopBytes 2] b =
      Ret ([Done []; Done [x61]; Refused; Done []; Done [x62; x65]], b') /\ wf b' /\
    queue_of b' = Fifo.mk [] 0.
Proof.
  apply (array_refines_fifo 3 [PushBytes [x61; x62]; PopByte; PushBytes [x63; x64];
    PushByte x65; PopBytes 2]).
  - vm_compute. by split.
  - repeat constructor; vm_compute; by try split.
Defined.

(** C35: on any buffer that honours the contract, no sequence of pushes and pops
    loses, invents or reorders a byte: what was stored followed by what was
    accepted is what came out followed by what is left. *)
Theorem buffer_conserves_bytes {B} `{Accounting B} (cs : list call) (b : B) :
  wf b -> Forall call_ok cs ->
  exists rs b', do_calls cs b = Ret (rs, b') /\
    input b ++ pushed cs rs = popped rs ++ input b'.
Proof.
  intros Hwf Hcs. destruct (do_calls_refine cs b Hwf Hcs) as (b'&->&_&Hq).
  do 2 eexists; split; [done|].
  pose proof (fifo_conserves reclaims cs (queue_of b)) as Hc. rewrite <- Hq in Hc.
  exact Hc.
Qed.

Lemma buffer_conserves_bytes_witness :
  let b := mkRing [x43; x00; x41; x42] 2 1 false in
  exists rs b', do_calls [PopBytes 2; PushBytes [x44; x45; x46]; PopByte] b = Ret (rs, b') /\
    input b ++ pushed [PopBytes 2; PushBytes [x44; x45; x46]; PopByte] rs =
    popped rs ++ input b'.
Proof.
  apply (buffer_conserves_bytes [PopBytes 2; PushBytes [x44; x45; x46]; PopByte]
    (mkRing [x43; x00; x41; x42] 2 1 false)).
  - vm_compute. repeat split; discriminate || done.
  - repeat constructor; vm_compute; by try split.
Defined.
