(* ===== verification/BufferView.v ===== *)
(** Model of the class [BufferView] of [source/forstio/buffer.h] and
    [buffer.cpp]: a cursor pair over a buffer.  The view holds a reference to
    the buffer; the model holds the state of that buffer in [vbuffer], which the
    view's writes go through to, while advancing the view only moves the view's
    offsets.  (As the source says, using the buffer directly invalidates the
    view, so the view is the only one to touch it while it lives.) *)

From S2P Require Import Prelude Error Buffer.

Record BufferView (B : Type) := mkView {
  vbuffer : B;
  read_offset : Z;
  write_offset : Z
}.
Arguments mkView {B} _ _ _.
Arguments vbuffer {B} _.
Arguments read_offset {B} _.
Arguments write_offset {B} _.

Module View.
Section ops.
Context {B : Type} `{BufferOps B}.
Implicit Types v : BufferView B.

(** [BufferView(Buffer &)] *)
Definition make (b : B) : BufferView B := mkView b 0 0.

Definition readPosition v : Z := read_offset v +! Buffer.readPosition (vbuffer v).

Definition readCompositeLength v : outcome Z :=
  n ← Buffer.readCompositeLength (vbuffer v);
  _ ← assert_that (read_offset v <=? n);
  if n <? read_offset v then Ret 0
  else
    n ← Buffer.readCompositeLength (vbuffer v);
    Ret (n -! read_offset v).

Definition readSegmentLength (offset : Z) v : outcome Z :=
  let off := offset +! read_offset v in
  n ← Buffer.readCompositeLength (vbuffer v);
  _ ← assert_that (off <=? n);
  if n <? off then Ret 0
  else Buffer.readSegmentLength off (vbuffer v).

Definition readAdvance (bytes : Z) v : outcome (BufferView B) :=
  let offset := bytes +! read_offset v in
  n ← Buffer.readCompositeLength (vbuffer v);
  _ ← assert_that (offset <=? n);
  if n <? offset then Ret (mkView (vbuffer v) (read_offset v +! n) (write_offset v))
  else Ret (mkView (vbuffer v) (read_offset v +! bytes) (write_offset v)).

(** Both overloads call the non-const [buffer.read]. *)
Definition read_ref (i : Z) v : outcome Z :=
  let pos := i +! read_offset v in
  n ← Buffer.readCompositeLength (vbuffer v);
  _ ← assert_that (pos <? n);
  Buffer.read_ref pos (vbuffer v).

Definition writePosition v : Z := write_offset v +! Buffer.writePosition (vbuffer v).

Definition writeCompositeLength v : outcome Z :=
  n ← Buffer.writeCompositeLength (vbuffer v);
  _ ← assert_that (write_offset v <=? n);
  if n <? write_offset v then Ret 0
  else
    n ← Buffer.writeCompositeLength (vbuffer v);
    Ret (n -! write_offset v).

Definition writeSegmentLength (offset : Z) v : outcome Z :=
  let off := offset +! write_offset v in
  n ← Buffer.writeCompositeLength (vbuffer v);
  _ ← assert_that (off <=? n);
  if n <? off then Ret 0
  else Buffer.writeSegmentLength off (vbuffer v).

Definition writeAdvance (bytes : Z) v : outcome (BufferView B) :=
  let offset := bytes +! write_offset v in
  n ← Buffer.writeCompositeLength (vbuffer v);
  _ ← assert_that (offset <=? n);
  if n <? offset then Ret (mkView (vbuffer v) (read_offset v) (write_offset v +! n))
  else Ret (mkView (vbuffer v) (read_offset v) (write_offset v +! bytes)).

Definition write_ref (i : Z) v : outcome Z :=
  let pos := i +! write_offset v in
  n ← Buffer.writeCompositeLength (vbuffer v);
  _ ← assert_that (pos <? n);
  Buffer.write_ref pos (vbuffer v).

Definition writeRequireLength (bytes : Z) v : outcome Error :=
  Buffer.writeRequireLength (bytes +! write_offset v) (vbuffer v).

Definition readOffset v : Z := read_offset v.
Definition writeOffset v : Z := write_offset v.

Definition set_memory (m : list byte) v : BufferView B :=
  mkView (Buffer.set_memory m (vbuffer v)) (read_offset v) (write_offset v).
End ops.
End View.

#[export] Instance view_ops {B} `{BufferOps B} : BufferOps (BufferView B) := {
  memory v := Buffer.memory (vbuffer v);
  set_memory := View.set_memory;
  readPosition := View.readPosition;
  readCompositeLength := View.readCompositeLength;
  readSegmentLength := View.readSegmentLength;
  readAdvance := View.readAdvance;
  read_ref := View.read_ref;
  const_read_ref := View.read_ref;
  writePosition := View.writePosition;
  writeCompositeLength := View.writeCompositeLength;
  writeSegmentLength := View.writeSegmentLength;
  writeAdvance := View.writeAdvance;
  write_ref := View.write_ref;
  writeRequireLength := View.writeRequireLength
}.

(** ** The invariant and the abstraction *)
Section abstraction.
Context {B : Type} `{BufferLaws B}.
Implicit Types v : BufferView B.

Definition view_wf v : Prop :=
  wf (vbuffer v) /\
  0 <= read_offset v <= zlen (input (vbuffer v)) /\
  0 <= write_offset v <= zlen (room (vbuffer v)).
Definition view_input v : list byte := zdrop (read_offset v) (input (vbuffer v)).
Definition view_output v : list byte := ztake (write_offset v) (room (vbuffer v)).
Definition view_room v : list byte := zdrop (write_offset v) (room (vbuffer v)).
End abstraction.

(** ** The contract *)
Section contract.
Context {B : Type} `{StreamBuffer B}.
Implicit Types v : BufferView B.

Ltac view_start :=
  intros; match goal with H : view_wf ?v |- _ =>
    pose proof H as (?&?&?); destruct (law_bounds (vbuffer v)); [done|] end.

Lemma view_input_len v :
  view_wf v -> zlen (view_input v) = zlen (input (vbuffer v)) - read_offset v.
Proof. view_start. unfold view_input. by rewrite zlen_drop by lia. Qed.

Lemma view_room_len v :
  view_wf v -> zlen (view_room v) = zlen (room (vbuffer v)) - write_offset v.
Proof. view_start. unfold view_room. by rewrite zlen_drop by lia. Qed.

Lemma view_law_readComposite v :
  view_wf v -> View.readCompositeLength v = Ret (zlen (view_input v)).
Proof.
  view_start. unfold View.readCompositeLength.
  rewrite view_input_len, !law_readCompositeLength by done. cbn.
  rewrite assert_that_true by (bcase; lia). cbn. bcase; [lia|]. by wsimp.
Qed.

Lemma view_law_writeComposite v :
  view_wf v -> View.writeCompositeLength v = Ret (zlen (view_room v)).
Proof.
  view_start. unfold View.writeCompositeLength.
  rewrite view_room_len, !law_writeCompositeLength by done. cbn.
  rewrite assert_that_true by (bcase; lia). cbn. bcase; [lia|]. by wsimp.
Qed.

Lemma view_law_readSegment v off :
  view_wf v -> 0 <= off < zlen (view_input v) ->
  exists seg p, View.readSegmentLength off v = Ret seg /\
    0 < seg <= zlen (view_input v) - off /\
    View.read_ref off v = Ret p /\ View.read_ref off v = Ret p /\
    0 <= p /\ p + seg <= zlen (memory v) /\
    ztake seg (zdrop p (memory v)) = ztake seg (zdrop off (view_input v)).
Proof.
  intros Hwf. rewrite view_input_len by done. view_start.
  unfold View.readSegmentLength, View.read_ref.
  rewrite !law_readCompositeLength by done. cbn. wsimp.
  rewrite !assert_that_true by (bcase; lia). cbn. bcase; [lia|].
  destruct (law_readSegment (vbuffer v) (off + read_offset v))
    as (seg&p&->&?&->&?&?&?&Heq); [done|lia|].
  exists seg, p. do 6 (split; [done || lia|]). rewrite Heq.
  unfold view_input. rewrite zdrop_drop by lia. do 2 f_equal. lia.
Qed.

Lemma view_law_writeSegment v off :
  view_wf v -> 0 <= off < zlen (view_room v) ->
  exists seg p, View.writeSegmentLength off v = Ret seg /\
    0 < seg <= zlen (view_room v) - off /\
    View.write_ref off v = Ret p /\ 0 <= p /\ p + seg <= zlen (memory v) /\
    forall bs, zlen bs <= seg ->
      let v' := set_memory (list_inserts (Z.to_nat p) bs (memory v)) v in
      view_wf v' /\ view_input v' = view_input v /\ view_output v' = view_output v /\
      view_room v' = list_inserts (Z.to_nat off) bs (view_room v) /\
      (input (vbuffer v'), wframe (vbuffer v')) = (input (vbuffer v), wframe (vbuffer v)).
Proof.
  intros Hwf. rewrite view_room_len by done. view_start.
  unfold View.writeSegmentLength, View.write_ref.
  rewrite !law_writeCompositeLength by done. cbn. wsimp.
  rewrite !assert_that_true by (bcase; lia). cbn. bcase; [lia|].
  destruct (law_writeSegment (vbuffer v) (off + write_offset v))
    as (seg&p&->&?&->&?&?&Hw); [done|lia|].
  exists seg, p. do 5 (split; [done || lia|]). intros bs Hbs.
  destruct (Hw bs Hbs) as (Hwf'&Hi&Ho&Hr&Hf).
  unfold view_wf, view_input, view_output, view_room. cbn.
  rewrite Hi, Hr, Hf, zlen_inserts. do 2 (split; [done|]). split; [|split; [|done]].
  - apply list_eq; intros j. unfold ztake. rewrite !lookup_take. case_decide; [|done].
    apply list_lookup_inserts_lt. lia.
  - apply list_eq; intros j. rewrite lookup_zdrop.
    rewrite !lookup_inserts by (unfold zdrop, zlen in *; rewrite ?length_drop; lia).
    rewrite lookup_zdrop. repeat case_decide; (f_equal; lia) || lia.
Qed.

Lemma view_law_readAdvance v n :
  view_wf v -> 0 <= n <= zlen (view_input v) ->
  exists v', View.readAdvance n v = Ret v' /\ view_wf v' /\
    view_input v' = zdrop n (view_input v) /\ vbuffer v' = vbuffer v.
Proof.
  intros Hwf. rewrite view_input_len by done. view_start.
  unfold View.readAdvance. rewrite law_readCompositeLength by done. cbn. wsimp.
  rewrite assert_that_true by (bcase; lia). cbn. bcase; [lia|].
  eexists; split; [done|]. unfold view_wf, view_input. cbn.
  split; [split_and!; (done || lia)|]. split; [|done]. by rewrite zdrop_drop by lia.
Qed.

Lemma view_law_writeAdvance v n :
  view_wf v -> 0 <= n <= zlen (view_room v) ->
  exists v', View.writeAdvance n v = Ret v' /\ view_wf v' /\
    view_output v' = view_output v ++ ztake n (view_room v) /\
    view_room v' = zdrop n (view_room v) /\
    (input (vbuffer v'), wframe (vbuffer v')) = (input (vbuffer v), wframe (vbuffer v)).
Proof.
  intros Hwf. rewrite view_room_len by done. view_start.
  unfold View.writeAdvance. rewrite law_writeCompositeLength by done. cbn. wsimp.
  rewrite assert_that_true by (bcase; lia). cbn. bcase; [lia|].
  eexists; split; [done|]. unfold view_wf, view_output, view_room. cbn.
  split; [split_and!; (done || lia)|]. split; [|split; [|done]].
  - rewrite <- (ztake_split (write_offset v) (write_offset v + n)) by lia.
    by replace (write_offset v + n - write_offset v) with n by lia.
  - by rewrite zdrop_drop by lia.
Qed.

Lemma view_law_writeRequireLength v n :
  view_wf v -> 0 <= n <= ptrdiff_max ->
  exists e, View.writeRequireLength n v = Ret e /\
    failed e = (zlen (view_room v) <? n) /\ isRecoverable e = failed e.
Proof.
  view_start. unfold View.writeRequireLength. wsimp.
  destruct (stream_require (vbuffer v) (n + write_offset v)) as (e&->&Hf&?);
    [done|zsolve|]. exists e. split; [done|]. split; [|done].
  rewrite Hf, view_room_len by done. repeat bcase; lia.
Qed.

#[export, refine] Instance view_laws : BufferLaws (BufferView B) := {
  wf := view_wf;
  input := view_input;
  output := view_output;
  room := view_room;
  rframe_t := B; rframe v := vbuffer v;
  wframe_t := list byte * wframe_t (B := B);
  wframe v := (input (vbuffer v), wframe (vbuffer v));
  law_readCompositeLength := view_law_readComposite;
  law_writeCompositeLength := view_law_writeComposite;
  law_readSegment := view_law_readSegment;
  law_writeSegment := view_law_writeSegment;
  law_readAdvance := view_law_readAdvance;
  law_writeRequireLength := view_law_writeRequireLength
}.
Proof.
  - intros v Hwf. rewrite view_input_len, view_room_len by done. view_start. lia.
  - intros v n Hwf Hn. apply view_law_writeAdvance; [done|lia].
Defined.

#[export] Instance view_zero : ZeroAdvance (BufferView B).
Proof.
  intros v Hwf. cbn in *. view_start. unfold View.writeAdvance.
  rewrite law_writeCompositeLength by done. cbn. wsimp.
  rewrite assert_that_true by (bcase; lia). cbn. bcase; [lia|].
  destruct v. cbn. by rewrite Z.add_0_r.
Qed.

(** A fresh view sees the whole input and the whole room. *)
Lemma view_make_wf (b : B) : wf b -> view_wf (View.make b).
Proof.
  intros. pose proof (zlen_nonneg (input b)). pose proof (zlen_nonneg (room b)).
  split_and!; cbn; (done || lia).
Qed.

Lemma view_make_input (b : B) : view_input (View.make b) = input b.
Proof. unfold view_input. cbn. by rewrite zdrop_0. Qed.

Lemma view_make_room (b : B) : view_room (View.make b) = room b.
Proof. unfold view_room. cbn. by rewrite zdrop_0. Qed.
End contract.
