(* ===== verification/ViewTheory.v ===== *)
(** What a [BufferView] does to the buffer behind it: reading or writing through
    a view and then committing the view's offset is the same as using the buffer
    directly, and until then the buffer is as it was.  Also the printing
    operations of [Buffer]. *)

From Stdlib Require Import Ascii.
From S2P Require Import Prelude Error Buffer RingBuffer ArrayBuffer Fifo BufferView.

Definition is_pop (c : call) : Prop :=
  match c with PopBytes size => 0 <= size < size_mod | PopByte => True | _ => False end.
Definition is_push (c : call) : Prop :=
  match c with PushBytes d => zlen d <= ptrdiff_max | PushByte _ => True | _ => False end.

(** ** Sequences of reads, and of writes, on any buffer *)
Section sequences.
Context {B : Type} `{BufferLaws B}.
Implicit Types b : B.

(** The replies depend on nothing but the input, and what is delivered is
    consumed. *)
Lemma pops_eat cs b free :
  wf b -> Forall is_pop cs ->
  let rs := (Fifo.run false cs (Fifo.mk (input b) free)).1 in
  exists b', do_calls cs b = Ret (rs, b') /\ eats (popped rs) b b'.
Proof.
  intros Hwf Hcs. revert b Hwf. induction Hcs as [|c cs Hc _ IH]; intros b Hwf.
  { exists b. split; [done|]. by apply eats_nil. }
  assert (Hone : exists b1, do_call c b =
    Ret ((Fifo.step false c (Fifo.mk (input b) free)).1, b1) /\
    eats (popped [(Fifo.step false c (Fifo.mk (input b) free)).1]) b b1 /\
    (Fifo.step false c (Fifo.mk (input b) free)).2 = Fifo.mk (input b1) free).
  { assert (Hp : forall n b1, 0 <= n ->
      consumes (if n <=? zlen (input b) then n else 0) b b1 ->
      eats (popped [(Fifo.pop false n (Fifo.mk (input b) free)).1]) b b1 /\
      (Fifo.pop false n (Fifo.mk (input b) free)).2 = Fifo.mk (input b1) free).
    { intros n b1 Hn Hcon. pose proof (consumes_eats _ _ _ Hcon) as He.
      destruct Hcon as (_&_&Hi&_). unfold Fifo.pop. cbn [Fifo.content Fifo.free].
      revert Hi He. bcase; cbn [popped fst snd]; intros Hi He;
        rewrite ?app_nil_r, ?Z.add_0_r, Hi.
      - by split.
      - rewrite (ztake_0 0) in He by lia. rewrite zdrop_0 by lia. by split. }
    destruct c as [|?|n|]; try done; cbn [is_pop Fifo.step] in *.
    - destruct (pop_call n b Hwf) as (b1&->&Hcon); [lia|]. exists b1.
      split; [unfold Fifo.pop; cbn; by bcase|]. apply Hp; [lia|done].
    - destruct (pop_value_call b Hwf) as (b1&->&Hcon). exists b1.
      split; [unfold Fifo.pop; cbn; by bcase|]. by apply Hp. }
  destruct Hone as (b1&Hd&He&Hq). cbn [Fifo.run do_calls].
  destruct (Fifo.step false c (Fifo.mk (input b) free)) as [r q1].
  cbn [fst snd] in Hd, He, Hq. subst q1.
  destruct (IH b1 (proj1 He)) as (b2&Hd2&He2).
  rewrite Hd, bind_ret, Hd2, bind_ret.
  destruct (Fifo.run false cs (Fifo.mk (input b1) free)) as [rs q2].
  exists b2. split; [done|]. cbn [fst] in He2 |- *.
  pose proof (eats_trans _ _ _ _ _ He He2) as Ht.
  destruct r; cbn [popped] in Ht |- *; by rewrite ?app_nil_r in Ht.
Qed.

Lemma pushes_append cs b content :
  wf b -> Forall is_push cs ->
  let rs := (Fifo.run false cs (Fifo.mk content (zlen (room b)))).1 in
  exists b', do_calls cs b = Ret (rs, b') /\ appends (pushed cs rs) b b'.
Proof.
  intros Hwf Hcs. revert b content Hwf.
  induction Hcs as [|c cs Hc _ IH]; intros b content Hwf.
  { exists b. split; [done|]. by apply appends_nil. }
  assert (Hone : exists bs b1, do_call c b =
    Ret ((Fifo.step false c (Fifo.mk content (zlen (room b)))).1, b1) /\
    appends bs b b1 /\
    (forall rs, pushed (c :: cs)
       ((Fifo.step false c (Fifo.mk content (zlen (room b)))).1 :: rs) =
       bs ++ pushed cs rs) /\
    (Fifo.step false c (Fifo.mk content (zlen (room b)))).2 =
      Fifo.mk (content ++ bs) (zlen (room b1))).
  { assert (Hp : forall d b1,
      appends (if zlen d <=? zlen (room b) then d else []) b b1 ->
      (Fifo.push d (Fifo.mk content (zlen (room b)))).2 =
      Fifo.mk (content ++ (if zlen d <=? zlen (room b) then d else [])) (zlen (room b1))).
    { intros d b1 Ha. rewrite (appends_room _ _ _ Ha). unfold Fifo.push. cbn.
      bcase; cbn; [done|]. by rewrite app_nil_r, Z.sub_0_r. }
    destruct c as [d|v|n|]; try done; cbn [is_push Fifo.step] in *.
    - destruct (push_call d b Hwf Hc) as (b1&->&Ha). do 2 eexists.
      split; [unfold Fifo.push; cbn; by bcase|]. split; [done|].
      split; [|by apply Hp]. intros rs. unfold Fifo.push. cbn. by bcase.
    - destruct (push_value_call v b Hwf) as (b1&->&Ha). do 2 eexists.
      split; [unfold Fifo.push; cbn; by bcase|]. split; [done|].
      split; [|by apply Hp]. intros rs. unfold Fifo.push. cbn. by bcase. }
  destruct Hone as (bs&b1&Hd&Ha&Hpu&Hq). cbn [Fifo.run do_calls].
  destruct (Fifo.step false c (Fifo.mk content (zlen (room b)))) as [r q1].
  cbn [fst snd] in Hd, Hpu, Hq. subst q1.
  destruct (IH b1 (content ++ bs) (proj1 Ha)) as (b2&Hd2&Ha2).
  rewrite Hd, bind_ret, Hd2, bind_ret.
  destruct (Fifo.run false cs (Fifo.mk (content ++ bs) (zlen (room b1)))) as [rs q2].
  exists b2. split; [done|]. cbn [fst] in Ha2 |- *. rewrite Hpu.
  by eapply appends_trans.
Qed.
End sequences.

(** ** Committing a view *)
Section commit.
Context {B : Type} `{StreamBuffer B}.
Implicit Types b : B.

(** A view over [b] from which [bs] was read: committing its offset to [b]. *)
Lemma view_read_commit bs b (v : BufferView B) :
  wf b -> eats bs (View.make b) v ->
  vbuffer v = b /\ exists b', readAdvance (View.readOffset v) b = Ret b' /\ eats bs b b'.
Proof.
  intros Hwf (Hwfv&Hi&Hf). change (vbuffer v = b) in Hf.
  change (view_input (View.make b) = bs ++ view_input v) in Hi.
  rewrite view_make_input in Hi. split; [done|].
  pose proof Hwfv as (_&Ho&_). rewrite Hf in Ho.
  pose proof (view_input_len v Hwfv) as Hl. rewrite Hf in Hl.
  unfold View.readOffset.
  destruct (law_readAdvance b (read_offset v) Hwf) as (b'&->&Hwf'&Hi'&Hfr); [lia|].
  exists b'. split; [done|]. split; [done|]. split; [|done].
  rewrite Hi. f_equal. rewrite Hi', Hi.
  rewrite zdrop_app_exact; [done|]. rewrite Hi, zlen_app in Hl. lia.
Qed.

(** The offset of a view over [b] into which [bs] was written. *)
Lemma view_write_offset bs b (v : BufferView B) :
  wf b -> appends bs (View.make b) v ->
  View.writeOffset v = zlen bs /\ input (vbuffer v) = input b /\ wf (vbuffer v).
Proof.
  intros Hwf (Hwfv&Hl&Ho&Hr&Hf). injection Hf as Hf _.
  change (view_output v = view_output (View.make b) ++ bs) in Ho.
  unfold view_output in Ho. cbn [View.make write_offset] in Ho.
  rewrite (ztake_0 0), app_nil_l in Ho by lia.
  pose proof Hwfv as (Hwfb&_&Hw). unfold View.writeOffset.
  split; [rewrite <- Ho, zlen_take; lia|done].
Qed.

(** Committing it, if anything was written. *)
Lemma view_write_commit bs b (v : BufferView B) :
  wf b -> 0 < zlen bs -> appends bs (View.make b) v ->
  input (vbuffer v) = input b /\
  exists b', writeAdvance (View.writeOffset v) (vbuffer v) = Ret b' /\ wf b' /\
    input b' = input b ++ bs /\ room b' = zdrop (zlen bs) (room b) /\ wframe b' = wframe b.
Proof.
  intros Hwf Hn Ha. destruct (view_write_offset bs b v Hwf Ha) as (Hwo&Hin&Hwfb).
  destruct Ha as (Hwfv&Hl&Ho&Hr&Hf). injection Hf as _ Hf.
  change (wframe (vbuffer v) = wframe b) in Hf.
  change (view_output v = view_output (View.make b) ++ bs) in Ho.
  change (view_room v = zdrop (zlen bs) (view_room (View.make b))) in Hr.
  change (zlen bs <= zlen (view_room (View.make b))) in Hl.
  rewrite view_make_room in Hl, Hr.
  unfold view_output in Ho. cbn [View.make write_offset] in Ho.
  rewrite (ztake_0 0), app_nil_l in Ho by lia.
  pose proof Hwfv as (_&_&Hw). unfold View.writeOffset in *.
  destruct (law_writeAdvance (vbuffer v) (write_offset v) Hwfb)
    as (b'&->&Hwfb'&Ho'&Hr'&Hf'); [lia|].
  split; [done|]. exists b'. split; [done|]. split; [done|].
  rewrite !stream_output in Ho' by done. rewrite Ho', Hin, Ho.
  split; [done|]. split; [by rewrite Hr', <- Hr|congruence].
Qed.
End commit.

(** C24: pops through a [BufferView] answer as pops on the buffer itself would,
    leave the buffer untouched, and advancing the buffer by [readOffset()]
    afterwards leaves it delivering what the direct pops would have left. *)
Theorem view_reads_commit {B} `{StreamBuffer B} (cs : list call) (b : B) :
  wf b -> Forall is_pop cs ->
  exists rs v b' bd,
    do_calls cs (View.make b) = Ret (rs, v) /\ vbuffer v = b /\
    readAdvance (View.readOffset v) b = Ret b' /\
    do_calls cs b = Ret (rs, bd) /\ input b' = input bd.
Proof.
  intros Hwf Hcs. assert (Hwfv : wf (View.make b)) by exact (view_make_wf b Hwf).
  destruct (pops_eat cs (View.make b) 0 Hwfv Hcs) as (v&Hv&He).
  change (input (View.make b)) with (view_input (View.make b)) in Hv, He.
  rewrite view_make_input in Hv, He.
  destruct (pops_eat cs b 0 Hwf Hcs) as (bd&Hd&Hed).
  destruct (view_read_commit _ b v Hwf He) as (Hb&b'&Hb'&He').
  do 4 eexists. do 4 (split; [done|]).
  destruct He' as (_&Hi&_), Hed as (_&Hid&_).
  eapply app_inv_head. etrans; [symmetry; exact Hi|exact Hid].
Qed.

Lemma view_reads_commit_witness :
  let b := mkRing [x43; x44; x41; x42] 2 2 true in
  exists rs v b' bd,
    do_calls [PopBytes 3; PopBytes 2; PopByte] (View.make b) = Ret (rs, v) /\
    vbuffer v = b /\ readAdvance (View.readOffset v) b = Ret b' /\
    do_calls [PopBytes 3; PopBytes 2; PopByte] b = Ret (rs, bd) /\ input b' = input bd.
Proof.
  apply (view_reads_commit [PopBytes 3; PopBytes 2; PopByte]
    (mkRing [x43; x44; x41; x42] 2 2 true)).
  - vm_compute. repeat split; discriminate || done.
  - repeat constructor; vm_compute; by try split.
Defined.

(** C25: pushes through a [BufferView] answer as pushes on the buffer itself would,
    and before the commit the buffer delivers what it did; [writeOffset()] is the
    number of the accepted bytes.  If any byte was accepted, advancing the buffer by
    [writeOffset()] makes exactly the accepted bytes readable, in order, and leaves
    the room that direct pushes would have left.  If none was, the direct pushes
    change nothing that can be read or written, and there is nothing to commit:
    advancing by the offset, which is 0, is outside of this theorem, since on a full
    [RingBuffer] it loses what is stored. *)
Theorem view_writes_commit {B} `{StreamBuffer B} (cs : list call) (b : B) :
  wf b -> Forall is_push cs ->
  exists rs v bd,
    do_calls cs (View.make b) = Ret (rs, v) /\ input (vbuffer v) = input b /\
    do_calls cs b = Ret (rs, bd) /\ input bd = input b ++ pushed cs rs /\
    View.writeOffset v = zlen (pushed cs rs) /\
    (pushed cs rs <> [] ->
     exists b', writeAdvance (View.writeOffset v) (vbuffer v) = Ret b' /\
       input b' = input bd /\ room b' = room bd) /\
    (pushed cs rs = [] -> input bd = input b /\ room bd = room b).
Proof.
  intros Hwf Hcs. assert (Hwfv : wf (View.make b)) by exact (view_make_wf b Hwf).
  destruct (pushes_append cs (View.make b) [] Hwfv Hcs) as (v&Hv&Ha).
  change (room (View.make b)) with (view_room (View.make b)) in Hv, Ha.
  rewrite view_make_room in Hv, Ha.
  destruct (pushes_append cs b [] Hwf Hcs) as (bd&Hd&Had).
  do 3 eexists. split; [exact Hv|].
  split; [destruct Ha as (_&_&_&_&[=E _]); exact E|]. split; [exact Hd|].
  destruct Had as (Hwfd&_&Ho&Hr&_). rewrite !stream_output in Ho by done.
  split; [done|]. destruct (view_write_offset _ b v Hwf Ha) as (Hoff&_). split; [done|].
  split; [|intros E; rewrite Hr, Ho, E, app_nil_r, zlen_nil; split; [done|by apply zdrop_0]].
  intros Hne.
  assert (Hpos : forall l : list byte, l <> [] -> 0 < zlen l).
  { intros [|x l]; [done|]. rewrite zlen_cons. pose proof (zlen_nonneg l). lia. }
  destruct (view_write_commit _ b v Hwf (Hpos _ Hne) Ha) as (_&b'&Hb'&_&Hi&Hro&_).
  exists b'. split; [done|]. by rewrite Hi, Ho, Hro, Hr.
Qed.

Lemma view_writes_commit_witness :
  let b := mkRing [x00; x00; x41; x00] 2 3 false in
  exists rs v bd,
    do_calls [PushByte x42; PushBytes [x43; x44; x45]; PushBytes [x46; x47]]
      (View.make b) = Ret (rs, v) /\ input (vbuffer v) = input b /\
    do_calls [PushByte x42; PushBytes [x43; x44; x45]; PushBytes [x46; x47]] b
      = Ret (rs, bd) /\
    input bd = input b ++
      pushed [PushByte x42; PushBytes [x43; x44; x45]; PushBytes [x46; x47]] rs /\
    View.writeOffset v =
      zlen (pushed [PushByte x42; PushBytes [x43; x44; x45]; PushBytes [x46; x47]] rs) /\
    (pushed [PushByte x42; PushBytes [x43; x44; x45]; PushBytes [x46; x47]] rs <> [] ->
     exists b', writeAdvance (View.writeOffset v) (vbuffer v) = Ret b' /\
       input b' = input bd /\ room b' = room bd) /\
    (pushed [PushByte x42; PushBytes [x43; x44; x45]; PushBytes [x46; x47]] rs = [] ->
     input bd = input b /\ room bd = room b).
Proof.
  apply (view_writes_commit [PushByte x42; PushBytes [x43; x44; x45]; PushBytes [x46; x47]]
    (mkRing [x00; x00; x41; x00] 2 3 false)).
  - vm_compute. repeat split; discriminate || done.
  - repeat constructor; vm_compute; by try split.
Defined.

(** ** Printing *)

(** Reading a hexadecimal rendering back: two digits and a separator. *)
Definition hex_value (c : ascii) : Z :=
  let n := Z.of_N (Ascii.N_of_ascii c) in if n <? 97 then n - 48 else n - 87.

Fixpoint unhex (t : list ascii) : list byte :=
  match t with
  | h :: l :: t =>
      byte.of_Z (16 * hex_value h + hex_value l) ::
      match t with _ :: t => unhex t | [] => [] end
  | _ => []
  end.

Lemma hex_value_digit d : 0 <= d < 16 -> hex_value (hex_digit d) = d.
Proof.
  intros Hd. assert (Hall : forallb (fun d => hex_value (hex_digit d) =? d) (seqZ 0 16) = true)
    by reflexivity.
  rewrite forallb_forall in Hall. apply Z.eqb_eq, Hall.
  apply list_elem_of_In, elem_of_seqZ. lia.
Qed.

Lemma unhex_chunks n k l :
  k + zlen l = n ->
  unhex (concat (zip_with (fun v i => toHex_step n i v) l (seqZ k (zlen l)))) = l.
Proof.
  revert k. induction l as [|v l IH]; intros k Hk; [done|].
  rewrite zlen_cons in Hk |- *. pose proof (zlen_nonneg l). rewrite seqZ_cons by lia.
  replace (Z.pred (1 + zlen l)) with (zlen l) by lia. cbn [zip_with concat].
  unfold toHex_step at 1. rewrite <- app_assoc. cbn [app unhex].
  pose proof (byte.unsigned_range v). change (2 ^ 8) with 256 in *.
  assert (0 <= byte.unsigned v / 16 < 16)
    by (split; [apply Z.div_pos|apply Z.div_lt_upper_bound]; lia).
  pose proof (Z.mod_pos_bound (byte.unsigned v) 16 ltac:(lia)).
  rewrite !hex_value_digit by done.
  rewrite <- Z.div_mod, byte.of_Z_unsigned by lia.
  f_equal. destruct l as [|w l].
  - rewrite zlen_nil in Hk. bcase; [lia|]. done.
  - rewrite zlen_cons in *. pose proof (zlen_nonneg l).
    bcase; [|lia]. cbn [app]. apply IH. lia.
Qed.

(** [toString()] is the readable content, and [toHex()] renders it without
    loss: reading the digits back gives the content; neither faults. *)
Lemma printing_content {B} `{BufferLaws B} (b : B) :
  wf b ->
  toString b = Ret (input b) /\
  exists t, toHex b = Ret t /\ unhex t = input b.
Proof.
  intros Hwf. unfold toString, toHex.
  rewrite law_readCompositeLength, !bind_ret by done. split.
  - rewrite (mapM_seqZ (fun i => const_read i b) (fun x _ => x) (input b) 0).
    + rewrite zip_with_left; [done|]. rewrite length_seqZ. unfold zlen. lia.
    + intros i x Hx. by apply const_read_input.
  - rewrite (mapM_seqZ _ (fun v i => toHex_step (zlen (input b)) i v) (input b) 0).
    + eexists; split; [done|]. by apply unhex_chunks.
    + intros i x Hx. rewrite Z.add_0_l, (const_read_input b i x) by done. done.
Qed.

Lemma printing_content_witness :
  let b := mkArray [x68; x69; x00; xff; x0a; x41; x00] 1 6 in
  toString b = Ret (input b) /\ exists t, toHex b = Ret t /\ unhex t = input b.
Proof.
  apply (printing_content (mkArray [x68; x69; x00; xff; x0a; x41; x00] 1 6)).
  vm_compute. repeat split; discriminate || done.
Defined.
