(* ===== verification/StreamEndian.v ===== *)
(** Model of [source/forstio/stream_endian.h]: [ShiftStreamValue<T, N>] encodes
    a primitive value of N bytes into a buffer in little endian order by
    shifting, and decodes it.

    A C++ arithmetic type is its signedness and its size; a value is an integer
    (the bit pattern for [float] and [double], which the code only copies with
    [memcpy]).  [to_raw] is the object representation as an unsigned number. *)

From S2P Require Import Prelude Error Buffer RingBuffer ArrayBuffer.

Record ctype := mkType { is_signed : bool; sizeof : Z }.

Definition int8_t := mkType true 1.
Definition int16_t := mkType true 2.
Definition int32_t := mkType true 4.
Definition int64_t := mkType true 8.
Definition uint8_t := mkType false 1.
Definition uint16_t := mkType false 2.
Definition uint32_t := mkType false 4.
Definition uint64_t := mkType false 8.
Definition float_bits := mkType false 4.
Definition double_bits := mkType false 8.
(** [size_t] is [uint64_t]. *)
Definition size_t := uint64_t.

Definition type_ok (T : ctype) : Prop :=
  sizeof T = 1 \/ sizeof T = 2 \/ sizeof T = 4 \/ sizeof T = 8.

Definition in_range (T : ctype) (v : Z) : bool :=
  if is_signed T
  then (- 2 ^ (8 * sizeof T - 1) <=? v) && (v <? 2 ^ (8 * sizeof T - 1))
  else (0 <=? v) && (v <? 2 ^ (8 * sizeof T)).

(** [memcpy(&raw, &val, sizeof(T))] and [memcpy(&val, &raw, sizeof(T))]. *)
Definition to_raw (T : ctype) (v : Z) : Z := v mod 2 ^ (8 * sizeof T).
Definition of_raw (T : ctype) (raw : Z) : Z :=
  if is_signed T && (2 ^ (8 * sizeof T - 1) <=? raw)
  then raw - 2 ^ (8 * sizeof T) else raw.

(** The bytes of a value on the wire. *)
Definition value_bytes (T : ctype) (v : Z) : list byte :=
  le_split (Z.to_nat (sizeof T)) (to_raw T v).

Section stream.
Context {B : Type} `{BufferOps B}.
Implicit Types b : B.

(** [ShiftStreamValue<T, 1>] *)
Definition decode_byte (T : ctype) (val : Z) b : outcome (Error * Z * B) :=
  '(error, raw, b) ← pop [byte.of_Z (to_raw T val)] (sizeof T) b;
  Ret (error, of_raw T (le_combine raw), b).

Definition encode_byte (T : ctype) (val : Z) b : outcome (Error * B) :=
  push [byte.of_Z (to_raw T val)] (sizeof T) b.

(** The loops of [ShiftStreamValue<T, 2>], [<T, 4>] and [<T, 8>], whose bodies
    are the same up to the width of [raw]. *)
Fixpoint shift_in (T : ctype) (count : nat) (i raw : Z) b : outcome Z :=
  match count with
  | O => Ret raw
  | S count =>
      v ← read i b;
      let shifted := Z.shiftl (byte.unsigned v) (i * 8) mod 2 ^ (8 * sizeof T) in
      shift_in T count (i + 1) (Z.lor raw shifted) b
  end.

Fixpoint shift_out (count : nat) (i raw : Z) b : outcome B :=
  match count with
  | O => Ret b
  | S count =>
      b ← write i (byte.of_Z (Z.shiftr raw (i * 8))) b;
      shift_out count (i + 1) raw b
  end.

Definition decode_shift (T : ctype) (val : Z) b : outcome (Error * Z * B) :=
  n ← readCompositeLength b;
  if n <? sizeof T then Ret (recoverableError "Buffer too small", val, b)
  else
    raw ← shift_in T (Z.to_nat (sizeof T)) 0 0 b;
    b ← readAdvance (sizeof T) b;
    Ret (noError, of_raw T raw, b).

Definition encode_shift (T : ctype) (val : Z) b : outcome (Error * B) :=
  error ← writeRequireLength (sizeof T) b;
  if failed error then Ret (error, b)
  else
    let raw := to_raw T val in
    b ← shift_out (Z.to_nat (sizeof T)) 0 raw b;
    b ← writeAdvance (sizeof T) b;
    Ret (noError, b).

(** [StreamValue<T>]: the specialisation is chosen by [sizeof(T)]. *)
Definition decode_value (T : ctype) (val : Z) b : outcome (Error * Z * B) :=
  if sizeof T =? 1 then decode_byte T val b else decode_shift T val b.
Definition encode_value (T : ctype) (val : Z) b : outcome (Error * B) :=
  if sizeof T =? 1 then encode_byte T val b else encode_shift T val b.
Definition size_value (T : ctype) : Z := sizeof T.
End stream.

(** ** The representation *)
Section representation.
Implicit Types T : ctype.

Lemma type_ok_range T : type_ok T -> 1 <= sizeof T <= 8.
Proof. unfold type_ok. lia. Qed.

Lemma raw_range T v : type_ok T -> 0 <= to_raw T v < 2 ^ (8 * sizeof T).
Proof.
  intros HT. apply type_ok_range in HT. apply Z.mod_pos_bound. lia.
Qed.

Lemma half_double T : type_ok T -> 2 ^ (8 * sizeof T) = 2 * 2 ^ (8 * sizeof T - 1).
Proof.
  intros HT. apply type_ok_range in HT.
  rewrite <- Z.pow_succ_r by lia. f_equal. lia.
Qed.

(** Copying a value out and back is the identity on the values of the type. *)
Lemma of_to_raw T v : type_ok T -> in_range T v = true -> of_raw T (to_raw T v) = v.
Proof.
  intros HT. pose proof (half_double T HT). apply type_ok_range in HT.
  assert (0 < 2 ^ (8 * sizeof T - 1)) by (apply Z.pow_pos_nonneg; lia).
  unfold in_range, of_raw, to_raw.
  destruct (is_signed T); cbn; rewrite andb_true_iff, Z.leb_le, Z.ltb_lt; intros ?.
  - destruct (Z.le_gt_cases 0 v).
    + rewrite Z.mod_small by lia. bcase; lia.
    + replace (v mod _) with (v + 2 ^ (8 * sizeof T)).
      * bcase; lia.
      * apply Z.mod_unique with (-1); lia.
  - by rewrite Z.mod_small by lia.
Qed.

Lemma to_of_raw T raw :
  type_ok T -> 0 <= raw < 2 ^ (8 * sizeof T) -> to_raw T (of_raw T raw) = raw.
Proof.
  intros HT ?. unfold to_raw, of_raw.
  destruct (is_signed T && _); [|by rewrite Z.mod_small].
  symmetry. apply Z.mod_unique with (-1); lia.
Qed.

Lemma of_raw_in_range T raw :
  type_ok T -> 0 <= raw < 2 ^ (8 * sizeof T) -> in_range T (of_raw T raw) = true.
Proof.
  intros HT ?. pose proof (half_double T HT). unfold in_range, of_raw.
  destruct (is_signed T); cbn; rewrite andb_true_iff, Z.leb_le, Z.ltb_lt;
    [bcase|]; lia.
Qed.

Lemma value_bytes_len T v : type_ok T -> zlen (value_bytes T v) = sizeof T.
Proof.
  intros HT. apply type_ok_range in HT.
  unfold value_bytes, zlen. rewrite length_le_split. lia.
Qed.

Lemma combine_value_bytes T v :
  type_ok T -> le_combine (value_bytes T v) = to_raw T v.
Proof.
  intros HT. pose proof (raw_range T v HT). apply type_ok_range in HT.
  unfold value_bytes. rewrite le_combine_split, Z.mod_small; [done|].
  by replace (Z.of_nat (Z.to_nat (sizeof T)) * 8) with (8 * sizeof T) by lia.
Qed.

Lemma combine_bound T (bs : list byte) :
  zlen bs = sizeof T -> 0 <= le_combine bs < 2 ^ (8 * sizeof T).
Proof. intros <-. unfold zlen. apply le_combine_bound. Qed.

Lemma value_bytes_combine T bs :
  type_ok T -> zlen bs = sizeof T -> value_bytes T (of_raw T (le_combine bs)) = bs.
Proof.
  intros HT Hl. unfold value_bytes.
  rewrite to_of_raw by (done || by apply combine_bound).
  replace (Z.to_nat (sizeof T)) with (length bs) by (unfold zlen in Hl; lia).
  apply split_le_combine.
Qed.
End representation.

(** ** The loops *)
Section loops.
Context {B : Type} `{BufferLaws B}.
Implicit Types b : B.

Lemma shift_out_write_bytes count i raw b :
  0 <= i ->
  shift_out count i raw b = write_bytes i (le_split count (Z.shiftr raw (i * 8))) b.
Proof.
  revert i b. induction count as [|count IH]; intros i b Hi; [done|].
  change (le_split (S count) ?w) with (byte.of_Z w :: le_split count (Z.shiftr w 8)).
  cbn [shift_out write_bytes].
  destruct (write i _ b) as [b'|]; [|done]. cbn.
  rewrite IH, Z.shiftr_shiftr by lia. do 3 f_equal. lia.
Qed.

Lemma byte_shift_small T (v : byte) i :
  0 <= i < sizeof T ->
  Z.shiftl (byte.unsigned v) (i * 8) mod 2 ^ (8 * sizeof T) =
  Z.shiftl (byte.unsigned v) (i * 8).
Proof.
  intros. apply Z.mod_small. pose proof (byte.unsigned_range v).
  rewrite Z.shiftl_mul_pow2 by lia.
  assert (0 < 2 ^ (i * 8)) by (apply Z.pow_pos_nonneg; lia).
  split; [lia|].
  apply Z.lt_le_trans with (2 ^ 8 * 2 ^ (i * 8)).
  - apply Z.mul_lt_mono_pos_r; lia.
  - rewrite <- Z.pow_add_r by lia. apply Z.pow_le_mono_r; lia.
Qed.

Lemma shift_in_combine T count i raw b :
  wf b -> 0 <= i -> i + Z.of_nat count <= sizeof T -> sizeof T <= zlen (input b) ->
  shift_in T count i raw b =
    Ret (Z.lor raw (Z.shiftl
           (le_combine (take count (zdrop i (input b)))) (i * 8))).
Proof.
  intros Hwf. revert i raw. induction count as [|count IH]; intros i raw Hi Hc Hl.
  { cbn. unfold le_combine. by rewrite Z.shiftl_0_l, Z.lor_0_r. }
  destruct (lookup_lt_is_Some_2 (input b) (Z.to_nat i)) as [v Hv];
    [unfold zlen in Hl; lia|].
  cbn [shift_in]. destruct (read_ok i b v Hwf Hi Hv) as [-> _]. rewrite bind_ret.
  rewrite byte_shift_small, IH by lia. f_equal.
  unfold zdrop. rewrite (drop_S _ _ _ Hv). cbn [take].
  change (le_combine (v :: ?t))
    with (Z.lor (byte.unsigned v) (Z.shiftl (le_combine t) 8)).
  rewrite Z.shiftl_lor, Z.shiftl_shiftl, Z.lor_assoc by lia.
  replace (Z.to_nat (i + 1)) with (S (Z.to_nat i)) by lia.
  do 2 f_equal. lia.
Qed.
End loops.

(** ** Encoding and decoding over any lawful buffer *)
Section codec.
Context {B : Type} `{BufferLaws B}.
Implicit Types b : B.

Lemma encode_byte_ok T v b :
  type_ok T -> sizeof T = 1 -> wf b -> sizeof T <= zlen (room b) ->
  exists b', encode_byte T v b = Ret (noError, b') /\ appends (value_bytes T v) b b'.
Proof.
  intros HT H1 Hwf Hr. unfold encode_byte, value_bytes. rewrite H1 in *.
  apply (push_ok [byte.of_Z (to_raw T v)]); [done|zlist; lia|lia].
Qed.

Lemma encode_shift_ok T v b :
  type_ok T -> wf b -> sizeof T <= zlen (room b) ->
  exists b', encode_shift T v b = Ret (noError, b') /\ appends (value_bytes T v) b b'.
Proof.
  intros HT Hwf Hr. pose proof (value_bytes_len T v HT) as Hl.
  apply type_ok_range in HT.
  destruct (law_writeRequireLength b (sizeof T) Hwf) as (e&He&Hf&_); [zsolve|].
  unfold encode_shift. rewrite He, bind_ret, Hf. bcase; [lia|].
  rewrite shift_out_write_bytes, Z.shiftr_0_r by lia.
  fold (value_bytes T v).
  destruct (write_bytes_stores (value_bytes T v) 0 b Hwf) as (b1&->&Hs); [lia..|].
  destruct (commit_stores (value_bytes T v) b b1 Hwf ltac:(lia) Hs) as (b2&Ha&?).
  rewrite bind_ret, <- Hl, Ha. eauto.
Qed.

Lemma encode_value_ok T v b :
  type_ok T -> wf b -> sizeof T <= zlen (room b) ->
  exists b', encode_value T v b = Ret (noError, b') /\ appends (value_bytes T v) b b'.
Proof.
  intros. unfold encode_value. bcase.
  - by apply encode_byte_ok.
  - by apply encode_shift_ok.
Qed.

Lemma encode_value_refused T v b :
  type_ok T -> wf b -> zlen (room b) < sizeof T ->
  exists e, encode_value T v b = Ret (e, b) /\ isRecoverable e = true.
Proof.
  intros HT Hwf Hr. apply type_ok_range in HT.
  unfold encode_value, encode_byte, encode_shift. bcase.
  - apply push_refused; [done|zsolve].
  - destruct (law_writeRequireLength b (sizeof T) Hwf) as (e&He&Hf&Hrec); [zsolve|].
    rewrite He, bind_ret. rewrite Hf in *. revert Hrec. bcase; [|lia]. eauto.
Qed.

Lemma decode_value_ok T v0 b :
  type_ok T -> wf b -> sizeof T <= zlen (input b) ->
  exists b', decode_value T v0 b =
      Ret (noError, of_raw T (le_combine (ztake (sizeof T) (input b))), b') /\
    consumes (sizeof T) b b'.
Proof.
  intros HT Hwf Hi. apply type_ok_range in HT.
  unfold decode_value, decode_byte, decode_shift. bcase.
  - destruct (pop_ok [byte.of_Z (to_raw T v0)] (sizeof T) b Hwf) as (b'&->&?); [lia|].
    rewrite bind_ret. eauto.
  - rewrite law_readCompositeLength, bind_ret by done. bcase; [lia|].
    rewrite shift_in_combine by (done || lia).
    rewrite zdrop_0, Z.shiftl_0_r, Z.lor_0_l, bind_ret by lia.
    destruct (readAdvance_consumes (sizeof T) b Hwf) as (b'&->&?); [lia|].
    rewrite bind_ret. eauto.
Qed.

Lemma decode_value_refused T v0 b :
  type_ok T -> in_range T v0 = true -> wf b -> zlen (input b) < sizeof T ->
  decode_value T v0 b = Ret (recoverableError "Buffer too small", v0, b).
Proof.
  intros HT Hv Hwf Hi. pose proof HT as Hr. apply type_ok_range in Hr.
  unfold decode_value, decode_byte, decode_shift. bcase.
  - rewrite pop_refused, bind_ret by done. do 3 f_equal.
    rewrite <- (of_to_raw T v0) at 2 by done. f_equal.
    change [byte.of_Z (to_raw T v0)] with (le_split 1 (to_raw T v0)).
    rewrite le_combine_split, Z.mod_small; [done|].
    pose proof (raw_range T v0 HT). rewrite e in *. exact H1.
  - rewrite law_readCompositeLength, bind_ret by done. by bcase; [|lia].
Qed.
End codec.

Lemma value_bytes_lookup T v i :
  type_ok T -> 0 <= i < sizeof T ->
  value_bytes T v !! Z.to_nat i = Some (byte.of_Z (Z.shiftr (to_raw T v) (8 * i))).
Proof.
  intros HT Hi. unfold value_bytes.
  assert (Hgen : forall n j raw, (j < n)%nat ->
    le_split n raw !! j = Some (byte.of_Z (Z.shiftr raw (8 * Z.of_nat j)))).
  { induction n as [|n IH]; intros [|j] raw Hj; try lia; cbn [le_split].
    - by rewrite Z.shiftr_0_r.
    - etransitivity; [apply (IH j (Z.shiftr raw 8)); lia|].
      rewrite Z.shiftr_shiftr by lia. do 3 f_equal. lia. }
  rewrite Hgen by lia. do 3 f_equal. lia.
Qed.

(** C29: [StreamValue<T>::encode] writes the [sizeof(T)] bytes of the value in
    little endian order (byte [i] is bits [8 i] and up of the representation)
    behind the committed bytes, or fails with a recoverable error and leaves the
    buffer untouched when they do not fit. *)
Theorem stream_value_encode {B} `{StreamBuffer B} (T : ctype) (v : Z) (b : B) :
  type_ok T -> wf b ->
  if sizeof T <=? zlen (room b) then
    exists b' bs, encode_value T v b = Ret (noError, b') /\ wf b' /\
      input b' = input b ++ bs /\ zlen bs = sizeof T /\
      room b' = zdrop (sizeof T) (room b) /\
      forall i, 0 <= i < sizeof T ->
        bs !! Z.to_nat i = Some (byte.of_Z (Z.shiftr (to_raw T v) (8 * i)))
  else exists e, encode_value T v b = Ret (e, b) /\ isRecoverable e = true.
Proof.
  intros HT Hwf. bcase; [|by apply encode_value_refused].
  destruct (encode_value_ok T v b HT Hwf) as (b'&->&(Hwf'&_&Ho&Hr&_)); [done|].
  rewrite !stream_output in Ho by done. rewrite value_bytes_len in Hr by done.
  exists b', (value_bytes T v). split_and!; try done; [by apply value_bytes_len|].
  intros i Hi. by apply value_bytes_lookup.
Qed.

Lemma stream_value_encode_witness :
  let b := mkRing [x00; x7a; x00; x00; x00; x00] 1 2 false in
  if sizeof int32_t <=? zlen (room b) then
    exists b' bs, encode_value int32_t (-559038737) b = Ret (noError, b') /\ wf b' /\
      input b' = input b ++ bs /\ zlen bs = sizeof int32_t /\
      room b' = zdrop (sizeof int32_t) (room b) /\
      forall i, 0 <= i < sizeof int32_t ->
        bs !! Z.to_nat i = Some (byte.of_Z (Z.shiftr (to_raw int32_t (-559038737)) (8 * i)))
  else exists e, encode_value int32_t (-559038737) b = Ret (e, b) /\ isRecoverable e = true.
Proof.
  apply (stream_value_encode int32_t (-559038737)
    (mkRing [x00; x7a; x00; x00; x00; x00] 1 2 false)).
  - unfold type_ok. cbn. lia.
  - vm_compute. repeat split; discriminate.
Defined.

(** C28: a value of the type, encoded into one buffer and delivered by any other,
    is decoded to itself with nothing else consumed; with fewer bytes than the
    type has, decoding fails and neither the variable nor the buffer changes. *)
Theorem stream_value_roundtrip {B1 B2} `{StreamBuffer B1} `{BufferLaws B2}
    (T : ctype) (v v0 : Z) (b1 b1' : B1) (b2 : B2) (rest : list byte) :
  type_ok T -> in_range T v = true -> in_range T v0 = true -> wf b1 -> input b1 = [] ->
  encode_value T v b1 = Ret (noError, b1') ->
  wf b2 ->
  (input b2 = input b1' ++ rest ->
   exists b2', decode_value T v0 b2 = Ret (noError, v, b2') /\ input b2' = rest) /\
  (zlen (input b2) < sizeof T ->
   exists e, decode_value T v0 b2 = Ret (e, v0, b2) /\ isRecoverable e = true).
Proof.
  intros HT Hv Hv0 Hwf1 Hi1 He Hwf2. split; last first.
  { intros Hs. rewrite decode_value_refused by done. eauto. }
  intros Hi2. destruct (Z.le_gt_cases (sizeof T) (zlen (room b1))) as [Hr|Hr]; last first.
  { destruct (encode_value_refused T v b1 HT Hwf1 Hr) as (e&He'&Hrec).
    rewrite He in He'. injection He' as <- _. done. }
  destruct (encode_value_ok T v b1 HT Hwf1 Hr) as (b'&He'&(Hwf'&_&Ho&_)).
  rewrite He in He'. injection He' as <-.
  rewrite !stream_output, Hi1, app_nil_l in Ho by done. rewrite Ho in Hi2.
  pose proof (value_bytes_len T v HT) as Hl. pose proof (zlen_nonneg rest).
  destruct (decode_value_ok T v0 b2 HT Hwf2) as (b2'&->&(_&_&Hi'&_));
    [rewrite Hi2, zlen_app; lia|].
  exists b2'. rewrite Hi', Hi2, ztake_app_exact, zdrop_app_exact by done.
  by rewrite combine_value_bytes, of_to_raw by done.
Qed.

Lemma stream_value_roundtrip_witness :
  let b2 := mkArray [x00; xfe; xff; x2a] 1 4 in
  (input b2 = input (mkRing [xfe; xff; x00] 0 2 false) ++ [x2a] ->
   exists b2', decode_value int16_t 7 b2 = Ret (noError, -2, b2') /\ input b2' = [x2a]) /\
  (zlen (input b2) < sizeof int16_t ->
   exists e, decode_value int16_t 7 b2 = Ret (e, 7, b2) /\ isRecoverable e = true).
Proof.
  apply (stream_value_roundtrip int16_t (-2) 7 (mkRing [x00; x00; x00] 0 0 false)
    (mkRing [xfe; xff; x00] 0 2 false) (mkArray [x00; xfe; xff; x2a] 1 4) [x2a]).
  - unfold type_ok. cbn. lia.
  - reflexivity.
  - reflexivity.
  - vm_compute. repeat split; discriminate.
  - reflexivity.
  - vm_compute. reflexivity.
  - vm_compute. repeat split; discriminate.
Defined.
