(* ===== verification/Message.v ===== *)
(** Model of [source/forstio/schema.h], [message_container.h] and [message.h]:
    the schema descriptions, the containers that store a message, and the
    builders and readers that refer to a part of it.

    A C++ class template instance per schema becomes one inductive type of
    schemas, and the nested containers become one inductive type of messages;
    [typed] is the C++ typing of a container by its schema.  A builder or a
    reader is a reference to a part of the message, that is a path of member
    indices from the root. *)

From S2P Require Import Prelude Error Buffer StreamEndian.

(** ** [namespace schema] *)
Module schema.
Inductive kind := SignedInteger | UnsignedInteger | FloatingPoint.

(** [NamedMember<V, K>] is the pair of the schema and the key. *)
#[warnings="-register-all"]
Inductive t :=
| Primitive (T : kind) (N : Z)
| String
| Struct (members : list (t * string))
| Union (members : list (t * string))
| Array (T : t)
| Tuple (T : list t).

Definition Int8 := Primitive SignedInteger 1.
Definition Int16 := Primitive SignedInteger 2.
Definition Int32 := Primitive SignedInteger 4.
Definition Int64 := Primitive SignedInteger 8.
Definition UInt8 := Primitive UnsignedInteger 1.
Definition UInt16 := Primitive UnsignedInteger 2.
Definition UInt32 := Primitive UnsignedInteger 4.
Definition UInt64 := Primitive UnsignedInteger 8.
Definition Float32 := Primitive FloatingPoint 4.
Definition Float64 := Primitive FloatingPoint 8.

(** The [static_assert] of [Primitive]. *)
Definition primitive_ok (T : kind) (N : Z) : bool :=
  match T with
  | SignedInteger | UnsignedInteger =>
      (N =? 1) || (N =? 2) || (N =? 4) || (N =? 8)
  | FloatingPoint => (N =? 4) || (N =? 8)
  end.

(** What the compiler accepts: legal primitives; a [std::variant] has at least
    one alternative and its index fits the 32-bit union id. *)
Fixpoint ok (s : t) : bool :=
  match s with
  | Primitive T N => primitive_ok T N
  | String => true
  | Struct ms => forallb (fun m => ok m.1) ms
  | Union ms => forallb (fun m => ok m.1) ms && (0 <? zlen ms) && (zlen ms <? 2 ^ 32)
  | Array T => ok T
  | Tuple ts => forallb ok ts
  end.

Section induction.
Variable P : t -> Prop.
Hypothesis HPrimitive : forall T N, P (Primitive T N).
Hypothesis HString : P String.
Hypothesis HStruct : forall ms, Forall (fun m => P m.1) ms -> P (Struct ms).
Hypothesis HUnion : forall ms, Forall (fun m => P m.1) ms -> P (Union ms).
Hypothesis HArray : forall T, P T -> P (Array T).
Hypothesis HTuple : forall ts, Forall P ts -> P (Tuple ts).

Fixpoint ind (s : t) : P s :=
  let fix members (ms : list (t * string)) : Forall (fun m => P m.1) ms :=
    match ms with
    | [] => Forall_nil_2 _
    | m :: ms => Forall_cons_2 _ m ms (ind m.1) (members ms)
    end in
  let fix elements (ts : list t) : Forall P ts :=
    match ts with
    | [] => Forall_nil_2 _
    | t :: ts => Forall_cons_2 _ t ts (ind t) (elements ts)
    end in
  match s with
  | Primitive T N => HPrimitive T N
  | String => HString
  | Struct ms => HStruct ms (members ms)
  | Union ms => HUnion ms (members ms)
  | Array T => HArray T (ind T)
  | Tuple ts => HTuple ts (elements ts)
  end.
End induction.
End schema.
Abbreviation schema := schema.t.

(** ** Parameter packs (message_container.h) *)

(** [MessageParameterPackType<N, T...>]; [None] is a failed instantiation. *)
Fixpoint MessageParameterPackType {A} (N : nat) (T : list A) : option A :=
  match N, T with
  | O, TN :: _ => Some TN
  | S N, _ :: T => MessageParameterPackType N T
  | _, [] => None
  end.

(** [MessageParameterPackIndex<T, TL...>]: [T] occurs in the pack. *)
Fixpoint MessageParameterPackIndex {A} `{EqDecision A} (T : A) (TL : list A)
  : option Z :=
  match TL with
  | [] => None
  | TL0 :: TL =>
      if decide (T = TL0) then Some 0
      else i ← MessageParameterPackIndex T TL; Some (1 + i)
  end.

(** [MessageParameterKeyPackIndexHelper]: for a key that is absent, the length. *)
Fixpoint MessageParameterKeyPackIndexHelper (V : string) (Keys : list string) : Z :=
  match Keys with
  | [] => 0
  | Key0 :: Keys =>
      if decide (V = Key0) then 0
      else 1 + MessageParameterKeyPackIndexHelper V Keys
  end.

(** [MessageParameterKeyPackIndex] with its [static_assert]. *)
Definition MessageParameterKeyPackIndex (V : string) (Keys : list string) : option Z :=
  let Value := MessageParameterKeyPackIndexHelper V Keys in
  if Value <? zlen Keys then Some Value else None.

Definition SchemaIsArray (s : schema) : bool :=
  match s with schema.Array _ => true | _ => false end.

(** [PrimitiveTypeHelper<Primitive<T, N>>::Type] *)
Definition PrimitiveTypeHelper (T : schema.kind) (N : Z) : ctype :=
  match T, N with
  | schema.SignedInteger, 1 => int8_t
  | schema.SignedInteger, 2 => int16_t
  | schema.SignedInteger, 4 => int32_t
  | schema.SignedInteger, 8 => int64_t
  | schema.UnsignedInteger, 1 => uint8_t
  | schema.UnsignedInteger, 2 => uint16_t
  | schema.UnsignedInteger, 4 => uint32_t
  | schema.UnsignedInteger, 8 => uint64_t
  | schema.FloatingPoint, 4 => float_bits
  | schema.FloatingPoint, 8 => double_bits
  | _, _ => uint8_t
  end.

(** ** [MessageContainer<Schema>] *)
#[warnings="-register-all"]
Inductive message :=
| MPrimitive (value : Z)
| MString (value : list byte)
| MStruct (values : list message)
| MUnion (index : Z) (value : message)
| MArray (values : list message)
| MTuple (values : list message).

(** Default construction: zero, the empty string, default members, the first
    alternative of a variant, the empty vector. *)
Fixpoint default_message (s : schema) : message :=
  match s with
  | schema.Primitive _ _ => MPrimitive 0
  | schema.String => MString []
  | schema.Struct ms => MStruct (map (fun m => default_message m.1) ms)
  | schema.Union ms =>
      MUnion 0 (match ms with m :: _ => default_message m.1 | [] => MTuple [] end)
  | schema.Array _ => MArray []
  | schema.Tuple ts => MTuple (map default_message ts)
  end.

(** Pointwise and indexed tests on packs. *)
Section packs.
Context {A C : Type} (f : A -> C -> bool).
Fixpoint forall2b (l : list A) (k : list C) : bool :=
  match l, k with
  | [], [] => true
  | x :: l, y :: k => f x y && forall2b l k
  | _, _ => false
  end.
Fixpoint nthb (l : list A) (i : nat) (y : C) : bool :=
  match l, i with
  | x :: _, O => f x y
  | _ :: l, S i => nthb l i y
  | [], _ => false
  end.
End packs.

(** The message is a value of the container class of the schema.  The sizes of
    vectors and strings are [size_t]. *)
Fixpoint typed (s : schema) (m : message) {struct s} : bool :=
  match s, m with
  | schema.Primitive T N, MPrimitive v => in_range (PrimitiveTypeHelper T N) v
  | schema.String, MString v => zlen v <? size_mod
  | schema.Struct ms, MStruct vs => forall2b (fun m v => typed m.1 v) ms vs
  | schema.Union ms, MUnion i v =>
      (0 <=? i) && nthb (fun m v => typed m.1 v) ms (Z.to_nat i) v
  | schema.Array T, MArray vs => forallb (typed T) vs && (zlen vs <? size_mod)
  | schema.Tuple ts, MTuple vs => forall2b typed ts vs
  | _, _ => false
  end.

(** [MessageContainer<Union>::get<i>()]: another alternative is replaced by a
    default one before the reference is taken; [V] is the [i]-th schema. *)
Definition union_get (i : Z) (V : schema) (m : message) : outcome message :=
  match m with
  | MUnion index v => Ret (if i =? index then v else default_message V)
  | _ => Halt UndefinedBehaviour
  end.

(** [vector::resize]: [array_capacity] is how many elements the allocator can
    provide, beyond it [std::length_error] or [std::bad_alloc] is thrown. *)
Definition array_resize (array_capacity : Z) (T : schema) (size : Z)
    (values : list message) : outcome (list message) :=
  if size <=? array_capacity then
    Ret (ztake size values ++
         replicate (Z.to_nat (size - zlen values)) (default_message T))
  else Halt LengthError.

(** ** Facts on packs and on typing *)
Section pack_facts.
Context {A C : Type} (f : A -> C -> bool).

Lemma forall2b_Forall2 l k :
  forall2b f l k = true <-> Forall2 (fun x y => f x y = true) l k.
Proof.
  revert k. induction l as [|x l IH]; intros [|y k]; cbn.
  - done.
  - split; [done|by inversion 1].
  - split; [done|by inversion 1].
  - rewrite andb_true_iff, IH. split; [intros []; by constructor|by inversion 1].
Qed.

Lemma nthb_lookup l i y :
  nthb f l i y = true <-> exists x, l !! i = Some x /\ f x y = true.
Proof.
  revert i. induction l as [|x l IH]; intros [|i]; cbn.
  1, 2: split; [done|by intros (?&?&?)].
  - split; [eauto|by intros (?&[= ->]&?)].
  - apply IH.
Qed.
End pack_facts.

Lemma forallb_Forall_eq {A} (f : A -> bool) l :
  forallb f l = true <-> Forall (fun x => f x = true) l.
Proof. rewrite forallb_forall, List.Forall_forall. done. Qed.

Lemma helper_type_ok T N :
  schema.primitive_ok T N = true ->
  type_ok (PrimitiveTypeHelper T N) /\ sizeof (PrimitiveTypeHelper T N) = N.
Proof.
  unfold type_ok, schema.primitive_ok.
  destruct T; rewrite ?orb_true_iff, ?Z.eqb_eq; intros Hok;
    repeat (destruct Hok as [Hok|Hok]); subst; cbn; split; lia.
Qed.

(** Default construction yields a message of the schema. *)
Lemma default_typed s : schema.ok s = true -> typed s (default_message s) = true.
Proof.
  induction s as [T N| |ms IH|ms IH|T IH|ts IH] using schema.ind; cbn; intros Hok.
  - destruct (helper_type_ok _ _ Hok) as [HT _]. unfold in_range.
    pose proof (half_double _ HT). apply type_ok_range in HT.
    assert (0 < 2 ^ (8 * sizeof (PrimitiveTypeHelper T N) - 1))
      by (apply Z.pow_pos_nonneg; lia).
    destruct (is_signed _); rewrite andb_true_iff, Z.leb_le, Z.ltb_lt; lia.
  - done.
  - apply forallb_Forall_eq in Hok. apply forall2b_Forall2.
    induction IH; inversion Hok; subst; constructor; auto.
  - rewrite !andb_true_iff in Hok. destruct Hok as [[Hok Hl] _].
    destruct ms as [|m ms]; [done|]. cbn in *.
    apply andb_true_iff in Hok as [Hok _]. inversion IH; subst. auto.
  - done.
  - apply forallb_Forall_eq in Hok. apply forall2b_Forall2.
    induction IH; inversion Hok; subst; constructor; auto.
Qed.

(** [get<i>] of a union and [resize] of an array keep the typing. *)
Lemma union_get_typed ms i0 v0 i V :
  schema.ok (schema.Union ms) = true -> 0 <= i ->
  typed (schema.Union ms) (MUnion i0 v0) = true -> ms !! Z.to_nat i = Some V ->
  exists v, union_get i V.1 (MUnion i0 v0) = Ret v /\ typed V.1 v = true.
Proof.
  cbn. rewrite !andb_true_iff, Z.leb_le. intros [[Hok _] _] Hi [Hi0 Ht] Hl.
  eexists; split; [done|]. destruct (Z.eqb_spec i i0) as [E|E].
  - apply nthb_lookup in Ht as (V'&Hl'&?). congruence.
  - apply default_typed. apply forallb_Forall_eq in Hok.
    by eapply (Forall_lookup_1 _ _ _ _ Hok).
Qed.

Lemma array_resize_ok cap T n vs :
  schema.ok T = true -> 0 <= n <= cap -> forallb (typed T) vs = true ->
  exists vs', array_resize cap T n vs = Ret vs' /\ zlen vs' = n /\
    forallb (typed T) vs' = true.
Proof.
  intros Hok Hn Hvs. unfold array_resize. bcase; [|lia]. eexists; split; [done|].
  split.
  - unfold zlen, ztake. rewrite length_app, length_take, length_replicate. lia.
  - rewrite forallb_app, andb_true_iff. split.
    + apply forallb_Forall_eq, Forall_take. by apply forallb_Forall_eq.
    + apply forallb_Forall_eq, Forall_replicate. by apply default_typed.
Qed.
