(* ===== verification/MessageAccess.v ===== *)
(** Model of the builders and readers of [source/forstio/message.h].

    A [Builder] or [Reader] is a reference to a part of a message, obtained from
    the root by a chain of [init<i>()], [init<"key">()], [init(i)] or
    [get<...>()] calls: a path of keys.  Both kinds of chain call the container's
    [get], so both are [access] below; the operation at the end of the chain is
    its argument. *)

From S2P Require Import Prelude Error Buffer StreamEndian Message.

Inductive key :=
| Index (i : Z)
| Name (k : string).

(** What the compiler computes from the template argument: the index of the
    member and its schema; [None] is an ill-formed program. *)
Definition toIndex (Keys : list string) (k : key) : option Z :=
  match k with
  | Index i => if (0 <=? i) && (i <? zlen Keys) then Some i else None
  | Name V => MessageParameterKeyPackIndex V Keys
  end.

Definition member_type (s : schema) (k : key) : option (Z * schema) :=
  match s, k with
  | (schema.Struct ms | schema.Union ms), _ =>
      i ← toIndex (map snd ms) k;
      m ← MessageParameterPackType (Z.to_nat i) ms;
      Some (i, m.1)
  | schema.Tuple ts, Index i =>
      if 0 <=? i then t ← MessageParameterPackType (Z.to_nat i) ts; Some (i, t) else None
  | schema.Array T, Index i =>
      if (0 <=? i) && (i <? size_mod) then Some (i, T) else None
  | _, _ => None
  end.

(** The schema at the end of a chain. *)
Fixpoint path_type (s : schema) (path : list key) : option schema :=
  match path with
  | [] => Some s
  | k :: path => '(_, V) ← member_type s k; path_type V path
  end.

(** [MessageContainer<...>::get]: [std::get<i>] on a tuple, the switching [get]
    of a union, [vector::at]. *)
Definition vector_at {A} (v : list A) (i : Z) : outcome A :=
  match v !! Z.to_nat i with Some x => Ret x | None => Halt OutOfRange end.

Definition container_get (i : Z) (V : schema) (m : message) : outcome message :=
  match m with
  | MStruct vs | MTuple vs => vec_get vs i
  | MUnion _ _ => union_get i V m
  | MArray vs => vector_at vs i
  | _ => Halt UndefinedBehaviour
  end.

(** The container after the referenced member became [v]. *)
Definition container_put (i : Z) (v : message) (m : message) : message :=
  match m with
  | MStruct vs => MStruct (<[Z.to_nat i := v]> vs)
  | MTuple vs => MTuple (<[Z.to_nat i := v]> vs)
  | MUnion _ _ => MUnion i v
  | MArray vs => MArray (<[Z.to_nat i := v]> vs)
  | m => m
  end.

(** A chain of calls from the root, ended by [f] on the referenced part. *)
Fixpoint access {A} (path : list key) (s : schema)
    (f : schema -> message -> outcome (A * message)) (m : message)
    : outcome (A * message) :=
  match path with
  | [] => f s m
  | k :: path =>
      match member_type s k with
      | None => Halt UndefinedBehaviour   (* rejected by the compiler *)
      | Some (i, V) =>
          v ← container_get i V m;
          '(a, v) ← access path V f v;
          Ret (a, container_put i v m)
      end
  end.

(** ** The operations at the end of a chain *)
Module Builder.
(** [set] of a primitive and of a string builder. *)
Definition set (new : message) (s : schema) (m : message) : outcome (unit * message) :=
  match s, new with
  | schema.Primitive _ _, MPrimitive _ | schema.String, MString _ => Ret (tt, new)
  | _, _ => Halt UndefinedBehaviour   (* rejected by the compiler *)
  end.

(** [resize] of an array builder. *)
Definition resize (cap size : Z) (s : schema) (m : message) : outcome (unit * message) :=
  match s, m with
  | schema.Array T, MArray vs =>
      vs ← array_resize cap T size vs; Ret (tt, MArray vs)
  | _, _ => Halt UndefinedBehaviour   (* rejected by the compiler *)
  end.

(** [init<i>(size)] of an array member: the constructor of its builder. *)
Definition init_array (cap size : Z) (s : schema) (m : message)
  : outcome (unit * message) :=
  if 0 <? size then resize cap size s m else Ret (tt, m).
End Builder.

Module Reader.
(** [get()] of a primitive or string reader; for the other readers, the part
    itself, as their own [get]s see it. *)
Definition get (s : schema) (m : message) : outcome (message * message) := Ret (m, m).

(** [size()] of an array. *)
Definition size (s : schema) (m : message) : outcome (Z * message) :=
  match m with
  | MArray vs => Ret (zlen vs, m)
  | _ => Halt UndefinedBehaviour   (* rejected by the compiler *)
  end.

(** [index()] and [hasAlternative<"key">()] of a union. *)
Definition index (s : schema) (m : message) : outcome (Z * message) :=
  match m with
  | MUnion i _ => Ret (i, m)
  | _ => Halt UndefinedBehaviour   (* rejected by the compiler *)
  end.
Definition hasAlternative (k : key) (s : schema) (m : message)
  : outcome (bool * message) :=
  match s, m with
  | schema.Union ms, MUnion i _ =>
      match toIndex (map snd ms) k with
      | Some j => Ret (i =? j, m)
      | None => Halt UndefinedBehaviour   (* rejected by the compiler *)
      end
  | _, _ => Halt UndefinedBehaviour   (* rejected by the compiler *)
  end.
End Reader.

(** [heapMessageRoot<Schema>()] *)
Definition heapMessageRoot (s : schema) : message := default_message s.

(** A message root owns its message; it is empty ([None]) once it was moved from.
    A builder or reader of it ends a chain of calls with [f]. *)
Module HeapMessageRoot.
Section root.
Context {A : Type} (s : schema) (f : schema -> message -> outcome (A * message)).

Definition read (root : option message) : outcome (A * option message) :=
  match root with
  | Some m => '(a, m) ← f s m; Ret (a, Some m)
  | None => Halt AssertionFailed
  end.
Definition build (root : option message) : outcome (A * option message) :=
  match root with
  | Some m => '(a, m) ← f s m; Ret (a, Some m)
  | None => Halt AssertionFailed
  end.

(** [build(size)] of the root of an array. *)
Definition build_array (cap size : Z) (root : option message) : outcome (A * option message) :=
  match root with
  | Some m =>
      '(_, m) ← Builder.init_array cap size s m;
      '(a, m) ← f s m; Ret (a, Some m)
  | None => Halt AssertionFailed
  end.
End root.
End HeapMessageRoot.

(** ** Typing *)
Lemma pack_type_lookup {A} (T : list A) N : MessageParameterPackType N T = T !! N.
Proof. revert N. induction T as [|t T IH]; intros [|N]; cbn; auto. Qed.

Lemma toIndex_range Keys k i : toIndex Keys k = Some i -> 0 <= i < zlen Keys.
Proof.
  destruct k as [j|V]; cbn.
  - destruct (0 <=? j) eqn:?, (j <? zlen Keys) eqn:?; cbn; try done.
    intros [= <-]. rewrite Z.leb_le, Z.ltb_lt in *. lia.
  - unfold MessageParameterKeyPackIndex. bcase; [|done]. intros [= <-].
    split; [|done]. clear. induction Keys as [|K Keys IH]; cbn; [done|].
    case_decide; lia.
Qed.

(** The element a step of the path leads to, by the kind of schema. *)
Lemma member_type_cases s k i V :
  member_type s k = Some (i, V) ->
  0 <= i /\
  match s with
  | schema.Struct ms | schema.Union ms =>
      exists m, ms !! Z.to_nat i = Some m /\ m.1 = V
  | schema.Tuple ts => ts !! Z.to_nat i = Some V
  | schema.Array T => i < size_mod /\ T = V
  | _ => False
  end.
Proof.
  destruct s as [| |ms|ms|T|ts]; cbn; try done.
  1, 2: destruct (toIndex _ k) as [j|] eqn:Hj; [|done]; cbn;
    rewrite pack_type_lookup; destruct (ms !! Z.to_nat j) as [m|] eqn:Hm; [|done];
    intros [= <- <-]; apply toIndex_range in Hj; split; [lia|eauto].
  - destruct k as [j|]; [|done].
    destruct (0 <=? j) eqn:?, (j <? size_mod) eqn:?; cbn; try done.
    intros [= <- <-]. rewrite Z.leb_le, Z.ltb_lt in *. done.
  - destruct k as [j|]; [|done]. bcase; [|done]. rewrite pack_type_lookup.
    destruct (ts !! Z.to_nat j) eqn:?; [|done]. by intros [= <- <-].
Qed.

Lemma member_type_ok s k i V :
  schema.ok s = true -> member_type s k = Some (i, V) -> schema.ok V = true.
Proof.
  intros Hok Hm. apply member_type_cases in Hm as [Hi Hm].
  destruct s as [| |ms|ms|T|ts]; try done; cbn [schema.ok] in Hok.
  - destruct Hm as (m&Hl&<-). apply forallb_Forall_eq in Hok.
    exact (Forall_lookup_1 _ _ _ _ Hok Hl).
  - destruct Hm as (m&Hl&<-). rewrite !andb_true_iff in Hok. destruct Hok as [[Hok _] _].
    apply forallb_Forall_eq in Hok. exact (Forall_lookup_1 _ _ _ _ Hok Hl).
  - by destruct Hm as [_ <-].
  - apply forallb_Forall_eq in Hok. exact (Forall_lookup_1 _ _ _ _ Hok Hm).
Qed.

Section forall2b.
Context {A C : Type} (f : A -> C -> bool).

Lemma forall2b_lookup l k i x :
  forall2b f l k = true -> l !! i = Some x ->
  exists y, k !! i = Some y /\ f x y = true.
Proof. rewrite forall2b_Forall2. intros HF Hl. exact (Forall2_lookup_l _ _ _ _ _ HF Hl). Qed.

Lemma forall2b_insert l k i x y :
  forall2b f l k = true -> l !! i = Some x -> f x y = true ->
  forall2b f l (<[i:=y]> k) = true.
Proof.
  rewrite !forall2b_Forall2. intros HF Hl Hy.
  rewrite <- (list_insert_id l i x) by done. by apply Forall2_insert.
Qed.
End forall2b.

(** Following a key: the member is of the member's schema, and only an array
    index can be out of range; what is put back keeps the whole typed. *)
Lemma container_get_typed s k i V m :
  schema.ok s = true -> typed s m = true -> member_type s k = Some (i, V) ->
  (exists v, container_get i V m = Ret v /\ typed V v = true) \/
  container_get i V m = Halt OutOfRange /\ SchemaIsArray s = true.
Proof.
  intros Hok Ht Hm. apply member_type_cases in Hm as [Hi Hm].
  destruct s as [| |ms|ms|T|ts], m; try done; cbn [typed] in Ht.
  - left. destruct Hm as (x&Hl&<-).
    destruct (forall2b_lookup _ _ _ _ _ Ht Hl) as (v&Hv&?). exists v.
    cbn. by rewrite (vec_get_Some _ _ _ Hv).
  - left. destruct Hm as (x&Hl&<-). by eapply union_get_typed.
  - destruct Hm as [_ <-]. cbn. unfold vector_at.
    destruct (values !! Z.to_nat i) as [v|] eqn:Hv; [|by right].
    left. exists v. split; [done|]. apply andb_true_iff in Ht as [Ht _].
    apply forallb_Forall_eq in Ht. exact (Forall_lookup_1 _ _ _ _ Ht Hv).
  - left. destruct (forall2b_lookup _ _ _ _ _ Ht Hm) as (v&Hv&?). exists v.
    cbn. by rewrite (vec_get_Some _ _ _ Hv).
Qed.

Lemma container_put_typed s k i V v m :
  typed s m = true -> member_type s k = Some (i, V) -> typed V v = true ->
  typed s (container_put i v m) = true.
Proof.
  intros Ht Hm Hv. apply member_type_cases in Hm as [Hi Hm].
  destruct s as [| |ms|ms|T|ts], m; try done; cbn [typed container_put] in *.
  - destruct Hm as (x&Hl&<-). by eapply forall2b_insert.
  - destruct Hm as (x&Hl&<-). apply andb_true_iff.
    split; [by apply Z.leb_le|]. apply nthb_lookup. eauto.
  - destruct Hm as [_ <-]. apply andb_true_iff in Ht as [Ht Hl]. apply andb_true_iff. split.
    + apply forallb_Forall_eq, Forall_insert; [by apply forallb_Forall_eq|done].
    + unfold zlen in *. by rewrite length_insert.
  - by eapply forall2b_insert.
Qed.

(** ** Getting and putting *)
Lemma container_get_put i V v v' m :
  container_get i V m = Ret v -> container_get i V (container_put i v' m) = Ret v'.
Proof.
  destruct m as [| |vs|idx u|vs|vs]; cbn; try done.
  1, 3, 4: unfold vec_get, vector_at; destruct (vs !! Z.to_nat i) eqn:Hv; [|done]; intros _;
    rewrite list_lookup_insert_eq; [done|by eapply lookup_lt_Some].
  intros _. by rewrite Z.eqb_refl.
Qed.

Lemma container_put_put i v v' m :
  container_put i v (container_put i v' m) = container_put i v m.
Proof. destruct m; cbn; by rewrite ?list_insert_insert_eq. Qed.

(** Putting back a part that leaves the container as it was. *)
Lemma container_put_id i V v v' m :
  container_get i V m = Ret v -> container_put i v' m = m -> v' = v.
Proof.
  destruct m as [| |vs|idx u|vs|vs]; cbn; try done.
  1, 3, 4: unfold vec_get, vector_at; destruct (vs !! Z.to_nat i) as [x|] eqn:Hv; [|done];
    intros [= <-] [= Hp]; pose proof (lookup_lt_Some _ _ _ Hv);
    apply (f_equal (fun l => l !! Z.to_nat i)) in Hp;
    rewrite list_lookup_insert_eq in Hp by done; congruence.
  intros Hg [= -> ->]. rewrite Z.eqb_refl in Hg. by injection Hg.
Qed.

Definition is_union (m : message) : bool :=
  match m with MUnion _ _ => true | _ => false end.

Lemma container_get_put_ne i j W v x m :
  is_union m = false -> 0 <= i -> 0 <= j -> i <> j ->
  container_get j W m = Ret x ->
  container_get j W (container_put i v m) = Ret x /\
  container_put j x (container_put i v m) = container_put i v m.
Proof.
  intros Hu Hi Hj Hne. assert (Z.to_nat i <> Z.to_nat j) by lia.
  destruct m as [| |vs|idx u|vs|vs]; cbn; try done.
  all: unfold vec_get, vector_at; destruct (vs !! Z.to_nat j) as [y|] eqn:Hv; [|done];
    intros [= <-]; rewrite list_lookup_insert_ne, Hv by done; split; [done|];
    f_equal; apply list_insert_id; by rewrite list_lookup_insert_ne.
Qed.

Lemma member_type_fun s k l i V W :
  member_type s k = Some (i, V) -> member_type s l = Some (i, W) -> V = W.
Proof.
  intros [_ Hk]%member_type_cases [_ Hl]%member_type_cases.
  destruct s; try done.
  - destruct Hk as (?&?&<-), Hl as (?&?&<-). congruence.
  - destruct Hk as (?&?&<-), Hl as (?&?&<-). congruence.
  - destruct Hk as [_ <-], Hl as [_ <-]. done.
  - congruence.
Qed.

(** ** Chains *)
Section chains.
Context {A : Type}.
Implicit Types f : schema -> message -> outcome (A * message).

(** A chain only throws [out_of_range], or what its operation throws, and keeps
    the message typed when the operation does. *)
Lemma access_typed path s t f (F : fault -> Prop) m :
  schema.ok s = true -> typed s m = true -> path_type s path = Some t ->
  (forall v, schema.ok t = true -> typed t v = true ->
     match f t v with Ret (_, v') => typed t v' = true | Halt e => F e end) ->
  match access path s f m with
  | Ret (_, m') => typed s m' = true
  | Halt e => e = OutOfRange \/ F e
  end.
Proof.
  intros Hok Ht Hp Hf. revert s m Hok Ht Hp.
  induction path as [|k path IH]; intros s m Hok Ht Hp; cbn in Hp |- *.
  { injection Hp as ->. specialize (Hf m Hok Ht).
    destruct (f t m) as [[a v']|e]; [done|]. by right. }
  destruct (member_type s k) as [[i V]|] eqn:Hm; [|done]. cbn in Hp.
  destruct (container_get_typed s k i V m Hok Ht Hm) as [(v&->&Hv)|[-> _]];
    [|by left]. cbn.
  specialize (IH V v (member_type_ok _ _ _ _ Hok Hm) Hv Hp).
  destruct (access path V f v) as [[a v']|e]; [|done]. cbn.
  by eapply container_put_typed.
Qed.

(** What the chain left at its end is what the same chain finds there. *)
Lemma access_again path s f m a m' :
  access path s f m = Ret (a, m') ->
  exists t v v', f t v = Ret (a, v') /\ access path s Reader.get m' = Ret (v', m').
Proof.
  revert s m m'. induction path as [|k path IH]; intros s m m'; cbn.
  { intros Hf. by exists s, m, m'. }
  destruct (member_type s k) as [[i V]|] eqn:Hm; [|done].
  destruct (container_get i V m) as [v|] eqn:Hg; [|done]. cbn.
  destruct (access path V f v) as [[a' v']|e] eqn:Ha; [|done]. cbn.
  intros [= -> <-]. destruct (IH V v v' Ha) as (t&w&w'&Hf&Hr).
  exists t, w, w'. split; [done|].
  rewrite (container_get_put _ _ _ _ _ Hg). cbn. rewrite Hr. cbn.
  by rewrite container_put_put.
Qed.
End chains.

(** Two chains that part at a struct, a tuple or an array. *)
Definition schema_is_union (s : schema) : bool :=
  match s with schema.Union _ => true | _ => false end.

Fixpoint diverge (s : schema) (p q : list key) : bool :=
  match p, q with
  | k :: p, l :: q =>
      match member_type s k, member_type s l with
      | Some (i, V), Some (j, _) =>
          if i =? j then diverge V p q else negb (schema_is_union s)
      | _, _ => false
      end
  | _, _ => false
  end.

Lemma typed_union s m : typed s m = true -> is_union m = schema_is_union s.
Proof. by destruct s, m. Qed.

Lemma access_disjoint {A} p q s (f : schema -> message -> outcome (A * message)) m v a m' :
  schema.ok s = true -> typed s m = true -> diverge s p q = true ->
  access q s Reader.get m = Ret (v, m) -> access p s f m = Ret (a, m') ->
  access q s Reader.get m' = Ret (v, m').
Proof.
  revert s m m' q. induction p as [|k p IH]; intros s m m' [|l q] Hok Ht; cbn; try done.
  destruct (member_type s k) as [[i V]|] eqn:Hk; [|done].
  destruct (member_type s l) as [[j W]|] eqn:Hl; [|done].
  pose proof (member_type_cases _ _ _ _ Hk) as [Hi _].
  pose proof (member_type_cases _ _ _ _ Hl) as [Hj _].
  destruct (container_get j W m) as [x|] eqn:Hx; [|done]. cbn.
  destruct (access q W Reader.get x) as [[v0 x']|] eqn:Hq; [|done]. cbn.
  destruct (container_get i V m) as [y|] eqn:Hy; [|done]. cbn.
  destruct (access p V f y) as [[a' y']|] eqn:Hp; [|done]. cbn.
  intros Hd [= -> Hput] [= -> <-].
  pose proof (container_put_id _ _ _ _ _ Hx Hput) as ->.
  destruct (Z.eqb_spec i j) as [<-|Hne].
  - pose proof (member_type_fun _ _ _ _ _ _ Hk Hl) as <-.
    rewrite Hy in Hx. injection Hx as <-.
    rewrite (container_get_put _ _ _ _ _ Hy). cbn.
    destruct (container_get_typed s k i V m Hok Ht Hk) as [(y0&Hy0&Hty)|[Hy0 _]];
      rewrite Hy in Hy0; [injection Hy0 as <-|done].
    rewrite (IH V y y' q (member_type_ok _ _ _ _ Hok Hk) Hty Hd Hq Hp). cbn.
    by rewrite container_put_put.
  - apply negb_true_iff in Hd. rewrite <- (typed_union _ _ Ht) in Hd.
    destruct (container_get_put_ne i j W y' x m Hd Hi Hj Hne Hx) as [-> Hpp].
    cbn. rewrite Hq. cbn. by rewrite Hpp.
Qed.

(** ** Programs that build a message *)
Inductive build_op :=
| OSet (path : list key) (new : message)
| OInitArray (path : list key) (size : Z)
| OResize (path : list key) (size : Z)
| OGet (path : list key).

Definition do_build (cap : Z) (s : schema) (o : build_op) (m : message) : outcome message :=
  match o with
  | OSet path new => '(_, m) ← access path s (Builder.set new) m; Ret m
  | OInitArray path size => '(_, m) ← access path s (Builder.init_array cap size) m; Ret m
  | OResize path size => '(_, m) ← access path s (Builder.resize cap size) m; Ret m
  | OGet path => '(_, m) ← access path s Reader.get m; Ret m
  end.

Fixpoint do_builds (cap : Z) (s : schema) (os : list build_op) (m : message)
  : outcome message :=
  match os with
  | [] => Ret m
  | o :: os => m ← do_build cap s o m; do_builds cap s os m
  end.

(** What the compiler accepts: the chain exists and ends at a part of the right
    kind, the new value is one of its type, and a size is a [size_t]. *)
Definition set_ok (new : message) (t : schema) : bool :=
  match t with schema.Primitive _ _ | schema.String => typed t new | _ => false end.
Definition size_ok (size : Z) (t : schema) : bool :=
  SchemaIsArray t && (0 <=? size) && (size <? size_mod).

Definition compiles (s : schema) (o : build_op) : bool :=
  let ends path (test : schema -> bool) :=
    match path_type s path with Some t => test t | None => false end in
  match o with
  | OSet path new => ends path (set_ok new)
  | OInitArray path size | OResize path size => ends path (size_ok size)
  | OGet path => ends path (fun _ => true)
  end.

Lemma set_typed new t v :
  set_ok new t = true ->
  match Builder.set new t v with Ret (_, v') => typed t v' = true | Halt e => False end.
Proof. by destruct t, new. Qed.

Lemma resize_typed cap size t v :
  size_ok size t = true -> schema.ok t = true -> typed t v = true ->
  match Builder.resize cap size t v with
  | Ret (_, v') => typed t v' = true
  | Halt e => e = LengthError
  end.
Proof.
  unfold size_ok. rewrite !andb_true_iff, Z.leb_le, Z.ltb_lt. intros [[Ha H0] H1] Hok Ht.
  destruct t as [| | | |T|], v as [| | | |vs|]; try done.
  cbn [typed schema.ok Builder.resize] in *. apply andb_true_iff in Ht as [Ht _].
  destruct (Z.le_gt_cases size cap).
  - destruct (array_resize_ok cap T size vs) as (vs'&->&Hl&Hvs); [done|lia|done|].
    cbn. rewrite Hvs, Hl. by apply Z.ltb_lt.
  - unfold array_resize. by bcase; [lia|].
Qed.

Lemma init_typed cap size t v :
  size_ok size t = true -> schema.ok t = true -> typed t v = true ->
  match Builder.init_array cap size t v with
  | Ret (_, v') => typed t v' = true
  | Halt e => e = LengthError
  end.
Proof. intros. unfold Builder.init_array. bcase; [by apply resize_typed|done]. Qed.

(** The root of an array, built with a size and read: the array has that size and
    is typed, so that a chain of calls goes on from it as from any message. *)
Lemma array_root_built cap size T :
  schema.ok T = true -> 0 <= size <= cap -> size < size_mod ->
  exists vs,
    HeapMessageRoot.build_array (schema.Array T) Reader.get cap size
      (Some (heapMessageRoot (schema.Array T))) = Ret (MArray vs, Some (MArray vs)) /\
    HeapMessageRoot.read (schema.Array T) Reader.size (Some (MArray vs)) =
      Ret (size, Some (MArray vs)) /\
    typed (schema.Array T) (MArray vs) = true.
Proof.
  intros Hok Hs Hm. unfold HeapMessageRoot.build_array, HeapMessageRoot.read, Builder.init_array.
  cbn [heapMessageRoot default_message Builder.resize]. destruct (Z.ltb_spec 0 size).
  - destruct (array_resize_ok cap T size [] Hok Hs eq_refl) as (vs&Hr&Hl&Hvs).
    exists vs. cbn [heapMessageRoot default_message Builder.resize mbind outcome_bind].
    rewrite Hr. cbn. rewrite Hl, Hvs. bcase; [done|lia].
  - exists []. by replace size with 0 by lia.
Qed.

Lemma do_build_typed cap s o m :
  schema.ok s = true -> typed s m = true -> compiles s o = true ->
  match do_build cap s o m with
  | Ret m' => typed s m' = true
  | Halt e => e = OutOfRange \/ e = LengthError
  end.
Proof.
  intros Hok Ht.
  assert (Hacc : forall A path t (f : schema -> message -> outcome (A * message)),
    path_type s path = Some t ->
    (forall v, schema.ok t = true -> typed t v = true ->
       match f t v with Ret (_, v') => typed t v' = true | Halt e => e = LengthError end) ->
    match ('(_, m) ← access path s f m; Ret m) with
    | Ret m' => typed s m' = true
    | Halt e => e = OutOfRange \/ e = LengthError
    end).
  { intros A path t f Hp Hf.
    pose proof (access_typed path s t f (fun e => e = LengthError) m Hok Ht Hp Hf) as Ha.
    by destruct (access path s f m) as [[a m']|e]. }
  destruct o as [path new|path size|path size|path]; cbn [compiles do_build];
    destruct (path_type s path) as [t|] eqn:Hp; try done; intros Hc;
    apply (Hacc _ path t); try done; intros v Hokt Hv.
  - pose proof (set_typed new t v Hc). by destruct (Builder.set new t v) as [[]|].
  - by apply init_typed.
  - by apply resize_typed.
Qed.

(** ** Properties of messages *)

Definition person : schema :=
  schema.Struct [(schema.String, "name");
    (schema.Union [(schema.UInt32, "id"); (schema.Array schema.String, "aliases")], "key");
    (schema.Tuple [schema.Int16; schema.Float64], "extra")].

(** C27: what [set] stored at the end of a chain is what the same chain reads
    back, without changing the message any more; and every chain that parts from
    it at a struct, a tuple or an array and read its part in place before, still
    reads the same value. *)
Theorem message_set_get (s t : schema) (path : list key) (new m m' : message) :
  schema.ok s = true -> typed s m = true ->
  path_type s path = Some t -> set_ok new t = true ->
  access path s (Builder.set new) m = Ret (tt, m') ->
  typed s m' = true /\ access path s Reader.get m' = Ret (new, m') /\
  forall q v, diverge s path q = true -> access q s Reader.get m = Ret (v, m) ->
    access q s Reader.get m' = Ret (v, m').
Proof.
  intros Hok Ht Hp Hset Ha. split; [|split].
  - pose proof (access_typed path s t (Builder.set new) (fun _ => False) m Hok Ht Hp) as H.
    rewrite Ha in H. apply H. intros v _ _. by apply set_typed.
  - destruct (access_again path s (Builder.set new) m tt m' Ha) as (t'&v&v'&Hs&->).
    destruct t', new; cbn in Hs; try discriminate Hs; by injection Hs as <-.
  - intros q v Hd Hq. by eapply (access_disjoint path q).
Qed.

Lemma message_set_get_witness :
  let path := [Name "key"; Index 1; Index 0] in
  let m := MStruct [MString [x41]; MUnion 1 (MArray [MString []; MString [x42]]);
                    MTuple [MPrimitive (-3); MPrimitive 0]] in
  let m' := MStruct [MString [x41]; MUnion 1 (MArray [MString [x43; x44]; MString [x42]]);
                    MTuple [MPrimitive (-3); MPrimitive 0]] in
  typed person m' = true /\ access path person Reader.get m' = Ret (MString [x43; x44], m') /\
  forall q v, diverge person path q = true -> access q person Reader.get m = Ret (v, m) ->
    access q person Reader.get m' = Ret (v, m').
Proof.
  apply (message_set_get person schema.String [Name "key"; Index 1; Index 0]
    (MString [x43; x44])
    (MStruct [MString [x41]; MUnion 1 (MArray [MString []; MString [x42]]);
              MTuple [MPrimitive (-3); MPrimitive 0]])); vm_compute; reflexivity.
Defined.

(** C26: every program of [set], [init], [resize] and [get] calls that compiles,
    run on a fresh [heapMessageRoot], keeps the message a value of its schema,
    and can only stop by an array index out of range or a failing [resize]. *)
Theorem message_build_typed (cap : Z) (s : schema) (os : list build_op) :
  schema.ok s = true -> forallb (compiles s) os = true ->
  match do_builds cap s os (heapMessageRoot s) with
  | Ret m => typed s m = true
  | Halt e => e = OutOfRange \/ e = LengthError
  end.
Proof.
  intros Hok Hos. pose proof (default_typed s Hok) as Ht. unfold heapMessageRoot.
  revert Ht. generalize (default_message s). revert Hos.
  induction os as [|o os IH]; cbn [forallb do_builds]; [done|].
  intros [Ho Hos]%andb_true_iff m Ht.
  pose proof (do_build_typed cap s o m Hok Ht Ho) as Hd.
  destruct (do_build cap s o m) as [m1|e]; [|done]. by apply IH.
Qed.

Lemma message_build_typed_witness :
  let os := [OSet [Name "name"] (MString [x41]); OInitArray [Name "key"; Name "aliases"] 2;
             OSet [Name "key"; Name "aliases"; Index 1] (MString [x42]);
             OGet [Name "key"; Name "id"]; OSet [Index 2; Index 0] (MPrimitive (-7))] in
  match do_builds 10 person os (heapMessageRoot person) with
  | Ret m => typed person m = true
  | Halt e => e = OutOfRange \/ e = LengthError
  end.
Proof.
  apply (message_build_typed 10 person
    [OSet [Name "name"] (MString [x41]); OInitArray [Name "key"; Name "aliases"] 2;
     OSet [Name "key"; Name "aliases"; Index 1] (MString [x42]);
     OGet [Name "key"; Name "id"]; OSet [Index 2; Index 0] (MPrimitive (-7))]);
    vm_compute; reflexivity.
Defined.

(** Reading an alternative of a union that is not the active one succeeds,
    answers the default value and replaces what the union held by it: the value
    that was stored is gone and [hasAlternative] has changed its answer. *)
Lemma union_get_resets (ms : list (schema * string)) (k : key) (i idx : Z)
    (V : schema) (u : message) :
  member_type (schema.Union ms) k = Some (i, V) -> i <> idx ->
  Reader.hasAlternative k (schema.Union ms) (MUnion idx u) = Ret (false, MUnion idx u) /\
  access [k] (schema.Union ms) Reader.get (MUnion idx u) =
    Ret (default_message V, MUnion i (default_message V)) /\
  Reader.hasAlternative k (schema.Union ms) (MUnion i (default_message V)) =
    Ret (true, MUnion i (default_message V)).
Proof.
  intros Hm Hne. pose proof Hm as Hm'. cbn [member_type] in Hm'.
  destruct (toIndex (map snd ms) k) as [j|] eqn:Hj; [|done]. cbn in Hm'.
  destruct (MessageParameterPackType _ ms); [|done]. injection Hm' as <- <-.
  cbn [Reader.hasAlternative access]. rewrite Hj, Hm. cbn.
  rewrite Z.eqb_refl. by destruct (Z.eqb_spec j idx), (Z.eqb_spec idx j); subst.
Qed.

Lemma union_get_resets_witness :
  let s := schema.Union [(schema.String, "text"); (schema.Int32, "number")] in
  let m := MUnion 0 (MString [x61; x62]) in
  Reader.hasAlternative (Name "number") s m = Ret (false, m) /\
  access [Name "number"] s Reader.get m = Ret (MPrimitive 0, MUnion 1 (MPrimitive 0)) /\
  Reader.hasAlternative (Name "number") s (MUnion 1 (MPrimitive 0)) =
    Ret (true, MUnion 1 (MPrimitive 0)).
Proof.
  apply (union_get_resets [(schema.String, "text"); (schema.Int32, "number")]
    (Name "number") 1 0 schema.Int32 (MString [x61; x62])); [reflexivity|lia].
Defined.

(** [MessageParameterKeyPackIndex] is the index of the first member with the
    key, and does not compile exactly when there is none. *)
Lemma key_index_first (V : string) (Keys : list string) :
  match MessageParameterKeyPackIndex V Keys with
  | Some i => 0 <= i /\ Keys !! Z.to_nat i = Some V /\
      forall j, (j < Z.to_nat i)%nat -> Keys !! j <> Some V
  | None => V ∉ Keys
  end.
Proof.
  unfold MessageParameterKeyPackIndex.
  induction Keys as [|K Keys IH]; cbn; [apply not_elem_of_nil|].
  assert (Hn : 0 <= MessageParameterKeyPackIndexHelper V Keys).
  { clear. induction Keys; cbn; [done|]. case_decide; lia. }
  pose proof (zlen_nonneg Keys). rewrite zlen_cons. case_decide as Hd.
  - bcase; [|lia]. subst. split; [done|]. split; [done|]. lia.
  - set (n := MessageParameterKeyPackIndexHelper V Keys) in *. revert IH.
    destruct (Z.ltb_spec n (zlen Keys)), (Z.ltb_spec (1 + n) (1 + zlen Keys)); try lia.
    + intros (_&Hl&Hf). replace (Z.to_nat (1 + n)) with (S (Z.to_nat n)) by lia.
      split; [lia|]. split; [done|]. intros [|j] Hj; cbn; [congruence|].
      apply Hf. lia.
    + intros Hin. by apply not_elem_of_cons.
Qed.
