(* ===== verification/ProtoKel.v ===== *)
(** Model of [source/forstio/proto_kel.h]: the binary codec.  A packet is the
    64-bit length of the payload and the payload, which lists the members of a
    message in order; a string and an array start with their 64-bit length, a
    union with the 32-bit index of its alternative. *)

From stdpp Require Import pretty.
From S2P Require Import Prelude Error Buffer BufferView StreamEndian Message.

Definition msg_union_id_t : ctype := uint32_t.
Definition msg_array_length_t : ctype := uint64_t.
Definition msg_packet_length_t : ctype := uint64_t.

(** [ProtoKelCodec::Limits] *)
Record Limits := mkLimits { packet_size : Z }.
Definition default_limits : Limits := mkLimits 4096.

(** [ProtoKelCodec::Version] *)
Record Version := mkVersion { major : Z; minor : Z; security : Z }.
Definition version : Version := mkVersion 0 0 0.

(** ** Sizes: [ProtoKelEncodeImpl<...>::size] *)
Section sizes.
Context {A : Type} (size : A -> message -> Z).

(** [sizeMembers<i>] of a tuple or a struct. *)
Fixpoint sizeMembers (ts : list A) (vs : list message) : Z :=
  match ts, vs with
  | t :: ts, v :: vs => size t v +! sizeMembers ts vs
  | _, _ => 0
  end.

(** [sizeMembers<i>] of a union. *)
Fixpoint sizeAlternatives (i : Z) (ts : list A) (index : Z) (v : message) : Z :=
  match ts with
  | [] => 0
  | t :: ts => if index =? i then size t v else sizeAlternatives (i + 1) ts index v
  end.

(** The loop over the elements of an array, all of schema [t]. *)
Fixpoint sizeElements (t : A) (members : Z) (vs : list message) : Z :=
  match vs with
  | [] => members
  | v :: vs => sizeElements t (members +! size t v) vs
  end.
End sizes.

Fixpoint size (s : schema) (m : message) {struct s} : Z :=
  match s, m with
  | schema.Primitive T N, MPrimitive _ => size_value (PrimitiveTypeHelper T N)
  | schema.String, MString v => sizeof size_t +! zlen v
  | schema.Tuple ts, MTuple vs => sizeMembers size ts vs
  | schema.Struct ms, MStruct vs => sizeMembers (fun m v => size m.1 v) ms vs
  | schema.Union ms, MUnion i v =>
      sizeof msg_union_id_t +! sizeAlternatives (fun m v => size m.1 v) 0 ms i v
  | schema.Array T, MArray vs =>
      sizeElements (fun _ v => size T v) tt (sizeof msg_array_length_t) vs
  | _, _ => 0
  end.

(** ** Encoding: [ProtoKelEncodeImpl<...>::encode] *)
Section encode.
Context {B : Type} `{BufferOps B}.
Implicit Types b : B.

Definition encode_string (view : list byte) b : outcome (Error * B) :=
  let size := zlen view in
  error ← writeRequireLength (sizeof size_t +! size) b;
  if failed error then Ret (error, b)
  else
    '(error, b) ← encode_value size_t size b;
    if failed error then Ret (error, b)
    else
      b ← write_bytes 0 view b;
      b ← writeAdvance size b;
      Ret (noError, b).

Section members.
Context {A : Type} (enc : A -> message -> B -> outcome (Error * B)).

(** [encodeMembers<i>] of a tuple or a struct. *)
Fixpoint encodeMembers (ts : list A) (vs : list message) b : outcome (Error * B) :=
  match ts, vs with
  | [], _ => Ret (noError, b)
  | t :: ts, v :: vs =>
      '(error, b) ← enc t v b;
      if failed error then Ret (error, b) else encodeMembers ts vs b
  | _ :: _, [] => Halt UndefinedBehaviour
  end.

(** [encodeMembers<i>] of a union. *)
Fixpoint encodeAlternatives (i : Z) (ts : list A) (index : Z) (v : message) b
  : outcome (Error * B) :=
  match ts with
  | [] => Ret (noError, b)
  | t :: ts =>
      if index =? i then
        '(error, b) ← encode_value msg_union_id_t i b;
        if failed error then Ret (error, b) else enc t v b
      else encodeAlternatives (i + 1) ts index v b
  end.

(** The loop over the elements of an array. *)
Fixpoint encodeElements (t : A) (vs : list message) b : outcome (Error * B) :=
  match vs with
  | [] => Ret (noError, b)
  | v :: vs =>
      '(error, b) ← enc t v b;
      if failed error then Ret (error, b) else encodeElements t vs b
  end.
End members.

Fixpoint encode (s : schema) (m : message) b {struct s} : outcome (Error * B) :=
  match s, m with
  | schema.Primitive T N, MPrimitive v => encode_value (PrimitiveTypeHelper T N) v b
  | schema.String, MString v => encode_string v b
  | schema.Tuple ts, MTuple vs => encodeMembers encode ts vs b
  | schema.Struct ms, MStruct vs => encodeMembers (fun m => encode m.1) ms vs b
  | schema.Union ms, MUnion i v =>
      encodeAlternatives (fun m => encode m.1) 0 ms i v b
  | schema.Array T, MArray vs =>
      '(error, b) ← encode_value msg_array_length_t (zlen vs) b;
      if failed error then Ret (error, b)
      else encodeElements (fun _ => encode T) tt vs b
  | _, _ => Halt UndefinedBehaviour   (* excluded by the C++ types *)
  end.
End encode.

(** ** Decoding: [ProtoKelDecodeImpl<...>::decode]

    The message is the part the builder refers to, updated in place. *)
Section decode.
Context {B : Type} `{BufferOps B}.
Context (array_capacity : Z).
Implicit Types b : B.

Definition decode_primitive (T : ctype) b : outcome (Error * message * B) :=
  '(error, val, b) ← decode_value T 0 b;
  Ret (error, MPrimitive val, b).

Definition decode_string (old : list byte) b : outcome (Error * message * B) :=
  n ← readCompositeLength b;
  if n <? sizeof size_t then Ret (recoverableError "Buffer too small", MString old, b)
  else
    '(error, size, b) ← decode_value size_t 0 b;
    if failed error then Ret (error, MString old, b)
    else
      n ← readCompositeLength b;
      if n <? size then Ret (recoverableError "Buffer too small", MString old, b)
      else
        n ← readCompositeLength b;
        if n <? size then Ret (recoverableError "Buffer too small", MString old, b)
        else
          value ← mapM (fun i => read i b) (seqZ 0 size);
          b ← readAdvance (zlen value) b;
          Ret (noError, MString value, b).

Section members.
Context {A : Type}.
Context (dec : A -> message -> B -> outcome (Error * message * B)).

(** [decodeMembers<i>] of a tuple or a struct. *)
Fixpoint decodeMembers (ts : list A) (vs : list message) b
  : outcome (Error * list message * B) :=
  match ts, vs with
  | [], _ => Ret (noError, vs, b)
  | t :: ts, v :: vs =>
      '(error, v, b) ← dec t v b;
      if failed error then Ret (error, v :: vs, b)
      else
        '(error, vs, b) ← decodeMembers ts vs b;
        Ret (error, v :: vs, b)
  | _ :: _, [] => Halt UndefinedBehaviour
  end.

(** [decodeMembers<i>] of a union: it goes on after the alternative. *)
Fixpoint decodeAlternatives (schema_of : A -> schema) (i : Z) (ts : list A)
    (m : message) b (id : Z) : outcome (Error * message * B) :=
  match ts with
  | [] => Ret (noError, m, b)
  | t :: ts =>
      if id =? i then
        v ← union_get i (schema_of t) m;
        '(error, v, b) ← dec t v b;
        if failed error then Ret (error, MUnion i v, b)
        else decodeAlternatives schema_of (i + 1) ts (MUnion i v) b id
      else decodeAlternatives schema_of (i + 1) ts m b id
  end.

(** The loop over the elements of a resized array. *)
Fixpoint decodeElements (t : A) (vs : list message) b
  : outcome (Error * list message * B) :=
  match vs with
  | [] => Ret (noError, [], b)
  | v :: vs =>
      '(error, v, b) ← dec t v b;
      if failed error then Ret (error, v :: vs, b)
      else
        '(error, vs, b) ← decodeElements t vs b;
        Ret (error, v :: vs, b)
  end.
End members.

Fixpoint decode (s : schema) (m : message) b {struct s}
  : outcome (Error * message * B) :=
  match s, m with
  | schema.Primitive T N, MPrimitive _ => decode_primitive (PrimitiveTypeHelper T N) b
  | schema.String, MString old => decode_string old b
  | schema.Tuple ts, MTuple vs =>
      '(error, vs, b) ← decodeMembers decode ts vs b;
      Ret (error, MTuple vs, b)
  | schema.Struct ms, MStruct vs =>
      '(error, vs, b) ← decodeMembers (fun m => decode m.1) ms vs b;
      Ret (error, MStruct vs, b)
  | schema.Union ms, MUnion _ _ =>
      '(error, id, b) ← decode_value msg_union_id_t 0 b;
      if failed error then Ret (error, m, b)
      else if zlen ms <=? id then
        Ret (criticalError "Union doesn't have this many id's", m, b)
      else decodeAlternatives (fun m => decode m.1) fst 0 ms m b id
  | schema.Array T, MArray vs =>
      '(error, array_length, b) ← decode_value msg_array_length_t 0 b;
      if failed error then Ret (error, m, b)
      else
        vs ← array_resize array_capacity T array_length vs;
        '(error, vs, b) ← decodeElements (fun _ => decode T) tt vs b;
        Ret (error, MArray vs, b)
  | _, _ => Halt UndefinedBehaviour   (* excluded by the C++ types *)
  end.
End decode.

(** ** [ProtoKelCodec::encode] and [ProtoKelCodec::decode] *)
Section codec.
Context {B : Type} `{BufferOps B}.
Implicit Types b : B.

Definition codec_encode (s : schema) (reader : message) b : outcome (Error * B) :=
  let view := View.make b in
  let packet_length := size s reader in
  error ← writeRequireLength (packet_length +! sizeof msg_packet_length_t) view;
  if failed error then Ret (error, vbuffer view)
  else
    '(error, view) ← encode_value msg_packet_length_t packet_length view;
    if failed error then Ret (error, vbuffer view)
    else
      '(error, view) ← encode s reader view;
      if failed error then Ret (error, vbuffer view)
      else
        b ← writeAdvance (View.writeOffset view) (vbuffer view);
        Ret (noError, b).

Definition packet_too_big (packet_length : Z) : Error :=
  criticalError_format (Some ("Packet size too big: " +:+ pretty packet_length))
    "Packet size too big".

Definition codec_decode (array_capacity : Z) (s : schema) (builder : message) b
    (limits : Limits) : outcome (Error * message * B) :=
  let view := View.make b in
  '(error, packet_length, view) ← decode_value msg_packet_length_t 0 view;
  if failed error then Ret (error, builder, vbuffer view)
  else if packet_size limits <? packet_length then
    Ret (packet_too_big packet_length, builder, vbuffer view)
  else
    '(error, builder, view) ← decode array_capacity s builder view;
    if failed error then Ret (error, builder, vbuffer view)
    else if negb (size s builder =? packet_length) then
      Ret (criticalError "Bad packet format", builder, vbuffer view)
    else
      b ← readAdvance (View.readOffset view) (vbuffer view);
      Ret (noError, builder, b).
End codec.

(** ** The wire format, as a specification *)
Section wire.
Context {A : Type} (bytes : A -> message -> list byte).
Fixpoint member_bytes (ts : list A) (vs : list message) : list byte :=
  match ts, vs with
  | t :: ts, v :: vs => bytes t v ++ member_bytes ts vs
  | _, _ => []
  end.
Fixpoint alternative_bytes (ts : list A) (i : nat) (v : message) : list byte :=
  match ts, i with
  | t :: _, O => bytes t v
  | _ :: ts, S i => alternative_bytes ts i v
  | [], _ => []
  end.
End wire.

Fixpoint encode_bytes (s : schema) (m : message) {struct s} : list byte :=
  match s, m with
  | schema.Primitive T N, MPrimitive v => value_bytes (PrimitiveTypeHelper T N) v
  | schema.String, MString v => value_bytes size_t (zlen v) ++ v
  | schema.Tuple ts, MTuple vs => member_bytes encode_bytes ts vs
  | schema.Struct ms, MStruct vs => member_bytes (fun m => encode_bytes m.1) ms vs
  | schema.Union ms, MUnion i v =>
      value_bytes msg_union_id_t i ++
      alternative_bytes (fun m => encode_bytes m.1) ms (Z.to_nat i) v
  | schema.Array T, MArray vs =>
      value_bytes msg_array_length_t (zlen vs) ++ concat (map (encode_bytes T) vs)
  | _, _ => []
  end.

Definition packet_bytes (s : schema) (m : message) : list byte :=
  value_bytes msg_packet_length_t (zlen (encode_bytes s m)) ++ encode_bytes s m.

(** Every array of the message fits the allocator. *)
Fixpoint arrays_fit (array_capacity : Z) (m : message) : bool :=
  match m with
  | MPrimitive _ | MString _ => true
  | MStruct vs | MTuple vs => forallb (arrays_fit array_capacity) vs
  | MUnion _ v => arrays_fit array_capacity v
  | MArray vs => (zlen vs <=? array_capacity) && forallb (arrays_fit array_capacity) vs
  end.

Lemma uint64_ok : type_ok uint64_t.
Proof. unfold type_ok; cbn; lia. Qed.
Lemma uint32_ok : type_ok uint32_t.
Proof. unfold type_ok; cbn; lia. Qed.
#[export] Hint Resolve uint64_ok uint32_ok : core.

Lemma uint64_range v : 0 <= v < size_mod -> in_range uint64_t v = true.
Proof. intros []. by apply andb_true_iff; rewrite Z.leb_le, Z.ltb_lt. Qed.
Lemma uint32_range v : 0 <= v < 2 ^ 32 -> in_range uint32_t v = true.
Proof. intros []. by apply andb_true_iff; rewrite Z.leb_le, Z.ltb_lt. Qed.

(** ** Encoding appends the wire format *)
Section encode_correct.
Context {B : Type} `{ZeroAdvance B}.
Implicit Types b : B.

(** [e] succeeds whenever the room suffices, and appends [bs]. *)
Definition encodes (e : B -> outcome (Error * B)) (bs : list byte) : Prop :=
  forall b, wf b -> zlen bs <= zlen (room b) ->
    exists b', e b = Ret (noError, b') /\ appends bs b b'.

Lemma encodes_nil : encodes (fun b => Ret (noError, b)) [].
Proof. intros b Hwf _. exists b. split; [done|]. by apply appends_nil. Qed.

Lemma encodes_seq e1 e2 bs1 bs2 :
  encodes e1 bs1 -> encodes e2 bs2 ->
  encodes (fun b => '(error, b) ← e1 b;
                    if failed error then Ret (error, b) else e2 b) (bs1 ++ bs2).
Proof.
  intros He1 He2 b Hwf. pose proof (zlen_nonneg bs1); pose proof (zlen_nonneg bs2).
  rewrite zlen_app. intros Hr.
  destruct (He1 b Hwf) as (b1&->&Ha1); [lia|]. cbn.
  pose proof (appends_room _ _ _ Ha1).
  destruct (He2 b1) as (b2&->&Ha2); [apply Ha1|lia|].
  exists b2. split; [done|]. by eapply appends_trans.
Qed.

Lemma encodes_value T v : type_ok T -> encodes (encode_value T v) (value_bytes T v).
Proof.
  intros HT b Hwf. rewrite value_bytes_len by done. by apply encode_value_ok.
Qed.

Lemma encodes_text v :
  encodes (fun b => b ← write_bytes 0 v b; b ← writeAdvance (zlen v) b;
                    Ret (noError, b)) v.
Proof.
  intros b Hwf Hr. pose proof (zlen_nonneg v).
  destruct (write_bytes_stores v 0 b Hwf) as (b1&->&Hs); [lia..|]. cbn.
  destruct (decide (zlen v = 0)) as [E|?].
  - assert (v = []) as -> by (apply zlen_zero; lia). destruct Hs as (Hwf1&Hi&Ho&Hro&Hf).
    rewrite zlen_nil, writeAdvance_zero by done. cbn. exists b1. split; [done|].
    unfold appends. rewrite zlen_nil, zdrop_0, app_nil_r by lia.
    pose proof (zlen_nonneg (room b)). change (room b1 = room b) in Hro.
    split_and!; (done || lia).
  - destruct (commit_stores v b b1 Hwf ltac:(lia) Hs) as (b2&->&?). cbn. eauto.
Qed.

Lemma encodes_string v :
  encodes (encode_string v) (value_bytes size_t (zlen v) ++ v).
Proof.
  intros b Hwf Hr. pose proof (encodes_seq _ _ _ _
    (encodes_value size_t (zlen v) uint64_ok) (encodes_text v) b Hwf Hr) as He.
  unfold encode_string. rewrite zlen_app, value_bytes_len in Hr by done.
  change (sizeof size_t) with 8 in *. pose proof (zlen_nonneg v).
  destruct (law_bounds b Hwf) as [_ ?]. wsimp.
  destruct (law_writeRequireLength b (8 + zlen v) Hwf) as (e&->&Hf&_); [lia|].
  rewrite bind_ret, Hf. bcase; [lia|]. exact He.
Qed.

Section members.
Context {A : Type} (enc : A -> message -> B -> outcome (Error * B))
  (bytes : A -> message -> list byte) (ty : A -> message -> bool).

Lemma encodes_members ts vs :
  Forall (fun t => forall v, ty t v = true -> encodes (enc t v) (bytes t v)) ts ->
  forall2b ty ts vs = true ->
  encodes (encodeMembers enc ts vs) (member_bytes bytes ts vs).
Proof.
  intros Hts. revert vs. induction Hts as [|t ts Ht _ IH]; intros [|v vs]; cbn;
    try done.
  - intros _. apply encodes_nil.
  - rewrite andb_true_iff. intros [Hv Hvs]. by apply encodes_seq; auto.
Qed.

Lemma encodes_alternatives i ts index v :
  Forall (fun t => forall v, ty t v = true -> encodes (enc t v) (bytes t v)) ts ->
  0 <= i <= index -> nthb ty ts (Z.to_nat (index - i)) v = true ->
  encodes (encodeAlternatives enc i ts index v)
    (value_bytes msg_union_id_t index ++
     alternative_bytes bytes ts (Z.to_nat (index - i)) v).
Proof.
  intros Hts. revert i. induction Hts as [|t ts Ht _ IH]; intros i Hi; cbn; [done|].
  destruct (Z.eqb_spec index i) as [E|E].
  - subst index. rewrite Z.sub_diag. cbn. intros Hv.
    apply encodes_seq; [by apply encodes_value|auto].
  - replace (Z.to_nat (index - i)) with (S (Z.to_nat (index - (i + 1)))) by lia.
    cbn. apply IH. lia.
Qed.

Lemma encodes_elements t vs :
  Forall (fun v => encodes (enc t v) (bytes t v)) vs ->
  encodes (encodeElements enc t vs) (concat (map (bytes t) vs)).
Proof.
  induction 1 as [|v vs Hv _ IH]; cbn; [apply encodes_nil|].
  by apply encodes_seq.
Qed.
End members.

Lemma encode_encodes s m :
  schema.ok s = true -> typed s m = true -> encodes (encode s m) (encode_bytes s m).
Proof.
  revert m. induction s as [T N| |ms IH|ms IH|T IH|ts IH] using schema.ind;
    intros m Hok Ht; destruct m; try done; cbn in *.
  - apply encodes_value. by apply helper_type_ok.
  - apply encodes_string.
  - apply forallb_Forall_eq in Hok.
    eapply encodes_members; [|exact Ht].
    apply (Forall_combine _ _ _ _ IH Hok). auto.
  - rewrite !andb_true_iff in Hok. destruct Hok as [[Hok _] _].
    apply forallb_Forall_eq in Hok. apply andb_true_iff in Ht as [Hi Ht].
    apply Z.leb_le in Hi.
    pose proof (encodes_alternatives (fun m => encode m.1) (fun m => encode_bytes m.1)
      (fun m v => typed m.1 v) 0 ms index m) as Ha.
    rewrite Z.sub_0_r in Ha. apply Ha; [|lia|done].
    apply (Forall_combine _ _ _ _ IH Hok). auto.
  - apply andb_true_iff in Ht as [Hvs _]. apply forallb_Forall_eq in Hvs.
    apply encodes_seq; [by apply encodes_value|].
    apply (encodes_elements (fun _ => encode T) (fun _ => encode_bytes T)).
    eapply List.Forall_impl; [|exact Hvs]. auto.
  - apply forallb_Forall_eq in Hok.
    eapply encodes_members; [|exact Ht].
    apply (Forall_combine _ _ _ _ IH Hok). auto.
Qed.
End encode_correct.

(** ** [size] is the length of the wire format, modulo the width of [size_t] *)
Section size_correct.
Definition wraps (n : Z) (bs : list byte) : Prop := n = zlen bs mod size_mod.

Lemma wraps_add n1 n2 bs1 bs2 :
  wraps n1 bs1 -> wraps n2 bs2 -> wraps (n1 +! n2) (bs1 ++ bs2).
Proof.
  unfold wraps, wadd. intros -> ->. by rewrite zlen_app, <- Zplus_mod.
Qed.

Lemma wraps_value T v : type_ok T -> wraps (sizeof T) (value_bytes T v).
Proof.
  intros HT. unfold wraps. rewrite value_bytes_len by done.
  apply type_ok_range in HT. rewrite Z.mod_small; zsolve.
Qed.

Lemma wraps_text (v : list byte) : zlen v < size_mod -> wraps (zlen v) v.
Proof.
  intros Hv. unfold wraps. pose proof (zlen_nonneg v). by rewrite Z.mod_small.
Qed.

Section members.
Context {A : Type} (sz : A -> message -> Z) (bytes : A -> message -> list byte)
  (ty : A -> message -> bool).

Lemma wraps_members ts vs :
  Forall (fun t => forall v, ty t v = true -> wraps (sz t v) (bytes t v)) ts ->
  forall2b ty ts vs = true ->
  wraps (sizeMembers sz ts vs) (member_bytes bytes ts vs).
Proof.
  intros Hts. revert vs. induction Hts as [|t ts Ht _ IH]; intros [|v vs]; cbn;
    try done. rewrite andb_true_iff. intros [Hv Hvs]. by apply wraps_add; auto.
Qed.

Lemma wraps_alternatives i ts index v :
  Forall (fun t => forall v, ty t v = true -> wraps (sz t v) (bytes t v)) ts ->
  0 <= i <= index -> nthb ty ts (Z.to_nat (index - i)) v = true ->
  wraps (sizeAlternatives sz i ts index v)
    (alternative_bytes bytes ts (Z.to_nat (index - i)) v).
Proof.
  intros Hts. revert i. induction Hts as [|t ts Ht _ IH]; intros i Hi; cbn; [done|].
  destruct (Z.eqb_spec index i) as [->|E].
  - rewrite Z.sub_diag. cbn. auto.
  - replace (Z.to_nat (index - i)) with (S (Z.to_nat (index - (i + 1)))) by lia.
    cbn. apply IH. lia.
Qed.

Lemma wraps_elements t n bs vs :
  Forall (fun v => wraps (sz t v) (bytes t v)) vs -> wraps n bs ->
  wraps (sizeElements sz t n vs) (bs ++ concat (map (bytes t) vs)).
Proof.
  intros Hvs. revert n bs. induction Hvs as [|v vs Hv _ IH]; intros n bs Hn; cbn.
  - by rewrite app_nil_r.
  - rewrite app_assoc. apply IH. by apply wraps_add.
Qed.
End members.

Lemma size_wraps s m :
  schema.ok s = true -> typed s m = true -> wraps (size s m) (encode_bytes s m).
Proof.
  revert m. induction s as [T N| |ms IH|ms IH|T IH|ts IH] using schema.ind;
    intros m Hok Ht; destruct m; try done;
    cbn [size encode_bytes typed schema.ok] in *.
  - apply wraps_value. by apply helper_type_ok.
  - apply wraps_add; [by apply (wraps_value size_t)|].
    by apply wraps_text, Z.ltb_lt.
  - apply forallb_Forall_eq in Hok. eapply wraps_members; [|exact Ht].
    apply (Forall_combine _ _ _ _ IH Hok). auto.
  - rewrite !andb_true_iff in Hok. destruct Hok as [[Hok _] _].
    apply forallb_Forall_eq in Hok. apply andb_true_iff in Ht as [Hi Ht].
    apply Z.leb_le in Hi. apply wraps_add; [by apply (wraps_value msg_union_id_t)|].
    pose proof (wraps_alternatives (fun m => size m.1) (fun m => encode_bytes m.1)
      (fun m v => typed m.1 v) 0 ms index m) as Ha.
    rewrite Z.sub_0_r in Ha. apply Ha; [|lia|done].
    apply (Forall_combine _ _ _ _ IH Hok). auto.
  - apply andb_true_iff in Ht as [Hvs _]. apply forallb_Forall_eq in Hvs.
    apply (wraps_elements (fun _ => size T) (fun _ => encode_bytes T));
      [|by apply (wraps_value msg_array_length_t)].
    eapply List.Forall_impl; [|exact Hvs]. auto.
  - apply forallb_Forall_eq in Hok. eapply wraps_members; [|exact Ht].
    apply (Forall_combine _ _ _ _ IH Hok). auto.
Qed.

Lemma size_exact s m :
  schema.ok s = true -> typed s m = true -> zlen (encode_bytes s m) < size_mod ->
  size s m = zlen (encode_bytes s m).
Proof.
  intros Hok Ht Hl. rewrite (size_wraps s m Hok Ht).
  apply Z.mod_small. split; [apply zlen_nonneg|done].
Qed.
End size_correct.
