(* ===== verification/ProtoKelDecode.v ===== *)
(** The decoder of [source/forstio/proto_kel.h] against the wire format: it
    inverts the encoder whatever the builder held before; on arbitrary input it
    returns a message of the schema and consumed exactly its encoding, or an
    error; on the beginning of an encoding it asks for more with a recoverable
    error. *)

From S2P Require Import Prelude Error Buffer BufferView StreamEndian Message ProtoKel.

(** ** Decoding what was encoded *)
Section decode_complete.
Context {B : Type} `{BufferLaws B}.
Context (array_capacity : Z).
Implicit Types b : B.

(** [d] turns the bytes [bs] into [r] and leaves what follows them. *)
Definition decodes {R} (d : B -> outcome (Error * R * B)) (r : R) (bs : list byte)
  : Prop :=
  forall b rest, wf b -> input b = bs ++ rest ->
    exists b', d b = Ret (noError, r, b') /\ eats bs b b'.

Lemma decodes_value T v0 v :
  type_ok T -> in_range T v = true ->
  decodes (decode_value T v0) v (value_bytes T v).
Proof.
  intros HT Hv b rest Hwf Hi. pose proof (value_bytes_len T v HT) as Hl.
  pose proof (zlen_nonneg rest).
  destruct (decode_value_ok T v0 b HT Hwf) as (b'&->&Hc); [rewrite Hi, zlen_app; lia|].
  apply consumes_eats in Hc. rewrite Hi, ztake_app_exact in * by done.
  rewrite combine_value_bytes, of_to_raw by done. eauto.
Qed.

Lemma decodes_string old v :
  zlen v < size_mod ->
  decodes (decode_string old) (MString v) (value_bytes size_t (zlen v) ++ v).
Proof.
  intros Hv b rest Hwf Hi. unfold decode_string. pose proof (zlen_nonneg v).
  pose proof (zlen_nonneg rest). rewrite <- app_assoc in Hi.
  pose proof (value_bytes_len size_t (zlen v) uint64_ok) as Hl.
  rewrite law_readCompositeLength, bind_ret, Hi, !zlen_app, Hl by done.
  bcase; [lia|].
  destruct (decodes_value size_t 0 (zlen v) uint64_ok) with (b := b) (rest := v ++ rest)
    as (b1&->&He1); [|done..|].
  { apply uint64_range. lia. }
  pose proof (eats_rest _ _ _ _ He1 Hi) as Hi1. pose proof He1 as (Hwf1&_).
  cbn. rewrite law_readCompositeLength, Hi1, zlen_app by done. cbn.
  bcase; [lia|].
  rewrite read_all, Hi1, ztake_app_exact by (rewrite ?Hi1, ?zlen_app; done || lia).
  cbn. destruct (readAdvance_consumes (zlen v) b1 Hwf1) as (b2&->&Hc2).
  { rewrite Hi1, zlen_app. lia. }
  apply consumes_eats in Hc2. rewrite Hi1, ztake_app_exact in Hc2 by done.
  cbn. exists b2. split; [done|]. by eapply eats_trans.
Qed.

Section members.
Context {A : Type} (dec : A -> message -> B -> outcome (Error * message * B))
  (bytes : A -> message -> list byte) (ty : A -> message -> bool)
  (fit : message -> bool).

(** The decoder of a member inverts its encoding, whatever the builder held. *)
Definition inverts (t : A) : Prop :=
  forall v0 v, ty t v0 = true -> ty t v = true -> fit v = true ->
    decodes (dec t v0) v (bytes t v).

Lemma decodes_members ts vs0 vs :
  Forall inverts ts -> forall2b ty ts vs0 = true -> forall2b ty ts vs = true ->
  forallb fit vs = true ->
  decodes (decodeMembers dec ts vs0) vs (member_bytes bytes ts vs).
Proof.
  intros Hts. revert vs0 vs. induction Hts as [|t ts Ht _ IH];
    intros [|v0 vs0] [|v vs]; cbn; try done.
  - intros _ _ _ b rest Hwf _. exists b. by split.
  - rewrite !andb_true_iff. intros [Hv0 Hvs0] [Hv Hvs] [Hf Hfs] b rest Hwf Hi.
    rewrite <- app_assoc in Hi.
    destruct (Ht v0 v Hv0 Hv Hf b _ Hwf Hi) as (b1&->&He1). cbn.
    destruct (IH vs0 vs Hvs0 Hvs Hfs b1 rest) as (b2&->&He2);
      [apply He1|by eapply eats_rest|].
    cbn. exists b2. split; [done|]. by eapply eats_trans.
Qed.

Lemma alternatives_past so i ts m b id :
  id < i -> decodeAlternatives dec so i ts m b id = Ret (noError, m, b).
Proof.
  revert i. induction ts as [|t ts IH]; intros i Hi; cbn; [done|].
  bcase; [lia|]. apply IH. lia.
Qed.

(** The value in the union when the builder asks for alternative [id]. *)
Definition union_start so (ts : list A) (m : message) (i id : Z) : Prop :=
  forall t, ts !! Z.to_nat (id - i) = Some t ->
    exists v0, union_get id (so t) m = Ret v0 /\ ty t v0 = true.

Lemma decodes_alternatives so i ts m id v :
  Forall inverts ts -> 0 <= i <= id -> union_start so ts m i id ->
  nthb ty ts (Z.to_nat (id - i)) v = true -> fit v = true ->
  decodes (fun b => decodeAlternatives dec so i ts m b id) (MUnion id v)
    (alternative_bytes bytes ts (Z.to_nat (id - i)) v).
Proof.
  intros Hts. revert i. induction Hts as [|t ts Ht _ IH]; intros i Hi; cbn; [done|].
  destruct (Z.eqb_spec id i) as [->|E].
  - rewrite Z.sub_diag. cbn. intros Hs Hv Hf b rest Hwf Hin.
    destruct (Hs t) as (v0&->&Hv0); [by rewrite Z.sub_diag|]. cbn.
    destruct (Ht v0 v Hv0 Hv Hf b rest Hwf Hin) as (b1&->&He1). cbn.
    rewrite alternatives_past by lia. eauto.
  - unfold union_start.
    replace (Z.to_nat (id - i)) with (S (Z.to_nat (id - (i + 1)))) by lia.
    cbn. intros. apply IH; [lia|done..].
Qed.

Lemma decodes_elements t vs0 vs :
  inverts t -> length vs0 = length vs ->
  forallb (ty t) vs0 = true -> forallb (ty t) vs = true -> forallb fit vs = true ->
  decodes (decodeElements dec t vs0) vs (concat (map (bytes t) vs)).
Proof.
  intros Ht. revert vs. induction vs0 as [|v0 vs0 IH]; intros [|v vs]; cbn; try done.
  - intros _ _ _ _ b rest Hwf _. exists b. by split.
  - rewrite !andb_true_iff. intros [= Hl] [Hv0 Hvs0] [Hv Hvs] [Hf Hfs] b rest Hwf Hi.
    rewrite <- app_assoc in Hi.
    destruct (Ht v0 v Hv0 Hv Hf b _ Hwf Hi) as (b1&->&He1). cbn.
    destruct (IH vs Hl Hvs0 Hvs Hfs b1 rest) as (b2&->&He2);
      [apply He1|by eapply eats_rest|].
    cbn. exists b2. split; [done|]. by eapply eats_trans.
Qed.
End members.

Lemma decodes_map {R S} (d : B -> outcome (Error * R * B)) (f : R -> S) r bs :
  decodes d r bs ->
  decodes (fun b => '(error, x, b) ← d b; Ret (error, f x, b)) (f r) bs.
Proof.
  intros Hd b rest Hwf Hi. destruct (Hd b rest Hwf Hi) as (b'&->&?). cbn. eauto.
Qed.

Lemma decodes_seq {R S} (d : B -> outcome (Error * R * B)) (z : S)
    (k : R -> B -> outcome (Error * S * B)) r1 r2 bs1 bs2 :
  decodes d r1 bs1 -> decodes (k r1) r2 bs2 ->
  decodes (fun b => '(error, x, b) ← d b;
                    if failed error then Ret (error, z, b) else k x b)
    r2 (bs1 ++ bs2).
Proof.
  intros Hd Hk b rest Hwf Hi. rewrite <- app_assoc in Hi.
  destruct (Hd b _ Hwf Hi) as (b1&->&He1). cbn.
  destruct (Hk b1 rest) as (b2&->&He2); [apply He1|by eapply eats_rest|].
  exists b2. split; [done|]. by eapply eats_trans.
Qed.

Definition decode_inverts_at (s : schema) : Prop :=
  inverts (decode array_capacity) encode_bytes typed (arrays_fit array_capacity) s.

Lemma decode_inverts_union ms :
  Forall (fun m => schema.ok m.1 = true -> decode_inverts_at m.1) ms ->
  schema.ok (schema.Union ms) = true -> decode_inverts_at (schema.Union ms).
Proof.
  intros IH Hok m0 m Ht0 Ht Hf. destruct m0 as [| | |i0 v0| |], m as [| | |i v| |];
    try done.
  pose proof Hok as Hok'. cbn [schema.ok] in Hok'.
  rewrite !andb_true_iff, Z.ltb_lt in Hok'. destruct Hok' as [[Hms _] Hlen].
  apply forallb_Forall_eq in Hms. apply Z.ltb_lt in Hlen.
  pose proof Ht as Ht'. cbn [typed] in Ht'.
  apply andb_true_iff in Ht' as [Hi Hn]. apply Z.leb_le in Hi.
  pose proof Hn as (V&HV&_)%nthb_lookup. pose proof (lookup_lt_Some _ _ _ HV).
  assert (i < zlen ms) by (unfold zlen; lia).
  cbn [decode encode_bytes].
  apply (decodes_seq (decode_value msg_union_id_t 0) _
    (fun id b => if zlen ms <=? id then _ else
       decodeAlternatives (fun m => decode array_capacity m.1) fst 0 ms
         (MUnion i0 v0) b id) i).
  - apply decodes_value; [done|]. apply uint32_range. lia.
  - destruct (Z.leb_spec (zlen ms) i); [lia|].
    pose proof (decodes_alternatives (fun m => decode array_capacity m.1)
      (fun m => encode_bytes m.1) (fun m v => typed m.1 v) (arrays_fit array_capacity)
      fst 0 ms (MUnion i0 v0) i v) as Ha.
    rewrite Z.sub_0_r in Ha. apply Ha; [|lia| |done|done].
    + apply (Forall_combine _ _ _ _ IH Hms). intros x Hx Hokx. by apply Hx.
    + intros t. rewrite Z.sub_0_r. intros Hl. by apply (union_get_typed ms).
Qed.

Lemma decode_inverts_array T :
  schema.ok T = true -> decode_inverts_at T -> decode_inverts_at (schema.Array T).
Proof.
  intros Hok IH m0 m Ht0 Ht Hf. destruct m0 as [| | | |vs0|], m as [| | | |vs|]; try done.
  cbn [typed arrays_fit] in *.
  apply andb_true_iff in Ht0 as [Ht0 _]. apply andb_true_iff in Ht as [Ht Hsz].
  apply andb_true_iff in Hf as [Hcap Hf].
  apply Z.ltb_lt in Hsz. apply Z.leb_le in Hcap. pose proof (zlen_nonneg vs).
  destruct (array_resize_ok array_capacity T (zlen vs) vs0) as (vs'&Hr&Hl&Hvs');
    [done|lia|done|].
  cbn [decode encode_bytes].
  apply (decodes_seq (decode_value msg_array_length_t 0) _
    (fun n b => vs ← array_resize array_capacity T n vs0;
       '(error, vs, b) ← decodeElements (fun _ => decode array_capacity T) tt vs b;
       Ret (error, MArray vs, b)) (zlen vs)).
  - apply decodes_value; [done|]. apply uint64_range. lia.
  - rewrite Hr. cbn. apply (decodes_map _ MArray).
    apply (decodes_elements (fun _ => decode array_capacity T) (fun _ => encode_bytes T)
      (fun _ => typed T) (arrays_fit array_capacity)); try done.
    unfold zlen in *. lia.
Qed.

Lemma decode_inverts s : schema.ok s = true -> decode_inverts_at s.
Proof.
  induction s as [T N| |ms IH|ms IH|T IH|ts IH] using schema.ind; intros Hok.
  - intros [] [] Ht0 Ht _; try done. cbn [decode encode_bytes typed] in *.
    apply (decodes_map (decode_value _ 0) MPrimitive). apply decodes_value; [|done].
    by apply helper_type_ok.
  - intros [] [] Ht0 Ht _; try done. cbn [decode encode_bytes typed] in *.
    by apply decodes_string, Z.ltb_lt.
  - intros [] [] Ht0 Ht Hf; try done. apply (decodes_map _ MStruct).
    cbn [schema.ok] in Hok. apply forallb_Forall_eq in Hok.
    eapply decodes_members; [|exact Ht0|exact Ht|exact Hf].
    apply (Forall_combine _ _ _ _ IH Hok). intros x Hx Hokx. by apply Hx.
  - by apply decode_inverts_union.
  - by apply decode_inverts_array; [|apply IH].
  - intros [] [] Ht0 Ht Hf; try done. apply (decodes_map _ MTuple).
    cbn [schema.ok] in Hok. apply forallb_Forall_eq in Hok.
    eapply decodes_members; [|exact Ht0|exact Ht|exact Hf].
    apply (Forall_combine _ _ _ _ IH Hok). intros x Hx Hokx. by apply Hx.
Qed.
End decode_complete.

(** The schema contains an array, whose resize may throw. *)
Fixpoint has_array (s : schema) : bool :=
  match s with
  | schema.Primitive _ _ | schema.String => false
  | schema.Struct ms | schema.Union ms => existsb (fun m => has_array m.1) ms
  | schema.Array _ => true
  | schema.Tuple ts => existsb has_array ts
  end.

(** ** Decoding an arbitrary input *)
Section decode_sound.
Context {B : Type} `{BufferLaws B}.
Context (array_capacity : Z).
Implicit Types b : B.

(** On any input [d] returns a result satisfying [post]; on success the bytes
    it consumed are [good] for the result; it stops only by throwing from a
    [resize], and only when [throws] says that is possible. *)
Definition sound {R} (throws : bool) (d : B -> outcome (Error * R * B))
    (post : R -> Prop) (good : R -> list byte -> Prop) : Prop :=
  forall b, wf b ->
    match d b with
    | Halt f => f = LengthError /\ throws = true
    | Ret (e, r, b') =>
        post r /\ exists bs, eats bs b b' /\ (failed e = false -> good r bs)
    end.

Lemma sound_ret {R} throws e (r : R) (post : R -> Prop) (good : R -> list byte -> Prop) :
  post r -> (failed e = false -> good r []) ->
  sound throws (fun b => Ret (e, r, b)) post good.
Proof. intros ? ? b Hwf. split; [done|]. exists []. split; [by apply eats_nil|done]. Qed.

Lemma sound_seq {R S} throws (d : B -> outcome (Error * R * B)) (z : S)
    (k : R -> B -> outcome (Error * S * B)) (post1 : R -> Prop) (good1 : R -> list byte -> Prop)
    (post : S -> Prop) (good2 : R -> S -> list byte -> Prop) (good : S -> list byte -> Prop) :
  sound throws d post1 good1 -> post z ->
  (forall x, post1 x -> sound throws (k x) post (good2 x)) ->
  (forall x r bs1 bs2, good1 x bs1 -> good2 x r bs2 -> good r (bs1 ++ bs2)) ->
  sound throws
    (fun b => '(error, x, b) ← d b;
              if failed error then Ret (error, z, b) else k x b) post good.
Proof.
  intros Hd Hz Hk Hg b Hwf. specialize (Hd b Hwf).
  destruct (d b) as [[[e x] b1]|f]; [|done]. cbn.
  destruct Hd as (Hx&bs1&He1&Hg1). destruct (failed e) eqn:Hf.
  { split; [done|]. exists bs1. split; [done|]. by rewrite Hf. }
  specialize (Hk x Hx b1 (proj1 He1)).
  destruct (k x b1) as [[[e2 r] b2]|f]; [|done].
  destruct Hk as (Hr&bs2&He2&Hg2). split; [done|]. exists (bs1 ++ bs2).
  split; [by eapply eats_trans|]. intros. eapply Hg; auto.
Qed.

Lemma sound_map {R S} throws (d : B -> outcome (Error * R * B)) (f : R -> S)
    (post1 : R -> Prop) (good1 : R -> list byte -> Prop)
    (post : S -> Prop) (good : S -> list byte -> Prop) :
  sound throws d post1 good1 -> (forall x, post1 x -> post (f x)) ->
  (forall x bs, good1 x bs -> good (f x) bs) ->
  sound throws (fun b => '(error, x, b) ← d b; Ret (error, f x, b)) post good.
Proof.
  intros Hd Hp Hg b Hwf. specialize (Hd b Hwf).
  destruct (d b) as [[[e x] b1]|g]; [|done]. cbn.
  destruct Hd as (?&bs&?&?). split; [auto|]. exists bs. auto.
Qed.

Lemma sound_value throws T v0 :
  type_ok T -> in_range T v0 = true ->
  sound throws (decode_value T v0) (fun v => in_range T v = true)
    (fun v bs => bs = value_bytes T v).
Proof.
  intros HT Hv b Hwf. pose proof (type_ok_range T HT).
  destruct (Z.lt_ge_cases (zlen (input b)) (sizeof T)).
  - rewrite decode_value_refused by done. split; [done|]. exists [].
    split; [by apply eats_nil|done].
  - destruct (decode_value_ok T v0 b HT Hwf) as (b'&->&Hc); [lia|].
    assert (Hl : zlen (ztake (sizeof T) (input b)) = sizeof T) by (apply zlen_take; lia).
    split; [by apply of_raw_in_range, combine_bound|].
    exists (ztake (sizeof T) (input b)). split; [by apply consumes_eats|].
    by rewrite value_bytes_combine.
Qed.

Lemma sound_string throws old :
  zlen old < size_mod ->
  sound throws (decode_string old)
    (fun m => typed schema.String m = true)
    (fun m bs => bs = encode_bytes schema.String m).
Proof.
  intros Hold b Hwf. unfold decode_string.
  assert (Ho : typed schema.String (MString old) = true) by by apply Z.ltb_lt.
  rewrite law_readCompositeLength, bind_ret by done. bcase.
  { split; [done|]. exists []. split; [by apply eats_nil|done]. }
  pose proof (sound_value throws size_t 0 uint64_ok eq_refl b Hwf) as Hs.
  destruct (decode_value size_t 0 b) as [[[e n] b1]|f]; [|done]. cbn [mbind outcome_bind].
  destruct Hs as (Hn&bs1&He1&Hg1). destruct (failed e) eqn:Hf.
  { split; [done|]. exists bs1. split; [done|]. by rewrite Hf. }
  specialize (Hg1 eq_refl). pose proof He1 as (Hwf1&_).
  rewrite law_readCompositeLength, bind_ret by done. bcase.
  { split; [done|]. exists bs1. by split. }
  apply andb_true_iff in Hn as [Hn0 Hn1]. apply Z.leb_le in Hn0. apply Z.ltb_lt in Hn1.
  rewrite bind_ret. destruct (Z.ltb_spec (zlen (input b1)) n); [lia|].
  rewrite read_all, bind_ret, zlen_take by (done || lia).
  destruct (readAdvance_consumes n b1 Hwf1) as (b2&->&Hc2); [lia|]. rewrite bind_ret.
  assert (Hl : zlen (ztake n (input b1)) = n) by (apply zlen_take; lia).
  split; [cbn [typed]; rewrite Hl; by apply Z.ltb_lt|].
  exists (bs1 ++ ztake n (input b1)).
  split; [eapply eats_trans; [done|by apply consumes_eats]|].
  intros _. cbn [encode_bytes]. by rewrite Hl, Hg1.
Qed.

Section members.
Context {A : Type} (throws : bool)
  (dec : A -> message -> B -> outcome (Error * message * B))
  (bytes : A -> message -> list byte) (ty : A -> message -> bool).

Definition sound_at (t : A) : Prop :=
  forall v0, ty t v0 = true ->
    sound throws (dec t v0) (fun v => ty t v = true) (fun v bs => bs = bytes t v).

Lemma sound_members ts vs0 :
  Forall sound_at ts -> forall2b ty ts vs0 = true ->
  sound throws (decodeMembers dec ts vs0) (fun vs => forall2b ty ts vs = true)
    (fun vs bs => bs = member_bytes bytes ts vs).
Proof.
  intros Hts. revert vs0. induction Hts as [|t ts Ht _ IH]; intros [|v0 vs0]; try done.
  - intros _. by apply sound_ret.
  - cbn [forall2b]. rewrite andb_true_iff. intros [Hv0 Hvs0] b Hwf.
    cbn [decodeMembers]. specialize (Ht v0 Hv0 b Hwf).
    destruct (dec t v0 b) as [[[e v] b1]|f]; [|done]. cbn.
    destruct Ht as (Hv&bs1&He1&Hg1). destruct (failed e) eqn:Hf.
    { split; [by rewrite Hv, Hvs0|]. exists bs1. split; [done|]. by rewrite Hf. }
    specialize (IH vs0 Hvs0 b1 (proj1 He1)).
    destruct (decodeMembers dec ts vs0 b1) as [[[e2 vs] b2]|f]; [|done]. cbn.
    destruct IH as (Hvs&bs2&He2&Hg2). split; [by rewrite Hv|].
    exists (bs1 ++ bs2). split; [by eapply eats_trans|].
    intros. rewrite Hg1, Hg2; done.
Qed.

Lemma sound_alternatives so i ts m id t :
  Forall sound_at ts -> 0 <= i <= id -> union_start ty so ts m i id ->
  ts !! Z.to_nat (id - i) = Some t ->
  sound throws (fun b => decodeAlternatives dec so i ts m b id)
    (fun m' => exists v, m' = MUnion id v /\ ty t v = true)
    (fun m' bs => exists v, m' = MUnion id v /\
       bs = alternative_bytes bytes ts (Z.to_nat (id - i)) v).
Proof.
  intros Hts. revert i. induction Hts as [|t' ts Ht _ IH]; intros i Hi; [done|].
  destruct (Z.eqb_spec id i) as [->|E].
  - rewrite Z.sub_diag. intros Hs [= ->] b Hwf. cbn [decodeAlternatives].
    rewrite Z.eqb_refl. destruct (Hs t) as (v0&->&Hv0); [by rewrite Z.sub_diag|]. cbn.
    specialize (Ht v0 Hv0 b Hwf). destruct (dec t v0 b) as [[[e v] b1]|f]; [|done]. cbn.
    destruct Ht as (Hv&bs1&He1&Hg1). rewrite alternatives_past by lia.
    destruct (failed e) eqn:Hf; (split; [eauto|]); exists bs1; (split; [done|]);
      rewrite ?Hf; [done|]. eauto.
  - unfold union_start.
    replace (Z.to_nat (id - i)) with (S (Z.to_nat (id - (i + 1)))) by lia.
    intros Hs Hl b Hwf. cbn [decodeAlternatives].
    destruct (Z.eqb_spec id i); [done|].
    apply (IH (i + 1)); [lia|exact Hs|exact Hl|done].
Qed.

Lemma sound_elements t vs0 :
  sound_at t -> forallb (ty t) vs0 = true ->
  sound throws (decodeElements dec t vs0)
    (fun vs => forallb (ty t) vs = true /\ length vs = length vs0)
    (fun vs bs => bs = concat (map (bytes t) vs)).
Proof.
  intros Ht. induction vs0 as [|v0 vs0 IH].
  { intros _. by apply sound_ret. }
  cbn [forallb]. rewrite andb_true_iff. intros [Hv0 Hvs0] b Hwf.
  cbn [decodeElements]. specialize (Ht v0 Hv0 b Hwf).
  destruct (dec t v0 b) as [[[e v] b1]|f]; [|done]. cbn.
  destruct Ht as (Hv&bs1&He1&Hg1). destruct (failed e) eqn:Hf.
  { split; [cbn; by rewrite Hv, Hvs0|]. exists bs1. by rewrite Hf. }
  specialize (IH Hvs0 b1 (proj1 He1)).
  destruct (decodeElements dec t vs0 b1) as [[[e2 vs] b2]|f]; [|done]. cbn.
  destruct IH as ((Hvs&Hl)&bs2&He2&Hg2).
  split; [cbn; by rewrite Hv, Hvs, Hl|].
  exists (bs1 ++ bs2). split; [by eapply eats_trans|].
  intros. rewrite Hg1, Hg2; done.
Qed.
End members.

Definition decode_sound_at (s : schema) : Prop :=
  sound_at (has_array s) (decode array_capacity) encode_bytes typed s.

Lemma sound_weaken {R} (t1 t2 : bool) d (post : R -> Prop) good :
  (t1 = true -> t2 = true) -> sound t1 d post good -> sound t2 d post good.
Proof.
  intros Ht Hd b Hwf. specialize (Hd b Hwf). destruct (d b) as [[[e r] b']|f]; [done|].
  destruct Hd. auto.
Qed.

Lemma sound_parts {A} (proj : A -> schema) (ts : list A) :
  Forall (fun t => schema.ok (proj t) = true -> decode_sound_at (proj t)) ts ->
  forallb (fun t => schema.ok (proj t)) ts = true ->
  Forall (sound_at (existsb (fun t => has_array (proj t)) ts)
    (fun t => decode array_capacity (proj t)) (fun t => encode_bytes (proj t))
    (fun t => typed (proj t))) ts.
Proof.
  rewrite forallb_Forall_eq, !List.Forall_forall. intros IH Hok t Ht v0 Hv0.
  eapply sound_weaken; [|by apply (IH t Ht (Hok t Ht))].
  intros Ha. apply existsb_exists. eauto.
Qed.

Lemma decode_sound_union ms :
  Forall (fun m => schema.ok m.1 = true -> decode_sound_at m.1) ms ->
  schema.ok (schema.Union ms) = true -> decode_sound_at (schema.Union ms).
Proof.
  intros IH Hok m0 Ht0. destruct m0 as [| | |i0 v0| |]; try done.
  pose proof Hok as Hok'. cbn [schema.ok] in Hok'.
  rewrite !andb_true_iff in Hok'. destruct Hok' as [[Hms _] _].
  pose proof (sound_parts fst ms IH Hms) as Hp.
  cbn [decode].
  apply (sound_seq _ (decode_value msg_union_id_t 0) _
    (fun id b => if zlen ms <=? id then _ else
       decodeAlternatives (fun m => decode array_capacity m.1) fst 0 ms
         (MUnion i0 v0) b id) (fun id => in_range msg_union_id_t id = true)
    (fun id bs => bs = value_bytes msg_union_id_t id)
    _ (fun id m bs => m = MUnion id (match m with MUnion _ v => v | _ => m end) /\
         exists v, m = MUnion id v /\
         bs = alternative_bytes (fun m => encode_bytes m.1) ms (Z.to_nat id) v)).
  - by apply sound_value.
  - done.
  - intros id [Hid _]%andb_true_iff. apply Z.leb_le in Hid.
    destruct (Z.leb_spec (zlen ms) id); [by apply sound_ret|].
    destruct (lookup_lt_is_Some_2 ms (Z.to_nat id)) as [V HV]; [unfold zlen in *; lia|].
    pose proof (sound_alternatives _ (fun m => decode array_capacity m.1)
      (fun m => encode_bytes m.1) (fun m v => typed m.1 v) fst 0 ms (MUnion i0 v0) id V Hp)
      as Ha.
    rewrite Z.sub_0_r in Ha. intros b Hwf. specialize (Ha ltac:(lia)).
    assert (Hs : union_start (fun m v => typed m.1 v) fst ms (MUnion i0 v0) 0 id).
    { intros t. rewrite Z.sub_0_r. intros Hl. by apply (union_get_typed ms). }
    specialize (Ha Hs HV b Hwf). cbn beta in Ha |- *.
    destruct (decodeAlternatives _ _ _ _ _ _ _) as [[[e m] b1]|f]; [|done].
    destruct Ha as ((v&->&Hv)&bs&He&Hg). split.
    + cbn [typed]. apply andb_true_iff. split; [by apply Z.leb_le|].
      apply nthb_lookup. eauto.
    + exists bs. split; [done|]. eauto.
  - intros id m bs1 bs2 -> [_ (v&->&->)]. done.
Qed.

Lemma decode_sound_array T :
  schema.ok T = true -> decode_sound_at T -> decode_sound_at (schema.Array T).
Proof.
  intros Hok IH m0 Ht0. destruct m0 as [| | | |vs0|]; try done.
  cbn [decode has_array].
  apply (sound_seq _ (decode_value msg_array_length_t 0) _
    (fun n b => vs ← array_resize array_capacity T n vs0;
       '(error, vs, b) ← decodeElements (fun _ => decode array_capacity T) tt vs b;
       Ret (error, MArray vs, b)) (fun n => in_range msg_array_length_t n = true)
    (fun n bs => bs = value_bytes msg_array_length_t n)
    _ (fun n m bs => exists vs, m = MArray vs /\ zlen vs = n /\
         bs = concat (map (encode_bytes T) vs))).
  - by apply sound_value.
  - done.
  - intros n [Hn Hn2]%andb_true_iff b Hwf. apply Z.leb_le in Hn. apply Z.ltb_lt in Hn2.
    destruct (Z.le_gt_cases n array_capacity) as [Hc|Hc]; last first.
    { unfold array_resize. bcase; [lia|]. done. }
    cbn [typed] in Ht0. apply andb_true_iff in Ht0 as [Ht0 _].
    destruct (array_resize_ok array_capacity T n vs0) as (vs&->&Hl&Hvs); [done|lia|done|].
    cbn [mbind outcome_bind].
    pose proof (sound_elements true (fun _ => decode array_capacity T)
      (fun _ => encode_bytes T) (fun _ => typed T) tt vs) as He.
    specialize (He ltac:(intros v0 Hv0; by eapply sound_weaken, IH) Hvs b Hwf).
    destruct (decodeElements _ _ _ _) as [[[e vs'] b1]|f]; [|done].
    destruct He as ((Hvs'&Hl')&bs&Hb&Hg). cbn [mbind outcome_bind].
    assert (Hn' : zlen vs' = n) by (unfold zlen in *; lia). split.
    + cbn [typed]. rewrite Hvs'. apply Z.ltb_lt. by rewrite Hn'.
    + exists bs. split; [done|]. eauto.
  - intros n m bs1 bs2 -> (vs&->&<-&->). done.
Qed.

Lemma decode_sound s : schema.ok s = true -> decode_sound_at s.
Proof.
  induction s as [T N| |ms IH|ms IH|T IH|ts IH] using schema.ind; intros Hok.
  - intros [] Ht0; try done. apply (sound_map _ (decode_value _ 0) MPrimitive
      (fun v => in_range (PrimitiveTypeHelper T N) v = true)
      (fun v bs => bs = value_bytes (PrimitiveTypeHelper T N) v)); [|done..].
    apply sound_value; [by apply helper_type_ok|].
    exact (default_typed (schema.Primitive T N) Hok).
  - intros [] Ht0; try done. apply sound_string. by apply Z.ltb_lt.
  - intros [] Ht0; try done.
    refine (sound_map _ _ MStruct _ _ _ _ (sound_members _ _ _ _ _ _ _ Ht0) _ _);
      [|done..]. by apply (sound_parts fst).
  - by apply decode_sound_union.
  - by apply decode_sound_array; [|apply IH].
  - intros [] Ht0; try done.
    refine (sound_map _ _ MTuple _ _ _ _ (sound_members _ _ _ _ _ _ _ Ht0) _ _);
      [|done..]. by apply (sound_parts id).
Qed.
End decode_sound.

(** ** Decoding the beginning of an encoding *)
Section decode_starves.
Context {B : Type} `{BufferLaws B}.
Context (array_capacity : Z).
Implicit Types b : B.

(** On a strict prefix of [bs], [d] fails with a recoverable error. *)
Definition starves {R} (d : B -> outcome (Error * R * B)) (bs : list byte) : Prop :=
  forall b rest, wf b -> bs = input b ++ rest -> rest <> [] ->
    exists e r b', d b = Ret (e, r, b') /\ isRecoverable e = true.

Lemma starves_nil {R} (d : B -> outcome (Error * R * B)) : starves d [].
Proof. intros b rest _ Hbs Hr. symmetry in Hbs. by apply app_eq_nil in Hbs as [_ ->]. Qed.

Lemma starves_short b rest bs :
  bs = input b ++ rest -> rest <> [] -> zlen (input b) < zlen bs.
Proof.
  intros -> Hr. rewrite zlen_app. destruct rest; [done|]. rewrite zlen_cons.
  pose proof (zlen_nonneg rest). lia.
Qed.

Lemma starves_value T v0 v :
  type_ok T -> in_range T v0 = true -> starves (decode_value T v0) (value_bytes T v).
Proof.
  intros HT Hv b rest Hwf Hb Hr. pose proof (starves_short _ _ _ Hb Hr) as Hs.
  rewrite value_bytes_len in Hs by done. rewrite decode_value_refused by done. eauto.
Qed.

(** The failure of a step is the failure of what it starts. *)
Lemma starves_seq {R S} (d : B -> outcome (Error * R * B))
    (z : Error -> R -> S) (k : R -> B -> outcome (Error * S * B)) r1 bs1 bs2 :
  decodes d r1 bs1 -> starves d bs1 -> starves (k r1) bs2 ->
  starves (fun b => '(error, x, b) ← d b;
                    if failed error then Ret (error, z error x, b) else k x b)
    (bs1 ++ bs2).
Proof.
  intros Hd Hs1 Hs2 b rest Hwf Hb Hr.
  apply app_eq_inv in Hb as [(k1&->&Hrest)|(k2&Hi&->)].
  - destruct k1 as [|x k1].
    + cbn in Hrest. subst rest. rewrite app_nil_r in Hd.
      destruct (Hd b [] Hwf) as (b1&->&He); [by rewrite app_nil_r|]. cbn.
      apply (Hs2 b1 bs2); [apply He| |done].
      destruct He as (_&Hi&_). rewrite <- (app_nil_r (input b)) in Hi at 1.
      by apply app_inv_head in Hi as <-.
    + destruct (Hs1 b (x :: k1) Hwf eq_refl) as (e&r&b1&->&He); [done|].
      cbn. rewrite (isRecoverable_failed _ He). eauto.
  - destruct (Hd b k2 Hwf Hi) as (b1&->&He). cbn.
    apply (Hs2 b1 rest); [apply He| |done].
    by rewrite (eats_rest _ _ _ _ He Hi).
Qed.

Lemma starves_map {R S} (d : B -> outcome (Error * R * B)) (f : R -> S) bs :
  starves d bs -> starves (fun b => '(error, x, b) ← d b; Ret (error, f x, b)) bs.
Proof.
  intros Hd b rest Hwf Hb Hr. destruct (Hd b rest Hwf Hb Hr) as (e&r&b'&->&?). cbn. eauto.
Qed.

Lemma starves_string old v :
  zlen v < size_mod -> starves (decode_string old) (value_bytes size_t (zlen v) ++ v).
Proof.
  intros Hv b rest Hwf Hb Hr. pose proof (starves_short _ _ _ Hb Hr) as Hs.
  pose proof (value_bytes_len size_t (zlen v) uint64_ok) as Hl. rewrite zlen_app in Hs.
  change (sizeof size_t) with 8 in Hl. pose proof (zlen_nonneg v).
  unfold decode_string. rewrite law_readCompositeLength, bind_ret by done.
  change (sizeof size_t) with 8. bcase; [by eauto|].
  symmetry in Hb. apply app_eq_inv in Hb as [(k&Hi&_)|(k&Hk&->)].
  - destruct (decodes_value size_t 0 (zlen v) uint64_ok) with (b := b) (rest := k)
      as (b1&->&He1); [apply uint64_range; lia|done..|].
    cbn [mbind outcome_bind]. change (failed noError) with false. cbn iota.
    rewrite law_readCompositeLength, bind_ret by apply He1.
    rewrite (eats_rest _ _ _ _ He1 Hi). rewrite Hi, zlen_app in Hs.
    bcase; [eauto|lia].
  - assert (k = []) as ->.
    { apply zlen_zero. rewrite Hk, zlen_app in Hl. pose proof (zlen_nonneg k). lia. }
    rewrite app_nil_r in Hk. rewrite Hk in Hl.
    destruct (decodes_value size_t 0 (zlen v) uint64_ok) with (b := b) (rest := @nil byte)
      as (b1&->&He1); [apply uint64_range; lia|done|by rewrite app_nil_r, Hk|].
    cbn [mbind outcome_bind]. change (failed noError) with false. cbn iota.
    rewrite law_readCompositeLength, bind_ret by apply He1.
    rewrite (eats_rest _ [] _ _ He1) by by rewrite app_nil_r, Hk.
    assert (0 < zlen v) by (rewrite Hk in Hs; lia).
    change (zlen []) with 0. bcase; [eauto|lia].
Qed.

Section members.
Context {A : Type} (dec : A -> message -> B -> outcome (Error * message * B))
  (bytes : A -> message -> list byte) (ty : A -> message -> bool)
  (fit : message -> bool).

Definition starves_at (t : A) : Prop :=
  forall v0 v, ty t v0 = true -> ty t v = true -> fit v = true ->
    starves (dec t v0) (bytes t v).

Lemma starves_members ts vs0 vs :
  Forall (inverts dec bytes ty fit) ts -> Forall starves_at ts ->
  forall2b ty ts vs0 = true -> forall2b ty ts vs = true -> forallb fit vs = true ->
  starves (decodeMembers dec ts vs0) (member_bytes bytes ts vs).
Proof.
  intros Hin Hts. revert vs0 vs.
  induction Hts as [|t ts Ht _ IH]; intros [|v0 vs0] [|v vs]; cbn; try done.
  - intros _ _ _. apply starves_nil.
  - rewrite !andb_true_iff. intros [Hv0 Hvs0] [Hv Hvs] [Hf Hfs].
    inversion Hin as [|? ? Hi Hin']; subst.
    apply (starves_seq (dec t v0) (fun _ v => v :: vs0)
      (fun v b => '(error, vs, b) ← decodeMembers dec ts vs0 b; Ret (error, v :: vs, b))
      v); [by apply Hi|by apply Ht|].
    apply starves_map. by apply IH.
Qed.

Lemma starves_alternatives so i ts m id v :
  Forall starves_at ts -> 0 <= i <= id -> union_start ty so ts m i id ->
  nthb ty ts (Z.to_nat (id - i)) v = true -> fit v = true ->
  starves (fun b => decodeAlternatives dec so i ts m b id)
    (alternative_bytes bytes ts (Z.to_nat (id - i)) v).
Proof.
  intros Hts. revert i. induction Hts as [|t ts Ht _ IH]; intros i Hi; cbn; [done|].
  destruct (Z.eqb_spec id i) as [->|E].
  - rewrite Z.sub_diag. cbn. intros Hs Hv Hf b rest Hwf Hb Hr.
    destruct (Hs t) as (v0&->&Hv0); [by rewrite Z.sub_diag|]. cbn.
    destruct (Ht v0 v Hv0 Hv Hf b rest Hwf Hb Hr) as (e&r&b'&->&He). cbn.
    rewrite (isRecoverable_failed _ He). eauto.
  - unfold union_start.
    replace (Z.to_nat (id - i)) with (S (Z.to_nat (id - (i + 1)))) by lia.
    cbn. intros. apply IH; [lia|done..].
Qed.

Lemma starves_elements t vs0 vs :
  inverts dec bytes ty fit t -> starves_at t -> length vs0 = length vs ->
  forallb (ty t) vs0 = true -> forallb (ty t) vs = true -> forallb fit vs = true ->
  starves (decodeElements dec t vs0) (concat (map (bytes t) vs)).
Proof.
  intros Hin Ht. revert vs. induction vs0 as [|v0 vs0 IH]; intros [|v vs]; cbn; try done.
  - intros _ _ _ _. apply starves_nil.
  - rewrite !andb_true_iff. intros [= Hl] [Hv0 Hvs0] [Hv Hvs] [Hf Hfs].
    apply (starves_seq (dec t v0) (fun _ v => v :: vs0)
      (fun v b => '(error, vs, b) ← decodeElements dec t vs0 b; Ret (error, v :: vs, b))
      v); [by apply Hin|by apply Ht|].
    apply starves_map. by apply IH.
Qed.
End members.

Definition decode_starves_at (s : schema) : Prop :=
  starves_at (decode array_capacity) encode_bytes typed (arrays_fit array_capacity) s.

Lemma decode_starves_union ms :
  Forall (fun m => schema.ok m.1 = true -> decode_starves_at m.1) ms ->
  schema.ok (schema.Union ms) = true -> decode_starves_at (schema.Union ms).
Proof.
  intros IH Hok m0 m Ht0 Ht Hf. destruct m0 as [| | |i0 v0| |], m as [| | |i v| |];
    try done.
  pose proof Hok as Hok'. cbn [schema.ok] in Hok'.
  rewrite !andb_true_iff, Z.ltb_lt in Hok'. destruct Hok' as [[Hms _] Hlen].
  apply forallb_Forall_eq in Hms. apply Z.ltb_lt in Hlen.
  pose proof Ht as Ht'. cbn [typed] in Ht'.
  apply andb_true_iff in Ht' as [Hi Hn]. apply Z.leb_le in Hi.
  pose proof Hn as (V&HV&_)%nthb_lookup. pose proof (lookup_lt_Some _ _ _ HV).
  assert (i < zlen ms) by (unfold zlen; lia).
  cbn [decode encode_bytes].
  apply (starves_seq (decode_value msg_union_id_t 0) (fun _ _ => MUnion i0 v0)
    (fun id b => if zlen ms <=? id then _ else
       decodeAlternatives (fun m => decode array_capacity m.1) fst 0 ms
         (MUnion i0 v0) b id) i).
  - apply decodes_value; [done|]. apply uint32_range. lia.
  - by apply starves_value.
  - destruct (Z.leb_spec (zlen ms) i); [lia|].
    pose proof (starves_alternatives (fun m => decode array_capacity m.1)
      (fun m => encode_bytes m.1) (fun m v => typed m.1 v) (arrays_fit array_capacity)
      fst 0 ms (MUnion i0 v0) i v) as Ha.
    rewrite Z.sub_0_r in Ha. apply Ha; [|lia| |done|done].
    + apply (Forall_combine _ _ _ _ IH Hms). intros x Hx Hokx. by apply Hx.
    + intros t. rewrite Z.sub_0_r. intros Hl. by apply (union_get_typed ms).
Qed.

Lemma decode_starves_array T :
  schema.ok T = true -> decode_starves_at T -> decode_starves_at (schema.Array T).
Proof.
  intros Hok IH m0 m Ht0 Ht Hf. destruct m0 as [| | | |vs0|], m as [| | | |vs|]; try done.
  cbn [typed arrays_fit] in *.
  apply andb_true_iff in Ht0 as [Ht0 _]. apply andb_true_iff in Ht as [Ht Hsz].
  apply andb_true_iff in Hf as [Hcap Hf].
  apply Z.ltb_lt in Hsz. apply Z.leb_le in Hcap. pose proof (zlen_nonneg vs).
  destruct (array_resize_ok array_capacity T (zlen vs) vs0) as (vs'&Hr&Hl&Hvs');
    [done|lia|done|].
  cbn [decode encode_bytes].
  apply (starves_seq (decode_value msg_array_length_t 0) (fun _ _ => MArray vs0)
    (fun n b => vs ← array_resize array_capacity T n vs0;
       '(error, vs, b) ← decodeElements (fun _ => decode array_capacity T) tt vs b;
       Ret (error, MArray vs, b)) (zlen vs)).
  - apply decodes_value; [done|]. apply uint64_range. lia.
  - by apply starves_value.
  - rewrite Hr. cbn. apply (starves_map _ MArray).
    apply (starves_elements (fun _ => decode array_capacity T) (fun _ => encode_bytes T)
      (fun _ => typed T) (arrays_fit array_capacity)); try done.
    + by apply decode_inverts.
    + unfold zlen in *. lia.
Qed.

Lemma decode_starves s : schema.ok s = true -> decode_starves_at s.
Proof.
  induction s as [T N| |ms IH|ms IH|T IH|ts IH] using schema.ind; intros Hok.
  - intros [] [] Ht0 Ht _; try done. cbn [decode encode_bytes typed] in *.
    apply (starves_map (decode_value _ 0) MPrimitive). apply starves_value.
    + by apply helper_type_ok.
    + exact (default_typed (schema.Primitive T N) Hok).
  - intros [] [] Ht0 Ht _; try done. cbn [decode encode_bytes typed] in *.
    by apply starves_string, Z.ltb_lt.
  - intros [] [] Ht0 Ht Hf; try done. apply (starves_map _ MStruct).
    cbn [schema.ok] in Hok. apply forallb_Forall_eq in Hok.
    refine (starves_members _ _ _ _ _ _ _ _ _ Ht0 Ht Hf).
    + eapply List.Forall_impl; [|exact Hok]. intros x Hx. by apply (decode_inverts _ x.1).
    + apply (Forall_combine _ _ _ _ IH Hok). intros x Hx Hokx. by apply Hx.
  - by apply decode_starves_union.
  - by apply decode_starves_array; [|apply IH].
  - intros [] [] Ht0 Ht Hf; try done. apply (starves_map _ MTuple).
    cbn [schema.ok] in Hok. apply forallb_Forall_eq in Hok.
    refine (starves_members _ _ _ _ _ _ _ _ _ Ht0 Ht Hf).
    + eapply List.Forall_impl; [|exact Hok]. intros x Hx. by apply (decode_inverts _ x).
    + apply (Forall_combine _ _ _ _ IH Hok). intros x Hx Hokx. by apply Hx.
Qed.
End decode_starves.
