(* ===== verification/ProtoKelCodec.v ===== *)
(** The codec of [source/forstio/proto_kel.h] over an arbitrary owning buffer:
    what [ProtoKelCodec::encode] and [ProtoKelCodec::decode] do to the caller's
    buffer, on success and on every kind of failure. *)

From S2P Require Import Prelude Error Buffer BufferView ViewTheory StreamEndian Message ProtoKel ProtoKelDecode RingBuffer ArrayBuffer.

Section codec_facts.
Context {B : Type} `{StreamBuffer B}.
Implicit Types b : B.

Lemma packet_len s m : zlen (packet_bytes s m) = 8 + zlen (encode_bytes s m).
Proof. unfold packet_bytes. by rewrite zlen_app, value_bytes_len by done. Qed.

(** *** Encoding *)
Lemma encode_packet s m b :
  schema.ok s = true -> typed s m = true -> wf b ->
  8 + zlen (encode_bytes s m) <= zlen (room b) ->
  exists b', codec_encode s m b = Ret (noError, b') /\ wf b' /\
    input b' = input b ++ packet_bytes s m /\
    room b' = zdrop (zlen (packet_bytes s m)) (room b) /\ wframe b' = wframe b.
Proof.
  intros Hok Ht Hwf Hr. destruct (law_bounds b Hwf) as [_ Hb].
  pose proof (zlen_nonneg (encode_bytes s m)) as Hn.
  unfold codec_encode. rewrite (size_exact s m Hok Ht) by zsolve.
  change (sizeof msg_packet_length_t) with 8.
  assert (Hwfv : wf (View.make b)) by exact (view_make_wf b Hwf). pose proof (view_make_room b) as Hrv.
  destruct (law_writeRequireLength (View.make b) (zlen (encode_bytes s m) +! 8) Hwfv)
    as (e&->&Hf&_); [wsimp; lia|].
  change (room (View.make b)) with (view_room (View.make b)) in Hf. rewrite Hrv in Hf.
  rewrite bind_ret, Hf. wsimp. bcase; [lia|].
  assert (He : encodes
    (fun v => '(error, v) ← encode_value msg_packet_length_t (zlen (encode_bytes s m)) v;
              if failed error then Ret (error, v) else encode s m v)
    (packet_bytes s m) (B := BufferView B)).
  { apply encodes_seq; [by apply encodes_value|by apply encode_encodes]. }
  destruct (He (View.make b) Hwfv) as (v&Hev&Ha).
  { change (room (View.make b)) with (view_room (View.make b)).
    rewrite Hrv, packet_len. lia. }
  destruct (encode_value msg_packet_length_t _ (View.make b)) as [[e1 v1]|f]; [|done].
  cbn [mbind outcome_bind] in Hev |- *. destruct (failed e1) eqn:He1.
  { injection Hev as -> _. done. }
  rewrite Hev, bind_ret. change (failed noError) with false. cbn iota.
  destruct (view_write_commit (packet_bytes s m) b v Hwf) as (_&b'&->&?&?&?&?);
    [rewrite packet_len; lia|done|]. rewrite bind_ret. eauto 8.
Qed.

Lemma encode_refused s m b :
  schema.ok s = true -> typed s m = true -> wf b ->
  8 + zlen (encode_bytes s m) < size_mod ->
  zlen (room b) < 8 + zlen (encode_bytes s m) ->
  exists e, codec_encode s m b = Ret (e, b) /\ isRecoverable e = true.
Proof.
  intros Hok Ht Hwf Hb Hr. pose proof (zlen_nonneg (encode_bytes s m)) as Hn.
  unfold codec_encode. rewrite (size_exact s m Hok Ht) by lia.
  change (sizeof msg_packet_length_t) with 8. cbn [writeRequireLength view_ops].
  unfold View.writeRequireLength. cbn [View.make write_offset vbuffer]. wsimp.
  rewrite Z.add_0_r.
  destruct (stream_require b (zlen (encode_bytes s m) + 8) Hwf) as (e&->&Hf&Hrec);
    [lia|].
  rewrite bind_ret. rewrite Hf in *. revert Hrec. bcase; [|lia]. eauto.
Qed.

(** *** Decoding *)
Lemma decode_packet cap s m0 m b rest limits :
  schema.ok s = true -> typed s m0 = true -> typed s m = true ->
  arrays_fit cap m = true -> wf b -> input b = packet_bytes s m ++ rest ->
  zlen (encode_bytes s m) <= packet_size limits ->
  exists b', codec_decode cap s m0 b limits = Ret (noError, m, b') /\
    eats (packet_bytes s m) b b'.
Proof.
  intros Hok Ht0 Ht Hfit Hwf Hi Hlim. destruct (law_bounds b Hwf) as [Hb _].
  rewrite Hi, zlen_app, packet_len in Hb.
  pose proof (zlen_nonneg rest). pose proof (zlen_nonneg (encode_bytes s m)).
  unfold codec_decode. assert (Hwfv : wf (View.make b)) by exact (view_make_wf b Hwf).
  assert (Hiv : input (View.make b) = value_bytes msg_packet_length_t
    (zlen (encode_bytes s m)) ++ encode_bytes s m ++ rest).
  { rewrite <- (view_make_input b) in Hi. unfold packet_bytes in Hi.
    by rewrite <- app_assoc in Hi. }
  destruct (decodes_value (B := BufferView B) msg_packet_length_t 0
    (zlen (encode_bytes s m)) uint64_ok
    ltac:(apply uint64_range; zsolve) (View.make b) _ Hwfv Hiv) as (v1&->&He1).
  rewrite bind_ret. change (failed noError) with false. cbn iota.
  bcase; [lia|].
  destruct (decode_inverts (B := BufferView B) cap s Hok m0 m Ht0 Ht Hfit v1 rest) as (v2&->&He2);
    [apply He1|by eapply eats_rest|].
  rewrite bind_ret. change (failed noError) with false. cbn iota.
  rewrite (size_exact s m Hok Ht), Z.eqb_refl by zsolve. cbn [negb].
  destruct (view_read_commit _ b v2 Hwf (eats_trans _ _ _ _ _ He1 He2))
    as (->&b'&->&He). rewrite bind_ret. by exists b'.
Qed.

(** What can come back from [decode], on any input. *)
Lemma decode_outcome cap s m0 b limits :
  schema.ok s = true -> typed s m0 = true -> wf b ->
  match codec_decode cap s m0 b limits with
  | Halt f => f = LengthError /\ has_array s = true
  | Ret (e, m, b') =>
      typed s m = true /\
      if failed e then b' = b
      else e = noError /\ eats (packet_bytes s m) b b' /\
           zlen (encode_bytes s m) <= packet_size limits
  end.
Proof.
  intros Hok Ht0 Hwf. unfold codec_decode. assert (Hwfv : wf (View.make b)) by exact (view_make_wf b Hwf).
  pose proof (sound_value (B := BufferView B) false msg_packet_length_t 0 uint64_ok eq_refl
    (View.make b) Hwfv) as Hs.
  destruct (decode_value msg_packet_length_t 0 (View.make b)) as [[[e n] v1]|f];
    [|by destruct Hs].
  destruct Hs as (Hn&bs1&He1&Hg1). cbn [mbind outcome_bind].
  destruct (view_read_commit _ b v1 Hwf He1) as (Hv1&_).
  destruct (failed e) eqn:Hf; [by rewrite Hf|].
  bcase; [done|]. specialize (Hg1 eq_refl).
  pose proof (decode_sound (B := BufferView B) cap s Hok m0 Ht0 v1 (proj1 He1)) as Hs.
  destruct (decode cap s m0 v1) as [[[e2 m] v2]|f]; [|done].
  destruct Hs as (Ht&bs2&He2&Hg2). cbn [mbind outcome_bind].
  pose proof (eats_trans _ _ _ _ _ He1 He2) as He.
  destruct (view_read_commit _ b v2 Hwf He) as (Hv2&b'&Hadv&Hb').
  destruct (failed e2) eqn:Hf2; [by rewrite Hf2|]. specialize (Hg2 eq_refl).
  destruct (law_bounds b Hwf) as [Hb _].
  assert (Hl : zlen (encode_bytes s m) < size_mod).
  { destruct Hb' as (_&Hi&_). rewrite Hi, !zlen_app, Hg2 in Hb.
    pose proof (zlen_nonneg bs1). pose proof (zlen_nonneg (input b')). zsolve. }
  rewrite (size_exact s m Hok Ht Hl).
  destruct (Z.eqb_spec (zlen (encode_bytes s m)) n) as [E|E]; [|done].
  cbn [negb]. rewrite Hv2, Hadv, bind_ret. split; [done|].
  change (failed noError) with false. cbn iota. split; [done|]. split; [|lia].
  unfold packet_bytes. by rewrite E, <- Hg1, <- Hg2.
Qed.

(** A packet that has not arrived completely. *)
Lemma decode_partial cap s m0 m b rest limits :
  schema.ok s = true -> typed s m0 = true -> typed s m = true ->
  arrays_fit cap m = true -> wf b -> packet_bytes s m = input b ++ rest -> rest <> [] ->
  zlen (encode_bytes s m) <= packet_size limits ->
  zlen (encode_bytes s m) < size_mod ->
  exists e m', codec_decode cap s m0 b limits = Ret (e, m', b) /\ isRecoverable e = true.
Proof.
  intros Hok Ht0 Ht Hfit Hwf Hi Hr Hlim Hl. assert (Hwfv : wf (View.make b)) by exact (view_make_wf b Hwf).
  pose proof (zlen_nonneg (encode_bytes s m)).
  pose proof (decode_outcome cap s m0 b limits Hok Ht0 Hwf) as Ho.
  assert (Hst : exists e m' b', codec_decode cap s m0 b limits = Ret (e, m', b') /\
    isRecoverable e = true).
  { assert (Hs : starves
      (fun v => '(error, n, v) ← decode_value msg_packet_length_t 0 v;
                if failed error then Ret (error, m0, v)
                else if packet_size limits <? n then Ret (packet_too_big n, m0, v)
                else decode cap s m0 v) (packet_bytes s m) (B := BufferView B)).
    { apply (starves_seq (decode_value msg_packet_length_t 0) (fun _ _ => m0)
        (fun n v => if packet_size limits <? n then Ret (packet_too_big n, m0, v)
                    else decode cap s m0 v) (zlen (encode_bytes s m))).
      - apply decodes_value; [done|]. by apply uint64_range.
      - by apply starves_value.
      - bcase; [lia|]. by apply decode_starves. }
    rewrite <- (view_make_input b) in Hi.
    destruct (Hs (View.make b) rest Hwfv Hi Hr) as (e&m'&v&He&Hrec).
    unfold codec_decode.
    destruct (decode_value msg_packet_length_t 0 (View.make b)) as [[[e1 n] v1]|f];
      [|done].
    cbn [mbind outcome_bind] in He |- *. destruct (failed e1) eqn:Hf1.
    { injection He as -> _ _. eauto. }
    destruct (packet_size limits <? n).
    { injection He as <- _ _. done. }
    rewrite He. cbn [mbind outcome_bind]. rewrite (isRecoverable_failed _ Hrec). eauto. }
  destruct Hst as (e&m'&b'&Hd&Hrec). rewrite Hd in Ho. exists e, m'.
  destruct Ho as [_ Ho]. rewrite (isRecoverable_failed _ Hrec) in Ho. by subst b'.
Qed.
End codec_facts.

(** ** Streams of packets *)
Section stream.
Context {B : Type} `{BufferOps B}.
Implicit Types b : B.

Fixpoint encode_all (s : schema) (ms : list message) b : outcome (Error * B) :=
  match ms with
  | [] => Ret (noError, b)
  | m :: ms =>
      '(error, b) ← codec_encode s m b;
      if failed error then Ret (error, b) else encode_all s ms b
  end.

(** One builder per packet, each with whatever it held before. *)
Fixpoint decode_all (cap : Z) (s : schema) (builders : list message) (limits : Limits) b
  : outcome (Error * list message * B) :=
  match builders with
  | [] => Ret (noError, [], b)
  | m0 :: builders =>
      '(error, m, b) ← codec_decode cap s m0 b limits;
      if failed error then Ret (error, [], b)
      else
        '(error, ms, b) ← decode_all cap s builders limits b;
        Ret (error, m :: ms, b)
  end.
End stream.

Definition stream_bytes (s : schema) (ms : list message) : list byte :=
  concat (map (packet_bytes s) ms).

Section stream_facts.
Context {B : Type} `{StreamBuffer B}.
Implicit Types b : B.

Lemma encode_all_packets s ms b :
  schema.ok s = true -> Forall (fun m => typed s m = true) ms -> wf b ->
  zlen (stream_bytes s ms) <= zlen (room b) ->
  exists b', encode_all s ms b = Ret (noError, b') /\ wf b' /\
    input b' = input b ++ stream_bytes s ms.
Proof.
  intros Hok Hms. revert b. induction Hms as [|m ms Hm _ IH]; intros b Hwf Hr.
  { exists b. by rewrite app_nil_r. }
  unfold stream_bytes in Hr |- *. cbn [map concat] in Hr |- *.
  fold (stream_bytes s ms) in Hr |- *. rewrite zlen_app, packet_len in Hr.
  pose proof (zlen_nonneg (stream_bytes s ms)).
  pose proof (zlen_nonneg (encode_bytes s m)).
  destruct (encode_packet s m b Hok Hm Hwf) as (b1&He&Hwf1&Hi1&Hr1&_); [lia|].
  destruct (IH b1 Hwf1) as (b2&He2&Hwf2&Hi2).
  { rewrite Hr1, zlen_drop, packet_len; rewrite ?packet_len; lia. }
  cbn [encode_all]. rewrite He, bind_ret. change (failed noError) with false. cbn iota.
  exists b2. split; [done|]. split; [done|]. by rewrite Hi2, Hi1, app_assoc.
Qed.

Lemma decode_all_packets cap s builders ms b rest limits :
  schema.ok s = true -> Forall (fun m => typed s m = true) builders ->
  length builders = length ms ->
  Forall (fun m => typed s m = true /\ arrays_fit cap m = true /\
            zlen (encode_bytes s m) <= packet_size limits) ms ->
  wf b -> input b = stream_bytes s ms ++ rest ->
  exists b', decode_all cap s builders limits b = Ret (noError, ms, b') /\ wf b' /\
    input b' = rest.
Proof.
  intros Hok Hbs Hl Hms. revert b ms Hl Hms.
  induction Hbs as [|m0 builders Hm0 _ IH]; intros b [|m ms] Hl Hms Hwf Hi; try done.
  { by exists b. }
  unfold stream_bytes in Hi. cbn [map concat] in Hi. fold (stream_bytes s ms) in Hi.
  rewrite <- app_assoc in Hi. inversion Hms as [|? ? (Ht&Hfit&Hlim) Hms']; subst.
  destruct (decode_packet cap s m0 m b _ limits Hok Hm0 Ht Hfit Hwf Hi Hlim)
    as (b1&Hd&He1).
  injection Hl as Hl.
  destruct (IH b1 ms Hl Hms' (proj1 He1)) as (b2&Hd2&Hwf2&Hi2);
    [by eapply eats_rest|].
  cbn [decode_all]. rewrite Hd, bind_ret. change (failed noError) with false. cbn iota.
  rewrite Hd2, bind_ret. by exists b2.
Qed.
End stream_facts.

(** ** The contract of the codec *)

(** A message used in the examples: an integer, a string and a union. *)
Definition sample_schema : schema :=
  schema.Struct [(schema.UInt32, "id"); (schema.String, "name");
    (schema.Union [(schema.Int8, "code"); (schema.Array schema.UInt16, "list")], "body")].
Definition sample_message : message :=
  MStruct [MPrimitive 2135231; MString [x66; x6f; x6f];
           MUnion 1 (MArray [MPrimitive 43871; MPrimitive 7])].
Definition sample_packet : list byte := packet_bytes sample_schema sample_message.

(** C18: for a message of its schema, [ProtoKelCodec::encode] either appends
    exactly one packet to what the buffer delivers, when the packet fits, or
    fails with a recoverable error and leaves the buffer as it was. *)
Theorem codec_encode_spec {B} `{StreamBuffer B} (s : schema) (m : message) (b : B) :
  schema.ok s = true -> typed s m = true -> wf b -> zlen (packet_bytes s m) < size_mod ->
  if zlen (packet_bytes s m) <=? zlen (room b) then
    exists b', codec_encode s m b = Ret (noError, b') /\ wf b' /\
      input b' = input b ++ packet_bytes s m /\
      room b' = zdrop (zlen (packet_bytes s m)) (room b)
  else exists e, codec_encode s m b = Ret (e, b) /\ isRecoverable e = true.
Proof.
  intros Hok Ht Hwf Hl. rewrite packet_len in Hl |- *. bcase.
  - rewrite <- packet_len. destruct (encode_packet s m b Hok Ht Hwf) as (b'&?&?&?&?&_);
      [lia|]. by exists b'.
  - by apply encode_refused.
Qed.

Lemma codec_encode_spec_witness :
  let b := mkArray (replicate 48 x00) 0 2 in
  (zlen sample_packet <=? zlen (room b)) = true /\
  if zlen sample_packet <=? zlen (room b) then
    exists b', codec_encode sample_schema sample_message b = Ret (noError, b') /\ wf b' /\
      input b' = input b ++ sample_packet /\
      room b' = zdrop (zlen sample_packet) (room b)
  else exists e, codec_encode sample_schema sample_message b = Ret (e, b) /\
    isRecoverable e = true.
Proof.
  split; [vm_compute; reflexivity|].
  apply (codec_encode_spec sample_schema sample_message (mkArray (replicate 48 x00) 0 2)).
  - reflexivity.
  - vm_compute. reflexivity.
  - vm_compute. repeat split; discriminate.
  - vm_compute. reflexivity.
Defined.

(** C11: on any input whatever, [ProtoKelCodec::decode] returns a builder that
    still is a message of the schema; on success it consumed exactly the packet
    of the message it returns, whose payload is within the limit; on every
    error the buffer is untouched.  Nothing faults, except that a schema with an
    array can make [resize] throw. *)
Theorem codec_decode_spec {B} `{StreamBuffer B} (cap : Z) (s : schema) (m0 : message)
    (b : B) (limits : Limits) :
  schema.ok s = true -> typed s m0 = true -> wf b ->
  match codec_decode cap s m0 b limits with
  | Halt f => f = LengthError /\ has_array s = true
  | Ret (e, m, b') =>
      typed s m = true /\
      if failed e then b' = b
      else wf b' /\ input b = packet_bytes s m ++ input b' /\
           zlen (encode_bytes s m) <= packet_size limits
  end.
Proof.
  intros Hok Ht Hwf. pose proof (decode_outcome cap s m0 b limits Hok Ht Hwf) as Ho.
  destruct (codec_decode cap s m0 b limits) as [[[e m] b']|f]; [|done].
  destruct Ho as [Hm Ho]. split; [done|].
  destruct (failed e); [done|]. destruct Ho as (_&(?&?&_)&?). done.
Qed.

Lemma codec_decode_spec_witness :
  let b := mkRing (sample_packet ++ [x2a]) 0 0 true in
  match codec_decode 1000 sample_schema (default_message sample_schema) b default_limits with
  | Halt f => f = LengthError /\ has_array sample_schema = true
  | Ret (e, m, b') =>
      typed sample_schema m = true /\
      if failed e then b' = b
      else wf b' /\ input b = packet_bytes sample_schema m ++ input b' /\
           zlen (encode_bytes sample_schema m) <= packet_size default_limits
  end.
Proof.
  apply (codec_decode_spec 1000 sample_schema (default_message sample_schema)
    (mkRing (sample_packet ++ [x2a]) 0 0 true) default_limits).
  - reflexivity.
  - vm_compute. reflexivity.
  - vm_compute. repeat split; discriminate.
Defined.

(** C1: messages encoded one after the other into one buffer with room for them, and
    delivered by any other buffer, are decoded in order to the same messages,
    whatever the builders held before, and what follows the packets is left to be
    read.  Every message is within the packet limit of the receiver, which the
    encoder does not check, and its arrays within what the allocator can hold. *)
Theorem codec_roundtrip {B1 B2} `{StreamBuffer B1} `{StreamBuffer B2}
    (cap : Z) (s : schema) (ms builders : list message) (b1 : B1) (b2 : B2)
    (rest : list byte) (limits : Limits) :
  schema.ok s = true ->
  Forall (fun m => typed s m = true /\ arrays_fit cap m = true /\
            zlen (encode_bytes s m) <= packet_size limits) ms ->
  Forall (fun m => typed s m = true) builders -> length builders = length ms ->
  wf b1 -> input b1 = [] -> zlen (stream_bytes s ms) <= zlen (room b1) ->
  exists b1', encode_all s ms b1 = Ret (noError, b1') /\
    (wf b2 -> input b2 = input b1' ++ rest ->
     exists b2', decode_all cap s builders limits b2 = Ret (noError, ms, b2') /\
       input b2' = rest).
Proof.
  intros Hok Hms Hbs Hl Hwf1 Hi1 Hr1.
  destruct (encode_all_packets s ms b1 Hok) as (b1'&He&_&Hi1'); [|done..|].
  { eapply List.Forall_impl; [|exact Hms]. by intros m (?&_). }
  exists b1'. split; [done|]. intros Hwf2 Hi2. rewrite Hi1', Hi1, app_nil_l in Hi2.
  destruct (decode_all_packets cap s builders ms b2 rest limits) as (b2'&?&_&?);
    [done..|]. by exists b2'.
Qed.

Lemma codec_roundtrip_witness :
  let ms := [sample_message; default_message sample_schema] in
  let b2 := mkRing (stream_bytes sample_schema ms ++ [x2a]) 0 0 true in
  exists b1', encode_all sample_schema ms (mkArray (replicate 64 x00) 0 0) =
      Ret (noError, b1') /\
    (wf b2 -> input b2 = input b1' ++ [x2a] ->
     exists b2', decode_all 1000 sample_schema [sample_message; sample_message]
         default_limits b2 = Ret (noError, ms, b2') /\ input b2' = [x2a]).
Proof.
  apply (codec_roundtrip 1000 sample_schema
    [sample_message; default_message sample_schema] [sample_message; sample_message]
    (mkArray (replicate 64 x00) 0 0)
    (mkRing (stream_bytes sample_schema [sample_message; default_message sample_schema]
             ++ [x2a]) 0 0 true) [x2a] default_limits).
  - reflexivity.
  - repeat constructor; vm_compute; discriminate.
  - repeat constructor; vm_compute; discriminate.
  - reflexivity.
  - vm_compute. repeat split; discriminate.
  - vm_compute. reflexivity.
  - vm_compute. discriminate.
Defined.

(** A packet that announces more than [Limits::packet_size] is rejected
    with a critical error as soon as its length is there, before the message or
    the buffer is touched. *)
Lemma codec_decode_limit {B} `{StreamBuffer B} (cap : Z) (s : schema)
    (m0 : message) (b : B) (n : Z) (rest : list byte) (limits : Limits) :
  wf b -> packet_size limits < n < size_mod -> 0 <= n ->
  input b = value_bytes msg_packet_length_t n ++ rest ->
  exists e, codec_decode cap s m0 b limits = Ret (e, m0, b) /\ isCritical e = true.
Proof.
  intros Hwf Hn Hn0 Hi. assert (Hwfv : wf (View.make b)) by exact (view_make_wf b Hwf).
  rewrite <- (view_make_input b) in Hi.
  destruct (decodes_value (B := BufferView B) msg_packet_length_t 0 n uint64_ok
    ltac:(apply uint64_range; lia) (View.make b) rest Hwfv Hi) as (v&Hd&He).
  destruct (view_read_commit _ b v Hwf He) as (Hb&_).
  exists (packet_too_big n). unfold codec_decode. rewrite Hd, bind_ret.
  change (failed noError) with false. cbn iota. bcase; [|lia]. by rewrite Hb.
Qed.

Lemma codec_decode_limit_witness :
  let b := mkRing [x01; x10; x00; x00; x00; x00; x00; x00; x2a] 0 0 true in
  exists e, codec_decode 1000 schema.UInt8 (MPrimitive 0) b default_limits
      = Ret (e, MPrimitive 0, b) /\ isCritical e = true.
Proof.
  apply (codec_decode_limit 1000 schema.UInt8 (MPrimitive 0)
    (mkRing [x01; x10; x00; x00; x00; x00; x00; x00; x2a] 0 0 true) 4097 [x2a]
    default_limits).
  - vm_compute. repeat split; discriminate.
  - vm_compute. by split.
  - vm_compute. discriminate.
  - vm_compute. reflexivity.
Defined.

(** Before its length has arrived nothing is known of a packet. *)
Lemma decode_no_length {B} `{StreamBuffer B} (cap : Z) (s : schema)
    (m0 : message) (b : B) (limits : Limits) :
  wf b -> zlen (input b) < sizeof msg_packet_length_t ->
  codec_decode cap s m0 b limits = Ret (recoverableError "Buffer too small", m0, b).
Proof.
  intros Hwf Hs. assert (Hwfv : wf (View.make b)) by exact (view_make_wf b Hwf).
  rewrite <- (view_make_input b) in Hs. unfold codec_decode.
  by rewrite (decode_value_refused (B := BufferView B) msg_packet_length_t 0 (View.make b)
    uint64_ok eq_refl Hwfv Hs).
Qed.

(** C34: what [decode] answers while only a beginning of a packet has arrived, of a
    message whose arrays the allocator can hold; the buffer is untouched in every
    case.  If the length has arrived and is over [Limits::packet_size], it is a
    critical error, and the message is untouched too.  Otherwise - the packet is
    within the limit, or less than its length has arrived - it is a recoverable
    error, so that the call can be repeated when more bytes are there. *)
Theorem codec_decode_incomplete {B} `{StreamBuffer B} (cap : Z) (s : schema)
    (m0 m : message) (b : B) (missing : list byte) (limits : Limits) :
  schema.ok s = true -> typed s m0 = true -> typed s m = true ->
  arrays_fit cap m = true -> zlen (encode_bytes s m) < size_mod ->
  wf b -> packet_bytes s m = input b ++ missing -> missing <> [] ->
  exists e m', codec_decode cap s m0 b limits = Ret (e, m', b) /\
    if (sizeof msg_packet_length_t <=? zlen (input b)) &&
       (packet_size limits <? zlen (encode_bytes s m))
    then isCritical e = true /\ m' = m0
    else isRecoverable e = true.
Proof.
  intros Hok Ht0 Ht Hfit Hl Hwf Hi Hm. pose proof (zlen_nonneg (encode_bytes s m)).
  destruct (Z.leb_spec (sizeof msg_packet_length_t) (zlen (input b))) as [Hlen|Hshort].
  - destruct (Z.ltb_spec (packet_size limits) (zlen (encode_bytes s m))) as [Hbig|Hlim].
    + assert (Hin : exists rest, input b =
        value_bytes msg_packet_length_t (zlen (encode_bytes s m)) ++ rest).
      { apply app_eq_inv in Hi as [(k&Hi&_)|(k&->&_)]; [|by eexists]. exists [].
        apply (f_equal zlen) in Hi as Hz. rewrite zlen_app, value_bytes_len in Hz by done.
        destruct k as [|x k]; [by rewrite app_nil_r in Hi |- *|].
        rewrite zlen_cons in Hz. pose proof (zlen_nonneg k). lia. }
      destruct Hin as (rest&Hin).
      destruct (codec_decode_limit cap s m0 b _ rest limits Hwf (conj Hbig Hl) ltac:(lia) Hin)
        as (e&Hd&He). by exists e, m0.
    + by eapply decode_partial.
  - do 2 eexists. split; [by apply decode_no_length|done].
Qed.

Lemma codec_decode_incomplete_witness :
  let b := mkRing (take 24 sample_packet ++ [x00]) 0 24 false in
  (exists e m', codec_decode 1000 sample_schema (default_message sample_schema) b
      default_limits = Ret (e, m', b) /\ isRecoverable e = true) /\
  (exists e m', codec_decode 1000 sample_schema (default_message sample_schema) b
      (mkLimits 20) = Ret (e, m', b) /\ isCritical e = true).
Proof.
  pose proof (fun limits => codec_decode_incomplete 1000 sample_schema
    (default_message sample_schema) sample_message
    (mkRing (take 24 sample_packet ++ [x00]) 0 24 false) (drop 24 sample_packet) limits
    eq_refl ltac:(vm_compute; reflexivity) ltac:(vm_compute; reflexivity) eq_refl
    ltac:(vm_compute; reflexivity) ltac:(vm_compute; repeat split; discriminate)
    ltac:(vm_compute; reflexivity) ltac:(vm_compute; discriminate)) as Hall.
  split.
  - destruct (Hall default_limits) as (e&m'&Hd&He). by exists e, m'.
  - destruct (Hall (mkLimits 20)) as (e&m'&Hd&He). exists e, m'. by destruct He.
Defined.

(** C39: an array is resized to the length on the wire before anything checks
    that length: a packet of sixteen bytes within the packet limit makes
    [resize] throw, whatever the limit of the allocator. *)
Theorem codec_decode_array_bomb {B} `{StreamBuffer B} (cap : Z) (T : schema)
    (vs : list message) (b : B) (n k : Z) (rest : list byte) (limits : Limits) :
  wf b -> 0 <= k <= packet_size limits -> k < size_mod -> 0 <= n -> cap < n < size_mod ->
  input b = value_bytes msg_packet_length_t k ++ value_bytes msg_array_length_t n ++ rest ->
  codec_decode cap (schema.Array T) (MArray vs) b limits = Halt LengthError.
Proof.
  intros Hwf Hk Hk2 Hn Hn2 Hi.
  assert (Hwfv : wf (View.make b)) by exact (view_make_wf b Hwf).
  rewrite <- (view_make_input b) in Hi.
  destruct (decodes_value (B := BufferView B) msg_packet_length_t 0 k uint64_ok
    ltac:(apply uint64_range; lia) (View.make b) _ Hwfv Hi) as (v&Hd&He).
  pose proof (eats_rest _ _ _ _ He Hi) as Hiv.
  destruct (decodes_value (B := BufferView B) msg_array_length_t 0 n uint64_ok
    ltac:(apply uint64_range; lia) v rest (proj1 He) Hiv) as (v2&Hd2&He2).
  unfold codec_decode. rewrite Hd, bind_ret. change (failed noError) with false. cbn iota.
  bcase; [lia|]. cbn [decode]. rewrite Hd2, bind_ret.
  change (failed noError) with false. cbn iota. unfold array_resize. by bcase; [lia|].
Qed.

Lemma codec_decode_array_bomb_witness :
  let b := mkRing [x08; x00; x00; x00; x00; x00; x00; x00;
                   xff; xff; xff; xff; xff; xff; xff; xff] 0 0 true in
  codec_decode ptrdiff_max (schema.Array schema.UInt8) (MArray []) b default_limits
    = Halt LengthError.
Proof.
  apply (codec_decode_array_bomb ptrdiff_max schema.UInt8 []
    (mkRing [x08; x00; x00; x00; x00; x00; x00; x00;
             xff; xff; xff; xff; xff; xff; xff; xff] 0 0 true) size_max 8 [] default_limits).
  - vm_compute. repeat split; discriminate.
  - vm_compute. split; discriminate.
  - vm_compute. reflexivity.
  - vm_compute. discriminate.
  - vm_compute. by split.
  - vm_compute. reflexivity.
Defined.
