(* ===== verification/EventLoop.v ===== *)
(** Model of the classes [Event] and [EventLoop] of [source/forstio/async.h] and
    [async.cpp]: the intrusive doubly linked queue of armed events with its two
    insert points, at the level of its pointers, and a refinement of it to a
    queue in three tiers.

    Events are numbered.  An [Event **] is a slot: the [head] of the loop or the
    [next] of an event.  The handlers of the events are programs that arm, disarm
    and query events ([prog]); they are the argument of [turn]. *)

From stdpp Require Import gmap.
From S2P Require Import Prelude.

(** ** The pointer structure *)
Inductive slot := Head | NextOf (e : positive).

#[global] Instance slot_eq_dec : EqDecision slot.
Proof. solve_decision. Defined.

Record Event := mkEvent {
  prev : option slot;
  next : option positive
}.
Definition fresh_event : Event := mkEvent None None.

(** [events] are the [Event] objects alive; [self] is the address of the loop and
    [local_loop] the thread local pointer. *)
Record EventLoop := mkLoop {
  head : option positive;
  tail : slot;
  next_insert_point : slot;
  later_insert_point : slot;
  is_runnable : bool;
  events : gmap positive Event;
  self : positive;
  local_loop : option positive
}.

(** [EventLoop()] on a thread without a loop. *)
Definition new_loop (self : positive) : EventLoop :=
  mkLoop None Head Head Head false ∅ self None.

(** Field updates. *)
Definition set_head h l := mkLoop h (tail l) (next_insert_point l) (later_insert_point l)
  (is_runnable l) (events l) (self l) (local_loop l).
Definition set_tail t l := mkLoop (head l) t (next_insert_point l) (later_insert_point l)
  (is_runnable l) (events l) (self l) (local_loop l).
Definition set_next_insert p l := mkLoop (head l) (tail l) p (later_insert_point l)
  (is_runnable l) (events l) (self l) (local_loop l).
Definition set_later_insert p l := mkLoop (head l) (tail l) (next_insert_point l) p
  (is_runnable l) (events l) (self l) (local_loop l).
Definition setRunnable r l := mkLoop (head l) (tail l) (next_insert_point l)
  (later_insert_point l) r (events l) (self l) (local_loop l).
Definition set_events es l := mkLoop (head l) (tail l) (next_insert_point l)
  (later_insert_point l) (is_runnable l) es (self l) (local_loop l).
Definition set_local p l := mkLoop (head l) (tail l) (next_insert_point l)
  (later_insert_point l) (is_runnable l) (events l) (self l) p.

(** Access through pointers; to a destroyed event it is undefined. *)
Definition get_event (e : positive) (l : EventLoop) : outcome Event :=
  match events l !! e with Some ev => Ret ev | None => Halt UndefinedBehaviour end.
Definition put_event (e : positive) (ev : Event) (l : EventLoop) : EventLoop :=
  set_events (<[e := ev]> (events l)) l.
Definition set_prev (e : positive) (p : option slot) (l : EventLoop) : outcome EventLoop :=
  ev ← get_event e l; Ret (put_event e (mkEvent p (next ev)) l).
Definition set_next (e : positive) (n : option positive) (l : EventLoop)
  : outcome EventLoop :=
  ev ← get_event e l; Ret (put_event e (mkEvent (prev ev) n) l).

Definition load (p : slot) (l : EventLoop) : outcome (option positive) :=
  match p with Head => Ret (head l) | NextOf e => ev ← get_event e l; Ret (next ev) end.
Definition store (p : slot) (v : option positive) (l : EventLoop) : outcome EventLoop :=
  match p with Head => Ret (set_head v l) | NextOf e => set_next e v l end.

(** [if (next) { next->prev = p; }] *)
Definition fix_prev (n : option positive) (p : slot) (l : EventLoop) : outcome EventLoop :=
  match n with Some f => set_prev f (Some p) l | None => Ret l end.

(** ** [Event] *)
Definition isArmed (e : positive) (l : EventLoop) : outcome bool :=
  ev ← get_event e l;
  Ret (match prev ev with Some _ => true | None => false end).

(** [assert(&loop == local_loop)] *)
Definition assert_local (l : EventLoop) : outcome unit :=
  assert_that (bool_decide (local_loop l = Some (self l))).

(** The statements the three functions have in common: the event goes in front
    of what [*p] points to. *)
Definition link (e : positive) (p : slot) (l : EventLoop) : outcome EventLoop :=
  n ← load p l;
  l ← set_next e n l;
  l ← set_prev e (Some p) l;
  l ← store p (Some e) l;
  fix_prev n (NextOf e) l.

Definition armNext (e : positive) (l : EventLoop) : outcome EventLoop :=
  _ ← assert_local l;
  armed ← isArmed e l;
  if armed : bool then Ret l
  else
    let p := next_insert_point l in
    l ← link e p l;
    let l := set_next_insert (NextOf e) l in
    let l := if decide (later_insert_point l = p)
             then set_later_insert (NextOf e) l else l in
    let l := if decide (tail l = p) then set_tail (NextOf e) l else l in
    Ret (setRunnable true l).

Definition armLater (e : positive) (l : EventLoop) : outcome EventLoop :=
  _ ← assert_local l;
  armed ← isArmed e l;
  if armed : bool then Ret l
  else
    let p := later_insert_point l in
    l ← link e p l;
    let l := set_later_insert (NextOf e) l in
    let l := if decide (tail l = p) then set_tail (NextOf e) l else l in
    Ret (setRunnable true l).

Definition armLast (e : positive) (l : EventLoop) : outcome EventLoop :=
  _ ← assert_local l;
  armed ← isArmed e l;
  if armed : bool then Ret l
  else
    let p := later_insert_point l in
    l ← link e p l;
    let l := if decide (tail l = p) then set_tail (NextOf e) l else l in
    Ret (setRunnable true l).

Definition disarm (e : positive) (l : EventLoop) : outcome EventLoop :=
  ev ← get_event e l;
  match prev ev with
  | None => Ret l
  | Some p =>
      let l := if decide (tail l = NextOf e) then set_tail p l else l in
      let l := if decide (next_insert_point l = NextOf e)
               then set_next_insert p l else l in
      l ← store p (next ev) l;
      l ← fix_prev (next ev) p l;
      l ← set_prev e None l;
      set_next e None l
  end.

(** [Event(EventLoop &)] at the fresh address [e], and [~Event()]. *)
Definition create_event (e : positive) (l : EventLoop) : EventLoop :=
  put_event e fresh_event l.
Definition destroy_event (e : positive) (l : EventLoop) : outcome EventLoop :=
  l ← disarm e l;
  Ret (set_events (delete e (events l)) l).

(** ** Handlers *)
Inductive how := Next | Later | Last.

(** What the virtual function [fire] of an event does with the loop; [U] is the
    state of everything else. *)
Inductive prog (U : Type) :=
| Done (u : U)
| Arm (h : how) (e : positive) (k : prog U)
| Disarm (e : positive) (k : prog U)
| IsArmed (e : positive) (k : bool -> prog U).
Arguments Done {U} u.
Arguments Arm {U} h e k.
Arguments Disarm {U} e k.
Arguments IsArmed {U} e k.

Definition arm (h : how) : positive -> EventLoop -> outcome EventLoop :=
  match h with Next => armNext | Later => armLater | Last => armLast end.

Fixpoint exec {U} (p : prog U) (l : EventLoop) : outcome (U * EventLoop) :=
  match p with
  | Done u => Ret (u, l)
  | Arm h e k => l ← arm h e l; exec k l
  | Disarm e k => l ← disarm e l; exec k l
  | IsArmed e k => b ← isArmed e l; exec (k b) l
  end.

(** ** [EventLoop] *)
Definition enterScope (l : EventLoop) : outcome EventLoop :=
  _ ← assert_that (bool_decide (local_loop l = None));
  Ret (set_local (Some (self l)) l).

Definition leaveScope (l : EventLoop) : outcome EventLoop :=
  _ ← assert_that (bool_decide (local_loop l = Some (self l)));
  Ret (set_local None l).

Section turn.
Context {U : Type} (fire : positive -> U -> prog U).

Definition turn (u : U) (l : EventLoop) : outcome (bool * U * EventLoop) :=
  match head l with
  | None => Ret (false, u, l)
  | Some event =>
      ev ← get_event event l;
      let l := set_head (next ev) l in
      l ← fix_prev (head l) Head l;
      let l := set_next_insert Head l in
      let l := if decide (later_insert_point l = NextOf event)
               then set_later_insert Head l else l in
      let l := if decide (tail l = NextOf event) then set_tail Head l else l in
      l ← set_next event None l;
      l ← set_prev event None l;
      let l := set_next_insert Head l in
      '(u, l) ← exec (fire event u) l;
      Ret (true, u, l)
  end.

(** [steps] is [65536 - turn_step]. *)
Fixpoint turn_loop (steps : nat) (u : U) (l : EventLoop)
  : outcome (bool * U * EventLoop) :=
  match steps, head l with
  | O, _ | _, None => Ret (true, u, l)
  | S steps, Some _ =>
      '(more, u, l) ← turn u l;
      if more : bool then turn_loop steps u l else Ret (false, u, l)
  end.

Definition turnLoop (u : U) (l : EventLoop) : outcome (bool * U * EventLoop) :=
  turn_loop (Z.to_nat 65536) u l.

(** What [wait] in its three forms and [poll] have in common: [port] is what the
    event port is asked for, if there is one; it arms events as a handler does. *)
Definition wait (port : option (U -> prog U)) (u : U) (l : EventLoop)
  : outcome (bool * U * EventLoop) :=
  '(u, l) ← match port with
            | Some poll => exec (poll u) l
            | None => Ret (u, l)
            end;
  turnLoop u l.
End turn.

(** ** [EventPort] and [WaitScope] *)

(** The interface, with the effect of each call on the loop. *)
Record EventPort (U : Type) := mkEventPort {
  onSignal : Z -> U -> prog U;
  port_poll : U -> prog U;
  port_wait : U -> prog U;
  port_wait_duration : Z -> U -> prog U;
  port_wait_time_point : Z -> U -> prog U;
  port_wake : U -> prog U
}.
Arguments onSignal {U} e signal u.
Arguments port_poll {U} e u.
Arguments port_wait {U} e u.
Arguments port_wait_duration {U} e duration u.
Arguments port_wait_time_point {U} e time_point u.
Arguments port_wake {U} e u.

Section scope.
Context {U : Type} (fire : positive -> U -> prog U) (event_port : option (EventPort U)).

Definition EventLoop_wait (u : U) (l : EventLoop) : outcome (bool * U * EventLoop) :=
  wait fire (port_wait <$> event_port) u l.
Definition EventLoop_wait_duration (duration : Z) (u : U) (l : EventLoop)
  : outcome (bool * U * EventLoop) :=
  wait fire ((fun port => port_wait_duration port duration) <$> event_port) u l.
Definition EventLoop_wait_time_point (time_point : Z) (u : U) (l : EventLoop)
  : outcome (bool * U * EventLoop) :=
  wait fire ((fun port => port_wait_time_point port time_point) <$> event_port) u l.
Definition EventLoop_poll (u : U) (l : EventLoop) : outcome (bool * U * EventLoop) :=
  wait fire (port_poll <$> event_port) u l.

(** [~EventLoop()] *)
Definition EventLoop_drop (l : EventLoop) : outcome unit :=
  assert_that (bool_decide (local_loop l <> Some (self l))).

(** [WaitScope]: its constructor and destructor, and its calls, which drop the
    answer. *)
Definition WaitScope_new (l : EventLoop) : outcome EventLoop := enterScope l.
Definition WaitScope_drop (l : EventLoop) : outcome EventLoop := leaveScope l.
Definition WaitScope_wait (u : U) (l : EventLoop) : outcome (U * EventLoop) :=
  '(_, u, l) ← EventLoop_wait u l; Ret (u, l).
Definition WaitScope_wait_duration (duration : Z) (u : U) (l : EventLoop)
  : outcome (U * EventLoop) :=
  '(_, u, l) ← EventLoop_wait_duration duration u l; Ret (u, l).
Definition WaitScope_wait_time_point (time_point : Z) (u : U) (l : EventLoop)
  : outcome (U * EventLoop) :=
  '(_, u, l) ← EventLoop_wait_time_point time_point u l; Ret (u, l).
Definition WaitScope_poll (u : U) (l : EventLoop) : outcome (U * EventLoop) :=
  '(_, u, l) ← EventLoop_poll u l; Ret (u, l).
End scope.
