(* ===== verification/EventQueue.v ===== *)
(** The queue that the event loop of [EventLoop.v] implements: armed events in
    three tiers, and the proof that the pointer operations refine it.

    [now] are the events armed with [armNext] since the last [turn], [soon] those
    armed with [armLater], [rest] those armed with [armLast]; an event keeps its
    place relative to the others when a turn folds [now] into [soon]. *)

From S2P Require Import Prelude.
From stdpp Require Import gmap list.
From S2P Require Import EventLoop.

(** ** The specification *)
Record queue := mkQueue {
  now : list positive;
  soon : list positive;
  rest : list positive
}.

Definition items (q : queue) : list positive := now q ++ soon q ++ rest q.
Definition empty_queue : queue := mkQueue [] [] [].

Module Queue.
Definition arm (h : how) (e : positive) (q : queue) : queue :=
  if decide (e ∈ items q) then q
  else match h with
       | Next => mkQueue (now q ++ [e]) (soon q) (rest q)
       | Later => mkQueue (now q) (soon q ++ [e]) (rest q)
       | Last => mkQueue (now q) (soon q) (e :: rest q)
       end.

Definition remove (e : positive) (q : queue) : queue :=
  mkQueue (filter (.≠ e) (now q)) (filter (.≠ e) (soon q)) (filter (.≠ e) (rest q)).

(** The event in front of [later_insert_point]: disarming it is not covered. *)
Definition at_insert_point (e : positive) (q : queue) : bool :=
  bool_decide (last (now q ++ soon q) = Some e).

Definition pop (q : queue) : option (positive * queue) :=
  match now q ++ soon q, rest q with
  | e :: l, r => Some (e, mkQueue [] l r)
  | [], e :: r => Some (e, mkQueue [] [] r)
  | [], [] => None
  end.

(** What a handler does; [None] when it disarms the event at the insert point. *)
Fixpoint exec {U} (p : prog U) (q : queue) : option (U * queue) :=
  match p with
  | Done u => Some (u, q)
  | Arm h e k => exec k (arm h e q)
  | Disarm e k => if at_insert_point e q then None else exec k (remove e q)
  | IsArmed e k => exec (k (bool_decide (e ∈ items q))) q
  end.

Section run.
Context {U : Type} (fire : positive -> U -> prog U).

Fixpoint run (steps : nat) (u : U) (q : queue) : option (U * queue) :=
  match steps with
  | O => Some (u, q)
  | S steps =>
      match pop q with
      | None => Some (u, q)
      | Some (e, q) => '(u, q) ← exec (fire e u) q; run steps u q
      end
  end.
End run.
End Queue.

(** Every event a handler mentions is alive. *)
Fixpoint mentions {U} (ids : gset positive) (p : prog U) : Prop :=
  match p with
  | Done _ => True
  | Arm _ e k | Disarm e k => e ∈ ids /\ mentions ids k
  | IsArmed e k => e ∈ ids /\ forall b, mentions ids (k b)
  end.

(** The same along one run only: every event that the handler really arms,
    disarms or queries, started in [q], is alive. *)
Fixpoint legal {U} (ids : gset positive) (p : prog U) (q : queue) : Prop :=
  match p with
  | Done _ => True
  | Arm h e k => e ∈ ids /\ legal ids k (Queue.arm h e q)
  | Disarm e k =>
      e ∈ ids /\ (if Queue.at_insert_point e q then True else legal ids k (Queue.remove e q))
  | IsArmed e k => e ∈ ids /\ legal ids (k (bool_decide (e ∈ items q))) q
  end.

Fixpoint legal_run {U} (ids : gset positive) (fire : positive -> U -> prog U)
    (steps : nat) (u : U) (q : queue) : Prop :=
  match steps with
  | O => True
  | S steps =>
      match Queue.pop q with
      | None => True
      | Some (e, q) =>
          legal ids (fire e u) q /\
          forall u' q', Queue.exec (fire e u) q = Some (u', q') ->
            legal_run ids fire steps u' q'
      end
  end.

Lemma mentions_legal {U} ids (p : prog U) q : mentions ids p -> legal ids p q.
Proof.
  revert q. induction p as [u|h e k IH|e k IH|e k IH]; intros q; cbn; try done.
  - intros [? ?]. eauto.
  - intros [? ?]. split; [done|]. destruct (Queue.at_insert_point e q); eauto.
  - intros [? Hk]. split; [done|]. apply IH, Hk.
Qed.

Lemma mentions_legal_run {U} ids (fire : positive -> U -> prog U) steps u q :
  (forall e u, mentions ids (fire e u)) -> legal_run ids fire steps u q.
Proof.
  intros Hm. revert u q. induction steps as [|steps IH]; intros u q; cbn; [done|].
  destruct (Queue.pop q) as [[e q1]|]; [|done]. split; [by apply mentions_legal|]. eauto.
Qed.

(** ** Segments of the linked list *)
Definition hd_or (l : list positive) (q : option positive) : option positive :=
  match l with [] => q | e :: _ => Some e end.
Definition slot_end (p : slot) (l : list positive) : slot :=
  match last l with Some e => NextOf e | None => p end.

(** The events [l] are linked one after the other, the first one hanging off the
    slot [p] and the last one pointing to [q]. *)
Fixpoint chain (es : gmap positive Event) (p : slot) (l : list positive)
    (q : option positive) : Prop :=
  match l with
  | [] => True
  | e :: l => es !! e = Some (mkEvent (Some p) (hd_or l q)) /\ chain es (NextOf e) l q
  end.

Section chain.
Implicit Types es : gmap positive Event.

Lemma slot_end_cons p e l : slot_end p (e :: l) = slot_end (NextOf e) l.
Proof. unfold slot_end. destruct l as [|f l]; [done|].
  rewrite last_cons_cons. destruct (last (f :: l)) eqn:Hl; [done|].
  by apply last_None in Hl.
Qed.

Lemma slot_end_snoc p l e : slot_end p (l ++ [e]) = NextOf e.
Proof. unfold slot_end. by rewrite last_snoc. Qed.

Lemma hd_or_app l k q : hd_or (l ++ k) q = hd_or l (hd_or k q).
Proof. by destruct l. Qed.

Lemma chain_app es p l k q :
  chain es p (l ++ k) q <-> chain es p l (hd_or k q) /\ chain es (slot_end p l) k q.
Proof.
  revert p. induction l as [|e l IH]; intros p; cbn [chain app].
  - tauto.
  - rewrite IH, slot_end_cons, hd_or_app. tauto.
Qed.

Lemma chain_frame es es' p l q :
  (forall x, x ∈ l -> es' !! x = es !! x) -> chain es p l q -> chain es' p l q.
Proof.
  revert p. induction l as [|e l IH]; intros p Hf; cbn; [done|].
  intros [He Hl]. split; [rewrite Hf by set_solver; done|].
  apply IH; [set_solver|done].
Qed.

(** Distinct positions of the list are distinct slots. *)
Lemma slot_end_inj l k :
  NoDup (l ++ k) -> slot_end Head l = slot_end Head (l ++ k) <-> k = [].
Proof.
  intros Hnd. split; [|intros ->; by rewrite app_nil_r].
  destruct k as [|f k] using rev_ind; [done|]. rewrite app_assoc, slot_end_snoc.
  unfold slot_end. destruct (last l) as [e|] eqn:Hl; [|done]. intros [= ->].
  apply last_Some_elem_of in Hl. apply NoDup_app in Hnd as (_&Hd&_).
  exfalso. apply (Hd f Hl). set_solver.
Qed.

Lemma slot_end_next l e p : slot_end p l = NextOf e -> p <> NextOf e -> last l = Some e.
Proof. unfold slot_end. by destruct (last l); intros [= ->]. Qed.
End chain.

(** ** What the pointer operations do to a segment *)

(** Only the head and the event records changed, and no event came or went. *)
Definition same_points (l l' : EventLoop) : Prop :=
  l' = set_head (head l') (set_events (events l') l) /\ dom (events l') = dom (events l).

Lemma same_points_refl l : same_points l l.
Proof. by destruct l. Qed.

Lemma same_points_trans l1 l2 l3 :
  same_points l1 l2 -> same_points l2 l3 -> same_points l1 l3.
Proof.
  unfold same_points. intros [H1 D1] [H2 D2]. split; [|congruence].
  rewrite H2, H1 at 1. done.
Qed.

Lemma put_event_points e ev l :
  is_Some (events l !! e) -> same_points l (put_event e ev l).
Proof.
  intros He. split; [by destruct l|]. cbn. apply dom_insert_lookup_L. done.
Qed.

Lemma set_head_points h l : same_points l (set_head h l).
Proof. by destruct l. Qed.

Section segments.
Lemma set_prev_ok e p ev (l : EventLoop) :
  events l !! e = Some ev -> set_prev e p l = Ret (put_event e (mkEvent p (next ev)) l).
Proof. intros He. unfold set_prev, get_event. by rewrite He. Qed.

Lemma set_next_ok e n ev (l : EventLoop) :
  events l !! e = Some ev -> set_next e n l = Ret (put_event e (mkEvent (prev ev) n) l).
Proof. intros He. unfold set_next, get_event. by rewrite He. Qed.

Lemma load_ok (l : EventLoop) l1 q :
  head l = hd_or l1 q -> chain (events l) Head l1 q -> load (slot_end Head l1) l = Ret q.
Proof.
  destruct l1 as [|e l1 _] using rev_ind; cbn.
  - intros -> _. done.
  - intros _ [_ [He _]]%chain_app. rewrite slot_end_snoc. cbn. unfold get_event.
    by rewrite He.
Qed.

Lemma store_ok (l : EventLoop) l1 q v :
  head l = hd_or l1 q -> chain (events l) Head l1 q -> NoDup l1 ->
  exists l', store (slot_end Head l1) v l = Ret l' /\ head l' = hd_or l1 v /\
    chain (events l') Head l1 v /\
    (forall x, x ∉ l1 -> events l' !! x = events l !! x) /\ same_points l l'.
Proof.
  destruct l1 as [|e l1 _] using rev_ind; intros Hh Hc Hnd.
  - exists (set_head v l). by split_and!.
  - apply chain_app in Hc as [Hc [He _]]. apply NoDup_app in Hnd as (Hnd&Hd&_).
    rewrite slot_end_snoc. cbn [store]. rewrite (set_next_ok _ _ _ _ He). cbn [prev].
    eexists; split; [done|]. split; [|split; [|split]].
    + cbn. rewrite Hh. by destruct l1.
    + apply chain_app. cbn. split.
      * eapply chain_frame; [|exact Hc]. intros x Hx. apply lookup_insert_ne.
        intros ->. apply (Hd x Hx). set_solver.
      * by rewrite lookup_insert_eq.
    + intros x Hx. cbn. apply lookup_insert_ne. set_solver.
    + by apply put_event_points.
Qed.

Lemma fix_prev_ok (l : EventLoop) p p' l2 :
  chain (events l) p l2 None -> NoDup l2 ->
  exists l', fix_prev (hd_or l2 None) p' l = Ret l' /\ head l' = head l /\
    chain (events l') p' l2 None /\
    (forall x, x ∉ l2 -> events l' !! x = events l !! x) /\ same_points l l'.
Proof.
  destruct l2 as [|f l2]; cbn; intros Hc Hnd.
  - exists l. split_and!; try done. apply same_points_refl.
  - destruct Hc as [Hf Hc]. rewrite (set_prev_ok _ _ _ _ Hf). cbn [next].
    apply NoDup_cons in Hnd as [Hn _]. eexists; split; [done|].
    split; [done|]. split; [|split].
    + cbn. split; [by rewrite lookup_insert_eq|].
      eapply chain_frame; [|exact Hc]. intros x Hx. apply lookup_insert_ne.
      by intros ->.
    + intros x Hx. cbn. apply lookup_insert_ne. set_solver.
    + by apply put_event_points.
Qed.
End segments.

(** ** The list structure *)

(** The loop holds exactly the events [l], in this order. *)
Definition links (l : EventLoop) (es : list positive) : Prop :=
  head l = hd_or es None /\ chain (events l) Head es None /\ NoDup es /\
  forall x ev, events l !! x = Some ev -> x ∉ es -> ev = fresh_event.

Section links.
Lemma links_isArmed (l : EventLoop) es e :
  links l es -> e ∈ dom (events l) -> isArmed e l = Ret (bool_decide (e ∈ es)).
Proof.
  intros (_&Hc&_&Hfresh) Hin. apply elem_of_dom in Hin as [ev He].
  unfold isArmed, get_event. rewrite He. cbn. f_equal. case_bool_decide as Hm.
  - apply list_elem_of_split in Hm as (l1&l2&->).
    apply chain_app in Hc as [_ [He' _]]. rewrite He in He'. by injection He' as ->.
  - by rewrite (Hfresh _ _ He Hm).
Qed.

Lemma link_ok (l : EventLoop) l1 l2 e :
  links l (l1 ++ l2) -> e ∉ l1 ++ l2 -> e ∈ dom (events l) ->
  exists l', link e (slot_end Head l1) l = Ret l' /\ links l' (l1 ++ e :: l2) /\
    same_points l l'.
Proof.
  intros (Hh&Hc&Hnd&Hfresh) Hne Hin. apply elem_of_dom in Hin as [ev He].
  pose proof (Hfresh _ _ He Hne) as ->.
  apply chain_app in Hc as [Hc1 Hc2]. rewrite hd_or_app in Hh.
  apply NoDup_app in Hnd as (Hnd1&Hd&Hnd2).
  unfold link. rewrite (load_ok _ _ _ Hh Hc1), bind_ret.
  rewrite (set_next_ok _ _ _ _ He), bind_ret. cbn [prev fresh_event].
  set (la := put_event e _ l).
  assert (Ha : events la !! e = Some (mkEvent None (hd_or l2 None)))
    by (cbn; by rewrite lookup_insert_eq).
  rewrite (set_prev_ok _ _ _ _ Ha), bind_ret. cbn [next]. set (lb := put_event e _ la).
  assert (Hb : events lb !! e = Some (mkEvent (Some (slot_end Head l1)) (hd_or l2 None)))
    by (cbn; by rewrite lookup_insert_eq).
  assert (Hbf : forall x, x <> e -> events lb !! x = events l !! x)
    by (intros x Hx; cbn; by rewrite !lookup_insert_ne).
  assert (Hpb : same_points l lb).
  { eapply same_points_trans; apply put_event_points; eauto. }
  destruct (store_ok lb l1 (hd_or l2 None) (Some e)) as (lc&->&Hhc&Hcc&Hfc&Hpc);
    [done| |done|].
  { eapply chain_frame; [|exact Hc1]. intros x Hx. apply Hbf. intros ->. set_solver. }
  rewrite bind_ret.
  destruct (fix_prev_ok lc (slot_end Head l1) (NextOf e) l2) as (ld&->&Hhd&Hcd&Hfd&Hpd);
    [|done|].
  { eapply chain_frame; [|exact Hc2]. intros x Hx. rewrite Hfc by set_solver.
    apply Hbf. intros ->. set_solver. }
  exists ld. split; [done|]. split; [split; [|split; [|split]]|].
  - rewrite Hhd, Hhc, hd_or_app. done.
  - apply chain_app. split; [|split; [|done]].
    + eapply chain_frame; [|exact Hcc]. intros x Hx. apply Hfd. set_solver.
    + rewrite Hfd, Hfc by set_solver. done.
  - apply NoDup_app. split; [done|]. split; [|apply NoDup_cons; set_solver].
    intros x Hx. apply not_elem_of_cons. split; [|by apply Hd]. intros ->. set_solver.
  - intros x ev Hx Hn. rewrite Hfd, Hfc, Hbf in Hx by set_solver.
    eapply Hfresh; [exact Hx|set_solver].
  - eapply same_points_trans; [exact Hpb|]. by eapply same_points_trans.
Qed.

(** Taking out an event: the statements of [disarm] and of [turn]. *)
Lemma unlink_ok (l : EventLoop) l1 l2 e :
  links l (l1 ++ e :: l2) ->
  events l !! e = Some (mkEvent (Some (slot_end Head l1)) (hd_or l2 None)) /\
  exists la lb lc,
    store (slot_end Head l1) (hd_or l2 None) l = Ret la /\
    fix_prev (hd_or l2 None) (slot_end Head l1) la = Ret lb /\
    events lb !! e = Some (mkEvent (Some (slot_end Head l1)) (hd_or l2 None)) /\
    lc = put_event e fresh_event lb /\ links lc (l1 ++ l2) /\
    same_points l la /\ same_points la lb /\ same_points lb lc.
Proof.
  intros (Hh&Hc&Hnd&Hfresh). apply chain_app in Hc as [Hc1 [He Hc2]].
  split; [done|]. rewrite hd_or_app in Hh. cbn [hd_or] in Hh, Hc1.
  apply NoDup_app in Hnd as (Hnd1&Hd&Hnd2). apply NoDup_cons in Hnd2 as [Hn2 Hnd2].
  assert (He1 : e ∉ l1) by (intros ?; apply (Hd e); set_solver).
  destruct (store_ok l l1 (Some e) (hd_or l2 None) Hh Hc1 Hnd1)
    as (la&->&Hha&Hca&Hfa&Hpa).
  destruct (fix_prev_ok la (NextOf e) (slot_end Head l1) l2) as (lb&Hb&Hhb&Hcb&Hfb&Hpb);
    [|done|].
  { eapply chain_frame; [|exact Hc2]. intros x Hx. apply Hfa. intros ?.
    apply (Hd x); set_solver. }
  assert (Heb : events lb !! e = Some (mkEvent (Some (slot_end Head l1)) (hd_or l2 None)))
    by (by rewrite Hfb, Hfa by done).
  exists la, lb, (put_event e fresh_event lb).
  do 4 (split; [done|]). split; [split; [|split; [|split]]|split_and!; try done].
  - cbn. by rewrite Hhb, Hha, hd_or_app.
  - apply chain_app. split.
    + eapply chain_frame; [|exact Hca]. intros x Hx. cbn.
      rewrite lookup_insert_ne by (intros ->; done). apply Hfb. intros ?.
      apply (Hd x); set_solver.
    + eapply chain_frame; [|exact Hcb]. intros x Hx. cbn.
      by rewrite lookup_insert_ne by (intros ->; done).
  - apply NoDup_app. split; [done|]. split; [|done]. set_solver.
  - intros x ev Hx Hn. cbn in Hx. apply lookup_insert_Some in Hx as [[<- <-]|[Hxe Hx]];
      [done|]. rewrite Hfb, Hfa in Hx by set_solver. eapply Hfresh; [exact Hx|set_solver].
  - by apply put_event_points.
Qed.
End links.

(** ** Positions of the insert points *)
Section positions.
Implicit Types a b : list positive.

Lemma slot_end_app_ne p p' a b : b <> [] -> slot_end p (a ++ b) = slot_end p' b.
Proof.
  destruct b as [|f b _] using rev_ind; [done|]. intros _.
  by rewrite app_assoc, !slot_end_snoc.
Qed.

(** A point behind [a ++ b] when [e] comes between. *)
Lemma insert_slot e a b :
  NoDup (a ++ b) ->
  (if decide (slot_end Head (a ++ b) = slot_end Head a) then NextOf e
   else slot_end Head (a ++ b)) = slot_end Head (a ++ e :: b).
Proof.
  intros Hnd. case_decide as Hs.
  - symmetry in Hs. apply slot_end_inj in Hs as ->; [|done]. by rewrite slot_end_snoc.
  - assert (b <> []) by (intros ->; by rewrite app_nil_r in Hs).
    rewrite cons_middle, app_assoc. rewrite !(slot_end_app_ne _ Head) by done. done.
Qed.

Lemma filter_ne e a : e ∉ a -> filter (.≠ e) a = a.
Proof.
  induction a as [|x a IH]; [done|]. intros [Hx Ha]%not_elem_of_cons.
  rewrite filter_cons_True by done. by rewrite IH.
Qed.

Lemma filter_split e a b : NoDup (a ++ e :: b) -> filter (.≠ e) (a ++ e :: b) = a ++ b.
Proof.
  intros (Ha&Hd&Hb)%NoDup_app. apply NoDup_cons in Hb as [Hb _].
  rewrite filter_app, filter_cons_False by tauto.
  rewrite !filter_ne; [done|done|]. intros ?. apply (Hd e); [done|].
  apply list_elem_of_here.
Qed.

Lemma split_unique e a b a' b' :
  NoDup (a ++ e :: b) -> a ++ e :: b = a' ++ e :: b' -> a = a' /\ b = b'.
Proof.
  revert a'. induction a as [|x a IH]; intros [|x' a']; cbn.
  - intros _ [= ->]. done.
  - intros [Hn _]%NoDup_cons [= -> ->]. exfalso. apply Hn.
    apply elem_of_app. right. apply list_elem_of_here.
  - intros [Hn _]%NoDup_cons [= -> <-]. exfalso. apply Hn.
    apply elem_of_app. right. apply list_elem_of_here.
  - intros [_ Hnd]%NoDup_cons [= -> He]. by destruct (IH a' Hnd He) as [-> ->].
Qed.

(** A point behind [a] when [e] is taken out of the whole list. *)
Lemma remove_slot e a b l1 l2 :
  NoDup (a ++ b) -> a ++ b = l1 ++ e :: l2 ->
  (if decide (slot_end Head a = NextOf e) then slot_end Head l1 else slot_end Head a) =
  slot_end Head (filter (.≠ e) a).
Proof.
  intros Hnd Heq. assert (Hnda : NoDup a) by (by apply NoDup_app in Hnd as (?&_)).
  destruct a as [|f a _] using rev_ind; [done|]. rewrite slot_end_snoc.
  case_decide as Hd.
  - injection Hd as ->. rewrite filter_split by done. rewrite app_nil_r.
    rewrite <- app_assoc in Heq, Hnd. cbn in Heq, Hnd.
    by destruct (split_unique _ _ _ _ _ Hnd Heq) as [-> _].
  - rewrite filter_app, filter_cons_True by congruence. cbn. by rewrite slot_end_snoc.
Qed.

Lemma remove_not_last e a :
  last a <> Some e -> slot_end Head (filter (.≠ e) a) = slot_end Head a.
Proof.
  destruct a as [|f a _] using rev_ind; [done|]. rewrite last_snoc. intros Hl.
  rewrite filter_app, filter_cons_True by congruence. cbn. by rewrite !slot_end_snoc.
Qed.
End positions.

(** ** Refinement *)

(** The loop [l] implements the queue [q]. *)
Definition repr (l : EventLoop) (q : queue) : Prop :=
  links l (items q) /\
  next_insert_point l = slot_end Head (now q) /\
  later_insert_point l = slot_end Head (now q ++ soon q) /\
  tail l = slot_end Head (items q).

(** What no handler changes. *)
Definition same_world (l l' : EventLoop) : Prop :=
  dom (events l') = dom (events l) /\ self l' = self l /\ local_loop l' = local_loop l.

Definition entered (l : EventLoop) : Prop := local_loop l = Some (self l).

Lemma same_world_trans l1 l2 l3 : same_world l1 l2 -> same_world l2 l3 -> same_world l1 l3.
Proof. intros (?&?&?) (?&?&?). split_and!; congruence. Qed.

Lemma same_world_entered l1 l2 : same_world l1 l2 -> entered l1 -> entered l2.
Proof. unfold entered. intros (_&->&->). done. Qed.

Lemma links_ext (l l' : EventLoop) es :
  links l es -> head l' = head l -> events l' = events l -> links l' es.
Proof. unfold links. by intros H -> ->. Qed.

Lemma same_points_fields l l' :
  same_points l l' ->
  tail l' = tail l /\ next_insert_point l' = next_insert_point l /\
  later_insert_point l' = later_insert_point l /\ same_world l l'.
Proof. intros [-> D]. by split_and!. Qed.

Lemma assert_local_ok l : entered l -> assert_local l = Ret tt.
Proof. intros He. unfold assert_local. by rewrite bool_decide_eq_true_2. Qed.

Section refinement.
Implicit Types q : queue.

Lemma items_nodup l q : repr l q -> NoDup (items q).
Proof. by intros ((_&_&?&_)&_). Qed.

Lemma armNext_refines l q e :
  repr l q -> entered l -> e ∈ dom (events l) ->
  exists l', armNext e l = Ret l' /\ repr l' (Queue.arm Next e q) /\ same_world l l'.
Proof.
  intros Hr Hent He. pose proof (items_nodup l q Hr) as Hnd.
  destruct Hr as (Hl&Hn&Hla&Ht). unfold armNext.
  rewrite assert_local_ok, bind_ret, (links_isArmed _ _ _ Hl He), bind_ret by done.
  unfold Queue.arm. case_bool_decide as Hin; destruct (decide (e ∈ items q)); try done.
  { exists l. by split_and!. }
  rewrite Hn. destruct (link_ok l (now q) (soon q ++ rest q) e Hl Hin He)
    as (l1&->&Hl1&Hp). rewrite bind_ret.
  destruct (same_points_fields _ _ Hp) as (Ht1&_&Hla1&Hw).
  eexists; split; [done|]. split; [|by repeat case_decide].
  assert (Hnd2 : NoDup (now q ++ soon q))
    by (unfold items in Hnd; rewrite app_assoc in Hnd; by apply NoDup_app in Hnd as (?&_)).
  unfold repr, items. cbn [now soon rest]. rewrite <- !app_assoc. cbn [app].
  rewrite slot_end_snoc, <- (insert_slot e (now q) (soon q)) by done.
  rewrite <- (insert_slot e (now q) (soon q ++ rest q)) by done.
  split; [eapply links_ext; [exact Hl1| |]; by repeat case_decide|].
  unfold items in Ht. cbn. rewrite Hla1, Hla, <- Ht, <- Ht1.
  destruct (decide (slot_end Head (now q ++ soon q) = slot_end Head (now q)));
    cbn; destruct (decide (tail l1 = slot_end Head (now q))); cbn;
    by rewrite ?Hla1.
Qed.

Lemma armLater_refines l q e :
  repr l q -> entered l -> e ∈ dom (events l) ->
  exists l', armLater e l = Ret l' /\ repr l' (Queue.arm Later e q) /\ same_world l l'.
Proof.
  intros Hr Hent He. pose proof (items_nodup l q Hr) as Hnd.
  destruct Hr as (Hl&Hn&Hla&Ht). unfold armLater.
  rewrite assert_local_ok, bind_ret, (links_isArmed _ _ _ Hl He), bind_ret by done.
  unfold Queue.arm. case_bool_decide as Hin; destruct (decide (e ∈ items q)); try done.
  { exists l. by split_and!. }
  rewrite Hla. unfold items in Hl, Hnd, Hin, Ht. rewrite app_assoc in Hl, Hnd, Hin, Ht.
  destruct (link_ok l (now q ++ soon q) (rest q) e Hl Hin He) as (l1&->&Hl1&Hp).
  rewrite bind_ret. destruct (same_points_fields _ _ Hp) as (Ht1&Hn1&_&Hw).
  eexists; split; [done|]. split; [|by case_decide].
  unfold repr, items. cbn [now soon rest].
  replace (now q ++ (soon q ++ [e]) ++ rest q) with ((now q ++ soon q) ++ e :: rest q)
    by (by rewrite <- !app_assoc).
  rewrite <- insert_slot, app_assoc, slot_end_snoc by done.
  split; [eapply links_ext; [exact Hl1| |]; by case_decide|].
  cbn. rewrite <- Ht, <- Ht1. case_decide; cbn; rewrite ?Hn1; auto.
Qed.

Lemma armLast_refines l q e :
  repr l q -> entered l -> e ∈ dom (events l) ->
  exists l', armLast e l = Ret l' /\ repr l' (Queue.arm Last e q) /\ same_world l l'.
Proof.
  intros Hr Hent He. pose proof (items_nodup l q Hr) as Hnd.
  destruct Hr as (Hl&Hn&Hla&Ht). unfold armLast.
  rewrite assert_local_ok, bind_ret, (links_isArmed _ _ _ Hl He), bind_ret by done.
  unfold Queue.arm. case_bool_decide as Hin; destruct (decide (e ∈ items q)); try done.
  { exists l. by split_and!. }
  rewrite Hla. unfold items in Hl, Hnd, Hin, Ht. rewrite app_assoc in Hl, Hnd, Hin, Ht.
  destruct (link_ok l (now q ++ soon q) (rest q) e Hl Hin He) as (l1&->&Hl1&Hp).
  rewrite bind_ret. destruct (same_points_fields _ _ Hp) as (Ht1&Hn1&Hla1&Hw).
  eexists; split; [done|]. split; [|by case_decide].
  unfold repr, items. cbn [now soon rest]. rewrite app_assoc, <- insert_slot by done.
  split; [eapply links_ext; [exact Hl1| |]; by case_decide|].
  cbn. rewrite <- Ht, <- Ht1. case_decide; cbn; rewrite ?Hn1, ?Hla1; auto.
Qed.

Lemma arm_refines h l q e :
  repr l q -> entered l -> e ∈ dom (events l) ->
  exists l', arm h e l = Ret l' /\ repr l' (Queue.arm h e q) /\ same_world l l'.
Proof.
  destruct h; [apply armNext_refines|apply armLater_refines|apply armLast_refines].
Qed.

(** [disarm] without the insert point it forgets. *)
Lemma disarm_links l q e :
  repr l q -> e ∈ dom (events l) ->
  exists l', disarm e l = Ret l' /\ links l' (items (Queue.remove e q)) /\
    next_insert_point l' = slot_end Head (now (Queue.remove e q)) /\
    tail l' = slot_end Head (items (Queue.remove e q)) /\
    later_insert_point l' = later_insert_point l /\ same_world l l'.
Proof.
  intros Hr He. pose proof (items_nodup l q Hr) as Hnd.
  destruct Hr as (Hl&Hn&_&Ht). apply elem_of_dom in He as [ev He].
  assert (Hrem : items (Queue.remove e q) = filter (.≠ e) (items q))
    by (unfold items; cbn; by rewrite !filter_app).
  unfold disarm, get_event. rewrite He, bind_ret.
  destruct (decide (e ∈ items q)) as [Hin|Hin]; last first.
  { destruct Hl as (Hh&Hc&_&Hf). pose proof (Hf _ _ He Hin) as ->. cbn [prev fresh_event].
    exists l. rewrite Hrem, filter_ne by done. unfold Queue.remove. cbn [now].
    rewrite filter_ne by (unfold items in Hin; set_solver). by split_and!. }
  apply list_elem_of_split in Hin as (l1&l2&Hsplit). pose proof Hl as Hl'.
  rewrite Hsplit in Hl'. rewrite Hrem, Hsplit, filter_split by (by rewrite <- Hsplit).
  destruct (unlink_ok l l1 l2 e Hl') as (He'&_).
  rewrite He in He'. injection He' as ->. cbn [prev next].
  set (lt := if decide (tail l = NextOf e) then _ else l).
  set (ln := if decide (next_insert_point lt = NextOf e) then _ else lt).
  assert (Hln : links ln (l1 ++ e :: l2) /\ tail ln = slot_end Head (l1 ++ l2) /\
    next_insert_point ln = slot_end Head (filter (.≠ e) (now q)) /\
    later_insert_point ln = later_insert_point l /\ same_world l ln).
  { rewrite <- (filter_split e l1 l2), <- Hsplit by (by rewrite <- Hsplit).
    rewrite <- (remove_slot e (items q) [] l1 l2), <- Ht by (by rewrite app_nil_r).
    rewrite <- (remove_slot e (now q) (soon q ++ rest q) l1 l2), <- Hn by done.
    subst ln lt. split; [eapply links_ext; [exact Hl| |]; by repeat case_decide|].
    destruct (decide (tail l = NextOf e)); cbn;
      destruct (decide (next_insert_point l = NextOf e)); by split_and!. }
  destruct Hln as (Hlk&Htn&Hnn&Hlan&Hwn).
  destruct (unlink_ok ln l1 l2 e Hlk) as (_&la&lb&lc&->&Hsb&Heb&->&Hlc&Hpa&Hpb&Hpc).
  rewrite bind_ret, Hsb, bind_ret, (set_prev_ok _ _ _ _ Heb), bind_ret. cbn [next].
  erewrite set_next_ok by (cbn; by rewrite lookup_insert_eq). cbn [prev].
  replace (put_event e _ (put_event e _ lb)) with (put_event e fresh_event lb)
    by (unfold put_event, set_events; cbn; by rewrite insert_insert_eq).
  pose proof (same_points_trans _ _ _ Hpa (same_points_trans _ _ _ Hpb Hpc)) as Hp.
  destruct (same_points_fields _ _ Hp) as (Htc&Hnc&Hlac&Hwc).
  eexists; split; [done|]. rewrite Htc, Hnc, Hlac. split_and!; try done.
  by eapply same_world_trans.
Qed.

Lemma disarm_refines l q e :
  repr l q -> e ∈ dom (events l) -> Queue.at_insert_point e q = false ->
  exists l', disarm e l = Ret l' /\ repr l' (Queue.remove e q) /\ same_world l l'.
Proof.
  intros Hr He Hp. apply bool_decide_eq_false in Hp.
  destruct (disarm_links l q e Hr He) as (l'&->&?&?&?&Hla&?).
  destruct Hr as (_&_&Hla'&_). exists l'. split; [done|]. split; [|done].
  split_and!; try done. cbn. by rewrite Hla, Hla', <- filter_app, remove_not_last.
Qed.

Lemma exec_refines {U} (p : prog U) l q u q' :
  repr l q -> entered l -> legal (dom (events l)) p q -> Queue.exec p q = Some (u, q') ->
  exists l', exec p l = Ret (u, l') /\ repr l' q' /\ same_world l l'.
Proof.
  revert l q. induction p as [u0|h e k IH|e k IH|e k IH]; intros l q Hr He Hm;
    cbn [exec Queue.exec legal] in *.
  - intros [= -> ->]. exists l. by split_and!.
  - destruct Hm as [Hin Hm]. destruct (arm_refines h l q e Hr He Hin) as (l1&->&Hr1&Hw1).
    intros Hx. pose proof Hw1 as (Hd&_). rewrite bind_ret.
    destruct (IH l1 _ Hr1 (same_world_entered _ _ Hw1 He) ltac:(by rewrite Hd) Hx) as (l2&?&?&?).
    exists l2. split_and!; eauto using same_world_trans.
  - destruct Hm as [Hin Hm]. destruct (Queue.at_insert_point e q) eqn:Hp; [done|].
    destruct (disarm_refines l q e Hr Hin Hp) as (l1&->&Hr1&Hw1).
    intros Hx. pose proof Hw1 as (Hd&_). rewrite bind_ret.
    destruct (IH l1 _ Hr1 (same_world_entered _ _ Hw1 He) ltac:(by rewrite Hd) Hx) as (l2&?&?&?).
    exists l2. split_and!; eauto using same_world_trans.
  - destruct Hm as [Hin Hm]. pose proof Hr as (Hl&_).
    rewrite (links_isArmed _ _ _ Hl Hin), bind_ret. by apply IH.
Qed.
End refinement.

(** ** [turn] and [turnLoop] *)
Section turns.
Context {U : Type} (fire : positive -> U -> prog U).
Implicit Types q : queue.

Lemma drop_first_slot e m :
  NoDup (e :: m) ->
  (if decide (slot_end Head (e :: m) = NextOf e) then Head else slot_end Head (e :: m)) =
  slot_end Head m.
Proof.
  intros Hnd. pose proof (remove_slot e (e :: m) [] [] m) as Hr.
  rewrite app_nil_r in Hr. specialize (Hr Hnd eq_refl).
  change (slot_end Head []) with Head in Hr. rewrite Hr.
  change (e :: m) with ([] ++ e :: m) in Hnd |- * at 1.
  by rewrite (filter_split e [] m Hnd).
Qed.

Lemma pop_items q e q1 :
  Queue.pop q = Some (e, q1) -> items q = e :: items q1 /\ now q1 = [] /\
  (now q ++ soon q = e :: soon q1 \/ now q ++ soon q = [] /\ soon q1 = []).
Proof.
  unfold Queue.pop, items. rewrite app_assoc.
  destruct (now q ++ soon q) as [|x m]; [destruct (rest q) as [|y r]|]; intros [= <- <-];
    cbn; auto.
Qed.

Lemma pop_None q : Queue.pop q = None -> items q = [].
Proof.
  unfold Queue.pop, items. rewrite app_assoc.
  by destruct (now q ++ soon q); destruct (rest q).
Qed.

(** [turn] up to the call of [fire]. *)
Lemma turn_pops u l q e q1 :
  repr l q -> Queue.pop q = Some (e, q1) ->
  exists l1, repr l1 q1 /\ same_world l l1 /\
    turn fire u l = '(u, l) ← exec (fire e u) l1; Ret (true, u, l).
Proof.
  intros Hr Hp. pose proof (items_nodup l q Hr) as Hnd.
  destruct (pop_items _ _ _ Hp) as (Hit&Hnow&Hsoon).
  destruct Hr as (Hl&_&Hla&Ht). pose proof Hl as (Hh&_).
  rewrite Hit in Hl, Hh, Ht, Hnd. cbn [hd_or] in Hh.
  destruct (unlink_ok l [] (items q1) e Hl) as (He&la&lb&lc&Hst&Hsb&Heb&->&Hlc&Hpa&Hpb&Hpc).
  injection Hst as <-. change (slot_end Head []) with Head in *.
  pose proof (same_points_trans _ _ _ Hpa (same_points_trans _ _ _ Hpb Hpc)) as Hpt.
  destruct (same_points_fields _ _ Hpt) as (Htc&_&Hlac&Hwc).
  unfold turn. rewrite Hh. unfold get_event at 1. rewrite He, bind_ret.
  cbn [next head set_head]. rewrite Hsb, bind_ret.
  set (ln := set_next_insert Head lb).
  set (lp := if decide (later_insert_point ln = NextOf e) then _ else ln).
  set (lt := if decide (tail lp = NextOf e) then _ else lp).
  assert (Hev : events lt = events lb /\ head lt = head lb /\ tail lt = slot_end Head (items q1) /\
    later_insert_point lt = slot_end Head (soon q1) /\ next_insert_point lt = Head /\
    self lt = self lb /\ local_loop lt = local_loop lb).
  { rewrite <- (drop_first_slot e (items q1)), <- Ht, <- Htc by done.
    assert (Hls : (if decide (later_insert_point l = NextOf e) then Head
                   else later_insert_point l) = slot_end Head (soon q1)).
    { rewrite Hla. destruct Hsoon as [->|[-> ->]]; [|done].
      apply drop_first_slot. unfold items in Hit, Hnd. rewrite Hnow in Hnd.
      cbn in Hnd. rewrite app_comm_cons in Hnd. by apply NoDup_app in Hnd as (?&_). }
    rewrite <- Hls, <- Hlac. subst lt lp ln.
    cbn [later_insert_point set_next_insert put_event set_events tail].
    destruct (decide (later_insert_point lb = NextOf e)) as [E1|E1];
      cbn [tail set_later_insert set_next_insert];
      destruct (decide (tail lb = NextOf e)) as [E2|E2]; cbn; by split_and!. }
  destruct Hev as (Hev&Hhd&Htl&Hlat&Hnt&Hse&Hlo).
  assert (Het : events lt !! e = Some (mkEvent (Some Head) (hd_or (items q1) None)))
    by (by rewrite Hev).
  rewrite (set_next_ok _ _ _ _ Het), bind_ret. cbn [prev].
  erewrite set_prev_ok by (cbn; by rewrite lookup_insert_eq). rewrite bind_ret. cbn [next].
  eexists. split; [|split; [|done]].
  - split; [|split_and!; cbn; try done].
    + eapply links_ext; [exact Hlc|done|]. cbn. by rewrite Hev, insert_insert_eq.
    + by rewrite Hnow.
    + by rewrite Hnow.
  - destruct Hwc as (Hd&Hs&Hlw). split_and!; cbn in *.
    + by rewrite Hev, insert_insert_eq.
    + by rewrite Hse.
    + by rewrite Hlo.
Qed.

Lemma turn_refines u l q e q1 u' q2 :
  repr l q -> entered l -> Queue.pop q = Some (e, q1) ->
  legal (dom (events l)) (fire e u) q1 -> Queue.exec (fire e u) q1 = Some (u', q2) ->
  exists l', turn fire u l = Ret (true, u', l') /\ repr l' q2 /\ same_world l l'.
Proof.
  intros Hr He Hp Hm Hx. destruct (turn_pops u l q e q1 Hr Hp) as (l1&Hr1&Hw1&->).
  pose proof Hw1 as (Hd&_).
  destruct (exec_refines (fire e u) l1 q1 u' q2 Hr1 (same_world_entered _ _ Hw1 He))
    as (l2&->&Hr2&Hw2); [by rewrite Hd|done|].
  rewrite bind_ret. exists l2. split_and!; eauto using same_world_trans.
Qed.

Lemma turn_loop_refines steps u l q u' q' :
  repr l q -> entered l -> legal_run (dom (events l)) fire steps u q ->
  Queue.run fire steps u q = Some (u', q') ->
  exists l', turn_loop fire steps u l = Ret (true, u', l') /\ repr l' q' /\
    same_world l l'.
Proof.
  revert u l q. induction steps as [|steps IH]; intros u l q Hr He Hm;
    cbn [Queue.run turn_loop legal_run] in *.
  { intros [= <- <-]. exists l. by split_and!. }
  destruct (Queue.pop q) as [[e q1]|] eqn:Hp.
  - destruct (Queue.exec (fire e u) q1) as [[u1 q2]|] eqn:Hx; [|done]. cbn.
    intros Hrun. destruct Hm as [Hm Hlr]. specialize (Hlr u1 q2 eq_refl).
    destruct (turn_refines u l q e q1 u1 q2 Hr He Hp Hm Hx)
      as (l1&Ht&Hr1&Hw1).
    pose proof Hw1 as (Hd&_). destruct (pop_items _ _ _ Hp) as (Hit&_).
    destruct Hr as ((Hh&_)&_). rewrite Hit in Hh. cbn in Hh. rewrite Hh, Ht, bind_ret.
    destruct (IH u1 l1 q2 Hr1 (same_world_entered _ _ Hw1 He) ltac:(by rewrite Hd) Hrun)
      as (l2&?&?&?).
    exists l2. split_and!; eauto using same_world_trans.
  - intros [= <- <-]. apply pop_None in Hp. destruct Hr as (Hl&Hpts). pose proof Hl as (Hh&_).
    rewrite Hp in Hh. cbn in Hh. rewrite Hh. exists l. by split_and!.
Qed.
End turns.
