(* ===== verification/EventTheory.v ===== *)
(** What the event loop guarantees to its clients: arming and disarming act on
    the queue of [EventQueue.v], whole turns simulate it, events fire in order
    and without starvation; and the insert point that [Event::disarm] forgets. *)

From S2P Require Import Prelude.
From stdpp Require Import gmap list.
From S2P Require Import EventLoop EventQueue.

(** A loop with the events 1 to 4 alive, entered. *)
Definition sample_loop : EventLoop :=
  set_local (Some 1%positive)
    (create_event 4 (create_event 3 (create_event 2 (create_event 1 (new_loop 1))))).

Lemma sample_loop_repr : repr sample_loop empty_queue.
Proof.
  split; [|done]. split; [done|]. split; [done|]. split; [constructor|].
  intros x ev Hx _. cbn in Hx.
  repeat (apply lookup_insert_Some in Hx as [[_ <-]|[_ Hx]]; [done|]).
  by rewrite lookup_empty in Hx.
Qed.

(** The sample loop after arming 1 and 2 later and 3 last. *)
Definition armed_loop : EventLoop :=
  match exec (Arm Later 1 (Arm Later 2 (Arm Last 3 (Done tt)))) sample_loop with
  | Ret (_, l) => l
  | Halt _ => sample_loop
  end.

Lemma armed_loop_repr :
  repr armed_loop (mkQueue [] [1%positive; 2%positive] [3%positive]) /\ entered armed_loop /\
  dom (events armed_loop) = dom (events sample_loop).
Proof.
  destruct (exec_refines (Arm Later 1 (Arm Later 2 (Arm Last 3 (Done tt)))) sample_loop
    empty_queue tt (mkQueue [] [1%positive; 2%positive] [3%positive]) sample_loop_repr)
    as (l&Hl&Hr&Hw).
  - reflexivity.
  - cbn. set_solver.
  - reflexivity.
  - unfold armed_loop. rewrite Hl. split; [done|]. split; [|apply Hw].
    by eapply same_world_entered.
Qed.

(** ** Order and fairness *)
Section fairness.
Context {U : Type} (fire : positive -> U -> prog U) (log : U -> list positive).

(** A handler that neither jumps the queue nor disarms. *)
Fixpoint polite (p : prog U) : Prop :=
  match p with
  | Done _ => True
  | Arm Next _ _ | Disarm _ _ => False
  | Arm _ _ k => polite k
  | IsArmed _ k => forall b, polite (k b)
  end.

(** [log] records the events that fire. *)
Fixpoint results (P : U -> Prop) (p : prog U) : Prop :=
  match p with
  | Done u => P u
  | Arm _ _ k | Disarm _ k => results P k
  | IsArmed _ k => forall b, results P (k b)
  end.

Lemma exec_results (P : U -> Prop) p q u q' :
  results P p -> Queue.exec p q = Some (u, q') -> P u.
Proof.
  revert q. induction p as [u0|h e k IH|e k IH|e k IH]; intros q; cbn.
  - by intros ? [= <- <-].
  - eauto.
  - destruct (Queue.at_insert_point e q); [done|]. eauto.
  - eauto.
Qed.

(** Polite handlers keep what is queued in front, in order. *)
Lemma exec_polite p q a :
  polite p -> now q = [] -> soon q = a ->
  exists u q' b, Queue.exec p q = Some (u, q') /\ now q' = [] /\ soon q' = a ++ b.
Proof.
  revert q a. induction p as [u0|h e k IH|e k IH|e k IH]; intros q a; cbn; try done.
  - intros _ Hn Hs. exists u0, q, []. by rewrite app_nil_r.
  - destruct h; [done| |]; intros Hp Hn Hs; unfold Queue.arm; case_decide; try by apply IH.
    + destruct (IH (mkQueue (now q) (soon q ++ [e]) (rest q)) (a ++ [e]) Hp Hn)
        as (u&q'&b&?&?&?); [by rewrite <- Hs|].
      exists u, q', (e :: b). split_and!; try done.
      by rewrite (cons_middle e), app_assoc.
  - intros Hp Hn Hs. by apply IH.
Qed.

Lemma run_polite a e b u q :
  (forall e u, polite (fire e u)) ->
  (forall e u, results (fun u' => log u' = log u ++ [e]) (fire e u)) ->
  now q ++ soon q = a ++ e :: b ->
  exists u' q', Queue.run fire (S (length a)) u q = Some (u', q') /\
    log u' = log u ++ a ++ [e].
Proof.
  intros Hp Hlog. revert u q b. induction a as [|x a IH]; intros u q b Hq.
  - cbn [length Queue.run]. unfold Queue.pop. rewrite Hq. cbn.
    destruct (exec_polite (fire e u) (mkQueue [] b (rest q)) b (Hp e u) eq_refl eq_refl)
      as (u'&q'&c&Hx&_).
    rewrite Hx. cbn. exists u', q'. split; [done|].
    exact (exec_results _ _ _ _ _ (Hlog e u) Hx).
  - cbn [length]. cbn [Queue.run]. unfold Queue.pop. rewrite Hq. cbn [app].
    destruct (exec_polite (fire x u) (mkQueue [] (a ++ e :: b) (rest q)) (a ++ e :: b)
      (Hp x u) eq_refl eq_refl) as (u1&q1&c&Hx&Hn&Hs).
    rewrite Hx. cbn [mbind option_bind].
    destruct (IH u1 q1 (b ++ c)) as (u'&q'&Hr&Hl).
    { rewrite Hn, Hs. by rewrite <- app_assoc. }
    exists u', q'. split; [exact Hr|].
    rewrite Hl, (exec_results _ _ _ _ _ (Hlog x u) Hx). by rewrite <- !app_assoc.
Qed.
End fairness.

Lemma run_drains q u steps :
  (length (items q) <= steps)%nat ->
  Queue.run (fun e log => Done (log ++ [e])) steps u q = Some (u ++ items q, empty_queue).
Proof.
  revert u q. induction steps as [|steps IH]; intros u q Hl.
  { assert (Hi : items q = []) by (apply length_zero_iff_nil; lia).
    rewrite Hi, app_nil_r. destruct q as [[] [] []]; done. }
  cbn [Queue.run]. destruct (Queue.pop q) as [[e q1]|] eqn:Hp.
  - destruct (pop_items _ _ _ Hp) as (Hi&_). rewrite Hi in Hl |- *. cbn in Hl |- *.
    rewrite IH by lia. by rewrite <- app_assoc.
  - pose proof (pop_None _ Hp) as Hi. rewrite Hi, app_nil_r.
    by destruct q as [[] [] []].
Qed.

(** ** The insert point that [disarm] forgets *)
Section dangling.
Implicit Types q : queue.

(** After disarming the event in front of [later_insert_point], the point still
    is the [next] of that event, which is not in the list any more. *)
Lemma disarm_insert_point l q e :
  repr l q -> Queue.at_insert_point e q = true ->
  exists l1, disarm e l = Ret l1 /\ links l1 (items (Queue.remove e q)) /\
    later_insert_point l1 = NextOf e /\ events l1 !! e = Some fresh_event /\
    tail l1 <> NextOf e /\ same_world l l1.
Proof.
  intros Hr Hp. apply bool_decide_eq_true in Hp.
  assert (Hin : e ∈ items q).
  { unfold items. rewrite app_assoc. apply elem_of_app. left.
    by apply last_Some_elem_of. }
  assert (He : e ∈ dom (events l)).
  { destruct Hr as ((_&Hc&_)&_). apply list_elem_of_split in Hin as (a&b&Hs).
    rewrite Hs in Hc. apply chain_app in Hc as [_ [He _]].
    apply elem_of_dom. by eexists. }
  destruct (disarm_links l q e Hr He) as (l1&Hd&Hl1&_&Ht&Hla&Hw).
  destruct Hr as (_&_&Hla'&_). exists l1. split; [done|]. split; [done|].
  assert (Hni : e ∉ items (Queue.remove e q)).
  { unfold items, Queue.remove. cbn. rewrite <- !filter_app.
    intros [? _]%list_elem_of_filter. done. }
  split; [|split; [|split; [|done]]].
  - rewrite Hla, Hla'. unfold slot_end. by rewrite Hp.
  - destruct Hw as (Hdom&_). rewrite <- Hdom in He. apply elem_of_dom in He as [ev Hev].
    rewrite Hev. f_equal. destruct Hl1 as (_&_&_&Hf). by eapply Hf.
  - rewrite Ht. unfold slot_end.
    destruct (last (items (Queue.remove e q))) as [x|] eqn:Hx; [|done].
    intros [= ->]. by apply last_Some_elem_of in Hx.
Qed.

(** Arming another event later then links it to the disarmed one. *)
Lemma armLater_dangling l es e f :
  links l es -> entered l -> later_insert_point l = NextOf e ->
  events l !! e = Some fresh_event -> e ∉ es -> tail l <> NextOf e ->
  f ∈ dom (events l) -> f ∉ es -> f <> e ->
  exists l', armLater f l = Ret l' /\ isArmed f l' = Ret true /\ head l' = head l /\
    (forall x, x ∈ es -> events l' !! x = events l !! x) /\ entered l' /\
    dom (events l') = dom (events l).
Proof.
  intros Hl Hent Hla He Hne Ht Hf Hnf Hfe. unfold armLater.
  rewrite assert_local_ok, bind_ret, (links_isArmed _ _ _ Hl Hf), bind_ret by done.
  rewrite bool_decide_eq_false_2 by done. rewrite Hla.
  destruct Hl as (_&_&_&Hfresh). apply elem_of_dom in Hf as [ev Hf].
  pose proof (Hfresh _ _ Hf Hnf) as ->.
  unfold link. cbn [load]. unfold get_event at 1. rewrite He, !bind_ret.
  cbn [next fresh_event]. rewrite (set_next_ok _ _ _ _ Hf), bind_ret. cbn [prev].
  erewrite set_prev_ok by (cbn; by rewrite lookup_insert_eq). rewrite bind_ret.
  cbn [next store].
  erewrite set_next_ok by (cbn; rewrite !lookup_insert_ne by done; exact He).
  rewrite bind_ret. cbn [fix_prev prev fresh_event]. rewrite bind_ret.
  rewrite decide_False by done.
  eexists; split; [done|]. unfold isArmed, get_event. cbn.
  rewrite lookup_insert_ne, lookup_insert_eq by done. split_and!; try done.
  - intros x Hx. rewrite !lookup_insert_ne; [done|..]; intros ->; done.
  - rewrite !dom_insert_L. apply elem_of_dom_2 in He, Hf. set_solver.
Qed.
End dangling.

(** ** Properties *)

(** C19: on a loop that implements a queue, [armNext], [armLater] and [armLast]
    succeed and implement the queue's: an armed event stays where it is, another
    one goes behind those armed with [armNext] since the last turn, behind those
    armed with [armLater], or in front of those armed with [armLast]. *)
Theorem event_arm_refines (l : EventLoop) (q : queue) (h : how) (e : positive) :
  repr l q -> entered l -> e ∈ dom (events l) ->
  exists l', arm h e l = Ret l' /\ repr l' (Queue.arm h e q) /\ same_world l l' /\
    isArmed e l' = Ret true.
Proof.
  intros Hr He Hin. destruct (arm_refines h l q e Hr He Hin) as (l'&->&Hr'&Hw).
  exists l'. split_and!; try done. pose proof Hw as (Hd&_). pose proof Hr' as (Hl'&_).
  rewrite (links_isArmed _ _ _ Hl') by (by rewrite Hd). f_equal.
  apply bool_decide_eq_true. unfold Queue.arm. case_decide; [done|].
  unfold items. destruct h; cbn; set_solver.
Qed.

Lemma event_arm_refines_witness :
  exists l', arm Next 4 armed_loop = Ret l' /\
    repr l' (Queue.arm Next 4 (mkQueue [] [1%positive; 2%positive] [3%positive])) /\
    same_world armed_loop l' /\ isArmed 4 l' = Ret true.
Proof.
  destruct armed_loop_repr as (Hr&He&Hd).
  apply (event_arm_refines armed_loop (mkQueue [] [1%positive; 2%positive] [3%positive])
    Next 4 Hr He).
  rewrite Hd. cbn. set_solver.
Defined.

(** C7: for any handlers that only mention living events and do not disarm the
    event at the insert point, [wait] and [poll] simulate the queue: after what
    the event port arms, up to 65536 events are taken from the front and their
    handlers applied, and the loop implements the queue that results. *)
Theorem event_loop_refines {U} (fire : positive -> U -> prog U) (port : option (U -> prog U))
    (l : EventLoop) (q q1 q' : queue) (u u1 u' : U) :
  repr l q -> entered l ->
  (forall e u, mentions (dom (events l)) (fire e u)) ->
  (match port with
   | Some poll => mentions (dom (events l)) (poll u) /\ Queue.exec (poll u) q = Some (u1, q1)
   | None => u1 = u /\ q1 = q
   end) ->
  Queue.run fire (Z.to_nat 65536) u1 q1 = Some (u', q') ->
  exists l', wait fire port u l = Ret (true, u', l') /\ repr l' q' /\ same_world l l'.
Proof.
  intros Hr He Hm Hport Hrun. unfold wait, turnLoop.
  assert (Hone : exists l1,
    match port with Some poll => exec (poll u) l | None => Ret (u, l) end = Ret (u1, l1) /\
    repr l1 q1 /\ same_world l l1).
  { destruct port as [poll|].
    - destruct Hport as [Hmp Hx]. apply (exec_refines (poll u) l q); try done.
      by apply mentions_legal.
    - destruct Hport as [-> ->]. exists l. by split_and!. }
  destruct Hone as (l1&->&Hr1&Hw1). rewrite bind_ret. pose proof Hw1 as (Hd&_).
  destruct (turn_loop_refines fire (Z.to_nat 65536) u1 l1 q1 u' q' Hr1
    (same_world_entered _ _ Hw1 He) ltac:(rewrite Hd; by apply mentions_legal_run) Hrun)
    as (l2&?&?&?).
  exists l2. split_and!; eauto using same_world_trans.
Qed.

Lemma event_loop_refines_witness :
  let fire e (u : list positive) :=
    if decide (e = 1%positive) then Arm Next 4 (Done (u ++ [e])) else Done (u ++ [e]) in
  exists l', wait fire None [] armed_loop = Ret (true, [1; 4; 2; 3]%positive, l') /\
    repr l' empty_queue /\ same_world armed_loop l'.
Proof.
  destruct armed_loop_repr as (Hr&He&Hd).
  apply (event_loop_refines
    (fun e (u : list positive) =>
      if decide (e = 1%positive) then Arm Next 4 (Done (u ++ [e])) else Done (u ++ [e]))
    None armed_loop (mkQueue [] [1%positive; 2%positive] [3%positive])
    (mkQueue [] [1%positive; 2%positive] [3%positive]) empty_queue [] [] _ Hr He).
  - intros e u. rewrite Hd. case_decide; cbn; set_solver.
  - done.
  - vm_compute. reflexivity.
Defined.

(** C21: when no handler touches the loop and no more than 65536 events are
    armed, one [wait] fires all of them, in the order of the queue, and leaves
    none armed. *)
Theorem event_loop_drains (l : EventLoop) (q : queue) (log : list positive) :
  repr l q -> entered l -> (length (items q) <= Z.to_nat 65536)%nat ->
  exists l', wait (fun e log => Done (log ++ [e])) None log l =
      Ret (true, log ++ items q, l') /\ repr l' empty_queue.
Proof.
  intros Hr He Hlen. unfold wait, turnLoop. rewrite bind_ret.
  destruct (turn_loop_refines (fun e log => Done (log ++ [e])) (Z.to_nat 65536) log l q
    (log ++ items q) empty_queue Hr He) as (l'&?&?&_);
    [by apply mentions_legal_run|by apply run_drains|].
  by exists l'.
Qed.

Lemma event_loop_drains_witness :
  exists l', wait (fun e log => Done (log ++ [e])) None [] armed_loop =
      Ret (true, [1; 2; 3]%positive, l') /\ repr l' empty_queue.
Proof.
  destruct armed_loop_repr as (Hr&He&_).
  apply (event_loop_drains armed_loop (mkQueue [] [1%positive; 2%positive] [3%positive]) []
    Hr He). apply Nat2Z.inj_le. vm_compute. discriminate.
Defined.

(** C20: an event armed with [armNext] or [armLater] is not starved: if handlers
    neither use [armNext] nor disarm, whatever else they arm, the event with [n]
    events in front of it fires in turn [n + 1], and those in front fire before
    it, in order. *)
Theorem event_loop_fair {U} (fire : positive -> U -> prog U) (log : U -> list positive)
    (l : EventLoop) (q : queue) (a b : list positive) (e : positive) (u : U) :
  repr l q -> entered l ->
  (forall e u, mentions (dom (events l)) (fire e u)) ->
  (forall e u, polite (fire e u)) ->
  (forall e u, results (fun u' => log u' = log u ++ [e]) (fire e u)) ->
  now q ++ soon q = a ++ e :: b ->
  exists u' l', turn_loop fire (S (length a)) u l = Ret (true, u', l') /\
    log u' = log u ++ a ++ [e].
Proof.
  intros Hr He Hm Hp Hlog Hq.
  destruct (run_polite fire log a e b u q Hp Hlog Hq) as (u'&q'&Hrun&Hl).
  destruct (turn_loop_refines fire _ u l q u' q' Hr He
    (mentions_legal_run _ _ _ _ _ Hm) Hrun) as (l'&?&_).
  by exists u', l'.
Qed.

Lemma event_loop_fair_witness :
  exists u' l', turn_loop (fun e u => Arm Later 1 (Arm Last 4 (Done (u ++ [e])))) 2 []
      armed_loop = Ret (true, u', l') /\ u' = [] ++ [1%positive] ++ [2%positive].
Proof.
  destruct armed_loop_repr as (Hr&He&Hd).
  apply (event_loop_fair (fun e u => Arm Later 1 (Arm Last 4 (Done (u ++ [e]))))
    (fun u => u) armed_loop (mkQueue [] [1%positive; 2%positive] [3%positive])
    [1%positive] [] 2 [] Hr He).
  - intros e u. rewrite Hd. cbn. set_solver.
  - done.
  - done.
  - reflexivity.
Defined.

(** C22: disarming, except for the event right in front of the later insert
    point, takes the event out of the queue wherever it is and leaves the order
    of the others; disarming an event that is not armed changes nothing. *)
Theorem event_disarm_refines (l : EventLoop) (q : queue) (e : positive) :
  repr l q -> e ∈ dom (events l) -> last (now q ++ soon q) <> Some e ->
  exists l', disarm e l = Ret l' /\ repr l' (Queue.remove e q) /\ same_world l l' /\
    isArmed e l' = Ret false /\ (e ∉ items q -> l' = l).
Proof.
  intros Hr He Hp.
  destruct (disarm_refines l q e Hr He) as (l'&Hd&Hr'&Hw);
    [by apply bool_decide_eq_false|].
  exists l'. split_and!; try done.
  - pose proof Hw as (Hdom&_). pose proof Hr' as (Hl'&_).
    rewrite (links_isArmed _ _ _ Hl') by (by rewrite Hdom). f_equal.
    apply bool_decide_eq_false. unfold items, Queue.remove. cbn.
    rewrite <- !filter_app. intros [? _]%list_elem_of_filter. done.
  - intros Hni. pose proof Hr as ((_&_&_&Hf)&_). apply elem_of_dom in He as [ev Hev].
    unfold disarm, get_event in Hd. rewrite Hev, (Hf _ _ Hev Hni) in Hd.
    by injection Hd.
Qed.

Lemma event_disarm_refines_witness :
  exists l', disarm 1 armed_loop = Ret l' /\
    repr l' (Queue.remove 1 (mkQueue [] [1%positive; 2%positive] [3%positive])) /\
    same_world armed_loop l' /\ isArmed 1 l' = Ret false /\
    (1%positive ∉ items (mkQueue [] [1%positive; 2%positive] [3%positive]) ->
     l' = armed_loop).
Proof.
  destruct armed_loop_repr as (Hr&He&Hd).
  apply (event_disarm_refines armed_loop (mkQueue [] [1%positive; 2%positive] [3%positive])
    1 Hr).
  - rewrite Hd. cbn. set_solver.
  - discriminate.
Defined.

(** [disarm] leaves [later_insert_point] at the event it takes out.  If
    another event is armed later next, it is linked behind the disarmed event
    and not into the queue: [isArmed] says yes, so that it is never armed again,
    and no [wait] fires it; if the disarmed event was destroyed instead,
    [armLater] writes to its freed memory. *)
Lemma event_disarm_dangling (l : EventLoop) (q : queue) (e f : positive) :
  repr l q -> entered l -> last (now q ++ soon q) = Some e ->
  f ∈ dom (events l) -> f ∉ items q ->
  (exists l1 l2, disarm e l = Ret l1 /\ armLater f l1 = Ret l2 /\
     isArmed f l2 = Ret true /\ (forall h, arm h f l2 = Ret l2) /\
     head l2 = hd_or (items (Queue.remove e q)) None /\
     chain (events l2) Head (items (Queue.remove e q)) None /\
     f ∉ items (Queue.remove e q)) /\
  (exists l1, destroy_event e l = Ret l1 /\ armLater f l1 = Halt UndefinedBehaviour).
Proof.
  intros Hr Hent Hlast Hf Hnf.
  assert (Hei : e ∈ items q).
  { unfold items. rewrite app_assoc. apply elem_of_app. left. by apply last_Some_elem_of. }
  assert (Hfe : f <> e) by (by intros ->).
  destruct (disarm_insert_point l q e Hr) as (l1&Hd&Hl1&Hla&Hev&Htl&Hw);
    [by apply bool_decide_eq_true|].
  assert (Hsub : forall x, x ∈ items (Queue.remove e q) -> x ∈ items q /\ x <> e).
  { intros x. unfold items, Queue.remove. cbn. rewrite <- !filter_app.
    intros [? ?]%list_elem_of_filter. done. }
  pose proof (same_world_entered _ _ Hw Hent) as Hent1. pose proof Hw as (Hdom&_).
  assert (Hnf1 : f ∉ items (Queue.remove e q)) by (intros Hx; by apply Hsub in Hx as [? _]).
  assert (Hne1 : e ∉ items (Queue.remove e q)) by (intros Hx; by apply Hsub in Hx as [_ ?]).
  split.
  - destruct (armLater_dangling l1 _ e f Hl1 Hent1 Hla Hev Hne1 Htl) as
      (l2&Ha&Harm&Hh&Hfr&Hent2&_); [by rewrite Hdom|done|done|].
    exists l1, l2. split_and!; try done.
    + intros h. assert (Hno : forall k, (_ ← assert_local l2; armed ← isArmed f l2;
        if armed : bool then Ret l2 else k) = Ret l2)
        by (intros k; by rewrite assert_local_ok, bind_ret, Harm).
      destruct h; apply Hno.
    + rewrite Hh. apply Hl1.
    + eapply chain_frame; [exact Hfr|apply Hl1].
  - unfold destroy_event. rewrite Hd, bind_ret. eexists; split; [done|].
    set (ld := set_events _ l1). unfold armLater.
    rewrite (assert_local_ok ld), bind_ret by done.
    assert (Hfd : events ld !! f = Some fresh_event).
    { cbn. rewrite lookup_delete_ne by done. rewrite <- Hdom in Hf.
      apply elem_of_dom in Hf as [ev Hfv]. rewrite Hfv. f_equal.
      destruct Hl1 as (_&_&_&Hfresh). by eapply Hfresh. }
    unfold isArmed, get_event at 1. rewrite Hfd. cbn [mbind outcome_bind prev fresh_event].
    change (later_insert_point ld) with (later_insert_point l1). rewrite Hla.
    unfold link. cbn [load]. unfold get_event. cbn. by rewrite lookup_delete_eq.
Qed.

Lemma event_disarm_dangling_witness :
  (exists l1 l2, disarm 2 armed_loop = Ret l1 /\ armLater 4 l1 = Ret l2 /\
     isArmed 4 l2 = Ret true /\ (forall h, arm h 4 l2 = Ret l2) /\
     head l2 = Some 1%positive /\
     chain (events l2) Head [1%positive; 3%positive] None /\
     4%positive ∉ [1%positive; 3%positive]) /\
  (exists l1, destroy_event 2 armed_loop = Ret l1 /\
     armLater 4 l1 = Halt UndefinedBehaviour).
Proof.
  destruct armed_loop_repr as (Hr&He&Hd).
  apply (event_disarm_dangling armed_loop (mkQueue [] [1%positive; 2%positive] [3%positive])
    2 4 Hr He).
  - reflexivity.
  - rewrite Hd. cbn. set_solver.
  - cbn. set_solver.
Defined.

(** [turn] fires exactly when an event is armed, and [turnLoop], hence every
    [wait] and [poll] that returns, returns [true]. *)
Lemma event_turn_result {U} (fire : positive -> U -> prog U) (port : option (U -> prog U))
    (u : U) (l : EventLoop) :
  match turn fire u l with
  | Ret (b, _, _) => b = bool_decide (is_Some (head l))
  | Halt _ => is_Some (head l)
  end /\
  match wait fire port u l with Ret (b, _, _) => b = true | Halt _ => True end.
Proof.
  assert (Hturn : forall u l, match turn fire u l with
    | Ret (b, _, _) => b = bool_decide (is_Some (head l)) | Halt _ => is_Some (head l) end).
  { clear. intros u l. unfold turn. destruct (head l) as [e|]; [|done].
    destruct (_ ≫= _) as [[[b u'] l']|f] eqn:Ht; [|done].
    do 4 (apply bind_Ret_inv in Ht as (?&_&Ht)).
    apply bind_Ret_inv in Ht as ([u2 l2]&_&Ht). by injection Ht as <- _ _. }
  split; [apply Hturn|]. unfold wait.
  destruct (match port with Some poll => _ | None => _ end) as [[u1 l1]|]; [|done].
  rewrite bind_ret. unfold turnLoop. generalize (Z.to_nat 65536) as steps. intros steps.
  revert u1 l1. induction steps as [|steps IH]; intros u1 l1; cbn; [done|].
  destruct (head l1) eqn:Hh; [|done]. specialize (Hturn u1 l1).
  destruct (turn fire u1 l1) as [[[more u2] l2]|] eqn:Ht; [|done]. cbn.
  rewrite Hturn, Hh. rewrite bool_decide_eq_true_2 by eauto. apply IH.
Qed.

(** A [WaitScope] around any number of polls: the loop implements what its handlers
    make of the queue, nobody else can enter a loop on the thread or destroy this
    one meanwhile, and the destructor leaves the thread as it was. *)
Lemma wait_scope_bracket {U} (fire : positive -> U -> prog U) (l : EventLoop) (q q' : queue)
    (u u' : U) (other : EventLoop) :
  repr l q -> local_loop l = None ->
  legal_run (dom (events l)) fire (Z.to_nat 65536) u q ->
  Queue.run fire (Z.to_nat 65536) u q = Some (u', q') ->
  exists l1 l2 l3,
    WaitScope_new l = Ret l1 /\ EventLoop_drop l1 = Halt AssertionFailed /\
    (local_loop other = local_loop l1 -> WaitScope_new other = Halt AssertionFailed) /\
    WaitScope_poll fire None u l1 = Ret (u', l2) /\
    WaitScope_drop l2 = Ret l3 /\ repr l3 q' /\ local_loop l3 = None /\
    EventLoop_drop l3 = Ret tt.
Proof.
  intros Hr Hl Hlegal Hrun. set (l1 := set_local (Some (self l)) l).
  destruct (turn_loop_refines fire (Z.to_nat 65536) u l1 q u' q' Hr eq_refl Hlegal Hrun)
    as (l2&Ht&Hr2&(_&Hs&Hl2)).
  exists l1, l2, (set_local None l2). split_and!.
  - unfold WaitScope_new, enterScope. rewrite Hl. reflexivity.
  - unfold EventLoop_drop. rewrite bool_decide_false; [reflexivity|].
    intros H. apply H. reflexivity.
  - intros Ho. unfold WaitScope_new, enterScope. rewrite Ho. reflexivity.
  - assert (Hw : wait fire None u l1 = Ret (true, u', l2)).
    { unfold wait, turnLoop. rewrite bind_ret. exact Ht. }
    unfold WaitScope_poll, EventLoop_poll. cbn [fmap option_fmap option_map].
    rewrite Hw. reflexivity.
  - unfold WaitScope_drop, leaveScope. rewrite Hl2, Hs. cbn.
    rewrite bool_decide_true; reflexivity.
  - exact Hr2.
  - reflexivity.
  - reflexivity.
Qed.
