(* ===== verification/IoHelpers.v ===== *)
(** Model of [source/forstio/io_helpers.h] and [io_helpers.cpp]: the loops that
    move one read or write task over a non-blocking stream, and of the task
    handling of [AsyncIoStream] in [io.cpp].

    The stream below is a parameter: what [InputStream::read] and
    [OutputStream::write] answer.  The caller's memory is a list of bytes and the
    [buffer] of a task an offset into it.  A feeder is the list of what was fed
    to it. *)

From S2P Require Import Prelude Error.

(** What a [ConveyorFeeder<size_t>] received. *)
Inductive fed :=
| Fed (n : Z)
| Failed (error : Error).

(** [if (feeder) feeder->...] *)
Definition notify (x : fed) (feeder : option (list fed)) : option (list fed) :=
  match feeder with Some fs => Some (fs ++ [x]) | None => None end.

(** ** [ReadTaskAndStepHelper] *)
Record ReadIoTask := mkReadTask {
  read_buffer : Z;
  min_length : Z;
  max_length : Z;
  already_read : Z
}.

Record ReadHelper := mkReadHelper {
  read_task : option ReadIoTask;
  read_done : option (list fed);
  read_memory : list byte
}.

(** ** [WriteTaskAndStepHelper] *)
Record WriteIoTask := mkWriteTask {
  write_buffer : Z;
  length : Z;
  already_written : Z
}.

Record WriteHelper := mkWriteHelper {
  write_task : option WriteIoTask;
  write_done : option (list fed);
  write_memory : list byte
}.

Section steps.
(** The stream: [read(length)] answers a number and stores bytes in the caller's
    memory, [write(bytes)] answers how many of them it took; both are state
    passing. *)
Context {R W : Type}.
Context (stream_read : Z -> R -> ErrorOr Z * list byte * R).
Context (stream_write : list byte -> W -> ErrorOr Z * W).

(** One iteration of the loop of [readStep]; the boolean is whether it goes on
    ([false] is [break]). *)
Definition read_iteration (task : ReadIoTask) (h : ReadHelper) (r : R)
  : outcome (bool * ReadHelper * R) :=
  let '(n_err, bytes, r) := stream_read (max_length task) r in
  memory ← mem_write (read_memory h) (read_buffer task) bytes;
  match n_err with
  | IsError error =>
      if isCritical error then
        Ret (false, mkReadHelper None (notify (Failed (copyError false error)) (read_done h))
                      memory, r)
      else Ret (false, mkReadHelper (read_task h) (read_done h) memory, r)
  | IsValue n =>
      if (min_length task <=? n) && (n <=? max_length task) then
        Ret (true, mkReadHelper None (notify (Fed (n +! already_read task)) (read_done h))
                     memory, r)
      else
        Ret (true, mkReadHelper
               (Some (mkReadTask (read_buffer task + n) (min_length task -! n)
                        (max_length task -! n) (already_read task +! n)))
               (read_done h) memory, r)
  end.

Fixpoint readStep_loop (fuel : nat) (h : ReadHelper) (r : R)
  : outcome (ReadHelper * R) :=
  match read_task h with
  | None => Ret (h, r)
  | Some task =>
      match fuel with
      | O => Halt Diverges
      | S fuel =>
          '(more, h, r) ← read_iteration task h r;
          if more : bool then readStep_loop fuel h r else Ret (h, r)
      end
  end.

(** A stream that makes progress is read at most [max_length] times. *)
Definition readStep (h : ReadHelper) (r : R) : outcome (ReadHelper * R) :=
  match read_task h with
  | None => Ret (h, r)
  | Some task => readStep_loop (S (Z.to_nat (max_length task))) h r
  end.

Definition write_iteration (task : WriteIoTask) (h : WriteHelper) (w : W)
  : outcome (bool * WriteHelper * W) :=
  bytes ← mem_read (write_memory h) (write_buffer task) (length task);
  let '(n_err, w) := stream_write bytes w in
  match n_err with
  | IsValue n =>
      _ ← assert_that (n <=? length task);
      if n =? length task then
        Ret (true, mkWriteHelper None
               (notify (Fed (n +! already_written task)) (write_done h)) (write_memory h), w)
      else
        Ret (true, mkWriteHelper
               (Some (mkWriteTask (write_buffer task + n) (length task -! n)
                        (already_written task +! n)))
               (write_done h) (write_memory h), w)
  | IsError error =>
      if isCritical error then
        Ret (false, mkWriteHelper None
               (notify (Failed (copyError false error)) (write_done h)) (write_memory h), w)
      else Ret (false, h, w)
  end.

Fixpoint writeStep_loop (fuel : nat) (h : WriteHelper) (w : W)
  : outcome (WriteHelper * W) :=
  match write_task h with
  | None => Ret (h, w)
  | Some task =>
      match fuel with
      | O => Halt Diverges
      | S fuel =>
          '(more, h, w) ← write_iteration task h w;
          if more : bool then writeStep_loop fuel h w else Ret (h, w)
      end
  end.

Definition writeStep (h : WriteHelper) (w : W) : outcome (WriteHelper * W) :=
  match write_task h with
  | None => Ret (h, w)
  | Some task => writeStep_loop (S (Z.to_nat (length task))) h w
  end.

(** ** [AsyncIoStream]: [buffer] is never null in the model. *)
Definition AsyncIoStream_read (memory : list byte) (buffer min_length max_length : Z)
    (h : ReadHelper) (r : R) : outcome (ReadHelper * R) :=
  _ ← assert_that ((min_length <=? max_length) && (0 <? min_length));
  _ ← assert_that (match read_task h with None => true | Some _ => false end);
  readStep (mkReadHelper (Some (mkReadTask buffer min_length max_length 0))
              (read_done h) memory) r.

Definition AsyncIoStream_write (memory : list byte) (buffer length : Z)
    (h : WriteHelper) (w : W) : outcome (WriteHelper * W) :=
  _ ← assert_that (0 <? length);
  _ ← assert_that (match write_task h with None => true | Some _ => false end);
  writeStep (mkWriteHelper (Some (mkWriteTask buffer length 0)) (write_done h) memory) w.

(** [readDone()] and [writeDone()]: a new feeder replaces the old one. *)
Definition readDone (h : ReadHelper) : ReadHelper :=
  mkReadHelper (read_task h) (Some []) (read_memory h).
Definition writeDone (h : WriteHelper) : WriteHelper :=
  mkWriteHelper (write_task h) (Some []) (write_memory h).
End steps.

(** ** Correctness, for streams that keep their documented promises *)
(** The steps keep what the stream's operations keep. *)
Section keeps.
Context {K : Type} (P : K -> Prop).

Lemma readStep_keeps (stream_read : Z -> K -> ErrorOr Z * list byte * K) h r h' r' :
  (forall n r, P r -> P (stream_read n r).2) ->
  P r -> readStep stream_read h r = Ret (h', r') -> P r'.
Proof.
  intros Hk Hr. unfold readStep. destruct (read_task h) as [task|]; [|congruence].
  generalize (S (Z.to_nat (max_length task))) as fuel. intros fuel.
  revert h r Hr. induction fuel as [|fuel IH]; intros h r Hr; cbn [readStep_loop];
    destruct (read_task h) as [t|]; try congruence.
  unfold read_iteration. pose proof (Hk (max_length t) r Hr) as Hp.
  destruct (stream_read (max_length t) r) as [[[e|n] bytes] r1]; cbn [snd] in Hp.
  - destruct (mem_write _ _ _) as [m|]; [|done]. cbn. destruct (isCritical e); cbn; congruence.
  - destruct (mem_write _ _ _) as [m|]; [|done]. cbn [mbind outcome_bind].
    destruct (_ && _); cbn [mbind outcome_bind]; by apply IH.
Qed.

Lemma writeStep_keeps (stream_write : list byte -> K -> ErrorOr Z * K) h w h' w' :
  (forall bytes w, P w -> P (stream_write bytes w).2) ->
  P w -> writeStep stream_write h w = Ret (h', w') -> P w'.
Proof.
  intros Hk Hw. unfold writeStep. destruct (write_task h) as [task|]; [|congruence].
  generalize (S (Z.to_nat (length task))) as fuel. intros fuel.
  revert h w Hw. induction fuel as [|fuel IH]; intros h w Hw; cbn [writeStep_loop];
    destruct (write_task h) as [t|]; try congruence.
  unfold write_iteration. destruct (mem_read _ _ _) as [bytes|]; [|done].
  cbn [mbind outcome_bind]. pose proof (Hk bytes w Hw) as Hp.
  destruct (stream_write bytes w) as [[e|n] w1]; cbn [snd] in Hp.
  - destruct (isCritical e); cbn; congruence.
  - destruct (assert_that _); [|done]. cbn [mbind outcome_bind].
    destruct (n =? length t); cbn [mbind outcome_bind]; by apply IH.
Qed.

Lemma async_read_keeps (stream_read : Z -> K -> ErrorOr Z * list byte * K)
    memory b mn mx h r h' r' :
  (forall n r, P r -> P (stream_read n r).2) -> P r ->
  AsyncIoStream_read stream_read memory b mn mx h r = Ret (h', r') -> P r'.
Proof.
  intros Hk Hr. unfold AsyncIoStream_read. destruct (assert_that (_ && _)); [|done].
  cbn [mbind outcome_bind]. destruct (assert_that _); [|done].
  by apply readStep_keeps.
Qed.

Lemma async_write_keeps (stream_write : list byte -> K -> ErrorOr Z * K)
    memory b len h w h' w' :
  (forall bytes w, P w -> P (stream_write bytes w).2) -> P w ->
  AsyncIoStream_write stream_write memory b len h w = Ret (h', w') -> P w'.
Proof.
  intros Hk Hw. unfold AsyncIoStream_write. destruct (assert_that (0 <? _)); [|done].
  cbn [mbind outcome_bind]. destruct (assert_that _); [|done].
  by apply writeStep_keeps.
Qed.
End keeps.

(** A task is left pending only by a stream that is busy. *)
Lemma readStep_busy {K} (stream_read : Z -> K -> ErrorOr Z * list byte * K) h r h' r' task :
  readStep stream_read h r = Ret (h', r') -> read_task h' = Some task ->
  exists r1 e bytes, stream_read (max_length task) r1 = (IsError e, bytes, r') /\
    isCritical e = false.
Proof.
  unfold readStep. destruct (read_task h) as [t0|] eqn:E; [|congruence].
  generalize (S (Z.to_nat (max_length t0))) as fuel. intros fuel. clear t0 E.
  revert h r. induction fuel as [|fuel IH]; intros h r; cbn [readStep_loop];
    destruct (read_task h) as [t|] eqn:E; try congruence.
  unfold read_iteration. destruct (stream_read (max_length t) r) as [[[e|n] bytes] r1] eqn:Hs;
    (destruct (mem_write _ _ _) as [m|]; [|done]); cbn [mbind outcome_bind].
  - destruct (isCritical e) eqn:He; cbn [mbind outcome_bind]; intros [= <- <-]; [discriminate|].
    cbn [read_task]. rewrite E. intros [= ->]. eauto.
  - destruct (_ && _); cbn [mbind outcome_bind]; apply IH.
Qed.

Lemma writeStep_busy {K} (stream_write : list byte -> K -> ErrorOr Z * K) h w h' w' task :
  writeStep stream_write h w = Ret (h', w') -> write_task h' = Some task ->
  exists bytes w1 e, mem_read (write_memory h') (write_buffer task) (length task) = Ret bytes /\
    stream_write bytes w1 = (IsError e, w') /\ isCritical e = false /\
    write_done h' = write_done h.
Proof.
  unfold writeStep. destruct (write_task h) as [t0|] eqn:E; [|congruence].
  generalize (S (Z.to_nat (length t0))) as fuel. intros fuel. clear t0 E.
  revert h w. induction fuel as [|fuel IH]; intros h w; cbn [writeStep_loop];
    destruct (write_task h) as [t|] eqn:E; try congruence.
  unfold write_iteration. destruct (mem_read (write_memory h) _ _) as [bytes|] eqn:Hm; [|done].
  cbn [mbind outcome_bind]. destruct (stream_write bytes w) as [[e|n] w1] eqn:Hs.
  - destruct (isCritical e) eqn:He; cbn [mbind outcome_bind]; intros [= <- <-]; [discriminate|].
    rewrite E. intros [= ->]. by exists bytes, w, e.
  - destruct (assert_that _); [|done]. cbn [mbind outcome_bind].
    destruct (n =? length t); cbn [mbind outcome_bind];
      intros E1 E2; [|exact (IH _ _ E1 E2)].
    destruct fuel; cbn in E1; injection E1 as <- _; discriminate.
Qed.

Lemma mem_read_length {A} (l : list A) p n bytes :
  0 <= p -> 0 <= n -> mem_read l p n = Ret bytes -> zlen bytes = n.
Proof.
  unfold mem_read. intros Hp Hn. destruct (Z.leb_spec (p + n) (zlen l)); [|done].
  intros [= <-]. rewrite zlen_take; rewrite ?zlen_drop by lia; lia.
Qed.

(** A task that is content with one byte takes one call of the stream. *)
Lemma readStep_one {K} (stream_read : Z -> K -> ErrorOr Z * list byte * K) h r h' r' task :
  readStep stream_read h r = Ret (h', r') -> read_task h = Some task -> min_length task = 1 ->
  match stream_read (max_length task) r with
  | (IsValue n, _, r1) => 0 < n <= max_length task ->
      r' = r1 /\ read_task h' = None /\
      exists n', read_done h' = notify (Fed n') (read_done h)
  | (IsError e, _, r1) =>
      r' = r1 /\
      if isCritical e
      then read_task h' = None /\ read_done h' = notify (Failed e) (read_done h)
      else read_task h' = Some task /\ read_done h' = read_done h
  end.
Proof.
  unfold readStep. intros E Ht Hm. rewrite Ht in E. cbn [readStep_loop] in E. rewrite Ht in E.
  unfold read_iteration in E. destruct (stream_read (max_length task) r) as [[[e|n] bytes] r1];
    (destruct (mem_write _ _ _) as [m|]; [|done]); cbn [mbind outcome_bind] in E.
  - destruct (isCritical e); cbn [mbind outcome_bind] in E; injection E as <- <-;
      rewrite ?copyError_id; by cbn.
  - intros Hn. rewrite Hm, (proj2 (andb_true_iff _ _)) in E by lia.
    cbn [mbind outcome_bind] in E. destruct (Z.to_nat (max_length task)); cbn in E;
      injection E as <- <-; cbn; eauto.
Qed.

(** A write that ends is answered, by its last call of the stream; [P] is kept by
    the calls. *)
Lemma writeStep_ends {K} (stream_write : list byte -> K -> ErrorOr Z * K) (P : K -> Prop) h w h' w' :
  (forall bytes w n w1, 0 < zlen bytes -> stream_write bytes w = (IsValue n, w1) ->
     0 < n <= zlen bytes) ->
  (forall bytes w, 0 < zlen bytes -> P w -> P (stream_write bytes w).2) -> P w ->
  (forall task, write_task h = Some task -> 0 <= write_buffer task /\ 0 < length task < size_mod) ->
  writeStep stream_write h w = Ret (h', w') ->
  P w' /\
  (write_task h <> None -> write_task h' = None ->
   exists x bytes w1, write_done h' = notify x (write_done h) /\ P w1 /\ 0 < zlen bytes /\
     match x with
     | Fed _ => exists n, stream_write bytes w1 = (IsValue n, w')
     | Failed e => isCritical e = true /\ stream_write bytes w1 = (IsError e, w')
     end).
Proof.
  intros Hlaw HPw. unfold writeStep. destruct (write_task h) as [t0|] eqn:E0;
    [|intros HP _ [= <- <-]; by split].
  generalize (S (Z.to_nat (length t0))) as fuel. intros fuel HP Hok.
  revert h w t0 E0 HP Hok. induction fuel as [|fuel IH]; intros h w t0 E0 HP Hok;
    cbn [writeStep_loop]; rewrite E0; [done|].
  destruct (Hok t0 eq_refl) as [Hb Hl]. unfold write_iteration.
  destruct (mem_read (write_memory h) _ _) as [bytes|] eqn:Hm; [|done].
  assert (Hz : zlen bytes = length t0).
  { apply mem_read_length in Hm; lia. }
  pose proof (HPw bytes w ltac:(lia) HP) as HP1.
  cbn [mbind outcome_bind]. destruct (stream_write bytes w) as [[e|n] w1] eqn:Hs; cbn [snd] in HP1.
  - destruct (isCritical e) eqn:He; cbn [mbind outcome_bind]; intros [= <- <-]; (split; [done|]);
      [|by rewrite E0].
    intros _ _. exists (Failed e), bytes, w. rewrite copyError_id. split_and!; (done || lia).
  - destruct (assert_that _); [|done]. cbn [mbind outcome_bind].
    pose proof (Hlaw bytes w n w1 ltac:(lia) Hs) as Hn.
    destruct (Z.eqb_spec n (length t0)) as [->|Hne]; cbn [mbind outcome_bind].
    + intros E. destruct fuel; cbn in E; injection E as <- <-; (split; [done|]); intros _ _;
        eexists (Fed _), bytes, w; (split_and!; [done|done|lia|by eexists]).
    + intros E. assert (Hw : length t0 -! n = length t0 - n) by (apply wsub_small; lia).
      destruct (IH (mkWriteHelper (Some (mkWriteTask (write_buffer t0 + n) (length t0 -! n)
        (already_written t0 +! n))) (write_done h) (write_memory h)) w1 _ eq_refl HP1) as [HP' Hx]; [|exact E|].
      { intros task [= <-]. cbn. lia. }
      split; [done|]. intros _. by apply Hx.
Qed.

(** Beginning a task ends with a step. *)
Lemma read_begun {K} (stream_read : Z -> K -> ErrorOr Z * list byte * K) memory b mn mx h r h' r' :
  AsyncIoStream_read stream_read memory b mn mx h r = Ret (h', r') ->
  exists h0, read_done h0 = read_done h /\ read_task h0 = Some (mkReadTask b mn mx 0) /\
    mn <= mx /\ readStep stream_read h0 r = Ret (h', r').
Proof.
  unfold AsyncIoStream_read. intros (?&Ha&H)%bind_Ret_inv. apply bind_Ret_inv in H as (?&_&H).
  eexists. split_and!; [..|exact H]; [done|done|].
  destruct ((mn <=? mx) && (0 <? mn)) eqn:E; [|done]. lia.
Qed.

Lemma write_begun {K} (stream_write : list byte -> K -> ErrorOr Z * K) memory b len h w h' w' :
  AsyncIoStream_write stream_write memory b len h w = Ret (h', w') ->
  exists h0, write_done h0 = write_done h /\ write_task h0 = Some (mkWriteTask b len 0) /\
    0 < len /\ writeStep stream_write h0 w = Ret (h', w').
Proof.
  unfold AsyncIoStream_write. intros (?&Ha&H)%bind_Ret_inv. apply bind_Ret_inv in H as (?&_&H).
  eexists. split_and!; [..|exact H]; [done|done|].
  destruct (Z.ltb_spec 0 len); [lia|done].
Qed.

Section read_correct.
Context {R : Type} (stream_read : Z -> R -> ErrorOr Z * list byte * R).
(** The bytes the stream has yet to deliver; a successful read delivers at
    least one and at most as many as asked for, from the front, and says how
    many; [fault r e] is what is known of the stream after the critical error
    [e]. *)
Context (source : R -> list byte) (fault : R -> Error -> Prop).
Hypothesis stream_read_spec : forall n r, 0 < n ->
  match stream_read n r with
  | (IsValue k, bytes, r') =>
      0 < k <= n /\ zlen bytes = k /\ source r = bytes ++ source r'
  | (IsError e, bytes, r') =>
      bytes = [] /\ source r' = source r /\ (isCritical e = true -> fault r' e)
  end.

(** The state of a read of [mn] to [mx] bytes to offset [b] of [mem0], begun
    when the stream had [src0] to deliver. *)
Definition read_inv (b mn mx : Z) (mem0 src0 : list byte) (feeder0 : option (list fed))
    (h : ReadHelper) (r : R) : Prop :=
  exists bytes, src0 = bytes ++ source r /\ zlen bytes <= mx /\
    read_memory h = list_inserts (Z.to_nat b) bytes mem0 /\
    match read_task h with
    | Some task =>
        task = mkReadTask (b + zlen bytes) (mn - zlen bytes) (mx - zlen bytes) (zlen bytes) /\
        zlen bytes < mn /\ read_done h = feeder0
    | None =>
        (mn <= zlen bytes /\ read_done h = notify (Fed (zlen bytes)) feeder0) \/
        exists e, isCritical e = true /\ fault r e /\ read_done h = notify (Failed e) feeder0
    end.

Section task.
Context (b mn mx : Z) (mem0 src0 : list byte) (feeder0 : option (list fed)).
Hypothesis task_ok : 0 <= b /\ 0 < mn <= mx /\ b + mx <= zlen mem0 /\ mx < size_mod.

Lemma read_iteration_inv h r task :
  read_inv b mn mx mem0 src0 feeder0 h r -> read_task h = Some task ->
  exists more h' r', read_iteration stream_read task h r = Ret (more, h', r') /\
    read_inv b mn mx mem0 src0 feeder0 h' r' /\
    (more = true -> forall task', read_task h' = Some task' ->
       max_length task' < max_length task).
Proof.
  intros (bs&Hsrc&Hl&Hm&Ht) E. rewrite E in Ht. destruct Ht as (->&Hlt&Hd).
  pose proof (zlen_nonneg bs). unfold read_iteration. cbn [max_length min_length
    read_buffer already_read].
  pose proof (stream_read_spec (mx - zlen bs) r ltac:(lia)) as Hs.
  destruct (stream_read (mx - zlen bs) r) as [[[e|n] bytes] r'].
  - destruct Hs as (->&Hs&Hf).
    assert (0 <= b + zlen bs <= zlen (read_memory h))
      by (rewrite Hm, zlen_inserts; lia).
    rewrite mem_write_ok by (rewrite ?zlen_nil; lia). rewrite bind_ret.
    cbn [list_inserts].
    destruct (isCritical e) eqn:He; do 3 eexists; (split; [done|]).
    + split; [|done]. exists bs. cbn. rewrite Hs, Hd. split_and!; try done.
      right. exists e. rewrite copyError_id. auto.
    + split; [|done]. exists bs. cbn. rewrite Hs, E. by split_and!.
  - destruct Hs as (Hn&<-&Hs). rewrite Hm.
    rewrite mem_write_ok by (rewrite ?zlen_inserts; lia). rewrite bind_ret.
    assert (Hap : list_inserts (Z.to_nat (b + zlen bs)) bytes
        (list_inserts (Z.to_nat b) bs mem0) =
      list_inserts (Z.to_nat b) (bs ++ bytes) mem0)
      by (rewrite list_inserts_app_l; f_equal; unfold zlen; lia).
    rewrite Hap. wsimp. destruct ((mn - zlen bs <=? zlen bytes) && (zlen bytes <=? mx - zlen bs)) eqn:Hc;
      do 3 eexists; (split; [done|]).
    + apply andb_true_iff in Hc as [Hc1 Hc2]. apply Z.leb_le in Hc1, Hc2.
      split; [|done]. exists (bs ++ bytes). cbn. rewrite Hsrc, Hs, Hd, zlen_app.
      split_and!; [by rewrite app_assoc|lia|done|left].
      split; [lia|]. do 2 f_equal. lia.
    + apply andb_false_iff in Hc. rewrite !Z.leb_gt in Hc.
      wsimp. split.
      * exists (bs ++ bytes). cbn. rewrite Hsrc, Hs, zlen_app.
        split_and!; [by rewrite app_assoc|lia|done| |lia|done].
        f_equal; lia.
      * intros _ task' [= <-]. cbn. lia.
Qed.

Lemma readStep_loop_inv fuel h r :
  read_inv b mn mx mem0 src0 feeder0 h r ->
  (forall task, read_task h = Some task -> max_length task < Z.of_nat fuel) ->
  exists h' r', readStep_loop stream_read fuel h r = Ret (h', r') /\
    read_inv b mn mx mem0 src0 feeder0 h' r'.
Proof.
  revert h r. induction fuel as [|fuel IH]; intros h r Hinv Hf; cbn [readStep_loop];
    destruct (read_task h) as [task|] eqn:E; try by exists h, r.
  { exfalso. specialize (Hf task eq_refl). destruct Hinv as (bs&_&_&_&Ht).
    rewrite E in Ht. destruct Ht as (->&?&_). cbn in Hf. lia. }
  specialize (Hf task eq_refl).
  destruct (read_iteration_inv h r task Hinv E) as (more&h1&r1&->&Hinv1&Hdec).
  rewrite bind_ret. destruct more; [|by exists h1, r1].
  apply IH; [done|]. intros task' E'. specialize (Hdec eq_refl task' E'). lia.
Qed.

Lemma readStep_inv h r :
  read_inv b mn mx mem0 src0 feeder0 h r ->
  exists h' r', readStep stream_read h r = Ret (h', r') /\
    read_inv b mn mx mem0 src0 feeder0 h' r'.
Proof.
  intros Hinv. unfold readStep. destruct (read_task h) as [task|] eqn:E;
    [|by exists h, r].
  apply readStep_loop_inv; [done|]. intros task' E'. rewrite E in E'.
  injection E' as <-. destruct Hinv as (bs&_&_&_&Ht). rewrite E in Ht.
  destruct Ht as (->&?&_). cbn. lia.
Qed.

(** The [readStep]s that follow, one for every time the stream is ready. *)
Fixpoint readSteps (k : nat) (h : ReadHelper) (r : R) : outcome (ReadHelper * R) :=
  match k with
  | O => Ret (h, r)
  | S k => '(h, r) ← readStep stream_read h r; readSteps k h r
  end.

Lemma readSteps_inv k h r :
  read_inv b mn mx mem0 src0 feeder0 h r ->
  exists h' r', readSteps k h r = Ret (h', r') /\
    read_inv b mn mx mem0 src0 feeder0 h' r'.
Proof.
  revert h r. induction k as [|k IH]; intros h r Hinv; cbn; [by exists h, r|].
  destruct (readStep_inv h r Hinv) as (h1&r1&->&Hinv1). rewrite bind_ret. by apply IH.
Qed.
End task.

Lemma read_begins b mn mx mem h r :
  0 < mn <= mx ->
  read_inv b mn mx mem (source r) (read_done h)
    (mkReadHelper (Some (mkReadTask b mn mx 0)) (read_done h) mem) r.
Proof.
  intros Hm. exists []. cbn. change (zlen []) with 0. rewrite Z.add_0_r, !Z.sub_0_r.
  split_and!; (done || lia).
Qed.

(** A read and [k] more steps of it. *)
Lemma async_read_inv k memory b mn mx h r :
  0 <= b -> 0 < mn <= mx -> b + mx <= zlen memory -> mx < size_mod -> read_task h = None ->
  exists h' r',
    ('(h, r) ← AsyncIoStream_read stream_read memory b mn mx h r; readSteps k h r)
      = Ret (h', r') /\
    read_inv b mn mx memory (source r) (read_done h) h' r'.
Proof.
  intros Hb Hm Hmem Hsz Hnone. pose proof (read_begins b mn mx memory h r Hm) as Hinv.
  unfold AsyncIoStream_read. rewrite Hnone.
  rewrite (assert_that_true ((mn <=? mx) && (0 <? mn))), !bind_ret
    by (apply andb_true_iff; rewrite Z.leb_le, Z.ltb_lt; lia).
  change (assert_that true) with (Ret tt). rewrite bind_ret.
  destruct (readStep_inv b mn mx memory (source r) (read_done h) ltac:(lia) _ _ Hinv)
    as (h1&r1&->&Hinv1).
  rewrite bind_ret. apply (readSteps_inv b mn mx memory (source r)); [lia|done].
Qed.
End read_correct.

Section write_correct.
Context {W : Type} (stream_write : list byte -> W -> ErrorOr Z * W).
(** The bytes the stream has taken; a successful write takes at least one and
    at most all of the bytes it is given, from the front; [fault] as above. *)
Context (sunk : W -> list byte) (fault : W -> Error -> Prop).
Hypothesis stream_write_spec : forall bytes w, 0 < zlen bytes ->
  match stream_write bytes w with
  | (IsValue n, w') => 0 < n <= zlen bytes /\ sunk w' = sunk w ++ ztake n bytes
  | (IsError e, w') => sunk w' = sunk w /\ (isCritical e = true -> fault w' e)
  end.

(** The state of a write of the bytes [data] at offset [b] of the memory, of
    which the first [n0] had been taken when the stream had taken [sunk0]. *)
Definition write_inv (b n0 : Z) (data mem0 sunk0 : list byte) (feeder0 : option (list fed))
    (h : WriteHelper) (w : W) : Prop :=
  exists n, n0 <= n <= zlen data /\ sunk w = sunk0 ++ ztake (n - n0) (zdrop n0 data) /\
    write_memory h = mem0 /\
    match write_task h with
    | Some task =>
        task = mkWriteTask (b + n) (zlen data - n) n /\ n < zlen data /\
        write_done h = feeder0
    | None =>
        (n = zlen data /\ write_done h = notify (Fed n) feeder0) \/
        exists e, isCritical e = true /\ fault w e /\ write_done h = notify (Failed e) feeder0
    end.

Section task.
Context (b n0 : Z) (data mem0 sunk0 : list byte) (feeder0 : option (list fed)).
Hypothesis task_ok : 0 <= b /\ 0 <= n0 /\ 0 < zlen data < size_mod /\ b + zlen data <= zlen mem0 /\
  ztake (zlen data) (zdrop b mem0) = data.

Lemma data_rest n :
  0 <= n <= zlen data -> ztake (zlen data - n) (zdrop (b + n) mem0) = zdrop n data.
Proof.
  intros Hn. destruct task_ok as (?&?&?&?&Hd). rewrite <- Hd at 2.
  unfold ztake, zdrop. rewrite skipn_firstn_comm, drop_drop. f_equal; [lia|].
  f_equal. lia.
Qed.

Lemma write_iteration_inv h w task :
  write_inv b n0 data mem0 sunk0 feeder0 h w -> write_task h = Some task ->
  exists more h' w', write_iteration stream_write task h w = Ret (more, h', w') /\
    write_inv b n0 data mem0 sunk0 feeder0 h' w' /\
    (more = true -> forall task', write_task h' = Some task' ->
       length task' < length task).
Proof.
  intros (n&Hn&Hs0&Hm&Ht) E. rewrite E in Ht. destruct Ht as (->&Hlt&Hd).
  unfold write_iteration. cbn [write_buffer length already_written].
  destruct task_ok as (?&?&?&?&_).
  rewrite Hm, mem_read_ok, bind_ret, data_rest by lia.
  assert (Hl : zlen (zdrop n data) = zlen data - n) by (apply zlen_drop; lia).
  pose proof (stream_write_spec (zdrop n data) w ltac:(lia)) as Hs.
  destruct (stream_write (zdrop n data) w) as [[e|k] w'].
  - destruct Hs as [Hs Hf].
    destruct (isCritical e) eqn:He; do 3 eexists; (split; [done|]).
    + split; [|done]. exists n. cbn. rewrite Hs, Hd, Hs0. split_and!; try done; try lia.
      right. exists e. rewrite copyError_id. auto.
    + split; [|done]. exists n. rewrite Hs, E, Hs0. split_and!; try done; lia.
  - destruct Hs as [Hk Hs]. rewrite Hl in Hk.
    rewrite assert_that_true, bind_ret by (apply Z.leb_le; lia). wsimp.
    assert (Hap : sunk w' = sunk0 ++ ztake (n + k - n0) (zdrop n0 data)).
    { rewrite Hs, Hs0, <- app_assoc. f_equal.
      assert (zlen (zdrop n0 data) = zlen data - n0) by (apply zlen_drop; lia).
      rewrite <- (ztake_split (n - n0) (n + k - n0)), zdrop_drop by lia. f_equal.
      replace (n + k - n0 - (n - n0)) with k by lia.
      by replace (n0 + (n - n0)) with n by lia. }
    destruct (Z.eqb_spec k (zlen data - n)) as [->|Hne]; do 3 eexists; (split; [done|]).
    + split; [|done]. exists (zlen data). cbn. rewrite Hap, Hd.
      split_and!; try done; try lia; [do 2 f_equal; lia|].
      left. split; [done|]. do 2 f_equal. lia.
    + split.
      * exists (n + k). cbn. rewrite Hap. split_and!; try done; try lia. f_equal; lia.
      * intros _ task' [= <-]. cbn. lia.
Qed.

Lemma writeStep_loop_inv fuel h w :
  write_inv b n0 data mem0 sunk0 feeder0 h w ->
  (forall task, write_task h = Some task -> length task < Z.of_nat fuel) ->
  exists h' w', writeStep_loop stream_write fuel h w = Ret (h', w') /\
    write_inv b n0 data mem0 sunk0 feeder0 h' w'.
Proof.
  revert h w. induction fuel as [|fuel IH]; intros h w Hinv Hf; cbn [writeStep_loop];
    destruct (write_task h) as [task|] eqn:E; try by exists h, w.
  { exfalso. specialize (Hf task eq_refl). destruct Hinv as (n&_&_&_&Ht).
    rewrite E in Ht. destruct Ht as (->&?&_). cbn in Hf. lia. }
  specialize (Hf task eq_refl).
  destruct (write_iteration_inv h w task Hinv E) as (more&h1&w1&->&Hinv1&Hdec).
  rewrite bind_ret. destruct more; [|by exists h1, w1].
  apply IH; [done|]. intros task' E'. specialize (Hdec eq_refl task' E'). lia.
Qed.

Lemma writeStep_inv h w :
  write_inv b n0 data mem0 sunk0 feeder0 h w ->
  exists h' w', writeStep stream_write h w = Ret (h', w') /\
    write_inv b n0 data mem0 sunk0 feeder0 h' w'.
Proof.
  intros Hinv. unfold writeStep. destruct (write_task h) as [task|] eqn:E;
    [|by exists h, w].
  apply writeStep_loop_inv; [done|]. intros task' E'. rewrite E in E'.
  injection E' as <-. destruct Hinv as (n&Hn&_&_&Ht). rewrite E in Ht.
  destruct Ht as (->&?&_). cbn. lia.
Qed.

Fixpoint writeSteps (k : nat) (h : WriteHelper) (w : W) : outcome (WriteHelper * W) :=
  match k with
  | O => Ret (h, w)
  | S k => '(h, w) ← writeStep stream_write h w; writeSteps k h w
  end.

Lemma writeSteps_inv k h w :
  write_inv b n0 data mem0 sunk0 feeder0 h w ->
  exists h' w', writeSteps k h w = Ret (h', w') /\
    write_inv b n0 data mem0 sunk0 feeder0 h' w'.
Proof.
  revert h w. induction k as [|k IH]; intros h w Hinv; cbn; [by exists h, w|].
  destruct (writeStep_inv h w Hinv) as (h1&w1&->&Hinv1). rewrite bind_ret. by apply IH.
Qed.
End task.

Lemma async_write_inv k memory data b h w :
  0 <= b -> 0 < zlen data < size_mod -> b + zlen data <= zlen memory ->
  ztake (zlen data) (zdrop b memory) = data -> write_task h = None ->
  exists h' w',
    ('(h, w) ← AsyncIoStream_write stream_write memory b (zlen data) h w; writeSteps k h w)
      = Ret (h', w') /\
    write_inv b 0 data memory (sunk w) (write_done h) h' w'.
Proof.
  intros Hb Hd Hmem Hdata Hnone.
  assert (Hinv : write_inv b 0 data memory (sunk w) (write_done h)
    (mkWriteHelper (Some (mkWriteTask b (zlen data) 0)) (write_done h) memory) w).
  { exists 0. cbn. rewrite Z.add_0_r, !Z.sub_0_r, (ztake_0 0), app_nil_r by lia.
    split_and!; (done || lia). }
  unfold AsyncIoStream_write. rewrite Hnone.
  rewrite (assert_that_true (0 <? zlen data)), !bind_ret by (apply Z.ltb_lt; lia).
  change (assert_that true) with (Ret tt). rewrite bind_ret.
  destruct (writeStep_inv b 0 data memory (sunk w) (write_done h)
    ltac:(split_and!; (done || lia)) _ _ Hinv) as (h1&w1&->&Hinv1).
  rewrite bind_ret.
  apply (writeSteps_inv b 0 data memory (sunk w)); [split_and!; (done || lia)|done].
Qed.
End write_correct.

(** ** Properties *)

(** A stream that delivers the given chunks, one per call at most; an empty chunk
    or the end is "not ready". *)
Definition chunk_read (n : Z) (chunks : list (list byte))
  : ErrorOr Z * list byte * list (list byte) :=
  match chunks with
  | [] | [] :: _ => (IsError (recoverableError "Currently busy"), [], tl chunks)
  | c :: cs =>
      if zlen c <=? n then (IsValue (zlen c), c, cs)
      else (IsValue n, ztake n c, zdrop n c :: cs)
  end.

Lemma chunk_read_spec n chunks :
  0 < n ->
  match chunk_read n chunks with
  | (IsValue k, bytes, cs) =>
      0 < k <= n /\ zlen bytes = k /\ concat chunks = bytes ++ concat cs
  | (IsError e, bytes, cs) =>
      bytes = [] /\ concat cs = concat chunks /\ (isCritical e = true -> False)
  end.
Proof.
  intros Hn. destruct chunks as [|[|x c] cs]; [done|done|]. unfold chunk_read.
  pose proof (zlen_nonneg c). pose proof (zlen_cons x c) as Hx.
  bcase; [split; [lia|done]|]. rewrite zlen_take by lia. split; [lia|].
  cbn [concat]. by rewrite app_assoc, ztake_drop.
Qed.

(** A stream that takes at most [k] bytes per call, and then fails for good. *)
Definition slow_write (k : Z) (bytes : list byte) (w : list byte)
  : ErrorOr Z * list byte :=
  if zlen w <? 5 then (IsValue (Z.min k (zlen bytes)), w ++ ztake (Z.min k (zlen bytes)) bytes)
  else (IsError (criticalError_code "Disconnected" Disconnected), w).

(** C12: a read of [mn] to [mx] bytes, begun with [AsyncIoStream::read] and
    carried on by any number of [readStep]s, never faults; at every moment the
    bytes taken from the stream are in the caller's memory, in order and
    contiguous; the task is pending with fewer than [mn] of them, or the feeder
    got exactly one answer: their number, between [mn] and [mx], or a critical
    error, the one the stream failed with. *)
Theorem async_read_result {R} (stream_read : Z -> R -> ErrorOr Z * list byte * R)
    (source : R -> list byte) (fault : R -> Error -> Prop)
    (stream_read_spec : forall n r, 0 < n ->
       match stream_read n r with
       | (IsValue k, bytes, r') =>
           0 < k <= n /\ zlen bytes = k /\ source r = bytes ++ source r'
       | (IsError e, bytes, r') =>
           bytes = [] /\ source r' = source r /\ (isCritical e = true -> fault r' e)
       end)
    (k : nat) (memory : list byte) (b mn mx : Z) (h : ReadHelper) (r : R) :
  0 <= b -> 0 < mn <= mx -> b + mx <= zlen memory -> mx < size_mod -> read_task h = None ->
  exists h' r' bytes,
    ('(h, r) ← AsyncIoStream_read stream_read memory b mn mx h r;
     readSteps stream_read k h r) = Ret (h', r') /\
    source r = bytes ++ source r' /\ zlen bytes <= mx /\
    read_memory h' = list_inserts (Z.to_nat b) bytes memory /\
    match read_task h' with
    | Some task => zlen bytes < mn /\ read_done h' = read_done h
    | None =>
        (mn <= zlen bytes /\ read_done h' = notify (Fed (zlen bytes)) (read_done h)) \/
        exists e, isCritical e = true /\ fault r' e /\
          read_done h' = notify (Failed e) (read_done h)
    end.
Proof.
  intros Hb Hm Hmem Hsz Hnone.
  destruct (async_read_inv stream_read source fault stream_read_spec k memory b mn mx h r
    Hb Hm Hmem Hsz Hnone) as (h2&r2&->&(bytes&Hs&Hl&Hmm&Ht)).
  exists h2, r2, bytes. split_and!; try done.
  destruct (read_task h2) as [task|]; [|done]. by destruct Ht as (_&?&?).
Qed.

Lemma async_read_result_witness :
  let chunks := [[x61]; []; [x62; x63]; [x64; x65; x66; x67]; []] in
  exists h' r' bytes,
    ('(h, r) ← AsyncIoStream_read chunk_read (replicate 8 x00) 1 4 6
       (mkReadHelper None (Some []) []) chunks;
     readSteps chunk_read 3 h r) = Ret (h', r') /\
    concat chunks = bytes ++ concat r' /\ zlen bytes <= 6 /\
    read_memory h' = list_inserts 1 bytes (replicate 8 x00) /\
    match read_task h' with
    | Some task => zlen bytes < 4 /\ read_done h' = Some []
    | None =>
        (4 <= zlen bytes /\ read_done h' = Some [Fed (zlen bytes)]) \/
        exists e, isCritical e = true /\ False /\ read_done h' = Some [Failed e]
    end.
Proof.
  apply (async_read_result chunk_read (@concat byte) (fun _ _ => False) chunk_read_spec 3 (replicate 8 x00) 1 4 6
    (mkReadHelper None (Some []) []) [[x61]; []; [x62; x63]; [x64; x65; x66; x67]; []]).
  - lia.
  - lia.
  - vm_compute. discriminate.
  - reflexivity.
  - reflexivity.
Defined.

(** C13: a write begun with [AsyncIoStream::write] and carried on by any number of
    [writeStep]s never faults and never disturbs the data; the stream has been
    given a beginning of the data, in order and without a gap or repetition;
    the feeder is told the whole length exactly when all of it was taken, or the
    critical error the stream failed with; otherwise the task is pending. *)
Theorem async_write_result {W} (stream_write : list byte -> W -> ErrorOr Z * W)
    (sunk : W -> list byte) (fault : W -> Error -> Prop)
    (stream_write_spec : forall bytes w, 0 < zlen bytes ->
       match stream_write bytes w with
       | (IsValue n, w') => 0 < n <= zlen bytes /\ sunk w' = sunk w ++ ztake n bytes
       | (IsError e, w') => sunk w' = sunk w /\ (isCritical e = true -> fault w' e)
       end)
    (k : nat) (memory data : list byte) (b : Z) (h : WriteHelper) (w : W) :
  0 <= b -> 0 < zlen data < size_mod -> b + zlen data <= zlen memory ->
  ztake (zlen data) (zdrop b memory) = data -> write_task h = None ->
  exists h' w' n,
    ('(h, w) ← AsyncIoStream_write stream_write memory b (zlen data) h w;
     writeSteps stream_write k h w) = Ret (h', w') /\
    sunk w' = sunk w ++ ztake n data /\ 0 <= n <= zlen data /\ write_memory h' = memory /\
    match write_task h' with
    | Some task => n < zlen data /\ write_done h' = write_done h
    | None =>
        (n = zlen data /\ write_done h' = notify (Fed (zlen data)) (write_done h)) \/
        exists e, isCritical e = true /\ fault w' e /\
          write_done h' = notify (Failed e) (write_done h)
    end.
Proof.
  intros Hb Hd Hmem Hdata Hnone.
  destruct (async_write_inv stream_write sunk fault stream_write_spec k memory data b h w
    Hb Hd Hmem Hdata Hnone) as (h2&w2&->&(n&Hn&Hs&Hmm&Ht)).
  rewrite Z.sub_0_r, zdrop_0 in Hs by lia.
  exists h2, w2, n. split_and!; try done; try lia.
  destruct (write_task h2) as [task|].
  - by destruct Ht as (_&?&?).
  - destruct Ht as [[-> ?]|?]; auto.
Qed.

Lemma async_write_result_witness :
  let data := [x61; x62; x63; x64] in
  exists h' w' n,
    ('(h, w) ← AsyncIoStream_write (slow_write 3) (x00 :: data) 1 (zlen data)
       (mkWriteHelper None (Some []) []) [x7a];
     writeSteps (slow_write 3) 2 h w) = Ret (h', w') /\
    w' = [x7a] ++ ztake n data /\ 0 <= n <= zlen data /\ write_memory h' = x00 :: data /\
    match write_task h' with
    | Some task => n < zlen data /\ write_done h' = Some []
    | None =>
        (n = zlen data /\ write_done h' = Some [Fed (zlen data)]) \/
        exists e, isCritical e = true /\ code e = Disconnected /\
          write_done h' = Some [Failed e]
    end.
Proof.
  apply (async_write_result (slow_write 3) (fun w => w) (fun _ e => code e = Disconnected)) with (h := mkWriteHelper None (Some []) []).
  - intros bytes w Hb. unfold slow_write. bcase; [|done]. split; [lia|done].
  - lia.
  - vm_compute. by split.
  - vm_compute. discriminate.
  - reflexivity.
  - reflexivity.
Defined.
