(* ===== verification/Conveyor.v ===== *)
(** Model of the conveyor nodes of [source/forstio/async.h], [async.tmpl.h] and
    [async.cpp] on top of the event loop of [EventLoop.v].

    A node that stores elements ([ConveyorStorage]) has an address in [nodes];
    its [Event], if it has one, has the same address in the event loop.  A
    [ConveyorNode] is a chain of conversions that ends at a storage node.  The
    element types of all conveyors are one type [V]: the downcasts
    [ErrorOrValue::as<T>] are correct by the types of the templates.

    What a virtual function of a node does is a computation [M]: it reads and
    changes nodes, and arms, disarms and queries events ([prog]).  The functions
    given to [then] are numbered, and are computations too: they work on a state
    [St] of their own, and may feed conveyors, take from them or destroy them.
    A function that only works on its state is [on_user] of a pure one. *)

From S2P Require Import Prelude Error.
From stdpp Require Import gmap list.
From S2P Require Import EventLoop.
#[local] Open Scope Z_scope.

(** ** Programs of handlers, composed *)
Fixpoint prog_bind {U W} (p : prog U) (k : U -> prog W) : prog W :=
  match p with
  | Done u => k u
  | Arm h e p => Arm h e (prog_bind p k)
  | Disarm e p => Disarm e (prog_bind p k)
  | IsArmed e p => IsArmed e (fun b => prog_bind (p b) k)
  end.

(** ** The nodes *)

(** A [ConveyorNode]: [nullptr], a storage node, [ConvertConveyorNode] or
    [AttachConveyorNode]. *)
Inductive cnode :=
| Null
| Ref (p : positive)
| Convert (func error_func : positive) (child : cnode)
| Attach (child : cnode).

(** How a call of a user function ends. *)
Inductive thrown (A : Type) :=
| Returned (a : A)
| BadAlloc
| StdException.
Arguments Returned {A} a.
Arguments BadAlloc {A}.
Arguments StdException {A}.

(** The members of the derived classes. *)
Inductive node_state (V : Type) :=
| AdaptConveyorNode (feeder : option positive) (storage : list (ErrorOr V))
| QueueBufferConveyorNode (child : cnode) (storage : list (ErrorOr V)) (max_store : Z)
| SinkConveyorNode (child : cnode) (conveyor_sink : option positive)
| ImmediateConveyorNode (value : ErrorOr V) (retrieved : Z)
| MergeConveyorNode (appendages : list positive) (next_appendage : Z)
| Appendage (child : cnode) (merger : positive) (error_or_value : option (ErrorOr V))
| ConveyorSinks (sink_nodes : list (option positive)) (delete_nodes : list positive).
Arguments AdaptConveyorNode {V} feeder storage.
Arguments QueueBufferConveyorNode {V} child storage max_store.
Arguments SinkConveyorNode {V} child conveyor_sink.
Arguments ImmediateConveyorNode {V} value retrieved.
Arguments MergeConveyorNode {V} appendages next_appendage.
Arguments Appendage {V} child merger error_or_value.
Arguments ConveyorSinks {V} sink_nodes delete_nodes.

(** [ConveyorStorage] *)
Record node (V : Type) := mkNode {
  parent : option positive;
  child_storage : option positive;
  state : node_state V
}.
Arguments mkNode {V} parent child_storage state.
Arguments parent {V} n.
Arguments child_storage {V} n.
Arguments state {V} n.

(** [feeders] are the [AdaptConveyorFeeder] objects, each with its [feedee];
    [next_id] is the next free address, [user] the state of the functions. *)
Record net (V St : Type) := mkNet {
  nodes : gmap positive (node V);
  feeders : gmap positive (option positive);
  next_id : positive;
  user : St
}.
Arguments mkNet {V St} nodes feeders next_id user.
Arguments nodes {V St} n.
Arguments feeders {V St} n.
Arguments next_id {V St} n.
Arguments user {V St} n.

(** ** The monad of the virtual functions *)
Section monad.
Context {V St : Type}.

Definition M (A : Type) : Type := net V St -> prog (outcome (A * net V St)).

#[global] Instance M_ret : MRet M := fun A a n => Done (Ret (a, n)).
#[global] Instance M_bind : MBind M := fun A B k m n =>
  prog_bind (m n) (fun r =>
    match r with Ret (a, n) => k a n | Halt f => Done (Halt f) end).

Definition halt {A} (f : fault) : M A := fun n => Done (Halt f).
Definition arm_event (h : how) (e : positive) : M unit :=
  fun n => Arm h e (Done (Ret (tt, n))).
Definition disarm_event (e : positive) : M unit :=
  fun n => Disarm e (Done (Ret (tt, n))).
Definition is_armed (e : positive) : M bool :=
  fun n => IsArmed e (fun b => Done (Ret (b, n))).
Definition update (f : net V St -> net V St) : M unit :=
  fun n => Done (Ret (tt, f n)).
Definition gets {A} (f : net V St -> outcome A) : M A :=
  fun n => Done (match f n with Ret a => Ret (a, n) | Halt h => Halt h end).

(** [SAW_ASSERT] and [assert]: the program ends when the condition is false. *)
Definition ensure (b : bool) : M unit := if b then mret tt else halt AssertionFailed.
Definition when (b : bool) (m : M unit) : M unit := if b then m else mret tt.

(** Access to a node through a pointer; to a destroyed one it is undefined. *)
Definition get_node (p : positive) : M (node V) :=
  gets (fun n => match nodes n !! p with
                 | Some nd => Ret nd
                 | None => Halt UndefinedBehaviour
                 end).
Definition set_nodes f (n : net V St) : net V St :=
  mkNet (f (nodes n)) (feeders n) (next_id n) (user n).
Definition set_feeders f (n : net V St) : net V St :=
  mkNet (nodes n) (f (feeders n)) (next_id n) (user n).
Definition set_user s (n : net V St) : net V St :=
  mkNet (nodes n) (feeders n) (next_id n) s.
Definition put_node (p : positive) (nd : node V) : M unit :=
  update (set_nodes (insert p nd)).
Definition set_state (p : positive) (st : node_state V) : M unit :=
  nd ← get_node p; put_node p (mkNode (parent nd) (child_storage nd) st).
Definition set_child_storage (p : positive) (c : option positive) : M unit :=
  nd ← get_node p; put_node p (mkNode (parent nd) c (state nd)).
Definition set_parent (p : positive) (q : option positive) : M unit :=
  nd ← get_node p; put_node p (mkNode q (child_storage nd) (state nd)).

(** Functions of [then] that do nothing but work on their own state. *)
Definition on_user {A B} (f : positive -> A -> St -> B * St) (i : positive) (a : A) : M B :=
  fun n => let '(b, s) := f i a (user n) in Done (Ret (b, set_user s n)).
End monad.
Arguments M V St A : clear implicits.

(** ** The virtual functions *)
Section virtual.
Context {V St : Type}.
Context (func : positive -> V -> M V St (thrown (ErrorOr V))).
Context (error_func : positive -> Error -> M V St (ErrorOr V)).
#[local] Abbreviation M := (M V St).
Implicit Types p : positive.

(** [space()] *)
Definition AdaptConveyorNode_space (storage : list (ErrorOr V)) : Z :=
  size_max -! zlen storage.
Definition QueueBufferConveyorNode_space (storage : list (ErrorOr V)) (max_store : Z) : Z :=
  max_store -! zlen storage.
Definition SinkConveyorNode_space : Z := 1.
Definition ImmediateConveyorNode_space : Z := 0.
Definition MergeConveyorNode_space : Z := 0.
Definition Appendage_space (error_or_value : option (ErrorOr V)) : Z :=
  match error_or_value with Some _ => 0 | None => 1 end.
Definition space_of (st : node_state V) : Z :=
  match st with
  | AdaptConveyorNode _ storage => AdaptConveyorNode_space storage
  | QueueBufferConveyorNode _ storage max_store =>
      QueueBufferConveyorNode_space storage max_store
  | SinkConveyorNode _ _ => SinkConveyorNode_space
  | ImmediateConveyorNode _ _ => ImmediateConveyorNode_space
  | MergeConveyorNode _ _ => MergeConveyorNode_space
  | Appendage _ _ error_or_value => Appendage_space error_or_value
  | ConveyorSinks _ _ => 0   (* not a storage *)
  end.
Definition space p : M Z := nd ← get_node p; mret (space_of (state nd)).

(** [queued()] of the nodes that hold their elements themselves. *)
Definition AdaptConveyorNode_queued (storage : list (ErrorOr V)) : Z := zlen storage.
Definition QueueBufferConveyorNode_queued (storage : list (ErrorOr V)) : Z := zlen storage.
Definition SinkConveyorNode_queued : Z := 0.
Definition ImmediateConveyorNode_queued (retrieved : Z) : Z := if 1 <? retrieved then 0 else 1.
Definition Appendage_queued (error_or_value : option (ErrorOr V)) : Z :=
  match error_or_value with Some _ => 1 | None => 0 end.
Definition queued_of (st : node_state V) : Z :=
  match st with
  | AdaptConveyorNode _ storage => AdaptConveyorNode_queued storage
  | QueueBufferConveyorNode _ storage _ => QueueBufferConveyorNode_queued storage
  | SinkConveyorNode _ _ => SinkConveyorNode_queued
  | ImmediateConveyorNode _ retrieved => ImmediateConveyorNode_queued retrieved
  | MergeConveyorNode _ _ => 0   (* see [queued] *)
  | Appendage _ _ error_or_value => Appendage_queued error_or_value
  | ConveyorSinks _ _ => 0   (* not a storage *)
  end.
Fixpoint queue_count (appendages : list positive) : M Z :=
  match appendages with
  | [] => mret 0
  | a :: appendages =>
      nd ← get_node a;
      n ← queue_count appendages;
      mret (queued_of (state nd) +! n)
  end.
Definition queued p : M Z :=
  nd ← get_node p;
  match state nd with
  | MergeConveyorNode appendages _ => queue_count appendages
  | st => mret (queued_of st)
  end.

(** The search of [MergeConveyorNode::getResult] in one of its two loops. *)
Fixpoint find_queued (appendages : list positive) (i : Z)
  : M (option (Z * positive)) :=
  match appendages with
  | [] => mret None
  | a :: appendages =>
      nd ← get_node a;
      if 0 <? queued_of (state nd) then mret (Some (i, a))
      else find_queued appendages (i + 1)
  end.

(** [std::move(appendages[i]->error_or_value.value())] and the reset. *)
Definition move_out (a : positive) : M (ErrorOr V) :=
  nd ← get_node a;
  match state nd with
  | Appendage child merger (Some eov) =>
      _ ← set_state a (Appendage child merger None);
      mret eov
  | _ => halt UndefinedBehaviour   (* excluded by [find_queued] *)
  end.

Definition merge_getResult p (appendages : list positive) (next : Z) : M (ErrorOr V) :=
  let next := Z.min (zlen appendages) next in
  later ← find_queued (zdrop next appendages) next;
  found ← match later with
          | Some f => mret (Some f)
          | None => find_queued (ztake next appendages) 0
          end;
  match found with
  | Some (i, a) =>
      eov ← move_out a;
      _ ← set_state p (MergeConveyorNode appendages (i + 1));
      mret eov
  | None =>
      _ ← set_state p (MergeConveyorNode appendages next);
      mret (IsError (criticalError "No value in Merge Appendages"))
  end.

(** [getResult] of the storage nodes; [front()] of an empty queue is undefined. *)
Definition AdaptConveyorNode_getResult p (feeder : option positive)
    (storage : list (ErrorOr V)) : M (ErrorOr V) :=
  match storage with
  | [] =>
      mret (IsError (criticalError
        "Signal for retrieval of storage sent even though no data is present"))
  | front :: storage =>
      _ ← set_state p (AdaptConveyorNode feeder storage); mret front
  end.
Definition QueueBufferConveyorNode_getResult p (child : cnode) (storage : list (ErrorOr V))
    (max_store : Z) : M (ErrorOr V) :=
  match storage with
  | [] => halt UndefinedBehaviour
  | front :: storage =>
      _ ← set_state p (QueueBufferConveyorNode child storage max_store); mret front
  end.
Definition SinkConveyorNode_getResult : M (ErrorOr V) :=
  mret (IsError (criticalError "In a sink node no result can be returned")).
Definition ImmediateConveyorNode_getResult p (value : ErrorOr V) (retrieved : Z)
  : M (ErrorOr V) :=
  let r := if 0 <? retrieved then IsError (makeError "Already taken value" Exhausted)
           else value in
  _ ← when (0 <? queued_of (ImmediateConveyorNode value retrieved))
        (set_state p (ImmediateConveyorNode value (retrieved + 1)));
  mret r.
Definition storage_getResult p : M (ErrorOr V) :=
  nd ← get_node p;
  match state nd with
  | AdaptConveyorNode feeder storage => AdaptConveyorNode_getResult p feeder storage
  | QueueBufferConveyorNode child storage max_store =>
      QueueBufferConveyorNode_getResult p child storage max_store
  | SinkConveyorNode _ _ => SinkConveyorNode_getResult
  | ImmediateConveyorNode value retrieved => ImmediateConveyorNode_getResult p value retrieved
  | MergeConveyorNode appendages next => merge_getResult p appendages next
  | Appendage _ _ _ | ConveyorSinks _ _ => halt UndefinedBehaviour   (* no node *)
  end.

Definition is_null (c : cnode) : bool := match c with Null => true | _ => false end.

(** The [catch] clauses of [ConvertConveyorNode::getImpl] *)
Definition caught (r : thrown (ErrorOr V)) : ErrorOr V :=
  match r with
  | Returned eov => eov
  | BadAlloc => IsError (criticalError "Out of memory")
  | StdException => IsError (criticalError
      ("Exception in chain occured. Return ErrorOr<T> if you " +:+
       "want to handle errors which are recoverable"))
  end.

(** The two overloads of [PropagateError::operator()]: the default [error_func]
    is called with an error that is moved. *)
Definition PropagateError_copy (error : Error) : Error := copyError false error.
Definition PropagateError (error : Error) : Error := error.

Definition ConvertConveyorNode_getImpl (f ef : positive) (child : bool)
    (child_getResult : M (ErrorOr V)) : M (ErrorOr V) :=
  if child then
    dep_eov ← child_getResult;
    match dep_eov with
    | IsValue v => r ← func f v; mret (caught r)
    | IsError e => error_func ef e
    end
  else mret (IsError (criticalError "Conveyor doesn't have child")).
Definition AttachConveyorNodeBase_getResult (child : bool)
    (child_getResult : M (ErrorOr V)) : M (ErrorOr V) :=
  if child then child_getResult else mret ErrorOr_default.

(** [getResult] of any node *)
Fixpoint getResult (c : cnode) : M (ErrorOr V) :=
  match c with
  | Null => halt UndefinedBehaviour
  | Ref p => storage_getResult p
  | Convert f ef child =>
      ConvertConveyorNode_getImpl f ef (negb (is_null child)) (getResult child)
  | Attach child => AttachConveyorNodeBase_getResult (negb (is_null child)) (getResult child)
  end.

Definition is_critical (x : ErrorOr V) : bool :=
  match x with IsError e => isCritical e | IsValue _ => false end.

Definition arm_unless_armed (h : how) p : M unit :=
  armed ← is_armed p; when (negb armed) (arm_event h p).

(** [storage.push(...)] and [error_or_value = ...], on what is there after the
    functions of the chain have run. *)
Definition storage_push p (eov : ErrorOr V) : M unit :=
  nd ← get_node p;
  match state nd with
  | QueueBufferConveyorNode child storage max_store =>
      set_state p (QueueBufferConveyorNode child (storage ++ [eov]) max_store)
  | _ => halt UndefinedBehaviour   (* excluded by the C++ types *)
  end.
Definition set_error_or_value p (eov : ErrorOr V) : M unit :=
  nd ← get_node p;
  match state nd with
  | Appendage child merger _ => set_state p (Appendage child merger (Some eov))
  | _ => halt UndefinedBehaviour   (* excluded by the C++ types *)
  end.

(** [childHasFired()] *)
Definition QueueBufferConveyorNode_childHasFired p (child : cnode)
    (storage : list (ErrorOr V)) (max_store : Z) : M unit :=
  when (negb (is_null child) && (zlen storage <? max_store))
    (eov ← getResult child;
     _ ← when (is_critical eov) (set_child_storage p None);
     _ ← storage_push p eov;
     arm_unless_armed Later p).
(** [ConveyorSinks::fail]: its body is a comment. *)
Definition ConveyorSinks_fail (sinks : positive) (error : Error) : M unit := mret tt.
Definition SinkConveyorNode_childHasFired p (child : cnode) (conveyor_sink : option positive)
  : M unit :=
  when (negb (is_null child))
    (dep_eov ← getResult child;
     match dep_eov with
     | IsError error =>
         _ ← when (isCritical error) (arm_unless_armed Last p);
         match conveyor_sink with
         | Some sinks => ConveyorSinks_fail sinks error
         | None => mret tt
         end
     | IsValue _ => mret tt
     end).
Definition Appendage_childHasFired p (child : cnode) (merger : positive)
    (error_or_value : option (ErrorOr V)) : M unit :=
  _ ← ensure (match error_or_value with Some _ => false | None => true end);
  eov ← getResult child;
  _ ← set_error_or_value p eov;
  arm_unless_armed Later merger.
Definition AdaptConveyorNode_childHasFired : M unit := halt AssertionFailed.
Definition ImmediateConveyorNode_childHasFired : M unit := halt AssertionFailed.
Definition MergeConveyorNode_childHasFired : M unit := halt AssertionFailed.
Definition childHasFired p : M unit :=
  nd ← get_node p;
  match state nd with
  | QueueBufferConveyorNode child storage max_store =>
      QueueBufferConveyorNode_childHasFired p child storage max_store
  | SinkConveyorNode child conveyor_sink =>
      SinkConveyorNode_childHasFired p child conveyor_sink
  | Appendage child merger error_or_value =>
      Appendage_childHasFired p child merger error_or_value
  | AdaptConveyorNode _ _ => AdaptConveyorNode_childHasFired
  | ImmediateConveyorNode _ _ => ImmediateConveyorNode_childHasFired
  | MergeConveyorNode _ _ => MergeConveyorNode_childHasFired
  | ConveyorSinks _ _ => halt UndefinedBehaviour   (* not a storage *)
  end.

(** [SAW_ASSERT(parent)] *)
Definition some_parent (nd : node V) : M positive :=
  match parent nd with Some q => mret q | None => halt AssertionFailed end.

(** [parentHasFired()]; [nd] is the node itself. *)
Definition AdaptConveyorNode_parentHasFired (nd : node V) : M unit :=
  q ← some_parent nd; s ← space q; mret tt.
Definition QueueBufferConveyorNode_parentHasFired p (nd : node V)
    (storage : list (ErrorOr V)) : M unit :=
  q ← some_parent nd;
  s ← space q;
  if s =? 0 then mret tt
  else when (0 <? zlen storage) (arm_event Later p).
Definition ImmediateConveyorNode_parentHasFired p (nd : node V) : M unit :=
  q ← some_parent nd;
  s ← space q;
  _ ← ensure (0 <? s);
  when (0 <? queued_of (state nd)) (arm_event Next p).
Definition MergeConveyorNode_parentHasFired p (nd : node V) : M unit :=
  q ← some_parent nd;
  n ← queued p;
  if 0 <? n then s ← space q; when (0 <? s) (arm_event Later p) else mret tt.
Definition parentHasFired_event p : M unit :=
  nd ← get_node p;
  match state nd with
  | AdaptConveyorNode _ _ => AdaptConveyorNode_parentHasFired nd
  | QueueBufferConveyorNode _ storage _ => QueueBufferConveyorNode_parentHasFired p nd storage
  | SinkConveyorNode _ _ => mret tt
  | ImmediateConveyorNode _ _ => ImmediateConveyorNode_parentHasFired p nd
  | MergeConveyorNode _ _ => MergeConveyorNode_parentHasFired p nd
  | Appendage _ _ _ | ConveyorSinks _ _ => halt UndefinedBehaviour   (* no such child *)
  end.

(** The child of an [Appendage] is the storage of a conveyor, never an
    [Appendage] itself. *)
Definition Appendage_parentHasFired (nd : node V) : M unit :=
  match child_storage nd with Some c => parentHasFired_event c | None => mret tt end.
Definition parentHasFired p : M unit :=
  nd ← get_node p;
  match state nd with
  | Appendage _ _ _ => Appendage_parentHasFired nd
  | _ => parentHasFired_event p
  end.

(** [setParent] with a parent that is not null. *)
Definition Appendage_setParent p (child : cnode) (par : positive) : M unit :=
  _ ← ensure (negb (is_null child));
  set_parent p (Some par).
Definition ConveyorEventStorage_setParent p (nd : node V) (par : positive) : M unit :=
  armed ← is_armed p;
  n ← (if armed : bool then mret 0 else queued p);
  _ ← when (negb armed && (0 <? n))
        (_ ← ensure (match parent nd with Some _ => false | None => true end);
         s ← space par;
         when (0 <? s) (arm_event Later p));
  set_parent p (Some par).
Definition setParent p (par : positive) : M unit :=
  nd ← get_node p;
  match state nd with
  | Appendage child _ _ => Appendage_setParent p child par
  | ConveyorSinks _ _ => halt UndefinedBehaviour   (* not a storage *)
  | _ => ConveyorEventStorage_setParent p nd par
  end.

(** ** Destructors *)

(** The storage node a chain of conversions owns. *)
Fixpoint leaf (c : cnode) : option positive :=
  match c with
  | Null => None
  | Ref p => Some p
  | Convert _ _ child | Attach child => leaf child
  end.

Definition unlinkChild p : M unit := set_child_storage p None.

(** [AdaptConveyorFeeder::setFeedee] and [AdaptConveyorNode::setFeeder] *)
Definition setFeedee (f : positive) (feedee : option positive) : M unit :=
  update (set_feeders (insert f feedee)).
Definition setFeeder p (feeder : option positive) : M unit :=
  nd ← get_node p;
  match state nd with
  | AdaptConveyorNode _ storage => set_state p (AdaptConveyorNode feeder storage)
  | _ => halt UndefinedBehaviour   (* excluded by the C++ types *)
  end.

Definition AdaptConveyorNode_destructor (feeder : option positive) : M unit :=
  match feeder with Some f => setFeedee f None | None => mret tt end.
Definition ConveyorStorage_destructor (parent : option positive) : M unit :=
  match parent with Some q => unlinkChild q | None => mret tt end.

(** [~AdaptConveyorNode], [~OwnedMembers], [~Event], [~ConveyorStorage], in this
    order.  [fuel] bounds the depth of ownership. *)
Fixpoint destroy (fuel : nat) p : M unit :=
  match fuel with
  | O => halt Diverges
  | S fuel =>
      nd ← get_node p;
      _ ← match state nd with
          | AdaptConveyorNode feeder _ => AdaptConveyorNode_destructor feeder
          | QueueBufferConveyorNode child _ _ | SinkConveyorNode child _
          | Appendage child _ _ =>
              match leaf child with Some c => destroy fuel c | None => mret tt end
          | MergeConveyorNode appendages _ =>
              foldr (fun a m => _ ← destroy fuel a; m) (mret tt) appendages
          | _ => mret tt
          end;
      _ ← match state nd with
          | Appendage _ _ _ => mret tt   (* no event *)
          | _ => disarm_event p
          end;
      _ ← ConveyorStorage_destructor (parent nd);
      update (set_nodes (delete p))
  end.
Definition destroy_child (child : cnode) : M unit := fun n =>
  match leaf child with
  | Some c => destroy (S (size (nodes n))) c n
  | None => Done (Ret (tt, n))
  end.

(** ** [fire] *)

(** [ConveyorSinks::destroySinkConveyorNode] *)
Definition destroySinkConveyorNode (sinks p : positive) : M unit :=
  _ ← arm_unless_armed Last sinks;
  nd ← get_node sinks;
  match state nd with
  | ConveyorSinks sink_nodes delete_nodes =>
      set_state sinks (ConveyorSinks sink_nodes (delete_nodes ++ [p]))
  | _ => halt UndefinedBehaviour   (* excluded by the C++ types *)
  end.

(** What [std::remove_if] does to pointers that own what they point to, without
    a later [erase]: those behind the match move one place to the front, the
    first of these moves destroys what matched, and the last place is left null;
    a match at the end stays as it is. *)
Fixpoint remove_if (p : positive) (l : list (option positive))
  : list (option positive) * bool :=
  match l with
  | [] => ([], false)
  | x :: l =>
      if decide (x = Some p) then
        match l with [] => ([x], false) | _ => (l ++ [None], true) end
      else let '(l, destroyed) := remove_if p l in (x :: l, destroyed)
  end.

Fixpoint ConveyorSinks_fire (sinks : positive) (delete_nodes : list positive)
    (sink_nodes : list (option positive)) : M unit :=
  match delete_nodes with
  | [] => mret tt
  | d :: delete_nodes =>
      let '(sink_nodes, destroyed) := remove_if d sink_nodes in
      _ ← when destroyed (destroy_child (Ref d));
      _ ← set_state sinks (ConveyorSinks sink_nodes delete_nodes);
      ConveyorSinks_fire sinks delete_nodes sink_nodes
  end.

Definition SinkConveyorNode_fire p (child : cnode) (conveyor_sink : option positive)
  : M unit :=
  _ ← destroy_child child;
  _ ← set_state p (SinkConveyorNode Null conveyor_sink);
  match conveyor_sink with
  | Some sinks =>
      _ ← destroySinkConveyorNode sinks p;
      set_state p (SinkConveyorNode Null None)
  | None => mret tt
  end.

(** [parent->space()], of the parent there is after [childHasFired]. *)
Definition parent_space p : M Z :=
  nd ← get_node p;
  match parent nd with Some q => space q | None => halt UndefinedBehaviour end.

Definition QueueBufferConveyorNode_fire p : M unit :=
  nd ← get_node p;
  match state nd with
  | QueueBufferConveyorNode child storage max_store =>
      _ ← when (negb (is_null child) &&
                match storage with front :: _ => is_critical front | [] => false end)
            (_ ← destroy_child child;
             _ ← set_state p (QueueBufferConveyorNode Null storage max_store);
             set_child_storage p None);
      let has_space_before_fire := 0 <? space_of (state nd) in
      _ ← match parent nd with
          | None => mret tt
          | Some q =>
              _ ← childHasFired q;
              n ← queued p;
              if 0 <? n then s ← parent_space p; when (0 <? s) (arm_event Later p) else mret tt
          end;
      nd ← get_node p;
      match child_storage nd with
      | Some c => when (negb has_space_before_fire) (parentHasFired c)
      | None => mret tt
      end
  | _ => halt UndefinedBehaviour   (* excluded by the C++ types *)
  end.

Definition AdaptConveyorNode_fire p (nd : node V) : M unit :=
  match parent nd with
  | None => mret tt
  | Some q =>
      _ ← childHasFired q;
      n ← queued p;
      when (0 <? n) (arm_event Later p)
  end.

(** [fire] of an [ImmediateConveyorNode] and of a [MergeConveyorNode] pass an
    element on and arm themselves again, while there is room. *)
Definition pass_on p (again : how) : M unit :=
  nd ← get_node p;
  match parent nd with
  | None => mret tt
  | Some q =>
      _ ← childHasFired q;
      n ← queued p;
      if 0 <? n then s ← parent_space p; when (0 <? s) (arm_event again p) else mret tt
  end.
Definition ImmediateConveyorNode_fire p : M unit := pass_on p Last.
Definition MergeConveyorNode_fire p : M unit :=
  n ← queued p;
  _ ← ensure (0 <? n);
  pass_on p Later.

Definition fire p : M unit :=
  nd ← get_node p;
  match state nd with
  | AdaptConveyorNode _ _ => AdaptConveyorNode_fire p nd
  | QueueBufferConveyorNode _ _ _ => QueueBufferConveyorNode_fire p
  | SinkConveyorNode child conveyor_sink => SinkConveyorNode_fire p child conveyor_sink
  | ImmediateConveyorNode _ _ => ImmediateConveyorNode_fire p
  | MergeConveyorNode _ _ => MergeConveyorNode_fire p
  | ConveyorSinks sink_nodes delete_nodes => ConveyorSinks_fire p delete_nodes sink_nodes
  | Appendage _ _ _ => halt UndefinedBehaviour   (* no event *)
  end.

(** The handler of the event [e]; a fault ends the program. *)
Definition fire_event (e : positive) (n : outcome (net V St))
  : prog (outcome (net V St)) :=
  match n with
  | Halt f => Done (Halt f)
  | Ret n => prog_bind (fire e n) (fun r =>
      Done (match r with Ret (_, n) => Ret n | Halt f => Halt f end))
  end.
End virtual.

(** ** What a client of the library calls *)
Record Conveyor := mkConveyor { conveyor_node : cnode; storage : option positive }.

Section client.
Context {V St : Type}.
Context (func : positive -> V -> M V St (thrown (ErrorOr V))).
Context (error_func : positive -> Error -> M V St (ErrorOr V)).
#[local] Abbreviation M := (M V St).

(** The nodes, feeders and functions' state, and the event loop. *)
Record world := mkWorld { conveyors : net V St; loop : EventLoop }.

Definition run {A} (m : M A) (w : world) : outcome (A * world) :=
  '(r, l) ← exec (m (conveyors w)) (loop w);
  '(a, n) ← r;
  Ret (a, mkWorld n l).

(** [heap] of a node, with or without an event. *)
Definition new_node (has_event : bool) (nd : node V) (w : world) : positive * world :=
  let n := conveyors w in
  let p := next_id n in
  (p, mkWorld (mkNet (<[p := nd]> (nodes n)) (feeders n) (Pos.succ p) (user n))
        (if has_event then create_event p (loop w) else loop w)).

(** [newConveyorAndFeeder()] *)
Definition newConveyorAndFeeder (w : world) : positive * Conveyor * world :=
  let n := conveyors w in
  let f := next_id n in
  let p := Pos.succ f in
  let w := mkWorld (mkNet (nodes n) (<[f := Some p]> (feeders n)) p (user n)) (loop w) in
  let '(p, w) := new_node true (mkNode None None (AdaptConveyorNode (Some f) [])) w in
  (f, mkConveyor (Ref p) (Some p), w).

(** [Conveyor(FixVoid<T>)] and [Conveyor(Error &&)] *)
Definition immediateConveyor (value : ErrorOr V) (w : world) : Conveyor * world :=
  let '(p, w) := new_node true (mkNode None None (ImmediateConveyorNode value 0)) w in
  (mkConveyor (Ref p) (Some p), w).

Definition conv_then (f ef : positive) (c : Conveyor) : Conveyor :=
  mkConveyor (Convert f ef (conveyor_node c)) (storage c).
Definition conv_attach (c : Conveyor) : Conveyor :=
  mkConveyor (Attach (conveyor_node c)) (storage c).

(** [execLater(func)]; [void] is the element of [FixVoid<void>], and [ef] the error
    function that [then] takes by default. *)
Definition execLater (void : V) (f ef : positive) (w : world) : Conveyor * world :=
  let '(c, w) := immediateConveyor (IsValue void) w in (conv_then f ef c, w).

(** [SAW_ASSERT(storage)] and [storage->setParent(p)] *)
Definition set_storage_parent (c : Conveyor) (p : positive) (w : world)
  : outcome (unit * world) :=
  match storage c with
  | Some s => run (setParent s p) w
  | None => Halt AssertionFailed
  end.

Definition conv_buffer (size : Z) (c : Conveyor) (w : world)
  : outcome (Conveyor * world) :=
  let '(p, w) := new_node true (mkNode None (storage c)
                   (QueueBufferConveyorNode (conveyor_node c) [] size)) w in
  '(_, w) ← set_storage_parent c p w;
  Ret (mkConveyor (Ref p) (Some p), w).

(** [sink()]; the [SinkConveyor] owns the node. *)
Definition conv_sink (c : Conveyor) (w : world) : outcome (positive * world) :=
  let '(p, w) := new_node true (mkNode None (storage c)
                   (SinkConveyorNode (conveyor_node c) None)) w in
  '(_, w) ← set_storage_parent c p w;
  Ret (p, w).

(** [if (nas.second) { nas.second->setParent(...); }] *)
Definition set_parent_if (c : Conveyor) (p : positive) (w : world)
  : outcome (unit * world) :=
  match storage c with
  | Some s => run (setParent s p) w
  | None => Ret (tt, w)
  end.

(** [MergeConveyorNodeData::attach] *)
Definition merge_attach (merger : positive) (c : Conveyor) (w : world)
  : outcome (unit * world) :=
  let '(a, w) := new_node false (mkNode None (storage c)
                   (Appendage (conveyor_node c) merger None)) w in
  '(_, w) ← set_parent_if c a w;
  run (nd ← get_node merger;
       match state nd with
       | MergeConveyorNode appendages next =>
           set_state merger (MergeConveyorNode (appendages ++ [a]) next)
       | _ => halt UndefinedBehaviour   (* excluded by the C++ types *)
       end) w.

(** A [MergeConveyor] holds a weak pointer to the data of the merge node, which
    lives as long as the node. *)
Definition MergeConveyor := positive.
Definition MergeConveyor_attach (merger : MergeConveyor) (c : Conveyor) (w : world)
  : outcome (unit * world) :=
  match nodes (conveyors w) !! merger with
  | Some _ => merge_attach merger c w
  | None => Halt AssertionFailed
  end.

Definition conv_merge (c : Conveyor) (w : world) : outcome (Conveyor * MergeConveyor * world) :=
  let '(p, w) := new_node true (mkNode None None (MergeConveyorNode [] 0)) w in
  '(_, w) ← merge_attach p c w;
  Ret (mkConveyor (Ref p) (Some p), p, w).

(** [ConveyorSinks::add] *)
Definition sinks_add (sinks : positive) (c : Conveyor) (w : world)
  : outcome (unit * world) :=
  let '(p, w) := new_node true (mkNode None (storage c)
                   (SinkConveyorNode (conveyor_node c) (Some sinks))) w in
  '(_, w) ← set_parent_if c p w;
  run (nd ← get_node sinks;
       match state nd with
       | ConveyorSinks sink_nodes delete_nodes =>
           set_state sinks (ConveyorSinks (sink_nodes ++ [Some p]) delete_nodes)
       | _ => halt UndefinedBehaviour   (* excluded by the C++ types *)
       end) w.
Definition new_daemon (w : world) : positive * world :=
  new_node true (mkNode None None (ConveyorSinks [] [])) w.

(** [EventLoop::daemon()]: [d] is the member [daemon_sink]. *)
Definition daemon (d : option positive) (w : world) : positive * world :=
  match d with Some d => (d, w) | None => new_daemon w end.
Definition detachConveyor (d : option positive) (c : Conveyor) (w : world)
  : outcome (option positive * world) :=
  _ ← assert_that (bool_decide (local_loop (loop w) <> None));
  let '(sink, w) := daemon d w in
  '(_, w) ← sinks_add sink c w;
  Ret (Some sink, w).
Definition conv_detach (f ef : positive) (d : option positive) (c : Conveyor) (w : world)
  : outcome (option positive * world) := detachConveyor d (conv_then f ef c) w.

(** A feeder whose node is gone ignores the call. *)
Definition feedee (f : positive) : M (option positive) :=
  gets (fun n => match feeders n !! f with
                 | Some feedee => Ret feedee
                 | None => Halt UndefinedBehaviour
                 end).
Definition adapt_push (p : positive) (x : ErrorOr V) : M unit :=
  nd ← get_node p;
  match state nd with
  | AdaptConveyorNode feeder storage =>
      set_state p (AdaptConveyorNode feeder (storage ++ [x]))
  | _ => halt UndefinedBehaviour   (* excluded by the C++ types *)
  end.
Definition AdaptConveyorNode_feed (p : positive) (value : V) : M unit :=
  _ ← adapt_push p (IsValue value); arm_event Next p.
Definition AdaptConveyorNode_fail (p : positive) (error : Error) : M unit :=
  _ ← adapt_push p (IsError error); arm_event Next p.
Definition AdaptConveyorFeeder_feed (f : positive) (value : V) : M unit :=
  feedee ← feedee f;
  match feedee with Some p => AdaptConveyorNode_feed p value | None => mret tt end.
Definition AdaptConveyorFeeder_fail (f : positive) (error : Error) : M unit :=
  feedee ← feedee f;
  match feedee with Some p => AdaptConveyorNode_fail p error | None => mret tt end.

(** [feed] or [fail], by the element *)
Definition feed (f : positive) (x : ErrorOr V) : M unit :=
  match x with
  | IsValue value => AdaptConveyorFeeder_feed f value
  | IsError error => AdaptConveyorFeeder_fail f error
  end.
Definition feeder_space (f : positive) : M Z :=
  feedee ← feedee f; match feedee with Some p => space p | None => mret 0 end.
Definition feeder_queued (f : positive) : M Z :=
  feedee ← feedee f; match feedee with Some p => queued p | None => mret 0 end.

(** [~AdaptConveyorFeeder] *)
Definition destroy_feeder (f : positive) : M unit :=
  feedee ← feedee f;
  _ ← match feedee with Some p => setFeeder p None | None => mret tt end;
  update (set_feeders (delete f)).

Definition take (c : Conveyor) : M (ErrorOr V) :=
  match storage c with
  | None => mret (IsError (criticalError "Conveyor in invalid state"))
  | Some s =>
      n ← queued s;
      if 0 <? n then getResult func error_func (conveyor_node c)
      else mret (IsError (recoverableError "Conveyor buffer has no elements"))
  end.

(** [WaitScope::wait] and [poll] without an event port. *)
Definition poll (w : world) : outcome (bool * world) :=
  '(b, r, l) ← wait (fire_event func error_func) None (Ret (conveyors w)) (loop w);
  n ← r;
  Ret (b, mkWorld n l).

Definition new_world (s : St) : world :=
  mkWorld (mkNet ∅ ∅ 1 s) (set_local (Some 1%positive) (new_loop 1)).
End client.
Arguments world V St : clear implicits.
