(* ===== verification/ConveyorRules.v ===== *)
(** Reasoning about the conveyor nodes of [Conveyor.v]: rules for computations
    that run to their end against the queue of [EventQueue.v], their effect on
    the event loop, and an invariant rule that holds on every path. *)

From S2P Require Import Prelude Error.
From stdpp Require Import gmap list.
From S2P Require Import EventLoop EventQueue EventTheory Conveyor.
#[local] Open Scope Z_scope.

Create HintDb conveyor.

(** The methods of the node classes, behind the dispatch. *)
Ltac unfold_methods :=
  unfold AdaptConveyorNode_getResult, QueueBufferConveyorNode_getResult,
    SinkConveyorNode_getResult, ImmediateConveyorNode_getResult,
    QueueBufferConveyorNode_childHasFired, SinkConveyorNode_childHasFired,
    Appendage_childHasFired, AdaptConveyorNode_childHasFired,
    ImmediateConveyorNode_childHasFired, MergeConveyorNode_childHasFired,
    AdaptConveyorNode_parentHasFired, QueueBufferConveyorNode_parentHasFired,
    ImmediateConveyorNode_parentHasFired, MergeConveyorNode_parentHasFired,
    Appendage_parentHasFired, Appendage_setParent, ConveyorEventStorage_setParent,
    ConvertConveyorNode_getImpl, AttachConveyorNodeBase_getResult, ConveyorSinks_fail,
    AdaptConveyorNode_fire, ImmediateConveyorNode_fire, MergeConveyorNode_fire.

Lemma exec_bind {U W} (p : prog U) (k : U -> prog W) q :
  Queue.exec (prog_bind p k) q = '(u, q) ← Queue.exec p q; Queue.exec (k u) q.
Proof.
  revert q. induction p as [u|h e p IH|e p IH|e p IH]; intros q; cbn; auto.
  by destruct (Queue.at_insert_point e q).
Qed.

Lemma legal_bind {U W} ids (p : prog U) (k : U -> prog W) q :
  legal ids p q ->
  (forall u q', Queue.exec p q = Some (u, q') -> legal ids (k u) q') ->
  legal ids (prog_bind p k) q.
Proof.
  revert q. induction p as [u|h e p IH|e p IH|e p IH]; intros q; cbn.
  - auto.
  - intros [? ?] ?. eauto.
  - intros [? Hl] Hk. split; [done|].
    destruct (Queue.at_insert_point e q); [done|]. by apply IH.
  - intros [? ?] ?. eauto.
Qed.

(** ** Arming, on the queue *)
Section arming.
Implicit Types q : queue.

Lemma arm_rest h e q : h <> Last -> rest (Queue.arm h e q) = rest q.
Proof. unfold Queue.arm. case_decide; [done|]. by destruct h. Qed.

Lemma arm_nodup h e q : NoDup (items q) -> NoDup (items (Queue.arm h e q)).
Proof.
  unfold Queue.arm. case_decide as Hin; [done|]. intros Hnd.
  match goal with |- NoDup ?l => assert (Hp : l ≡ₚ e :: items q) end.
  { destruct h; unfold items; cbn; solve_Permutation. }
  rewrite Hp. by apply NoDup_cons.
Qed.

Lemma arm_elem h e q x : x ∈ items (Queue.arm h e q) <-> x ∈ items q \/ x = e.
Proof.
  unfold Queue.arm. case_decide as Hin; [naive_solver|].
  unfold items. destruct h; cbn; set_solver.
Qed.

Lemma pop_rest q e q1 : Queue.pop q = Some (e, q1) -> rest q = [] -> rest q1 = [].
Proof.
  unfold Queue.pop. intros Hp Hr. rewrite Hr in Hp.
  destruct (now q ++ soon q); [done|]. by injection Hp as _ <-.
Qed.
End arming.

(** ** Runs *)
Section runs.
Context {V St : Type}.
Context (func : positive -> V -> M V St (thrown (ErrorOr V))).
Context (error_func : positive -> Error -> M V St (ErrorOr V)).
Context (ids : gset positive).
#[local] Abbreviation M := (M V St).
Implicit Types (n : net V St) (q : queue).

(** Started with the nodes [n] and the queue [q], [m] returns [a] with [n'] and
    [q'], and touches living events only. *)
Definition does {A} (m : M A) n q (a : A) n' q' : Prop :=
  Queue.exec (m n) q = Some (Ret (a, n'), q') /\ legal ids (m n) q.

Lemma does_ret {A} (a : A) n q : does (mret a) n q a n q.
Proof. done. Qed.

Lemma does_bind {A B} (m : M A) (k : A -> M B) n q a n1 q1 b n2 q2 :
  does m n q a n1 q1 -> does (k a) n1 q1 b n2 q2 -> does (m ≫= k) n q b n2 q2.
Proof.
  intros [Hm Hlm] [Hk Hlk]. unfold does, mbind, M_bind. split.
  - by rewrite exec_bind, Hm.
  - apply legal_bind; [done|]. intros r q'. rewrite Hm. by intros [= <- <-].
Qed.

Lemma does_update f n q : does (update f) n q tt (f n) q.
Proof. done. Qed.

Lemma does_arm h e n q :
  e ∈ ids -> does (arm_event h e) n q tt n (Queue.arm h e q).
Proof. done. Qed.

Lemma does_is_armed e n q :
  e ∈ ids -> does (is_armed e) n q (bool_decide (e ∈ items q)) n q.
Proof. done. Qed.

Lemma does_arm_unless h e n q :
  e ∈ ids -> does (arm_unless_armed h e) n q tt n (Queue.arm h e q).
Proof.
  intros He. eapply does_bind; [by apply does_is_armed|].
  unfold Queue.arm. case_bool_decide; case_decide; try done.
  cbn [negb when]. unfold does. cbn. unfold Queue.arm. by rewrite decide_False.
Qed.

Lemma does_when_true m n q n' q' :
  does m n q tt n' q' -> does (when true m) n q tt n' q'.
Proof. done. Qed.

Lemma does_get_node p nd n q :
  nodes n !! p = Some nd -> does (get_node p) n q nd n q.
Proof. intros Hn. unfold does, get_node, gets. cbn. by rewrite Hn. Qed.

Lemma does_space p nd n q :
  nodes n !! p = Some nd -> does (space p) n q (space_of (state nd)) n q.
Proof. intros Hn. eapply does_bind; [by apply does_get_node|]. apply does_ret. Qed.

Lemma does_parent_space p nd np n (q : positive) (r : queue) :
  nodes n !! p = Some nd -> parent nd = Some q ->
  nodes n !! q = Some np ->
  does (parent_space p) n r (space_of (state np)) n r.
Proof.
  intros Hp Hq Hn. eapply does_bind; [by apply does_get_node|]. rewrite Hq.
  by apply does_space.
Qed.

Lemma does_set_state p nd st n q :
  nodes n !! p = Some nd ->
  does (set_state p st) n q tt
    (set_nodes (insert p (mkNode (parent nd) (child_storage nd) st)) n) q.
Proof. intros Hn. eapply does_bind; [by apply does_get_node|]. apply does_update. Qed.

Lemma does_set_parent p nd par n q :
  nodes n !! p = Some nd ->
  does (set_parent p par) n q tt
    (set_nodes (insert p (mkNode par (child_storage nd) (state nd))) n) q.
Proof. intros Hn. eapply does_bind; [by apply does_get_node|]. apply does_update. Qed.

Lemma does_push p par ch c l mx x n q :
  nodes n !! p = Some (mkNode par ch (QueueBufferConveyorNode c l mx)) ->
  does (storage_push p x) n q tt
    (set_nodes (insert p (mkNode par ch (QueueBufferConveyorNode c (l ++ [x]) mx))) n) q.
Proof.
  intros Hn. eapply does_bind; [by apply does_get_node|].
  exact (does_set_state _ _ _ _ q Hn).
Qed.

(** [feed] and [fail] *)
Lemma does_feed f p par ch fd l x n q :
  p ∈ ids -> feeders n !! f = Some (Some p) ->
  nodes n !! p = Some (mkNode par ch (AdaptConveyorNode fd l)) ->
  does (feed f x) n q tt
    (set_nodes (insert p (mkNode par ch (AdaptConveyorNode fd (l ++ [x])))) n)
    (Queue.arm Next p q).
Proof.
  intros Hp Hf Hn.
  destruct x as [e|v]; (eapply does_bind;
    [unfold does, feedee, gets; cbn; by rewrite Hf|]; cbn beta iota;
    eapply does_bind; [|by apply does_arm];
    eapply does_bind; [by apply does_get_node|exact (does_set_state _ _ _ _ q Hn)]).
Qed.

(** A function that only works on its state *)
Lemma does_on_user {A B} (g : positive -> A -> St -> B * St) i a n q :
  does (on_user g i a) n q (g i a (user n)).1 (set_user (g i a (user n)).2 n) q.
Proof. unfold does, on_user. by destruct (g i a (user n)). Qed.

(** Whole turns. *)
Definition turns (steps : nat) n q n' q' : Prop :=
  Queue.run (fire_event func error_func) steps (Ret n) q = Some (Ret n', q') /\
  legal_run ids (fire_event func error_func) steps (Ret n) q.

Lemma turns_done steps n q : items q = [] -> turns steps n q n q.
Proof.
  intros Hq. destruct q as [now soon rest]. unfold items in Hq. cbn in Hq.
  apply app_eq_nil in Hq as [-> Hq]. apply app_eq_nil in Hq as [-> ->].
  by destruct steps.
Qed.

Lemma turns_step steps e n q q1 n1 q2 n' q' :
  Queue.pop q = Some (e, q1) -> does (fire func error_func e) n q1 tt n1 q2 ->
  turns steps n1 q2 n' q' -> turns (S steps) n q n' q'.
Proof.
  intros Hp [Hf Hlf] [Hr Hlr]. unfold turns. cbn [Queue.run legal_run]. rewrite Hp.
  assert (Hx : Queue.exec (fire_event func error_func e (Ret n)) q1 = Some (Ret n1, q2)).
  { cbn [fire_event]. by rewrite exec_bind, Hf. }
  rewrite Hx. cbn [mbind option_bind]. split_and!; [done| |].
  - cbn [fire_event]. apply legal_bind; [done|]. intros r q3. rewrite Hf.
    by intros [= <- <-].
  - intros u' q3. by intros [= <- <-].
Qed.
End runs.

(** ** On the event loop *)
Section loop.
Context {V St : Type}.
Context (func : positive -> V -> M V St (thrown (ErrorOr V))).
Context (error_func : positive -> Error -> M V St (ErrorOr V)).
Implicit Types w : world V St.

Lemma run_does {A} (m : M V St A) w q a n' q' :
  repr (loop w) q -> entered (loop w) ->
  does (dom (events (loop w))) m (conveyors w) q a n' q' ->
  exists l', run m w = Ret (a, mkWorld n' l') /\ repr l' q' /\ same_world (loop w) l'.
Proof.
  intros Hr He [Hx Hl]. destruct (exec_refines _ _ _ _ _ Hr He Hl Hx) as (l'&Hl'&?&?).
  exists l'. unfold run. by rewrite Hl'.
Qed.

Lemma poll_turns w q n' q' :
  repr (loop w) q -> entered (loop w) ->
  turns func error_func (dom (events (loop w))) (Z.to_nat 65536) (conveyors w) q n' q' ->
  exists l', poll func error_func w = Ret (true, mkWorld n' l') /\ repr l' q' /\
    same_world (loop w) l'.
Proof.
  intros Hr He [Hx Hl].
  destruct (turn_loop_refines _ _ _ _ _ _ _ Hr He Hl Hx) as (l'&Hl'&?&?).
  exists l'. unfold poll, wait, turnLoop. by rewrite bind_ret, Hl'.
Qed.
End loop.
