(* ===== verification/ConveyorPipeline.v ===== *)
(** Pipelines of conveyors: a feeder, any number of stages of conversions and a
    buffer, and a sink, as [newConveyorAndFeeder], [then], [buffer] and [sink]
    build them.  The pipeline refines a list of bounded queues: every element
    reaches the sink, once, in order, in a bounded number of turns. *)

From S2P Require Import Prelude Error.
From stdpp Require Import gmap list.
From S2P Require Import EventLoop EventQueue Conveyor ConveyorRules.
#[local] Open Scope Z_scope.

(** A stage: the functions given to [then], and the limit of its [buffer]. *)
Record stage := mkStage { convs : list (positive * positive); limit : Z }.

(** ** The client *)
Section client.
Context {V St : Type}.
Context (func : positive -> V -> St -> thrown (ErrorOr V) * St).
Context (error_func : positive -> Error -> St -> ErrorOr V * St).
Implicit Types w : world V St.

Fixpoint thens (cs : list (positive * positive)) (c : Conveyor) : Conveyor :=
  match cs with [] => c | (f, ef) :: cs => thens cs (conv_then f ef c) end.

Fixpoint buffers (ss : list stage) (c : Conveyor) w : outcome (Conveyor * world V St) :=
  match ss with
  | [] => Ret (c, w)
  | s :: ss =>
      '(c, w) ← conv_buffer (limit s) (thens (convs s) c) w;
      buffers ss c w
  end.

Definition pipeline (ss : list stage) (final : list (positive * positive)) w
  : outcome (positive * positive * world V St) :=
  let '(f, c, w) := newConveyorAndFeeder w in
  '(c, w) ← buffers ss c w;
  '(s, w) ← conv_sink (thens final c) w;
  Ret (f, s, w).

Fixpoint feeds (f : positive) (xs : list (ErrorOr V)) w : outcome (world V St) :=
  match xs with
  | [] => Ret w
  | x :: xs => '(_, w) ← run (feed f x) w; feeds f xs w
  end.

(** Elements that arrive between the calls of [poll]. *)
Fixpoint rounds (f : positive) (xss : list (list (ErrorOr V))) w
  : outcome (world V St) :=
  match xss with
  | [] => Ret w
  | xs :: xss =>
      w ← feeds f xs w;
      '(_, w) ← poll (on_user func) (on_user error_func) w;
      rounds f xss w
  end.
End client.

(** ** What the conversions of a stage do to an element *)
Section conversions.
Context {V St : Type}.
Context (func : positive -> V -> St -> thrown (ErrorOr V) * St).
Context (error_func : positive -> Error -> St -> ErrorOr V * St).

Definition conv_one (c : positive * positive) (x : ErrorOr V) (s : St)
  : ErrorOr V * St :=
  match x with
  | IsError e => error_func c.2 e s
  | IsValue v =>
      let '(r, s) := func c.1 v s in (caught r, s)
  end.
Definition conv_all (cs : list (positive * positive)) (x : ErrorOr V) (s : St)
  : ErrorOr V * St :=
  foldl (fun '(x, s) c => conv_one c x s) (x, s) cs.

Definition wrap (cs : list (positive * positive)) (c : cnode) : cnode :=
  foldl (fun c '(f, ef) => Convert f ef c) c cs.

Lemma wrap_snoc cs f ef c : wrap (cs ++ [(f, ef)]) c = Convert f ef (wrap cs c).
Proof. unfold wrap. by rewrite foldl_app. Qed.

Lemma conv_all_snoc cs c x s :
  conv_all (cs ++ [c]) x s = let '(x, s) := conv_all cs x s in conv_one c x s.
Proof. unfold conv_all. rewrite foldl_app. cbn. by destruct (foldl _ _ _). Qed.

Lemma wrap_not_null cs p : is_null (wrap cs (Ref p)) = false.
Proof. destruct cs as [|[f ef] cs _] using rev_ind; [done|]. by rewrite wrap_snoc. Qed.

Lemma thens_wrap cs c : thens cs c = mkConveyor (wrap cs (conveyor_node c)) (storage c).
Proof.
  revert c. induction cs as [|[f ef] cs IH]; intros c; [by destruct c|].
  cbn [thens]. by rewrite IH.
Qed.

Lemma set_user_id (n : net V St) : set_user (user n) n = n.
Proof. by destruct n. Qed.

(** A getResult through the conversions is one at the storage node, and the
    functions applied in order to what it returns. *)
Lemma does_getResult_wrap ids cs p (n : net V St) q x n1 q1 :
  does ids (storage_getResult p) n q x n1 q1 ->
  does ids (getResult (on_user func) (on_user error_func) (wrap cs (Ref p))) n q
    (conv_all cs x (user n1)).1 (set_user (conv_all cs x (user n1)).2 n1) q1.
Proof.
  intros Hp. induction cs as [|[f ef] cs IH] using rev_ind; cbn.
  - by rewrite set_user_id.
  - rewrite wrap_snoc, conv_all_snoc. cbn [getResult]. unfold ConvertConveyorNode_getImpl.
    rewrite wrap_not_null. cbn [negb].
    eapply does_bind; [exact IH|]. destruct (conv_all cs x (user n1)) as [[e|v] s].
    + unfold does, on_user. cbn. by destruct (error_func ef e s).
    + unfold does, on_user, mbind, M_bind. cbn. by destruct (func f v s).
Qed.
End conversions.

(** ** The queues of a pipeline *)
Section queues.
Context {E : Type}.
Implicit Types (gs : list (E -> E)) (qs : list (list E)).

(** What is on its way, in the order and the form in which it will leave the
    last buffer: [gs] are the conversions between the queues. *)
Fixpoint pending_from gs qs (acc : list E) : list E :=
  match gs, qs with
  | g :: gs, q :: qs => pending_from gs qs (q ++ map g acc)
  | _, _ => acc
  end.
Definition pending gs qs : list E :=
  match qs with [] => [] | q :: qs => pending_from gs qs q end.

(** The moves that are still to be made until everything has left. *)
Fixpoint distance qs : nat :=
  match qs with [] => 0 | q :: qs => length q * S (length qs) + distance qs end.

Lemma pending_move gs qs i g x r r' :
  length qs = S (length gs) -> gs !! i = Some g ->
  qs !! i = Some (x :: r) -> qs !! S i = Some r' ->
  pending gs (<[S i := r' ++ [g x]]> (<[i := r]> qs)) = pending gs qs.
Proof.
  revert gs qs r r'. induction i as [|i IH]; intros gs qs r r' Hl Hg Hi Hi';
    (destruct qs as [|q qs]; [done|]); injection Hl as Hl;
    (destruct gs as [|g0 gs]; [done|]); (destruct qs as [|q' qs]; [done|]);
    injection Hl as Hl.
  - injection Hg as ->. injection Hi as ->. injection Hi' as ->. cbn.
    by rewrite <- app_assoc.
  - cbn in Hg, Hi, Hi'. destruct i as [|i].
    + injection Hi as ->.
      specialize (IH gs ((x :: r ++ map g0 q) :: qs) (r ++ map g0 q) r').
      apply IH; [by cbn; rewrite Hl|done..].
    + specialize (IH gs ((q' ++ map g0 q) :: qs) r r').
      apply IH; [by cbn; rewrite Hl|done..].
Qed.

Lemma pending_last gs qs x r :
  length qs = S (length gs) -> qs !! length gs = Some (x :: r) ->
  exists p, pending gs qs = x :: p /\ pending gs (<[length gs := r]> qs) = p.
Proof.
  revert qs r. induction gs as [|g gs IH]; intros qs r Hl Hq;
    (destruct qs as [|q qs]; [done|]); injection Hl as Hl.
  - injection Hq as ->. destruct qs; [|done]. by exists r.
  - destruct qs as [|q' qs]; [done|]. injection Hl as Hl. cbn in Hq.
    destruct gs as [|g' gs].
    + injection Hq as ->. destruct qs; [|done]. cbn. eauto.
    + specialize (IH ((q' ++ map g q) :: qs) r). apply IH; [by cbn; rewrite Hl|done].
Qed.

(** What the conversions of the whole pipeline make of an element. *)
Definition path gs (x : E) : E := foldl (fun x g => g x) x gs.

Lemma pending_feed gs qs q x :
  length qs = length gs -> pending gs ((q ++ [x]) :: qs) = pending gs (q :: qs) ++ [path gs x].
Proof.
  cbn. revert gs q x. induction qs as [|q' qs IH]; intros [|g gs] q x Hl; try done.
  cbn. rewrite map_app. cbn. rewrite app_assoc. apply IH. by injection Hl.
Qed.

Lemma distance_feed q qs x :
  distance ((q ++ [x]) :: qs) = (distance (q :: qs) + S (length qs))%nat.
Proof. cbn. rewrite length_app. cbn. lia. Qed.

Lemma pending_empty gs qs : Forall (fun q => q = []) qs -> pending gs qs = [].
Proof.
  destruct 1 as [|q qs -> Hqs]; [done|]. cbn. revert qs Hqs.
  induction gs as [|g gs IH]; intros qs Hqs; [done|].
  destruct Hqs as [|q qs -> Hqs]; [done|]. by apply IH.
Qed.

Lemma distance_move qs i x r r' y :
  qs !! i = Some (x :: r) -> qs !! S i = Some r' ->
  S (distance (<[S i := r' ++ [y]]> (<[i := r]> qs))) = distance qs.
Proof.
  revert qs. induction i as [|i IH]; intros [|q qs]; try done; simpl.
  - intros [= ->]. destruct qs as [|q' qs]; [done|]. intros [= ->]. simpl.
    rewrite length_app. simpl. lia.
  - intros Hi Hi'. rewrite <- (IH qs Hi Hi'), !length_insert. lia.
Qed.

Lemma distance_last qs x r :
  qs !! pred (length qs) = Some (x :: r) ->
  S (distance (<[pred (length qs) := r]> qs)) = distance qs.
Proof.
  induction qs as [|q qs IH]; [done|]. destruct qs as [|q' qs].
  - intros [= ->]. cbn. lia.
  - intros Hq. change (pred (length (q :: q' :: qs))) with (S (pred (length (q' :: qs)))) in *.
    specialize (IH Hq).
    change (S (length q * S (length (<[pred (length (q' :: qs)) := r]> (q' :: qs))) +
      distance (<[pred (length (q' :: qs)) := r]> (q' :: qs))) =
      length q * S (length (q' :: qs)) + distance (q' :: qs))%nat.
    rewrite <- IH, length_insert. lia.
Qed.

Lemma distance_zero qs : distance qs = 0%nat -> Forall (fun q => q = []) qs.
Proof.
  induction qs as [|q qs IH]; [done|]. cbn. intros Hd. constructor.
  - destruct q; [done|]. cbn in Hd. lia.
  - apply IH. lia.
Qed.
End queues.

(** ** The nodes of a pipeline *)
Section pipeline.
Context {V St : Type}.
Context (func : positive -> V -> St -> thrown (ErrorOr V) * St).
Context (error_func : positive -> Error -> St -> ErrorOr V * St).
Context (ids : gset positive) (feeder : positive) (base : nat).
Context (ss : list stage) (final : list (positive * positive)).
#[local] Abbreviation elem := (ErrorOr V).
Implicit Types (n : net V St) (q : queue) (qs : list (list elem)) (s : St).

Definition addr (i : nat) : positive := Pos.of_succ_nat (base + i).

Lemma addr_inj i j : addr i = addr j -> i = j.
Proof. unfold addr. intros H%SuccNat2Pos.inj. lia. Qed.

Lemma addr_S i : addr (S i) = Pos.succ (addr i).
Proof. unfold addr. by rewrite Nat.add_succ_r. Qed.

(** Node 0 is the adapter, node [length ss + 1] the sink. *)
Definition node_at (i : nat) (storage : list elem) : node V :=
  match i with
  | O => mkNode (Some (addr 1)) None (AdaptConveyorNode (Some feeder) storage)
  | S j =>
      match ss !! j with
      | Some st => mkNode (Some (addr (S i))) (Some (addr j))
          (QueueBufferConveyorNode (wrap (convs st) (Ref (addr j))) storage (limit st))
      | None => mkNode None (Some (addr j))
          (SinkConveyorNode (wrap final (Ref (addr j))) None)
      end
  end.

(** The nodes hold the queues [qs]. *)
Record holds n qs s : Prop := {
  holds_length : length qs = S (length ss);
  holds_user : user n = s;
  holds_feeder : feeders n !! feeder = Some (Some (addr 0));
  holds_node i r : qs !! i = Some r -> nodes n !! addr i = Some (node_at i r);
  holds_sink : nodes n !! addr (S (length ss)) = Some (node_at (S (length ss)) [])
}.

(** Buffer [i] is full; the adapter and the sink never are. *)
Definition full qs (i : nat) : bool :=
  match i with
  | O => false
  | S j => match ss !! j, qs !! i with
           | Some st, Some r => limit st <=? zlen r
           | _, _ => false
           end
  end.

Lemma node_at_parent i r : (i <= length ss)%nat -> parent (node_at i r) = Some (addr (S i)).
Proof.
  destruct i as [|j]; [done|]. intros Hj. cbn.
  destruct (lookup_lt_is_Some_2 ss j) as [st ->]; [lia|done].
Qed.

Lemma holds_set n qs s i r r' :
  holds n qs s -> qs !! i = Some r ->
  holds (set_nodes (insert (addr i) (mkNode (parent (node_at i r))
    (child_storage (node_at i r)) (state (node_at i r')))) n) (<[i := r']> qs) s.
Proof.
  intros [Hl Hu Hfe Hn Hs] Hi. pose proof (lookup_lt_Some _ _ _ Hi) as Hlt. split.
  - by rewrite length_insert.
  - done.
  - done.
  - intros j rj. cbn. intros [(<-&->&_)|[Hij Hj]]%list_lookup_insert_Some.
    + rewrite lookup_insert_eq. f_equal. destruct i as [|i]; [done|]. cbn.
      destruct (lookup_lt_is_Some_2 ss i) as [st ->]; [lia|done].
    + rewrite lookup_insert_ne by (intros ?%addr_inj; done). by apply Hn.
  - cbn. rewrite lookup_insert_ne; [done|]. intros ->%addr_inj. lia.
Qed.

Lemma holds_set_user n qs s s' : holds n qs s -> holds (set_user s' n) qs s'.
Proof. intros [Hl Hu Hfe Hn Hs]. by split. Qed.

Lemma does_pop_node n qs s q i x r :
  holds n qs s -> qs !! i = Some (x :: r) ->
  exists n', does ids (storage_getResult (addr i)) n q x n' q /\
    holds n' (<[i := r]> qs) s.
Proof.
  intros Hh Hi. pose proof (lookup_lt_Some _ _ _ Hi) as Hlt. rewrite (holds_length _ _ _ Hh) in Hlt.
  pose proof (holds_node _ _ _ Hh _ _ Hi) as Hn.
  eexists. split; [|by eapply holds_set].
  eapply does_bind; [by apply does_get_node|].
  destruct i as [|j]; cbn -[set_state].
  - eapply does_bind; [by apply does_set_state|]. apply does_ret.
  - destruct (ss !! j) as [st|] eqn:Hj.
    2: { apply lookup_ge_None in Hj. lia. }
    cbn in Hn. rewrite Hj in Hn. cbn -[set_state].
    eapply does_bind; [by apply does_set_state|]. cbn. rewrite ?Hj. apply does_ret.
Qed.

(** [parent->childHasFired()] at a buffer, with and without room. *)
Section buffer.
Context (alive : forall i, (i <= S (length ss))%nat -> addr i ∈ ids).
Context (i : nat) (st : stage) (Hst : ss !! i = Some st).

Lemma buffer_full n qs s q :
  holds n qs s -> full qs (S i) = true ->
  does ids (childHasFired (on_user func) (on_user error_func) (addr (S i))) n q tt n q.
Proof.
  intros Hh Hf. cbn in Hf. rewrite Hst in Hf.
  destruct (qs !! S i) as [r|] eqn:Hr; [|done].
  pose proof (holds_node _ _ _ Hh _ _ Hr) as Hn. cbn in Hn. rewrite Hst in Hn.
  eapply does_bind; [by apply does_get_node|]. cbn [state].
  unfold QueueBufferConveyorNode_childHasFired. rewrite wrap_not_null. apply Z.leb_le in Hf.
  destruct (Z.ltb_spec (zlen r) (limit st)); [lia|]. apply does_ret.
Qed.

Lemma buffer_room n qs s q g x r :
  (forall x s, conv_all func error_func (convs st) x s = (g x, s)) ->
  is_critical (g x) = false ->
  holds n qs s -> qs !! i = Some (x :: r) -> full qs (S i) = false ->
  exists r' n', qs !! S i = Some r' /\
    does ids (childHasFired (on_user func) (on_user error_func) (addr (S i))) n q tt n'
      (Queue.arm Later (addr (S i)) q) /\
    holds n' (<[S i := r' ++ [g x]]> (<[i := r]> qs)) s.
Proof.
  intros Hg Hx Hh Hi Hf. pose proof (holds_length _ _ _ Hh) as Hl.
  pose proof (lookup_lt_Some _ _ _ Hst) as Hlt.
  destruct (lookup_lt_is_Some_2 qs (S i)) as [r' Hr]; [lia|].
  cbn in Hf. rewrite Hst, Hr in Hf. apply Z.leb_gt in Hf.
  pose proof (holds_node _ _ _ Hh _ _ Hr) as Hn. cbn in Hn. rewrite Hst in Hn.
  destruct (does_pop_node n qs s q i x r Hh Hi) as (n1&Hd1&Hh1).
  assert (Hr1 : <[i := r]> qs !! S i = Some r') by (rewrite list_lookup_insert_ne; [done|lia]).
  pose proof (holds_set _ _ _ _ _ (r' ++ [g x]) Hh1 Hr1) as Hh2.
  exists r'. eexists. split; [done|]. split; [|exact Hh2].
  eapply does_bind; [by apply does_get_node|]. cbn [state].
  unfold QueueBufferConveyorNode_childHasFired. rewrite wrap_not_null.
  destruct (Z.ltb_spec (zlen r') (limit st)); [|lia]. cbn [andb negb when].
  eapply does_bind; [eapply does_getResult_wrap; exact Hd1|].
  rewrite Hg. cbn [fst snd].
  assert (Hset : set_user (user n1) n1 = n1) by apply set_user_id. rewrite Hset.
  eapply does_bind; [rewrite Hx; apply does_ret|].
  eapply does_bind; [|apply does_arm_unless, alive; lia].
  pose proof (holds_node _ _ _ Hh1 _ _ Hr1) as Hn1.
  cbn in Hn1 |- *. rewrite Hst in Hn1 |- *. by apply does_push.
Qed.
End buffer.

(** The same at the sink: nothing else happens without a critical error. *)
Lemma does_sink_mild p n q (x : elem) :
  is_critical x = false ->
  does ids (match x with
    | IsError error => _ ← when (isCritical error) (arm_unless_armed Last p); mret tt
    | IsValue _ => mret tt
    end) n q tt n q.
Proof.
  destruct x as [e|v]; [|intros _; apply does_ret]. intros He. cbn in He. rewrite He.
  eapply does_bind; apply does_ret.
Qed.

Lemma sink_takes n qs s q x r :
  holds n qs s -> qs !! length ss = Some (x :: r) ->
  is_critical (conv_all func error_func final x s).1 = false ->
  exists n',
    does ids (childHasFired (on_user func) (on_user error_func) (addr (S (length ss)))) n q tt n' q /\
    holds n' (<[length ss := r]> qs) (conv_all func error_func final x s).2.
Proof.
  intros Hh Hi Hx. destruct (does_pop_node n qs s q _ x r Hh Hi) as (n1&Hd1&Hh1).
  pose proof (holds_sink _ _ _ Hh) as Hn. cbn in Hn.
  rewrite (lookup_ge_None_2 ss (length ss)) in Hn by lia.
  eexists. split; [|by eapply holds_set_user].
  eapply does_bind; [by apply does_get_node|]. cbn [state].
  unfold SinkConveyorNode_childHasFired. rewrite wrap_not_null. cbn [negb when].
  eapply does_bind; [eapply does_getResult_wrap; exact Hd1|].
  rewrite (holds_user _ _ _ Hh1). by apply does_sink_mild.
Qed.

(** ** [fire] *)
Definition later_if (b : bool) (e : positive) q : queue :=
  if b then Queue.arm Later e q else q.

Lemma does_when_later b e n q :
  e ∈ ids -> does ids (when b (arm_event Later e)) n q tt n (later_if b e q).
Proof. intros He. destruct b; [by apply does_arm|apply does_ret]. Qed.

Definition bounded qs : Prop :=
  forall j st r, ss !! j = Some st -> qs !! S j = Some r -> zlen r <= limit st.

Section fire.
Context (alive : forall i, (i <= S (length ss))%nat -> addr i ∈ ids).
Context (limits : Forall (fun st => 0 < limit st < size_mod) ss).

Lemma node_queued n qs s q i r :
  holds n qs s -> qs !! i = Some r -> does ids (queued (addr i)) n q (zlen r) n q.
Proof.
  intros Hh Hi. pose proof (holds_node _ _ _ Hh _ _ Hi) as Hn.
  pose proof (lookup_lt_Some _ _ _ Hi) as Hlt. rewrite (holds_length _ _ _ Hh) in Hlt.
  eapply does_bind; [by apply does_get_node|]. destruct i as [|j]; [apply does_ret|].
  cbn. destruct (lookup_lt_is_Some_2 ss j) as [st ->]; [lia|]. apply does_ret.
Qed.

Lemma node_space n qs s q i :
  holds n qs s -> bounded qs -> (i <= length ss)%nat ->
  exists z, does ids (space (addr (S i))) n q z n q /\
    (0 <? z) = negb (full qs (S i)) /\ (z =? 0) = full qs (S i).
Proof.
  intros Hh Hb Hi. cbn [full]. destruct (ss !! i) as [st|] eqn:Hst.
  - pose proof (lookup_lt_Some _ _ _ Hst). pose proof (holds_length _ _ _ Hh).
    destruct (lookup_lt_is_Some_2 qs (S i)) as [r Hr]; [lia|]. rewrite Hr.
    pose proof (holds_node _ _ _ Hh _ _ Hr) as Hn. cbn in Hn. rewrite Hst in Hn.
    eexists. split; [by eapply does_space|]. cbn [state space_of].
    unfold QueueBufferConveyorNode_space. specialize (Hb _ _ _ Hst Hr). pose proof (zlen_nonneg r).
    pose proof (Forall_lookup_1 _ _ _ _ limits Hst) as Hlim. cbn in Hlim.
    rewrite wsub_small by lia. bcase; bcase; bcase; done || lia.
  - apply lookup_ge_None in Hst. assert (i = length ss) as -> by lia.
    pose proof (holds_sink _ _ _ Hh) as Hn. cbn in Hn.
    rewrite (lookup_ge_None_2 ss (length ss)) in Hn by lia.
    exists 1. split; [|done]. change 1 with (space_of (V := V)
      (SinkConveyorNode (wrap final (Ref (addr (length ss)))) None)).
    by apply (does_space ids _ _ n q Hn).
Qed.

(** The adapter: whatever its parent does, it arms itself again as long as it
    holds an element. *)
Lemma fire_adapter n qs s q n' qs' s' q' r :
  holds n qs s ->
  does ids (childHasFired (on_user func) (on_user error_func) (addr 1)) n q tt n' q' ->
  holds n' qs' s' -> qs' !! 0%nat = Some r ->
  does ids (fire (on_user func) (on_user error_func) (addr 0)) n q tt n' (later_if (0 <? zlen r) (addr 0) q').
Proof.
  intros Hh Hc Hh' Hr. pose proof (holds_length _ _ _ Hh) as Hl.
  destruct (lookup_lt_is_Some_2 qs 0) as [r0 Hr0]; [lia|].
  pose proof (holds_node _ _ _ Hh _ _ Hr0) as Hn.
  eapply does_bind; [by apply does_get_node|]. cbn [state node_at].
  unfold AdaptConveyorNode_fire. cbn [parent]. eapply does_bind; [exact Hc|].
  eapply does_bind; [by eapply node_queued|]. apply does_when_later, alive. lia.
Qed.

(** What a buffer that has become able to take an element tells the node in
    front of it. *)
Definition wakes qs (j : nat) : bool :=
  match j, qs !! j with
  | S _, Some (_ :: _) => negb (full qs (S j))
  | _, _ => false
  end.

Lemma parent_signal n qs s q j :
  holds n qs s -> bounded qs -> (j <= length ss)%nat ->
  does ids (parentHasFired (addr j)) n q tt n (later_if (wakes qs j) (addr j) q).
Proof.
  intros Hh Hb Hj. pose proof (holds_length _ _ _ Hh) as Hl.
  destruct (lookup_lt_is_Some_2 qs j) as [r Hr]; [lia|].
  pose proof (holds_node _ _ _ Hh _ _ Hr) as Hn.
  destruct (node_space n qs s q j Hh Hb Hj) as (z&Hz&_&Hz0).
  eapply does_bind; [by apply does_get_node|].
  assert (Hp : some_parent (node_at j r) = (mret (addr (S j)) : M V St positive))
    by (unfold some_parent; by rewrite node_at_parent).
  destruct j as [|j].
  - eapply does_bind; [by apply does_get_node|]. cbn [node_at] in Hp |- *. cbn [state].
    unfold AdaptConveyorNode_parentHasFired. rewrite Hp.
    eapply does_bind; [apply does_ret|]. eapply does_bind; [exact Hz|].
    unfold wakes. by destruct (qs !! 0%nat).
  - destruct (lookup_lt_is_Some_2 ss j) as [st Hst]; [lia|].
    replace (match state (node_at (S j) r) with _ => _ end)
      with (parentHasFired_event (V := V) (St := St) (addr (S j)))
      by (cbn; rewrite Hst; done).
    eapply does_bind; [by apply does_get_node|]. cbn [node_at] in Hp |- *.
    rewrite Hst in Hp |- *. cbn [state]. unfold QueueBufferConveyorNode_parentHasFired. rewrite Hp.
    eapply does_bind; [apply does_ret|]. eapply does_bind; [exact Hz|].
    unfold wakes. rewrite Hr, Hz0. destruct (full qs (S (S j))); cbn [negb].
    + destruct r; apply does_ret.
    + destruct r as [|x r]; [apply does_ret|]. apply does_when_later, alive. lia.
Qed.

Lemma fire_buffer n qs s q n' qs' s' q' j st r0 r :
  ss !! j = Some st -> holds n qs s -> qs !! S j = Some r0 ->
  Forall (fun x => is_critical x = false) r0 ->
  does ids (childHasFired (on_user func) (on_user error_func) (addr (S (S j)))) n q tt n' q' ->
  holds n' qs' s' -> bounded qs -> bounded qs' -> qs' !! S j = Some r ->
  does ids (fire (on_user func) (on_user error_func) (addr (S j))) n q tt n'
    (later_if (full qs (S j) && wakes qs' j) (addr j)
      (later_if ((0 <? zlen r) && negb (full qs' (S (S j)))) (addr (S j)) q')).
Proof.
  intros Hst Hh Hr0 Hcrit Hc Hh' Hb Hb' Hr. pose proof (lookup_lt_Some _ _ _ Hst) as Hlt.
  pose proof (holds_node _ _ _ Hh _ _ Hr0) as Hn. cbn in Hn. rewrite Hst in Hn.
  eapply does_bind; [by apply does_get_node|]. cbn [state].
  eapply does_bind; [by apply does_get_node|]. cbn [state parent].
  eapply (does_bind _ _ _ _ _ tt n q).
  { replace (match r0 with [] => false | front :: _ => is_critical front end) with false
      by (by destruct Hcrit). rewrite andb_false_r. apply does_ret. }
  pose proof (holds_node _ _ _ Hh' _ _ Hr) as Hn'. cbn in Hn'. rewrite Hst in Hn'.
  eapply does_bind.
  { eapply does_bind; [exact Hc|]. eapply does_bind; [by eapply node_queued|].
    destruct (node_space n' qs' s' q' (S j) Hh' Hb' Hlt) as (z&Hz&Hz1&_).
    instantiate (1 := later_if ((0 <? zlen r) && negb (full qs' (S (S j)))) (addr (S j)) q').
    instantiate (1 := n'). destruct (0 <? zlen r); [|apply does_ret].
    eapply does_bind; [eapply does_bind; [by apply does_get_node|exact Hz]|].
    rewrite Hz1. apply does_when_later, alive. lia. }
  eapply does_bind; [by apply does_get_node|]. cbn [child_storage space_of].
  unfold QueueBufferConveyorNode_space.
  assert (Hsp : negb (0 <? limit st -! zlen r0) = full qs (S j)).
  { cbn. rewrite Hst, Hr0. specialize (Hb _ _ _ Hst Hr0). pose proof (zlen_nonneg r0).
    pose proof (Forall_lookup_1 _ _ _ _ limits Hst) as Hlim. cbn in Hlim.
    rewrite wsub_small by lia. repeat bcase; done || lia. }
  rewrite Hsp. destruct (full qs (S j)); [|apply does_ret]. cbn [andb when].
  eapply parent_signal; [done..|lia].
Qed.
End fire.

(** ** The invariant of the queues and the armed events *)
Record inv qs q : Prop := {
  inv_rest : rest q = [];
  inv_nodup : NoDup (items q);
  inv_bounded : bounded qs;
  inv_mild i r : qs !! i = Some r -> Forall (fun x => is_critical x = false) r;
  inv_armed e : e ∈ items q -> exists i x r, e = addr i /\ qs !! i = Some (x :: r);
  inv_wake i x r : qs !! i = Some (x :: r) ->
    addr i ∈ items q \/ (0 < i)%nat /\ full qs (S i) = true
}.

Lemma later_rest b e q : rest (later_if b e q) = rest q.
Proof. destruct b; [by apply arm_rest|done]. Qed.

Lemma later_nodup b e q : NoDup (items q) -> NoDup (items (later_if b e q)).
Proof. destruct b; [apply arm_nodup|done]. Qed.

Lemma later_elem b e q x :
  x ∈ items (later_if b e q) <-> x ∈ items q \/ (b = true /\ x = e).
Proof.
  destruct b; cbn.
  - rewrite arm_elem. split; (intros [Hx|Hx]; [by left|right]); [done|apply Hx].
  - split; [by left|]. by intros [?|[? _]].
Qed.

(** The queue after a move out of node [i]. *)
Definition moved_queue (b0 b1 b2 : bool) (i : nat) q : queue :=
  later_if b2 (addr (pred i)) (later_if b1 (addr i) (later_if b0 (addr (S i)) q)).

Lemma full_same qs qs' i : qs' !! i = qs !! i -> full qs' i = full qs i.
Proof. intros Hq. destruct i as [|j]; [done|]. cbn. by rewrite Hq. Qed.

(** A move of [x] from node [i] to the next; [y] is what [x] becomes there. *)
Section moved.
Variables (qs qs' : list (list elem)) (q q1 : queue) (i : nat) (x : elem) (r : list elem).
Variables (b0 b1 b2 : bool).
Hypothesis Hinv : inv qs q.
Hypothesis Hit : items q = addr i :: items q1.
Hypothesis Hr1 : rest q1 = [].
Hypothesis Hi : qs !! i = Some (x :: r).
Hypothesis Hi' : qs' !! i = Some r.
Hypothesis Hsame : forall j, j <> i -> j <> S i -> qs' !! j = qs !! j.
Hypothesis Hnext : match qs !! S i with
  | Some r' => b0 = true /\ exists y, qs' !! S i = Some (r' ++ [y]) /\
      is_critical y = false /\ full qs (S i) = false
  | None => b0 = false /\ qs' !! S i = None
  end.
Hypothesis Hb1 : b1 = (0 <? zlen r) && ((i =? 0)%nat || negb (full qs' (S i))).
Hypothesis Hb2 : b2 = full qs i && wakes qs' (pred i).

Lemma moved_bounded : bounded qs'.
Proof.
  intros j st rj Hst Hj. pose proof (inv_bounded _ _ Hinv) as Hb.
  destruct (decide (S j = i)) as [<-|Hne].
  { rewrite Hi' in Hj. injection Hj as ->. specialize (Hb _ _ _ Hst Hi).
    rewrite zlen_cons in Hb. lia. }
  destruct (decide (S j = S i)) as [[= ->]|Hne'].
  - destruct (qs !! S i) as [r'|] eqn:Hr'; [|destruct Hnext as [_ Hn]; congruence].
    destruct Hnext as (_&y&Hy&_&Hf). rewrite Hy in Hj. injection Hj as <-.
    cbn in Hf. rewrite Hst, Hr' in Hf. apply Z.leb_gt in Hf.
    rewrite zlen_app, zlen_cons, zlen_nil. lia.
  - rewrite Hsame in Hj by done. eauto.
Qed.

Lemma moved_mild j rj :
  qs' !! j = Some rj -> Forall (fun x => is_critical x = false) rj.
Proof.
  intros Hj. pose proof (inv_mild _ _ Hinv) as Hmild. destruct (decide (j = i)) as [->|Hne].
  { rewrite Hi' in Hj. injection Hj as ->. specialize (Hmild _ _ Hi). by inversion Hmild. }
  destruct (decide (j = S i)) as [->|Hne'].
  - destruct (qs !! S i) as [r'|] eqn:Hr'; [|destruct Hnext as [_ Hn]; congruence].
    destruct Hnext as (_&y&Hy&?&_). rewrite Hy in Hj. injection Hj as <-.
    apply Forall_app. split; [eauto|by constructor].
  - rewrite Hsame in Hj by done. eauto.
Qed.

(** Another event that is armed stays so, and its node keeps an element. *)
Lemma moved_other e :
  e ∈ items q1 -> exists j x r, e = addr j /\ j <> i /\ qs' !! j = Some (x :: r).
Proof.
  intros He. pose proof (inv_nodup _ _ Hinv) as Hnd. rewrite Hit in Hnd.
  apply NoDup_cons in Hnd as [Hni _].
  destruct (inv_armed _ _ Hinv e) as (j&y&rj&->&Hj); [rewrite Hit; set_solver|].
  assert (Hne : j <> i) by (by intros ->).
  destruct (decide (j = S i)) as [->|Hne']; [|exists j, y, rj; by rewrite Hsame].
  rewrite Hj in Hnext. destruct Hnext as (_&z&Hz&_). by exists (S i), y, (rj ++ [z]).
Qed.

Lemma moved_armed e :
  e ∈ items (moved_queue b0 b1 b2 i q1) ->
  exists j x r, e = addr j /\ qs' !! j = Some (x :: r).
Proof.
  unfold moved_queue. rewrite !later_elem.
  intros [[[He|[-> ->]]|[Hb ->]]|[Hb ->]].
  - destruct (moved_other _ He) as (j&y&rj&?&_&?). by exists j, y, rj.
  - destruct (qs !! S i) as [r'|]; [|by destruct Hnext].
    destruct Hnext as (_&y&Hy&_). destruct r' as [|z r']; eexists _, _, _; split; done.
  - rewrite Hb1 in Hb. destruct r as [|z r']; [done|]. by exists i, z, r'.
  - rewrite Hb2 in Hb. apply andb_true_iff in Hb as [_ Hw]. unfold wakes in Hw.
    destruct (pred i) as [|p]; [by destruct (qs' !! 0%nat)|].
    destruct (qs' !! S p) as [[|z rp]|] eqn:Hp; try done. by exists (S p), z, rp.
Qed.

Lemma moved_not_full : full qs i = true -> full qs' i = false.
Proof.
  destruct i as [|j]; [done|]. cbn. destruct (ss !! j) as [st|] eqn:Hst; [|done].
  rewrite Hi, Hi'. intros _. apply Z.leb_gt.
  pose proof (inv_bounded _ _ Hinv _ _ _ Hst Hi) as Hb. rewrite zlen_cons in Hb. lia.
Qed.

Lemma moved_wake j y rj :
  qs' !! j = Some (y :: rj) ->
  addr j ∈ items (moved_queue b0 b1 b2 i q1) \/ (0 < j)%nat /\ full qs' (S j) = true.
Proof.
  pose proof moved_not_full as Hnf.
  intros Hj. unfold moved_queue. rewrite !later_elem. destruct (decide (j = i)) as [->|Hne].
  { rewrite Hi' in Hj. injection Hj as ->. rewrite Hb1, zlen_cons.
    pose proof (zlen_nonneg rj). destruct (Z.ltb_spec 0 (1 + zlen rj)); [|lia].
    destruct i as [|i']; [by left; left; right|]. cbn [Nat.eqb orb andb].
    destruct (full qs' (S (S i'))); [right; split; [lia|done]|by left; left; right]. }
  destruct (decide (j = S i)) as [->|Hne'].
  { destruct (qs !! S i) as [r'|]; [|destruct Hnext as [_ Hn]; congruence].
    destruct Hnext as [-> _]. by left; left; left; right. }
  pose proof Hj as Hj0. rewrite Hsame in Hj0 by done.
  destruct (inv_wake _ _ Hinv _ _ _ Hj0) as [Ha|[Hp Hf]].
  { rewrite Hit in Ha. apply list_elem_of_In in Ha as [Ha|Ha%list_elem_of_In].
    - by apply addr_inj in Ha.
    - by left; left; left; left. }
  destruct (decide (S j = i)) as [<-|Hne2].
  - left. right. split; [|done]. rewrite Hb2, Hf. cbn [andb].
    change (pred (S j)) with j. unfold wakes.
    destruct j as [|j]; [lia|]. by rewrite Hj, Hnf.
  - right. split; [done|]. rewrite <- Hf. apply full_same, Hsame; [done|lia].
Qed.

Lemma inv_moved : inv qs' (moved_queue b0 b1 b2 i q1).
Proof.
  split.
  - unfold moved_queue. by rewrite !later_rest.
  - pose proof (inv_nodup _ _ Hinv) as Hnd. rewrite Hit in Hnd.
    apply NoDup_cons in Hnd as [_ Hnd]. by apply later_nodup, later_nodup, later_nodup.
  - apply moved_bounded.
  - exact moved_mild.
  - exact moved_armed.
  - exact moved_wake.
Qed.
End moved.

(** ** Turns *)
Section turns.
Context (alive : forall i, (i <= S (length ss))%nat -> addr i ∈ ids).
Context (limits : Forall (fun st => 0 < limit st < size_mod) ss).
Context (gs : list (elem -> elem)).
Context (pure : Forall2 (fun st g =>
  forall x s, conv_all func error_func (convs st) x s = (g x, s)) ss gs).
Context (mild : Forall (fun g => forall x, is_critical x = false -> is_critical (g x) = false) gs).
Context (final_mild : forall x s, is_critical x = false ->
  is_critical (conv_all func error_func final x s).1 = false).

(** What the functions in front of the sink do to their state. *)
Definition consume s (x : elem) : St := (conv_all func error_func final x s).2.

(** The state after all that is pending has reached the sink. *)
Definition outcome_of qs s : St := foldl consume s (pending gs qs).

Lemma next_buffer i st : ss !! i = Some st ->
  exists g, gs !! i = Some g /\
    (forall x s, conv_all func error_func (convs st) x s = (g x, s)) /\
    (forall x, is_critical x = false -> is_critical (g x) = false).
Proof.
  intros Hst. destruct (Forall2_lookup_l _ _ _ _ _ pure Hst) as (g&Hg&Hp).
  exists g. split_and!; [done..|]. exact (Forall_lookup_1 _ _ _ _ mild Hg).
Qed.

(** The next node of [i] takes the first element of [i]. *)
Lemma next_takes n qs s q q1 i x r :
  inv qs q -> holds n qs s -> qs !! i = Some (x :: r) -> full qs (S i) = false ->
  exists b0 n' qs' s',
    does ids (childHasFired (on_user func) (on_user error_func) (addr (S i))) n q1 tt n'
      (later_if b0 (addr (S i)) q1) /\
    holds n' qs' s' /\ qs' !! i = Some r /\
    (forall j, j <> i -> j <> S i -> qs' !! j = qs !! j) /\
    match qs !! S i with
    | Some r' => b0 = true /\ exists y, qs' !! S i = Some (r' ++ [y]) /\
        is_critical y = false /\ full qs (S i) = false
    | None => b0 = false /\ qs' !! S i = None
    end /\
    S (distance qs') = distance qs /\ outcome_of qs' s' = outcome_of qs s.
Proof.
  intros Hinv Hh Hi Hf. pose proof (holds_length _ _ _ Hh) as Hl.
  pose proof (Forall2_length _ _ _ pure) as Hlg. pose proof (lookup_lt_Some _ _ _ Hi) as Hlt.
  pose proof (inv_mild _ _ Hinv _ _ Hi) as Hx. inversion Hx as [|? ? Hcx _]; subst.
  destruct (ss !! i) as [st|] eqn:Hst.
  - destruct (next_buffer i st Hst) as (g&Hg&Hpure&Hmild).
    destruct (buffer_room alive i st Hst n qs _ q1 g x r Hpure (Hmild x Hcx) Hh Hi Hf)
      as (r'&n'&Hr'&Hd&Hh').
    exists true, n', (<[S i := r' ++ [g x]]> (<[i := r]> qs)), (user n).
    rewrite Hr', (holds_user _ _ _ Hh) in *.
    assert (Hlt' : (S i < length (<[i := r]> qs))%nat)
      by (rewrite length_insert; by eapply lookup_lt_Some).
    split_and!; try done.
    + rewrite list_lookup_insert_ne by lia. by rewrite list_lookup_insert_eq.
    + intros j ? ?. by rewrite !list_lookup_insert_ne by lia.
    + exists (g x). rewrite list_lookup_insert_eq by done. auto.
    + by eapply distance_move.
    + unfold outcome_of. erewrite pending_move; try done. lia.
  - apply lookup_ge_None in Hst. assert (i = length ss) as -> by lia.
    destruct (sink_takes n qs _ q1 x r Hh Hi (final_mild _ _ Hcx)) as (n'&Hd&Hh').
    exists false, n', (<[length ss := r]> qs), (consume (user n) x).
    rewrite (lookup_ge_None_2 qs) by lia. rewrite (holds_user _ _ _ Hh) in *.
    split_and!; try done.
    + by rewrite list_lookup_insert_eq.
    + intros j ? ?. by rewrite list_lookup_insert_ne.
    + rewrite lookup_ge_None, length_insert. lia.
    + replace (length ss) with (pred (length qs)) in * by lia. by eapply distance_last.
    + rewrite Hlg in *. destruct (pending_last gs qs x r) as (p&Hp&Hp'); [lia|done|].
      unfold outcome_of. by rewrite Hp, Hp'.
Qed.

(** A turn that moves an element. *)
Lemma turn_moves n qs s q q1 i x r :
  inv qs q -> holds n qs s -> items q = addr i :: items q1 -> rest q1 = [] ->
  qs !! i = Some (x :: r) -> full qs (S i) = false ->
  exists n' qs' s' q2,
    does ids (fire (on_user func) (on_user error_func) (addr i)) n q1 tt n' q2 /\ holds n' qs' s' /\ inv qs' q2 /\
    S (distance qs') = distance qs /\ outcome_of qs' s' = outcome_of qs s.
Proof.
  intros Hinv Hh Hit Hr1 Hi Hf. pose proof (holds_length _ _ _ Hh) as Hl.
  pose proof (lookup_lt_Some _ _ _ Hi) as Hlt.
  destruct (next_takes n qs s q q1 i x r Hinv Hh Hi Hf)
    as (b0&n'&qs'&s'&Hd&Hh'&Hi'&Hsame&Hnext&Hdist&Hout).
  pose proof (inv_moved qs qs' q q1 i x r b0 _ _ Hinv Hit Hr1 Hi Hi' Hsame Hnext eq_refl eq_refl)
    as Hinv'.
  exists n', qs', s'. eexists. split; [|split; [exact Hh'|split; [exact Hinv'|done]]].
  destruct i as [|j].
  - pose proof (fire_adapter alive n qs s q1 n' qs' s' _ r Hh Hd Hh' Hi') as Hfire.
    unfold moved_queue. cbn [full andb later_if Nat.eqb orb]. by rewrite andb_true_r.
  - destruct (lookup_lt_is_Some_2 ss j) as [st Hst]; [lia|].
    apply (fire_buffer alive limits n qs s q1 n' qs' s' _ j st _ r Hst Hh Hi
      (inv_mild _ _ Hinv _ _ Hi) Hd Hh' (inv_bounded _ _ Hinv) (inv_bounded _ _ Hinv') Hi').
Qed.

(** A turn of a node whose parent is full: only the adapter stays armed. *)
Lemma turn_blocked n qs s q q1 i x r :
  inv qs q -> holds n qs s -> items q = addr i :: items q1 -> rest q1 = [] ->
  qs !! i = Some (x :: r) -> full qs (S i) = true ->
  exists b, does ids (fire (on_user func) (on_user error_func) (addr i)) n q1 tt n (later_if b (addr 0) q1) /\
    inv qs (later_if b (addr 0) q1).
Proof.
  intros Hinv Hh Hit Hr1 Hi Hf. pose proof (inv_nodup _ _ Hinv) as Hnd. rewrite Hit in Hnd.
  apply NoDup_cons in Hnd as [Hni Hnd].
  assert (Hst : exists st, ss !! i = Some st)
    by (cbn in Hf; destruct (ss !! i) as [st|]; [by exists st|done]).
  destruct Hst as [st Hst].
  pose proof (buffer_full i st Hst n qs s q1 Hh Hf) as Hd.
  exists (match i with O => true | S _ => false end). split.
  - destruct i as [|j].
    + pose proof (fire_adapter alive n qs s q1 n qs s q1 _ Hh Hd Hh Hi) as Hfire.
      exact Hfire.
    + pose proof (lookup_lt_Some _ _ _ Hst). destruct (lookup_lt_is_Some_2 ss j) as [st' Hst'];
        [lia|].
      pose proof (fire_buffer alive limits n qs s q1 n qs s q1 j st' _ _ Hst' Hh Hi
        (inv_mild _ _ Hinv _ _ Hi) Hd Hh (inv_bounded _ _ Hinv) (inv_bounded _ _ Hinv) Hi)
        as Hfire.
      rewrite Hf, andb_false_r in Hfire. cbn [later_if] in Hfire.
      replace (full qs (S j) && wakes qs j) with false in Hfire; [exact Hfire|].
      unfold wakes. destruct j; [by rewrite andb_false_r; destruct (qs !! 0%nat)|].
      destruct (qs !! S j) as [[|]|]; destruct (full qs (S (S j))); done.
  - destruct Hinv as [Hrest _ Hb Hmild Harm Hwake]. rewrite Hit in Harm, Hwake. split.
    + by rewrite later_rest.
    + by apply later_nodup.
    + done.
    + done.
    + intros e. rewrite later_elem. intros [He|[Hb0 ->]]; [apply Harm; set_solver|].
      destruct i; [eauto|done].
    + intros j y rj Hj. rewrite later_elem. destruct (Hwake _ _ _ Hj) as [Ha|?]; [|by right].
      apply list_elem_of_In in Ha as [Ha%addr_inj|Ha%list_elem_of_In]; [|auto]. subst j.
      destruct i; [left; by right|right; split; [lia|done]].
Qed.

(** Some armed node can move while anything is pending. *)
Lemma can_move qs q :
  length qs = S (length ss) -> inv qs q -> (0 < distance qs)%nat ->
  exists j, addr j ∈ items q /\ full qs (S j) = false.
Proof.
  intros Hl Hinv Hd.
  assert (Htop : exists j x r, qs !! j = Some (x :: r) /\
    forall j', (j < j')%nat -> forall x r, qs !! j' <> Some (x :: r)).
  { clear -Hd. induction qs as [|q0 qs IH]; [cbn in Hd; lia|].
    destruct (decide (distance qs = 0)%nat) as [H0|H0].
    - destruct q0 as [|x r]; [cbn in Hd; lia|]. exists O, x, r. split; [done|].
      intros [|j'] Hj x' r' Hx; [lia|]. apply distance_zero in H0.
      pose proof (Forall_lookup_1 _ _ _ _ H0 Hx). done.
    - destruct IH as (j&x&r&Hj&Hmax); [lia|]. exists (S j), x, r. split; [done|].
      intros [|j'] Hj' x' r'; [lia|]. apply Hmax. lia. }
  destruct Htop as (j&x&r&Hj&Hmax).
  assert (Hf : full qs (S j) = false).
  { cbn. destruct (ss !! j) as [st|] eqn:Hst; [|done].
    destruct (qs !! S j) as [[|y r']|] eqn:Hr; [| |done].
    - apply Z.leb_gt. by apply (Forall_lookup_1 _ _ _ _ limits Hst).
    - exfalso. apply (Hmax (S j) ltac:(lia) y r' Hr). }
  exists j. split; [|done]. destruct (inv_wake _ _ Hinv _ _ _ Hj) as [?|[_ ?]]; [done|congruence].
Qed.

Lemma items_length qs q :
  length qs = S (length ss) -> inv qs q -> (length (items q) <= S (length ss))%nat.
Proof.
  intros Hl Hinv.
  assert (Hsub : items q ⊆ addr <$> seq 0 (S (length ss))).
  { intros e He. destruct (inv_armed _ _ Hinv e He) as (i&x&r&->&Hi).
    apply list_elem_of_fmap. exists i. split; [done|]. apply elem_of_seq.
    apply lookup_lt_Some in Hi. lia. }
  apply (NoDup_submseteq _ _ (inv_nodup _ _ Hinv)), submseteq_length in Hsub.
  by rewrite length_fmap, length_seq in Hsub.
Qed.

Definition quiet qs q : Prop := Forall (fun r => r = []) qs /\ items q = [].

Lemma arrived qs q : inv qs q -> distance qs = 0%nat -> quiet qs q.
Proof.
  intros Hinv Hd. apply distance_zero in Hd. split; [done|].
  destruct (items q) as [|e l] eqn:He; [done|].
  destruct (inv_armed _ _ Hinv e) as (i&x&r&_&Hi); [rewrite He; set_solver|].
  pose proof (Forall_lookup_1 _ _ _ _ Hd Hi). done.
Qed.

(** Each full round of the armed events moves an element. *)
Lemma drains_from m n qs s q a j c steps :
  inv qs q -> holds n qs s -> items q = a ++ addr j :: c -> full qs (S j) = false ->
  (distance qs * S (length ss) + length a <= m)%nat -> (m < steps)%nat ->
  exists n' qs' s' q', turns (on_user func) (on_user error_func) ids steps n q n' q' /\ holds n' qs' s' /\
    inv qs' q' /\ quiet qs' q' /\ s' = outcome_of qs s.
Proof.
  revert n qs s q a j c steps.
  induction m as [|m IH]; intros n qs s q a j c steps Hinv Hh Hit Hf Hm Hsteps.
  { destruct (inv_armed _ _ Hinv (addr j)) as (i&x&r&_&Hi); [rewrite Hit; set_solver|].
    destruct (decide (distance qs = 0)%nat) as [H0|H0]; [|lia].
    pose proof (Forall_lookup_1 _ _ _ _ (distance_zero _ H0) Hi). done. }
  destruct steps as [|steps]; [lia|].
  pose proof (holds_length _ _ _ Hh) as Hl.
  destruct (Queue.pop q) as [[e q1]|] eqn:Hpop.
  2: { apply pop_None in Hpop. rewrite Hpop in Hit. by destruct a. }
  destruct (pop_items _ _ _ Hpop) as (Hit1&_&_).
  pose proof (pop_rest _ _ _ Hpop (inv_rest _ _ Hinv)) as Hr1.
  destruct (inv_armed _ _ Hinv e) as (i&x&r&->&Hi); [rewrite Hit1; set_solver|].
  destruct (full qs (S i)) eqn:Hfi.
  - (* nothing moves *)
    destruct (turn_blocked n qs s q q1 i x r Hinv Hh Hit1 Hr1 Hi Hfi) as (b&Hd&Hinv').
    destruct a as [|e a].
    { rewrite Hit in Hit1. injection Hit1 as Hij%addr_inj _. congruence. }
    rewrite Hit in Hit1. injection Hit1 as -> Hit1.
    assert (Hit2 : exists c', items (later_if b (addr 0) q1) = a ++ addr j :: c').
    { destruct b; cbn [later_if]; [|by rewrite <- Hit1; eauto]. unfold Queue.arm.
      case_decide; [by rewrite <- Hit1; eauto|]. exists (c ++ [addr 0]).
      unfold items in *. cbn. rewrite Hr1 in *. rewrite !app_nil_r in *.
      rewrite app_assoc, <- Hit1. by rewrite <- app_assoc. }
    destruct Hit2 as [c' Hit2]. cbn in Hm.
    destruct (IH n qs s _ a j c' steps Hinv' Hh Hit2 Hf) as (n'&qs'&s'&q'&Ht&?&?&?&?);
      [lia|lia|].
    exists n', qs', s', q'. split_and!; try done. by eapply turns_step.
  - (* one element moves *)
    destruct (turn_moves n qs s q q1 i x r Hinv Hh Hit1 Hr1 Hi Hfi)
      as (n1&qs1&s1&q2&Hd&Hh1&Hinv1&Hdist&Hout).
    pose proof (holds_length _ _ _ Hh1) as Hl1. rewrite <- Hout.
    destruct (decide (distance qs1 = 0)%nat) as [H0|H0].
    + pose proof (arrived _ _ Hinv1 H0) as Hq. exists n1, qs1, s1, q2.
      split_and!; try done.
      * eapply turns_step; [done..|]. apply turns_done, Hq.
      * unfold outcome_of. rewrite pending_empty; [done|apply Hq].
    + destruct (can_move qs1 q2 Hl1 Hinv1) as (j'&Hj'&Hf'); [lia|].
      apply list_elem_of_split in Hj' as (a'&c'&Hit').
      pose proof (items_length qs1 q2 Hl1 Hinv1) as Hlen. rewrite Hit', length_app in Hlen.
      cbn in Hlen.
      destruct (IH n1 qs1 s1 q2 a' j' c' steps Hinv1 Hh1 Hit' Hf')
        as (n'&qs'&s'&q'&Ht&?&?&?&?); [nia|lia|].
      exists n', qs', s', q'. split_and!; try done. by eapply turns_step.
Qed.

Lemma drains n qs s q steps :
  inv qs q -> holds n qs s -> (S (distance qs) * S (length ss) <= steps)%nat ->
  exists n' qs' s' q', turns (on_user func) (on_user error_func) ids steps n q n' q' /\ holds n' qs' s' /\
    inv qs' q' /\ quiet qs' q' /\ s' = outcome_of qs s.
Proof.
  intros Hinv Hh Hs. pose proof (holds_length _ _ _ Hh) as Hl.
  destruct (decide (distance qs = 0)%nat) as [H0|H0].
  - pose proof (arrived _ _ Hinv H0) as Hq. exists n, qs, s, q. split_and!; try done.
    + apply turns_done, Hq.
    + unfold outcome_of. rewrite pending_empty; [done|apply Hq].
  - destruct (can_move qs q Hl Hinv) as (j&Hj&Hf); [lia|].
    apply list_elem_of_split in Hj as (a&c&Hit).
    pose proof (items_length qs q Hl Hinv) as Hlen. rewrite Hit, length_app in Hlen.
    cbn in Hlen.
    eapply (drains_from (distance qs * S (length ss) + length a) n qs s q a j c steps);
      try done; nia.
Qed.

(** [feed] puts an element into the adapter. *)
Lemma does_feed_pipeline n (r0 : list elem) qs s q x :
  inv (r0 :: qs) q -> holds n (r0 :: qs) s -> is_critical x = false ->
  exists n', does ids (feed feeder x) n q tt n' (Queue.arm Next (addr 0) q) /\
    holds n' ((r0 ++ [x]) :: qs) s /\
    inv ((r0 ++ [x]) :: qs) (Queue.arm Next (addr 0) q).
Proof using alive.
  intros Hinv Hh Hx. pose proof (holds_node _ _ _ Hh 0 r0 eq_refl) as Hn.
  pose proof (holds_set _ _ _ 0 _ (r0 ++ [x]) Hh eq_refl) as Hh'. cbn in Hh'.
  eexists. split; [|split; [exact Hh'|]].
  - exact (does_feed ids _ _ _ _ _ _ x n q (alive 0%nat ltac:(lia)) (holds_feeder _ _ _ Hh) Hn).
  - destruct Hinv as [Hrest Hnd Hb Hmild Harm Hwake]. split.
    + by rewrite arm_rest.
    + by apply arm_nodup.
    + intros j st r Hst Hr. exact (Hb j st r Hst Hr).
    + intros [|i] r; [|exact (Hmild (S i) r)]. intros [= <-].
      apply Forall_app. split; [by apply (Hmild 0%nat)|by constructor].
    + intros e. rewrite arm_elem. intros [He| ->].
      * destruct (Harm e He) as ([|i]&y&r&->&Hi); [|by exists (S i), y, r].
        injection Hi as ->. by exists O, y, (r ++ [x]).
      * destruct r0 as [|y r]; [by exists O, x, []|by exists O, y, (r ++ [x])].
    + intros [|i] y r Hi; rewrite arm_elem; [by left; right|].
      destruct (Hwake (S i) y r Hi) as [?|[? Hf]]; [by left; left|].
      right. split; [done|]. rewrite <- Hf. by apply full_same.
Qed.
End turns.
End pipeline.

(** ** Pipelines on the event loop *)
Section world.
Context {V St : Type}.
Context (func : positive -> V -> St -> thrown (ErrorOr V) * St).
Context (error_func : positive -> Error -> St -> ErrorOr V * St).
Context (ss : list stage) (final : list (positive * positive)).
#[local] Abbreviation elem := (ErrorOr V).
Implicit Types w : world V St.
#[local] Arguments addr : simpl never.

(** The world holds a pipeline with the queues [qs]; the loop implements [q]. *)
Record piped feeder base w (qs : list (list elem)) (s : St) (q : queue) : Prop := {
  piped_repr : repr (loop w) q;
  piped_entered : entered (loop w);
  piped_alive i : (i <= S (length ss))%nat -> addr base i ∈ dom (events (loop w));
  piped_inv : inv base ss qs q;
  piped_holds : holds feeder base ss final (conveyors w) qs s
}.

(** During the construction: the nodes up to [i] are there, the last one has no
    parent yet. *)
Record built feeder base (i : nat) w (s : St) : Prop := {
  built_next : next_id (conveyors w) = addr base (S i);
  built_repr : repr (loop w) empty_queue;
  built_entered : entered (loop w);
  built_alive j : (j <= i)%nat -> addr base j ∈ dom (events (loop w));
  built_user : user (conveyors w) = s;
  built_feeder : feeders (conveyors w) !! feeder = Some (Some (addr base 0));
  built_node j : (j < i)%nat ->
    nodes (conveyors w) !! addr base j = Some (node_at feeder base ss final (V := V) j []);
  built_last : nodes (conveyors w) !! addr base i =
    Some (mkNode None (child_storage (node_at feeder base ss final (V := V) i []))
            (state (node_at feeder base ss final i [])))
}.

Lemma create_event_repr e l : repr l empty_queue -> repr (create_event e l) empty_queue.
Proof.
  intros ((Hh&Hc&Hnd&Hf)&Hp). split; [|exact Hp]. split_and!; try done.
  intros x ev Hx Hn. cbn in Hx.
  apply lookup_insert_Some in Hx as [[_ <-]|[_ Hx]]; [done|eauto].
Qed.

Lemma create_event_dom e l : dom (events (create_event e l)) = {[e]} ∪ dom (events l).
Proof. unfold create_event, put_event, set_events. cbn. by rewrite dom_insert_L. Qed.

(** The storage node of a conveyor without elements gets a parent. *)
Lemma link_parent w p par nd :
  repr (loop w) empty_queue -> entered (loop w) -> p ∈ dom (events (loop w)) ->
  nodes (conveyors w) !! p = Some nd ->
  match state nd with
  | AdaptConveyorNode _ [] | QueueBufferConveyorNode _ [] _ => True
  | _ => False
  end ->
  exists l', run (setParent p par) w =
      Ret (tt, mkWorld (set_nodes (insert p (mkNode (Some par) (child_storage nd) (state nd)))
                          (conveyors w)) l') /\
    repr l' empty_queue /\ same_world (loop w) l'.
Proof.
  intros Hr He Hp Hn Hst. apply (run_does _ _ empty_queue); [done..|].
  eapply does_bind; [by apply does_get_node|].
  destruct (state nd) as [f [|]|c [|] mx| | | | |] eqn:Hs; try done.
  all: eapply does_bind; [by apply does_is_armed|].
  all: eapply does_bind; [eapply does_bind; [by apply does_get_node|];
    rewrite Hs; apply does_ret|].
  all: eapply does_bind; [apply does_ret|]. all: rewrite <- Hs; by apply does_set_parent.
Qed.

(** One more node becomes the parent of the last one. *)
Lemma extend feeder base i w s c nd :
  built feeder base i w s -> (i <= length ss)%nat ->
  exists w2,
    set_storage_parent (mkConveyor c (Some (addr base i))) (addr base (S i))
      (new_node true nd w).2 = Ret (tt, w2) /\
    (new_node true nd w).1 = addr base (S i) /\
    next_id (conveyors w2) = addr base (S (S i)) /\
    repr (loop w2) empty_queue /\ entered (loop w2) /\
    (forall j, (j <= S i)%nat -> addr base j ∈ dom (events (loop w2))) /\
    user (conveyors w2) = s /\
    feeders (conveyors w2) !! feeder = Some (Some (addr base 0)) /\
    (forall j, (j <= i)%nat ->
      nodes (conveyors w2) !! addr base j = Some (node_at feeder base ss final j [])) /\
    nodes (conveyors w2) !! addr base (S i) = Some nd.
Proof.
  intros [Hnext Hr He Hal Hu Hfe Hn Hl] Hi.
  set (w1 := (new_node true nd w).2).
  assert (Hd1 : dom (events (loop w1)) = {[addr base (S i)]} ∪ dom (events (loop w))).
  { subst w1. cbn [new_node snd loop]. by rewrite create_event_dom, Hnext. }
  destruct (link_parent w1 (addr base i) (addr base (S i))
    (mkNode None (child_storage (node_at feeder base ss final (V := V) i []))
            (state (node_at feeder base ss final i []))))
    as (l'&Hrun&Hr'&Hw').
  - by apply create_event_repr.
  - exact He.
  - rewrite Hd1. apply elem_of_union_r, Hal. lia.
  - subst w1. cbn. rewrite Hnext, lookup_insert_ne; [exact Hl|].
    intros ?%addr_inj. lia.
  - destruct i as [|j]; [done|]. cbn.
    by destruct (lookup_lt_is_Some_2 ss j) as [st ->]; [lia|].
  - eexists. split; [exact Hrun|]. split; [exact Hnext|].
    subst w1. cbn. rewrite Hnext. split_and!; try done.
    + symmetry. apply addr_S.
    + by eapply same_world_entered.
    + intros j Hj. destruct Hw' as [-> _]. rewrite Hd1.
      destruct (decide (j = S i)) as [->|?]; [by apply elem_of_union_l, elem_of_singleton|].
      apply elem_of_union_r, Hal. lia.
    + intros j Hj. destruct (decide (j = i)) as [->|Hne].
      * rewrite lookup_insert_eq. f_equal. destruct i as [|j]; [done|]. cbn.
        by destruct (lookup_lt_is_Some_2 ss j) as [st ->]; [lia|].
      * rewrite !lookup_insert_ne by (intros ?%addr_inj; lia). apply Hn. lia.
    + rewrite lookup_insert_ne by (intros ?%addr_inj; lia). apply lookup_insert_eq.
Qed.

Definition at_node base i : Conveyor := mkConveyor (Ref (addr base i)) (Some (addr base i)).

Lemma build_buffers feeder base i w s :
  built feeder base i w s -> (i <= length ss)%nat ->
  exists w', buffers (drop i ss) (at_node base i) w = Ret (at_node base (length ss), w') /\
    built feeder base (length ss) w' s.
Proof.
  remember (length ss - i)%nat as d eqn:Hd. revert i w Hd.
  induction d as [|d IH]; intros i w Hd Hb Hi.
  - assert (i = length ss) as -> by lia. rewrite drop_all. by exists w.
  - destruct (lookup_lt_is_Some_2 ss i) as [st Hst]; [lia|].
    rewrite (drop_S _ _ _ Hst). cbn [buffers]. unfold conv_buffer.
    rewrite thens_wrap. cbn [storage conveyor_node at_node].
    destruct (extend feeder base i w s (wrap (convs st) (Ref (addr base i)))
      (mkNode None (Some (addr base i))
        (QueueBufferConveyorNode (wrap (convs st) (Ref (addr base i))) [] (limit st))) Hb Hi)
      as (w2&Hset&Hp&Hnext&Hr&He&Hal&Hu&Hfe&Hn&Hl).
    destruct (new_node true _ w) as [p w1]. cbn [fst snd] in Hp, Hset. subst p.
    rewrite Hset, bind_ret, bind_ret. apply IH; [lia| |lia].
    split; try done.
    + intros j Hj. apply Hn. lia.
    + cbn. rewrite Hst. exact Hl.
Qed.

Lemma replicate_lookup_inv (i : nat) (r : list elem) k :
  replicate k [] !! i = Some r -> r = [] /\ (i < k)%nat.
Proof. intros H%lookup_replicate. naive_solver. Qed.

Lemma pipeline_built w :
  Forall (fun st => 0 < limit st < size_mod) ss ->
  repr (loop w) empty_queue -> entered (loop w) ->
  exists feeder base sink w', pipeline ss final w = Ret (feeder, sink, w') /\
    piped feeder base w' (replicate (S (length ss)) []) (user (conveyors w)) empty_queue.
Proof.
  intros limits Hr He. set (f := next_id (conveyors w)). set (b := S (pred (Pos.to_nat f))).
  assert (Hf : Pos.of_succ_nat (pred (Pos.to_nat f)) = f) by lia.
  assert (H0 : addr b 0 = Pos.succ f) by (unfold addr, b; rewrite Nat.add_0_r; cbn; lia).
  pose proof (addr_S b 0) as H1. clearbody b.
  exists f, b. unfold pipeline, newConveyorAndFeeder. cbn [new_node next_id conveyors].
  fold f. rewrite <- H0.
  match goal with |- exists sink w', (('(c, w) ← buffers ss _ ?w0; _) = _) /\ _ =>
    destruct (build_buffers f b 0 w0 (user (conveyors w))) as (w1&Hbuf&Hb) end.
  - split; cbn; try done.
    + by apply create_event_repr.
    + intros j Hj. assert (j = O) as -> by lia. rewrite dom_insert_L. set_solver.
    + by rewrite lookup_insert_eq.
    + intros j Hj. lia.
    + by rewrite lookup_insert_eq.
  - lia.
  - rewrite drop_0 in Hbuf. unfold at_node in Hbuf at 1. rewrite Hbuf, bind_ret.
    unfold conv_sink. rewrite thens_wrap. cbn [storage conveyor_node at_node].
    destruct (extend f b (length ss) w1 _ (wrap final (Ref (addr b (length ss))))
      (mkNode None (Some (addr b (length ss)))
        (SinkConveyorNode (wrap final (Ref (addr b (length ss)))) None)) Hb ltac:(lia))
      as (w2&Hset&Hp&Hnext&Hr2&He2&Hal&Hu&Hfe&Hn&Hl).
    destruct (new_node true _ w1) as [p w1']. cbn [fst snd] in Hp, Hset. subst p.
    rewrite Hset, !bind_ret. eexists _, w2. split; [done|]. split; try done.
    + split; try done.
      * constructor.
      * intros j st r Hst [-> _]%replicate_lookup_inv. rewrite zlen_nil.
        pose proof (Forall_lookup_1 _ _ _ _ limits Hst) as Hlim. cbn in Hlim. lia.
      * intros i r [-> _]%replicate_lookup_inv. constructor.
      * intros e []%elem_of_nil.
      * intros i x r [? _]%replicate_lookup_inv. done.
    + split; try done.
      * by rewrite length_replicate.
      * intros i r [-> ?]%replicate_lookup_inv. apply Hn. lia.
      * rewrite Hl. cbn. by rewrite lookup_ge_None_2.
Qed.

Section deliver.
Context (limits : Forall (fun st => 0 < limit st < size_mod) ss).
Context (gs : list (elem -> elem)).
Context (pure : Forall2 (fun st g =>
  forall x s, conv_all func error_func (convs st) x s = (g x, s)) ss gs).
Context (mild : Forall (fun g => forall x, is_critical x = false -> is_critical (g x) = false) gs).
Context (final_mild : forall x s, is_critical x = false ->
  is_critical (conv_all func error_func final x s).1 = false).
#[local] Abbreviation consume := (consume func error_func final).

Lemma feeds_pipeline f b xs w qs s q :
  piped f b w qs s q -> Forall (fun x => is_critical x = false) xs ->
  exists w' qs' q', feeds f xs w = Ret w' /\ piped f b w' qs' s q' /\
    pending gs qs' = pending gs qs ++ map (path gs) xs /\
    (distance qs' = distance qs + length xs * S (length ss))%nat.
Proof.
  intros Hp Hx. revert w qs q Hp. induction Hx as [|x xs Hx _ IH]; intros w qs q Hp.
  - exists w, qs, q. rewrite app_nil_r, Nat.add_0_r. done.
  - destruct Hp as [Hr He Hal Hinv Hh]. pose proof (holds_length _ _ _ _ _ _ _ Hh) as Hl.
    destruct qs as [|r0 qs]; [done|]. injection Hl as Hl.
    pose proof (Forall2_length _ _ _ pure) as Hlg.
    destruct (does_feed_pipeline (dom (events (loop w))) f b ss final Hal (conveyors w) r0 qs s q x
      Hinv Hh Hx) as (n'&Hd&Hh'&Hinv').
    destruct (run_does _ w q _ _ _ Hr He Hd) as (l'&Hrun&Hr'&Hw').
    destruct (IH (mkWorld n' l') ((r0 ++ [x]) :: qs) (Queue.arm Next (addr b 0) q))
      as (w'&qs'&q'&Hf&Hp'&Hpend&Hdist).
    { split; try done; [by eapply same_world_entered|]. cbn [loop]. by destruct Hw' as [-> _]. }
    exists w', qs', q'. cbn [feeds]. rewrite Hrun, bind_ret. split_and!; [done..| |].
    + rewrite Hpend, pending_feed by lia. by rewrite <- app_assoc.
    + rewrite Hdist, distance_feed. cbn. lia.
Qed.

Lemma poll_pipeline f b w qs s q :
  piped f b w qs s q ->
  (S (distance qs) * S (length ss) <= Z.to_nat 65536)%nat ->
  exists w' qs' q', poll (on_user func) (on_user error_func) w = Ret (true, w') /\
    piped f b w' qs' (foldl consume s (pending gs qs)) q' /\ quiet qs' q'.
Proof.
  intros [Hr He Hal Hinv Hh] Hsteps.
  destruct (drains func error_func (dom (events (loop w))) f b ss final Hal limits gs pure mild
    final_mild (conveyors w) qs s q _ Hinv Hh Hsteps) as (n'&qs'&s'&q'&Ht&Hh'&Hinv'&Hq&->).
  destruct (poll_turns _ _ w q n' q' Hr He Ht) as (l'&Hpoll&Hr'&Hw').
  exists (mkWorld n' l'), qs', q'. split_and!; try done.
  split; try done; [by eapply same_world_entered|]. cbn [loop]. by destruct Hw' as [-> _].
Qed.

Lemma quiet_pending qs q : quiet qs q -> pending gs qs = [] /\ distance qs = 0%nat.
Proof.
  intros [Hq _]. split; [by apply pending_empty|].
  induction Hq as [|r qs -> _ IH]; [done|]. cbn. by rewrite IH.
Qed.

Lemma rounds_pipeline f b xss w qs s q :
  piped f b w qs s q -> quiet qs q ->
  Forall (Forall (fun x => is_critical x = false)) xss ->
  Forall (fun xs => S (length xs * S (length ss)) * S (length ss) <= Z.to_nat 65536)%nat xss ->
  exists w' qs' q', rounds func error_func f xss w = Ret w' /\
    piped f b w' qs' (foldl consume s (map (path gs) (concat xss))) q' /\ quiet qs' q'.
Proof.
  intros Hp Hq Hx Hb. revert w qs s q Hp Hq. induction Hx as [|xs xss Hxs _ IH]; intros w qs s q Hp Hq.
  - by exists w, qs, q.
  - inversion Hb as [|? ? Hbx Hbs]; subst. destruct (quiet_pending _ _ Hq) as [Hpe Hdi].
    destruct (feeds_pipeline f b xs w qs s q Hp Hxs) as (w1&qs1&q1&Hf&Hp1&Hpend&Hdist).
    destruct (poll_pipeline f b w1 qs1 s q1 Hp1) as (w2&qs2&q2&Hpoll&Hp2&Hq2).
    { by rewrite Hdist, Hdi. }
    rewrite Hpend, Hpe in Hp2. cbn [app] in Hp2.
    destruct (IH Hbs w2 qs2 _ q2 Hp2 Hq2) as (w'&qs'&q'&Hr&Hp'&Hq').
    exists w', qs', q'. cbn [rounds concat]. rewrite Hf, bind_ret, Hpoll, bind_ret.
    split_and!; try done. by rewrite map_app, foldl_app.
Qed.
End deliver.
End world.

(** ** Property *)

(** C9: a pipeline of any number of stages of conversions and buffers, ended by
    a sink, delivers every element that is fed, between any calls of [poll], once
    and in order: after each [poll] the functions in front of the sink have
    worked on exactly the converted elements so far, nothing is left in a buffer
    and no event is armed.  [n] elements and [k] buffers take at most
    [(n (k + 1) + 1) (k + 1)] turns, which have to be within the 65536 of a [poll].
    The conversions between the buffers work on no state; they may fail, but not
    critically. *)
Theorem conveyor_pipeline_delivers {V St} (func : positive -> V -> St -> thrown (ErrorOr V) * St)
    (error_func : positive -> Error -> St -> ErrorOr V * St)
    (ss : list stage) (final : list (positive * positive))
    (gs : list (ErrorOr V -> ErrorOr V)) (xss : list (list (ErrorOr V))) (w : world V St) :
  repr (loop w) empty_queue -> entered (loop w) ->
  Forall (fun st => 0 < limit st < size_mod) ss ->
  Forall2 (fun st g => forall x s, conv_all func error_func (convs st) x s = (g x, s)) ss gs ->
  Forall (fun g => forall x, is_critical x = false -> is_critical (g x) = false) gs ->
  (forall x s, is_critical x = false ->
    is_critical (conv_all func error_func final x s).1 = false) ->
  Forall (Forall (fun x => is_critical x = false)) xss ->
  Forall (fun xs => (zlen xs * (zlen ss + 1) + 1) * (zlen ss + 1) <= 65536) xss ->
  exists f sink w1 w2 base,
    pipeline ss final w = Ret (f, sink, w1) /\
    rounds func error_func f xss w1 = Ret w2 /\
    user (conveyors w2) =
      foldl (fun s x => (conv_all func error_func final x s).2) (user (conveyors w))
        (map (path gs) (concat xss)) /\
    repr (loop w2) empty_queue /\
    (forall i, (i <= length ss)%nat -> exists nd,
       nodes (conveyors w2) !! addr base i = Some nd /\ queued_of (state nd) = 0).
Proof.
  intros Hr He Hlim Hpure Hmild Hfinal Hx Hb.
  destruct (pipeline_built ss final w Hlim Hr He) as (f&b&sink&w1&Hp&Hpiped).
  destruct (rounds_pipeline func error_func ss final Hlim gs Hpure Hmild Hfinal f b xss w1 _ _ _
    Hpiped) as (w2&qs&q&Hrounds&[Hr2 _ _ _ Hh]&[Hq Hit]).
  - split; [|done]. by apply Forall_replicate.
  - done.
  - eapply Forall_impl; [exact Hb|]. cbn. intros xs. unfold zlen. lia.
  - exists f, sink, w1, w2, b. split_and!; try done; [by apply (holds_user _ _ _ _ _ _ _ Hh)| |].
    + destruct q as [nw sn rs]. unfold items in Hit. cbn in Hit.
      apply app_eq_nil in Hit as [-> Hit]. by apply app_eq_nil in Hit as [-> ->].
    + intros i Hi. pose proof (holds_length _ _ _ _ _ _ _ Hh) as Hl.
      destruct (lookup_lt_is_Some_2 qs i) as [r Hqi]; [lia|].
      pose proof (holds_node _ _ _ _ _ _ _ Hh _ _ Hqi) as Hn.
      pose proof (Forall_lookup_1 _ _ _ _ Hq Hqi) as ->. eexists. split; [exact Hn|].
      destruct i as [|j]; [done|]. cbn.
      by destruct (lookup_lt_is_Some_2 ss j) as [st ->]; [lia|].
Qed.

(** Functions 1 and 2 add one; function 3 logs its argument. *)
Definition sample_func (f : positive) (v : Z) (log : list Z) : thrown (ErrorOr Z) * list Z :=
  if decide (f = 3%positive) then (Returned (IsValue v), log ++ [v])
  else (Returned (IsValue (v + 1)), log).
Definition propagate {V St} (f : positive) (e : Error) (s : St) : ErrorOr V * St :=
  (IsError e, s).
Definition sample_stages : list stage := [mkStage [(1, 1)] 2; mkStage [(2, 2); (1, 1)] 1]%positive.
Definition sample_steps : list (ErrorOr Z -> ErrorOr Z) :=
  let step n x := match x with IsError e => IsError e | IsValue v => IsValue (v + n) end in
  [step 1; step 2].

Lemma conveyor_pipeline_delivers_witness :
  exists f sink w1 w2 base,
    pipeline (V := Z) sample_stages [(3, 3)]%positive (new_world []) = Ret (f, sink, w1) /\
    rounds sample_func propagate f [[IsValue 10; IsValue 20; IsValue 30]; [IsValue 40]] w1 =
      Ret w2 /\
    user (conveyors w2) = [13; 23; 33; 43] /\
    repr (loop w2) empty_queue /\
    (forall i, (i <= 2)%nat -> exists nd,
       nodes (conveyors w2) !! addr base i = Some nd /\ queued_of (state nd) = 0).
Proof.
  apply (conveyor_pipeline_delivers sample_func propagate sample_stages [(3, 3)]%positive
    sample_steps [[IsValue 10; IsValue 20; IsValue 30]; [IsValue 40]] (new_world [])).
  - split; [|done]. split_and!; try done. constructor.
  - done.
  - repeat constructor; done.
  - unfold sample_stages, sample_steps. apply Forall2_cons; split; [by intros [e|v] s|].
    apply Forall2_cons; split; [|by apply Forall2_nil].
    intros [e|v] s; [done|].
    change ((IsValue (v + 1 + 1), s) = (IsValue (v + 2), s) :> (ErrorOr Z * list Z)).
    by replace (v + 1 + 1) with (v + 2) by lia.
  - repeat constructor; by intros [e|v].
  - by intros [e|v] s.
  - repeat constructor.
  - repeat constructor; done.
Defined.
