(* ===== verification/ConveyorBounds.v ===== *)
(** Bounds that hold in every state a client can reach: no buffer exceeds its
    limit, a merge node's cursor stays within its appendages, the counter of an
    immediate node does not wrap. *)

From S2P Require Import Prelude Error.
From stdpp Require Import gmap list relations.
From S2P Require Import EventLoop EventTheory Conveyor ConveyorRules.
#[local] Open Scope Z_scope.

(** ** Computations that keep a property of the nodes on every path *)
Lemma results_bind {U W} (P : W -> Prop) (Q : U -> Prop) (p : prog U) (k : U -> prog W) :
  results Q p -> (forall u, Q u -> results P (k u)) -> results P (prog_bind p k).
Proof. induction p as [u|h e p IH|e p IH|e p IH]; cbn; auto. Qed.

Lemma results_exec {U} (P : U -> Prop) (p : prog U) l u l' :
  results P p -> exec p l = Ret (u, l') -> P u.
Proof.
  revert l. induction p as [u0|h e p IH|e p IH|e p IH]; intros l; cbn.
  - by intros ? [= <- <-].
  - intros ? (l1&_&?)%bind_Ret_inv. eauto.
  - intros ? (l1&_&?)%bind_Ret_inv. eauto.
  - intros ? (b&_&?)%bind_Ret_inv. eauto.
Qed.

Section keeps.
Context {V St : Type}.
Implicit Types P : net V St -> Prop.

(** From nodes with [P], [m] only reaches results and nodes with [Q]. *)
Definition leads {A} P (m : M V St A) (Q : A -> net V St -> Prop) : Prop :=
  forall n, P n -> results (fun r => match r with
    | Ret (a, n') => Q a n'
    | Halt _ => True
    end) (m n).

(** From nodes with [P], [m] only reaches nodes with [P] and results with [Q]. *)
Definition keeps P {A} (m : M V St A) (Q : A -> Prop) : Prop :=
  leads P m (fun a n => Q a /\ P n).

Lemma leads_bind {A B} P (m : M V St A) (k : A -> M V St B) Q R :
  leads P m Q -> (forall a, leads (Q a) (k a) R) -> leads P (m ≫= k) R.
Proof.
  intros Hm Hk n Hn. eapply results_bind; [by apply Hm|].
  intros [[a n1]|f]; [|done]. intros Ha. by apply Hk.
Qed.

Lemma leads_weaken {A} P (m : M V St A) (Q R : A -> net V St -> Prop) :
  (forall a n, Q a n -> R a n) -> leads P m Q -> leads P m R.
Proof.
  intros Himp Hm n Hn. specialize (Hm n Hn). revert Hm. generalize (m n). clear -Himp.
  induction p as [[[a n']|f]|h e p IH|e p IH|e p IH]; cbn; [apply Himp|done|auto..].
Qed.

Lemma leads_pre {A} P P' (m : M V St A) Q :
  (forall n, P n -> P' n) -> leads P' m Q -> leads P m Q.
Proof. intros Hp Hm n Hn. apply Hm. auto. Qed.

(** A node that was read is still there. *)
Lemma leads_get_node {A} P p (k : node V -> M V St A) Q :
  (forall nd, leads (fun n => P n /\ nodes n !! p = Some nd) (k nd) Q) ->
  leads P (get_node p ≫= k) Q.
Proof.
  intros Hk. eapply leads_bind; [|exact Hk]. intros n Hn. unfold get_node, gets. cbn.
  destruct (nodes n !! p) eqn:Hp; [|done]. by split.
Qed.

Lemma keeps_ret {A} P (a : A) (Q : A -> Prop) : Q a -> keeps P (mret a) Q.
Proof. done. Qed.

Lemma keeps_bind {A B} P (m : M V St A) (k : A -> M V St B) Q R :
  keeps P m Q -> (forall a, Q a -> keeps P (k a) R) -> keeps P (m ≫= k) R.
Proof.
  intros Hm Hk. eapply leads_bind; [exact Hm|]. intros a n [Ha Hn]. by apply Hk.
Qed.

Lemma keeps_weaken {A} P (m : M V St A) (Q R : A -> Prop) :
  (forall a, Q a -> R a) -> keeps P m Q -> keeps P m R.
Proof. intros Himp. apply leads_weaken. intros a n [? ?]. auto. Qed.

Lemma keeps_when P b (m : M V St unit) :
  (b = true -> keeps P m (fun _ => True)) -> keeps P (when b m) (fun _ => True).
Proof. destruct b; cbn; [auto|by intros; apply keeps_ret]. Qed.

Lemma keeps_value {A} P (a : A) : keeps P (mret a) (fun _ => True).
Proof. done. Qed.

Lemma keeps_halt {A} P f (Q : A -> Prop) : keeps P (halt f) Q.
Proof. done. Qed.

Lemma keeps_arm P h e : keeps P (arm_event h e) (fun _ => True).
Proof. done. Qed.

Lemma keeps_disarm P e : keeps P (disarm_event e) (fun _ => True).
Proof. done. Qed.

Lemma keeps_is_armed P e : keeps P (is_armed e) (fun _ => True).
Proof. done. Qed.

Lemma keeps_ensure P b : keeps P (ensure b) (fun _ => True).
Proof. by destruct b. Qed.

Lemma keeps_gets {A} P (f : net V St -> outcome A) : keeps P (gets f) (fun _ => True).
Proof. intros n Hn. unfold gets. by destruct (f n). Qed.

Lemma keeps_arm_unless P h e : keeps P (arm_unless_armed h e) (fun _ => True).
Proof.
  eapply keeps_bind; [apply keeps_is_armed|]. intros b _. apply keeps_when.
  intros _. apply keeps_arm.
Qed.
End keeps.

#[export] Hint Resolve keeps_value keeps_halt keeps_arm keeps_disarm keeps_is_armed keeps_ensure
  keeps_gets keeps_arm_unless : conveyor.

(** Steps through a computation: the operations that are known to keep the
    bounds, then the case analysis that follows. *)
Ltac keep :=
  repeat first
    [ apply keeps_ret; done
    | apply keeps_halt
    | solve [eauto with conveyor]
    | eapply keeps_bind; [solve [eauto with conveyor]|intros ? ?]
    | apply keeps_when; intros ?
    | match goal with |- keeps _ (if ?b then _ else _) _ => destruct b end ].

(** ** The bounds *)

(** What holds of a node's members, and of those of a buffer with room. *)
Definition fits {V} (st : node_state V) : Prop :=
  match st with
  | QueueBufferConveyorNode _ storage max_store => zlen storage <= max_store
  | ImmediateConveyorNode _ retrieved => 0 <= retrieved <= 2
  | MergeConveyorNode appendages next => 0 <= next <= zlen appendages
  | _ => True
  end.
Definition roomy {V} (st : node_state V) : Prop :=
  match st with
  | QueueBufferConveyorNode _ storage max_store => zlen storage < max_store
  | _ => True
  end.
Definition fits_at {V} (r : option positive) (p : positive) (st : node_state V) : Prop :=
  fits st /\ (r = Some p -> roomy st).

(** The bounds hold, and the buffer [r], if any, has room. *)
Definition bounds_in {V St} (r : option positive) (n : net V St) : Prop :=
  forall p nd, nodes n !! p = Some nd -> fits_at r p (state nd).
Abbreviation bounds := (bounds_in None).

(** A function of [then] that keeps the bounds and fills no buffer. *)
Definition calm {V St A} (m : M V St A) : Prop :=
  forall r, keeps (bounds_in r) m (fun _ => True).

Section bounds.
Context {V St : Type} (r : option positive).
#[local] Abbreviation M := (M V St).
Implicit Types (n : net V St) (p : positive).
#[local] Abbreviation keeps := (keeps (V := V) (St := St) (bounds_in r)).

Lemma keeps_get_node p : keeps (get_node p) (fun nd => fits_at r p (state nd)).
Proof.
  intros n Hn. unfold get_node, gets. cbn.
  destruct (nodes n !! p) as [nd|] eqn:Hp; [|done]. cbn. split; [by eapply Hn|done].
Qed.

Lemma keeps_put_node p nd : fits_at r p (state nd) -> keeps (put_node p nd) (fun _ => True).
Proof.
  intros Hf n Hn. split; [done|]. intros q nq. cbn.
  intros [[<- <-]|[_ Hq]]%lookup_insert_Some; [done|by eapply Hn].
Qed.

Lemma keeps_set_state p st : fits_at r p st -> keeps (set_state p st) (fun _ => True).
Proof.
  intros Hf. eapply keeps_bind; [apply keeps_get_node|]. intros nd _. by apply keeps_put_node.
Qed.

Lemma keeps_set_child_storage p c : keeps (set_child_storage p c) (fun _ => True).
Proof. eapply keeps_bind; [apply keeps_get_node|]. intros nd ?. by apply keeps_put_node. Qed.

Lemma keeps_set_parent p c : keeps (set_parent p c) (fun _ => True).
Proof. eapply keeps_bind; [apply keeps_get_node|]. intros nd ?. by apply keeps_put_node. Qed.

Lemma keeps_set_feeders f : keeps (update (set_feeders f)) (fun _ => True).
Proof. by intros n Hn. Qed.

Lemma keeps_delete p : keeps (update (set_nodes (delete p))) (fun _ => True).
Proof.
  intros n Hn. split; [done|]. intros q nq. cbn.
  intros [_ Hq]%lookup_delete_Some. by eapply Hn.
Qed.
End bounds.

#[export] Hint Extern 1 (fits_at _ _ _) => (split; [exact I|intros _; exact I]) : conveyor.
#[export] Hint Resolve keeps_set_state keeps_get_node keeps_set_child_storage keeps_set_parent
  keeps_set_feeders keeps_delete keeps_when : conveyor.

Section elements.
Context {V St : Type} (r : option positive).
#[local] Abbreviation M := (M V St).
Implicit Types (n : net V St) (p : positive).
#[local] Abbreviation keeps := (keeps (V := V) (St := St) (bounds_in r)).

Lemma keeps_space p : keeps (space p) (fun _ => True).
Proof. unfold space. keep. Qed.

Lemma keeps_queue_count appendages : keeps (queue_count appendages) (fun _ => True).
Proof. induction appendages as [|a l IH]; cbn [queue_count]; keep. Qed.

Lemma keeps_queued p : keeps (queued p) (fun _ => True).
Proof.
  eapply keeps_bind; [apply keeps_get_node|]. intros nd _.
  destruct (state nd); keep. apply keeps_queue_count.
Qed.

Lemma keeps_find_queued l i :
  keeps (find_queued l i) (fun x => match x with
    | Some (j, _) => i <= j < i + zlen l
    | None => True
    end).
Proof.
  revert i. induction l as [|a l IH]; intros i; cbn [find_queued]; [keep|].
  eapply keeps_bind; [apply keeps_get_node|]. intros nd _. rewrite zlen_cons.
  pose proof (zlen_nonneg l). bcase; [apply keeps_ret; lia|].
  eapply keeps_weaken; [|apply IH]. intros [[j b]|]; [lia|done].
Qed.

Lemma keeps_move_out a : keeps (move_out a) (fun _ => True).
Proof.
  eapply keeps_bind; [apply keeps_get_node|]. intros nd _.
  destruct (state nd) as [| | | | |c m [x|]|]; keep.
Qed.

Lemma keeps_merge_getResult p l next :
  0 <= next <= zlen l -> keeps (merge_getResult p l next) (fun _ => True).
Proof.
  intros Hn. unfold merge_getResult. rewrite Z.min_r by lia.
  eapply keeps_bind; [apply keeps_find_queued|]. intros later Hlater.
  rewrite zlen_drop in Hlater by done.
  eapply (keeps_bind _ _ _
    (fun x => match x with Some (j, _) => 0 <= j < zlen l | None => True end)).
  { destruct later as [[j a]|]; [apply keeps_ret; cbn in Hlater; lia|].
    eapply keeps_weaken; [|apply keeps_find_queued].
    rewrite zlen_take by done. intros [[j a]|]; [lia|done]. }
  intros [[j a]|] Hj.
  - eapply keeps_bind; [apply keeps_move_out|]. intros eov _.
    eapply keeps_bind; [apply keeps_set_state; split; cbn; [lia|done]|keep].
  - eapply keeps_bind; [by apply keeps_set_state|keep].
Qed.

Lemma keeps_storage_getResult p : keeps (storage_getResult p) (fun _ => True).
Proof.
  eapply keeps_bind; [apply keeps_get_node|]. intros nd Hf. unfold_methods.
  destruct (state nd) as [f [|x l]|c [|x l] mx|c s|v i|l nx|c m x|l d] eqn:Hs;
    cbn beta in Hf; rewrite Hs in Hf; destruct Hf as [Hf Hr]; cbn [fits roomy] in *; keep.
  - rewrite zlen_cons in *.
    eapply keeps_bind; [apply keeps_set_state|keep]. split; cbn [fits roomy]; [lia|].
    intros H. specialize (Hr H). lia.
  - cbn [queued_of]. unfold ImmediateConveyorNode_queued.
    eapply keeps_bind; [|keep]. apply keeps_when.
    destruct (Z.ltb_spec 1 i); [done|]. intros _.
    apply keeps_set_state. split; [cbn [fits]; lia|done].
  - by apply keeps_merge_getResult.
Qed.

(** ** What functions may do *)
Lemma keeps_on_user {A B} (g : positive -> A -> St -> B * St) i a :
  keeps (on_user g i a) (fun _ => True).
Proof. intros n Hn. unfold on_user. by destruct (g i a (user n)). Qed.

Lemma keeps_feed f x : keeps (feed f x) (fun _ => True).
Proof.
  assert (Hp : forall (g : positive -> M unit), (forall p, keeps (g p) (fun _ => True)) ->
    keeps (q ← feedee f; match q with Some p => g p | None => mret tt end) (fun _ => True)).
  { intros g Hg. eapply keeps_bind; [apply keeps_gets|]. intros [p|] _; [apply Hg|keep]. }
  assert (Hs : forall p y, keeps (_ ← adapt_push p y; arm_event Next p) (fun _ => True)).
  { intros p y. eapply (keeps_bind _ _ _ (fun _ => True)); [|keep].
    eapply keeps_bind; [apply keeps_get_node|]. intros nd _. destruct (state nd); keep. }
  destruct x; apply Hp; intros p; apply Hs.
Qed.
End elements.

Section functions.
Context {V St : Type}.
Context (func : positive -> V -> M V St (thrown (ErrorOr V))).
Context (error_func : positive -> Error -> M V St (ErrorOr V)).
Context (func_calm : forall f v, calm (func f v)).
Context (error_func_calm : forall f e, calm (error_func f e)).
#[local] Abbreviation M := (M V St).
Implicit Types (n : net V St) (w : world V St) (p : positive).

Lemma keeps_getResult r c : keeps (bounds_in r) (getResult func error_func c) (fun _ => True).
Proof.
  induction c as [|p|f ef c IH|c IH]; cbn [getResult].
  - keep.
  - apply keeps_storage_getResult.
  - unfold ConvertConveyorNode_getImpl. destruct (is_null c); [keep|].
    eapply keeps_bind; [exact IH|]. intros [e|v] _.
    + apply error_func_calm.
    + eapply keeps_bind; [apply func_calm|keep].
  - unfold AttachConveyorNodeBase_getResult. destruct (is_null c); [keep|done].
Qed.

#[local] Abbreviation keeps := (keeps (V := V) (St := St) bounds).

#[local] Hint Resolve keeps_getResult keeps_space keeps_queued : conveyor.

(** A push into a buffer with room. *)
Lemma push_bounds p (x : ErrorOr V) :
  leads (St := St) (bounds_in (Some p)) (storage_push p x) (fun _ => bounds).
Proof.
  apply leads_get_node. intros nd. destruct (state nd) as [|c l mx| | | | |] eqn:Hs;
    try by intros n _.
  intros n [Hn Hp].
  assert (Hb : bounds n) by (intros q nq Hq; split; [apply (Hn q nq Hq)|done]).
  destruct (Hn p nd Hp) as [_ Hr]. specialize (Hr eq_refl). rewrite Hs in Hr.
  cbn [roomy] in Hr. clear Hn Hp. revert n Hb.
  eapply leads_weaken; [|apply keeps_set_state]; [by intros [] n [_ ?]|].
  split; [|done]. cbn [fits]. rewrite zlen_app, zlen_cons, zlen_nil. lia.
Qed.

Lemma keeps_buffer_childHasFired p nd c l mx :
  state nd = QueueBufferConveyorNode c l mx ->
  leads (fun n => bounds n /\ nodes n !! p = Some nd)
    (QueueBufferConveyorNode_childHasFired func error_func p c l mx)
    (fun _ n => True /\ bounds n).
Proof.
  intros Hs. unfold QueueBufferConveyorNode_childHasFired, when.
  destruct (_ && _) eqn:Hroom; [|by intros n [Hn _]].
  apply andb_true_iff in Hroom as [_ Hroom]. apply Z.ltb_lt in Hroom.
  apply (leads_pre _ (bounds_in (Some p))).
  { intros n [Hn Hp] q nq Hq. split; [apply (Hn q nq Hq)|]. intros [= <-].
    rewrite Hp in Hq. injection Hq as <-. by rewrite Hs. }
  eapply leads_bind; [apply keeps_getResult|]. intros x. cbn beta.
  apply (leads_bind _ _ _ (fun _ => bounds_in (Some p))).
  { apply (leads_pre _ (bounds_in (Some p))); [by intros n [_ ?]|].
    eapply leads_weaken; [|apply keeps_when; intros _; apply keeps_set_child_storage].
    by intros ? ? [_ ?]. }
  intros []. eapply leads_bind; [apply push_bounds|]. intros []. apply keeps_arm_unless.
Qed.

Lemma keeps_childHasFired p : keeps (childHasFired func error_func p) (fun _ => True).
Proof.
  apply leads_get_node. intros nd.
  destruct (state nd) as [f l|c l mx|c s|v i|l nx|c m x|l d] eqn:Hs;
    [|by apply keeps_buffer_childHasFired|..];
    (apply (leads_pre _ bounds); [by intros n [? _]|]); unfold_methods; keep.
  - match goal with |- keeps (match ?x with _ => _ end) _ => destruct x as [e|v] end; keep.
  - eapply (keeps_bind _ _ _ (fun _ => True)); [|keep].
    eapply keeps_bind; [apply keeps_get_node|]. intros nd' _. destruct (state nd'); keep.
Qed.

#[local] Hint Resolve keeps_childHasFired : conveyor.

Lemma keeps_parentHasFired p : keeps (parentHasFired p) (fun _ => True).
Proof.
  assert (He : forall q, keeps (parentHasFired_event q) (fun _ => True)).
  { intros q. eapply keeps_bind; [apply keeps_get_node|]. intros nd _. unfold_methods. unfold some_parent.
    destruct (state nd), (parent nd); keep. }
  eapply keeps_bind; [apply keeps_get_node|]. intros nd _. unfold_methods.
  destruct (state nd), (child_storage nd); keep; apply He.
Qed.

Lemma keeps_setParent p par : keeps (setParent p par) (fun _ => True).
Proof.
  assert (Ht : forall b, keeps (if b : bool then mret 0 else queued p) (fun _ => True)).
  { intros []; keep. }
  eapply keeps_bind; [apply keeps_get_node|]. intros nd _. unfold_methods.
  destruct (state nd), (parent nd); keep;
    (eapply keeps_bind; [apply keeps_when; intros _; keep|keep]).
Qed.

Lemma keeps_destroy fuel p : keeps (destroy fuel p) (fun _ => True).
Proof.
  revert p. induction fuel as [|fuel IH]; intros p; cbn [destroy]; [keep|].
  eapply keeps_bind; [apply keeps_get_node|]. intros nd _.
  eapply (keeps_bind _ _ _ (fun _ => True)).
  { destruct (state nd) as [[f|] l|c l mx|c s|v r|l nx|c m x|l d]; keep;
      try (destruct (leaf c); keep; apply IH).
    induction l as [|a l IHl]; cbn [foldr]; [keep|].
    eapply keeps_bind; [apply IH|]. intros _ _. exact IHl. }
  intros _ _. eapply (keeps_bind _ _ _ (fun _ => True)); [destruct (state nd); keep|].
  intros _ _. eapply (keeps_bind _ _ _ (fun _ => True)).
  { unfold unlinkChild. destruct (parent nd); keep. }
  intros _ _. apply keeps_delete.
Qed.

Lemma keeps_destroy_child c : keeps (destroy_child c) (fun _ => True).
Proof.
  intros n Hn. unfold destroy_child. destruct (leaf c); [|done]. by apply keeps_destroy.
Qed.

#[local] Hint Resolve keeps_parentHasFired keeps_setParent keeps_destroy_child : conveyor.

Lemma keeps_sinks_fire sinks d l : keeps (ConveyorSinks_fire sinks d l) (fun _ => True).
Proof.
  revert l. induction d as [|p d IH]; intros l; cbn [ConveyorSinks_fire]; [keep|].
  destruct (remove_if p l) as [l' b]. eapply keeps_bind; [keep|]. intros _ _.
  eapply keeps_bind; [by apply keeps_set_state|]. intros _ _. apply IH.
Qed.

Lemma keeps_sink_fire p c s : keeps (SinkConveyorNode_fire p c s) (fun _ => True).
Proof.
  assert (Hd : forall sinks q, keeps (destroySinkConveyorNode sinks q) (fun _ => True)).
  { intros sinks q. eapply keeps_bind; [apply keeps_arm_unless|]. intros _ _.
    eapply keeps_bind; [apply keeps_get_node|]. intros nd _. destruct (state nd); keep. }
  unfold SinkConveyorNode_fire. keep. destruct s; keep.
Qed.

(** Whether and how a node passes on another element. *)
Lemma keeps_parent_space p : keeps (parent_space p) (fun _ => True).
Proof.
  eapply keeps_bind; [apply keeps_get_node|]. intros nd _. destruct (parent nd); keep.
Qed.

#[local] Hint Resolve keeps_parent_space : conveyor.

Lemma keeps_again h p :
  keeps (n ← queued p;
         if 0 <? n then s ← parent_space p; when (0 <? s) (arm_event h p) else mret tt)
    (fun _ => True).
Proof. keep. Qed.

Lemma keeps_buffer_fire p :
  keeps (QueueBufferConveyorNode_fire func error_func p) (fun _ => True).
Proof.
  eapply keeps_bind; [apply keeps_get_node|]. intros nd Hf.
  destruct (state nd) as [f l|c l mx|c s|v r|l nx|c m x|l d] eqn:Hs; keep.
  cbn beta in Hf. rewrite Hs in Hf.
  eapply (keeps_bind _ _ _ (fun _ => True)).
  { apply keeps_when. intros _. keep. }
  intros _ _. eapply (keeps_bind _ _ _ (fun _ => True)).
  { destruct (parent nd); [|keep]. eapply keeps_bind; [apply keeps_childHasFired|].
    intros _ _. apply keeps_again. }
  intros _ _. eapply keeps_bind; [apply keeps_get_node|]. intros nd' _.
  destruct (child_storage nd'); keep.
Qed.

Lemma keeps_pass_on p h : keeps (pass_on func error_func p h) (fun _ => True).
Proof.
  eapply keeps_bind; [apply keeps_get_node|]. intros nd _. destruct (parent nd); [|keep].
  eapply keeps_bind; [apply keeps_childHasFired|]. intros _ _. apply keeps_again.
Qed.

#[local] Hint Resolve keeps_pass_on keeps_buffer_fire keeps_sink_fire keeps_sinks_fire
  : conveyor.

Lemma keeps_fire p : keeps (fire func error_func p) (fun _ => True).
Proof.
  eapply keeps_bind; [apply keeps_get_node|]. intros nd _. unfold_methods.
  destruct (state nd); keep. destruct (parent nd); keep.
Qed.

(** ** The client *)
Lemma run_keeps {A} (m : M A) w a w' :
  keeps m (fun _ => True) -> bounds (conveyors w) -> run m w = Ret (a, w') ->
  bounds (conveyors w').
Proof.
  intros Hm Hw. unfold run. intros ([r l]&Hx&Hr)%bind_Ret_inv.
  pose proof (results_exec _ _ _ _ _ (Hm _ Hw) Hx) as Hb. cbn in Hb, Hr.
  destruct r as [[b n]|f]; [|done]. cbn in Hr. injection Hr as _ <-. apply Hb.
Qed.

Definition bounds_of (r : outcome (net V St)) : Prop :=
  match r with Ret n => bounds n | Halt _ => True end.

Lemma fire_event_bounds e r :
  bounds_of r -> results bounds_of (fire_event func error_func e r).
Proof.
  destruct r as [n|f]; [|done]. intros Hn. cbn [fire_event].
  eapply results_bind; [by apply keeps_fire|]. intros [[u n']|f]; [|done]. by intros [_ ?].
Qed.

Lemma turn_loop_bounds steps r l b r' l' :
  bounds_of r -> turn_loop (fire_event func error_func) steps r l = Ret (b, r', l') ->
  bounds_of r'.
Proof.
  revert r l. induction steps as [|steps IH]; intros r l Hr; cbn [turn_loop].
  { by intros [= _ <- _]. }
  destruct (head l) as [e|] eqn:Hh; [|by intros [= _ <- _]].
  intros ([[more r1] l1]&Ht&Hn)%bind_Ret_inv. cbn beta iota in Hn.
  assert (Hr1 : bounds_of r1).
  { unfold turn in Ht. rewrite Hh in Ht.
    do 4 (apply bind_Ret_inv in Ht as (?&_&Ht)).
    apply bind_Ret_inv in Ht as ([r2 l2]&Hx&Ht). injection Ht as _ <- _.
    exact (results_exec _ _ _ _ _ (fire_event_bounds e r Hr) Hx). }
  destruct more; [|by injection Hn as _ <- _]. by eapply IH.
Qed.

Lemma poll_bounds w b w' :
  bounds (conveyors w) -> poll func error_func w = Ret (b, w') -> bounds (conveyors w').
Proof.
  intros Hw. unfold poll, wait, turnLoop. rewrite bind_ret.
  intros ([[more r] l]&Hx&Hr)%bind_Ret_inv. cbn beta iota in Hr.
  pose proof (turn_loop_bounds _ (Ret (conveyors w)) _ _ _ _ Hw Hx) as Hb.
  destruct r as [n|f]; [|done]. cbn in Hr. by injection Hr as _ <-.
Qed.

Lemma new_node_bounds has_event nd w :
  fits (state nd) -> bounds (conveyors w) -> bounds (conveyors (new_node has_event nd w).2).
Proof.
  intros Hf Hw p np. cbn.
  intros [[<- <-]|[_ Hp]]%lookup_insert_Some; [by split|by eapply Hw].
Qed.
End functions.

(** What the owner of the conveyors can do to the world, in any order. *)
Section steps.
Context {V St : Type}.
Context (func : positive -> V -> M V St (thrown (ErrorOr V))).
Context (error_func : positive -> Error -> M V St (ErrorOr V)).
Implicit Types w : world V St.

Inductive client_step : world V St -> world V St -> Prop :=
| Step_newConveyorAndFeeder w f c w' :
    newConveyorAndFeeder w = (f, c, w') -> client_step w w'
| Step_immediate x w c w' :
    immediateConveyor x w = (c, w') -> client_step w w'
| Step_buffer size c w c' w' :
    0 <= size -> conv_buffer size c w = Ret (c', w') -> client_step w w'
| Step_sink c w s w' :
    conv_sink c w = Ret (s, w') -> client_step w w'
| Step_merge c w c' m w' :
    conv_merge c w = Ret (c', m, w') -> client_step w w'
| Step_attach m c w w' :
    merge_attach m c w = Ret (tt, w') -> client_step w w'
| Step_detach f ef d c w d' w' :
    conv_detach f ef d c w = Ret (d', w') -> client_step w w'
| Step_feed f x w w' :
    run (feed f x) w = Ret (tt, w') -> client_step w w'
| Step_take c w r w' :
    run (take func error_func c) w = Ret (r, w') -> client_step w w'
| Step_poll w b w' :
    poll func error_func w = Ret (b, w') -> client_step w w'
| Step_drop_conveyor c w w' :
    run (destroy_child (conveyor_node c)) w = Ret (tt, w') -> client_step w w'
| Step_drop_sink p w w' :
    run (destroy_child (Ref p)) w = Ret (tt, w') -> client_step w w'
| Step_drop_feeder f w w' :
    run (destroy_feeder f) w = Ret (tt, w') -> client_step w w'.

Context (func_calm : forall f v, calm (func f v)).
Context (error_func_calm : forall f e, calm (error_func f e)).

Lemma take_calm c : calm (take func error_func c).
Proof.
  intros r. unfold take. destruct (storage c); [|apply keeps_value].
  eapply keeps_bind; [apply keeps_queued|]. intros n _.
  destruct (0 <? n); [by apply keeps_getResult|apply keeps_value].
Qed.

Lemma destroy_feeder_calm f : calm (destroy_feeder (V := V) (St := St) f).
Proof.
  intros b. eapply keeps_bind; [apply keeps_gets|]. intros r _.
  eapply (keeps_bind _ _ _ (fun _ => True)); [|intros _ _; apply keeps_set_feeders].
  destruct r as [p|]; [|apply keeps_value].
  eapply keeps_bind; [apply keeps_get_node|]. intros nd _.
  destruct (state nd); try apply keeps_halt. by apply keeps_set_state.
Qed.

Lemma attach_keeps m c w w' :
  bounds (conveyors w) -> merge_attach m c w = Ret (tt, w') -> bounds (conveyors w').
Proof.
  intros Hw. unfold merge_attach.
  destruct (new_node false _ w) as [p w1] eqn:Hn. cbn zeta iota beta.
  intros ([[] w2]&Hs&Hr)%bind_Ret_inv. cbn beta iota in Hr.
  assert (Hw1 : bounds (conveyors w1)).
  { change w1 with (p, w1).2. rewrite <- Hn. by apply new_node_bounds. }
  assert (Hw2 : bounds (conveyors w2)).
  { unfold set_parent_if in Hs. destruct (storage c); [|by injection Hs as <-].
    eapply run_keeps; [apply keeps_setParent|exact Hw1|exact Hs]. }
  eapply run_keeps; [|exact Hw2|exact Hr].
  eapply keeps_bind; [apply keeps_get_node|]. intros nd [Hf _].
  destruct (state nd); try apply keeps_halt. cbn [fits] in Hf.
  apply keeps_set_state. split; [|done]. cbn [fits]. unfold zlen in *. rewrite length_app. lia.
Qed.

(** A new storage node on top of a conveyor. *)
Lemma on_top_keeps nd c w p w' :
  fits (state nd) -> bounds (conveyors w) ->
  (let '(q, w1) := new_node true nd w in
   '(_, w2) ← set_storage_parent c q w1; Ret (q, w2)) = Ret (p, w') ->
  bounds (conveyors w').
Proof.
  intros Hf Hw. destruct (new_node true nd w) as [q w1] eqn:Hn.
  intros ([[] w2]&Hs&Hr)%bind_Ret_inv. injection Hr as <- <-.
  assert (Hw1 : bounds (conveyors w1)).
  { change w1 with (q, w1).2. rewrite <- Hn. by apply new_node_bounds. }
  unfold set_storage_parent in Hs. destruct (storage c); [|done].
  eapply run_keeps; [apply keeps_setParent|exact Hw1|exact Hs].
Qed.

Lemma sinks_add_keeps d c w w' :
  bounds (conveyors w) -> sinks_add d c w = Ret (tt, w') -> bounds (conveyors w').
Proof.
  intros Hw. unfold sinks_add.
  destruct (new_node true _ w) as [p w1] eqn:Hn. cbn zeta iota beta.
  intros ([[] w2]&Hs&Hr)%bind_Ret_inv. cbn beta iota in Hr.
  assert (Hw1 : bounds (conveyors w1)).
  { change w1 with (p, w1).2. rewrite <- Hn. by apply new_node_bounds. }
  assert (Hw2 : bounds (conveyors w2)).
  { unfold set_parent_if in Hs. destruct (storage c); [|by injection Hs as <-].
    eapply run_keeps; [apply keeps_setParent|exact Hw1|exact Hs]. }
  eapply run_keeps; [|exact Hw2|exact Hr].
  eapply keeps_bind; [apply keeps_get_node|]. intros nd _.
  destruct (state nd); try apply keeps_halt. by apply keeps_set_state.
Qed.

Lemma client_step_bounds w w' :
  client_step w w' -> bounds (conveyors w) -> bounds (conveyors w').
Proof.
  destruct 1 as [w f c w' Hs|x w c w' Hs|size c w c' w' Hsz Hs|c w s w' Hs|c w c' m w' Hs
    |m c w w' Hs|f ef d c w d' w' Hs|f x w w' Hs|c w r w' Hs|w b w' Hs|c w w' Hs
    |p w w' Hs|f w w' Hs]; intros Hw.
  - injection Hs as <- <- <-. intros p nd. cbn.
    intros [[<- <-]|[_ Hp]]%lookup_insert_Some; [done|by eapply Hw].
  - injection Hs as <- <-.
    by apply (new_node_bounds true (mkNode None None (ImmediateConveyorNode x 0)) w).
  - eapply (on_top_keeps (mkNode None (storage c)
      (QueueBufferConveyorNode (conveyor_node c) [] size)) c w (next_id (conveyors w)) w');
      [done|done|].
    unfold conv_buffer, new_node in *. destruct (set_storage_parent _ _ _) as [[[] w2]|]; [|done].
    rewrite bind_ret in *. by injection Hs as _ <-.
  - by eapply (on_top_keeps (mkNode None (storage c) (SinkConveyorNode (conveyor_node c) None))).
  - unfold conv_merge in Hs. destruct (new_node true _ w) as [q w1] eqn:Hn.
    apply bind_Ret_inv in Hs as ([[] w2]&Ha&Hs). injection Hs as _ _ <-.
    eapply attach_keeps; [|exact Ha]. change w1 with (q, w1).2. rewrite <- Hn.
    apply new_node_bounds; [cbn [fits state]; unfold zlen; cbn; lia|done].
  - by eapply attach_keeps.
  - unfold conv_detach, detachConveyor in Hs. apply bind_Ret_inv in Hs as (_&_&Hs).
    destruct (daemon d w) as [sink w1] eqn:Hdm.
    apply bind_Ret_inv in Hs as ([[] w2]&Ha&Hs). injection Hs as _ <-.
    eapply sinks_add_keeps; [|exact Ha]. unfold daemon in Hdm.
    destruct d; [by injection Hdm as _ <-|]. injection Hdm as _ <-.
    by apply (new_node_bounds true (mkNode None None (ConveyorSinks [] [])) w).
  - by eapply run_keeps; [apply keeps_feed| |].
  - by eapply run_keeps; [apply take_calm| |].
  - by eapply poll_bounds.
  - by eapply run_keeps; [apply keeps_destroy_child| |].
  - by eapply run_keeps; [apply keeps_destroy_child| |].
  - by eapply run_keeps; [apply destroy_feeder_calm| |].
Qed.
Lemma client_steps_bounds w w' :
  rtc client_step w w' -> bounds (conveyors w) -> bounds (conveyors w').
Proof. induction 1; eauto using client_step_bounds. Qed.


Lemma new_world_bounds s : bounds (conveyors (new_world (V := V) (St := St) s)).
Proof. intros p nd Hp. cbn in Hp. by rewrite lookup_empty in Hp. Qed.
End steps.

(** ** Property *)

(** C10: in every world that a client can reach by building, feeding, polling,
    taking from and dropping conveyors in any order, where the functions given to
    [then] may feed conveyors themselves, a buffer holds no more
    elements than its limit, the cursor of a merge node is at most the number of
    its appendages, and the counter of an immediate node is at most 2. *)
Theorem conveyor_bounds {V St} (func : positive -> V -> M V St (thrown (ErrorOr V)))
    (error_func : positive -> Error -> M V St (ErrorOr V)) (s : St) (w : world V St) :
  (forall f v, calm (func f v)) -> (forall f e, calm (error_func f e)) ->
  rtc (client_step func error_func) (new_world s) w ->
  forall p nd, nodes (conveyors w) !! p = Some nd ->
  match state nd with
  | QueueBufferConveyorNode _ storage max_store => zlen storage <= max_store
  | MergeConveyorNode appendages next_appendage => 0 <= next_appendage <= zlen appendages
  | ImmediateConveyorNode _ retrieved => 0 <= retrieved <= 2
  | _ => True
  end.
Proof.
  intros Hfc Hec Hw p nd Hp.
  pose proof (client_steps_bounds _ _ Hfc Hec _ _ Hw (new_world_bounds s) p nd Hp) as [Hf _].
  by destruct (state nd).
Qed.

(** A function that counts down: it feeds the conveyor it is called from. *)
Definition sample_call (f : positive) (v : Z) : M Z unit (thrown (ErrorOr Z)) :=
  _ ← when (0 <? v) (feed 1 (IsValue (v - 1))); mret (Returned (IsValue v)).
Definition sample_error (f : positive) (e : Error) : M Z unit (ErrorOr Z) :=
  mret (IsError e).
Definition and_then {A} (m : outcome (A * world Z unit)) : world Z unit :=
  match m with Ret (_, w) => w | Halt _ => new_world tt end.
Definition sample_start : positive * Conveyor * world Z unit :=
  newConveyorAndFeeder (new_world tt).
Definition sample_buffered : world Z unit :=
  and_then (conv_buffer 10 (conv_then 1 1 sample_start.1.2) sample_start.2).
Definition sample_fed : world Z unit :=
  and_then (run (feed sample_start.1.1 (IsValue 2)) sample_buffered).
Definition sample_polled : world Z unit := and_then (poll sample_call sample_error sample_fed).

Lemma sample_call_calm f v : calm (sample_call f v).
Proof.
  intros r. eapply keeps_bind; [|intros ? ?; apply keeps_value].
  apply keeps_when. intros _. apply keeps_feed.
Qed.

Lemma conveyor_bounds_witness :
  nodes (conveyors sample_polled) !! 3%positive =
    Some (mkNode None (Some 2%positive) (QueueBufferConveyorNode (Convert 1 1 (Ref 2))
      [IsValue 2; IsValue 1; IsValue 0] 10)) /\
  zlen [IsValue (T := Z) 2; IsValue 1; IsValue 0] <= 10.
Proof.
  assert (Hn : nodes (conveyors sample_polled) !! 3%positive =
    Some (mkNode None (Some 2%positive) (QueueBufferConveyorNode (Convert 1 1 (Ref 2))
      [IsValue 2; IsValue 1; IsValue 0] 10))) by (vm_compute; reflexivity).
  split; [exact Hn|].
  refine (conveyor_bounds sample_call sample_error tt sample_polled sample_call_calm
    (fun _ _ _ => keeps_value _ _) _ 3%positive _ Hn).
  apply (rtc_l _ _ sample_start.2).
  { eapply (Step_newConveyorAndFeeder _ _ _ 1 sample_start.1.2). vm_compute. reflexivity. }
  apply (rtc_l _ _ sample_buffered).
  { apply (Step_buffer _ _ 10 (conv_then 1 1 sample_start.1.2) _
      (mkConveyor (Ref 3) (Some 3%positive))); [done|]. vm_compute. reflexivity. }
  apply (rtc_l _ _ sample_fed).
  { apply (Step_feed _ _ sample_start.1.1 (IsValue 2)). vm_compute. reflexivity. }
  apply (rtc_l _ _ sample_polled); [|apply rtc_refl].
  apply (Step_poll _ _ _ true). vm_compute. reflexivity.
Defined.
