(* ===== verification/ConveyorTheory.v ===== *)
(** Conveyors whose elements the client takes out itself, and what the wake-ups
    of [Conveyor.v] miss: an adapter that spins on a full buffer, a buffer that
    is not told of a [take], a merge node that loses an assertion, and the
    destruction of a child that leaves the event loop broken; last, immediate
    conveyors and [execLater]. *)

From S2P Require Import Prelude Error.
From stdpp Require Import gmap list.
From S2P Require Import EventLoop EventQueue Conveyor ConveyorRules ConveyorPipeline.
#[local] Open Scope Z_scope.

(** ** Feeding and taking *)
Inductive client_op (V : Type) := Feed (x : ErrorOr V) | Take.
Arguments Feed {V} x.
Arguments Take {V}.

Section take.
Context {V St : Type}.
Context (func : positive -> V -> St -> thrown (ErrorOr V) * St).
Context (error_func : positive -> Error -> St -> ErrorOr V * St).
Implicit Types (w : world V St) (s : St).

(** The client: the results of its [take]s. *)
Fixpoint drive (f : positive) (c : Conveyor) (ops : list (client_op V)) w
  : outcome (list (ErrorOr V) * world V St) :=
  match ops with
  | [] => Ret ([], w)
  | Feed x :: ops => '(_, w) ← run (feed f x) w; drive f c ops w
  | Take :: ops =>
      '(r, w) ← run (take (on_user func) (on_user error_func) c) w;
      '(rs, w) ← drive f c ops w;
      Ret (r :: rs, w)
  end.

(** The queue it is meant to be. *)
Fixpoint spec_drive (cs : list (positive * positive)) (ops : list (client_op V))
    (q : list (ErrorOr V)) s : list (ErrorOr V) * list (ErrorOr V) * St :=
  match ops with
  | [] => ([], q, s)
  | Feed x :: ops => spec_drive cs ops (q ++ [x]) s
  | Take :: ops =>
      let '(r, q, s) :=
        match q with
        | [] => (IsError (recoverableError "Conveyor buffer has no elements"), [], s)
        | x :: q => let '(r, s) := conv_all func error_func cs x s in (r, q, s)
        end in
      let '(rs, q, s) := spec_drive cs ops q s in
      (r :: rs, q, s)
  end.

(** An adapter without a parent, with the elements [q]. *)
Definition adapter (f p : positive) (q : list (ErrorOr V)) w s : Prop :=
  nodes (conveyors w) !! p = Some (mkNode None None (AdaptConveyorNode (Some f) q)) /\
  feeders (conveyors w) !! f = Some (Some p) /\ user (conveyors w) = s /\
  p ∈ dom (events (loop w)) /\ entered (loop w) /\ exists eq, repr (loop w) eq.

Lemma run_adapter {A} (m : M V St A) f p q w s a n' q' s' :
  adapter f p q w s ->
  (forall eq, exists eq', does (dom (events (loop w))) m (conveyors w) eq a n' eq') ->
  nodes n' !! p = Some (mkNode None None (AdaptConveyorNode (Some f) q')) ->
  feeders n' !! f = Some (Some p) -> user n' = s' ->
  exists w', run m w = Ret (a, w') /\ adapter f p q' w' s'.
Proof.
  intros (_&_&_&Hp&He&eq&Hr) Hd Hn Hf Hu. destruct (Hd eq) as [eq' Hd'].
  destruct (run_does m w eq a n' eq' Hr He Hd') as (l'&Hrun&Hr'&Hw').
  exists (mkWorld n' l'). split; [done|]. split_and!; try done.
  - cbn [loop]. by destruct Hw' as [-> _].
  - by eapply same_world_entered.
  - by exists eq'.
Qed.

Lemma feed_adapter f p q w s x :
  adapter f p q w s -> exists w', run (feed f x) w = Ret (tt, w') /\ adapter f p (q ++ [x]) w' s.
Proof.
  intros Ha. pose proof Ha as (Hn&Hf&Hu&Hp&_).
  eapply (run_adapter _ f p _ w s tt
    (set_nodes (insert p (mkNode None None (AdaptConveyorNode (Some f) (q ++ [x])))) (conveyors w)));
    [exact Ha| |cbn; by rewrite lookup_insert_eq|exact Hf|exact Hu].
  intros eq. exists (Queue.arm Next p eq).
  exact (does_feed _ _ _ _ _ _ _ x _ eq Hp Hf Hn).
Qed.

Lemma take_adapter cs f p q w s :
  adapter f p q w s ->
  let '(r, q', s') :=
    match q with
    | [] => (IsError (recoverableError "Conveyor buffer has no elements"), [], s)
    | x :: q => let '(r, s) := conv_all func error_func cs x s in (r, q, s)
    end in
  exists w', run (take (on_user func) (on_user error_func) (mkConveyor (wrap cs (Ref p)) (Some p)))
      w = Ret (r, w') /\
    adapter f p q' w' s'.
Proof.
  intros Ha. pose proof Ha as (Hn&Hf&Hu&Hp&_). destruct q as [|x q].
  - eapply run_adapter; [exact Ha| |exact Hn|exact Hf|exact Hu]. intros eq. exists eq.
    eapply does_bind; [eapply does_bind; [by apply does_get_node|apply does_ret]|].
    apply does_ret.
  - destruct (conv_all func error_func cs x s) as [r s'] eqn:Hc.
    set (n1 := set_nodes (insert p (mkNode None None (AdaptConveyorNode (Some f) q)))
                 (conveyors w)).
    assert (Hu1 : user n1 = s) by exact Hu.
    eapply (run_adapter _ f p _ w s r (set_user s' n1)); [exact Ha| |..].
    + intros eq. exists eq. eapply does_bind.
      { eapply does_bind; [by apply does_get_node|apply does_ret]. }
      cbn [state queued_of]. change (0 <? zlen (x :: q)) with true. cbn [storage conveyor_node].
      replace r with (conv_all func error_func cs x (user n1)).1 by (by rewrite Hu1, Hc).
      replace s' with (conv_all func error_func cs x (user n1)).2 by (by rewrite Hu1, Hc).
      apply does_getResult_wrap.
      eapply does_bind; [by apply does_get_node|]. cbn [state].
      eapply does_bind; [|apply does_ret].
      exact (does_set_state _ _ _ (AdaptConveyorNode (Some f) q) _ eq Hn).
    + cbn. by rewrite lookup_insert_eq.
    + exact Hf.
    + done.
Qed.

Lemma drive_adapter cs f p ops q w s :
  adapter f p q w s ->
  let '(rs, q', s') := spec_drive cs ops q s in
  exists w', drive f (mkConveyor (wrap cs (Ref p)) (Some p)) ops w = Ret (rs, w') /\
    adapter f p q' w' s'.
Proof.
  revert q w s. induction ops as [|[x|] ops IH]; intros q w s Ha; cbn [spec_drive drive].
  - by exists w.
  - destruct (feed_adapter f p q w s x Ha) as (w1&->&Ha1). rewrite bind_ret. by apply IH.
  - pose proof (take_adapter cs f p q w s Ha) as Ht.
    destruct (match q with [] => _ | _ => _ end) as [[r q1] s1].
    destruct Ht as (w1&->&Ha1). rewrite bind_ret. specialize (IH q1 w1 s1 Ha1).
    destruct (spec_drive cs ops q1 s1) as [[rs q2] s2]. destruct IH as (w2&->&Ha2).
    rewrite bind_ret. by exists w2.
Qed.
End take.

(** ** An adapter in front of a full buffer *)
Section spin.
Context {V St : Type}.
Context (func : positive -> V -> M V St (thrown (ErrorOr V))).
Context (error_func : positive -> Error -> M V St (ErrorOr V)).

(** One turn of the adapter changes nothing but its place in the queue. *)
Lemma adapter_turn ids (n : net V St) p b ca fd x l pb cb c st mx (r : list positive) :
  p ∈ ids -> p ∉ r ->
  nodes n !! p = Some (mkNode (Some b) ca (AdaptConveyorNode fd (x :: l))) ->
  nodes n !! b = Some (mkNode pb cb (QueueBufferConveyorNode c st mx)) -> mx <= zlen st ->
  does ids (fire func error_func p) n (mkQueue [] [] r) tt n (mkQueue [] [p] r).
Proof.
  intros Hp Hr Hn Hb Hfull.
  eapply does_bind; [by apply does_get_node|]. cbn [state parent].
  eapply does_bind.
  { eapply does_bind; [by apply does_get_node|]. cbn [state].
    unfold_methods. destruct (Z.ltb_spec (zlen st) mx); [lia|]. rewrite andb_false_r. apply does_ret. }
  eapply does_bind; [eapply does_bind; [by apply does_get_node|apply does_ret]|].
  change (0 <? queued_of (AdaptConveyorNode fd (x :: l))) with true. cbn [when].
  replace (mkQueue [] [p] r) with (Queue.arm Later p (mkQueue [] [] r)); [by apply does_arm|].
  unfold Queue.arm, items. cbn. by rewrite decide_False.
Qed.

Lemma adapter_turns ids steps (n : net V St) p b ca fd x l pb cb c st mx (r : list positive) :
  p ∈ ids -> p ∉ r ->
  nodes n !! p = Some (mkNode (Some b) ca (AdaptConveyorNode fd (x :: l))) ->
  nodes n !! b = Some (mkNode pb cb (QueueBufferConveyorNode c st mx)) -> mx <= zlen st ->
  turns func error_func ids steps n (mkQueue [] [p] r) n (mkQueue [] [p] r).
Proof.
  intros Hp Hr Hn Hb Hfull. induction steps as [|steps IH]; [done|].
  eapply turns_step; [done| |exact IH]. by eapply adapter_turn.
Qed.
End spin.

(** ** An immediate conveyor *)
Section immediate.
Context {V St : Type}.
Context (func : positive -> V -> M V St (thrown (ErrorOr V))).
Context (error_func : positive -> Error -> M V St (ErrorOr V)).
Context (p : positive) (x : ErrorOr V).
Implicit Types (w : world V St) (n : net V St).

Definition immediate_node (r : Z) : node V := mkNode None None (ImmediateConveyorNode x r).

Lemma immediate_queued_done r n :
  nodes n !! p = Some (immediate_node r) ->
  queued p n = Done (Ret (if 1 <? r then 0 else 1, n)).
Proof. intros Hn. cbv [queued mbind M_bind get_node gets]. by rewrite Hn. Qed.

Lemma immediate_queued r w :
  nodes (conveyors w) !! p = Some (immediate_node r) ->
  run (queued p) w = Ret (if 1 <? r then 0 else 1, w).
Proof. intros Hn. unfold run. rewrite (immediate_queued_done r _ Hn). by destruct w. Qed.

Lemma immediate_take r n l :
  nodes n !! p = Some (immediate_node r) -> (1 <? r) = false ->
  exists w', run (take func error_func (mkConveyor (Ref p) (Some p))) (mkWorld n l) =
      Ret (if 0 <? r then IsError (makeError "Already taken value" Exhausted) else x, w') /\
    nodes (conveyors w') !! p = Some (immediate_node (r + 1)).
Proof.
  intros Hn Hr. exists (mkWorld (set_nodes (insert p (immediate_node (r + 1))) n) l). split.
  - assert (Ht : take func error_func (mkConveyor (Ref p) (Some p)) n =
      Done (Ret (if 0 <? r then IsError (makeError "Already taken value" Exhausted) else x,
        set_nodes (insert p (immediate_node (r + 1))) n))).
    { unfold take. cbn [storage]. unfold mbind at 1, M_bind at 1.
      rewrite (immediate_queued_done r n Hn), Hr. cbn.
      cbv [storage_getResult ImmediateConveyorNode_getResult mbind M_bind get_node gets].
      rewrite Hn. cbn. unfold ImmediateConveyorNode_queued. rewrite Hr.
      cbv [set_state mbind M_bind get_node gets]. cbn. rewrite Hn. done. }
    unfold run. cbn [conveyors loop]. by rewrite Ht.
  - cbn. by rewrite lookup_insert_eq.
Qed.
End immediate.

(** ** Clients *)
Definition numbers (f : positive) (v : Z) (log : list Z) : thrown (ErrorOr Z) * list Z :=
  sample_func f v log.
Definition pass_error (f : positive) (e : Error) (log : list Z) : ErrorOr Z * list Z :=
  propagate f e log.
#[local] Abbreviation clients := (world Z (list Z)).

(** Two buffers behind a feeder, no sink; three elements arrive, the client takes
    one; the conveyor and the world it is left with. *)
Definition take_client (x y z : Z) : outcome (ErrorOr Z * Conveyor * clients) :=
  let '(f, c, w) := newConveyorAndFeeder (new_world []) in
  '(c, w) ← conv_buffer 2 c w;
  '(c, w) ← conv_buffer 1 c w;
  w ← feeds f [IsValue x; IsValue y; IsValue z] w;
  '(_, w) ← poll (on_user numbers) (on_user pass_error) w;
  '(r, w) ← run (take (on_user numbers) (on_user pass_error) c) w;
  Ret (r, c, w).

(** A merged conveyor that is not consumed yet gets two elements. *)
Definition merge_client (x y : Z) : outcome clients :=
  let '(f, c, w) := newConveyorAndFeeder (new_world []) in
  '(_, w) ← conv_merge c w;
  w ← feeds f [IsValue x; IsValue y] w;
  '(_, w) ← poll (on_user numbers) (on_user pass_error) w;
  Ret w.

(** A buffer that holds three elements is merged, and the merge gets a sink that
    logs. *)
Definition late_merge_client (x y z : Z) : outcome clients :=
  let '(f, c, w) := newConveyorAndFeeder (new_world []) in
  '(c, w) ← conv_buffer 3 c w;
  w ← feeds f [IsValue x; IsValue y; IsValue z] w;
  '(_, w) ← poll (on_user numbers) (on_user pass_error) w;
  '(c, _, w) ← conv_merge c w;
  '(_, w) ← conv_sink (conv_then 3 3 c) w;
  '(_, w) ← poll (on_user numbers) (on_user pass_error) w;
  Ret w.

(** Two pipelines with a buffer and a sink that logs; the first one gets a
    critical error with an element behind it, then the second one two elements. *)
Definition error_client (x y z : Z) : outcome clients :=
  '(f, s, w) ← pipeline [mkStage [] 10] [(3, 3)%positive] (new_world []);
  '(g, t, w) ← pipeline [mkStage [] 10] [(3, 3)%positive] w;
  w ← feeds f [IsError (criticalError "closed"); IsValue x] w;
  '(_, w) ← poll (on_user numbers) (on_user pass_error) w;
  w ← feeds g [IsValue y; IsValue z] w;
  '(_, w) ← poll (on_user numbers) (on_user pass_error) w;
  Ret w.

(** ** Properties *)

(** C23: a client that feeds a conveyor and takes from it through any number of
    conversions, in any order, gets the converted elements once and in the order
    they were fed, and the recoverable error when none is there; the functions
    run when an element is taken. *)
Theorem conveyor_take_fifo {V St} (func : positive -> V -> St -> thrown (ErrorOr V) * St)
    (error_func : positive -> Error -> St -> ErrorOr V * St)
    (cs : list (positive * positive)) (ops : list (client_op V)) (w : world V St) :
  repr (loop w) empty_queue -> entered (loop w) ->
  let '(f, c, w1) := newConveyorAndFeeder w in
  let '(rs, _, s) := spec_drive func error_func cs ops [] (user (conveyors w)) in
  exists w2, drive func error_func f (thens cs c) ops w1 = Ret (rs, w2) /\
    user (conveyors w2) = s.
Proof.
  intros Hr He. destruct (newConveyorAndFeeder w) as [[f c] w1] eqn:Hn.
  injection Hn as <- <- <-. rewrite thens_wrap. cbn [conveyor_node storage].
  match goal with |- context [drive _ _ _ _ _ ?w1] =>
    pose proof (drive_adapter func error_func cs (next_id (conveyors w))
      (Pos.succ (next_id (conveyors w))) ops [] w1 (user (conveyors w))) as Hd end.
  destruct (spec_drive func error_func cs ops [] (user (conveyors w))) as [[rs q'] s'].
  destruct Hd as (w2&Hd&(_&_&Hu&_)); [|by exists w2].
  split_and!; cbn; try done.
  - apply lookup_insert_eq.
  - apply lookup_insert_eq.
  - rewrite dom_insert_L. set_solver.
  - exists empty_queue. by apply create_event_repr.
Qed.

Lemma conveyor_take_fifo_witness :
  let '(f, c, w1) := newConveyorAndFeeder (new_world (V := Z) []) in
  exists w2, drive numbers pass_error f (thens [(1, 1); (3, 3)]%positive c)
      [Feed (IsValue 5); Feed (IsValue 7); Take; Feed (IsError noError); Take; Take; Take] w1 =
      Ret ([IsValue 6; IsValue 8; IsError noError;
            IsError (recoverableError "Conveyor buffer has no elements")], w2) /\
    user (conveyors w2) = [6; 8].
Proof.
  apply (conveyor_take_fifo numbers pass_error [(1, 1); (3, 3)]%positive
    [Feed (IsValue 5); Feed (IsValue 7); Take; Feed (IsError noError); Take; Take; Take]
    (new_world [])).
  - split; [|done]. split_and!; try done. constructor.
  - done.
Defined.

(** C40: an adapter whose parent is a full buffer stays armed: after any number
    of turns nothing has changed, so that [wait] and [poll] spend all their turns
    on it, and an event armed with [armLast] never fires. *)
Theorem adapter_spins_on_full_buffer {V St}
    (func : positive -> V -> M V St (thrown (ErrorOr V)))
    (error_func : positive -> Error -> M V St (ErrorOr V)) (steps : nat) (w : world V St)
    (p b : positive) (ca cb pb fd : option positive) (x : ErrorOr V) (l st : list (ErrorOr V))
    (c : cnode) (mx : Z) (r : list positive) :
  repr (loop w) (mkQueue [] [p] r) -> entered (loop w) ->
  nodes (conveyors w) !! p = Some (mkNode (Some b) ca (AdaptConveyorNode fd (x :: l))) ->
  nodes (conveyors w) !! b = Some (mkNode pb cb (QueueBufferConveyorNode c st mx)) ->
  mx <= zlen st ->
  exists l', turn_loop (fire_event func error_func) steps (Ret (conveyors w)) (loop w) =
      Ret (true, Ret (conveyors w), l') /\
    repr l' (mkQueue [] [p] r).
Proof.
  intros Hr He Hp Hb Hfull. pose proof (items_nodup _ _ Hr) as Hnd.
  assert (Hpr : p ∉ r) by (by apply NoDup_cons in Hnd as [? _]).
  assert (Hdom : p ∈ dom (events (loop w))).
  { destruct Hr as ((_&[Hev _]&_)&_). apply elem_of_dom. by eexists. }
  destruct (adapter_turns func error_func (dom (events (loop w))) steps (conveyors w) p b ca fd
    x l pb cb c st mx r Hdom Hpr Hp Hb Hfull) as [Hrun Hlegal].
  destruct (turn_loop_refines _ _ _ _ _ _ _ Hr He Hlegal Hrun) as (l'&?&?&_). eauto.
Qed.

(** A feeder with two elements in front of a buffer of one, polled once for two
    turns; the sink of another pipeline is armed with [armLast]. *)
Definition spin_start : clients :=
  match
    ('(f, c, w) ← Ret (newConveyorAndFeeder (new_world []));
     '(_, w) ← conv_buffer 1 c w;
     '(d, w) ← Ret (new_daemon w);
     w ← feeds f [IsValue 1; IsValue 2] w;
     '(_, r, l) ← turn_loop (fire_event (on_user numbers) (on_user pass_error)) 3 (Ret (conveyors w)) (loop w);
     n ← r;
     '(_, w) ← run (arm_event Last d) (mkWorld n l);
     Ret w)
  with
  | Ret w => w
  | Halt _ => new_world []
  end.

Lemma spin_start_repr : repr (loop spin_start) (mkQueue [] [2%positive] [4%positive]).
Proof.
  assert (Hev : events (loop spin_start) =
    <[2%positive := mkEvent (Some Head) (Some 4%positive)]>
      (<[4%positive := mkEvent (Some (NextOf 2)) None]> (<[3%positive := fresh_event]> ∅)))
    by (vm_compute; reflexivity).
  assert (Hp : head (loop spin_start) = Some 2%positive /\
    next_insert_point (loop spin_start) = Head /\
    later_insert_point (loop spin_start) = NextOf 2 /\ tail (loop spin_start) = NextOf 4)
    by (vm_compute; split_and!; reflexivity).
  revert Hev Hp. generalize (loop spin_start). intros l Hev (Hh&Hn&Hl&Ht).
  split; [split; [exact Hh|split; [|split]]|by split_and!].
  - rewrite Hev. cbn. by split_and!.
  - unfold items. cbn. repeat constructor; set_solver.
  - intros e ev. rewrite Hev. unfold items. cbn.
    intros [[<- <-]|[_ [[<- <-]|[_ [[_ <-]|[_ He]]%lookup_insert_Some]]%lookup_insert_Some]]
      %lookup_insert_Some; [set_solver|set_solver|done|by rewrite lookup_empty in He].
Qed.

Lemma adapter_spins_on_full_buffer_witness :
  exists l', turn_loop (fire_event (on_user numbers) (on_user pass_error)) 1000 (Ret (conveyors spin_start))
      (loop spin_start) = Ret (true, Ret (conveyors spin_start), l') /\
    repr l' (mkQueue [] [2%positive] [4%positive]).
Proof.
  apply (adapter_spins_on_full_buffer (on_user numbers) (on_user pass_error) 1000 spin_start 2 3
    None (Some 2%positive) None (Some 1%positive) (IsValue 2) [] [IsValue 1] (Ref 2) 1).
  - apply spin_start_repr.
  - done.
  - vm_compute. reflexivity.
  - vm_compute. reflexivity.
  - done.
Defined.

(** [take] makes room in a full buffer, but does not tell the buffer behind
    it: the elements that wait there are never passed on, further [poll]s and
    [take]s change nothing and answer that there are no elements. *)
Lemma conveyor_take_stalls (x y z : Z) :
  exists c w, take_client x y z = Ret (IsValue x, c, w) /\
    nodes (conveyors w) !! 3%positive =
      Some (mkNode (Some 4%positive) (Some 2%positive)
              (QueueBufferConveyorNode (Ref 2) [IsValue y; IsValue z] 2)) /\
    poll (on_user numbers) (on_user pass_error) w = Ret (true, w) /\
    run (take (on_user numbers) (on_user pass_error) c) w =
      Ret (IsError (recoverableError "Conveyor buffer has no elements"), w).
Proof. eexists _, _. split; [vm_compute; reflexivity|]. by vm_compute. Qed.

(** Two elements at a merged conveyor that is not consumed yet abort the
    program: the adapter offers the second one while the appendage of the merge
    node still holds the first. *)
Lemma conveyor_merge_aborts (x y : Z) : merge_client x y = Halt AssertionFailed.
Proof. by vm_compute. Qed.

(** A merge node does not tell the conveyors it merges when it has taken an
    element from its appendage: of three elements that wait in a buffer only the
    first is delivered, and further [poll]s change nothing. *)
Lemma conveyor_merge_stalls (x y z : Z) :
  exists w, late_merge_client x y z = Ret w /\ user (conveyors w) = [x] /\
    nodes (conveyors w) !! 3%positive =
      Some (mkNode (Some 5%positive) (Some 2%positive)
              (QueueBufferConveyorNode (Ref 2) [IsValue y; IsValue z] 3)) /\
    poll (on_user numbers) (on_user pass_error) w = Ret (true, w).
Proof. eexists. split; [vm_compute; reflexivity|]. by vm_compute. Qed.

(** A critical error with another element behind it breaks the event loop:
    the buffer destroys its child, whose event [disarm] leaves as the later
    insert point, and what is armed from then on is lost.  An unrelated pipeline
    delivers nothing any more, although its events say that they are armed. *)
Lemma conveyor_error_breaks_loop (x y z : Z) :
  exists w, error_client x y z = Ret w /\ user (conveyors w) = [] /\
    nodes (conveyors w) !! 2%positive = None /\
    nodes (conveyors w) !! 7%positive =
      Some (mkNode (Some 8%positive) (Some 6%positive)
              (QueueBufferConveyorNode (Ref 6) [IsValue y] 10)) /\
    isArmed 7 (loop w) = Ret true /\ isArmed 6 (loop w) = Ret true /\
    poll (on_user numbers) (on_user pass_error) w = Ret (true, w).
Proof. eexists. split; [vm_compute; reflexivity|]. by vm_compute. Qed.

(** An immediate conveyor gives its value once; asked again it first still
    claims an element and answers [Exhausted], and only then is empty. *)
Lemma conveyor_immediate {V St} (func : positive -> V -> M V St (thrown (ErrorOr V)))
    (error_func : positive -> Error -> M V St (ErrorOr V)) (x : ErrorOr V) (w : world V St) :
  let '(c, w0) := immediateConveyor x w in
  exists w1 w2,
    run (take func error_func c) w0 = Ret (x, w1) /\
    run (queued (next_id (conveyors w))) w1 = Ret (1, w1) /\
    run (take func error_func c) w1 =
      Ret (IsError (makeError "Already taken value" Exhausted), w2) /\
    run (queued (next_id (conveyors w))) w2 = Ret (0, w2) /\
    run (take func error_func c) w2 =
      Ret (IsError (recoverableError "Conveyor buffer has no elements"), w2).
Proof.
  set (p := next_id (conveyors w)).
  pose (w0 := (new_node true (immediate_node x 0) w).2).
  destruct (immediate_take func error_func p x 0 (conveyors w0) (loop w0))
    as ([n1 l1]&Hr1&Hn1); [apply lookup_insert_eq|done|].
  destruct (immediate_take func error_func p x 1 n1 l1 Hn1 eq_refl) as (w2&Hr2&Hn2).
  exists (mkWorld n1 l1), w2. split_and!; [exact Hr1|exact (immediate_queued p x 1 _ Hn1)
    |exact Hr2|exact (immediate_queued p x 2 _ Hn2)|].
  fold p. unfold run. destruct w2 as [n2 l2]. cbn [conveyors loop] in *.
  replace (take func error_func (mkConveyor (Ref p) (Some p)) n2)
    with (Done (Ret (IsError (T := V) (recoverableError "Conveyor buffer has no elements"), n2)));
    [done|].
  unfold take. cbn [storage]. unfold mbind, M_bind at 1.
  by rewrite (immediate_queued_done p x 2 n2 Hn2).
Qed.

(** A function given to [execLater] and detached runs in the next turn of the loop
    and not before; its error function is then told, although nothing failed, that
    the value was already taken, and the node that held the value is gone. *)
Lemma exec_later_detached {V St} (g : positive -> V -> St -> V) (h : positive -> V -> St -> St)
    (h_error : positive -> Error -> St -> St) (void : V) (s : St) :
  let func := on_user (fun f v s => (Returned (IsValue (g f v s)), h f v s)) in
  let error_func := on_user (fun f e s => (IsError e, h_error f e s)) in
  let taken := makeError "Already taken value" Exhausted in
  let '(c, w0) := execLater void 1 1 (new_world s) in
  exists d w1 w2,
    conv_detach 2 2 None c w0 = Ret (Some d, w1) /\ user (conveyors w1) = s /\
    poll func error_func w1 = Ret (true, w2) /\
    user (conveyors w2) =
      h_error 2%positive taken (h_error 1%positive taken
        (h 2%positive (g 1%positive void s) (h 1%positive void s))) /\
    storage c = Some 1%positive /\ nodes (conveyors w2) !! 1%positive = None.
Proof.
  cbv zeta. do 3 eexists. split; [vm_compute; reflexivity|]. split; [reflexivity|].
  split; [vm_compute; reflexivity|]. split; [vm_compute; reflexivity|]. by vm_compute.
Qed.
