(* ===== verification/Stations.v ===== *)
(** Stations: conveyors with a feeder, conversions and a sink, whose functions
    feed one another while the event loop runs them.  This is how the library
    itself uses conveyors: a readiness notification feeds a conveyor, its function
    moves bytes and feeds the conveyor of whoever waits for them.

    A set of stations refines a set of queues, served one element at a time, and
    each [poll] serves until nothing is queued.  A station that answers with a
    critical error is closed: its sink destroys what is in front of it.  This goes
    well when nothing more is queued there, which is what [station_laws] asks. *)

From S2P Require Import Prelude Error.
From stdpp Require Import gmap list relations.
From S2P Require Import EventLoop EventQueue Conveyor ConveyorRules ConveyorPipeline.
#[local] Open Scope Z_scope.

(** ** The specification *)

(** An element for the feeder of a station. *)
Abbreviation delivery V := (prod nat (ErrorOr V)).

(** What is queued at the stations, those that are closed, and the state of the
    functions. *)
Record stations (V St : Type) := mkStations {
  queues : list (list (ErrorOr V));
  closed : list nat;
  store : St
}.
Arguments mkStations {V St} queues closed store.
Arguments queues {V St} s.
Arguments closed {V St} s.
Arguments store {V St} s.

Section spec.
Context {V St : Type}.
#[local] Abbreviation elem := (ErrorOr V).
#[local] Abbreviation stations := (stations V St).
Implicit Types (qs : list (list elem)) (cl : list nat) (a b : stations) (s : St).
Implicit Types (ds : list (delivery V)).

(** The functions given to [then]: what they answer, what they feed, in order,
    and what becomes of their state. *)
Context (func : positive -> V -> St -> outcome (thrown elem * list (delivery V) * St)).
Context (error_func : positive -> Error -> St -> outcome (elem * list (delivery V) * St)).
(** The conversions of each station. *)
Context (css : list (list (positive * positive))).

Definition conv_at (c : positive * positive) (x : elem) s
  : outcome (elem * list (delivery V) * St) :=
  match x with
  | IsValue v => '(r, ds, s) ← func c.1 v s; Ret (caught r, ds, s)
  | IsError e => error_func c.2 e s
  end.
Fixpoint convs_at (cs : list (positive * positive)) (x : elem) s
  : outcome (elem * list (delivery V) * St) :=
  match cs with
  | [] => Ret (x, [], s)
  | c :: cs =>
      '(x, ds, s) ← conv_at c x s;
      '(y, ds', s) ← convs_at cs x s;
      Ret (y, ds ++ ds', s)
  end.

Definition deliver (qs : list (list elem)) (d : delivery V) : list (list elem) :=
  match qs !! d.1 with Some q => <[d.1 := q ++ [d.2]]> qs | None => qs end.
Definition deliver_all ds a : stations :=
  mkStations (foldl deliver (queues a) ds) (closed a) (store a).

(** A critical answer closes its station. *)
Definition close (i : nat) (y : elem) cl : list nat := if is_critical y then i :: cl else cl.

(** One element is served. *)
Inductive serve : stations -> stations -> Prop :=
| serve_one i cs x r y ds qs cl s s' :
    css !! i = Some cs -> qs !! i = Some (x :: r) -> convs_at cs x s = Ret (y, ds, s') ->
    serve (mkStations qs cl s) (deliver_all ds (mkStations (<[i := r]> qs) (close i y cl) s')).

Definition idle a : Prop := Forall (fun q => q = []) (queues a).

(** Elements arrive, and are served until nothing is queued. *)
Definition round ds a b : Prop := rtc serve (deliver_all ds a) b /\ idle b.
Inductive served : list (list (delivery V)) -> stations -> stations -> Prop :=
| served_nil a : served [] a a
| served_cons ds dss a b c : round ds a b -> served dss b c -> served (ds :: dss) a c.

(** The stations that elements are for exist, and are open. *)
Definition accepts cl ds : Prop :=
  Forall (fun d => (d.1 < length css)%nat /\ d.1 ∉ cl) ds.

(** What is asked of the functions.  [I past] holds of the states that are reached
    after the elements [past] have arrived: every queued element can be served and
    feeds open stations, and a station is closed by its last element; [measure] is
    what is left to do; what [arrives] can be served in the turns of a [poll]. *)
Record station_laws (I : list (delivery V) -> stations -> Prop) (measure : stations -> nat)
    (arrives : list (delivery V) -> Prop) : Prop := {
  laws_serve past i cs x l qs cl s :
    I past (mkStations qs cl s) -> css !! i = Some cs -> qs !! i = Some (x :: l) ->
    exists y ds s', convs_at cs x s = Ret (y, ds, s') /\ (is_critical y = true -> l = []) /\
      accepts (close i y cl) ds /\
      I past (deliver_all ds (mkStations (<[i := l]> qs) (close i y cl) s'));
  laws_decrease past a b :
    I past a -> serve a b -> I past b ->
    (measure b + length (closed b) < measure a + length (closed a))%nat;
  laws_arrive past ds a :
    arrives ds -> I past a -> idle a ->
    accepts (closed a) ds /\ I (past ++ ds) (deliver_all ds a) /\
    (measure (deliver_all ds a) <= Z.to_nat 65536)%nat
}.

Lemma deliver_length qs d : length (deliver qs d) = length qs.
Proof. unfold deliver. destruct (qs !! d.1); [apply length_insert|done]. Qed.

Lemma deliver_all_length ds a : length (queues (deliver_all ds a)) = length (queues a).
Proof.
  destruct a as [qs cl s]. cbn. revert qs. induction ds as [|d ds IH]; intros qs; [done|].
  cbn. by rewrite IH, deliver_length.
Qed.

(** The elements for station [i]. *)
Definition for_station (i : nat) ds : list elem := snd <$> filter (fun d => d.1 = i) ds.

Lemma for_station_cons i d ds :
  for_station i (d :: ds) = (if decide (d.1 = i) then [d.2] else []) ++ for_station i ds.
Proof. unfold for_station. rewrite filter_cons. by destruct (decide (d.1 = i)). Qed.

Lemma for_station_app i ds ds' :
  for_station i (ds ++ ds') = for_station i ds ++ for_station i ds'.
Proof. unfold for_station. by rewrite filter_app, fmap_app. Qed.

Lemma deliver_all_lookup ds qs i :
  foldl deliver qs ds !! i = (fun q => q ++ for_station i ds) <$> qs !! i.
Proof.
  revert qs. induction ds as [|d ds IH]; intros qs.
  - cbn. destruct (qs !! i); [|done]. cbn. by rewrite app_nil_r.
  - cbn [foldl]. rewrite IH, for_station_cons. unfold deliver.
    destruct (qs !! d.1) as [q|] eqn:Hq.
    + destruct (decide (d.1 = i)) as [<-|Hne].
      * rewrite list_lookup_insert_eq, Hq by (by eapply lookup_lt_Some). cbn.
        by rewrite <- app_assoc.
      * by rewrite list_lookup_insert_ne.
    + destruct (decide (d.1 = i)) as [<-|Hne]; [by rewrite Hq|done].
Qed.

Lemma accepts_close i y cl ds : accepts (close i y cl) ds -> accepts cl ds.
Proof.
  unfold close. destruct (is_critical y); [|done]. intros H.
  eapply Forall_impl; [exact H|]. intros d [? Hd]. split; [done|].
  by apply not_elem_of_cons in Hd as [_ ?].
Qed.

Lemma accepts_open ds : Forall (fun d => (d.1 < length css)%nat) ds -> accepts [] ds.
Proof.
  intros H. eapply Forall_impl; [exact H|]. intros d ?. split; [done|]. apply not_elem_of_nil.
Qed.

(** What is not accepted is not there. *)
Lemma accepts_none i cl ds : i ∈ cl -> accepts cl ds -> for_station i ds = [].
Proof.
  intros Hi Hd. induction Hd as [|d ds [_ Hd] _ IH]; [done|].
  rewrite for_station_cons, IH, decide_False; [done|]. by intros <-.
Qed.

Lemma deliver_all_app ds ds' a :
  deliver_all (ds ++ ds') a = deliver_all ds' (deliver_all ds a).
Proof. unfold deliver_all. cbn. by rewrite foldl_app. Qed.
End spec.

(** ** The stations on conveyors *)
Section conveyors.
Context {V St : Type}.
#[local] Abbreviation elem := (ErrorOr V).
#[local] Abbreviation M := (M V St).
Context (base : nat).

(** The addresses of station [i], as [open_stations] below lays them out. *)
Definition feeder_addr (i : nat) : positive := addr base (3 * i).
Definition adapter_addr (i : nat) : positive := addr base (S (3 * i)).
Definition sink_addr (i : nat) : positive := addr base (S (S (3 * i))).

Fixpoint feed_all (ds : list (delivery V)) : M unit :=
  match ds with
  | [] => mret tt
  | (i, x) :: ds => _ ← feed (feeder_addr i) x; feed_all ds
  end.

(** The function as a computation over the conveyors. *)
Definition feeding {A B} (g : positive -> A -> St -> outcome (B * list (delivery V) * St))
    (f : positive) (a : A) : M B := fun n =>
  match g f a (user n) with
  | Ret (b, ds, s) => (_ ← feed_all ds; mret b) (set_user s n)
  | Halt h => Done (Halt h)
  end.
End conveyors.

(** *** A sink and what is in front of it *)
Section rules.
Context {V St : Type} (ids : gset positive).
#[local] Abbreviation elem := (ErrorOr V).
Implicit Types (n : net V St) (q : queue).

(** A critical answer arms the sink. *)
Lemma does_sink p n q (x : elem) :
  p ∈ ids ->
  does ids (match x with
    | IsError error => _ ← when (isCritical error) (arm_unless_armed Last p); mret tt
    | IsValue _ => mret tt
    end) n q tt n (if is_critical x then Queue.arm Last p q else q).
Proof.
  intros Hp. destruct x as [e|v]; [|apply does_ret]. cbn [is_critical].
  eapply does_bind; [|apply does_ret].
  destruct (isCritical e); [by apply does_arm_unless|apply does_ret].
Qed.

Lemma does_set_child_storage p nd c n q :
  nodes n !! p = Some nd ->
  does ids (set_child_storage p c) n q tt
    (set_nodes (insert p (mkNode (parent nd) c (state nd))) n) q.
Proof. intros Hn. eapply does_bind; [by apply does_get_node|]. apply does_update. Qed.

Lemma filter_absent (e : positive) (l : list positive) : e ∉ l -> filter (.≠ e) l = l.
Proof.
  induction l as [|x l IH]; [done|]. intros [Hx Hl]%not_elem_of_cons.
  by rewrite filter_cons, decide_True, IH by done.
Qed.

Lemma does_disarm e n q :
  e ∈ ids -> e ∉ items q -> does ids (disarm_event e) n q tt n q.
Proof.
  intros He Hn. assert (Hr : Queue.remove e q = q).
  { destruct q as [l1 l2 l3]. unfold items in Hn. cbn in Hn. unfold Queue.remove. cbn.
    rewrite !elem_of_app in Hn. f_equal; apply filter_absent; tauto. }
  assert (Hi : Queue.at_insert_point e q = false).
  { apply bool_decide_eq_false. intros Hl. apply Hn. unfold items. rewrite app_assoc.
    apply elem_of_app. left. by apply last_Some_elem_of. }
  unfold does, disarm_event. cbn. by rewrite Hi, Hr.
Qed.

(** An adapter is destroyed: its feeder and its parent forget it. *)
Lemma does_destroy_adapter fuel p sk f l nk n q :
  p ∈ ids -> p ∉ items q -> sk <> p ->
  nodes n !! p = Some (mkNode (Some sk) None (AdaptConveyorNode (Some f) l)) ->
  nodes n !! sk = Some nk ->
  does ids (destroy (S fuel) p) n q tt
    (set_nodes (delete p) (set_nodes (insert sk (mkNode (parent nk) None (state nk)))
       (set_feeders (insert f None) n))) q.
Proof.
  intros Hp Hq Hne Hn Hk. cbn [destroy].
  eapply does_bind; [by apply does_get_node|]. cbn [state parent].
  eapply does_bind; [apply does_update|]. eapply does_bind; [by apply does_disarm|].
  eapply does_bind; [|apply does_update].
  by apply does_set_child_storage.
Qed.

Lemma leaf_wrap cs p : leaf (wrap cs (Ref p)) = Some p.
Proof.
  assert (H : forall c, leaf c = Some p -> leaf (wrap cs c) = Some p); [|by apply H].
  induction cs as [|[f ef] cs IH]; intros c Hc; [done|]. by apply IH.
Qed.

(** The event of the sink. *)
Lemma does_sink_fire p sk f l cs n q :
  p ∈ ids -> p ∉ items q -> sk <> p ->
  nodes n !! p = Some (mkNode (Some sk) None (AdaptConveyorNode (Some f) l)) ->
  nodes n !! sk = Some (mkNode None (Some p) (SinkConveyorNode (wrap cs (Ref p)) None)) ->
  exists n', does ids (SinkConveyorNode_fire sk (wrap cs (Ref p)) None) n q tt n' q /\
    feeders n' = <[f := None]> (feeders n) /\ user n' = user n /\
    nodes n' = <[sk := mkNode None None (SinkConveyorNode Null None)]> (delete p (nodes n)).
Proof.
  intros Hp Hq Hne Hn Hk. unfold SinkConveyorNode_fire. eexists. split; [|split_and!].
  - eapply does_bind.
    + unfold destroy_child, does. rewrite leaf_wrap. by eapply does_destroy_adapter.
    + eapply does_bind; [|apply does_ret]. apply does_set_state. cbn [set_nodes nodes].
      rewrite lookup_delete_ne by done. apply lookup_insert_eq.
  - done.
  - done.
  - cbn [set_nodes set_feeders nodes parent child_storage].
    rewrite delete_insert_ne, insert_insert_eq by done. done.
Qed.
End rules.

(** ** Each event of an adapter serves one element *)
Section refinement.
Context {V St : Type}.
#[local] Abbreviation elem := (ErrorOr V).
#[local] Abbreviation stations := (stations V St).
Context (func : positive -> V -> St -> outcome (thrown elem * list (delivery V) * St)).
Context (error_func : positive -> Error -> St -> outcome (elem * list (delivery V) * St)).
Context (css : list (list (positive * positive))) (base : nat) (ids : gset positive).
#[local] Abbreviation feeder := (feeder_addr base).
#[local] Abbreviation adapter := (adapter_addr base).
#[local] Abbreviation sink := (sink_addr base).
#[local] Abbreviation afunc := (feeding base func).
#[local] Abbreviation aerror := (feeding base error_func).
Context (alive : forall i, (i < length css)%nat -> adapter i ∈ ids /\ sink i ∈ ids).
Implicit Types (n : net V St) (q : queue) (qs : list (list elem)) (s : St) (a b : stations).
Implicit Types (cl closing : list nat).

Definition adapter_node (i : nat) (r : list elem) : node V :=
  mkNode (Some (sink i)) None (AdaptConveyorNode (Some (feeder i)) r).
Definition sink_node (i : nat) (cs : list (positive * positive)) : node V :=
  mkNode None (Some (adapter i)) (SinkConveyorNode (wrap cs (Ref (adapter i))) None).
(** The sink of a station that is closed. *)
Definition gone_node : node V := mkNode None None (SinkConveyorNode Null None).

(** The nodes of station [i] are still there. *)
Definition standing cl closing (i : nat) : Prop := i ∉ cl \/ i ∈ closing.

(** The sinks of the stations [closing] are armed to close them. *)
Record holds n a closing : Prop := {
  holds_length : length (queues a) = length css;
  holds_store : user n = store a;
  holds_feeder i : (i < length css)%nat -> standing (closed a) closing i ->
    feeders n !! feeder i = Some (Some (adapter i));
  holds_adapter i r : queues a !! i = Some r -> standing (closed a) closing i ->
    nodes n !! adapter i = Some (adapter_node i r);
  holds_sink i cs : css !! i = Some cs -> standing (closed a) closing i ->
    nodes n !! sink i = Some (sink_node i cs);
  holds_closing i : i ∈ closing -> i ∈ closed a;
  holds_closed i : i ∈ closed a -> queues a !! i = Some [];
  holds_gone i : i ∈ closed a -> i ∉ closing ->
    feeders n !! feeder i = Some None /\ nodes n !! adapter i = None /\
    nodes n !! sink i = Some gone_node
}.

(** The events in front of the [armLast] ones. *)
Definition front q : list positive := now q ++ soon q.

(** Exactly the adapters that hold an element are armed, and behind them the
    sinks; [busy] is the adapter that is being served. *)
Record armed_but (busy : option nat) qs closing q : Prop := {
  armed_rest : rest q = sink <$> closing;
  armed_nodup : NoDup (items q);
  armed_queued e : e ∈ front q -> exists i x r, e = adapter i /\ qs !! i = Some (x :: r);
  queued_armed i x r : qs !! i = Some (x :: r) -> adapter i ∈ front q \/ busy = Some i
}.

Lemma adapter_inj i j : adapter i = adapter j -> i = j.
Proof. unfold adapter_addr. intros ?%addr_inj. lia. Qed.

Lemma sink_inj i j : sink i = sink j -> i = j.
Proof. unfold sink_addr. intros ?%addr_inj. lia. Qed.

Lemma feeder_inj i j : feeder i = feeder j -> i = j.
Proof. unfold feeder_addr. intros ?%addr_inj. lia. Qed.

Lemma adapter_sink i j : adapter i <> sink j.
Proof. unfold adapter_addr, sink_addr. intros ?%addr_inj. lia. Qed.

Lemma items_front q : items q = front q ++ rest q.
Proof. unfold items, front. by rewrite <- app_assoc. Qed.

Lemma adapter_not_rest busy qs closing q i :
  armed_but busy qs closing q -> adapter i ∉ rest q.
Proof.
  intros Ha. rewrite (armed_rest _ _ _ _ Ha). intros (j&Hj&_)%list_elem_of_fmap.
  by apply adapter_sink in Hj.
Qed.

Lemma arm_front h busy qs closing q i x :
  h <> Last -> armed_but busy qs closing q ->
  x ∈ front (Queue.arm h (adapter i) q) <-> x ∈ front q \/ x = adapter i.
Proof.
  intros Hh Ha. pose proof (adapter_not_rest _ _ _ _ i Ha) as Hr. clear func error_func alive Ha.
  unfold Queue.arm. case_decide as Hin.
  - rewrite items_front, elem_of_app in Hin. split; [by left|]. intros [?| ->]; [done|tauto].
  - unfold front. destruct h; [| |done]; cbn;
      rewrite !elem_of_app, list_elem_of_singleton; tauto.
Qed.

Lemma stations_set n qs cl s closing i r :
  holds n (mkStations qs cl s) closing -> i ∉ cl ->
  holds (set_nodes (insert (adapter i) (adapter_node i r)) n)
    (mkStations (<[i := r]> qs) cl s) closing.
Proof.
  intros [Hl Hs Hf Ha Hk Hc Hd Hg] Hi. cbn in *. split; cbn; try done.
  - by rewrite length_insert.
  - intros j rj [(<-&->&_)|[Hij Hj]]%list_lookup_insert_Some Hst.
    + by rewrite lookup_insert_eq.
    + rewrite lookup_insert_ne by (intros ?%adapter_inj; done). by apply Ha.
  - intros j cs Hj Hst. rewrite lookup_insert_ne by apply adapter_sink. by apply Hk.
  - intros j Hj. rewrite list_lookup_insert_ne by (by intros ->). by apply Hd.
  - intros j Hj Hnj. rewrite !lookup_insert_ne;
      [by apply Hg|apply adapter_sink|intros ?%adapter_inj; by subst].
Qed.

Lemma stations_set_user n qs cl s s' closing :
  holds n (mkStations qs cl s) closing -> holds (set_user s' n) (mkStations qs cl s') closing.
Proof. by intros [Hl Hs Hf Ha Hk]. Qed.

(** An element reaches the queue of its station, and arms its adapter. *)
Lemma feed_station o n qs cl s closing q i x :
  holds n (mkStations qs cl s) closing -> armed_but o qs closing q ->
  (i < length css)%nat -> i ∉ cl ->
  exists n' q', does ids (feed (feeder i) x) n q tt n' q' /\
    holds n' (mkStations (deliver qs (i, x)) cl s) closing /\
    armed_but o (deliver qs (i, x)) closing q'.
Proof using alive.
  intros Hh Ha Hi Ho. pose proof Ha as [Hr Hnd Haq Hqa].
  destruct (lookup_lt_is_Some_2 qs i) as [l Hl].
  { pose proof (holds_length _ _ _ Hh). cbn in *. lia. }
  unfold deliver. cbn [fst snd]. rewrite Hl. do 2 eexists. split_and!.
  - exact (does_feed ids _ _ _ _ _ _ x n q (proj1 (alive i Hi))
      (holds_feeder _ _ _ Hh i Hi (or_introl Ho))
      (holds_adapter _ _ _ Hh i l Hl (or_introl Ho))).
  - by apply stations_set.
  - split.
    + by rewrite arm_rest.
    + by apply arm_nodup.
    + intros e. rewrite (arm_front Next _ _ _ _ _ _ ltac:(done) Ha). intros [He| ->].
      * destruct (Haq e He) as (j&y&k&->&Hj). destruct (decide (j = i)) as [->|Hne].
        -- rewrite Hl in Hj. injection Hj as ->. exists i, y, (k ++ [x]). split; [done|].
           apply list_lookup_insert_eq. by eapply lookup_lt_Some.
        -- exists j, y, k. by rewrite list_lookup_insert_ne.
      * destruct l as [|y k]; [exists i, x, []|exists i, y, (k ++ [x])];
          (split; [done|]; apply list_lookup_insert_eq; by eapply lookup_lt_Some).
    + intros j y k Hj. rewrite (arm_front Next _ _ _ _ _ _ ltac:(done) Ha).
      destruct (decide (j = i)) as [->|Hne]; [by left; right|].
      rewrite list_lookup_insert_ne in Hj by done.
      destruct (Hqa j y k Hj); [left; by left|by right].
Qed.

Lemma feed_all_stations o ds n qs cl s closing q :
  holds n (mkStations qs cl s) closing -> armed_but o qs closing q -> accepts css cl ds ->
  exists n' q', does ids (feed_all base ds) n q tt n' q' /\
    holds n' (deliver_all ds (mkStations qs cl s)) closing /\
    armed_but o (foldl deliver qs ds) closing q'.
Proof using alive.
  intros Hh Ha Hd. revert n qs q Hh Ha.
  induction Hd as [|[i x] ds [Hi Ho] _ IH]; intros n qs q Hh Ha.
  - exists n, q. split_and!; [apply does_ret|done..].
  - destruct (feed_station o n qs cl s closing q i x Hh Ha Hi Ho) as (n1&q1&Hd1&Hh1&Ha1).
    destruct (IH n1 _ q1 Hh1 Ha1) as (n2&q2&Hd2&Hh2&Ha2).
    exists n2, q2. split_and!; [|done..]. cbn [feed_all]. by eapply does_bind.
Qed.

(** A function feeds what the specification says. *)
Lemma feeding_station {A B} (g : positive -> A -> St -> outcome (B * list (delivery V) * St))
    o f (arg : A) n qs cl s closing q (res : B) ds s' :
  g f arg s = Ret (res, ds, s') -> accepts css cl ds ->
  holds n (mkStations qs cl s) closing -> armed_but o qs closing q ->
  exists n' q', does ids (feeding base g f arg) n q res n' q' /\
    holds n' (deliver_all ds (mkStations qs cl s')) closing /\
    armed_but o (foldl deliver qs ds) closing q'.
Proof using alive.
  intros Hg Hd Hh Ha.
  destruct (feed_all_stations o ds _ qs cl s' closing q (stations_set_user _ _ _ _ s' _ Hh) Ha Hd)
    as (n'&q'&Hf&Hh'&Ha'). exists n', q'. split_and!; [|done..].
  assert (Hb : does ids (_ ← feed_all base ds; mret res) (set_user s' n) q res n' q').
  { eapply does_bind; [exact Hf|apply does_ret]. }
  unfold does, feeding. rewrite (holds_store _ _ _ Hh). cbn [store]. by rewrite Hg.
Qed.

(** The conversions of a station, from whatever node they are on top of. *)
Lemma convs_station o cs c x n q n1 qs cl s closing q1 y ds s' :
  is_null c = false -> does ids (getResult afunc aerror c) n q x n1 q1 ->
  holds n1 (mkStations qs cl s) closing -> armed_but o qs closing q1 ->
  convs_at func error_func cs x s = Ret (y, ds, s') -> accepts css cl ds ->
  exists n' q', does ids (getResult afunc aerror (wrap cs c)) n q y n' q' /\
    holds n' (deliver_all ds (mkStations qs cl s')) closing /\
    armed_but o (foldl deliver qs ds) closing q'.
Proof using alive.
  revert c x n1 qs s q1 ds. induction cs as [|[f ef] cs IH]; intros c x n1 qs s q1 ds Hc Hg Hh Ha.
  - intros [= <- <- <-] _. by exists n1, q1.
  - cbn [convs_at]. intros ([[x1 ds1] s1]&H1&H2)%bind_Ret_inv Hd. cbn beta iota in H2.
    apply bind_Ret_inv in H2 as ([[y2 ds2] s2]&H2&Hr). injection Hr as -> <- ->.
    apply Forall_app in Hd as [Hd1 Hd2].
    assert (Hstep : exists n2 q2, does ids (getResult afunc aerror (Convert f ef c)) n q x1 n2 q2 /\
      holds n2 (deliver_all ds1 (mkStations qs cl s1)) closing /\
      armed_but o (foldl deliver qs ds1) closing q2).
    { cbn [getResult]. unfold ConvertConveyorNode_getImpl. rewrite Hc. cbn [negb].
      destruct x as [e|v]; cbn [conv_at fst snd] in H1.
      - destruct (feeding_station error_func o ef e n1 qs cl s closing q1 _ _ _ H1 Hd1 Hh Ha)
          as (n2&q2&Hd&?&?). exists n2, q2. split; [|done]. by eapply does_bind.
      - apply bind_Ret_inv in H1 as ([[t ds0] s0]&H1&Ht). injection Ht as <- <- <-.
        destruct (feeding_station func o f v n1 qs cl s closing q1 _ _ _ H1 Hd1 Hh Ha)
          as (n2&q2&Hd&?&?).
        exists n2, q2. split; [|done]. eapply does_bind; [exact Hg|].
        eapply does_bind; [exact Hd|apply does_ret]. }
    destruct Hstep as (n2&q2&Hd&Hh2&Ha2).
    destruct (IH (Convert f ef c) x1 n2 _ _ q2 ds2 eq_refl Hd Hh2 Ha2 H2 Hd2) as (n3&q3&?&Hh3&Ha3).
    exists n3, q3. split_and!; [done| |].
    + by rewrite deliver_all_app.
    + by rewrite foldl_app.
Qed.

(** An adapter is taken to be served. *)
Lemma armed_pop qs closing q q1 i x l :
  armed_but None qs closing q -> Queue.pop q = Some (adapter i, q1) -> qs !! i = Some (x :: l) ->
  armed_but (Some i) (<[i := l]> qs) closing q1 /\ front q1 = soon q1.
Proof.
  intros Ha Hpop Hi. destruct (pop_items _ _ _ Hpop) as (Hit&Hnow&Hfr).
  assert (Hf1 : front q1 = soon q1) by (unfold front; by rewrite Hnow). split; [|done].
  pose proof (adapter_not_rest _ _ _ _ i Ha) as Hna.
  destruct Ha as [Hr Hnd Haq Hqa]. rewrite !items_front in Hit. rewrite items_front, Hit in Hnd.
  assert (Hfq : front q = adapter i :: front q1 /\ rest q = rest q1).
  { destruct Hfr as [E|[E E2]].
    - unfold front at 1. rewrite E, <- Hf1. split; [done|]. unfold front at 1 in Hit.
      rewrite E, <- Hf1 in Hit. cbn in Hit. injection Hit as Hit. by apply app_inv_head in Hit.
    - exfalso. apply Hna. unfold front at 1 in Hit. rewrite E in Hit. cbn in Hit. rewrite Hit.
      apply list_elem_of_here. }
  destruct Hfq as [Hfq Hrq]. apply NoDup_cons in Hnd as [Hni Hnd]. split.
  - by rewrite <- Hrq.
  - by rewrite items_front.
  - intros e He. destruct (Haq e) as (j&z&k&->&Hj); [rewrite Hfq; by apply list_elem_of_further|].
    exists j, z, k. split; [done|]. rewrite list_lookup_insert_ne; [done|]. intros ->.
    apply Hni, elem_of_app. by left.
  - intros j z k Hj. destruct (decide (j = i)) as [->|Hne]; [by right|].
    rewrite list_lookup_insert_ne in Hj by done. left.
    destruct (Hqa j z k Hj) as [He|?]; [|done]. rewrite Hfq in He.
    by apply elem_of_cons in He as [?%adapter_inj|?].
Qed.

(** The adapter that was served is armed again while it holds more. *)
Lemma armed_again qs closing q i k :
  armed_but (Some i) qs closing q -> qs !! i = Some k ->
  armed_but None qs closing (later_if (0 <? zlen k) (adapter i) q).
Proof.
  intros Ha Hk. pose proof Ha as [Hr Hnd Haq Hqa]. split.
  - by rewrite later_rest.
  - by apply later_nodup.
  - intros e. destruct (Z.ltb_spec 0 (zlen k)) as [Hz|Hz]; cbn [later_if]; [|apply Haq].
    rewrite (arm_front Later _ _ _ _ _ _ ltac:(done) Ha). intros [?| ->]; [by apply Haq|].
    destruct k as [|z k]; [done|]. by exists i, z, k.
  - intros j z m Hj. left. destruct (Hqa j z m Hj) as [He|[= <-]].
    + destruct (0 <? zlen k); cbn [later_if]; [|done].
      apply (arm_front Later _ _ _ _ _ _ ltac:(done) Ha). by left.
    + rewrite Hk in Hj. injection Hj as ->.
      replace (0 <? zlen (z :: m)) with true.
      * apply (arm_front Later _ _ _ _ _ _ ltac:(done) Ha). by right.
      * rewrite zlen_cons. symmetry. apply Z.ltb_lt. pose proof (zlen_nonneg m). lia.
Qed.

(** A critical answer arms the sink of its station, which is to be closed. *)
Lemma armed_close o qs closing q i (y : elem) :
  armed_but o qs closing q -> i ∉ closing ->
  armed_but o qs (close i y closing) (if is_critical y then Queue.arm Last (sink i) q else q).
Proof.
  intros Ha Hi. unfold close. destruct (is_critical y); [|done].
  pose proof Ha as [Hr Hnd Haq Hqa].
  assert (Hn : sink i ∉ items q).
  { rewrite items_front, Hr. intros [He|(j&Hj&Hjc)%list_elem_of_fmap]%elem_of_app.
    - destruct (Haq _ He) as (j&?&?&E&_). symmetry in E. by apply adapter_sink in E.
    - apply sink_inj in Hj. by subst. }
  unfold Queue.arm. rewrite decide_False by done. split; cbn [rest].
  - by rewrite Hr.
  - apply (arm_nodup Last (sink i)) in Hnd. unfold Queue.arm in Hnd.
    by rewrite decide_False in Hnd.
  - intros e He. by apply Haq.
  - intros j z m Hj. by apply (Hqa j z m).
Qed.

Lemma holds_close n qs cl s closing i (y : elem) :
  holds n (mkStations qs cl s) closing -> i ∉ cl -> (is_critical y = true -> qs !! i = Some []) ->
  holds n (mkStations qs (close i y cl) s) (close i y closing).
Proof.
  intros Hh Hi Hy. unfold close. destruct (is_critical y); [|done].
  destruct Hh as [Hl Hs Hf Ha Hk Hc Hd Hg]. cbn in *.
  assert (Hst : forall j, standing (i :: cl) (i :: closing) j -> standing cl closing j).
  { intros j [Hj|Hj]; [left; by apply not_elem_of_cons in Hj as [_ ?]|].
    apply elem_of_cons in Hj as [->|?]; [by left|by right]. }
  split; cbn; try done; auto.
  - intros j [->|?]%elem_of_cons; [apply list_elem_of_here|]. by apply list_elem_of_further, Hc.
  - intros j [->|?]%elem_of_cons; auto.
  - intros j [->|?]%elem_of_cons Hj; [|apply Hg; [done|]];
      apply not_elem_of_cons in Hj as [? ?]; done.
Qed.

(** One turn: the element at the front is served. *)
Lemma station_turn n qs cl s closing q q1 i cs x l y ds s' :
  holds n (mkStations qs cl s) closing -> armed_but None qs closing q ->
  Queue.pop q = Some (adapter i, q1) -> css !! i = Some cs -> qs !! i = Some (x :: l) ->
  convs_at func error_func cs x s = Ret (y, ds, s') -> accepts css (close i y cl) ds ->
  (is_critical y = true -> l = []) ->
  exists n' q', does ids (fire afunc aerror (adapter i)) n q1 tt n' q' /\
    holds n' (deliver_all ds (mkStations (<[i := l]> qs) (close i y cl) s')) (close i y closing) /\
    armed_but None (foldl deliver (<[i := l]> qs) ds) (close i y closing) q'.
Proof using alive.
  intros Hh Ha Hpop Hcs Hi Hc Hd Hy. pose proof (lookup_lt_Some _ _ _ Hcs) as Hlt.
  assert (Ho : i ∉ cl).
  { intros Hcl. pose proof (holds_closed _ _ _ Hh i Hcl) as E. cbn in E. congruence. }
  assert (Hnc : i ∉ closing) by (intros ?; by apply Ho, (holds_closing _ _ _ Hh)).
  destruct (armed_pop _ _ _ _ _ _ _ Ha Hpop Hi) as [Ha1 _].
  pose proof (stations_set n qs cl s closing i l Hh Ho) as Hh1.
  assert (Hpop1 : does ids (storage_getResult (adapter i)) n q1 x
    (set_nodes (insert (adapter i) (adapter_node i l)) n) q1).
  { pose proof (holds_adapter _ _ _ Hh i _ Hi (or_introl Ho)) as Hn.
    eapply does_bind; [by apply does_get_node|]. eapply does_bind; [|apply does_ret].
    exact (does_set_state _ _ _ _ _ q1 Hn). }
  destruct (convs_station (Some i) cs (Ref (adapter i)) x n q1 _ _ cl s closing q1 y ds s' eq_refl
    Hpop1 Hh1 Ha1 Hc (accepts_close _ _ _ _ _ Hd)) as (n'&q'&Hg&Hh'&Ha').
  destruct (lookup_lt_is_Some_2 (foldl deliver (<[i := l]> qs) ds) i) as [k Hk].
  { pose proof (holds_length _ _ _ Hh') as Hl. cbn in Hl. lia. }
  assert (Hcrit : is_critical y = true -> foldl deliver (<[i := l]> qs) ds !! i = Some []).
  { intros E. rewrite deliver_all_lookup, list_lookup_insert_eq by (by eapply lookup_lt_Some).
    cbn. rewrite (Hy E), (accepts_none css i (close i y cl)); [done| |done].
    unfold close. rewrite E. apply list_elem_of_here. }
  pose proof (holds_close _ _ _ _ _ i y Hh' Ho Hcrit) as Hh2.
  pose proof (armed_close _ _ _ _ i y Ha' Hnc) as Ha2.
  pose proof (armed_again _ _ _ _ k Ha2 Hk) as Ha3.
  pose proof (holds_adapter _ _ _ Hh' i k Hk (or_introl Ho)) as Hn'.
  do 2 eexists. split_and!; [|exact Hh2|exact Ha3].
  eapply does_bind; [apply does_get_node, (holds_adapter _ _ _ Hh i _ Hi (or_introl Ho))|].
  cbn [state adapter_node]. unfold AdaptConveyorNode_fire. cbn [parent adapter_node].
  eapply does_bind.
  - eapply does_bind; [apply does_get_node, (holds_sink _ _ _ Hh i _ Hcs (or_introl Ho))|].
    cbn [state sink_node]. unfold SinkConveyorNode_childHasFired. rewrite wrap_not_null.
    eapply does_bind; [exact Hg|]. apply does_sink. by apply alive.
  - eapply (does_bind _ _ _ _ _ (zlen k)).
    + eapply does_bind; [by apply does_get_node|]. apply does_ret.
    + apply does_when_later. by apply alive.
Qed.

(** What the sink leaves is what is held when the station is closed. *)
Lemma holds_gone_now n n' a i closing :
  holds n a (i :: closing) -> i ∉ closing ->
  feeders n' = <[feeder i := None]> (feeders n) -> user n' = user n ->
  nodes n' = <[sink i := gone_node]> (delete (adapter i) (nodes n)) ->
  holds n' a closing.
Proof.
  intros [Hl Hs Hfd Had Hk Hcl Hcd Hg] Hnotin Hf Hu Hn.
  assert (Hne : forall j, standing (closed a) closing j ->
    standing (closed a) (i :: closing) j /\ j <> i).
  { assert (i ∈ closed a) by apply Hcl, list_elem_of_here.
    intros j [Hj|Hj]; [split; [by left|by intros ->]|].
    split; [right; by apply list_elem_of_further|by intros ->]. }
  assert (Ha : forall j, j <> i -> nodes n' !! adapter j = nodes n !! adapter j).
  { intros j Hj. rewrite Hn, lookup_insert_ne by (intros E; symmetry in E; by apply adapter_sink in E).
    by rewrite lookup_delete_ne by (intros ?%adapter_inj; congruence). }
  assert (Hsk : forall j, j <> i -> nodes n' !! sink j = nodes n !! sink j).
  { intros j Hj. rewrite Hn, lookup_insert_ne by (intros ?%sink_inj; congruence).
    by rewrite lookup_delete_ne by apply adapter_sink. }
  assert (Hfe : forall j, j <> i -> feeders n' !! feeder j = feeders n !! feeder j).
  { intros j Hj. by rewrite Hf, lookup_insert_ne by (intros ?%feeder_inj; congruence). }
  split; try done.
  - by rewrite Hu.
  - intros j Hj [Hjs Hji]%Hne. rewrite Hfe by done. by apply Hfd.
  - intros j r Hj [Hjs Hji]%Hne. rewrite Ha by done. by apply Had.
  - intros j cs Hj [Hjs Hji]%Hne. rewrite Hsk by done. by apply Hk.
  - intros j Hj. by apply Hcl, list_elem_of_further.
  - intros j Hj Hnj. destruct (decide (j = i)) as [->|Hji].
    + rewrite Hf, Hn, lookup_insert_eq, lookup_insert_ne, lookup_delete_eq, lookup_insert_eq
        by (intros E; symmetry in E; by apply adapter_sink in E). done.
    + rewrite Hfe, Ha, Hsk by done. apply Hg; [done|].
      by intros [?|?]%elem_of_cons.
Qed.

(** The turn of a sink closes its station. *)
Lemma closing_turn n a i closing q q1 :
  holds n a (i :: closing) -> armed_but None (queues a) (i :: closing) q ->
  Queue.pop q = Some (sink i, q1) ->
  exists n', does ids (fire afunc aerror (sink i)) n q1 tt n' q1 /\ holds n' a closing /\
    armed_but None (queues a) closing q1.
Proof using alive.
  intros Hh Ha Hpop.
  assert (Hc : i ∈ closed a) by (apply (holds_closing _ _ _ Hh), list_elem_of_here).
  pose proof (holds_closed _ _ _ Hh i Hc) as Hq.
  assert (Hlt : (i < length css)%nat).
  { rewrite <- (holds_length _ _ _ Hh). by eapply lookup_lt_Some. }
  destruct (lookup_lt_is_Some_2 css i Hlt) as [cs Hcs].
  assert (Hst : standing (closed a) (i :: closing) i) by (right; apply list_elem_of_here).
  pose proof Ha as [Hr Hnd Haq Hqa]. destruct (pop_items _ _ _ Hpop) as (Hit&Hnow&Hfr).
  assert (Hf : front q = []).
  { destruct Hfr as [E|[E _]]; [|done]. destruct (Haq (sink i)) as (j&?&?&E2&_).
    - unfold front. rewrite E. apply list_elem_of_here.
    - symmetry in E2. by apply adapter_sink in E2. }
  assert (Hq1 : q1 = mkQueue [] [] (sink <$> closing)).
  { unfold Queue.pop in Hpop. unfold front in Hf. rewrite Hf, Hr in Hpop. cbn in Hpop.
    by injection Hpop. }
  rewrite items_front, Hf, Hr in Hnd. cbn in Hnd. apply NoDup_cons in Hnd as [Hni Hnd].
  assert (Hnotin : i ∉ closing) by (intros ?; by apply Hni, list_elem_of_fmap_2).
  destruct (alive i Hlt) as [Hal Hals].
  destruct (does_sink_fire ids (adapter i) (sink i) (feeder i) [] cs n q1) as (n'&Hd&Hf'&Hu'&Hn').
  - done.
  - rewrite Hq1. unfold items. cbn. intros (j&E&_)%list_elem_of_fmap. by apply adapter_sink in E.
  - intros E. symmetry in E. by apply adapter_sink in E.
  - by apply (holds_adapter _ _ _ Hh).
  - by apply (holds_sink _ _ _ Hh).
  - exists n'. split_and!.
    + eapply does_bind; [apply does_get_node, (holds_sink _ _ _ Hh i _ Hcs Hst)|]. exact Hd.
    + by eapply holds_gone_now.
    + rewrite Hq1. split; cbn [rest].
      * done.
      * by unfold items.
      * intros e He. by apply not_elem_of_nil in He.
      * intros j x r Hj. destruct (Hqa j x r Hj) as [He|?]; [|done]. rewrite Hf in He.
        by apply not_elem_of_nil in He.
Qed.

(** ** Many turns *)

(** [I] holds of the stations, and is enough for an element to be served. *)
Context (I : stations -> Prop).
Context (serves : forall i cs x l qs cl s,
  I (mkStations qs cl s) -> css !! i = Some cs -> qs !! i = Some (x :: l) ->
  exists y ds s', convs_at func error_func cs x s = Ret (y, ds, s') /\
    (is_critical y = true -> l = []) /\ accepts css (close i y cl) ds /\
    I (deliver_all ds (mkStations (<[i := l]> qs) (close i y cl) s'))).

(** [k] turns serve [j] elements and close [m] stations, or leave nothing to do. *)
Lemma station_turns k n a closing q :
  holds n a closing -> armed_but None (queues a) closing q -> I a ->
  exists n' a' closing' q' j m, turns afunc aerror ids k n q n' q' /\ holds n' a' closing' /\
    armed_but None (queues a') closing' q' /\ I a' /\
    nsteps (serve func error_func css) j a a' /\
    (length closing' + m + length (closed a) = length closing + length (closed a'))%nat /\
    ((j + m)%nat = k \/ idle a' /\ closing' = []).
Proof using alive serves.
  revert n a closing q. induction k as [|k IH]; intros n a closing q Hh Ha HI.
  { exists n, a, closing, q, O, O. split_and!; try done; [constructor|lia|by left]. }
  destruct (Queue.pop q) as [[e q1]|] eqn:Hpop.
  - destruct (pop_items _ _ _ Hpop) as (Hit&_&_). rewrite items_front in Hit.
    destruct (front q) as [|e' fr] eqn:Hfr; cbn in Hit.
    + pose proof (armed_rest _ _ _ _ Ha) as Hr. rewrite Hit in Hr.
      destruct closing as [|i closing]; [done|]. cbn in Hr. injection Hr as -> _.
      destruct (closing_turn n a i closing q q1 Hh Ha Hpop) as (n1&Hf&Hh1&Ha1).
      destruct (IH n1 a closing q1 Hh1 Ha1 HI) as (n'&a'&c'&q'&j&m&Ht&?&?&?&?&Hm&Hj).
      exists n', a', c', q', j, (S m). split_and!; try done.
      * by eapply turns_step.
      * cbn [length]. lia.
      * destruct Hj as [<-|?]; [left; lia|by right].
    + injection Hit as -> _.
      destruct (armed_queued _ _ _ _ Ha e) as (i&x&l&->&Hi); [rewrite Hfr; apply list_elem_of_here|].
      destruct a as [qs cl s]. cbn [queues] in *.
      destruct (lookup_lt_is_Some_2 css i) as [cs Hcs].
      { pose proof (holds_length _ _ _ Hh) as Hl. cbn in Hl. rewrite <- Hl. by eapply lookup_lt_Some. }
      destruct (serves i cs x l qs cl s HI Hcs Hi) as (y&ds&s'&Hc&Hy&Hd&HI').
      destruct (station_turn n qs cl s closing q q1 i cs x l y ds s' Hh Ha Hpop Hcs Hi Hc Hd Hy)
        as (n1&q2&Hf&Hh1&Ha1).
      destruct (IH n1 _ _ q2 Hh1 Ha1 HI') as (n'&a'&c'&q'&j&m&Ht&?&?&?&Hs&Hm&Hj).
      exists n', a', c', q', (S j), m. split_and!; try done.
      * by eapply turns_step.
      * econstructor; [|exact Hs]. by econstructor.
      * revert Hm. unfold close. cbn [deliver_all closed].
        destruct (is_critical y); cbn [length]; lia.
      * destruct Hj as [<-|?]; [by left|by right].
  - apply pop_None in Hpop. exists n, a, closing, q, O, O. split_and!; try done; [|constructor|lia|].
    + by apply turns_done.
    + right. rewrite items_front in Hpop. apply app_eq_nil in Hpop as [Hf Hr]. split.
      * apply Forall_lookup. intros i l Hl. destruct l as [|x l]; [done|].
        destruct (queued_armed _ _ _ _ Ha i x l Hl) as [He|?]; [|done].
        rewrite Hf in He. by apply not_elem_of_nil in He.
      * rewrite (armed_rest _ _ _ _ Ha) in Hr. by destruct closing.
Qed.
End refinement.

(** ** The client *)
Section client.
Context {V St : Type}.
#[local] Abbreviation elem := (ErrorOr V).
Context (func : positive -> V -> St -> outcome (thrown elem * list (delivery V) * St)).
Context (error_func : positive -> Error -> St -> outcome (elem * list (delivery V) * St)).
Implicit Types w : world V St.

(** [newConveyorAndFeeder], [then] and [sink], for each station. *)
Fixpoint open_stations (css : list (list (positive * positive))) w
  : outcome (world V St) :=
  match css with
  | [] => Ret w
  | cs :: css =>
      let '(f, c, w) := newConveyorAndFeeder w in
      '(_, w) ← conv_sink (thens cs c) w;
      open_stations css w
  end.

(** Elements that arrive between the calls of [poll]. *)
Fixpoint station_rounds (base : nat) (dss : list (list (delivery V))) w
  : outcome (world V St) :=
  match dss with
  | [] => Ret w
  | ds :: dss =>
      '(_, w) ← run (feed_all base ds) w;
      '(_, w) ← poll (feeding base func) (feeding base error_func) w;
      station_rounds base dss w
  end.
End client.

(** ** The stations on the event loop *)
Section world.
Context {V St : Type}.
#[local] Abbreviation elem := (ErrorOr V).
#[local] Abbreviation stations := (stations V St).
Context (func : positive -> V -> St -> outcome (thrown elem * list (delivery V) * St)).
Context (error_func : positive -> Error -> St -> outcome (elem * list (delivery V) * St)).
Context (css : list (list (positive * positive))) (base : nat).
Implicit Types (w : world V St) (a b : stations).

(** The world holds the stations [a], and is about to close [closing]. *)
Definition held (closing : list nat) w a : Prop :=
  exists q, repr (loop w) q /\ entered (loop w) /\
    (forall i, (i < length css)%nat ->
      adapter_addr base i ∈ dom (events (loop w)) /\ sink_addr base i ∈ dom (events (loop w))) /\
    holds css base (conveyors w) a closing /\ armed_but base None (queues a) closing q.
Definition in_world w a : Prop := held [] w a.

Lemma world_step closing w a {A} (m : M V St A) x n' q q' a' :
  repr (loop w) q -> entered (loop w) ->
  (forall i, (i < length css)%nat ->
    adapter_addr base i ∈ dom (events (loop w)) /\ sink_addr base i ∈ dom (events (loop w))) ->
  does (dom (events (loop w))) m (conveyors w) q x n' q' ->
  holds css base n' a' closing -> armed_but base None (queues a') closing q' ->
  exists w', run m w = Ret (x, w') /\ held closing w' a'.
Proof.
  intros Hr He Hal Hd Hh Ha. destruct (run_does _ w q _ _ _ Hr He Hd) as (l'&Hrun&Hr'&Hw').
  exists (mkWorld n' l'). split; [done|]. exists q'. split_and!; try done.
  - by eapply same_world_entered.
  - cbn [loop]. by destruct Hw' as [-> _].
Qed.

Lemma world_feed closing w a ds :
  held closing w a -> accepts css (closed a) ds ->
  exists w', run (feed_all base ds) w = Ret (tt, w') /\ held closing w' (deliver_all ds a).
Proof.
  intros (q&Hr&He&Hal&Hh&Ha) Hd. destruct a as [qs cl s].
  destruct (feed_all_stations css base _ Hal None ds (conveyors w) qs cl s closing q Hh Ha Hd)
    as (n'&q'&Hf&Hh'&Ha').
  by eapply world_step.
Qed.

(** A call of the client that works on the state and feeds stations. *)
Lemma world_call {A B} (g : positive -> A -> St -> outcome (B * list (delivery V) * St))
    f arg closing w qs cl s res ds s' :
  held closing w (mkStations qs cl s) -> g f arg s = Ret (res, ds, s') -> accepts css cl ds ->
  exists w', run (feeding base g f arg) w = Ret (res, w') /\
    held closing w' (deliver_all ds (mkStations qs cl s')).
Proof.
  intros (q&Hr&He&Hal&Hh&Ha) Hg Hd.
  destruct (feeding_station css base _ Hal g None f arg (conveyors w) qs cl s closing q res ds s' Hg Hd Hh Ha)
    as (n'&q'&Hf&Hh'&Ha').
  by eapply world_step.
Qed.

(** A [poll] serves [j] elements and closes [m] stations, or leaves nothing to do. *)
Lemma world_turns (I : stations -> Prop) closing w a :
  (forall i cs x l qs cl s,
    I (mkStations qs cl s) -> css !! i = Some cs -> qs !! i = Some (x :: l) ->
    exists y ds s', convs_at func error_func cs x s = Ret (y, ds, s') /\
      (is_critical y = true -> l = []) /\ accepts css (close i y cl) ds /\
      I (deliver_all ds (mkStations (<[i := l]> qs) (close i y cl) s'))) ->
  held closing w a -> I a ->
  exists w' a' closing' j m, poll (feeding base func) (feeding base error_func) w = Ret (true, w') /\
    held closing' w' a' /\ I a' /\ nsteps (serve func error_func css) j a a' /\
    (length closing' + m + length (closed a) = length closing + length (closed a'))%nat /\
    ((j + m)%nat = Z.to_nat 65536 \/ idle a' /\ closing' = []).
Proof.
  intros Hserves (q&Hr&He&Hal&Hh&Ha) HI.
  destruct (station_turns func error_func css base _ Hal I Hserves
    (Z.to_nat 65536)
    (conveyors w) a closing q Hh Ha HI) as (n'&a'&c'&q'&j&m&Ht&Hh'&Ha'&HI'&Hs&Hcl&Hend).
  destruct (poll_turns _ _ w q n' q' Hr He Ht) as (l'&Hpoll&Hr'&Hw').
  exists (mkWorld n' l'), a', c', j, m. split_and!; try done.
  exists q'. split_and!; try done; [by eapply same_world_entered|].
  cbn [loop]. by destruct Hw' as [-> _].
Qed.

Section poll.
Context (I : list (delivery V) -> stations -> Prop) (measure : stations -> nat).
Context (arrives : list (delivery V) -> Prop).
Context (laws : station_laws func error_func css I measure arrives).

(** From where it holds, [I] is kept whatever is served. *)
Lemma serve_keeps past a b : I past a -> serve func error_func css a b -> I past b.
Proof.
  intros HI Hs. destruct Hs as [i cs x r y ds qs cl s s' Hcs Hi Hc].
  destruct (laws_serve _ _ _ _ _ _ laws past i cs x r qs cl s HI Hcs Hi) as (y'&ds'&s2&Hc'&_&_&HI').
  rewrite Hc in Hc'. by injection Hc' as -> -> ->.
Qed.

Lemma serves_measure past j a b :
  I past a -> nsteps (serve func error_func css) j a b ->
  (measure b + length (closed b) + j <= measure a + length (closed a))%nat.
Proof.
  intros HI Hs. induction Hs as [a|j a b c Hab _ IH]; [lia|].
  pose proof (serve_keeps _ _ _ HI Hab) as HIb.
  pose proof (laws_decrease _ _ _ _ _ _ laws _ _ _ HI Hab HIb).
  specialize (IH HIb). lia.
Qed.

Lemma world_poll past w a :
  in_world w a -> I past a -> (measure a <= Z.to_nat 65536)%nat ->
  exists w' a', poll (feeding base func) (feeding base error_func) w = Ret (true, w') /\
    in_world w' a' /\ I past a' /\ rtc (serve func error_func css) a a' /\ idle a'.
Proof.
  intros Hw HI Hm. destruct (world_turns (I past) [] w a (laws_serve _ _ _ _ _ _ laws past) Hw HI)
    as (w'&a'&c'&j&m&Hpoll&Hw'&HI'&Hs&Hcl&Hend).
  assert (Hidle : idle a' /\ c' = []).
  { destruct Hend as [Hk|?]; [|done]. pose proof (serves_measure _ _ _ _ HI Hs). cbn [length] in Hcl.
    split; [|destruct c'; [done|cbn [length] in Hcl; lia]].
    apply Forall_lookup. intros i l Hl. destruct l as [|x l]; [done|].
    destruct a' as [qs cl s]. destruct (lookup_lt_is_Some_2 css i) as [cs Hcs].
    { destruct Hw' as (?&_&_&_&Hh'&_). pose proof (holds_length _ _ _ _ _ Hh') as H'.
      rewrite <- H'. by eapply lookup_lt_Some. }
    destruct (laws_serve _ _ _ _ _ _ laws past i cs x l qs cl s HI' Hcs Hl) as (y&ds&s'&Hc&_&_&HI2).
    pose proof (laws_decrease _ _ _ _ _ _ laws _ _ _ HI'
      (serve_one _ _ _ i cs x l y ds qs cl s s' Hcs Hl Hc) HI2) as Hdec.
    cbn [deliver_all closed] in *.
    assert (length cl <= length (close i y cl))%nat
      by (unfold close; destruct (is_critical y); cbn [length]; lia). lia. }
  destruct Hidle as [Hidle ->].
  exists w', a'. split_and!; try done. by eapply rtc_nsteps_2.
Qed.

Lemma world_rounds past dss w a :
  in_world w a -> I past a -> idle a -> Forall arrives dss ->
  exists w' a', station_rounds func error_func base dss w = Ret w' /\ in_world w' a' /\
    I (past ++ concat dss) a' /\ idle a' /\ served func error_func css dss a a'.
Proof.
  intros Hw HI Hidle Hd. revert past w a Hw HI Hidle.
  induction Hd as [|ds dss Hds _ IH]; intros past w a Hw HI Hidle.
  { exists w, a. cbn. rewrite app_nil_r. split_and!; try done. constructor. }
  destruct (laws_arrive _ _ _ _ _ _ laws past ds a Hds HI Hidle) as (Hran&HI1&Hm).
  destruct (world_feed [] w a ds Hw Hran) as (w1&Hf&Hw1).
  destruct (world_poll _ w1 _ Hw1 HI1 Hm) as (w2&a2&Hp&Hw2&HI2&Hs&Hidle2).
  destruct (IH _ w2 a2 Hw2 HI2 Hidle2) as (w3&a3&Hr&?&?&?&?).
  exists w3, a3. cbn [station_rounds concat]. rewrite app_assoc. rewrite Hf, bind_ret, Hp, bind_ret.
  split_and!; try done. econstructor; [split; [exact Hs|done]|done].
Qed.
End poll.

(** Where no event is armed, nothing is queued. *)
Lemma world_quiet closing w a :
  held closing w a ->
  exists q, repr (loop w) q /\ user (conveyors w) = store a /\ (items q = [] -> idle a /\ closing = []).
Proof.
  intros (q&Hr&_&_&Hh&Ha). exists q. split; [done|]. split; [apply Hh|]. intros Hi.
  rewrite items_front in Hi. apply app_eq_nil in Hi as [Hf Hrest]. split.
  - apply Forall_lookup. intros i l Hl. destruct l as [|x l]; [done|].
    destruct (queued_armed _ _ _ _ _ Ha i x l Hl) as [He|?]; [|done].
    rewrite Hf in He. by apply not_elem_of_nil in He.
  - rewrite (armed_rest _ _ _ _ _ Ha) in Hrest. by destruct closing.
Qed.

(** Nothing is queued, and no event is armed. *)
Lemma world_idle w a :
  in_world w a -> idle a ->
  user (conveyors w) = store a /\ repr (loop w) empty_queue /\
  forall i, (i < length css)%nat ->
    if decide (i ∈ closed a)
    then feeders (conveyors w) !! feeder_addr base i = Some None /\
      nodes (conveyors w) !! adapter_addr base i = None
    else nodes (conveyors w) !! adapter_addr base i = Some (adapter_node base i []).
Proof.
  intros (q&Hr&_&_&Hh&Ha) Hidle. split_and!; [apply Hh| |].
  - assert (Hit : items q = []).
    { rewrite items_front, (armed_rest _ _ _ _ _ Ha). cbn. rewrite app_nil_r.
      destruct (front q) as [|e l] eqn:Hit; [done|].
      destruct (armed_queued _ _ _ _ _ Ha e) as (i&x&k&_&Hi); [rewrite Hit; apply list_elem_of_here|].
      pose proof (Forall_lookup_1 _ _ _ _ Hidle Hi). done. }
    destruct q as [nw sn rs]. unfold items in Hit. cbn in Hit.
    apply app_eq_nil in Hit as [-> Hit]. by apply app_eq_nil in Hit as [-> ->].
  - intros i Hi. destruct (lookup_lt_is_Some_2 (queues a) i) as [k Hk].
    { by rewrite (holds_length _ _ _ _ _ Hh). }
    pose proof (Forall_lookup_1 _ _ _ _ Hidle Hk) as ->. case_decide as Hc.
    + destruct (holds_gone _ _ _ _ _ Hh i Hc) as (?&?&_); [apply not_elem_of_nil|]. done.
    + apply (holds_adapter _ _ _ _ _ Hh); [done|by left].
Qed.
End world.

(** ** The stations as they are built *)
Section build.
Context {V St : Type} (base : nat).
Implicit Types w : world V St.
#[local] Arguments addr : simpl never.

Definition empty_stations (css : list (list (positive * positive))) (s : St)
  : stations V St := mkStations (replicate (length css) []) [] s.

(** The stations [css] are there, and nothing behind them. *)
Record opened css w (s : St) : Prop := {
  opened_next : next_id (conveyors w) = feeder_addr base (length css);
  opened_repr : repr (loop w) empty_queue;
  opened_entered : entered (loop w);
  opened_alive i : (i < length css)%nat ->
    adapter_addr base i ∈ dom (events (loop w)) /\ sink_addr base i ∈ dom (events (loop w));
  opened_holds : holds css base (conveyors w) (empty_stations css s) []
}.

Lemma opened_empty_queues (css : list (list (positive * positive))) i r :
  replicate (length css) (@nil (ErrorOr V)) !! i = Some r -> r = [] /\ (i < length css)%nat.
Proof. intros H%lookup_replicate. naive_solver. Qed.

Lemma adapter_next i : Pos.succ (feeder_addr base i) = adapter_addr base i.
Proof. unfold feeder_addr, adapter_addr. by rewrite addr_S. Qed.

Lemma sink_next i : Pos.succ (adapter_addr base i) = sink_addr base i.
Proof. unfold sink_addr, adapter_addr. by rewrite !addr_S. Qed.

Lemma feeder_next i : Pos.succ (sink_addr base i) = feeder_addr base (S i).
Proof.
  unfold sink_addr, feeder_addr. rewrite <- addr_S. f_equal. lia.
Qed.

(** One more station. *)
Lemma open_one css cs w s :
  opened css w s ->
  exists w', open_stations [cs] w = Ret w' /\ opened (css ++ [cs]) w' s.
Proof.
  intros [Hnext Hr He Hal Hh]. cbn [open_stations]. unfold newConveyorAndFeeder.
  cbn [new_node next_id conveyors]. rewrite Hnext, adapter_next.
  set (i := length css) in *. unfold conv_sink. rewrite thens_wrap.
  cbn [storage conveyor_node new_node next_id conveyors nodes feeders user].
  rewrite sink_next. unfold set_storage_parent. cbn [storage].
  match goal with |- context [run (setParent ?p ?q) ?w1] =>
    destruct (link_parent w1 p q (mkNode None None (AdaptConveyorNode (Some (feeder_addr base i)) [])))
      as (l'&Hrun&Hr'&Hw') end.
  - cbn [loop]. by do 2 apply create_event_repr.
  - done.
  - cbn [loop]. rewrite !create_event_dom. set_solver.
  - cbn. rewrite lookup_insert_ne by (intros E; symmetry in E; revert E; apply adapter_sink).
    apply lookup_insert_eq.
  - done.
  - rewrite Hrun, bind_ret, bind_ret. eexists. split; [done|].
    assert (Hi : length (css ++ [cs]) = S i) by (rewrite length_app; cbn; lia).
    pose proof Hw' as [Hdom _]. split; cbn [conveyors loop].
    + cbn [set_nodes next_id]. by rewrite Hi, feeder_next.
    + done.
    + exact (same_world_entered _ _ Hw' He).
    + rewrite Hi, Hdom. cbn [loop]. intros j Hj. rewrite !create_event_dom.
      destruct (decide (j = i)) as [->|Hne]; [set_solver|].
      destruct (Hal j ltac:(lia)). split; by do 2 apply elem_of_union_r.
    + destruct Hh as [Hl Hs Hf Ha Hk _ _ _]. cbn [queues store empty_stations] in *.
      split; cbn [queues store closed empty_stations set_nodes user feeders nodes].
      * by rewrite length_replicate.
      * done.
      * rewrite Hi. intros j Hj _. destruct (decide (j = i)) as [->|Hne]; [by rewrite lookup_insert_eq|].
        rewrite lookup_insert_ne; [apply Hf; [lia|left; apply not_elem_of_nil]|].
        unfold feeder_addr. intros ?%addr_inj. lia.
      * intros j r [-> Hj]%opened_empty_queues _. rewrite Hi in Hj.
        destruct (decide (j = i)) as [->|Hne]; [by rewrite lookup_insert_eq|].
        rewrite !lookup_insert_ne;
          [|unfold adapter_addr, sink_addr; intros ?%addr_inj; lia..].
        apply Ha; [|left; apply not_elem_of_nil]. apply lookup_replicate. split; [done|]. fold i. lia.
      * intros j ds [Hj|[Hj Hds]]%lookup_app_Some _.
        -- pose proof (lookup_lt_Some _ _ _ Hj). fold i in H.
           rewrite !lookup_insert_ne;
             [|unfold adapter_addr, sink_addr; intros ?%addr_inj; lia..].
           apply Hk; [done|left; apply not_elem_of_nil].
        -- apply list_lookup_singleton_Some in Hds as [Hji <-]. fold i in Hj, Hji.
           assert (j = i) as -> by lia.
           rewrite lookup_insert_ne by apply adapter_sink. by rewrite lookup_insert_eq.
      * by intros j ?%not_elem_of_nil.
      * by intros j ?%not_elem_of_nil.
      * by intros j ?%not_elem_of_nil.
Qed.

Lemma open_all css css' w s :
  opened css w s ->
  exists w', open_stations css' w = Ret w' /\ opened (css ++ css') w' s.
Proof.
  revert css w. induction css' as [|cs css' IH]; intros css w Ho.
  { exists w. by rewrite app_nil_r. }
  destruct (open_one css cs w s Ho) as (w1&H1&Ho1).
  destruct (IH _ w1 Ho1) as (w2&H2&Ho2). exists w2. rewrite <- app_assoc in Ho2.
  split; [|exact Ho2]. cbn [open_stations] in *.
  destruct (newConveyorAndFeeder w) as [[f c] w0].
  apply bind_Ret_inv in H1 as ([p w1']&H1&Hw). injection Hw as ->.
  rewrite H1, bind_ret. exact H2.
Qed.
End build.

(** The first address that is free in [w]. *)
Definition free_base {V St} (w : world V St) : nat := pred (Pos.to_nat (next_id (conveyors w))).

Lemma stations_open {V St} css (w : world V St) :
  repr (loop w) empty_queue -> entered (loop w) ->
  exists w', open_stations css w = Ret w' /\
    in_world css (free_base w) w' (empty_stations css (user (conveyors w))).
Proof.
  intros Hr He.
  destruct (open_all (free_base w) [] css w (user (conveyors w))) as (w'&Ho&[_ Hr' He' Hal Hh]).
  - split; try done.
    + unfold feeder_addr, addr, free_base. cbn. lia.
    + intros i Hi. cbn in Hi. lia.
    + split; try done; intros i Hi; by apply Nat.nlt_0_r in Hi || by apply not_elem_of_nil in Hi.
  - exists w'. split; [done|]. exists empty_queue. split_and!; try done.
    split; try done; [constructor|..].
    + by intros e ?%not_elem_of_nil.
    + intros i x r [? _]%opened_empty_queues. done.
Qed.

Lemma empty_idle {V St} css (s : St) : idle (empty_stations (V := V) css s).
Proof. apply Forall_replicate. done. Qed.

(** ** Property *)

(** C8: Stations whose functions feed one another refine a set of queues that are
    served one element at a time.  A client opens the stations and lets elements
    arrive, between any calls of [poll]; each [poll] serves, in some order between
    the stations but first in first out at each, what has arrived and what the
    functions feed meanwhile, until nothing is queued, no event is armed and the
    functions' state is what the specification says.  A station whose function has
    answered with a critical error is gone, and its feeder knows.  The functions are
    such that what a [poll] has to serve fits its 65536 turns, by a measure that falls
    with every element, and that a critical error comes when nothing else is queued
    at the station ([station_laws]). *)
Theorem stations_refine {V St}
    (func : positive -> V -> St -> outcome (thrown (ErrorOr V) * list (delivery V) * St))
    (error_func : positive -> Error -> St -> outcome (ErrorOr V * list (delivery V) * St))
    (css : list (list (positive * positive))) (I : list (delivery V) -> stations V St -> Prop)
    (measure : stations V St -> nat) (arrives : list (delivery V) -> Prop)
    (dss : list (list (delivery V))) (w : world V St) :
  repr (loop w) empty_queue -> entered (loop w) ->
  station_laws func error_func css I measure arrives ->
  I [] (empty_stations css (user (conveyors w))) -> Forall arrives dss ->
  exists w1 w2 a, open_stations css w = Ret w1 /\
    station_rounds func error_func (free_base w) dss w1 = Ret w2 /\
    served func error_func css dss (empty_stations css (user (conveyors w))) a /\
    I (concat dss) a /\ idle a /\ user (conveyors w2) = store a /\ repr (loop w2) empty_queue /\
    forall i, (i < length css)%nat ->
      if decide (i ∈ closed a)
      then feeders (conveyors w2) !! feeder_addr (free_base w) i = Some None /\
        nodes (conveyors w2) !! adapter_addr (free_base w) i = None
      else nodes (conveyors w2) !! adapter_addr (free_base w) i =
        Some (adapter_node (free_base w) i []).
Proof.
  intros Hr He Hlaws HI Hd. destruct (stations_open css w Hr He) as (w1&Ho&Hw1).
  destruct (world_rounds func error_func css _ I measure arrives Hlaws [] dss w1 _ Hw1 HI
    (empty_idle _ _) Hd) as (w2&a&Hrounds&Hw2&HI2&Hidle&Hs).
  exists w1, w2, a. destruct (world_idle css _ w2 a Hw2 Hidle) as (?&?&?). by split_and!.
Qed.

(** A splitter in front of a logger: the function 1 of station 0 feeds station 1
    with the element and its successor, until one is not positive, which it passes
    on as a last 0; the function 2 of station 1 logs, and is done after a 0. *)
Definition split_func (f : positive) (v : Z) (st : list Z * bool)
  : outcome (thrown (ErrorOr Z) * list (delivery Z) * (list Z * bool)) :=
  let '(log, over) := st in
  if decide (f = 1%positive) then
    if over then Ret (Returned (IsValue v), [], st)
    else if 0 <? v
    then Ret (Returned (IsValue v), [(1%nat, IsValue v); (1%nat, IsValue (v + 1))], st)
    else Ret (Returned (IsValue v), [(1%nat, IsValue 0)], (log, true))
  else Ret (Returned (if v =? 0 then IsError (criticalError "done") else IsValue v), [],
            (log ++ [v], over)).
Definition split_error (f : positive) (e : Error) (st : list Z * bool)
  : outcome (ErrorOr Z * list (delivery Z) * (list Z * bool)) := Ret (IsError noError, [], st).
Definition split_css : list (list (positive * positive)) := [[(1, 1)]; [(2, 2)]]%positive.

(** No error arrives. *)
Definition plain (q : list (ErrorOr Z)) : Prop := Forall (fun x => exists v, x = IsValue v) q.
Definition counting (q : list (ErrorOr Z)) : Prop :=
  Forall (fun x => exists v, 0 < v /\ x = IsValue v) q.

Definition split_inv (past : list (delivery Z)) (a : stations Z (list Z * bool)) : Prop :=
  exists q r, queues a = [q; r] /\ plain q /\
    if (store a).2
    then closed a = [1%nat] /\ r = [] \/
      closed a = [] /\ exists r', r = r' ++ [IsValue 0] /\ counting r'
    else closed a = [] /\ counting r.
Definition split_measure (a : stations Z (list Z * bool)) : nat :=
  match queues a with [q; r] => 6 * length q + 2 * length r | _ => 0 end.
Definition split_arrives (ds : list (delivery Z)) : Prop :=
  exists v, ds = [(0%nat, IsValue v)].

(** One element is served. *)
Lemma split_serves past i cs x l qs cl s :
  split_inv past (mkStations qs cl s) -> split_css !! i = Some cs -> qs !! i = Some (x :: l) ->
  exists y ds s', convs_at split_func split_error cs x s = Ret (y, ds, s') /\
    (is_critical y = true -> l = []) /\ accepts split_css (close i y cl) ds /\
    let a' := deliver_all ds (mkStations (<[i := l]> qs) (close i y cl) s') in
    split_inv past a' /\
    (split_measure a' + length (closed a') < split_measure (mkStations qs cl s) + length cl)%nat.
Proof.
  destruct s as [log over]. cbv zeta. intros (q&r&Hqs&Hp&Hov) Hcs Hi. cbn in Hqs, Hov. subst qs.
  destruct i as [|[|i]]; [| |done]; injection Hcs as <-; injection Hi as ->.
  - apply Forall_cons in Hp as [[v ->] Hp]. destruct over; [|destruct (0 <? v) eqn:Hv].
    + exists (IsValue v), [], (log, true). split_and!; [done|done|by apply Forall_nil_2|..].
      * by exists l, r.
      * cbn. lia.
    + destruct Hov as [-> Hc].
      exists (IsValue v), [(1%nat, IsValue v); (1%nat, IsValue (v + 1))], (log, false).
      apply Z.ltb_lt in Hv as Hv'. split_and!; [by cbn; rewrite Hv|done|..].
      * apply accepts_open. by repeat constructor.
      * exists l, ((r ++ [IsValue v]) ++ [IsValue (v + 1)]). split_and!; [done..|]. cbn.
        split; [done|]. repeat apply Forall_app_2; [done|..]; apply Forall_singleton;
          eexists; (split; [|done]); lia.
      * cbn. rewrite !length_app. cbn. lia.
    + destruct Hov as [-> Hc]. exists (IsValue v), [(1%nat, IsValue 0)], (log, true).
      split_and!; [by cbn; rewrite Hv|done|..].
      * apply accepts_open. by repeat constructor.
      * exists l, (r ++ [IsValue 0]). split_and!; [done..|]. right. split; [done|]. by exists r.
      * cbn. rewrite !length_app. cbn. lia.
  - assert (Hx : exists v, x = IsValue v /\ (v = 0 -> over = true /\ l = [] /\ cl = []) /\
      (v <> 0 -> split_inv past (mkStations [q; l] cl (log ++ [v], over)))).
    { destruct over; [destruct Hov as [[_ [=]]|(->&[|z r']&E&Hr)]|destruct Hov as [-> Hr]].
      - injection E as -> ->. exists 0. by split_and!.
      - injection E as -> ->. apply Forall_cons in Hr as [(v&Hv&->) Hr]. exists v.
        split_and!; [done|lia|]. intros _. exists q, (r' ++ [IsValue 0]). split_and!; try done.
        right. split; [done|]. by exists r'.
      - apply Forall_cons in Hr as [(v&Hv&->) Hr]. exists v. split_and!; [done|lia|].
        intros _. by exists q, l. }
    destruct Hx as (v&->&H0&H1). cbn [convs_at conv_at split_func fst snd].
    rewrite decide_False by done. rewrite !bind_ret. do 3 eexists. split; [done|]. cbn [caught].
    destruct (Z.eqb_spec v 0) as [->|Hv].
    + destruct (H0 eq_refl) as (->&->&->). split_and!; [done|by apply Forall_nil_2| |cbn; lia].
      exists q, []. split_and!; try done. by left.
    + split_and!; [done|by apply Forall_nil_2|by apply H1|cbn; lia].
Qed.

Lemma split_laws : station_laws split_func split_error split_css split_inv split_measure split_arrives.
Proof.
  split.
  - intros past i cs x l qs cl s HI Hcs Hi.
    destruct (split_serves past i cs x l qs cl s HI Hcs Hi) as (y&ds&s'&?&?&?&?&_).
    by exists y, ds, s'.
  - intros past a b HI Hs _. destruct Hs as [i cs x l y ds qs cl s s' Hcs Hi Hc].
    destruct (split_serves past i cs x l qs cl s HI Hcs Hi) as (y'&ds'&s2&Hc'&_&_&_&Hm).
    rewrite Hc in Hc'. by injection Hc' as -> -> ->.
  - intros past ds [qs cl [log over]] [v ->] (q&r&Hqs&Hp&Hov) Hidle. cbn in Hqs, Hov, Hidle. subst qs.
    inversion Hidle as [|? ? -> Hr]; subst. inversion Hr as [|? ? -> _]; subst.
    split_and!; [| |cbn; lia].
    + apply Forall_singleton. split; [cbn; lia|]. cbn.
      destruct over; [destruct Hov as [[-> _]|[-> _]]|destruct Hov as [-> _]];
        first [apply not_elem_of_nil|by intros ?%list_elem_of_singleton].
    + exists [IsValue v], []. split_and!; [done| |done]. apply Forall_singleton. by exists v.
Qed.

Lemma stations_refine_witness :
  let dss := [[(0%nat, IsValue 5)]; [(0%nat, IsValue (-1))]; [(0%nat, IsValue 7)]] in
  exists w1 w2 a, open_stations split_css (new_world ([], false)) = Ret w1 /\
    station_rounds split_func split_error 0 dss w1 = Ret w2 /\
    served split_func split_error split_css dss (empty_stations split_css ([], false)) a /\
    split_inv (concat dss) a /\
    idle a /\ user (conveyors w2) = store a /\ repr (loop w2) empty_queue /\
    forall i, (i < 2)%nat ->
      if decide (i ∈ closed a)
      then feeders (conveyors w2) !! feeder_addr 0 i = Some None /\
        nodes (conveyors w2) !! adapter_addr 0 i = None
      else nodes (conveyors w2) !! adapter_addr 0 i = Some (adapter_node 0 i []).
Proof.
  apply (stations_refine split_func split_error split_css split_inv split_measure split_arrives
    [[(0%nat, IsValue 5)]; [(0%nat, IsValue (-1))]; [(0%nat, IsValue 7)]] (new_world ([], false))).
  - split; [|done]. split_and!; try done. constructor.
  - done.
  - apply split_laws.
  - exists [], []. split; [done|]. split; [by apply Forall_nil_2|].
    split; [done|by apply Forall_nil_2].
  - repeat constructor; by eexists.
Defined.
