(* ===== verification/UnixIo.v ===== *)
(** Model of the Unix driver, [driver/io-unix.h] and [io-unix.cpp]: what it makes
    of the results of the system calls, the dispatch of epoll events and signals,
    and connecting.

    The kernel is a parameter: its state [K] and what the system calls answer.
    A call that never returns is [Halt Diverges]. *)

From S2P Require Import Prelude Error.

Definition MAX_EPOLL_EVENTS : Z := 256.

(** The constants of the system headers that the driver compares with. *)
Definition EPOLLIN : Z := 1.
Definition EPOLLOUT : Z := 4.
Definition EPOLLRDHUP : Z := 8192.
Definition EPOLLET : Z := 2147483648.
Definition EINTR : Z := 4.
Definition EAGAIN : Z := 11.
Definition EWOULDBLOCK : Z := 11.
Definition EINPROGRESS : Z := 115.
Definition SIGINT : Z := 2.
Definition SIGQUIT : Z := 3.
Definition SIGUSR1 : Z := 10.
Definition SIGTERM : Z := 15.

(** ** Streams *)

(** A feeder of [void]: how often it was fed. *)
Definition feed_void (feeder : option Z) : option Z :=
  match feeder with Some n => Some (n + 1) | None => None end.

Record UnixIoStream := mkUnixIoStream {
  read_ready : option Z;
  on_read_disconnect : option Z;
  write_ready : option Z
}.

(** [mask & flag] *)
Definition has_flag (mask flag : Z) : bool := negb (Z.land mask flag =? 0).

Definition UnixIoStream_notify (mask : Z) (s : UnixIoStream) : UnixIoStream :=
  let s := if has_flag mask EPOLLOUT
           then mkUnixIoStream (read_ready s) (on_read_disconnect s) (feed_void (write_ready s))
           else s in
  let s := if has_flag mask EPOLLIN
           then mkUnixIoStream (feed_void (read_ready s)) (on_read_disconnect s) (write_ready s)
           else s in
  if has_flag mask EPOLLRDHUP
  then mkUnixIoStream (read_ready s) (feed_void (on_read_disconnect s)) (write_ready s)
  else s.

(** [readReady()], [onReadDisconnected()] and [writeReady()] replace the feeder
    by a new one. *)
Definition readReady (s : UnixIoStream) : UnixIoStream :=
  mkUnixIoStream (Some 0) (on_read_disconnect s) (write_ready s).
Definition onReadDisconnected (s : UnixIoStream) : UnixIoStream :=
  mkUnixIoStream (read_ready s) (Some 0) (write_ready s).
Definition writeReady (s : UnixIoStream) : UnixIoStream :=
  mkUnixIoStream (read_ready s) (on_read_disconnect s) (Some 0).

Section stream.
Context {K : Type}.
(** [recv(length)] and [send(bytes)]: the result and, for [recv], the bytes it
    stored; [errno] is the one of the thread. *)
Context (recv : Z -> K -> Z * list byte * K).
Context (send : list byte -> K -> Z * K).
Context (errno : K -> Z).

Definition UnixIoStream_read (length : Z) (k : K) : ErrorOr Z * list byte * K :=
  let '(read_bytes, bytes, k) := recv length k in
  if 0 <? read_bytes then (IsValue read_bytes, bytes, k)
  else if read_bytes =? 0 then
    (IsError (criticalError_code "Disconnected" Disconnected), bytes, k)
  else (IsError (recoverableError "Currently busy"), bytes, k).

Definition UnixIoStream_write (bytes : list byte) (k : K) : ErrorOr Z * K :=
  let '(write_bytes, k) := send bytes k in
  if 0 <? write_bytes then (IsValue write_bytes, k)
  else
    let error := errno k in
    if (error =? EAGAIN) || (error =? EWOULDBLOCK)
    then (IsError (recoverableError "Currently busy"), k)
    else (IsError (criticalError_code "Disconnected" Disconnected), k).

(** A datagram: [recv] and [send] are [recvfrom] and [sendto]. *)
Definition UnixDatagram_read (length : Z) (k : K) : ErrorOr Z * list byte * K :=
  let '(read_bytes, bytes, k) := recv length k in
  if 0 <? read_bytes then (IsValue read_bytes, bytes, k)
  else (IsError (recoverableError "Currently busy"), bytes, k).

Definition UnixDatagram_write (bytes : list byte) (k : K) : ErrorOr Z * K :=
  let '(write_bytes, k) := send bytes k in
  if 0 <? write_bytes then (IsValue write_bytes, k)
  else (IsError (recoverableError "Currently busy"), k).
End stream.

Definition UnixDatagram_notify (mask : Z) (s : UnixIoStream) : UnixIoStream :=
  let s := if has_flag mask EPOLLOUT
           then mkUnixIoStream (read_ready s) (on_read_disconnect s) (feed_void (write_ready s))
           else s in
  if has_flag mask EPOLLIN
  then mkUnixIoStream (feed_void (read_ready s)) (on_read_disconnect s) (write_ready s)
  else s.

(** [UnixDatagram::readReady()] and [writeReady()] *)
Definition UnixDatagram_readReady (s : UnixIoStream) : UnixIoStream :=
  mkUnixIoStream (Some 0) (on_read_disconnect s) (write_ready s).
Definition UnixDatagram_writeReady (s : UnixIoStream) : UnixIoStream :=
  mkUnixIoStream (read_ready s) (on_read_disconnect s) (Some 0).

(** ** Signals *)
Inductive Signal := Terminate | User1.

#[global] Instance Signal_eq_dec : EqDecision Signal.
Proof. solve_decision. Defined.

Definition toUnixSignal (signal : Signal) : list Z :=
  match signal with User1 => [SIGUSR1] | Terminate => [SIGTERM; SIGQUIT; SIGINT] end.
Definition fromUnixSignal (signal : Z) : Signal :=
  if signal =? SIGUSR1 then User1 else Terminate.

(** An entry of [signal_conveyors]: the feeder, unless null, with its [space()]
    and how often it was fed. *)
Record listener := mkListener { key : Signal; feeder : option (Z * Z) }.

Definition notifySignalListener (sig : Z) (signal_conveyors : list listener)
  : list listener :=
  map (fun l =>
    if decide (key l = fromUnixSignal sig) then
      mkListener (key l)
        (match feeder l with
         | Some (space, fed) => if 0 <? space then Some (space - 1, fed + 1) else Some (space, fed)
         | None => None
         end)
    else l) signal_conveyors.

(** [UnixEventPort::onSignal]: the listeners and the set of signals that the
    signal descriptor accepts; [space] is that of the new feeder. *)
Definition onSignal (signal : Signal) (space : Z)
    (port : list listener * list Z) : list listener * list Z :=
  (fst port ++ [mkListener signal (Some (space, 0))], snd port ++ toUnixSignal signal).

(** ** [UnixEventPort::pollImpl] *)
Record epoll_event := mkEpollEvent { events : Z; data : Z }.

Section poll.
Context {K U : Type}.
(** [epoll_wait(maxevents, timeout)], [None] for an error; [read(signal_fd)] and
    [recv(pipefds[0])], [None] for a negative result; [owner->notify(mask)]. *)
Context (epoll_wait : Z -> Z -> K -> outcome (option (list epoll_event) * K)).
Context (read_signal : K -> option Z * K).
Context (recv_pipe : K -> option Z * K).
Context (pipe_open : bool).
Context (notify_owner : Z -> Z -> U -> U).
Context (notify_signal : Z -> U -> U).

(** The two [while (1)] loops. *)
Fixpoint drain_signals (fuel : nat) (k : K) (u : U) : outcome (K * U) :=
  match fuel with
  | O => Halt Diverges
  | S fuel =>
      match read_signal k with
      | (None, k) => Ret (k, u)
      | (Some signo, k) => drain_signals fuel k (notify_signal signo u)
      end
  end.
Fixpoint drain_pipe (fuel : nat) (k : K) : outcome K :=
  match fuel with
  | O => Halt Diverges
  | S fuel =>
      match recv_pipe k with
      | (None, k) => Ret k
      | (Some _, k) => drain_pipe fuel k
      end
  end.

Definition dispatch (fuel : nat) (ev : epoll_event) (k : K) (u : U) : outcome (K * U) :=
  if data ev =? 0 then drain_signals fuel k u
  else if data ev =? 1 then
    if pipe_open then k ← drain_pipe fuel k; Ret (k, u) else Ret (k, u)
  else Ret (k, notify_owner (data ev) (events ev) u).

Fixpoint dispatch_all (fuel : nat) (evs : list epoll_event) (k : K) (u : U)
  : outcome (K * U) :=
  match evs with
  | [] => Ret (k, u)
  | ev :: evs => '(k, u) ← dispatch fuel ev k u; dispatch_all fuel evs k u
  end.

(** [rounds] bounds the iterations of the outer loop, [fuel] those of the inner
    ones. *)
Fixpoint pollImpl (rounds fuel : nat) (time : Z) (k : K) (u : U) : outcome (bool * K * U) :=
  match rounds with
  | O => Halt Diverges
  | S rounds =>
      '(r, k) ← epoll_wait MAX_EPOLL_EVENTS time k;
      match r with
      | None => Ret (false, k, u)
      | Some evs =>
          '(k, u) ← dispatch_all fuel evs k u;
          if zlen evs =? MAX_EPOLL_EVENTS then pollImpl rounds fuel time k u
          else Ret (true, k, u)
      end
  end.
End poll.

(** ** Addresses *)
Definition beginsWith (viewed begins : string) : bool := String.prefix begins viewed.

(** The part of [UnixNetwork::parseAddress] in front of the resolver. *)
Definition address_to_parse (path : string) : string :=
  if beginsWith path "unix:" then String.substring 5 (String.length path - 5) path else path.

(** ** The descriptors of [UnixEventPort], and who subscribes to it *)
Record UnixEventPort := mkPort {
  epoll_fd : Z;
  signal_fd : Z;
  pipefds : option (Z * Z)   (* an [int] that was never set is [None] *)
}.

Section subscribe.
Context {K : Type}.
(** [epoll_add efd fd owner events] is [epoll_ctl(efd, EPOLL_CTL_ADD, fd)] with the
    events and the data of the entry, [epoll_del] that with [EPOLL_CTL_DEL]; both
    answer a negative number for an error, which the code does not look at. *)
Context (epoll_add : Z -> Z -> Z -> Z -> K -> Z * K) (epoll_del : Z -> Z -> K -> Z * K).

(** [owner] is the address of the [IFdOwner]. *)
Definition port_subscribe (p : UnixEventPort) (owner fd event_mask : Z) (k : K) : K :=
  if (epoll_fd p <? 0) || (fd <? 0) then k
  else (epoll_add (epoll_fd p) fd owner (Z.lor event_mask EPOLLET) k).2.
Definition port_unsubscribe (p : UnixEventPort) (fd : Z) (k : K) : K :=
  if (epoll_fd p <? 0) || (fd <? 0) then k else (epoll_del (epoll_fd p) fd k).2.
End subscribe.

(** ** Sockets: [UnixNetwork] *)
Section sockets.
Context {K A : Type}.
(** The system calls and [SocketAddress::bind]; [socket] answers a negative
    number for an error, [connect] 0 ([None]) or the error number. *)
Context (socket : A -> K -> Z * K) (setsockopt : Z -> K -> Z * K).
Context (bind : A -> Z -> K -> bool * K) (listen : Z -> K -> K).
Context (connect : Z -> A -> K -> option Z * K) (close : Z -> K -> K).
Context (epoll_add : Z -> Z -> Z -> Z -> K -> Z * K) (epoll_del : Z -> Z -> K -> Z * K).
Context (event_port : UnixEventPort).

(** The constructor and the destructor of [IFdOwner]; [owner] is the address that
    [heap] gave the object. *)
Definition IFdOwner_new (owner fd event_mask : Z) (k : K) : K :=
  port_subscribe epoll_add event_port owner fd event_mask k.
Definition IFdOwner_drop (fd : Z) (k : K) : K :=
  if 0 <=? fd then close fd (port_unsubscribe epoll_del event_port fd k) else k.

Definition UnixIoStream_new (owner fd event_mask : Z) (k : K) : K :=
  IFdOwner_new owner fd (Z.lor event_mask EPOLLRDHUP) k.
Definition UnixServer_new (owner fd : Z) (k : K) : K := IFdOwner_new owner fd EPOLLIN k.
Definition UnixDatagram_new (owner fd : Z) (k : K) : K :=
  IFdOwner_new owner fd (Z.lor EPOLLIN EPOLLOUT) k.

(** [UnixServer::accept()] replaces the feeder, which is the list of the streams
    it was fed, by their descriptors. *)
Definition UnixServer_accept (accept_feeder : option (list Z)) : option (list Z) := Some [].
Definition UnixServer_notify (accept4 : K -> Z * K) (owner mask : Z)
    (accept_feeder : option (list Z)) (k : K) : option (list Z) * K :=
  if has_flag mask EPOLLIN then
    match accept_feeder with
    | Some fed =>
        let '(accept_fd, k) := accept4 k in
        if accept_fd <? 0 then (Some fed, k)
        else (Some (fed ++ [accept_fd]),
              UnixIoStream_new owner accept_fd (Z.lor EPOLLIN EPOLLOUT) k)
    | None => (None, k)
    end
  else (accept_feeder, k).

(** [None] is [nullptr]; otherwise the descriptor that the server owns. *)
Definition UnixNetwork_listen (owner : Z) (addresses : list A) (k : K)
  : outcome (option Z * K) :=
  match addresses with
  | [] => Halt AssertionFailed
  | a :: _ =>
      let '(fd, k) := socket a k in
      if fd <? 0 then Ret (None, k)
      else
        let '(rc, k) := setsockopt fd k in
        if rc <? 0 then Ret (None, close fd k)
        else
          let '(failed, k) := bind a fd k in
          if failed : bool then Ret (None, close fd k)
          else Ret (Some fd, UnixServer_new owner fd (listen fd k))
  end.

(** The loop over the addresses; [io_stream] is destroyed on the error paths. *)
Fixpoint connect_loop (fd : Z) (addresses : list A) (k : K) : ErrorOr Z * K :=
  match addresses with
  | [] => (IsError (criticalError "Couldn't connect"), IFdOwner_drop fd k)
  | a :: addresses =>
      let '(status, k) := connect fd a k in
      match status with
      | None => (IsValue fd, k)
      | Some error =>
          if error =? EINPROGRESS then (IsValue fd, k)
          else if negb (error =? EINTR) then
            (IsError (criticalError "Couldn't connect"), IFdOwner_drop fd k)
          else connect_loop fd addresses k
      end
  end.

Definition UnixNetwork_connect (owner : Z) (addresses : list A) (k : K)
  : outcome (ErrorOr Z * K) :=
  match addresses with
  | [] => Halt AssertionFailed
  | a :: _ =>
      let '(fd, k) := socket a k in
      if fd <? 0 then Ret (IsError (criticalError "Couldn't open socket"), k)
      else Ret (connect_loop fd addresses (UnixIoStream_new owner fd (Z.lor EPOLLIN EPOLLOUT) k))
  end.

Definition UnixNetwork_datagram (owner : Z) (addresses : list A) (k : K)
  : outcome (option Z * K) :=
  match addresses with
  | [] => Halt AssertionFailed
  | a :: _ =>
      let '(fd, k) := socket a k in
      let '(rc, k) := setsockopt fd k in
      if rc <? 0 then Ret (None, close fd k)
      else
        let '(failed, k) := bind a fd k in
        if failed : bool then Ret (None, close fd k)
        else Ret (Some fd, UnixDatagram_new owner fd k)
  end.
End sockets.
