(* ===== verification/UnixTheory.v ===== *)
(** What the Unix driver promises, given what the documentation of the system
    calls says of them: reads and writes of an [AsyncIoStream] over a socket,
    the dispatch of everything that [epoll] has ready, the ownership of the
    descriptors, and which connections a server accepts. *)

From S2P Require Import Prelude Error.
From stdpp Require Import gmap list.
From S2P Require Import IoHelpers UnixIo.
#[local] Open Scope Z_scope.

(** ** Streams *)
Section read.
Context {K : Type} (recv : Z -> K -> Z * list byte * K).
(** The bytes that are yet to be received, and whether the peer has closed its
    side: [recv(2)] returns the length of what it stored, 0 for the end of the
    stream and a negative number for an error. *)
Context (source : K -> list byte) (closed : K -> Prop).

Definition recv_law : Prop := forall n k, 0 < n ->
  let '(rc, bytes, k') := recv n k in
  rc <= n /\
  (0 < rc -> zlen bytes = rc /\ source k = bytes ++ source k') /\
  (rc <= 0 -> bytes = [] /\ source k' = source k) /\ (rc = 0 -> closed k').

Definition read_fault (k : K) (e : Error) : Prop :=
  e = criticalError_code "Disconnected" Disconnected /\ closed k.

Lemma unix_read_spec : recv_law -> forall n k, 0 < n ->
  match UnixIoStream_read recv n k with
  | (IsValue m, bytes, k') => 0 < m <= n /\ zlen bytes = m /\ source k = bytes ++ source k'
  | (IsError e, bytes, k') =>
      bytes = [] /\ source k' = source k /\ (isCritical e = true -> read_fault k' e)
  end.
Proof.
  intros Hlaw n k Hn. specialize (Hlaw n k Hn). unfold UnixIoStream_read.
  destruct (recv n k) as [[rc bytes] k']. destruct Hlaw as (Hle&Hpos&Hneg&Hz).
  repeat bcase.
  - destruct (Hpos ltac:(lia)) as [? ?]. auto with lia.
  - destruct (Hneg ltac:(lia)) as [? ?]. split_and!; [done..|]. split; [done|]. apply Hz. lia.
  - destruct (Hneg ltac:(lia)) as [? ?]. split_and!; [done..|]. intros [=].
Qed.
End read.

Section write.
Context {K : Type} (send : list byte -> K -> Z * K) (errno : K -> Z).
(** The bytes that were sent; [send(2)] returns how many it took, from the
    front, or a negative number for an error. *)
Context (sunk : K -> list byte).

Definition send_law : Prop := forall bytes k, 0 < zlen bytes ->
  let '(rc, k') := send bytes k in
  rc <= zlen bytes /\
  (0 < rc -> sunk k' = sunk k ++ ztake rc bytes) /\ (rc <= 0 -> sunk k' = sunk k).

Definition write_fault (k : K) (e : Error) : Prop :=
  e = criticalError_code "Disconnected" Disconnected /\
  errno k <> EAGAIN /\ errno k <> EWOULDBLOCK.

Lemma unix_write_spec : send_law -> forall bytes k, 0 < zlen bytes ->
  match UnixIoStream_write send errno bytes k with
  | (IsValue n, k') => 0 < n <= zlen bytes /\ sunk k' = sunk k ++ ztake n bytes
  | (IsError e, k') => sunk k' = sunk k /\ (isCritical e = true -> write_fault k' e)
  end.
Proof.
  intros Hlaw bytes k Hn. specialize (Hlaw bytes k Hn). unfold UnixIoStream_write.
  destruct (send bytes k) as [rc k']. destruct Hlaw as (Hle&Hpos&Hneg).
  bcase; [split; [lia|apply Hpos; lia]|].
  destruct ((errno k' =? EAGAIN) || (errno k' =? EWOULDBLOCK)) eqn:He.
  - split; [apply Hneg; lia|]. intros [=].
  - apply orb_false_iff in He as [He1%Z.eqb_neq He2%Z.eqb_neq].
    split; [apply Hneg; lia|]. intros _. by split.
Qed.
End write.

(** ** Polling *)
Section poll.
Context {K U : Type}.
Context (epoll_wait : Z -> Z -> K -> outcome (option (list epoll_event) * K)).
Context (read_signal : K -> option Z * K) (recv_pipe : K -> option Z * K) (pipe_open : bool).
Context (notify_owner : Z -> Z -> U -> U) (notify_signal : Z -> U -> U).
(** The events that are ready, the signals and the bytes in the pipe that are
    yet to be read. *)
Context (ready : K -> list epoll_event) (signals : K -> list Z) (piped : K -> nat).

(** The system calls as documented; while the loop runs nothing new happens. *)
Record poll_laws : Prop := {
  epoll_wait_law : forall n time k, 0 < n ->
    if decide (time = -1 /\ ready k = []) then epoll_wait n time k = Halt Diverges
    else exists k', epoll_wait n time k = Ret (Some (ztake n (ready k)), k') /\
      ready k' = zdrop n (ready k) /\ signals k' = signals k /\ piped k' = piped k;
  read_signal_law : forall k, exists k', read_signal k = (head (signals k), k') /\
    ready k' = ready k /\ signals k' = tail (signals k) /\ piped k' = piped k;
  recv_pipe_law : forall k, exists k' r, recv_pipe k = (r, k') /\
    ready k' = ready k /\ signals k' = signals k /\
    match r with None => piped k' = piped k | Some _ => piped k = S (piped k') end
}.

(** What a sequence of events means, given the signals that are pending. *)
Fixpoint delivered (evs : list epoll_event) (sigs : list Z) (u : U) : list Z * U :=
  match evs with
  | [] => (sigs, u)
  | ev :: evs =>
      if data ev =? 0 then
        delivered evs [] (fold_left (fun u s => notify_signal s u) sigs u)
      else if data ev =? 1 then delivered evs sigs u
      else delivered evs sigs (notify_owner (data ev) (events ev) u)
  end.

Lemma delivered_app evs1 evs2 sigs u :
  delivered (evs1 ++ evs2) sigs u =
  let '(sigs', u') := delivered evs1 sigs u in delivered evs2 sigs' u'.
Proof.
  revert sigs u. induction evs1 as [|ev evs IH]; intros sigs u; cbn; [done|].
  repeat bcase; apply IH.
Qed.

Hypothesis laws : poll_laws.

Abbreviation drain_signals := (drain_signals read_signal notify_signal).
Abbreviation dispatch := (dispatch read_signal recv_pipe pipe_open notify_owner notify_signal).
Abbreviation dispatch_all :=
  (dispatch_all read_signal recv_pipe pipe_open notify_owner notify_signal).
Abbreviation pollImpl :=
  (pollImpl epoll_wait read_signal recv_pipe pipe_open notify_owner notify_signal).

Lemma drain_signals_all fuel k u :
  (List.length (signals k) < fuel)%nat ->
  exists k', drain_signals fuel k u =
      Ret (k', fold_left (fun u s => notify_signal s u) (signals k) u) /\
    ready k' = ready k /\ signals k' = [] /\ piped k' = piped k.
Proof.
  revert k u. induction fuel as [|fuel IH]; intros k u Hf; [lia|]. cbn [UnixIo.drain_signals].
  destruct (read_signal_law laws k) as (k1&->&Hr&Hs&Hp).
  destruct (signals k) as [|s sigs] eqn:E; cbn in *; [by exists k1|].
  destruct (IH k1 (notify_signal s u)) as (k2&->&?&?&?); [rewrite Hs; lia|].
  exists k2. rewrite Hs. split_and!; congruence.
Qed.

Lemma drain_pipe_all fuel k :
  (piped k < fuel)%nat ->
  exists k', drain_pipe recv_pipe fuel k = Ret k' /\
    ready k' = ready k /\ signals k' = signals k /\ (piped k' <= piped k)%nat.
Proof.
  revert k. induction fuel as [|fuel IH]; intros k Hf; [lia|]. cbn [drain_pipe].
  destruct (recv_pipe_law laws k) as (k1&[b|]&->&Hr&Hs&Hp); cbn in Hp.
  - destruct (IH k1) as (k2&->&?&?&?); [lia|]. exists k2. split_and!; (congruence || lia).
  - exists k1. split_and!; (done || lia).
Qed.

Lemma dispatch_one fuel ev k u :
  (List.length (signals k) < fuel)%nat -> (piped k < fuel)%nat ->
  exists k' u', dispatch fuel ev k u = Ret (k', u') /\ ready k' = ready k /\
    (piped k' <= piped k)%nat /\ delivered [ev] (signals k) u = (signals k', u').
Proof.
  intros Hs Hp. unfold UnixIo.dispatch, delivered. repeat bcase.
  - destruct (drain_signals_all fuel k u Hs) as (k1&->&?&E&?).
    exists k1. rewrite E. eexists. split_and!; (done || lia).
  - destruct pipe_open; [|by eauto 8].
    destruct (drain_pipe_all fuel k Hp) as (k1&->&?&E&?). rewrite bind_ret.
    exists k1, u. by rewrite E.
  - by eauto 8.
Qed.

Lemma delivered_fewer evs sigs u :
  (List.length (delivered evs sigs u).1 <= List.length sigs)%nat.
Proof.
  revert sigs u. induction evs as [|ev evs IH]; intros sigs u; cbn; [done|].
  repeat bcase; etrans; try apply IH; cbn; lia.
Qed.

Lemma dispatch_all_ok fuel evs k u :
  (List.length (signals k) < fuel)%nat -> (piped k < fuel)%nat ->
  exists k' u', dispatch_all fuel evs k u = Ret (k', u') /\ ready k' = ready k /\
    (piped k' <= piped k)%nat /\ delivered evs (signals k) u = (signals k', u').
Proof.
  revert k u. induction evs as [|ev evs IH]; intros k u Hs Hp; cbn [UnixIo.dispatch_all];
    [by eauto 8|].
  destruct (dispatch_one fuel ev k u Hs Hp) as (k1&u1&->&Hr&Hp1&Hd). rewrite bind_ret.
  pose proof (delivered_fewer [ev] (signals k) u) as Hf. rewrite Hd in Hf. cbn [fst] in Hf.
  destruct (IH k1 u1) as (k2&u2&->&?&?&Hd2); [lia..|].
  exists k2, u2. split_and!; [done|congruence|lia|].
  change (ev :: evs) with ([ev] ++ evs). by rewrite delivered_app, Hd.
Qed.

(** Whether the last call of [epoll_wait] finds nothing and waits for ever. *)
Definition blocks (time : Z) (evs : list epoll_event) : bool :=
  (time =? -1) && (zlen evs mod MAX_EPOLL_EVENTS =? 0).

Lemma blocks_drop time evs :
  MAX_EPOLL_EVENTS <= zlen evs ->
  blocks time (zdrop MAX_EPOLL_EVENTS evs) = blocks time evs.
Proof.
  intros H. unfold blocks. rewrite zlen_drop by (unfold MAX_EPOLL_EVENTS in *; lia).
  do 2 f_equal. unfold MAX_EPOLL_EVENTS in *.
  rewrite <- (Z_mod_plus_full (zlen evs - 256) 1 256). f_equal. lia.
Qed.

Lemma pollImpl_result rounds fuel time k u :
  zlen (ready k) < Z.of_nat rounds * MAX_EPOLL_EVENTS ->
  (List.length (signals k) < fuel)%nat -> (piped k < fuel)%nat ->
  if blocks time (ready k) then pollImpl rounds fuel time k u = Halt Diverges
  else exists k' u', pollImpl rounds fuel time k u = Ret (true, k', u') /\
    ready k' = [] /\ delivered (ready k) (signals k) u = (signals k', u').
Proof.
  revert k u. induction rounds as [|rounds IH]; intros k u Hr Hs Hp.
  { pose proof (zlen_nonneg (ready k)). lia. }
  cbn [UnixIo.pollImpl].
  pose proof (epoll_wait_law laws MAX_EPOLL_EVENTS time k ltac:(done)) as Hw.
  destruct (decide (time = -1 /\ ready k = [])) as [[-> E]|Hne].
  { rewrite Hw. by rewrite E. }
  destruct Hw as (k1&->&Hr1&Hs1&Hp1). rewrite bind_ret.
  destruct (dispatch_all_ok fuel (ztake MAX_EPOLL_EVENTS (ready k)) k1 u)
    as (k2&u2&->&Hr2&Hp2&Hd2); [rewrite Hs1; lia|lia|].
  rewrite bind_ret. rewrite Hr1 in Hr2. rewrite Hs1 in Hd2.
  pose proof (delivered_fewer (ztake MAX_EPOLL_EVENTS (ready k)) (signals k) u) as Hf.
  rewrite Hd2 in Hf. cbn [fst] in Hf.
  assert (Hall : forall s v, delivered (ready k2) (signals k2) u2 = (s, v) ->
    delivered (ready k) (signals k) u = (s, v)).
  { intros s v Hd. rewrite <- (ztake_drop MAX_EPOLL_EVENTS (ready k)), delivered_app, Hd2.
    by rewrite <- Hr2. }
  destruct (Z.le_gt_cases MAX_EPOLL_EVENTS (zlen (ready k))) as [Hge|Hlt].
  - rewrite zlen_take by (unfold MAX_EPOLL_EVENTS in *; lia). rewrite Z.eqb_refl.
    specialize (IH k2 u2). rewrite <- (blocks_drop time) by done. rewrite <- Hr2.
    assert (Hl : zlen (ready k2) < Z.of_nat rounds * MAX_EPOLL_EVENTS).
    { rewrite Hr2, zlen_drop by (unfold MAX_EPOLL_EVENTS in *; lia). lia. }
    specialize (IH Hl ltac:(lia) ltac:(lia)).
    destruct (blocks time (ready k2)); [done|].
    destruct IH as (k3&u3&->&?&?). eauto 6.
  - rewrite ztake_all, zdrop_all in * by lia.
    destruct (Z.eqb_spec (zlen (ready k)) MAX_EPOLL_EVENTS) as [|_]; [lia|].
    assert (blocks time (ready k) = false) as ->.
    { unfold blocks. destruct (Z.eqb_spec time (-1)) as [->|]; [|done]. cbn [andb].
      rewrite Z.mod_small by (split; [apply zlen_nonneg|done]). apply Z.eqb_neq.
      intros Hz. apply Hne. split; [done|]. apply zlen_zero; lia. }
    exists k2, u2. split_and!; [done..|]. auto.
Qed.

(** Polling keeps what the system calls keep. *)
Context (P : K -> Prop).
Context (epoll_keeps : forall n time k r k', P k -> epoll_wait n time k = Ret (r, k') -> P k').
Context (signal_keeps : forall k, P k -> P (read_signal k).2).
Context (pipe_keeps : forall k, P k -> P (recv_pipe k).2).

Lemma drain_signals_keeps fuel k u k' u' :
  P k -> drain_signals fuel k u = Ret (k', u') -> P k'.
Proof.
  revert k u. induction fuel as [|fuel IH]; intros k u HP; cbn [UnixIo.drain_signals]; [done|].
  pose proof (signal_keeps k HP) as HP'. destruct (read_signal k) as [[s|] k1]; [by apply IH|].
  by intros [= <- _].
Qed.

Lemma drain_pipe_keeps fuel k k' : P k -> drain_pipe recv_pipe fuel k = Ret k' -> P k'.
Proof.
  revert k. induction fuel as [|fuel IH]; intros k HP; cbn [drain_pipe]; [done|].
  pose proof (pipe_keeps k HP) as HP'. destruct (recv_pipe k) as [[s|] k1]; [by apply IH|].
  by intros [= <-].
Qed.

Lemma dispatch_all_keeps fuel evs k u k' u' :
  P k -> dispatch_all fuel evs k u = Ret (k', u') -> P k'.
Proof.
  revert k u. induction evs as [|ev evs IH]; intros k u HP; cbn [UnixIo.dispatch_all].
  { by intros [= <- _]. }
  intros ([k1 u1]&Hd&Hr)%bind_Ret_inv. apply (IH k1 u1); [|done]. revert Hd.
  unfold UnixIo.dispatch. repeat bcase.
  - by apply drain_signals_keeps.
  - destruct pipe_open; [|by intros [= <- _]].
    intros (k2&Hp&[= <- _])%bind_Ret_inv. by eapply drain_pipe_keeps.
  - by intros [= <- _].
Qed.

Lemma pollImpl_keeps rounds fuel time k u r k' u' :
  P k -> pollImpl rounds fuel time k u = Ret (r, k', u') -> P k'.
Proof.
  revert k u. induction rounds as [|rounds IH]; intros k u HP; cbn [UnixIo.pollImpl]; [done|].
  intros ([evs k1]&Hw&Hr)%bind_Ret_inv. apply (epoll_keeps _ _ _ _ _ HP) in Hw.
  cbn beta iota in Hr. destruct evs as [evs|]; [|by injection Hr as _ <- _].
  apply bind_Ret_inv in Hr as ([k2 u2]&Hd&Hr). cbn beta iota in Hr.
  apply (dispatch_all_keeps _ _ _ _ _ _ Hw) in Hd.
  destruct (_ =? _); [by apply (IH k2 u2)|]. by injection Hr as _ <- _.
Qed.
End poll.

(** ** Descriptors *)
Section sockets.
Context {K A : Type}.
Context (socket : A -> K -> Z * K) (setsockopt : Z -> K -> Z * K).
Context (bind : A -> Z -> K -> bool * K) (listen : Z -> K -> K).
Context (connect : Z -> A -> K -> option Z * K) (close : Z -> K -> K).
Context (epoll_add : Z -> Z -> Z -> Z -> K -> Z * K) (epoll_del : Z -> Z -> K -> Z * K).
Context (event_port : UnixEventPort) (owner : Z).
(** The descriptors that are open, and those that [epoll] watches. *)
Context (opened watched : K -> gset Z).

Definition unchanged (k k' : K) : Prop := opened k' = opened k /\ watched k' = watched k.

(** The system calls as documented: a new descriptor was not open, closing one
    also ends watching it, a number that is not open is refused.  [epoll_ctl] may
    fail, and then changes nothing. *)
Record socket_laws : Prop := {
  opened_nonneg : forall k fd, (fd ∈ opened k) -> 0 <= fd;
  watched_opened : forall k, watched k ⊆ opened k;
  socket_law : forall a k, let '(fd, k') := socket a k in
    if fd <? 0 then unchanged k k'
    else (fd ∉ opened k) /\ opened k' = {[fd]} ∪ opened k /\ watched k' = watched k;
  setsockopt_law : forall fd k, let '(rc, k') := setsockopt fd k in
    unchanged k k' /\ ((fd ∉ opened k) -> rc < 0);
  bind_law : forall a fd k, unchanged k (bind a fd k).2;
  listen_law : forall fd k, unchanged k (listen fd k);
  connect_law : forall fd a k, unchanged k (connect fd a k).2;
  close_law : forall fd k, opened (close fd k) = opened k ∖ {[fd]} /\
    watched (close fd k) = watched k ∖ {[fd]};
  add_law : forall efd fd data events k, let '(rc, k') := epoll_add efd fd data events k in
    opened k' = opened k /\
    watched k' = if rc <? 0 then watched k else {[fd]} ∪ watched k;
  del_law : forall efd fd k, let '(rc, k') := epoll_del efd fd k in
    opened k' = opened k /\
    watched k' = if rc <? 0 then watched k else watched k ∖ {[fd]}
}.

(** The descriptor [fd] was opened since [k], and is not watched. *)
Definition opened_in (fd : Z) (k k' : K) : Prop :=
  0 <= fd /\ (fd ∉ opened k) /\ opened k' = {[fd]} ∪ opened k /\ watched k' = watched k.

(** Whether [epoll] accepts [fd] with the events [mask] from the state [k]: the port
    has an [epoll] descriptor and [epoll_ctl] succeeds. *)
Definition accepted_by_epoll (mask fd : Z) (k : K) : bool :=
  (0 <=? epoll_fd event_port) &&
  (0 <=? (epoll_add (epoll_fd event_port) fd owner (Z.lor mask EPOLLET) k).1).

(** What a call may do to the descriptors: the one it answers is new and open, was
    offered to [epoll] for the events [mask] once it was, and is watched if [epoll]
    took it; a call that fails leaves nothing behind. *)
Definition owns (mask : Z) (result : option Z) (k k' : K) : Prop :=
  match result with
  | Some fd => 0 <= fd /\ (fd ∉ opened k) /\ opened k' = {[fd]} ∪ opened k /\
      exists k1, opened_in fd k k1 /\
        watched k' = if accepted_by_epoll mask fd k1 then {[fd]} ∪ watched k else watched k
  | None => unchanged k k'
  end.

(** The descriptor [fd] was opened since [k], and possibly watched. *)
Definition fresh_in (fd : Z) (k k' : K) : Prop :=
  0 <= fd /\ (fd ∉ opened k) /\ opened k' = {[fd]} ∪ opened k /\
  watched k ⊆ watched k' ⊆ {[fd]} ∪ watched k.

Hypothesis laws : socket_laws.

Lemma unchanged_fresh fd k k1 k2 : unchanged k1 k2 -> fresh_in fd k k1 -> fresh_in fd k k2.
Proof. intros [E1 E2]. unfold fresh_in. by rewrite E1, E2. Qed.

Lemma unchanged_opened fd k k1 k2 : unchanged k1 k2 -> opened_in fd k k1 -> opened_in fd k k2.
Proof. intros [E1 E2]. unfold opened_in. by rewrite E1, E2. Qed.

Lemma opened_fresh fd k k' : opened_in fd k k' -> fresh_in fd k k'.
Proof. intros (?&?&?&E). split_and!; (done || rewrite E; set_solver). Qed.

Lemma fresh_close fd k k' : fresh_in fd k k' -> unchanged k (close fd k').
Proof.
  intros (?&?&E&H). destruct (close_law laws fd k') as [E1 E2].
  pose proof (watched_opened laws k). unfold unchanged. rewrite E1, E2, E. set_solver.
Qed.

Lemma fresh_drop fd k k' :
  fresh_in fd k k' -> unchanged k (IFdOwner_drop close epoll_del event_port fd k').
Proof.
  intros Hf. unfold IFdOwner_drop, port_unsubscribe.
  destruct (Z.leb_spec 0 fd) as [Hfd|]; [|destruct Hf; lia].
  apply fresh_close. destruct (_ || _); [done|].
  destruct Hf as (?&Hn&E&Hw). pose proof (del_law laws (epoll_fd event_port) fd k') as Hd.
  destruct (epoll_del _ fd k') as [rc k2]. destruct Hd as [E1 E2].
  pose proof (watched_opened laws k). unfold fresh_in. cbn [snd]. rewrite E1, E2.
  destruct (rc <? 0); [done|]. split_and!; [done..|set_solver|set_solver].
Qed.

Lemma opened_own mask fd k k' :
  opened_in fd k k' -> owns mask (Some fd) k (IFdOwner_new epoll_add event_port owner fd mask k').
Proof.
  intros Hin. pose proof Hin as (Hfd&Hn&E&Hw). unfold owns, IFdOwner_new, port_subscribe.
  pose proof (add_law laws (epoll_fd event_port) fd owner (Z.lor mask EPOLLET) k') as Ha.
  assert (Ht : accepted_by_epoll mask fd k' =
    (0 <=? epoll_fd event_port) &&
    (0 <=? (epoll_add (epoll_fd event_port) fd owner (Z.lor mask EPOLLET) k').1)) by done.
  destruct (epoll_add _ fd owner _ k') as [rc k2]. destruct Ha as [E1 E2]. cbn [fst] in Ht.
  destruct (Z.ltb_spec (epoll_fd event_port) 0) as [Hp|Hp]; cbn [orb].
  { split_and!; [done..|]. exists k'. split; [done|].
    rewrite Ht. by destruct (Z.leb_spec 0 (epoll_fd event_port)) as [|_]; [lia|]. }
  destruct (Z.ltb_spec fd 0) as [|_]; [lia|]. cbn [snd]. rewrite E1, E2.
  split_and!; [done..|]. exists k'. split; [done|].
  rewrite Ht, <- Hw. destruct (Z.leb_spec 0 (epoll_fd event_port)) as [_|]; [|lia].
  by destruct (Z.ltb_spec rc 0), (Z.leb_spec 0 rc); try lia.
Qed.

Lemma owns_unchanged mask r k k1 k2 : unchanged k1 k2 -> owns mask r k k1 -> owns mask r k k2.
Proof. intros [E1 E2]. unfold owns, unchanged. by rewrite E1, E2. Qed.

Lemma owns_fresh mask fd k k' : owns mask (Some fd) k k' -> fresh_in fd k k'.
Proof.
  intros (?&?&?&k1&_&E). split_and!; [done..| |]; rewrite E; destruct (accepted_by_epoll _ _ _);
    set_solver.
Qed.

Lemma socket_opened a k fd k' :
  socket a k = (fd, k') -> 0 <= fd -> opened_in fd k k'.
Proof.
  intros E Hfd. pose proof (socket_law laws a k) as H. rewrite E in H.
  destruct (Z.ltb_spec fd 0) as [|_]; [lia|]. by destruct H as (?&?&?).
Qed.

(** Closing a number that is not a descriptor does nothing. *)
Lemma close_unopened fd k k1 :
  fd < 0 -> unchanged k k1 ->
  (fd ∉ opened k1) /\ forall k2, unchanged k1 k2 -> unchanged k (close fd k2).
Proof.
  intros Hfd [E1 E2].
  assert (Hn : fd ∉ opened k1) by (intros Hin%(opened_nonneg laws); lia).
  split; [done|]. intros k2 [E3 E4]. destruct (close_law laws fd k2) as [E5 E6].
  pose proof (watched_opened laws k1). unfold unchanged.
  rewrite E5, E6, E3, E4, <- E1, <- E2. set_solver.
Qed.

Definition answer (r : ErrorOr Z) : option Z :=
  match r with IsValue fd => Some fd | IsError _ => None end.

Lemma connect_loop_owns mask fd addresses k0 k :
  owns mask (Some fd) k0 k ->
  let '(r, k') := connect_loop connect close epoll_del event_port fd addresses k in
  owns mask (answer r) k0 k' /\ (r = IsValue fd \/ r = IsError (criticalError "Couldn't connect")).
Proof.
  revert k. induction addresses as [|a addresses IH]; intros k Ho; cbn.
  { split; [|auto]. by eapply fresh_drop, owns_fresh. }
  pose proof (connect_law laws fd a k) as Hc.
  destruct (connect fd a k) as [[error|] k1]; cbn in Hc.
  - repeat bcase; cbn.
    + split; [|auto]. by apply (owns_unchanged mask (Some fd) k0 k).
    + apply IH. by apply (owns_unchanged mask (Some fd) k0 k).
    + split; [|auto]. eapply fresh_drop, owns_fresh. by apply (owns_unchanged mask (Some fd) k0 k).
  - split; [|auto]. by apply (owns_unchanged mask (Some fd) k0 k).
Qed.
End sockets.

(** ** A server

    [pending] are the descriptors that [accept4] will answer; a batch of
    connections that arrive together is one notification, since the descriptor of
    a server is edge triggered. *)
Section server.
Context {K : Type} (accept4 : K -> Z * K).
Context (epoll_add : Z -> Z -> Z -> Z -> K -> Z * K) (event_port : UnixEventPort).
(** [address] is what [heap] gives the next stream. *)
Context (address : K -> Z) (arrive : list Z -> K -> K) (pending : K -> list Z).

Record server_laws := {
  accept_law : forall k, match pending k with
    | [] => (accept4 k).1 < 0 /\ pending (accept4 k).2 = []
    | fd :: rest => (accept4 k).1 = fd /\ pending (accept4 k).2 = rest
    end;
  arrive_law : forall fds k, pending (arrive fds k) = pending k ++ fds;
  add_pending : forall efd fd data events k,
    pending (epoll_add efd fd data events k).2 = pending k
}.

Fixpoint serve (batches : list (list Z)) (accept_feeder : option (list Z)) (k : K)
  : option (list Z) * K :=
  match batches with
  | [] => (accept_feeder, k)
  | fds :: batches =>
      let k := arrive fds k in
      let '(accept_feeder, k) :=
        UnixServer_notify epoll_add event_port accept4 (address k) EPOLLIN accept_feeder k in
      serve batches accept_feeder k
  end.

Hypothesis laws : server_laws.

Lemma UnixServer_notify_one owner fed k fd rest :
  pending k = fd :: rest -> 0 <= fd ->
  let '(fed', k') :=
    UnixServer_notify epoll_add event_port accept4 owner EPOLLIN (Some fed) k in
  fed' = Some (fed ++ [fd]) /\ pending k' = rest.
Proof.
  intros Hp Hfd. pose proof (accept_law laws k) as H. rewrite Hp in H.
  unfold UnixServer_notify. destruct (accept4 k) as [accept_fd k']. destruct H as [Ha H].
  cbn in Ha, H. subst accept_fd. cbn [has_flag EPOLLIN Z.land Pos.land negb Z.eqb].
  destruct (Z.ltb_spec fd 0) as [|_]; [lia|]. split; [done|].
  unfold UnixIoStream_new, IFdOwner_new, port_subscribe. destruct (_ || _); [done|].
  by rewrite (add_pending laws).
Qed.

Lemma serve_accepts batches fed k :
  Forall (fun fds => fds <> [] /\ Forall (Z.le 0) fds) batches -> Forall (Z.le 0) (pending k) ->
  let '(fed', k') := serve batches (Some fed) k in
  fed' = Some (fed ++ take (List.length batches) (pending k ++ concat batches)) /\
  pending k' = drop (List.length batches) (pending k ++ concat batches).
Proof.
  intros Hb. revert fed k. induction Hb as [|fds batches [Hne Hf] Hb IH]; intros fed k Hp.
  { by rewrite !app_nil_r. }
  cbn [serve concat List.length]. pose proof (arrive_law laws fds k) as Ha.
  assert (Forall (Z.le 0) (pending (arrive fds k))) as Hall by (rewrite Ha; by apply Forall_app).
  rewrite app_assoc, <- Ha.
  destruct (pending (arrive fds k)) as [|fd rest] eqn:E; [by destruct (pending k), fds|].
  apply Forall_cons in Hall as [Hfd Hrest].
  pose proof (UnixServer_notify_one (address (arrive fds k)) fed _ fd rest E Hfd) as H.
  destruct (UnixServer_notify _ _ _ _ _ _ _) as [fed1 k1]. destruct H as [-> <-].
  specialize (IH (fed ++ [fd]) k1 Hrest). destruct (serve batches _ k1) as [fed2 k2].
  destruct IH as [-> ->]. cbn [app take drop]. by rewrite <- app_assoc.
Qed.

(** A server accepts the connections in the order they came, each one once, but
    only as many as there were notifications: of connections that arrive together
    all but one wait for later ones to arrive. *)
Lemma server_accepts batches fed k :
  Forall (fun fds => fds <> [] /\ Forall (Z.le 0) fds) batches -> pending k = [] ->
  let '(fed', k') := serve batches (UnixServer_accept fed) k in
  fed' = Some (take (List.length batches) (concat batches)) /\
  pending k' = drop (List.length batches) (concat batches).
Proof.
  intros Hb Hp. pose proof (serve_accepts batches [] k Hb) as H. rewrite Hp in H. by apply H.
Qed.
End server.

(** Three connections at once and a fourth one later: two are accepted. *)
Definition backlog_accept4 (k : list Z) : Z * list Z :=
  match k with [] => (-1, []) | fd :: k => (fd, k) end.
Definition backlog_arrive (fds k : list Z) : list Z := k ++ fds.

Lemma backlog_laws :
  server_laws backlog_accept4 (fun _ _ _ _ k => (0, k)) backlog_arrive (fun k => k).
Proof. split; [by intros []|done|done]. Qed.

Example server_keeps_waiting :
  serve backlog_accept4 (fun _ _ _ _ k => (0, k)) (mkPort 3 4 None) (fun _ => 64)
    backlog_arrive [[5; 6; 7]; [8]]
    (UnixServer_accept None) [] = (Some [5; 6], [7; 8]).
Proof. reflexivity. Qed.

(** ** Properties *)

(** A read of [mn] to [mx] bytes through an [AsyncIoStream] over a socket, begun and
    carried on by any number of readiness notifications: the caller's memory
    holds exactly the bytes that were received, in order; the task is pending with
    fewer than [mn] of them, or was answered once: with their number, or with
    the error [Disconnected], and then the peer has closed its side. *)
Lemma unix_async_read {K} (recv : Z -> K -> Z * list byte * K)
    (source : K -> list byte) (closed : K -> Prop)
    (k : nat) (memory : list byte) (b mn mx : Z) (h : ReadHelper) (r : K) :
  recv_law recv source closed ->
  0 <= b -> 0 < mn <= mx -> b + mx <= zlen memory -> mx < size_mod -> read_task h = None ->
  exists h' r' bytes,
    ('(h, r) ← AsyncIoStream_read (UnixIoStream_read recv) memory b mn mx h r;
     readSteps (UnixIoStream_read recv) k h r) = Ret (h', r') /\
    source r = bytes ++ source r' /\ zlen bytes <= mx /\
    read_memory h' = list_inserts (Z.to_nat b) bytes memory /\
    match read_task h' with
    | Some task => zlen bytes < mn /\ read_done h' = read_done h
    | None =>
        (mn <= zlen bytes /\ read_done h' = notify (Fed (zlen bytes)) (read_done h)) \/
        (closed r' /\ read_done h' =
           notify (Failed (criticalError_code "Disconnected" Disconnected)) (read_done h))
    end.
Proof.
  intros Hlaw Hb Hm Hmem Hsz Hnone.
  destruct (async_read_inv _ source (read_fault closed) (unix_read_spec recv source closed Hlaw)
    k memory b mn mx h r Hb Hm Hmem Hsz Hnone) as (h2&r2&->&(bytes&Hs&Hl&Hmm&Ht)).
  exists h2, r2, bytes. split_and!; try done.
  destruct (read_task h2) as [task|]; [by destruct Ht as (_&?&?)|].
  destruct Ht as [?|(e&_&[-> ?]&?)]; auto.
Qed.

(** A socket for the witnesses: the chunks that arrive, [None] for "nothing
    yet"; after them the peer closes. *)
Definition demo_recv (n : Z) (k : list (list byte)) : Z * list byte * list (list byte) :=
  match k with
  | [] => (0, [], [])
  | [] :: k => (-1, [], k)
  | c :: k => if zlen c <=? n then (zlen c, c, k) else (n, ztake n c, zdrop n c :: k)
  end.

Lemma demo_recv_law : recv_law demo_recv (@concat byte) (fun k => k = []).
Proof.
  intros n [|[|x c] k] Hn; cbn [demo_recv].
  - split_and!; (done || lia).
  - split_and!; (done || lia).
  - pose proof (zlen_nonneg c). pose proof (zlen_cons x c). bcase.
    + split_and!; (done || lia).
    + split_and!; [lia| |lia|lia]. intros _. rewrite zlen_take by lia. split; [done|].
      cbn [concat]. by rewrite app_assoc, ztake_drop.
Qed.

Lemma unix_async_read_witness :
  let chunks := [[x61; x62]; []; [x63]] in
  exists h' r' bytes,
    ('(h, r) ← AsyncIoStream_read (UnixIoStream_read demo_recv) (replicate 8 x00) 2 4 6
       (mkReadHelper None (Some []) []) chunks;
     readSteps (UnixIoStream_read demo_recv) 2 h r) = Ret (h', r') /\
    concat chunks = bytes ++ concat r' /\ zlen bytes <= 6 /\
    read_memory h' = list_inserts 2 bytes (replicate 8 x00) /\
    match read_task h' with
    | Some task => zlen bytes < 4 /\ read_done h' = Some []
    | None =>
        (4 <= zlen bytes /\ read_done h' = Some [Fed (zlen bytes)]) \/
        (r' = [] /\ read_done h' =
           Some [Failed (criticalError_code "Disconnected" Disconnected)])
    end.
Proof.
  apply (unix_async_read demo_recv (@concat byte) (fun k => k = []) 2 (replicate 8 x00) 2 4 6
    (mkReadHelper None (Some []) []) [[x61; x62]; []; [x63]]).
  - apply demo_recv_law.
  - lia.
  - lia.
  - vm_compute. discriminate.
  - reflexivity.
  - reflexivity.
Defined.

(** A write through an [AsyncIoStream] over a socket, begun and carried on by any number
    of readiness notifications: the socket has sent a beginning of the data, in
    order, without a gap or repetition; the feeder is told the whole length exactly when
    all of it was sent, or [Disconnected] when [send] failed with anything but
    [EAGAIN] (an interrupted call included); otherwise the task is pending. *)
Lemma unix_async_write {K} (send : list byte -> K -> Z * K) (errno : K -> Z)
    (sunk : K -> list byte)
    (k : nat) (memory data : list byte) (b : Z) (h : WriteHelper) (w : K) :
  send_law send sunk ->
  0 <= b -> 0 < zlen data < size_mod -> b + zlen data <= zlen memory ->
  ztake (zlen data) (zdrop b memory) = data -> write_task h = None ->
  exists h' w' n,
    ('(h, w) ← AsyncIoStream_write (UnixIoStream_write send errno) memory b (zlen data) h w;
     writeSteps (UnixIoStream_write send errno) k h w) = Ret (h', w') /\
    sunk w' = sunk w ++ ztake n data /\ 0 <= n <= zlen data /\ write_memory h' = memory /\
    match write_task h' with
    | Some task => n < zlen data /\ write_done h' = write_done h
    | None =>
        (n = zlen data /\ write_done h' = notify (Fed (zlen data)) (write_done h)) \/
        (errno w' <> EAGAIN /\ write_done h' =
           notify (Failed (criticalError_code "Disconnected" Disconnected)) (write_done h))
    end.
Proof.
  intros Hlaw Hb Hd Hmem Hdata Hnone.
  destruct (async_write_inv _ sunk (write_fault errno) (unix_write_spec send errno sunk Hlaw)
    k memory data b h w Hb Hd Hmem Hdata Hnone) as (h2&w2&->&(n&Hn&Hs&Hmm&Ht)).
  rewrite Z.sub_0_r, zdrop_0 in Hs by lia.
  exists h2, w2, n. split_and!; try done; try lia.
  destruct (write_task h2) as [task|]; [by destruct Ht as (_&?&?)|].
  destruct Ht as [[-> ?]|(e&_&(->&?&_)&?)]; auto.
Qed.

(** A socket that takes two bytes per call, and is interrupted when it has
    taken three of them; the state holds the bytes and [errno]. *)
Definition demo_send (bytes : list byte) (w : list byte * Z) : Z * (list byte * Z) :=
  if zlen w.1 <? 3 then (Z.min 2 (zlen bytes), (w.1 ++ ztake 2 bytes, w.2))
  else (-1, (w.1, EINTR)).

Lemma demo_send_law : send_law demo_send fst.
Proof.
  intros bytes w Hb. unfold demo_send. bcase; cbn [fst]; [|split_and!; (done || lia)].
  split_and!; [lia| |lia]. intros _. f_equal. unfold ztake, zlen.
  destruct (Z.min_spec 2 (Z.of_nat (List.length bytes))) as [[_ ->]|[? ->]]; [done|].
  rewrite !take_ge by lia. done.
Qed.

Lemma unix_async_write_witness :
  let data := [x61; x62; x63; x64; x65] in
  exists h' w' n,
    ('(h, w) ← AsyncIoStream_write (UnixIoStream_write demo_send snd) data 0 (zlen data)
       (mkWriteHelper None (Some []) []) ([], 0);
     writeSteps (UnixIoStream_write demo_send snd) 1 h w) = Ret (h', w') /\
    fst w' = ztake n data /\ 0 <= n <= zlen data /\ write_memory h' = data /\
    match write_task h' with
    | Some task => n < zlen data /\ write_done h' = Some []
    | None =>
        (n = zlen data /\ write_done h' = Some [Fed (zlen data)]) \/
        (snd w' <> EAGAIN /\ write_done h' =
           Some [Failed (criticalError_code "Disconnected" Disconnected)])
    end.
Proof.
  apply (unix_async_write demo_send snd fst 1 [x61; x62; x63; x64; x65] [x61; x62; x63; x64; x65]
    0 (mkWriteHelper None (Some []) []) ([], 0)).
  - apply demo_send_law.
  - lia.
  - vm_compute. by split.
  - vm_compute. discriminate.
  - reflexivity.
  - reflexivity.
Defined.

(** C14: [pollImpl] with a time of 0 ([poll]) or more (the timed waits) returns
    and, with time -1 ([wait]), returns unless a positive multiple of 256 events, or none, are ready - it
    then blocks, although it has dispatched events: every ready event
    is dispatched exactly once and in order, the pending signals at the first
    event of the signal descriptor, nothing stays ready. *)
Theorem unix_poll_delivers {K U}
    (epoll_wait : Z -> Z -> K -> outcome (option (list epoll_event) * K))
    (read_signal recv_pipe : K -> option Z * K) (pipe_open : bool)
    (notify_owner : Z -> Z -> U -> U) (notify_signal : Z -> U -> U)
    (ready : K -> list epoll_event) (signals : K -> list Z) (piped : K -> nat)
    (rounds fuel : nat) (time : Z) (k : K) (u : U) :
  poll_laws epoll_wait read_signal recv_pipe ready signals piped ->
  -1 <= time ->
  zlen (ready k) < Z.of_nat rounds * MAX_EPOLL_EVENTS ->
  (List.length (signals k) < fuel)%nat -> (piped k < fuel)%nat ->
  let run := pollImpl epoll_wait read_signal recv_pipe pipe_open notify_owner notify_signal
               rounds fuel time k u in
  if (time =? -1) && (zlen (ready k) mod MAX_EPOLL_EVENTS =? 0) then run = Halt Diverges
  else exists k' u', run = Ret (true, k', u') /\ ready k' = [] /\
    delivered notify_owner notify_signal (ready k) (signals k) u = (signals k', u').
Proof. intros Hlaws _ Hr Hs Hp run. by apply pollImpl_result with piped. Qed.

(** A kernel for the witness: what is ready, the signals and the pipe. *)
Definition demo_epoll (n time : Z) (k : list epoll_event * list Z * nat)
  : outcome (option (list epoll_event) * (list epoll_event * list Z * nat)) :=
  let '(evs, sigs, p) := k in
  if decide (time = -1 /\ evs = []) then Halt Diverges
  else Ret (Some (ztake n evs), (zdrop n evs, sigs, p)).
Definition demo_signal (k : list epoll_event * list Z * nat) :=
  let '(evs, sigs, p) := k in (head sigs, (evs, tail sigs, p)).
Definition demo_pipe (k : list epoll_event * list Z * nat) :=
  let '(evs, sigs, p) := k in
  match p with O => (None, k) | S p => (Some 0, (evs, sigs, p)) end.

Lemma demo_poll_laws :
  poll_laws demo_epoll demo_signal demo_pipe (fun k => k.1.1) (fun k => k.1.2) snd.
Proof.
  split.
  - intros n time [[evs sigs] p] _. cbn. destruct (decide _); [done|]. by eexists (_, _, _).
  - intros [[evs sigs] p]. by eexists (_, _, _).
  - intros [[evs sigs] [|p]]; cbn; by eexists (_, _, _), _.
Qed.

Lemma unix_poll_delivers_witness :
  let evs := [mkEpollEvent 1 7; mkEpollEvent 1 0; mkEpollEvent 1 1; mkEpollEvent 4 9] in
  let seen x u := u ++ [x] in
  exists k' u',
    pollImpl demo_epoll demo_signal demo_pipe true (fun d m => seen (d, m))
      (fun s => seen (0, s)) 1 3 (-1) (evs, [10; 15], 2%nat) [] = Ret (true, k', u') /\
    k'.1.1 = [] /\
    delivered (fun d m => seen (d, m)) (fun s => seen (0, s)) evs [10; 15] [] = (k'.1.2, u').
Proof.
  apply (unix_poll_delivers demo_epoll demo_signal demo_pipe true
    (fun d m u => u ++ [(d, m)]) (fun s u => u ++ [(0, s)])
    (fun k => k.1.1) (fun k => k.1.2) snd 1 3 (-1)
    ([mkEpollEvent 1 7; mkEpollEvent 1 0; mkEpollEvent 1 1; mkEpollEvent 4 9], [10; 15], 2%nat)
    [] demo_poll_laws).
  - lia.
  - reflexivity.
  - cbn. lia.
  - cbn. lia.
Defined.

(** C16: [listen], [connect] and [datagram] keep account of their descriptor on
    every path.  The one they answer is new and open; it was offered to [epoll],
    edge-triggered and with the events of its class, and it is watched if and only
    if the event port has an [epoll] descriptor and [epoll_ctl] took it: the error
    is dropped, and the client gets a descriptor of which it will hear nothing.  A
    call that fails leaves the open and the watched descriptors as they were. *)
Theorem unix_sockets_owned {K A}
    (socket : A -> K -> Z * K) (setsockopt : Z -> K -> Z * K)
    (bind : A -> Z -> K -> bool * K) (listen : Z -> K -> K)
    (connect : Z -> A -> K -> option Z * K) (close : Z -> K -> K)
    (epoll_add : Z -> Z -> Z -> Z -> K -> Z * K) (epoll_del : Z -> Z -> K -> Z * K)
    (event_port : UnixEventPort) (owner : Z)
    (opened watched : K -> gset Z) (addresses : list A) (k : K) :
  socket_laws socket setsockopt bind listen connect close epoll_add epoll_del
    opened watched ->
  addresses <> [] ->
  let owns := owns epoll_add event_port owner opened watched in
  (exists r k', UnixNetwork_listen socket setsockopt bind listen close epoll_add event_port
       owner addresses k = Ret (r, k') /\
     owns EPOLLIN r k k') /\
  (exists r k', UnixNetwork_datagram socket setsockopt bind close epoll_add event_port
       owner addresses k = Ret (r, k') /\
     owns (Z.lor EPOLLIN EPOLLOUT) r k k') /\
  (exists r k', UnixNetwork_connect socket connect close epoll_add epoll_del event_port
       owner addresses k = Ret (r, k') /\
     owns (Z.lor (Z.lor EPOLLIN EPOLLOUT) EPOLLRDHUP) (answer r) k k').
Proof.
  intros Hlaws Hne. destruct addresses as [|a rest]; [done|]. cbv zeta.
  unfold UnixNetwork_listen, UnixNetwork_datagram, UnixNetwork_connect.
  pose proof (fun fd k' => socket_opened _ _ _ _ _ _ _ _ _ _ Hlaws a k fd k') as Hnew.
  pose proof (socket_law _ _ _ _ _ _ _ _ _ _ Hlaws a k) as Hsock.
  destruct (socket a k) as [fd k1].
  pose proof (close_unopened _ _ _ _ _ _ _ _ _ _ Hlaws fd k k1) as Hno.
  pose proof (setsockopt_law _ _ _ _ _ _ _ _ _ _ Hlaws fd k1) as Hopt.
  destruct (setsockopt fd k1) as [rc k2]. destruct Hopt as [Hu Hrc].
  pose proof (bind_law _ _ _ _ _ _ _ _ _ _ Hlaws a fd k2) as Hbind.
  destruct (bind a fd k2) as [failed k3]. cbn [snd] in Hbind.
  pose proof (listen_law _ _ _ _ _ _ _ _ _ _ Hlaws fd k3) as Hlisten.
  destruct (Z.ltb_spec fd 0) as [Hfd|Hfd].
  { destruct (Hno Hfd Hsock) as [Hnot Hclose]. specialize (Hrc Hnot).
    destruct (Z.ltb_spec rc 0) as [_|]; [|lia]. split_and!; do 2 eexists; split; try done.
    by apply Hclose. }
  specialize (Hnew fd k1 eq_refl Hfd).
  assert (H2 : opened_in opened watched fd k k2) by by eapply unchanged_opened.
  assert (H3 : opened_in opened watched fd k k3) by by eapply unchanged_opened.
  assert (H4 : opened_in opened watched fd k (listen fd k3)) by by eapply unchanged_opened.
  split_and!.
  - destruct (rc <? 0); [|destruct failed]; do 2 eexists; (split; [done|]);
      first [by eapply fresh_close, opened_fresh|by eapply opened_own].
  - destruct (rc <? 0); [|destruct failed]; do 2 eexists; (split; [done|]);
      first [by eapply fresh_close, opened_fresh|by eapply opened_own].
  - do 2 eexists. split; [apply f_equal, surjective_pairing|].
    set (k4 := UnixIoStream_new _ _ _ _ _ k1).
    pose proof (connect_loop_owns _ _ _ _ _ _ _ _ event_port owner _ _ Hlaws
      (Z.lor (Z.lor EPOLLIN EPOLLOUT) EPOLLRDHUP) fd (a :: rest) k k4) as Hc.
    destruct (connect_loop _ _ _ _ _ _) as [r k']. apply Hc. by eapply opened_own.
Qed.

(** A kernel for the witness, with one descriptor, 3: whether it is open, and
    whether it is watched, and an [epoll] with the descriptor 9; an address is the
    error number that [connect] gives. *)
Definition demo_socket (a : Z) (k : bool * bool) : Z * (bool * bool) :=
  if k.1 then (-1, k) else (3, (true, false)).
Definition demo_setsockopt (fd : Z) (k : bool * bool) : Z * (bool * bool) :=
  (if (fd =? 3) && k.1 then 0 else -1, k).
Definition demo_connect (fd a : Z) (k : bool * bool) : option Z * (bool * bool) := (Some a, k).
Definition demo_close (fd : Z) (k : bool * bool) : bool * bool :=
  if fd =? 3 then (false, false) else k.
Definition demo_add (efd fd data events : Z) (k : bool * bool) : Z * (bool * bool) :=
  if (efd =? 9) && (fd =? 3) && k.1 then (0, (k.1, true)) else (-1, k).
Definition demo_del (efd fd : Z) (k : bool * bool) : Z * (bool * bool) :=
  if (efd =? 9) && (fd =? 3) then (0, (k.1, false)) else (-1, k).
Definition demo_opened (k : bool * bool) : gset Z := if k.1 then {[3]} else ∅.
Definition demo_watched (k : bool * bool) : gset Z := if k.1 && k.2 then {[3]} else ∅.

Lemma demo_socket_laws :
  socket_laws demo_socket demo_setsockopt (fun (a fd : Z) k => (false, k)) (fun fd k => k)
    demo_connect demo_close demo_add demo_del demo_opened demo_watched.
Proof.
  split; unfold unchanged, demo_opened, demo_watched, demo_socket, demo_setsockopt,
    demo_close, demo_add, demo_del.
  all: intros; repeat match goal with k : bool * bool |- _ => destruct k as [[] []] end;
    cbn [fst snd andb] in *; repeat bcase; cbn [fst snd andb] in *; subst;
    try done; try (set_solver by lia).
Qed.

Lemma unix_sockets_owned_witness :
  let port := mkPort 9 4 None in
  let owns := owns demo_add port 64 demo_opened demo_watched in
  (exists r k', UnixNetwork_listen demo_socket demo_setsockopt (fun (a fd : Z) k => (false, k))
     (fun fd k => k) demo_close demo_add port 64 [EINTR; 111] (false, false) = Ret (r, k') /\
     owns EPOLLIN r (false, false) k') /\
  (exists r k', UnixNetwork_datagram demo_socket demo_setsockopt
     (fun (a fd : Z) k => (false, k)) demo_close demo_add port 64 [EINTR; 111] (false, false)
     = Ret (r, k') /\ owns (Z.lor EPOLLIN EPOLLOUT) r (false, false) k') /\
  (exists r k', UnixNetwork_connect demo_socket demo_connect demo_close demo_add demo_del
     port 64 [EINTR; 111] (false, false) = Ret (r, k') /\
     owns (Z.lor (Z.lor EPOLLIN EPOLLOUT) EPOLLRDHUP) (answer r) (false, false) k').
Proof.
  apply (unix_sockets_owned demo_socket demo_setsockopt (fun (a fd : Z) k => (false, k))
    (fun fd k => k) demo_connect demo_close demo_add demo_del (mkPort 9 4 None) 64 demo_opened
    demo_watched [EINTR; 111] (false, false) demo_socket_laws).
  discriminate.
Defined.

(** A server is watched where [epoll] takes its descriptor; where [epoll_ctl] fails,
    and on a port whose constructor failed, it is answered all the same. *)
Example server_watched_or_not :
  let listen efd := UnixNetwork_listen demo_socket demo_setsockopt
    (fun (a fd : Z) k => (false, k)) (fun fd k => k) demo_close demo_add (mkPort efd 4 None) 64
    [0] (false, false) in
  listen 9 = Ret (Some 3, (true, true)) /\ listen 8 = Ret (Some 3, (true, false)) /\
  listen (-1) = Ret (Some 3, (true, false)).
Proof. by vm_compute. Qed.
