(* ===== verification/IoPeer.v ===== *)
(** Model of [source/forstio/io_peer.h] and [io_peer.tmpl.h]: a
    [StreamingIoPeer], which sends and receives whole messages over an
    [AsyncIoStream] through two ring buffers.

    The templates cannot be compiled: they write [size_bytes] for [size_t bytes],
    [readSegmengtLength], [handle] for [ConveyorFeeder::feed] and [noError()] for
    [noError], and [send] is declared [void] but returns its error.  The model reads
    them as these names and as returning an [Error].

    The two halves of a peer are a [Receiver] and a [Sender].  The memory that
    [AsyncIoStream] reads into and writes from is the vector of the ring buffer.
    The feeders [read_done] and [write_done] are the elements that wait at the
    conveyors behind them; each of the handlers below is the event that takes
    one of them. *)

From S2P Require Import Prelude Error Buffer RingBuffer BufferView Message MessageAccess ProtoKel IoHelpers.

(** A [SinkConveyor]: after a critical error it is armed to destroy its
    child, and with it the conveyor it reads from. *)
Inductive SinkConveyor := Alive | Dying | Destroyed.

Record Receiver := mkReceiver {
  incoming_feeder : list message;   (* what was fed to it *)
  in_buffer : RingBuffer;
  reader : ReadHelper;
  sink_read : SinkConveyor
}.

Record Sender := mkSender {
  out_buffer : RingBuffer;
  writer : WriteHelper;
  sink_write : SinkConveyor
}.

Record StreamingIoPeer := mkPeer { receiver : Receiver; sender : Sender }.

Definition is_critical_error (e : option Error) : bool :=
  match e with Some e => isCritical e | None => false end.

(** What the sink makes of the result of the function in front of it. *)
Definition sink_result (e : option Error) (s : SinkConveyor) : SinkConveyor :=
  match s with Alive => if is_critical_error e then Dying else Alive | _ => s end.

Section peer.
Context {K : Type}.
Context (stream_read : Z -> K -> ErrorOr Z * list byte * K).
Context (stream_write : list byte -> K -> ErrorOr Z * K).
Context (capacity : Z) (Incoming Outgoing : schema) (limits : Limits).

(** ** Receiving *)

(** An operation of [io_stream] that may read, on the memory of [in_buffer]. *)
Definition on_reader (f : ReadHelper -> K -> outcome (ReadHelper * K)) (r : Receiver) (k : K)
  : outcome (Receiver * K) :=
  let h := reader r in
  '(h, k) ← f (mkReadHelper (read_task h) (read_done h) (buffer (in_buffer r))) k;
  Ret (mkReceiver (incoming_feeder r) (Ring.set_buffer (read_memory h) (in_buffer r)) h
         (sink_read r), k).

(** [io_stream->read(&in_buffer.write(), 1, in_buffer.writeSegmentLength())] *)
Definition read_more (r : Receiver) (k : K) : outcome (Receiver * K) :=
  p ← write_ref 0 (in_buffer r);
  n ← writeSegmentLength 0 (in_buffer r);
  on_reader (fun h => AsyncIoStream_read stream_read (read_memory h) p 1 n h) r k.

Definition set_in_buffer (b : RingBuffer) (r : Receiver) : Receiver :=
  mkReceiver (incoming_feeder r) b (reader r) (sink_read r).
Definition feed_incoming (root : message) (r : Receiver) : Receiver :=
  mkReceiver (incoming_feeder r ++ [root]) (in_buffer r) (reader r) (sink_read r).

(** The [while (true)]: a packet takes at least the eight bytes of its length
    out of the buffer. *)
Fixpoint decode_loop (fuel : nat) (r : Receiver) : outcome (option Error * Receiver) :=
  match fuel with
  | O => Halt Diverges
  | S fuel =>
      '(error, root, b) ←
        codec_decode capacity Incoming (heapMessageRoot Incoming) (in_buffer r) limits;
      let r := set_in_buffer b r in
      if isCritical error then Ret (Some error, r)
      else if negb (failed error) then decode_loop fuel (feed_incoming root r)
      else Ret (None, r)
  end.

(** The function behind [readDone()]. *)
Definition read_handler (bytes : Z) (r : Receiver) (k : K)
  : outcome (option Error * Receiver * K) :=
  b ← writeAdvance bytes (in_buffer r);
  let r := set_in_buffer b r in
  n ← writeSegmentLength 0 b;
  if n =? 0 then Ret (Some (criticalError "Message too long"), r, k)
  else
    '(r, k) ← read_more r k;
    '(error, r) ← decode_loop (S (Z.to_nat (Ring.readCompositeLength (in_buffer r)))) r;
    Ret (error, r, k).

(** The event of the conveyor behind [readDone()].  [sink] takes a function for
    errors, which would tell the [incoming_feeder], and drops it. *)
Definition on_read_done (r : Receiver) (k : K) : outcome (Receiver * K) :=
  let h := reader r in
  match read_done h with
  | Some (x :: xs) =>
      let r := mkReceiver (incoming_feeder r) (in_buffer r)
                 (mkReadHelper (read_task h) (Some xs) (read_memory h)) (sink_read r) in
      '(error, r, k) ← match x with
                       | Fed bytes => read_handler bytes r k
                       | Failed error => Ret (Some error, r, k)
                       end;
      Ret (mkReceiver (incoming_feeder r) (in_buffer r) (reader r)
             (sink_result error (sink_read r)), k)
  | _ => Ret (r, k)
  end.

(** The event of the conveyor behind [readReady()]. *)
Definition on_read_ready (r : Receiver) (k : K) : outcome (Receiver * K) :=
  on_reader (readStep stream_read) r k.

(** The event of the sink, once it is armed. *)
Definition on_sink_read (r : Receiver) : Receiver :=
  match sink_read r with
  | Dying =>
      mkReceiver (incoming_feeder r) (in_buffer r)
        (mkReadHelper (read_task (reader r)) None (read_memory (reader r))) Destroyed
  | _ => r
  end.

(** ** Sending *)
Definition on_writer (f : WriteHelper -> K -> outcome (WriteHelper * K)) (w : Sender) (k : K)
  : outcome (Sender * K) :=
  let h := writer w in
  '(h, k) ← f (mkWriteHelper (write_task h) (write_done h) (buffer (out_buffer w))) k;
  Ret (mkSender (out_buffer w) h (sink_write w), k).

(** [io_stream->write(&out_buffer.read(), out_buffer.readSegmentLength())] *)
Definition write_more (w : Sender) (k : K) : outcome (Sender * K) :=
  p ← read_ref 0 (out_buffer w);
  n ← readSegmentLength 0 (out_buffer w);
  on_writer (fun h => AsyncIoStream_write stream_write (write_memory h) p n h) w k.

Definition set_out_buffer (b : RingBuffer) (w : Sender) : Sender :=
  mkSender b (writer w) (sink_write w).

Definition send (msg : message) (w : Sender) (k : K) : outcome (Error * Sender * K) :=
  n ← readSegmentLength 0 (out_buffer w);
  let restart_write := n =? 0 in
  '(error, b) ← codec_encode Outgoing msg (out_buffer w);
  let w := set_out_buffer b w in
  if failed error then Ret (error, w, k)
  else if restart_write then
    '(w, k) ← write_more w k;
    Ret (noError, w, k)
  else Ret (noError, w, k).

(** The function behind [writeDone()]. *)
Definition write_handler (bytes : Z) (w : Sender) (k : K) : outcome (Sender * K) :=
  b ← readAdvance bytes (out_buffer w);
  let w := set_out_buffer b w in
  n ← readCompositeLength b;
  if 0 <? n then write_more w k else Ret (w, k).

Definition on_write_done (w : Sender) (k : K) : outcome (Sender * K) :=
  let h := writer w in
  match write_done h with
  | Some (x :: xs) =>
      let w := mkSender (out_buffer w)
                 (mkWriteHelper (write_task h) (Some xs) (write_memory h)) (sink_write w) in
      match x with
      | Fed bytes => write_handler bytes w k
      | Failed error =>
          Ret (mkSender (out_buffer w) (writer w) (sink_result (Some error) (sink_write w)), k)
      end
  | _ => Ret (w, k)
  end.

Definition on_write_ready (w : Sender) (k : K) : outcome (Sender * K) :=
  on_writer (writeStep stream_write) w k.

Definition on_sink_write (w : Sender) : Sender :=
  match sink_write w with
  | Dying =>
      mkSender (out_buffer w)
        (mkWriteHelper (write_task (writer w)) None (write_memory (writer w))) Destroyed
  | _ => w
  end.

(** ** The constructor: it takes the conveyors and starts to read. *)
Definition new_peer (inb outb : RingBuffer) (k : K) : outcome (StreamingIoPeer * K) :=
  let r := mkReceiver [] inb (mkReadHelper None (Some []) (buffer inb)) Alive in
  let w := mkSender outb (mkWriteHelper None (Some []) (buffer outb)) Alive in
  '(r, k) ← read_more r k;
  Ret (mkPeer r w, k).

(** ** The events of a peer *)
Inductive peer_event :=
| ReadReady
| ReadDone
| SinkRead
| Send (msg : message)
| WriteReady
| WriteDone
| SinkWrite.

(** The messages that [send] has accepted are in the answer. *)
Definition peer_step (ev : peer_event) (p : StreamingIoPeer) (k : K)
  : outcome (list message * StreamingIoPeer * K) :=
  match ev with
  | ReadReady => '(r, k) ← on_read_ready (receiver p) k; Ret ([], mkPeer r (sender p), k)
  | ReadDone => '(r, k) ← on_read_done (receiver p) k; Ret ([], mkPeer r (sender p), k)
  | SinkRead => Ret ([], mkPeer (on_sink_read (receiver p)) (sender p), k)
  | Send msg =>
      '(error, w, k) ← send msg (sender p) k;
      Ret (if failed error then [] else [msg], mkPeer (receiver p) w, k)
  | WriteReady => '(w, k) ← on_write_ready (sender p) k; Ret ([], mkPeer (receiver p) w, k)
  | WriteDone => '(w, k) ← on_write_done (sender p) k; Ret ([], mkPeer (receiver p) w, k)
  | SinkWrite => Ret ([], mkPeer (receiver p) (on_sink_write (sender p)), k)
  end.
End peer.
