(* ===== verification/IoPeerTheory.v ===== *)
(** The two halves of a [StreamingIoPeer]: the states a [Receiver] and a
    [Sender] go through, and that every event of theirs keeps them. *)

From S2P Require Import Prelude Error Buffer RingBuffer BufferView ViewTheory StreamEndian Message MessageAccess ProtoKel ProtoKelDecode ProtoKelCodec IoHelpers IoPeer.

(** ** Lemmas on the parts *)
Lemma zlen_pos {A} (l : list A) : l <> [] -> 0 < zlen l.
Proof. destruct l; [done|]. intros _. rewrite zlen_cons. pose proof (zlen_nonneg l). lia. Qed.

Lemma ztake_inserts {A} (bs l : list A) :
  zlen bs <= zlen l -> ztake (zlen bs) (list_inserts 0 bs l) = bs.
Proof.
  intros Hl. rewrite <- (ztake_drop (zlen bs) l), list_inserts_0_r.
  - by apply ztake_app_exact.
  - unfold zlen, ztake in *. rewrite length_take. lia.
Qed.

Lemma set_buffer_same b : Ring.set_buffer (buffer b) b = b.
Proof. by destruct b. Qed.

(** Reading from a ring leaves the front of its room in place. *)
Lemma ring_eats_room bs b b' n :
  wf b -> eats bs b b' -> 0 <= n <= zlen (room b) -> write_position b + n <= Ring.size b ->
  write_position b' = write_position b /\ Ring.size b' = Ring.size b /\
  zlen (room b) <= zlen (room b') /\ ztake n (room b') = ztake n (room b).
Proof.
  intros Hwf (Hwf'&Hi&[= Hb Hw]) Hn Hle.
  assert (Hs : Ring.size b' = Ring.size b) by (unfold Ring.size; by rewrite Hb).
  apply (f_equal zlen) in Hi. rewrite zlen_app in Hi. pose proof (zlen_nonneg bs).
  cbn [wf input room ring_laws] in *. rewrite !ring_input_len in Hi by done.
  assert (zlen (ring_room b) <= zlen (ring_room b')).
  { rewrite !ring_room_len by done. pose proof (ring_composite b Hwf).
    pose proof (ring_composite b' Hwf'). lia. }
  split_and!; [done..|].
  rewrite <- (ring_room_front b'), <- (ring_room_front b) by (done || lia).
  by rewrite Hb, Hw.
Qed.

Lemma decode_empty {B} `{StreamBuffer B} cap s m0 (b : B) limits :
  wf b -> input b = [] ->
  exists e, codec_decode cap s m0 b limits = Ret (e, m0, b) /\ isRecoverable e = true.
Proof.
  intros Hwf Hi. assert (Hwfv : wf (View.make b)) by exact (view_make_wf b Hwf).
  pose proof (starves_value (B := BufferView B) msg_packet_length_t 0 0 uint64_ok eq_refl
    (View.make b) (value_bytes msg_packet_length_t 0) Hwfv) as Hs.
  destruct Hs as (e&r&v&Hd&Hrec).
  - change (input (View.make b)) with (view_input (View.make b)).
    by rewrite view_make_input, Hi.
  - intros E. apply (f_equal zlen) in E. by rewrite value_bytes_len in E.
  - pose proof (sound_value (B := BufferView B) false msg_packet_length_t 0 uint64_ok eq_refl
      (View.make b) Hwfv) as Hsound. rewrite Hd in Hsound.
    destruct Hsound as (_&bs&He&_). destruct (view_read_commit _ b v Hwf He) as (Hb&_).
    exists e. unfold codec_decode. rewrite Hd, bind_ret, (isRecoverable_failed _ Hrec), Hb. done.
Qed.

(** A message that a peer can pass on. *)
Definition message_ok (cap : Z) (s : schema) (limits : Limits) (m : message) : Prop :=
  typed s m = true /\ arrays_fit cap m = true /\
  zlen (encode_bytes s m) <= packet_size limits /\ zlen (packet_bytes s m) < size_mod.

(** The input is not yet a packet of the first message. *)
Definition incomplete (s : schema) (todo : list message) (inp : list byte) : Prop :=
  match todo with [] => inp = [] | m :: _ => zlen inp < zlen (packet_bytes s m) end.

Lemma stream_bytes_app s ms1 ms2 :
  stream_bytes s (ms1 ++ ms2) = stream_bytes s ms1 ++ stream_bytes s ms2.
Proof. unfold stream_bytes. by rewrite map_app, concat_app. Qed.

Lemma incomplete_snoc s todo m inp :
  incomplete s todo inp -> incomplete s (todo ++ [m]) inp.
Proof.
  destruct todo as [|m' todo]; [|done]. cbn. intros ->. rewrite packet_len, zlen_nil.
  pose proof (zlen_nonneg (encode_bytes s m)). lia.
Qed.

(** ** Receiving *)
Section receive.
Context {T R : Type}.
Context (stream_read : Z -> T -> ErrorOr Z * list byte * T).
(** The bytes on their way to the reader, and what reading leaves alone. *)
Context (flying : T -> list byte) (rest : T -> R).
Context (cap : Z) (s : schema) (limits : Limits).

Definition reads_law : Prop := forall n t, 0 < n ->
  match stream_read n t with
  | (IsValue k, bytes, t') => 0 < k <= n /\ zlen bytes = k /\ flying t = bytes ++ flying t'
  | (IsError _, bytes, t') => bytes = [] /\ flying t' = flying t
  end.
Definition reads_keep : Prop := forall n t, rest (stream_read n t).2 = rest t.
Hypothesis law : reads_law.
Hypothesis keep : reads_keep.
Hypothesis schema_ok : schema.ok s = true.

Lemma reads_spec n t : 0 < n ->
  match stream_read n t with
  | (IsValue k, bytes, t') => 0 < k <= n /\ zlen bytes = k /\ flying t = bytes ++ flying t'
  | (IsError e, bytes, t') =>
      bytes = [] /\ flying t' = flying t /\ (isCritical e = true -> True)
  end.
Proof.
  intros Hn. specialize (law n t Hn). destruct (stream_read n t) as [[[e|k] bytes] t'].
  - by destruct law.
  - done.
Qed.

(** What a read of 1 to [m] bytes to the room of [r]'s buffer does. *)
Definition after_read (m : Z) (r : Receiver) (t : T) (r' : Receiver) (t' : T) : Prop :=
  incoming_feeder r' = incoming_feeder r /\ sink_read r' = sink_read r /\
  rest t' = rest t /\
  exists bytes, flying t = bytes ++ flying t' /\ zlen bytes <= m /\
    in_buffer r' =
      Ring.set_buffer
        (list_inserts (Z.to_nat (write_position (in_buffer r))) bytes (buffer (in_buffer r)))
        (in_buffer r) /\
    match read_task (reader r') with
    | Some task =>
        task = mkReadTask (write_position (in_buffer r)) 1 m 0 /\ bytes = [] /\
        read_done (reader r') = read_done (reader r)
    | None =>
        (0 < zlen bytes /\
         read_done (reader r') = notify (Fed (zlen bytes)) (read_done (reader r))) \/
        exists e, read_done (reader r') = notify (Failed e) (read_done (reader r))
    end.

Lemma read_inv_after m r t h' t' :
  rest t' = rest t ->
  read_inv flying (fun _ _ => True) (write_position (in_buffer r)) 1 m (buffer (in_buffer r))
    (flying t) (read_done (reader r)) h' t' ->
  after_read m r t
    (mkReceiver (incoming_feeder r) (Ring.set_buffer (read_memory h') (in_buffer r)) h'
       (sink_read r)) t'.
Proof.
  intros Hrest (bytes&Hf&Hl&Hm&Ht). do 3 (split; [done|]). exists bytes.
  cbn. rewrite Hm. split_and!; [done..|].
  destruct (read_task h') as [task|].
  - destruct Ht as (->&Hl1&Hd).
    assert (bytes = []) as -> by (apply zlen_zero; lia). by rewrite zlen_nil, Z.add_0_r, !Z.sub_0_r.
  - destruct Ht as [[? ?]|(e&?&_&?)]; [left|right; by exists e]. auto with lia.
Qed.

(** A read that is waiting for bytes. *)
Definition waiting (m : Z) (r : Receiver) : Prop :=
  let b := in_buffer r in
  read_task (reader r) = Some (mkReadTask (write_position b) 1 m 0) /\
  1 <= m <= zlen (room b) /\ write_position b + m <= Ring.size b.

Lemma segment_ok (b : RingBuffer) m :
  wf b -> 1 <= m <= zlen (room b) -> write_position b + m <= Ring.size b ->
  0 <= write_position b /\ 0 < 1 <= m /\ write_position b + m <= zlen (buffer b) /\
  m < size_mod.
Proof.
  intros Hwf Hm Hle. destruct Hwf as (?&_&?&_). unfold Ring.size in *.
  split_and!; (lia || zsolve).
Qed.

Lemma on_read_ready_ok m r t :
  wf (in_buffer r) -> waiting m r ->
  exists r' t', on_read_ready stream_read r t = Ret (r', t') /\ after_read m r t r' t'.
Proof.
  intros Hwf (Ht&Hm&Hle). pose proof (segment_ok _ m Hwf Hm Hle) as Hok.
  pose proof (read_begins flying (fun _ _ => True) (write_position (in_buffer r)) 1 m
    (buffer (in_buffer r)) (mkReadHelper None (read_done (reader r)) []) t ltac:(lia)) as Hinv.
  unfold on_read_ready, on_reader. rewrite Ht.
  destruct (readStep_inv stream_read flying (fun _ _ => True) reads_spec
    (write_position (in_buffer r)) 1 m (buffer (in_buffer r)) (flying t)
    (read_done (reader r)) Hok _ _ Hinv) as (h'&t'&E&Hinv').
  cbn [read_done] in E. rewrite E, bind_ret. do 2 eexists. split; [done|].
  apply read_inv_after; [|done].
  refine (readStep_keeps (fun x => rest x = rest t) _ _ _ _ _ _ _ E); [|done].
  intros n x Hx. by rewrite keep.
Qed.

Lemma read_more_ok r t :
  wf (in_buffer r) -> room (in_buffer r) <> [] -> read_task (reader r) = None ->
  exists m r' t', read_more stream_read r t = Ret (r', t') /\
    1 <= m <= zlen (room (in_buffer r)) /\
    write_position (in_buffer r) + m <= Ring.size (in_buffer r) /\ after_read m r t r' t'.
Proof.
  intros Hwf Hne Hnone.
  destruct (ring_write_pointer (in_buffer r) Hwf Hne) as (Hp&m&Hm&Hm1&Hle).
  change (zlen (ring_room (in_buffer r))) with (zlen (room (in_buffer r))) in Hm1.
  pose proof (segment_ok _ m Hwf ltac:(lia) Hle) as (?&?&?&?).
  unfold read_more. cbn [write_ref writeSegmentLength ring_ops].
  rewrite Hp, bind_ret, Hm, bind_ret. unfold on_reader.
  destruct (async_read_inv stream_read flying (fun _ _ => True) reads_spec 0
    (buffer (in_buffer r)) (write_position (in_buffer r)) 1 m
    (mkReadHelper None (read_done (reader r)) (buffer (in_buffer r))) t)
    as (h'&t'&E&Hinv); [done..|].
  rewrite Hnone. cbn [read_memory]. cbn [readSteps] in E.
  destruct (AsyncIoStream_read _ _ _ _ _ _ _) as [[h1 t1]|] eqn:E1; [|done].
  rewrite bind_ret in E. injection E as -> ->. rewrite bind_ret.
  exists m. do 2 eexists. split; [done|]. split_and!; [lia..|].
  apply read_inv_after; [|done].
  refine (async_read_keeps (fun x => rest x = rest t) _ _ _ _ _ _ _ _ _ _ eq_refl E1).
  intros n x Hx. by rewrite keep.
Qed.

(** Packets are taken from the buffer until there is only a part of one. *)
Lemma decode_loop_ok fuel r todo future :
  wf (in_buffer r) -> Forall (message_ok cap s limits) todo ->
  stream_bytes s todo = input (in_buffer r) ++ future ->
  zlen (input (in_buffer r)) < Z.of_nat fuel ->
  exists ms todo' b', todo = ms ++ todo' /\
    decode_loop cap s limits fuel r =
      Ret (None, mkReceiver (incoming_feeder r ++ ms) b' (reader r) (sink_read r)) /\
    eats (stream_bytes s ms) (in_buffer r) b' /\
    stream_bytes s todo' = input b' ++ future /\ incomplete s todo' (input b').
Proof.
  revert r todo. induction fuel as [|fuel IH]; intros r todo Hwf Hall Hs Hf.
  { pose proof (zlen_nonneg (input (in_buffer r))). lia. }
  pose proof (default_typed s schema_ok) as Hd0.
  assert (Hstop : forall e m', isRecoverable e = true ->
    codec_decode cap s (heapMessageRoot s) (in_buffer r) limits = Ret (e, m', in_buffer r) ->
    decode_loop cap s limits (S fuel) r =
    Ret (None, mkReceiver (incoming_feeder r ++ []) (in_buffer r) (reader r) (sink_read r))).
  { intros e m' Hrec E. cbn [decode_loop]. rewrite E, bind_ret, (isRecoverable_failed _ Hrec), app_nil_r.
    pose proof (critical_not_recoverable e) as Hc. rewrite Hrec, andb_true_r in Hc.
    rewrite Hc. by destruct r. }
  destruct todo as [|m todo].
  - assert (input (in_buffer r) = []) as Hi.
    { by destruct (app_eq_nil _ _ (eq_sym Hs)). }
    destruct (decode_empty cap s (heapMessageRoot s) (in_buffer r) limits Hwf Hi)
      as (e&He&Hrec).
    exists [], [], (in_buffer r). rewrite (Hstop e _ Hrec He).
    split_and!; first [done|by apply eats_nil].
  - apply Forall_cons_1 in Hall as [(Ht&Hfit&Hlim&Hlen) Hall].
    unfold stream_bytes in Hs. cbn [map concat] in Hs. fold (stream_bytes s todo) in Hs.
    destruct (Z.lt_ge_cases (zlen (input (in_buffer r))) (zlen (packet_bytes s m)))
      as [Hlt|Hge].
    + set (i := input (in_buffer r)) in *.
      assert (Hi : i = ztake (zlen i) (packet_bytes s m)).
      { rewrite <- (ztake_app_le (zlen i) (packet_bytes s m) (stream_bytes s todo)) by lia.
        by rewrite Hs, ztake_app_exact. }
      destruct (decode_partial cap s (heapMessageRoot s) m (in_buffer r)
        (zdrop (zlen i) (packet_bytes s m)) limits) as (e&m'&He&Hrec); try done.
      * fold i. rewrite Hi at 1. by rewrite ztake_drop.
      * intros E. apply (f_equal zlen) in E. pose proof (zlen_nonneg i).
        rewrite zlen_drop, zlen_nil in E by lia. lia.
      * rewrite packet_len in Hlen. lia.
      * exists [], (m :: todo), (in_buffer r). rewrite (Hstop e _ Hrec He).
        split_and!; first [done|by apply eats_nil].
    + assert (Hi : input (in_buffer r) = packet_bytes s m ++
        zdrop (zlen (packet_bytes s m)) (input (in_buffer r))).
      { rewrite <- (ztake_drop (zlen (packet_bytes s m)) (input (in_buffer r))) at 1.
        f_equal. rewrite <- (ztake_app_le _ _ future), <- Hs by lia.
        by apply ztake_app_exact. }
      destruct (decode_packet cap s (heapMessageRoot s) m (in_buffer r) _ limits schema_ok
        Hd0 Ht Hfit Hwf Hi Hlim) as (b1&Hdec&He).
      cbn [decode_loop]. rewrite Hdec, bind_ret. cbn [failed noError error_ Z.eqb negb isCritical Z.ltb].
      pose proof (eats_rest _ _ _ _ He Hi) as Hi1.
      destruct (IH (feed_incoming m (set_in_buffer b1 r)) todo (proj1 He) Hall)
        as (ms&todo'&b'&->&E&He'&Hs'&Hinc).
      * change (stream_bytes s todo = input b1 ++ future).
        rewrite Hi, <- app_assoc in Hs. apply app_inv_head in Hs. by rewrite Hs, Hi1.
      * change (zlen (input b1) < Z.of_nat fuel). rewrite Hi1, zlen_drop by (pose proof (zlen_nonneg (packet_bytes s m)); lia).
        rewrite packet_len in *. pose proof (zlen_nonneg (encode_bytes s m)). lia.
      * exists (m :: ms), todo', b'. cbn in E. rewrite <- app_assoc in E.
        split_and!; [done| |by eapply eats_trans|done|done].
        change (if isCritical noError then _ else ?x) with x. exact E.
Qed.

(** *** The states of a receiver *)

(** It reads: the bytes [pend] are in the room, not yet committed. *)
Definition receiving (r : Receiver) (pend : list byte) : Prop :=
  let b := in_buffer r in
  sink_read r = Alive /\
  match read_task (reader r) with
  | Some _ => exists m, waiting m r /\ pend = [] /\ read_done (reader r) = Some []
  | None =>
      read_done (reader r) = Some [Fed (zlen pend)] /\ 0 < zlen pend <= zlen (room b) /\
      write_position b + zlen pend <= Ring.size b /\ ztake (zlen pend) (room b) = pend
  end.

(** It does not read any more. *)
Definition broken (r : Receiver) : Prop :=
  read_task (reader r) = None /\
  match read_done (reader r) with
  | None | Some [] | Some [Failed _] => True
  | _ => False
  end.

(** [future] is what is still to come over the wire. *)
Definition recv_ok (r : Receiver) (todo : list message) (future : list byte) : Prop :=
  wf (in_buffer r) /\
  (broken r \/
   exists pend, receiving r pend /\ incomplete s todo (input (in_buffer r)) /\
     stream_bytes s todo = input (in_buffer r) ++ pend ++ future).

Lemma recv_ok_snoc r todo m future :
  recv_ok r todo future -> recv_ok r (todo ++ [m]) (future ++ packet_bytes s m).
Proof.
  intros [Hwf [?|(pend&?&?&Hs)]]; (split; [done|]); [by left|right].
  exists pend. split_and!; [done|by apply incomplete_snoc|].
  rewrite stream_bytes_app, Hs, <- !app_assoc. do 3 f_equal.
  unfold stream_bytes. cbn. by rewrite app_nil_r.
Qed.

(** After a read to the room of a buffer that was waiting for one. *)
Lemma after_read_receiving m r t r' t' :
  wf (in_buffer r) -> sink_read r = Alive -> read_done (reader r) = Some [] ->
  1 <= m <= zlen (room (in_buffer r)) ->
  write_position (in_buffer r) + m <= Ring.size (in_buffer r) ->
  after_read m r t r' t' ->
  wf (in_buffer r') /\ input (in_buffer r') = input (in_buffer r) /\
  incoming_feeder r' = incoming_feeder r /\ rest t' = rest t /\
  (broken r' \/ exists pend, receiving r' pend /\ flying t = pend ++ flying t').
Proof.
  intros Hwf Hs Hd Hm Hle (Hin&Hs'&Hrest&bytes&Hf&Hl&Hb&Ht).
  destruct (ring_store (in_buffer r) bytes Hwf) as (Hwf'&Hi'&Hr');
    [change (ring_room (in_buffer r)) with (room (in_buffer r)); lia|lia|].
  rewrite <- Hb in Hwf', Hi', Hr'. pose proof (zlen_nonneg bytes).
  assert (Hwp : write_position (in_buffer r') = write_position (in_buffer r)) by (by rewrite Hb).
  assert (Hsz : Ring.size (in_buffer r') = Ring.size (in_buffer r)).
  { rewrite Hb. apply zlen_inserts. }
  assert (Hrl : zlen (room (in_buffer r')) = zlen (room (in_buffer r))).
  { change (room (in_buffer r')) with (ring_room (in_buffer r')). by rewrite Hr', zlen_inserts. }
  split_and!; [done..|]. unfold broken, receiving, waiting.
  rewrite Hs', Hwp, Hsz, Hrl. destruct (read_task (reader r')) as [task|].
  - destruct Ht as (->&->&->). right. exists []. rewrite Hd. split; [|done].
    split; [done|]. exists m. done.
  - destruct Ht as [[Hpos Hdone]|[e Hdone]]; rewrite Hdone, Hd; cbn [notify app]; [right|by left].
    exists bytes. split; [|done]. split_and!; try (done || lia).
    change (room (in_buffer r')) with (ring_room (in_buffer r')). rewrite Hr'.
    change (ring_room (in_buffer r)) with (room (in_buffer r)).
    apply ztake_inserts. lia.
Qed.

Lemma receiving_eats r pend bs b' inc :
  wf (in_buffer r) -> receiving r pend -> eats bs (in_buffer r) b' ->
  receiving (mkReceiver inc b' (reader r) (sink_read r)) pend.
Proof.
  intros Hwf (Hs&Ht) He. split; [done|]. cbn [reader in_buffer]. pose proof (zlen_nonneg pend).
  destruct (read_task (reader r)) as [task|].
  - destruct Ht as (m&(Hwt&Hm&Hle)&Hp&Hd). exists m. split_and!; try done.
    destruct (ring_eats_room bs (in_buffer r) b' m Hwf He ltac:(lia) Hle) as (Hw&Hsz&Hl&_).
    unfold waiting. cbn [reader in_buffer]. rewrite Hw, Hsz. split_and!; (done || lia || congruence).
  - destruct Ht as (Hd&Hp&Hle&Hroom).
    destruct (ring_eats_room bs (in_buffer r) b' (zlen pend) Hwf He ltac:(lia) Hle)
      as (Hw&Hsz&Hl&Hr).
    rewrite Hw, Hsz, Hr. split_and!; (done || lia).
Qed.

(** *** The events of a receiver *)

(** What an event does: the messages [ms] are passed on. *)
Definition recv_steps (r : Receiver) (t : T) (todo : list message) (unsent : list byte)
    (res : outcome (Receiver * T)) : Prop :=
  exists r' t' ms todo', res = Ret (r', t') /\ todo = ms ++ todo' /\
    incoming_feeder r' = incoming_feeder r ++ ms /\ rest t' = rest t /\
    recv_ok r' todo' (flying t' ++ unsent).

Lemma recv_stays r t todo unsent :
  recv_ok r todo (flying t ++ unsent) -> recv_steps r t todo unsent (Ret (r, t)).
Proof. intros H. exists r, t, [], todo. by rewrite app_nil_r. Qed.

Lemma read_more_receiving r t :
  wf (in_buffer r) -> room (in_buffer r) <> [] -> sink_read r = Alive ->
  read_task (reader r) = None -> read_done (reader r) = Some [] ->
  exists r' t', read_more stream_read r t = Ret (r', t') /\
    wf (in_buffer r') /\ input (in_buffer r') = input (in_buffer r) /\
    incoming_feeder r' = incoming_feeder r /\ rest t' = rest t /\ sink_read r' = Alive /\
    flying t' `suffix_of` flying t /\
    (broken r' \/ exists pend, receiving r' pend /\ flying t = pend ++ flying t').
Proof.
  intros Hwf Hne Hs Ht Hd.
  destruct (read_more_ok r t Hwf Hne Ht) as (m&r'&t'&E&Hm&Hle&Ha).
  destruct (after_read_receiving m r t r' t' Hwf Hs Hd Hm Hle Ha) as (?&?&?&?&?).
  destruct Ha as (_&Hs'&_&bytes&Hf&_). rewrite Hs in Hs'. exists r', t'.
  split_and!; try done. by exists bytes.
Qed.

Lemma read_ready_steps r t todo unsent :
  recv_ok r todo (flying t ++ unsent) ->
  recv_steps r t todo unsent (on_read_ready stream_read r t).
Proof.
  intros Hok. pose proof Hok as [Hwf Hst].
  destruct (read_task (reader r)) as [task|] eqn:Et.
  - destruct Hst as [[? _]|(pend&Hrec&Hinc&Hs)]; [congruence|].
    destruct Hrec as [Ha Hrec]. rewrite Et in Hrec. destruct Hrec as (m&Hw&->&Hd).
    destruct (on_read_ready_ok m r t Hwf Hw) as (r'&t'&->&Hafter).
    destruct Hw as (_&Hm&Hle).
    destruct (after_read_receiving m r t r' t' Hwf Ha Hd Hm Hle Hafter)
      as (Hwf'&Hi&Hin&Hrest&Hst').
    exists r', t', [], todo. rewrite app_nil_r. split_and!; try done.
    split; [done|]. destruct Hst' as [?|(pend&?&Hf)]; [by left|right].
    exists pend. rewrite Hi. split_and!; [done..|]. by rewrite Hs, Hf, <- app_assoc.
  - unfold on_read_ready, on_reader, readStep. cbn [read_task]. rewrite Et, bind_ret.
    cbn [read_memory]. rewrite set_buffer_same.
    exists (mkReceiver (incoming_feeder r) (in_buffer r)
      (mkReadHelper None (read_done (reader r)) (buffer (in_buffer r))) (sink_read r)), t, [], todo.
    rewrite app_nil_r. split_and!; try done. split; [done|].
    unfold broken, receiving, waiting in *. cbn [reader read_task read_done in_buffer sink_read].
    rewrite Et in Hst. done.
Qed.

(** The function behind [readDone] on the bytes that were read: messages are
    passed on, or the buffer is full. *)
Lemma read_handler_ok pend r t todo unsent :
  wf (in_buffer r) -> sink_read r = Alive -> read_task (reader r) = None ->
  read_done (reader r) = Some [] -> 0 < zlen pend <= zlen (room (in_buffer r)) ->
  ztake (zlen pend) (room (in_buffer r)) = pend -> Forall (message_ok cap s limits) todo ->
  stream_bytes s todo = input (in_buffer r) ++ pend ++ flying t ++ unsent ->
  exists error r' t' ms todo',
    read_handler stream_read cap s limits (zlen pend) r t = Ret (error, r', t') /\
    todo = ms ++ todo' /\ incoming_feeder r' = incoming_feeder r ++ ms /\ rest t' = rest t /\
    sink_read r' = Alive /\ recv_ok r' todo' (flying t' ++ unsent) /\
    (error = None \/ error = Some (criticalError "Message too long") /\ ms = [] /\
       reader r' = reader r /\ room (in_buffer r') = []).
Proof.
  intros Hwf Ha Ht Hd Hp Hroom Hall Hs. unfold read_handler.
  destruct (law_writeAdvance (in_buffer r) (zlen pend) Hwf Hp) as (b1&->&Hwf1&Hi1&Hr1&_).
  rewrite Hroom in Hi1. change (output b1) with (input b1) in Hi1.
  change (output (in_buffer r)) with (input (in_buffer r)) in Hi1.
  rewrite bind_ret. set (r1 := set_in_buffer b1 r).
  assert (Hs1 : stream_bytes s todo = input b1 ++ flying t ++ unsent).
  { by rewrite Hs, Hi1, <- app_assoc. }
  destruct (decide (room b1 = [])) as [Hfull|Hne].
  { cbn [writeSegmentLength ring_ops].
    rewrite (proj2 (ring_no_segment b1 Hwf1) Hfull), bind_ret. cbn [Z.eqb].
    do 3 eexists. exists [], todo. split; [done|]. rewrite app_nil_r.
    split_and!; try done; [|by right]. split; [done|]. left. unfold broken. cbn. by rewrite Ht, Hd. }
  destruct (ring_write_pointer b1 Hwf1 Hne) as (_&n&Hn&Hn1&_).
  cbn [writeSegmentLength ring_ops]. rewrite Hn, bind_ret.
  destruct (Z.eqb_spec n 0) as [|_]; [lia|].
  destruct (read_more_receiving r1 t Hwf1 Hne Ha Ht Hd)
    as (r2&t2&->&Hwf2&Hi2&Hin2&Hrest&Ha2&_&Hst). rewrite bind_ret.
  destruct (decode_loop_ok (S (Z.to_nat (Ring.readCompositeLength (in_buffer r2)))) r2 todo
    (flying t ++ unsent) Hwf2 Hall) as (ms&todo'&b'&->&->&He&Hs'&Hinc).
  { by rewrite Hi2. }
  { change (input (in_buffer r2)) with (ring_input (in_buffer r2)).
    rewrite ring_input_len by done. pose proof (ring_composite _ Hwf2). lia. }
  rewrite bind_ret.
  exists None, (mkReceiver (incoming_feeder r2 ++ ms) b' (reader r2) (sink_read r2)), t2, ms, todo'.
  cbn [incoming_feeder sink_read]. rewrite Hin2. split_and!; try done; [|by left].
  split; [apply He|]. destruct Hst as [Hb|(pend2&Hrec&Hf)]; [by left|right]. exists pend2.
  split_and!; [by eapply receiving_eats|done|by rewrite Hf, <- app_assoc in Hs'].
Qed.

Lemma read_handler_steps pend r t todo unsent :
  wf (in_buffer r) -> sink_read r = Alive -> read_task (reader r) = None ->
  read_done (reader r) = Some [] -> 0 < zlen pend <= zlen (room (in_buffer r)) ->
  ztake (zlen pend) (room (in_buffer r)) = pend -> Forall (message_ok cap s limits) todo ->
  stream_bytes s todo = input (in_buffer r) ++ pend ++ flying t ++ unsent ->
  recv_steps r t todo unsent
    ('(error, r, t) ← read_handler stream_read cap s limits (zlen pend) r t;
     Ret (mkReceiver (incoming_feeder r) (in_buffer r) (reader r)
            (sink_result error (sink_read r)), t)).
Proof.
  intros Hwf Ha Ht Hd Hp Hroom Hall Hs.
  destruct (read_handler_ok pend r t todo unsent Hwf Ha Ht Hd Hp Hroom Hall Hs)
    as (error&r'&t'&ms&todo'&->&->&Hin&Hrest&Ha'&Hok&He). rewrite bind_ret.
  do 2 eexists. exists ms, todo'. split; [done|]. split_and!; try done.
  destruct He as [->|(->&_&Hrd&_)].
  - rewrite Ha'. destruct r'. cbn in *. by rewrite <- Ha'.
  - split; [apply Hok|]. left. unfold broken. cbn [reader]. by rewrite Hrd, Ht, Hd.
Qed.

Lemma read_done_steps r t todo unsent :
  Forall (message_ok cap s limits) todo -> recv_ok r todo (flying t ++ unsent) ->
  recv_steps r t todo unsent (on_read_done stream_read cap s limits r t).
Proof.
  intros Hall Hok. pose proof Hok as [Hwf Hst]. unfold on_read_done.
  destruct (read_done (reader r)) as [[|x xs]|] eqn:Ed; try by apply recv_stays.
  destruct Hst as [[Ht Hb]|(pend&[Ha Hrec]&Hinc&Hs)].
  - rewrite Ed in Hb. destruct x as [?|e]; [done|]. destruct xs; [|done]. rewrite bind_ret.
    do 2 eexists. exists [], todo. split; [done|]. rewrite app_nil_r. split_and!; try done.
    split; [done|]. left. unfold broken. cbn. by rewrite Ht.
  - destruct (read_task (reader r)) as [task|] eqn:Et.
    { destruct Hrec as (m&_&_&Hd). congruence. }
    destruct Hrec as (Hd&Hp&Hle&Hroom). injection (eq_trans (eq_sym Ed) Hd) as -> ->.
    pose proof (read_handler_steps pend
      (mkReceiver (incoming_feeder r) (in_buffer r)
         (mkReadHelper None (Some []) (read_memory (reader r))) (sink_read r))
      t todo unsent Hwf Ha eq_refl eq_refl Hp Hroom Hall Hs) as Hsteps.
    done.
Qed.

Lemma sink_read_steps r t todo unsent :
  recv_ok r todo (flying t ++ unsent) ->
  recv_steps r t todo unsent (Ret (on_sink_read r, t)).
Proof.
  intros Hok. unfold on_sink_read. destruct (sink_read r) eqn:Es; try by apply recv_stays.
  pose proof Hok as [Hwf Hst]. do 2 eexists. exists [], todo. split; [done|].
  rewrite app_nil_r. split_and!; try done. split; [done|]. left.
  destruct Hst as [[Ht _]|(?&[? _]&_)]; [|congruence]. split; [done|]. done.
Qed.
End receive.

(** ** Sending *)
Section sending.
Context {T R : Type}.
Context (stream_write : list byte -> T -> ErrorOr Z * T).
Context (flying : T -> list byte) (rest : T -> R).
Context (cap : Z) (s : schema) (limits : Limits).

Definition writes_law : Prop := forall bytes t, 0 < zlen bytes ->
  match stream_write bytes t with
  | (IsValue n, t') => 0 < n <= zlen bytes /\ flying t' = flying t ++ ztake n bytes
  | (IsError _, t') => flying t' = flying t
  end.
Definition writes_keep : Prop := forall bytes t, rest (stream_write bytes t).2 = rest t.
Hypothesis law : writes_law.
Hypothesis keep : writes_keep.
Hypothesis schema_ok : schema.ok s = true.

Lemma writes_spec bytes t : 0 < zlen bytes ->
  match stream_write bytes t with
  | (IsValue n, t') => 0 < n <= zlen bytes /\ flying t' = flying t ++ ztake n bytes
  | (IsError e, t') => flying t' = flying t /\ (isCritical e = true -> True)
  end.
Proof.
  intros Hn. specialize (law bytes t Hn). by destruct (stream_write bytes t) as [[e|k] t'].
Qed.

(** The first [n] bytes of the buffer have been taken by the stream, in a write
    of its first [len] ones. *)
Definition sending (w : Sender) (n : Z) : Prop :=
  let b := out_buffer w in
  match write_task (writer w) with
  | Some task => exists len, task = mkWriteTask (read_position b + n) (len - n) n /\
      0 <= n < len /\ len <= zlen (input b) /\ read_position b + len <= Ring.size b /\
      write_done (writer w) = Some []
  | None =>
      match write_done (writer w) with
      | Some [Fed len] =>
          len = n /\ 0 < n <= zlen (input b) /\ read_position b + n <= Ring.size b
      | Some [] | Some [Failed _] | None =>
          0 <= n <= zlen (input b) /\ (input b = [] -> write_done (writer w) = Some [])
      | _ => False
      end
  end /\
  (sink_write w <> Alive -> write_task (writer w) = None /\ input b <> [] /\
     match write_done (writer w) with Some (Fed _ :: _) => False | _ => True end).

(** [unsent] is what the stream has not yet taken. *)
Definition send_ok (w : Sender) (unsent : list byte) : Prop :=
  wf (out_buffer w) /\
  exists n, sending w n /\ unsent = zdrop n (input (out_buffer w)).

(** A write to the stream: the bytes [n] to [n'] of the buffer are taken. *)
Definition after_write (n : Z) (w : Sender) (t : T) (w' : Sender) (t' : T) : Prop :=
  out_buffer w' = out_buffer w /\ sink_write w' = sink_write w /\ rest t' = rest t /\
  exists n', n <= n' /\ sending w' n' /\
    flying t' ++ zdrop n' (input (out_buffer w)) = flying t ++ zdrop n (input (out_buffer w)).

Lemma write_inv_after len n w t h' t' :
  wf (out_buffer w) -> sink_write w = Alive -> rest t' = rest t ->
  0 <= n < len -> len <= zlen (input (out_buffer w)) ->
  read_position (out_buffer w) + len <= Ring.size (out_buffer w) ->
  write_inv flying (fun _ _ => True) (read_position (out_buffer w)) n
    (ztake len (input (out_buffer w))) (buffer (out_buffer w)) (flying t) (Some []) h' t' ->
  after_write n w t (mkSender (out_buffer w) h' (sink_write w)) t'.
Proof.
  intros Hwf Ha Hrest Hn Hlen Hle (n'&Hn'&Hf&Hm&Ht).
  rewrite zlen_take in Hn' by lia. split_and!; [done..|]. exists n'. split; [lia|].
  assert (Hne : input (out_buffer w) <> []).
  { intros E. rewrite E, zlen_nil in Hlen. lia. }
  split.
  - unfold sending. cbn [writer out_buffer sink_write]. split; [|intros ?; congruence].
    destruct (write_task h') as [task|].
    + destruct Ht as (->&?&->). exists len. rewrite !zlen_take in * by lia.
      split_and!; (done || lia).
    + destruct Ht as [[-> ->]|(e&_&_&->)]; cbn [notify app].
      * rewrite zlen_take by lia. split_and!; (done || lia).
      * split; [lia|done].
  - rewrite Hf, <- app_assoc. f_equal.
    rewrite <- (ztake_drop (n' - n) (zdrop n (input (out_buffer w)))), zdrop_drop by lia.
    replace (n + (n' - n)) with n' by lia. f_equal.
    rewrite <- (ztake_drop len (input (out_buffer w))) at 2.
    assert (Hl : zlen (ztake len (input (out_buffer w))) = len) by (apply zlen_take; lia).
    rewrite zdrop_app_le by lia. symmetry. apply ztake_app_le.
    rewrite zlen_drop by lia. lia.
Qed.

Lemma memory_front (b : RingBuffer) len :
  wf b -> 0 <= len <= zlen (input b) -> read_position b + len <= Ring.size b ->
  ztake len (zdrop (read_position b) (buffer b)) = ztake len (input b).
Proof. apply ring_input_front. Qed.

Lemma write_more_ok w t :
  wf (out_buffer w) -> input (out_buffer w) <> [] -> sink_write w = Alive ->
  write_task (writer w) = None -> write_done (writer w) = Some [] ->
  exists w' t', write_more stream_write w t = Ret (w', t') /\ after_write 0 w t w' t'.
Proof.
  intros Hwf Hne Ha Hnone Hd. set (b := out_buffer w) in *.
  destruct (ring_read_pointer b Hwf Hne) as (Hp&len&Hlen&Hl&Hle).
  change (zlen (ring_input b)) with (zlen (input b)) in Hl.
  destruct (law_bounds b Hwf) as [Hbound _]. pose proof Hwf as (Hsz&Hrp&_).
  assert (Hzl : zlen (ztake len (input b)) = len) by (apply zlen_take; lia).
  unfold write_more. fold b. cbn [read_ref readSegmentLength ring_ops].
  rewrite Hp, bind_ret, Hlen, bind_ret. unfold on_writer. fold b. rewrite Hnone, Hd.
  cbn [write_memory].
  destruct (async_write_inv stream_write flying (fun _ _ => True) writes_spec 0 (buffer b)
    (ztake len (input b)) (read_position b) (mkWriteHelper None (Some []) (buffer b)) t)
    as (h'&t'&E&Hinv); try done.
  - lia.
  - rewrite Hzl. zsolve.
  - rewrite Hzl. unfold Ring.size in *. lia.
  - rewrite Hzl. apply memory_front; (done || lia).
  - rewrite Hzl in E. cbn [writeSteps] in E.
    destruct (AsyncIoStream_write _ _ _ _ _ _) as [[h1 t1]|] eqn:E1; [|done].
    rewrite bind_ret in E. injection E as -> ->. rewrite bind_ret.
    do 2 eexists. split; [done|]. apply (write_inv_after len); try done; try lia; [|apply Hl].
    refine (async_write_keeps (fun x => rest x = rest t) _ _ _ _ _ _ _ _ _ eq_refl E1).
    intros bytes x Hx. by rewrite keep.
Qed.

(** *** The events of a sender *)
Definition send_steps (w : Sender) (t : T) (unsent : list byte) (res : outcome (Sender * T))
  : Prop :=
  exists w' t' unsent', res = Ret (w', t') /\ rest t' = rest t /\
    flying t' ++ unsent' = flying t ++ unsent /\ send_ok w' unsent'.

Lemma send_stays w t unsent : send_ok w unsent -> send_steps w t unsent (Ret (w, t)).
Proof. intros H. by exists w, t, unsent. Qed.

Lemma after_write_steps n w t w' t' :
  wf (out_buffer w) -> after_write n w t w' t' ->
  send_steps w t (zdrop n (input (out_buffer w))) (Ret (w', t')).
Proof.
  intros Hwf (Hb&_&Hrest&n'&_&Hs&Hf).
  exists w', t', (zdrop n' (input (out_buffer w))). split_and!; [done..|].
  split; [by rewrite Hb|]. exists n'. by rewrite Hb.
Qed.

Lemma write_ready_steps w t unsent :
  send_ok w unsent -> send_steps w t unsent (on_write_ready stream_write w t).
Proof.
  intros Hok. pose proof Hok as (Hwf&n&[Hs Hsink]&->). unfold on_write_ready, on_writer.
  destruct (write_task (writer w)) as [task|] eqn:Et.
  - destruct Hs as (len&->&Hn&Hl&Hle&Hd). set (b := out_buffer w) in *.
    assert (Ha : sink_write w = Alive).
    { destruct (sink_write w); [done|by destruct Hsink..]. }
    destruct (law_bounds b Hwf) as [Hbound _]. pose proof Hwf as (Hsz&Hrp&_).
    assert (Hzl : zlen (ztake len (input b)) = len) by (apply zlen_take; lia).
    destruct (writeStep_inv stream_write flying (fun _ _ => True) writes_spec
      (read_position b) n (ztake len (input b)) (buffer b) (flying t) (Some []))
      with (h := mkWriteHelper (Some (mkWriteTask (read_position b + n) (len - n) n)) (Some [])
                   (buffer b)) (w := t) as (h'&t'&E&Hinv).
    + rewrite Hzl. split_and!; try lia; try zsolve; [unfold Ring.size in *; lia|].
      apply memory_front; (done || lia).
    + exists n. rewrite Hzl, Z.sub_diag, ztake_0, app_nil_r by lia.
      cbn [write_task write_done write_memory]. split_and!; (done || lia).
    + rewrite Hd, E, bind_ret. apply after_write_steps; [done|].
      apply (write_inv_after len); try done.
      refine (writeStep_keeps (fun x => rest x = rest t) _ _ _ _ _ _ _ E); [|done].
      intros bytes x Hx. by rewrite keep.
  - cbn [write_task writeStep]. unfold writeStep. cbn [write_task]. rewrite bind_ret.
    exists (mkSender (out_buffer w) (mkWriteHelper None (write_done (writer w))
      (buffer (out_buffer w))) (sink_write w)), t, (zdrop n (input (out_buffer w))).
    split_and!; try done. split; [done|]. exists n. split; [|done].
    unfold sending. cbn [writer write_task write_done out_buffer sink_write]. done.
Qed.

Lemma write_done_steps w t unsent :
  send_ok w unsent -> send_steps w t unsent (on_write_done stream_write w t).
Proof.
  intros Hok. pose proof Hok as (Hwf&n&[Hs Hsink]&->). unfold on_write_done.
  destruct (write_done (writer w)) as [[|x xs]|] eqn:Ed; try by apply send_stays.
  destruct (write_task (writer w)) as [task|] eqn:Et.
  { destruct Hs as (?&_&_&_&_&?). congruence. }
  destruct x as [len|e].
  - destruct xs; [|done]. destruct Hs as (->&Hn&Hle).
    assert (Ha : sink_write w = Alive).
    { destruct (sink_write w); [done|by destruct Hsink as (_&_&[])..]. }
    unfold write_handler. cbn [out_buffer].
    destruct (law_readAdvance (out_buffer w) n Hwf) as (b1&->&Hwf1&Hi1&_); [lia|].
    rewrite bind_ret, law_readCompositeLength, bind_ret by done.
    destruct (decide (input b1 = [])) as [E|Hne].
    + rewrite E. exists (mkSender b1 (mkWriteHelper None (Some []) (write_memory (writer w)))
        (sink_write w)), t, []. rewrite <- Hi1, E. split_and!; try done.
      split; [done|]. exists 0. cbn [out_buffer]. rewrite E, zdrop_0 by lia.
      split; [|done]. split; cbn [writer write_task write_done out_buffer sink_write];
        [pose proof (zlen_nonneg (input b1)); split; [lia|done]|congruence].
    + destruct (Z.ltb_spec 0 (zlen (input b1))) as [_|?];
        [|pose proof (zlen_pos _ Hne); lia].
      set (w1 := set_out_buffer b1 _).
      destruct (write_more_ok w1 t Hwf1 Hne Ha eq_refl eq_refl) as (w'&t'&->&Haw).
      pose proof (after_write_steps 0 w1 t w' t' Hwf1 Haw) as Hst.
      cbn [w1 set_out_buffer out_buffer] in Hst. rewrite zdrop_0, Hi1 in Hst by lia. done.
  - destruct xs; [|done]. destruct Hs as [Hn Hne].
    assert (Hne' : input (out_buffer w) <> []) by (intros E; specialize (Hne E); congruence).
    exists (mkSender (out_buffer w) (mkWriteHelper None (Some []) (write_memory (writer w)))
      (sink_result (Some e) (sink_write w))), t, (zdrop n (input (out_buffer w))).
    split_and!; try done. split; [done|]. exists n. split; [|done].
    split; cbn [writer write_task write_done out_buffer sink_write]; [done|].
    intros _. done.
Qed.

Lemma sink_write_steps w t unsent :
  send_ok w unsent -> send_steps w t unsent (Ret (on_sink_write w, t)).
Proof.
  intros Hok. unfold on_sink_write. destruct (sink_write w) eqn:Es; try by apply send_stays.
  pose proof Hok as (Hwf&n&[Hs Hsink]&->). destruct Hsink as (Ht&Hne&Hd); [congruence|].
  exists (mkSender (out_buffer w) (mkWriteHelper (write_task (writer w)) None
    (write_memory (writer w))) Destroyed), t, (zdrop n (input (out_buffer w))).
  split_and!; try done. split; [done|]. exists n. split; [|done].
  unfold sending in *. cbn [writer write_task write_done out_buffer sink_write].
  rewrite Ht in *. split; [|done]. split; [|done].
  destruct (write_done (writer w)) as [[|[?|?] [|? ?]]|]; try done; lia || by destruct Hs.
Qed.

Lemma send_message_steps m w t unsent :
  typed s m = true -> zlen (packet_bytes s m) < size_mod -> send_ok w unsent ->
  exists e w' t' unsent', send stream_write s m w t = Ret (e, w', t') /\ rest t' = rest t /\
    flying t' ++ unsent' =
      flying t ++ unsent ++ (if failed e then [] else packet_bytes s m) /\
    send_ok w' unsent' /\ (failed e = true -> out_buffer w' = out_buffer w).
Proof.
  intros Htyped Hsz Hok. pose proof Hok as (Hwf&n&[Hs Hsink]&->).
  unfold send. cbn [readSegmentLength ring_ops]. set (b := out_buffer w) in *.
  assert (Hseg : exists k, Ring.readSegmentLength 0 b = Ret k /\ (k = 0 <-> input b = [])).
  { destruct (decide (input b = [])) as [E|E].
    - exists 0. split; [by apply ring_no_segment|done].
    - destruct (ring_read_pointer b Hwf E) as (_&k&->&?&_). exists k.
      split; [done|]. split; [lia|done]. }
  destruct Hseg as (k&->&Hk). rewrite bind_ret.
  destruct (Z.le_gt_cases (zlen (packet_bytes s m)) (zlen (room b))) as [Hfits|Hfull].
  - rewrite packet_len in Hfits, Hsz.
    destruct (encode_packet s m b schema_ok Htyped Hwf Hfits) as (b'&->&Hwf'&Hi'&_&[= Hsz' Hrp]).
    rewrite bind_ret. change (failed noError) with false. cbn iota.
    set (w1 := set_out_buffer b' w).
    assert (Hpk : 0 < zlen (packet_bytes s m)).
    { rewrite packet_len. pose proof (zlen_nonneg (encode_bytes s m)). lia. }
    destruct (Z.eqb_spec k 0) as [E|E].
    + apply Hk in E. rewrite E, app_nil_l in Hi'.
      assert (Hidle : write_task (writer w) = None /\ write_done (writer w) = Some [] /\
        sink_write w = Alive).
      { destruct (write_task (writer w)) as [task|].
        { destruct Hs as (len&_&?&Hl&_). fold b in Hl. rewrite E, zlen_nil in Hl. lia. }
        fold b in Hs, Hsink. rewrite E in Hs.
        destruct (write_done (writer w)) as [[|[?|?] [|? ?]]|];
          try done; try (destruct Hs as [_ Hs]; by specialize (Hs eq_refl)).
        - split_and!; [done..|]. destruct (sink_write w); [done|by destruct Hsink as (_&?&_)..].
        - destruct Hs as (_&Hs&_). change (zlen (@nil byte)) with 0 in Hs. lia. }
      destruct Hidle as (Ht&Hd&Ha).
      assert (Hne : input b' <> []).
      { intros E'. rewrite E' in Hi'. rewrite <- Hi' in Hpk. done. }
      destruct (write_more_ok w1 t Hwf' Hne Ha Ht Hd) as (w'&t'&->&Haw). rewrite bind_ret.
      destruct (after_write_steps 0 w1 t w' t' Hwf' Haw) as (w2&t2&u'&[= <- <-]&Hrest&Hf&Hok').
      cbn [w1 set_out_buffer out_buffer] in Hf. rewrite zdrop_0 in Hf by lia.
      exists noError, w', t', u'. change (failed noError) with false. cbn iota.
      split_and!; try done. rewrite Hf, Hi', E. unfold zdrop. by rewrite drop_nil.
    + assert (Hne : input b <> []) by (intros E'; apply E; by apply Hk).
      assert (Hne' : input b' <> []).
      { rewrite Hi'. intros E'. by apply app_eq_nil in E' as [? _]. }
      assert (Hn : 0 <= n <= zlen (input b)).
      { fold b in Hs. destruct (write_task (writer w)) as [task|].
        - destruct Hs as (len&_&?&?&_). lia.
        - destruct (write_done (writer w)) as [[|[?|?] [|? ?]]|]; try done;
            destruct Hs as (?&?); lia. }
      exists noError, w1, t, (zdrop n (input b')). change (failed noError) with false. cbn iota.
      split_and!; try done.
      * by rewrite Hi', zdrop_app_le by lia.
      * split; [done|]. exists n. split; [|done].
        assert (Hl : zlen (input b) <= zlen (input b')).
        { rewrite Hi', zlen_app. lia. }
        split; cbn [w1 set_out_buffer writer out_buffer sink_write];
          [|intros Hx; fold b in Hsink; destruct (Hsink Hx) as (?&_&?); by split_and!].
        fold b in Hs. rewrite Hsz', Hrp.
        destruct (write_task (writer w)) as [task|].
        -- destruct Hs as (len&?&?&?&?&?). exists len. split_and!; (done || lia).
        -- destruct (write_done (writer w)) as [[|[?|?] [|? ?]]|]; try done.
           ++ split; [lia|done].
           ++ destruct Hs as (?&?&?). split_and!; (done || lia).
           ++ split; [lia|done].
           ++ split; [lia|done].
  - rewrite packet_len in Hfull, Hsz.
    destruct (encode_refused s m b schema_ok Htyped Hwf) as (e&->&Hrec); [lia..|].
    rewrite bind_ret, (isRecoverable_failed _ Hrec).
    exists e, (set_out_buffer b w), t, (zdrop n (input b)).
    rewrite (isRecoverable_failed _ Hrec), app_nil_r. split_and!; try done.
Qed.
End sending.
