(* ===== verification/IoPeerLink.v ===== *)
(** Two [StreamingIoPeer]s over one wire: whatever is sent arrives, once and in
    order, for every interleaving of the events of both; and what a full buffer
    does to a peer. *)

From S2P Require Import Prelude Error Buffer RingBuffer Message MessageAccess ProtoKel ProtoKelDecode ProtoKelCodec IoHelpers IoPeer IoPeerTheory.

Lemma recv_ok_app s r todo ms future :
  recv_ok s r todo future -> recv_ok s r (todo ++ ms) (future ++ stream_bytes s ms).
Proof.
  revert todo future. induction ms as [|m ms IH]; intros todo future Hok.
  - by rewrite !app_nil_r.
  - pose proof (IH _ _ (recv_ok_snoc s _ _ m _ Hok)) as Hok'.
    by rewrite <- !app_assoc in Hok'.
Qed.

Lemma new_sender_ok outb :
  wf outb -> input outb = [] ->
  send_ok (mkSender outb (mkWriteHelper None (Some []) (buffer outb)) Alive) [].
Proof.
  intros Hwf Ho. split; [done|]. exists 0. cbn [out_buffer]. rewrite zdrop_0, Ho by lia.
  split; [|done]. split; cbn [writer write_task write_done out_buffer sink_write]; [|done].
  rewrite Ho. by split_and!.
Qed.

(** ** One peer *)
Section one_peer.
Context {T : Type}.
Context (stream_read : Z -> T -> ErrorOr Z * list byte * T).
Context (stream_write : list byte -> T -> ErrorOr Z * T).
(** What comes to the peer and what leaves it. *)
Context (fin fout : T -> list byte).
Context (cap : Z) (Incoming Outgoing : schema) (limits : Limits).
Hypothesis reads : reads_law stream_read fin.
Hypothesis reads_apart : reads_keep stream_read fout.
Hypothesis writes : writes_law stream_write fout.
Hypothesis writes_apart : writes_keep stream_write fin.
Hypothesis incoming_ok : schema.ok Incoming = true.
Hypothesis outgoing_ok : schema.ok Outgoing = true.

(** The messages given to [send] can be encoded. *)
Definition sends_ok (ok : message -> Prop) (ev : peer_event) : Prop :=
  match ev with Send m => ok m | _ => True end.

Lemma peer_step_ok ok ev p t todo uin uout :
  (forall m, ok m -> typed Outgoing m = true /\ zlen (packet_bytes Outgoing m) < size_mod) ->
  sends_ok ok ev -> Forall (message_ok cap Incoming limits) todo ->
  recv_ok Incoming (receiver p) todo (fin t ++ uin) -> send_ok (sender p) uout ->
  exists ms p' t' got todo' uout',
    peer_step stream_read stream_write cap Incoming Outgoing limits ev p t = Ret (ms, p', t') /\
    todo = got ++ todo' /\
    incoming_feeder (receiver p') = incoming_feeder (receiver p) ++ got /\
    recv_ok Incoming (receiver p') todo' (fin t' ++ uin) /\ send_ok (sender p') uout' /\
    fout t' ++ uout' = fout t ++ uout ++ stream_bytes Outgoing ms /\ Forall ok ms.
Proof.
  intros Hok Hev Hall Hr Hw.
  assert (Hrecv : forall f, recv_steps fin fout Incoming (receiver p) t todo uin f ->
    exists ms p' t' got todo' uout',
      ('(r, k) ← f; Ret ([], mkPeer r (sender p), k)) = Ret (ms, p', t') /\
      todo = got ++ todo' /\
      incoming_feeder (receiver p') = incoming_feeder (receiver p) ++ got /\
      recv_ok Incoming (receiver p') todo' (fin t' ++ uin) /\ send_ok (sender p') uout' /\
      fout t' ++ uout' = fout t ++ uout ++ stream_bytes Outgoing ms /\ Forall ok ms).
  { intros f (r'&t'&got&todo'&->&->&Hin&Hrest&Hr'). rewrite bind_ret.
    exists [], (mkPeer r' (sender p)), t', got, todo', uout. cbn [receiver sender].
    rewrite Hrest. unfold stream_bytes. cbn. rewrite app_nil_r. by split_and!. }
  assert (Hsend : forall f, send_steps fout fin (sender p) t uout f ->
    exists ms p' t' got todo' uout',
      ('(w, k) ← f; Ret ([], mkPeer (receiver p) w, k)) = Ret (ms, p', t') /\
      todo = got ++ todo' /\
      incoming_feeder (receiver p') = incoming_feeder (receiver p) ++ got /\
      recv_ok Incoming (receiver p') todo' (fin t' ++ uin) /\ send_ok (sender p') uout' /\
      fout t' ++ uout' = fout t ++ uout ++ stream_bytes Outgoing ms /\ Forall ok ms).
  { intros f (w'&t'&uout'&->&Hrest&Hf&Hw'). rewrite bind_ret.
    exists [], (mkPeer (receiver p) w'), t', [], todo, uout'. cbn [receiver sender].
    rewrite Hrest, Hf. unfold stream_bytes. cbn. rewrite !app_nil_r. by split_and!. }
  destruct ev as [| | |m| | |]; cbn [peer_step].
  - apply Hrecv. by eapply read_ready_steps.
  - apply Hrecv. by eapply read_done_steps.
  - apply (Hrecv (Ret (on_sink_read (receiver p), t))). by eapply sink_read_steps.
  - destruct (Hok m Hev) as [Htyped Hsz].
    destruct (send_message_steps stream_write fout fin Outgoing writes writes_apart outgoing_ok
      m (sender p) t uout Htyped Hsz Hw) as (e&w'&t'&uout'&->&Hrest&Hf&Hw'&_).
    rewrite bind_ret.
    exists (if failed e then [] else [m]), (mkPeer (receiver p) w'), t', [], todo, uout'.
    cbn [receiver sender]. rewrite Hrest, Hf, app_nil_r. unfold stream_bytes.
    destruct (failed e); cbn; rewrite ?app_nil_r; split_and!; try done.
    by apply Forall_singleton.
  - apply Hsend. by eapply write_ready_steps.
  - apply Hsend. by eapply write_done_steps.
  - apply (Hsend (Ret (on_sink_write (sender p), t))). by eapply sink_write_steps.
Qed.

Lemma new_peer_ok inb outb t :
  wf inb -> wf outb -> input inb = [] -> input outb = [] -> room inb <> [] -> fin t = [] ->
  exists p t', new_peer stream_read inb outb t = Ret (p, t') /\ fin t' = [] /\
    fout t' = fout t /\ incoming_feeder (receiver p) = [] /\
    recv_ok Incoming (receiver p) [] [] /\ send_ok (sender p) [].
Proof.
  intros Hwi Hwo Hi Ho Hne Hf. unfold new_peer. set (r0 := mkReceiver _ _ _ _).
  destruct (read_more_receiving stream_read fin fout reads reads_apart r0 t Hwi Hne
    eq_refl eq_refl eq_refl) as (r'&t'&->&Hwf'&Hi'&Hin&Hrest&_&[taken Hs]&Hst).
  rewrite bind_ret. do 2 eexists. split; [done|]. cbn [receiver sender].
  rewrite Hf in Hs. destruct (app_eq_nil _ _ (eq_sym Hs)) as [_ Hf'].
  cbn [r0 in_buffer] in Hi'. rewrite Hi in Hi'. split_and!; try done.
  - split; [done|]. destruct Hst as [?|(pend&?&E)]; [by left|right].
    rewrite Hf in E. destruct (app_eq_nil _ _ (eq_sym E)) as [-> _].
    exists []. rewrite Hi'. by split_and!.
  - by apply new_sender_ok.
Qed.
End one_peer.

(** ** Two peers and the wire between them *)
Section link.
Context {K : Type}.
Context (read_a read_b : Z -> K -> ErrorOr Z * list byte * K).
Context (write_a write_b : list byte -> K -> ErrorOr Z * K).
(** The bytes on their way from A to B and from B to A. *)
Context (ab ba : K -> list byte).
Context (cap : Z) (SchemaAB SchemaBA : schema) (limits : Limits).

(** [sent_a] are the messages that [send] of A has accepted. *)
Record Link := mkLink {
  peer_a : StreamingIoPeer;
  peer_b : StreamingIoPeer;
  wire : K;
  sent_a : list message;
  sent_b : list message
}.

Definition link_step (ev : peer_event + peer_event) (l : Link) : outcome Link :=
  match ev with
  | inl ev =>
      '(ms, p, k) ← peer_step read_a write_a cap SchemaBA SchemaAB limits ev (peer_a l) (wire l);
      Ret (mkLink p (peer_b l) k (sent_a l ++ ms) (sent_b l))
  | inr ev =>
      '(ms, p, k) ← peer_step read_b write_b cap SchemaAB SchemaBA limits ev (peer_b l) (wire l);
      Ret (mkLink (peer_a l) p k (sent_a l) (sent_b l ++ ms))
  end.

Fixpoint link_run (evs : list (peer_event + peer_event)) (l : Link) : outcome Link :=
  match evs with
  | [] => Ret l
  | ev :: evs => l ← link_step ev l; link_run evs l
  end.

Definition link_start (inb_a outb_a inb_b outb_b : RingBuffer) (k : K) : outcome Link :=
  '(a, k) ← new_peer read_a inb_a outb_a k;
  '(b, k) ← new_peer read_b inb_b outb_b k;
  Ret (mkLink a b k [] []).

Definition link_event_ok (ev : peer_event + peer_event) : Prop :=
  match ev with
  | inl ev => sends_ok (message_ok cap SchemaAB limits) ev
  | inr ev => sends_ok (message_ok cap SchemaBA limits) ev
  end.

(** Each end's operations keep the stream's promises and leave the other
    direction alone. *)
Definition wire_ok : Prop :=
  (reads_law read_a ba /\ reads_keep read_a ab /\ writes_law write_a ab /\ writes_keep write_a ba) /\
  (reads_law read_b ab /\ reads_keep read_b ba /\ writes_law write_b ba /\ writes_keep write_b ab).

(** One direction: what was sent is with the receiver, in flight, or still in
    the sender's buffer. *)
Definition direction (s : schema) (w : Sender) (flying : list byte) (r : Receiver)
    (sent : list message) : Prop :=
  exists todo unsent, sent = incoming_feeder r ++ todo /\
    Forall (message_ok cap s limits) todo /\
    recv_ok s r todo (flying ++ unsent) /\ send_ok w unsent.

Definition link_ok (l : Link) : Prop :=
  direction SchemaAB (sender (peer_a l)) (ab (wire l)) (receiver (peer_b l)) (sent_a l) /\
  direction SchemaBA (sender (peer_b l)) (ba (wire l)) (receiver (peer_a l)) (sent_b l).

Hypothesis wires : wire_ok.
Hypothesis ab_ok : schema.ok SchemaAB = true.
Hypothesis ba_ok : schema.ok SchemaBA = true.

Lemma link_step_ok ev l :
  link_ok l -> link_event_ok ev -> exists l', link_step ev l = Ret l' /\ link_ok l'.
Proof.
  destruct wires as [(?&?&?&?) (?&?&?&?)].
  assert (Hty : forall s m, message_ok cap s limits m ->
    typed s m = true /\ zlen (packet_bytes s m) < size_mod) by (intros ?? (?&?&?&?); done).
  intros [(todo1&u1&Hs1&Ha1&Hr1&Hw1) (todo2&u2&Hs2&Ha2&Hr2&Hw2)] Hev.
  destruct ev as [ev|ev]; cbn [link_step link_event_ok] in *.
  - destruct (peer_step_ok read_a write_a ba ab cap SchemaBA SchemaAB limits) with
      (ok := message_ok cap SchemaAB limits) (ev := ev) (p := peer_a l) (t := wire l)
      (todo := todo2) (uin := u2) (uout := u1)
      as (ms&p'&k'&got&todo'&u'&->&->&Hin&Hr&Hw&Hf&Hms); try done; [by apply Hty|].
    rewrite bind_ret. eexists. split; [done|]. split; cbn.
    + exists (todo1 ++ ms), u'. rewrite Hs1, Hf, <- app_assoc. split_and!; try done.
      * by apply Forall_app.
      * rewrite (app_assoc (ab (wire l))). by apply recv_ok_app.
    + exists todo', u2. rewrite Hs2, Hin, <- app_assoc. split_and!; try done.
      by apply Forall_app in Ha2 as [_ ?].
  - destruct (peer_step_ok read_b write_b ab ba cap SchemaAB SchemaBA limits) with
      (ok := message_ok cap SchemaBA limits) (ev := ev) (p := peer_b l) (t := wire l)
      (todo := todo1) (uin := u1) (uout := u2)
      as (ms&p'&k'&got&todo'&u'&->&->&Hin&Hr&Hw&Hf&Hms); try done; [by apply Hty|].
    rewrite bind_ret. eexists. split; [done|]. split; cbn.
    + exists todo', u1. rewrite Hs1, Hin, <- app_assoc. split_and!; try done.
      by apply Forall_app in Ha1 as [_ ?].
    + exists (todo2 ++ ms), u'. rewrite Hs2, Hf, <- app_assoc. split_and!; try done.
      * by apply Forall_app.
      * rewrite (app_assoc (ba (wire l))). by apply recv_ok_app.
Qed.

Lemma link_run_ok evs l :
  link_ok l -> Forall link_event_ok evs -> exists l', link_run evs l = Ret l' /\ link_ok l'.
Proof.
  revert l. induction evs as [|ev evs IH]; intros l Hl Hevs; cbn [link_run]; [by exists l|].
  apply Forall_cons_1 in Hevs as [Hev Hevs].
  destruct (link_step_ok ev l Hl Hev) as (l'&->&Hl'). rewrite bind_ret. by apply IH.
Qed.

Definition fresh (b : RingBuffer) : Prop := wf b /\ input b = [] /\ room b <> [].

Lemma link_start_ok inb_a outb_a inb_b outb_b k :
  fresh inb_a -> fresh outb_a -> fresh inb_b -> fresh outb_b -> ab k = [] -> ba k = [] ->
  exists l, link_start inb_a outb_a inb_b outb_b k = Ret l /\ link_ok l.
Proof.
  destruct wires as [(?&?&_&_) (?&?&_&_)].
  intros (?&?&?) (?&?&_) (?&?&?) (?&?&_) Hab Hba. unfold link_start.
  destruct (new_peer_ok read_a ba ab SchemaBA) with (inb := inb_a) (outb := outb_a) (t := k)
    as (a&k1&->&Hba1&Hab1&Hina&Hra&Hwa); try done. rewrite bind_ret.
  destruct (new_peer_ok read_b ab ba SchemaAB) with (inb := inb_b) (outb := outb_b) (t := k1)
    as (b&k2&->&Hab2&Hba2&Hinb&Hrb&Hwb); try done; [by rewrite Hab1|]. rewrite bind_ret.
  eexists. split; [done|]. split; cbn; exists [], [].
  - rewrite Hinb, Hab2. by split_and!.
  - rewrite Hina, Hba2, Hba1. by split_and!.
Qed.

(** Nothing is left anywhere in a direction whose receiver is reading. *)
Lemma direction_quiet s w r sent :
  direction s w [] r sent -> input (out_buffer w) = [] -> read_task (reader r) <> None ->
  incoming_feeder r = sent.
Proof.
  intros (todo&unsent&->&_&[Hwf Hst]&(_&n&_&->)) Hi Ht.
  rewrite Hi in Hst. unfold zdrop in Hst. rewrite drop_nil in Hst.
  destruct Hst as [[? _]|(pend&[_ Hrec]&Hinc&Hs)]; [done|].
  destruct (read_task (reader r)) as [task|]; [|done]. destruct Hrec as (m&_&->&_).
  rewrite !app_nil_r in Hs. destruct todo as [|m' todo]; [by rewrite app_nil_r|].
  cbn [incomplete] in Hinc. rewrite <- Hs in Hinc. unfold stream_bytes in Hinc.
  cbn in Hinc. rewrite zlen_app in Hinc. pose proof (zlen_nonneg (concat (map (packet_bytes s) todo))). lia.
Qed.

(** C5: Two peers over a wire that loses nothing: whatever order the events of both
    come in, no operation faults or spins, each side has received a prefix of what
    the other side's [send] accepted, in order and once each, whatever errors the
    streams report; and when nothing is buffered or in flight and the receiver
    waits for bytes, it has received all of it. *)
Theorem peer_link_delivers inb_a outb_a inb_b outb_b k evs :
  fresh inb_a -> fresh outb_a -> fresh inb_b -> fresh outb_b -> ab k = [] -> ba k = [] ->
  Forall link_event_ok evs ->
  exists l, (l ← link_start inb_a outb_a inb_b outb_b k; link_run evs l) = Ret l /\
    incoming_feeder (receiver (peer_b l)) `prefix_of` sent_a l /\
    incoming_feeder (receiver (peer_a l)) `prefix_of` sent_b l /\
    (input (out_buffer (sender (peer_a l))) = [] -> ab (wire l) = [] ->
     read_task (reader (receiver (peer_b l))) <> None ->
     incoming_feeder (receiver (peer_b l)) = sent_a l) /\
    (input (out_buffer (sender (peer_b l))) = [] -> ba (wire l) = [] ->
     read_task (reader (receiver (peer_a l))) <> None ->
     incoming_feeder (receiver (peer_a l)) = sent_b l).
Proof.
  intros Hia Hoa Hib Hob Hab Hba Hevs.
  destruct (link_start_ok inb_a outb_a inb_b outb_b k) as (l0&->&Hl0); [done..|].
  rewrite bind_ret. destruct (link_run_ok evs l0 Hl0 Hevs) as (l&->&Hd1&Hd2).
  exists l. split; [done|]. pose proof Hd1 as (?&?&E1&_). pose proof Hd2 as (?&?&E2&_).
  split_and!; [rewrite E1; by eexists|rewrite E2; by eexists|..].
  - intros Hi Hf. rewrite Hf in Hd1. by apply (direction_quiet _ _ _ _ Hd1).
  - intros Hi Hf. rewrite Hf in Hd2. by apply (direction_quiet _ _ _ _ Hd2).
Qed.
End link.

(** *** A concrete wire *)
(** Two queues; a read takes at most five bytes, a write at most seven. *)
Definition queue_read (n : Z) (q : list byte) : ErrorOr Z * list byte * list byte :=
  match q with
  | [] => (IsError (recoverableError "Currently not in read ready"), [], q)
  | _ => let k := Z.min (Z.min 5 n) (zlen q) in (IsValue k, ztake k q, zdrop k q)
  end.
Definition queue_write (bytes q : list byte) : ErrorOr Z * list byte :=
  let k := Z.min 7 (zlen bytes) in (IsValue k, q ++ ztake k bytes).

Definition wire_read_a (n : Z) (k : list byte * list byte) :=
  let '(res, q) := queue_read n k.2 in (res, (k.1, q)).
Definition wire_read_b (n : Z) (k : list byte * list byte) :=
  let '(res, q) := queue_read n k.1 in (res, (q, k.2)).
Definition wire_write_a (bytes : list byte) (k : list byte * list byte) :=
  let '(res, q) := queue_write bytes k.1 in (res, (q, k.2)).
Definition wire_write_b (bytes : list byte) (k : list byte * list byte) :=
  let '(res, q) := queue_write bytes k.2 in (res, (k.1, q)).

Lemma queue_read_law n q :
  0 < n ->
  match queue_read n q with
  | (IsValue k, bytes, q') => 0 < k <= n /\ zlen bytes = k /\ q = bytes ++ q'
  | (IsError _, bytes, q') => bytes = [] /\ q' = q
  end.
Proof.
  intros Hn. destruct q as [|x q]; [done|]. unfold queue_read.
  set (l := x :: q). pose proof (zlen_pos l ltac:(done)).
  split; [lia|]. split; [apply zlen_take; lia|]. by rewrite ztake_drop.
Qed.

Lemma wire_queues_ok : wire_ok wire_read_a wire_read_b wire_write_a wire_write_b fst snd.
Proof.
  assert (Hr : forall n q k b q', queue_read n q = (k, b, q') -> 0 < n ->
    match k with
    | IsValue k => 0 < k <= n /\ zlen b = k /\ q = b ++ q'
    | IsError _ => b = [] /\ q' = q
    end).
  { intros n q k b q' E Hn. pose proof (queue_read_law n q Hn) as H. rewrite E in H.
    by destruct k. }
  unfold wire_ok, reads_law, reads_keep, writes_law, writes_keep.
  split_and!;
    [intros n [q1 q2] Hn|intros n [q1 q2]|intros bs [q1 q2] Hn|intros bs [q1 q2]
    |intros n [q1 q2] Hn|intros n [q1 q2]|intros bs [q1 q2] Hn|intros bs [q1 q2]];
    unfold wire_read_a, wire_read_b, wire_write_a, wire_write_b; cbn [fst snd].
  1, 5: destruct (queue_read _ _) as [[k b] q'] eqn:E; specialize (Hr _ _ _ _ _ E Hn); by destruct k.
  1, 4: by destruct (queue_read _ _) as [[k b] q'].
  all: unfold queue_write; cbn [fst snd]; split_and?; first [done|lia].
Qed.

(** Two small messages one way and one the other way. *)
Definition link_events : list (peer_event + peer_event) :=
  [inl (Send sample_message); inl (Send (default_message sample_schema)); inr ReadReady;
   inr (Send (MPrimitive 42)); inl WriteDone; inr ReadDone; inr ReadDone; inl ReadReady;
   inl ReadDone; inr WriteDone; inl ReadDone; inr ReadDone; inr ReadDone; inr ReadDone;
   inr ReadDone; inr ReadDone; inr ReadReady; inr ReadDone; inr ReadDone; inr ReadDone;
   inr ReadDone; inr ReadDone; inr ReadDone; inr ReadDone; inr ReadReady; inr SinkRead;
   inl WriteDone; inr ReadDone].

Definition empty_ring (n : nat) : RingBuffer := mkRing (replicate n x00) 0 0 false.

Abbreviation sample_link :=
  (l ← link_start wire_read_a wire_read_b (empty_ring 40) (empty_ring 90) (empty_ring 50)
     (empty_ring 9) ([], []);
   link_run wire_read_a wire_read_b wire_write_a wire_write_b 1000 sample_schema
     schema.UInt8 default_limits link_events l).

Ltac solve_fresh :=
  split; [vm_compute; repeat split; discriminate|split; [reflexivity|vm_compute; discriminate]].

Lemma peer_link_delivers_witness :
  exists l, sample_link = Ret l /\
    incoming_feeder (receiver (peer_b l)) `prefix_of` sent_a l /\
    incoming_feeder (receiver (peer_a l)) `prefix_of` sent_b l /\
    incoming_feeder (receiver (peer_b l)) = [sample_message; default_message sample_schema] /\
    incoming_feeder (receiver (peer_a l)) = [MPrimitive 42] /\
    incoming_feeder (receiver (peer_b l)) = sent_a l.
Proof.
  destruct (peer_link_delivers wire_read_a wire_read_b wire_write_a wire_write_b fst snd 1000
    sample_schema schema.UInt8 default_limits wire_queues_ok eq_refl eq_refl
    (empty_ring 40) (empty_ring 90) (empty_ring 50) (empty_ring 9) ([], []) link_events)
    as (l&E&Ha&Hb&Hall&_); [solve_fresh..|reflexivity|reflexivity| |].
  - repeat constructor; vm_compute; discriminate.
  - assert (Hr : match sample_link with
      | Ret l =>
          incoming_feeder (receiver (peer_b l)) =
            [sample_message; default_message sample_schema] /\
          incoming_feeder (receiver (peer_a l)) = [MPrimitive 42] /\
          input (out_buffer (sender (peer_a l))) = [] /\ (wire l).1 = [] /\
          read_task (reader (receiver (peer_b l))) <> None
      | _ => False
      end) by (vm_compute; repeat split; discriminate).
    rewrite E in Hr. destruct Hr as (Hrb&Hra&Ho&Hw&Ht).
    exists l. exact (conj E (conj Ha (conj Hb (conj Hrb (conj Hra (Hall Ho Hw Ht)))))).
Defined.

(** ** A full buffer *)
Section full_buffer.
Context {K : Type} (stream_read : Z -> K -> ErrorOr Z * list byte * K).
Context (stream_write : list byte -> K -> ErrorOr Z * K).
Context (cap : Z) (Incoming Outgoing : schema) (limits : Limits).

(** The events of the receiving half. *)
Fixpoint receive_run (evs : list peer_event) (p : StreamingIoPeer) (k : K)
  : outcome (StreamingIoPeer * K) :=
  match evs with
  | [] => Ret (p, k)
  | ev :: evs =>
      '(_, p, k) ← peer_step stream_read stream_write cap Incoming Outgoing limits ev p k;
      receive_run evs p k
  end.

Definition receiving_event (ev : peer_event) : Prop :=
  match ev with ReadReady | ReadDone | SinkRead => True | _ => False end.

(** It has stopped with the messages [ms] passed on and [bytes] in its buffer. *)
Definition stuck (ms : list message) (bytes : list byte) (r : Receiver) : Prop :=
  incoming_feeder r = ms /\ input (in_buffer r) = bytes /\ sink_read r <> Alive /\
  read_task (reader r) = None /\
  (read_done (reader r) = Some [] \/ read_done (reader r) = None).

Lemma stuck_stays ev ms bytes p k :
  receiving_event ev -> stuck ms bytes (receiver p) ->
  exists p', peer_step stream_read stream_write cap Incoming Outgoing limits ev p k =
      Ret ([], p', k) /\ stuck ms bytes (receiver p').
Proof.
  intros Hev (Hin&Hi&Hs&Ht&Hd). destruct ev; try done; cbn [peer_step].
  - unfold on_read_ready, on_reader, readStep. cbn [read_task]. rewrite Ht, !bind_ret.
    eexists. split; [done|]. unfold stuck. cbn [receiver incoming_feeder in_buffer sink_read reader
      read_task read_done read_memory]. rewrite set_buffer_same. by split_and!.
  - unfold on_read_done. destruct p as [r w]. cbn [receiver] in *.
    assert (Hst : stuck ms bytes r) by done.
    destruct Hd as [E|E]; rewrite E, bind_ret; by exists (mkPeer r w).
  - eexists. split; [done|]. unfold on_sink_read.
    destruct (sink_read (receiver p)) eqn:Es; [done| |];
      unfold stuck; cbn [receiver incoming_feeder in_buffer sink_read reader read_task read_done];
      rewrite ?Es; split_and!; first [done|by right].
Qed.

Lemma stuck_run evs ms bytes p k :
  Forall receiving_event evs -> stuck ms bytes (receiver p) ->
  exists p', receive_run evs p k = Ret (p', k) /\ stuck ms bytes (receiver p').
Proof.
  revert p. induction evs as [|ev evs IH]; intros p Hevs Hp; cbn [receive_run]; [by exists p|].
  apply Forall_cons_1 in Hevs as [Hev Hevs].
  destruct (stuck_stays ev ms bytes p k Hev Hp) as (p'&->&Hp'). rewrite bind_ret. by apply IH.
Qed.

(** C36: When what was read fills the buffer to its last byte, the peer is finished:
    the function behind [readDone] answers "Message too long" before it decodes
    anything, so whole messages in the buffer are never passed on; the sink is
    destroyed, nothing is read from the stream any more, whatever receiving events
    follow, and the [incoming_feeder] is not told of the error. *)
Theorem peer_full_buffer_fatal p k n evs :
  let r := receiver p in
  wf (in_buffer r) -> n = zlen (room (in_buffer r)) -> 0 < n -> sink_read r = Alive ->
  read_task (reader r) = None -> read_done (reader r) = Some [Fed n] ->
  Forall receiving_event evs ->
  exists p', receive_run (ReadDone :: evs) p k = Ret (p', k) /\
    stuck (incoming_feeder r) (input (in_buffer r) ++ room (in_buffer r)) (receiver p').
Proof.
  intros r Hwf Hn Hpos Ha Ht Hd Hevs. cbn [receive_run peer_step].
  unfold on_read_done. fold r. rewrite Hd. unfold read_handler. cbn [in_buffer].
  destruct (law_writeAdvance (in_buffer r) n Hwf) as (b1&->&Hwf1&Hi1&Hr1&_); [lia|].
  rewrite bind_ret. cbn [writeSegmentLength ring_ops].
  rewrite (proj2 (ring_no_segment b1 Hwf1)), bind_ret.
  2: { change (room b1 = []). rewrite Hr1. apply zlen_zero. rewrite zlen_drop by lia. lia. }
  cbn [Z.eqb]. rewrite !bind_ret. apply stuck_run; [done|].
  rewrite ztake_all in Hi1 by lia. rewrite Ha, Ht. split_and!; try done. by left.
Qed.
End full_buffer.

(** One packet of nine bytes, read in one go to a ring of nine. *)
Definition full_peer : StreamingIoPeer :=
  mkPeer
    (mkReceiver [] (mkRing (packet_bytes schema.UInt8 (MPrimitive 42)) 0 0 false)
       (mkReadHelper None (Some [Fed 9]) []) Alive)
    (mkSender (empty_ring 9) (mkWriteHelper None (Some []) []) Alive).

Lemma peer_full_buffer_fatal_witness :
  exists p', receive_run wire_read_b wire_write_b 1000 schema.UInt8 schema.UInt8 default_limits
      [ReadDone; ReadReady; SinkRead; ReadDone] full_peer ([x2a], []) = Ret (p', ([x2a], [])) /\
    stuck [] (packet_bytes schema.UInt8 (MPrimitive 42)) (receiver p').
Proof.
  apply (peer_full_buffer_fatal wire_read_b wire_write_b 1000 schema.UInt8 schema.UInt8
    default_limits full_peer ([x2a], []) 9 [ReadReady; SinkRead; ReadDone]);
    [vm_compute; repeat split; discriminate|reflexivity|lia|reflexivity..|].
  repeat constructor.
Defined.
