(* ===== verification/SocketPeers.v ===== *)
(** Peers over sockets: the streams of the Unix driver keep the promises that
    [IoPeerLink] asks of a wire, so that what it proves holds of two
    [StreamingIoPeer]s at the ends of a connected pair of sockets. *)

From S2P Require Import Prelude Error IoHelpers UnixIo UnixTheory IoPeerTheory IoPeerLink.

Section socket.
Context {K R : Type} (recv : Z -> K -> Z * list byte * K) (send : list byte -> K -> Z * K).
Context (errno : K -> Z) (source sunk : K -> list byte) (closed : K -> Prop) (rest : K -> R).

Lemma socket_reads : recv_law recv source closed -> reads_law (UnixIoStream_read recv) source.
Proof.
  intros Hlaw n k Hn. pose proof (unix_read_spec recv source closed Hlaw n k Hn) as H.
  destruct (UnixIoStream_read recv n k) as [[[e|m] bytes] k']; [|done]. by destruct H as (?&?&_).
Qed.

Lemma socket_reads_keep :
  (forall n k, rest (recv n k).2 = rest k) -> reads_keep (UnixIoStream_read recv) rest.
Proof.
  intros Hk n k. pose proof (Hk n k) as H. unfold UnixIoStream_read.
  destruct (recv n k) as [[rc bytes] k']. by repeat bcase.
Qed.

Lemma socket_writes : send_law send sunk -> writes_law (UnixIoStream_write send errno) sunk.
Proof.
  intros Hlaw bytes k Hn. pose proof (unix_write_spec send errno sunk Hlaw bytes k Hn) as H.
  destruct (UnixIoStream_write send errno bytes k) as [[e|m] k']; [|done]. by destruct H as [? _].
Qed.

Lemma socket_writes_keep :
  (forall bytes k, rest (send bytes k).2 = rest k) ->
  writes_keep (UnixIoStream_write send errno) rest.
Proof.
  intros Hk bytes k. pose proof (Hk bytes k) as H. unfold UnixIoStream_write.
  destruct (send bytes k) as [rc k']. by repeat bcase.
Qed.
End socket.

(** Two connected sockets: what one has sent and the other has not received is
    in the kernel, [ab] one way and [ba] the other. *)
Lemma sockets_wire {K} (recv_a recv_b : Z -> K -> Z * list byte * K)
    (send_a send_b : list byte -> K -> Z * K) (errno : K -> Z) (ab ba : K -> list byte) :
  recv_law recv_a ba (fun _ => True) -> recv_law recv_b ab (fun _ => True) ->
  send_law send_a ab -> send_law send_b ba ->
  (forall n k, ab (recv_a n k).2 = ab k /\ ba (recv_b n k).2 = ba k) ->
  (forall bytes k, ba (send_a bytes k).2 = ba k /\ ab (send_b bytes k).2 = ab k) ->
  wire_ok (UnixIoStream_read recv_a) (UnixIoStream_read recv_b)
    (UnixIoStream_write send_a errno) (UnixIoStream_write send_b errno) ab ba.
Proof.
  intros Ha Hb Hsa Hsb Hr Hs. split; split_and!;
    eauto using socket_reads, socket_writes;
    first [apply socket_reads_keep|apply socket_writes_keep]; intros; first [apply Hr|apply Hs].
Qed.
