(* ===== verification/AsyncStream.v ===== *)
(** Model of the class [AsyncIoStream] of [source/forstio/io.h] and [io.cpp]: one
    stream that is read and written at the same time, and what it promises over a
    socket.  The memories that the two tasks use are apart. *)

From S2P Require Import Prelude Error IoHelpers UnixIo UnixTheory.

(** [on_read_disconnect]: how often its feeder was fed. *)
Record AsyncIoStream := mkAsyncIoStream {
  read_stepper : ReadHelper;
  write_stepper : WriteHelper;
  on_read_disconnect : option Z
}.

(** The three sinks that the constructor sets up. *)
Inductive stream_event := ReadReady | WriteReady | ReadDisconnected.

Module AsyncStream.
Section stream.
Context {K : Type}.
Context (stream_read : Z -> K -> ErrorOr Z * list byte * K).
Context (stream_write : list byte -> K -> ErrorOr Z * K).

Definition new : AsyncIoStream :=
  mkAsyncIoStream (mkReadHelper None None []) (mkWriteHelper None None []) None.

Definition on_event (ev : stream_event) (s : AsyncIoStream) (k : K)
  : outcome (AsyncIoStream * K) :=
  match ev with
  | ReadReady =>
      '(h, k) ← readStep stream_read (read_stepper s) k;
      Ret (mkAsyncIoStream h (write_stepper s) (on_read_disconnect s), k)
  | WriteReady =>
      '(h, k) ← writeStep stream_write (write_stepper s) k;
      Ret (mkAsyncIoStream (read_stepper s) h (on_read_disconnect s), k)
  | ReadDisconnected =>
      Ret (mkAsyncIoStream (read_stepper s) (write_stepper s)
             (feed_void (on_read_disconnect s)), k)
  end.

Fixpoint on_events (evs : list stream_event) (s : AsyncIoStream) (k : K)
  : outcome (AsyncIoStream * K) :=
  match evs with
  | [] => Ret (s, k)
  | ev :: evs => '(s, k) ← on_event ev s k; on_events evs s k
  end.

Definition read (memory : list byte) (buffer min_length max_length : Z)
    (s : AsyncIoStream) (k : K) : outcome (AsyncIoStream * K) :=
  '(h, k) ← AsyncIoStream_read stream_read memory buffer min_length max_length
             (read_stepper s) k;
  Ret (mkAsyncIoStream h (write_stepper s) (on_read_disconnect s), k).

Definition write (memory : list byte) (buffer length : Z) (s : AsyncIoStream) (k : K)
  : outcome (AsyncIoStream * K) :=
  '(h, k) ← AsyncIoStream_write stream_write memory buffer length (write_stepper s) k;
  Ret (mkAsyncIoStream (read_stepper s) h (on_read_disconnect s), k).
End stream.

Definition readDone (s : AsyncIoStream) : AsyncIoStream :=
  mkAsyncIoStream (IoHelpers.readDone (read_stepper s)) (write_stepper s) (on_read_disconnect s).
Definition writeDone (s : AsyncIoStream) : AsyncIoStream :=
  mkAsyncIoStream (read_stepper s) (IoHelpers.writeDone (write_stepper s)) (on_read_disconnect s).
Definition onReadDisconnected (s : AsyncIoStream) : AsyncIoStream :=
  mkAsyncIoStream (read_stepper s) (write_stepper s) (Some 0).
End AsyncStream.

(** ** Both directions at once *)
Section duplex.
Context {K : Type} (recv : Z -> K -> Z * list byte * K) (send : list byte -> K -> Z * K).
Context (errno : K -> Z) (source sunk : K -> list byte).
Hypothesis receives : recv_law recv source (fun _ => True).
Hypothesis sends : send_law send sunk.
(** Receiving sends nothing and sending receives nothing. *)
Hypothesis recv_apart : forall n k, sunk (recv n k).2 = sunk k.
Hypothesis send_apart : forall bytes k, source (send bytes k).2 = source k.

Abbreviation sread := (UnixIoStream_read recv).
Abbreviation swrite := (UnixIoStream_write send errno).
Abbreviation disconnected := (criticalError_code "Disconnected" Disconnected).
Abbreviation gone := (fun _ e => e = disconnected).

Lemma sread_apart n k : sunk (sread n k).2 = sunk k.
Proof.
  pose proof (recv_apart n k) as H. unfold UnixIoStream_read.
  destruct (recv n k) as [[rc bytes] k']. by repeat bcase.
Qed.

Lemma swrite_apart bytes k : source (swrite bytes k).2 = source k.
Proof.
  pose proof (send_apart bytes k) as H. unfold UnixIoStream_write.
  destruct (send bytes k) as [rc k']. by repeat bcase.
Qed.

Lemma sread_spec n k : 0 < n ->
  match sread n k with
  | (IsValue m, bytes, k') => 0 < m <= n /\ zlen bytes = m /\ source k = bytes ++ source k'
  | (IsError e, bytes, k') => bytes = [] /\ source k' = source k /\ (isCritical e = true -> e = disconnected)
  end.
Proof.
  intros Hn. pose proof (unix_read_spec recv source _ receives n k Hn) as H.
  destruct (sread n k) as [[[e|m] bytes] k']; [|done].
  destruct H as (?&?&Hf). split_and!; [done..|]. intros Hc. by destruct (Hf Hc).
Qed.

Lemma swrite_spec bytes k : 0 < zlen bytes ->
  match swrite bytes k with
  | (IsValue n, k') => 0 < n <= zlen bytes /\ sunk k' = sunk k ++ ztake n bytes
  | (IsError e, k') => sunk k' = sunk k /\ (isCritical e = true -> e = disconnected)
  end.
Proof.
  intros Hn. pose proof (unix_write_spec send errno sunk sends bytes k Hn) as H.
  destruct (swrite bytes k) as [[e|n] k']; [|done].
  destruct H as (?&Hf). split; [done|]. intros Hc. by destruct (Hf Hc).
Qed.

(** A read and a write that were begun when the stream had [src0] to deliver and
    had taken [sunk0]. *)
Section tasks.
Context (b mn mx : Z) (mem0 src0 : list byte) (feeder0 : option (list fed)).
Context (bw : Z) (data memw sunk0 : list byte) (feederw : option (list fed)).
Hypothesis read_ok : 0 <= b /\ 0 < mn <= mx /\ b + mx <= zlen mem0 /\ mx < size_mod.
Hypothesis write_ok : 0 <= bw /\ 0 <= 0 /\ 0 < zlen data < size_mod /\
  bw + zlen data <= zlen memw /\ ztake (zlen data) (zdrop bw memw) = data.

Definition duplex (s : AsyncIoStream) (k : K) : Prop :=
  read_inv source gone b mn mx mem0 src0 feeder0 (read_stepper s) k /\
  write_inv sunk gone bw 0 data memw sunk0 feederw (write_stepper s) k.

Lemma read_inv_apart h k k' :
  source k' = source k -> read_inv source gone b mn mx mem0 src0 feeder0 h k ->
  read_inv source gone b mn mx mem0 src0 feeder0 h k'.
Proof. unfold read_inv. by intros ->. Qed.

Lemma write_inv_apart h k k' :
  sunk k' = sunk k -> write_inv sunk gone bw 0 data memw sunk0 feederw h k ->
  write_inv sunk gone bw 0 data memw sunk0 feederw h k'.
Proof. unfold write_inv. by intros ->. Qed.

Lemma duplex_event ev s k :
  duplex s k ->
  exists s' k', AsyncStream.on_event sread swrite ev s k = Ret (s', k') /\ duplex s' k'.
Proof.
  intros [Hr Hw]. destruct ev; cbn [AsyncStream.on_event].
  - destruct (readStep_inv sread source gone sread_spec b mn mx mem0 src0 feeder0 read_ok
      _ _ Hr) as (h'&k'&E&Hr'). rewrite E, bind_ret. do 2 eexists. split; [done|].
    split; [done|]. eapply write_inv_apart; [|done].
    refine (readStep_keeps (fun x => sunk x = sunk k) _ _ _ _ _ _ eq_refl E).
    intros n x Hx. by rewrite sread_apart.
  - destruct (writeStep_inv swrite sunk gone swrite_spec bw 0 data memw sunk0 feederw write_ok
      _ _ Hw) as (h'&k'&E&Hw'). rewrite E, bind_ret. do 2 eexists. split; [done|].
    split; [|done]. eapply read_inv_apart; [|done].
    refine (writeStep_keeps (fun x => source x = source k) _ _ _ _ _ _ eq_refl E).
    intros n x Hx. by rewrite swrite_apart.
  - by do 2 eexists.
Qed.

Lemma duplex_events evs s k :
  duplex s k ->
  exists s' k', AsyncStream.on_events sread swrite evs s k = Ret (s', k') /\ duplex s' k'.
Proof.
  revert s k. induction evs as [|ev evs IH]; intros s k Hd; cbn [AsyncStream.on_events];
    [by exists s, k|].
  destruct (duplex_event ev s k Hd) as (s1&k1&->&Hd1). rewrite bind_ret. by apply IH.
Qed.
End tasks.

(** The tasks are begun, the read first. *)
Lemma duplex_begins b mn mx memory bw data memw s k :
  0 <= b /\ 0 < mn <= mx /\ b + mx <= zlen memory /\ mx < size_mod ->
  0 <= bw /\ 0 <= 0 /\ 0 < zlen data < size_mod /\
    bw + zlen data <= zlen memw /\ ztake (zlen data) (zdrop bw memw) = data ->
  read_task (read_stepper s) = None -> write_task (write_stepper s) = None ->
  exists sr kr s1 k1,
    AsyncStream.read sread memory b mn mx s k = Ret (sr, kr) /\
    AsyncStream.write swrite memw bw (zlen data) sr kr = Ret (s1, k1) /\
    duplex b mn mx memory (source k) (read_done (read_stepper s))
      bw data memw (sunk k) (write_done (write_stepper s)) s1 k1.
Proof.
  intros (Hb&Hm&Hmem&Hmx) (Hbw&_&Hd&Hmw&Hdata) Hrt Hwt.
  unfold AsyncStream.read, AsyncStream.write.
  destruct (async_read_inv _ source gone sread_spec 0 memory b mn mx (read_stepper s) k)
    as (h1&k1&E1&Hr1); [done..|].
  cbn [readSteps] in E1. destruct (AsyncIoStream_read _ _ _ _ _ _ _) as [[h k0]|] eqn:E; [|done].
  rewrite bind_ret in E1. injection E1 as -> ->. rewrite bind_ret.
  destruct (async_write_inv _ sunk gone swrite_spec 0 memw data bw (write_stepper s) k1)
    as (h2&k2&E2&Hw2); [done..|].
  cbn [writeSteps] in E2. destruct (AsyncIoStream_write _ _ _ _ _ _) as [[h k0]|] eqn:E'; [|done].
  rewrite bind_ret in E2. injection E2 as -> ->.
  exists (mkAsyncIoStream h1 (write_stepper s) (on_read_disconnect s)), k1,
    (mkAsyncIoStream h1 h2 (on_read_disconnect s)), k2.
  cbn [read_stepper write_stepper on_read_disconnect]. rewrite E', bind_ret.
  assert (Hs1 : sunk k1 = sunk k).
  { refine (async_read_keeps (fun x => sunk x = sunk k) _ _ _ _ _ _ _ _ _ _ eq_refl E).
    intros n x Hx. by rewrite sread_apart. }
  assert (Hs2 : source k2 = source k1).
  { refine (async_write_keeps (fun x => source x = source k1) _ _ _ _ _ _ _ _ _ eq_refl E').
    intros n x Hx. by rewrite swrite_apart. }
  rewrite Hs1 in Hw2. split_and!; [done|done|]. split; [by eapply read_inv_apart|done].
Qed.
End duplex.

(** An [AsyncIoStream] over a socket reads and writes at the same time: one read
    of [mn] to [mx] bytes and one write of [data] are begun, and then carried on
    by any sequence of the three readiness events.  Nothing faults; the caller's memory
    holds exactly the bytes that were received, in order, and the socket has sent
    a beginning of [data], in order, without a gap or repetition; each task is
    pending, or was answered once: with the number of its bytes, or with the error
    [Disconnected]. *)
Lemma unix_async_duplex {K} (recv : Z -> K -> Z * list byte * K)
    (send : list byte -> K -> Z * K) (errno : K -> Z) (source sunk : K -> list byte)
    (memory data memw : list byte) (b mn mx bw : Z) (evs : list stream_event)
    (s : AsyncIoStream) (k : K) :
  recv_law recv source (fun _ => True) -> send_law send sunk ->
  (forall n k, sunk (recv n k).2 = sunk k) ->
  (forall bytes k, source (send bytes k).2 = source k) ->
  0 <= b -> 0 < mn <= mx -> b + mx <= zlen memory -> mx < size_mod ->
  0 <= bw -> 0 < zlen data < size_mod -> bw + zlen data <= zlen memw ->
  ztake (zlen data) (zdrop bw memw) = data ->
  read_task (read_stepper s) = None -> write_task (write_stepper s) = None ->
  exists s' k' bytes n,
    ('(s, k) ← AsyncStream.read (UnixIoStream_read recv) memory b mn mx s k;
     '(s, k) ← AsyncStream.write (UnixIoStream_write send errno) memw bw (zlen data) s k;
     AsyncStream.on_events (UnixIoStream_read recv) (UnixIoStream_write send errno) evs s k)
      = Ret (s', k') /\
    source k = bytes ++ source k' /\ zlen bytes <= mx /\
    read_memory (read_stepper s') = list_inserts (Z.to_nat b) bytes memory /\
    match read_task (read_stepper s') with
    | Some _ => zlen bytes < mn /\ read_done (read_stepper s') = read_done (read_stepper s)
    | None =>
        let answered x := read_done (read_stepper s') = notify x (read_done (read_stepper s)) in
        (mn <= zlen bytes /\ answered (Fed (zlen bytes))) \/
        answered (Failed (criticalError_code "Disconnected" Disconnected))
    end /\
    sunk k' = sunk k ++ ztake n data /\ 0 <= n <= zlen data /\
    match write_task (write_stepper s') with
    | Some _ => n < zlen data /\ write_done (write_stepper s') = write_done (write_stepper s)
    | None =>
        let answered x := write_done (write_stepper s') = notify x (write_done (write_stepper s)) in
        (n = zlen data /\ answered (Fed (zlen data))) \/
        answered (Failed (criticalError_code "Disconnected" Disconnected))
    end.
Proof.
  intros Hrl Hsl Hra Hsa Hb Hm Hmem Hmx Hbw Hd Hmw Hdata Hrt Hwt.
  destruct (duplex_begins recv send errno source sunk Hrl Hsl Hra Hsa b mn mx memory bw data memw s k
    ltac:(done) ltac:(done) Hrt Hwt) as (sr&kr&s1&k1&->&Hwr&Hdup).
  rewrite bind_ret, Hwr, bind_ret.
  destruct (duplex_events recv send errno source sunk Hrl Hsl Hra Hsa b mn mx memory (source k)
    (read_done (read_stepper s)) bw data memw (sunk k) (write_done (write_stepper s))
    ltac:(done) ltac:(done) evs s1 k1 Hdup)
    as (s'&k'&->&(bytes&Hsrc&Hl&Hmm&Ht)&(n&Hn&Hsk&_&Htw)).
  rewrite Z.sub_0_r, zdrop_0 in Hsk by lia.
  exists s', k', bytes, n. split_and!; try done; try lia.
  - destruct (read_task (read_stepper s')); [by destruct Ht as (_&?&?)|].
    destruct Ht as [?|(e&_&->&?)]; auto.
  - destruct (write_task (write_stepper s')); [by destruct Htw as (_&?&?)|].
    destruct Htw as [[-> ?]|(e&_&->&?)]; auto.
Qed.

(** Two independent sockets as one: what arrives, and what was sent. *)
Definition duplex_recv (n : Z) (k : list (list byte) * (list byte * Z)) :=
  let '(res, q) := demo_recv n k.1 in (res, (q, k.2)).
Definition duplex_send (bytes : list byte) (k : list (list byte) * (list byte * Z)) :=
  let '(res, w) := demo_send bytes k.2 in (res, (k.1, w)).

Lemma duplex_recv_law : recv_law duplex_recv (fun k => concat k.1) (fun _ => True).
Proof.
  intros n [q w] Hn. pose proof (demo_recv_law n q Hn) as H. unfold duplex_recv. cbn [fst snd].
  destruct (demo_recv n q) as [[rc bytes] q']. cbn [fst snd].
  destruct H as (?&?&?&_). by split_and!.
Qed.

Lemma duplex_send_law : send_law duplex_send (fun k => k.2.1).
Proof.
  intros bytes [q w] Hb. pose proof (demo_send_law bytes w Hb) as H.
  unfold duplex_send. cbn [fst snd]. by destruct (demo_send bytes w).
Qed.

Lemma duplex_recv_apart n k : (duplex_recv n k).2.2.1 = k.2.1.
Proof.
  destruct k as [q w]. unfold duplex_recv. cbn [fst snd]. by destruct (demo_recv n q) as [[? ?] ?].
Qed.

Lemma duplex_send_apart bytes k : concat (duplex_send bytes k).2.1 = concat k.1.
Proof.
  destruct k as [q w]. unfold duplex_send. cbn [fst snd]. by destruct (demo_send bytes w).
Qed.
