(* ===== verification/AsyncLoop.v ===== *)
(** [AsyncIoStream] on the event loop: the readiness events of a stream feed
    conveyors, whose functions move the bytes and feed the conveyors of the
    client; the client's functions run when the loop serves those.  What
    [AsyncStream.v] says of a sequence of events is carried to [poll] through the
    stations of [Stations.v]. *)

From S2P Require Import Prelude Error IoHelpers UnixIo UnixTheory AsyncStream.
From stdpp Require Import gmap list relations.
From S2P Require Import EventLoop EventQueue Conveyor ConveyorRules ConveyorPipeline Stations.
#[local] Open Scope Z_scope.
#[local] Abbreviation length := List.length.

(** ** What the steps feed *)

(** What a feeder was fed since [old]. *)
Definition fed_since (old new : option (list fed)) : list fed :=
  match old, new with Some old, Some new => drop (length old) new | _, _ => [] end.

(** An element of a [Conveyor<size_t>] *)
Definition answer (x : fed) : ErrorOr Z :=
  match x with Fed n => IsValue n | Failed e => IsError e end.

(** A step answers at most once. *)
Definition answers_once (old new : option (list fed)) : Prop :=
  new = old \/ exists x, new = notify x old.

Lemma readStep_once {K} (stream_read : Z -> K -> ErrorOr Z * list byte * K) h k h' k' :
  readStep stream_read h k = Ret (h', k') -> answers_once (read_done h) (read_done h').
Proof.
  unfold readStep. destruct (read_task h) as [task|] eqn:Ht; [|intros [= <- _]; by left].
  generalize (S (Z.to_nat (max_length task))) as fuel. intros fuel. clear task Ht.
  revert h k. induction fuel as [|fuel IH]; intros h k; cbn [readStep_loop];
    (destruct (read_task h) as [t|] eqn:Ht; [|intros [= <- _]; by left]); [done|].
  unfold read_iteration. destruct (stream_read (max_length t) k) as [[[e|n] bytes] k1].
  - destruct (mem_write _ _ _) as [m|]; [|done]. cbn.
    destruct (isCritical e); cbn; intros [= <- _]; [right; eauto|by left].
  - destruct (mem_write _ _ _) as [m|]; [|done]. cbn [mbind outcome_bind].
    destruct (_ && _); cbn [mbind outcome_bind].
    + intros Hl. destruct fuel; cbn [readStep_loop read_task] in Hl; injection Hl as <- _;
        right; eauto.
    + intros Hl. by apply IH in Hl.
Qed.

Lemma writeStep_once {K} (stream_write : list byte -> K -> ErrorOr Z * K) h k h' k' :
  writeStep stream_write h k = Ret (h', k') -> answers_once (write_done h) (write_done h').
Proof.
  unfold writeStep. destruct (write_task h) as [task|] eqn:Ht; [|intros [= <- _]; by left].
  generalize (S (Z.to_nat (IoHelpers.length task))) as fuel. intros fuel. clear task Ht.
  revert h k. induction fuel as [|fuel IH]; intros h k; cbn [writeStep_loop];
    (destruct (write_task h) as [t|] eqn:Ht; [|intros [= <- _]; by left]); [done|].
  unfold write_iteration. destruct (mem_read _ _ _) as [bytes|]; [|done].
  cbn [mbind outcome_bind]. destruct (stream_write bytes k) as [[e|n] k1].
  - destruct (isCritical e); cbn; intros [= <- _]; [right; eauto|by left].
  - destruct (assert_that _); [|done]. cbn [mbind outcome_bind].
    destruct (n =? IoHelpers.length t); cbn [mbind outcome_bind]; intros Hl.
    + destruct fuel; cbn [writeStep_loop write_task] in Hl; injection Hl as <- _; right; eauto.
    + by apply IH in Hl.
Qed.

(** ** The events of a stream *)
Definition event_station (ev : stream_event) : nat :=
  match ev with ReadReady => 0 | WriteReady => 1 | ReadDisconnected => 2 end.

(** [UnixIoStream::notify] *)
Definition mask_events (mask : Z) : list stream_event :=
  (if has_flag mask EPOLLOUT then [WriteReady] else []) ++
  (if has_flag mask EPOLLIN then [ReadReady] else []) ++
  (if has_flag mask EPOLLRDHUP then [ReadDisconnected] else []).
Definition notify_stream (masks : list Z) : list (delivery Z) :=
  (fun ev => (event_station ev, IsValue 0)) <$> concat (mask_events <$> masks).

(** ** The stream and its client *)
Section stream.
Context {K C : Type}.
Context (stream_read : Z -> K -> ErrorOr Z * list byte * K).
Context (stream_write : list byte -> K -> ErrorOr Z * K).
(** The functions of the client, on the conveyors of [readDone] (4), [writeDone]
    (5) and [onReadDisconnected] (6), and their state [C]. *)
Context (client_func : positive -> Z -> C -> thrown (ErrorOr Z) * C).
Context (client_error : positive -> Error -> C -> ErrorOr Z * C).
#[local] Abbreviation state := (AsyncIoStream * K * C)%type.
Implicit Types s : AsyncIoStream.

(** What station [i] is fed when the stream goes from [s] to [s']. *)
Definition news_for (i : nat) s s' : list (ErrorOr Z) :=
  match i with
  | 3%nat => answer <$> fed_since (read_done (read_stepper s)) (read_done (read_stepper s'))
  | 4%nat => answer <$> fed_since (write_done (write_stepper s)) (write_done (write_stepper s'))
  | 5%nat =>
      match on_read_disconnect s, on_read_disconnect s' with
      | Some m, Some n => replicate (Z.to_nat (n - m)) (IsValue 0)
      | _, _ => []
      end
  | _ => []
  end.
Definition news s s' : list (delivery Z) :=
  (pair 3%nat <$> news_for 3 s s') ++ (pair 4%nat <$> news_for 4 s s') ++
  (pair 5%nat <$> news_for 5 s s').

(** The functions of the constructor. *)
Definition event_func (ev : stream_event) (st : state)
  : outcome (thrown (ErrorOr Z) * list (delivery Z) * state) :=
  let '(s, k, c) := st in
  '(s', k) ← AsyncStream.on_event stream_read stream_write ev s k;
  Ret (Returned (IsValue 0), news s s', (s', k, c)).

Definition loop_func (f : positive) (v : Z) (st : state)
  : outcome (thrown (ErrorOr Z) * list (delivery Z) * state) :=
  match f with
  | 1%positive => event_func ReadReady st
  | 2%positive => event_func WriteReady st
  | 3%positive => event_func ReadDisconnected st
  | _ =>
      let '(s, k, c) := st in
      let '(r, c) := client_func f v c in
      Ret (r, [], (s, k, c))
  end.
Definition loop_error (f : positive) (e : Error) (st : state)
  : outcome (ErrorOr Z * list (delivery Z) * state) :=
  match f with
  | 1%positive | 2%positive | 3%positive => Ret (IsError e, [], st)   (* [PropagateError] *)
  | _ =>
      let '(s, k, c) := st in
      let '(r, c) := client_error f e c in
      Ret (r, [], (s, k, c))
  end.

(** [read_ready], [write_ready] and [read_disconnected], and the conveyors of
    [readDone], [writeDone] and [onReadDisconnected]. *)
Definition async_css : list (list (positive * positive)) :=
  [[(1, 1)]; [(2, 2)]; [(3, 3)]; [(4, 4)]; [(5, 5)]; [(6, 6)]]%positive.

(** [AsyncIoStream::read] and [write], one after the other. *)
Definition begin_tasks (memory : list byte) (b mn mx : Z) (memw : list byte) (bw len : Z)
    (f : positive) (u : unit) (st : state) : outcome (unit * list (delivery Z) * state) :=
  let '(s, k, c) := st in
  '(s', k) ← AsyncStream.read stream_read memory b mn mx s k;
  '(s', k) ← AsyncStream.write stream_write memw bw len s' k;
  Ret (tt, news s s', (s', k, c)).

(** A client sets up the stream, begins a read and a write, and polls once. *)
Definition async_start (memory : list byte) (b mn mx : Z) (memw : list byte) (bw len : Z)
    (w : world Z state) : outcome (world Z state) :=
  let base := free_base w in
  w ← open_stations async_css w;
  '(_, w) ← run (feeding base (begin_tasks memory b mn mx memw bw len) 1 tt) w;
  '(_, w) ← poll (feeding base loop_func) (feeding base loop_error) w;
  Ret w.

(** Then it polls again and again; [masks] is what epoll reports in between. *)
Definition async_client (memory : list byte) (b mn mx : Z) (memw : list byte) (bw len : Z)
    (masks : list (list Z)) (w : world Z state) : outcome (world Z state) :=
  let base := free_base w in
  w ← async_start memory b mn mx memw bw len w;
  station_rounds loop_func loop_error base (notify_stream <$> masks) w.

(** What the client makes of the elements it is given. *)
Definition client_step (c : C) (d : delivery Z) : C :=
  let f := Pos.of_succ_nat d.1 in
  match d.2 with
  | IsValue v => (client_func f v c).2
  | IsError e => (client_error f e c).2
  end.
End stream.

(** ** News *)
Section news.
Implicit Types s : AsyncIoStream.

Definition extends (old new : option (list fed)) : Prop :=
  exists l, new = (fun fs => fs ++ l) <$> old.

(** Feeders are only ever fed. *)
Definition grows s s' : Prop :=
  extends (read_done (read_stepper s)) (read_done (read_stepper s')) /\
  extends (write_done (write_stepper s)) (write_done (write_stepper s')) /\
  exists n, 0 <= n /\ on_read_disconnect s' = (fun m => m + n) <$> on_read_disconnect s.

Lemma extends_same o : extends o o.
Proof. exists []. destruct o; cbn; by rewrite ?app_nil_r. Qed.

Lemma extends_once o o' : answers_once o o' -> extends o o'.
Proof. intros [->|[x ->]]; [apply extends_same|]. exists [x]. by destruct o. Qed.

Lemma extends_trans o1 o2 o3 : extends o1 o2 -> extends o2 o3 -> extends o1 o3.
Proof.
  intros [l ->] [l' ->]. exists (l ++ l'). destruct o1; [|done]. cbn. by rewrite app_assoc.
Qed.

Lemma fed_since_extends o l : fed_since o ((fun fs => fs ++ l) <$> o) = if o is Some _ then l else [].
Proof. destruct o as [fs|]; [|done]. cbn. apply drop_app_length. Qed.

Lemma fed_since_app o1 o2 o3 :
  extends o1 o2 -> extends o2 o3 ->
  fed_since o1 o3 = fed_since o1 o2 ++ fed_since o2 o3.
Proof.
  intros [l ->] [l' ->]. destruct o1 as [fs|]; [|done]. cbn.
  by rewrite !drop_app_length, <- app_assoc, drop_app_length.
Qed.

Lemma fed_since_once o o' :
  answers_once o o' -> fed_since o o' = [] \/ exists x, fed_since o o' = [x].
Proof.
  intros [->|[x ->]]; destruct o as [fs|]; cbn; auto.
  - left. apply drop_all.
  - right. exists x. apply drop_app_length.
Qed.

Lemma fed_since_same o : fed_since o o = [].
Proof. destruct o; [apply drop_all|done]. Qed.

Lemma grows_refl s : grows s s.
Proof.
  split_and!; [apply extends_same..|]. exists 0. split; [done|].
  destruct (on_read_disconnect s); cbn; [|done]. f_equal. lia.
Qed.

Lemma grows_trans s1 s2 s3 : grows s1 s2 -> grows s2 s3 -> grows s1 s3.
Proof.
  intros (?&?&n&?&E) (?&?&m&?&E'). split_and!; [by eapply extends_trans..|].
  exists (n + m). split; [lia|]. rewrite E', E. destruct (on_read_disconnect s1); [|done].
  cbn. f_equal. lia.
Qed.

Lemma news_for_app i s1 s2 s3 :
  grows s1 s2 -> grows s2 s3 -> news_for i s1 s3 = news_for i s1 s2 ++ news_for i s2 s3.
Proof.
  intros (Hr&Hw&n&Hn&E) (Hr'&Hw'&m&Hm&E'). unfold news_for.
  destruct i as [|[|[|[|[|[|i]]]]]]; try done.
  - by rewrite <- fmap_app, <- fed_since_app.
  - by rewrite <- fmap_app, <- fed_since_app.
  - rewrite E', E. destruct (on_read_disconnect s1) as [c|]; [|done]. cbn.
    rewrite <- replicate_add. f_equal. lia.
Qed.

Lemma for_station_pair i j (l : list (ErrorOr Z)) :
  for_station i (pair j <$> l) = if decide (j = i) then l else [].
Proof.
  induction l as [|x l IH]; [by destruct (decide _)|].
  rewrite fmap_cons, for_station_cons, IH. cbn. by destruct (decide (j = i)).
Qed.

Lemma for_station_news i s s' : for_station i (news s s') = news_for i s s'.
Proof.
  unfold news. rewrite !for_station_app, !for_station_pair.
  destruct i as [|[|[|[|[|[|i]]]]]]; cbn; by rewrite ?app_nil_r.
Qed.

(** At most one element, for a station of the client. *)
Definition one_news (ds : list (delivery Z)) : Prop :=
  ds = [] \/ exists i x, (3 <= i < 6)%nat /\ ds = [(i, x)].

Lemma event_news {K} stream_read stream_write ev s (k : K) s' k' :
  AsyncStream.on_event stream_read stream_write ev s k = Ret (s', k') ->
  grows s s' /\ one_news (news s s').
Proof.
  destruct ev; cbn [AsyncStream.on_event].
  - intros ([h k1]&Hr%readStep_once&E)%bind_Ret_inv. injection E as <- _.
    split; [split_and!; [by apply extends_once|apply extends_same|exact (proj2 (proj2 (grows_refl s)))]|].
    unfold news, news_for. cbn [read_stepper write_stepper on_read_disconnect].
    rewrite fed_since_same. destruct (fed_since_once _ _ Hr) as [->|[x ->]];
      (destruct (on_read_disconnect s); cbn; rewrite ?Z.sub_diag; cbn); [by left|by left|..];
      right; exists 3%nat; eexists; (split; [lia|done]).
  - intros ([h k1]&Hr%writeStep_once&E)%bind_Ret_inv. injection E as <- _.
    split; [split_and!; [apply extends_same|by apply extends_once|exact (proj2 (proj2 (grows_refl s)))]|].
    unfold news, news_for. cbn [read_stepper write_stepper on_read_disconnect].
    rewrite fed_since_same. destruct (fed_since_once _ _ Hr) as [->|[x ->]];
      (destruct (on_read_disconnect s); cbn; rewrite ?Z.sub_diag; cbn); [by left|by left|..];
      right; exists 4%nat; eexists; (split; [lia|done]).
  - intros [= <- _]. split.
    + split_and!; [apply extends_same..|]. exists 1. by destruct (on_read_disconnect s).
    + unfold news, news_for. cbn [read_stepper write_stepper on_read_disconnect].
      rewrite !fed_since_same. destruct (on_read_disconnect s) as [n|]; cbn; [|by left].
      replace (n + 1 - n) with 1 by lia. right. exists 5%nat. eexists. by split; [lia|].
Qed.

(** Beginning a task answers at most once. *)
Lemma read_once {K} (stream_read : Z -> K -> ErrorOr Z * list byte * K) memory b mn mx s k s' k' :
  AsyncStream.read stream_read memory b mn mx s k = Ret (s', k') ->
  answers_once (read_done (read_stepper s)) (read_done (read_stepper s')) /\
  write_stepper s' = write_stepper s /\ on_read_disconnect s' = on_read_disconnect s.
Proof.
  unfold AsyncStream.read, AsyncIoStream_read.
  intros ([h k1]&Hr&E)%bind_Ret_inv. injection E as <- _.
  apply bind_Ret_inv in Hr as (?&_&Hr). apply bind_Ret_inv in Hr as (?&_&Hr).
  by apply readStep_once in Hr.
Qed.

Lemma write_once {K} (stream_write : list byte -> K -> ErrorOr Z * K) memory b len s k s' k' :
  AsyncStream.write stream_write memory b len s k = Ret (s', k') ->
  answers_once (write_done (write_stepper s)) (write_done (write_stepper s')) /\
  read_stepper s' = read_stepper s /\ on_read_disconnect s' = on_read_disconnect s.
Proof.
  unfold AsyncStream.write, AsyncIoStream_write.
  intros ([h k1]&Hr&E)%bind_Ret_inv. injection E as <- _.
  apply bind_Ret_inv in Hr as (?&_&Hr). apply bind_Ret_inv in Hr as (?&_&Hr).
  by apply writeStep_once in Hr.
Qed.

(** So do both: the client may be given one answer of each kind. *)
Lemma begin_news {K} stream_read stream_write memory b mn mx memw bw len s (k : K) s1 k1 s2 k2 :
  AsyncStream.read stream_read memory b mn mx s k = Ret (s1, k1) ->
  AsyncStream.write stream_write memw bw len s1 k1 = Ret (s2, k2) ->
  grows s s2 /\ (length (news s s2) <= 2)%nat.
Proof.
  intros (Hr&Ew&Ed)%read_once (Hw&Er&Ed')%write_once. rewrite Ew in Hw. split.
  - split_and!; [rewrite Er; by apply extends_once|by apply extends_once|].
    rewrite Ed', Ed. exact (proj2 (proj2 (grows_refl s))).
  - unfold news, news_for. rewrite !length_app, !length_fmap, Er, Ed', Ed.
    destruct (on_read_disconnect s) as [n|]; rewrite ?Z.sub_diag;
      destruct (fed_since_once _ _ Hr) as [->|[? ->]], (fed_since_once _ _ Hw) as [->|[? ->]];
      cbn; rewrite ?length_replicate; lia.
Qed.
End news.

(** ** The stream as a client of the stations *)
Section laws.
Context {K C : Type}.
Context (stream_read : Z -> K -> ErrorOr Z * list byte * K).
Context (stream_write : list byte -> K -> ErrorOr Z * K).
Context (client_func : positive -> Z -> C -> thrown (ErrorOr Z) * C).
Context (client_error : positive -> Error -> C -> ErrorOr Z * C).
(** The client's functions answer no critical error. *)
Context (func_mild : forall f v c, is_critical (caught (client_func f v c).1) = false).
Context (error_mild : forall f e c, is_critical (client_error f e c).1 = false).
#[local] Abbreviation on_event := (AsyncStream.on_event stream_read stream_write).
#[local] Abbreviation on_events := (AsyncStream.on_events stream_read stream_write).
#[local] Abbreviation func := (loop_func stream_read stream_write client_func).
#[local] Abbreviation error_func := (loop_error (K := K) client_error).
#[local] Abbreviation step := (client_step client_func client_error).
Implicit Types (s : AsyncIoStream) (k : K) (c : C).

(** The stream as it is set up, and after the tasks were begun. *)
Context (sb : AsyncIoStream) (c0 : C).
(** How often the stream's event [i] is in [l]. *)
Definition count (i : nat) (l : list nat) : nat := length (filter (fun j => j = i) l).

Lemma count_app i l l' : count i (l ++ l') = (count i l + count i l')%nat.
Proof. unfold count. by rewrite filter_app, length_app. Qed.

Lemma count_one i j : count i [j] = if decide (j = i) then 1%nat else 0%nat.
Proof. unfold count. rewrite filter_cons. by destruct (decide (j = i)). Qed.

(** How many events of each kind arrive with [ds]. *)
Definition counts (ds : list (delivery Z)) : list nat :=
  (fun i => count i ds.*1) <$> seq 0 3.

(** What holds of the stream and the kernel after the elements [past] have
    arrived and while [q] events of each kind are queued.  Serving one keeps it. *)
Context (J : list (delivery Z) -> AsyncIoStream -> K -> list nat -> Prop).
Context (J_event : forall past s k q ev m,
  J past s k q -> q !! event_station ev = Some (S m) ->
  exists s' k', on_event ev s k = Ret (s', k') /\ J past s' k' (<[event_station ev := m]> q)).

(** What is queued at station [i], after the client was given [log]. *)
Definition queued_at (log : list (delivery Z)) s (i : nat) (q : list (ErrorOr Z)) : Prop :=
  if decide (i < 3)%nat then Forall (fun x => exists v, x = IsValue v) q
  else news_for i sb s = for_station i log ++ q.

Definition waiting (qs : list (list (ErrorOr Z))) : list nat := length <$> firstn 3 qs.

Definition on_loop (past : list (delivery Z)) (a : stations Z (AsyncIoStream * K * C)) : Prop :=
  closed a = [] /\ exists log s k c, store a = (s, k, c) /\ J past s k (waiting (queues a)) /\
    grows sb s /\ c = foldl step c0 log /\ Forall (fun d => (3 <= d.1 < 6)%nat) log /\
    length (queues a) = 6%nat /\
    forall i q, queues a !! i = Some q -> queued_at log s i q.

Lemma waiting_lookup qs i : (i < 3)%nat -> waiting qs !! i = length <$> qs !! i.
Proof. intros Hi. unfold waiting. by rewrite list_lookup_fmap, lookup_take, decide_True. Qed.

Lemma waiting_over qs i : (3 <= i)%nat -> waiting qs !! i = None.
Proof.
  intros Hi. unfold waiting. by rewrite list_lookup_fmap, lookup_take, decide_False by lia.
Qed.

(** What is fed to the client's stations leaves the others as they are. *)
Lemma waiting_news qs s s' : waiting (foldl deliver qs (news s s')) = waiting qs.
Proof.
  apply list_eq. intros j. destruct (decide (j < 3)%nat) as [Hj|Hj].
  - rewrite !waiting_lookup, deliver_all_lookup, for_station_news by done.
    replace (news_for j s s') with (@nil (ErrorOr Z)) by (destruct j as [|[|[|j]]]; done || lia).
    destruct (qs !! j); [|done]. cbn. by rewrite app_nil_r.
  - by rewrite !waiting_over by lia.
Qed.

Lemma waiting_insert qs i l : (i < 3)%nat ->
  waiting (<[i := l]> qs) = <[i := length l]> (waiting qs).
Proof.
  intros Hi. unfold waiting. rewrite take_insert, decide_True by done. by rewrite list_fmap_insert.
Qed.

Lemma waiting_insert_over qs i l : (3 <= i)%nat -> waiting (<[i := l]> qs) = waiting qs.
Proof. intros Hi. unfold waiting. by rewrite take_insert_ge. Qed.

Lemma css_lookup i cs :
  async_css !! i = Some cs -> cs = [(Pos.of_succ_nat i, Pos.of_succ_nat i)] /\ (i < 6)%nat.
Proof.
  unfold async_css.
  do 6 (destruct i as [|i]; [intros H; injection H as <-; split; [done|lia]|]). done.
Qed.

Lemma func_event ev v st : func (Pos.of_succ_nat (event_station ev)) v st =
  event_func stream_read stream_write ev st.
Proof. by destruct ev. Qed.

Lemma func_client i v s k c : (3 <= i < 6)%nat ->
  func (Pos.of_succ_nat i) v (s, k, c) =
    let '(r, c) := client_func (Pos.of_succ_nat i) v c in Ret (r, [], (s, k, c)).
Proof. intros Hi. do 3 (destruct i as [|i]; [lia|]). do 3 (destruct i as [|i]; [done|]). lia. Qed.

Lemma error_client i e s k c : (3 <= i < 6)%nat ->
  error_func (Pos.of_succ_nat i) e (s, k, c) =
    let '(r, c) := client_error (Pos.of_succ_nat i) e c in Ret (r, [], (s, k, c)).
Proof. intros Hi. do 3 (destruct i as [|i]; [lia|]). do 3 (destruct i as [|i]; [done|]). lia. Qed.

(** A readiness event is served. *)
Lemma serve_event past ev v l qs s k c :
  on_loop past (mkStations qs [] (s, k, c)) -> qs !! event_station ev = Some (IsValue v :: l) ->
  exists s' k', on_event ev s k = Ret (s', k') /\ one_news (news s s') /\
    on_loop past (deliver_all (news s s') (mkStations (<[event_station ev := l]> qs) [] (s', k', c))).
Proof using J_event.
  intros (_&log&s0&k0&c1&[= <- <- <-]&HJ&Hg&->&Hlog&Hl&Hq) Hi. cbn [queues] in *.
  assert (H3 : (event_station ev < 3)%nat) by (destruct ev; cbn; lia).
  destruct (J_event past s k (waiting qs) ev (length l) HJ) as (s'&k'&Hstep&HJ').
  { by rewrite waiting_lookup, Hi. }
  destruct (event_news _ _ _ _ _ _ _ Hstep) as [Hg' Hone].
  exists s', k'. split_and!; [done|done|].
  split; [done|]. exists log, s', k', (foldl step c0 log).
  split_and!; [done| |by eapply grows_trans|done|done| |].
  - unfold deliver_all. cbn [queues]. by rewrite waiting_news, waiting_insert.
  - rewrite deliver_all_length. cbn. by rewrite length_insert.
  - intros j q. unfold deliver_all. cbn [queues].
    rewrite deliver_all_lookup, for_station_news. intros (r&Hr&->)%fmap_Some_1.
    unfold queued_at in *.
    destruct (decide (j < 3)%nat) as [Hj|Hj].
    + replace (news_for j s s') with (@nil (ErrorOr Z)) by (destruct j as [|[|[|j]]]; done || lia).
      rewrite app_nil_r. apply list_lookup_insert_Some in Hr as [(<-&<-&_)|[_ Hr]].
      * specialize (Hq _ _ Hi). rewrite decide_True in Hq by done. by apply Forall_cons in Hq as [_ ?].
      * specialize (Hq _ _ Hr). by rewrite decide_True in Hq.
    + rewrite list_lookup_insert_ne in Hr by lia. specialize (Hq _ _ Hr).
      rewrite decide_False in Hq by done. by rewrite (news_for_app j sb s s'), Hq, app_assoc.
Qed.

(** An element is given to the client. *)
Lemma serve_client past i x l qs s k c :
  on_loop past (mkStations qs [] (s, k, c)) -> qs !! i = Some (x :: l) -> (3 <= i < 6)%nat ->
  on_loop past (mkStations (<[i := l]> qs) [] (s, k, step c (i, x))).
Proof.
  intros (_&log&s0&k0&c1&[= <- <- <-]&HJ&Hg&->&Hlog&Hl&Hq) Hi H3. cbn [queues] in *.
  split; [done|]. exists (log ++ [(i, x)]), s, k, (foldl step c0 (log ++ [(i, x)])).
  split_and!; [by rewrite foldl_app| |done|done| |by cbn; rewrite length_insert|].
  - cbn [queues]. by rewrite waiting_insert_over by lia.
  - apply Forall_app. split; [done|by apply Forall_singleton].
  - intros j q. cbn. unfold queued_at. rewrite for_station_app, for_station_cons. cbn.
    intros [(<-&->&_)|[Hne Hj]]%list_lookup_insert_Some.
    + specialize (Hq _ _ Hi). unfold queued_at in Hq.
      rewrite decide_False in * by lia. rewrite decide_True by done. rewrite Hq.
      by rewrite <- app_assoc.
    + specialize (Hq _ _ Hj). unfold queued_at in Hq.
      destruct (decide (j < 3)%nat); [done|]. rewrite decide_False by done. cbn.
      by rewrite app_nil_r.
Qed.

(** What serving one element feeds. *)
Definition feeds_little (i : nat) (ds : list (delivery Z)) : Prop :=
  (i < 3)%nat /\ one_news ds \/ (3 <= i < 6)%nat /\ ds = [].

Lemma station_event i : (i < 3)%nat -> exists ev, event_station ev = i.
Proof.
  intros Hi. destruct i as [|[|[|i]]]; [by exists ReadReady|by exists WriteReady
    |by exists ReadDisconnected|lia].
Qed.

Lemma serves_one past i cs x l qs st :
  on_loop past (mkStations qs [] st) -> async_css !! i = Some cs -> qs !! i = Some (x :: l) ->
  exists y ds st', convs_at func error_func cs x st = Ret (y, ds, st') /\
    is_critical y = false /\ feeds_little i ds /\
    on_loop past (deliver_all ds (mkStations (<[i := l]> qs) [] st')).
Proof.
  intros Hon [-> H6]%css_lookup Hi. destruct st as [[s k] c].
  destruct (decide (i < 3)%nat) as [H3|H3].
  - destruct (station_event i H3) as [ev <-].
    assert (Hx : exists v, x = IsValue v).
    { destruct Hon as (_&log&?&?&?&_&_&_&_&_&_&Hq). specialize (Hq _ _ Hi).
      unfold queued_at in Hq. rewrite decide_True in Hq by done.
      by apply Forall_cons in Hq as [? _]. }
    destruct Hx as [v ->].
    destruct (serve_event past ev v l qs s k c Hon Hi) as (s'&k'&Hstep&Hone&Hon').
    exists (IsValue 0), (news s s'), (s', k', c). split_and!; [|done|by left|done].
    cbn [convs_at conv_at fst snd]. rewrite func_event. unfold event_func.
    rewrite Hstep, !bind_ret. cbn. by rewrite app_nil_r.
  - assert (H3' : (3 <= i < 6)%nat) by lia.
    pose proof (serve_client past i x l qs s k c Hon Hi H3') as Hon'.
    unfold client_step in Hon'. cbn [fst snd] in Hon'. destruct x as [e|v].
    + pose proof (error_mild (Pos.of_succ_nat i) e c) as Hm.
      destruct (client_error (Pos.of_succ_nat i) e c) as [r c'] eqn:Hf.
      exists r, [], (s, k, c'). split_and!; [|done|by right|done].
      cbn [convs_at conv_at fst snd]. by rewrite error_client, Hf.
    + pose proof (func_mild (Pos.of_succ_nat i) v c) as Hm.
      destruct (client_func (Pos.of_succ_nat i) v c) as [r c'] eqn:Hf.
      exists (caught r), [], (s, k, c'). split_and!; [|done|by right|done].
      cbn [convs_at conv_at fst snd]. by rewrite func_client, Hf.
Qed.

(** A readiness event counts twice, since it may feed the client. *)
Definition work (a : stations Z (AsyncIoStream * K * C)) : nat :=
  match queues a with
  | [q0; q1; q2; q3; q4; q5] =>
      2 * (length q0 + length q1 + length q2) + (length q3 + length q4 + length q5)
  | _ => 0
  end.

Lemma work_decreases i x l qs st ds st' :
  length qs = 6%nat -> qs !! i = Some (x :: l) -> feeds_little i ds ->
  (work (deliver_all ds (mkStations (<[i := l]> qs) [] st')) < work (mkStations qs [] st))%nat.
Proof.
  intros Hl Hi Hds. do 6 (destruct qs as [|? qs]; [done|]). destruct qs; [|done]. clear Hl.
  destruct Hds as [[H3 [->|(j&y&Hj&->)]]|[H3 ->]].
  - do 3 (destruct i as [|i]; [injection Hi as ->; cbn; lia|]). lia.
  - do 3 (destruct j as [|j]; [lia|]).
    destruct j as [|[|[|j]]]; [..|lia];
      (do 3 (destruct i as [|i]; [injection Hi as ->; cbn; rewrite length_app; cbn; lia|]); lia).
  - do 3 (destruct i as [|i]; [lia|]).
    do 3 (destruct i as [|i]; [injection Hi as ->; cbn; lia|]). lia.
Qed.

(** What one call of [poll] can serve. *)
Definition burst (ds : list (delivery Z)) : Prop :=
  exists evs : list stream_event, zlen evs <= 32768 /\
    ds = (fun ev => (event_station ev, IsValue 0)) <$> evs.

Lemma burst_range ds : burst ds -> accepts async_css [] ds.
Proof.
  intros (evs&_&->). apply accepts_open, Forall_fmap, Forall_true. intros ev. cbn. by destruct ev; cbn; lia.
Qed.

Lemma burst_for_station (evs : list stream_event) i :
  for_station i ((fun ev => (event_station ev, IsValue (T := Z) 0)) <$> evs) =
    replicate (count i (event_station <$> evs)) (IsValue 0).
Proof.
  induction evs as [|ev evs IH]; [done|].
  rewrite !fmap_cons, for_station_cons, IH. unfold count. rewrite filter_cons. cbn.
  by destruct (decide (event_station ev = i)).
Qed.

Lemma burst_none j (evs : list stream_event) :
  (3 <= j)%nat -> count j (event_station <$> evs) = 0%nat.
Proof.
  intros Hj. induction evs as [|ev evs IH]; [done|]. rewrite fmap_cons.
  unfold count in *. rewrite filter_cons, decide_False by (destruct ev; cbn; lia). exact IH.
Qed.

Lemma burst_count (evs : list stream_event) :
  (count 0 (event_station <$> evs) + count 1 (event_station <$> evs) +
   count 2 (event_station <$> evs) = length evs)%nat.
Proof.
  induction evs as [|ev evs IH]; [done|]. rewrite fmap_cons.
  change (event_station ev :: (event_station <$> evs))
    with ([event_station ev] ++ (event_station <$> evs)).
  rewrite !count_app, !count_one. cbn [length]. destruct ev; cbn [event_station]; repeat case_decide; lia.
Qed.

Lemma burst_counts (evs : list stream_event) :
  counts ((fun ev => (event_station ev, IsValue (T := Z) 0)) <$> evs) =
    [count 0 (event_station <$> evs); count 1 (event_station <$> evs);
     count 2 (event_station <$> evs)].
Proof. unfold counts. cbn. by rewrite <- list_fmap_compose. Qed.

(** Readiness events arrive where nothing is queued; meanwhile the kernel may
    have moved on. *)
Lemma arrive_burst past past' ds qs s k k' c :
  burst ds -> on_loop past (mkStations qs [] (s, k, c)) -> idle (mkStations qs [] (s, k, c)) ->
  J past' s k' (counts ds) ->
  on_loop past' (deliver_all ds (mkStations qs [] (s, k', c))) /\
  (work (deliver_all ds (mkStations qs [] (s, k', c))) <= Z.to_nat 65536)%nat.
Proof.
  intros (evs&Hevs&->) (_&log&s0&k0&c1&[= <- <- <-]&_&Hg&Hc&Hlog&Hl&Hq) Hidle HJ.
  cbn [queues] in *.
  do 6 (destruct qs as [|? qs]; [done|]). destruct qs; [|done].
  unfold idle in Hidle. cbn in Hidle. rewrite !Forall_cons in Hidle.
  destruct Hidle as (->&->&->&->&->&->&_). set (qs := [[]; _; _; _; _; _]) in *.
  set (ds := _ <$> evs) in *.
  assert (Hqs : foldl deliver qs ds =
    [replicate (count 0 (event_station <$> evs)) (IsValue 0);
     replicate (count 1 (event_station <$> evs)) (IsValue 0);
     replicate (count 2 (event_station <$> evs)) (IsValue 0); []; []; []]).
  { apply list_eq. intros i. subst ds qs. rewrite deliver_all_lookup, burst_for_station.
    do 3 (destruct i as [|i]; [done|]).
    do 3 (destruct i as [|i]; [cbn -[count]; rewrite burst_none by lia; done|]). done. }
  subst ds. rewrite burst_counts in HJ. split.
  - split; [done|]. exists log, s, k', c. unfold deliver_all. cbn [queues store]. rewrite Hqs.
    split_and!; [done| |done..|].
    + unfold waiting. cbn -[count]. by rewrite !length_replicate.
    + intros i q Hi. destruct (decide (i < 3)%nat) as [H3|H3].
      * unfold queued_at. rewrite decide_True by done.
        do 3 (destruct i as [|i]; [injection Hi as <-; apply Forall_replicate; eauto|]). lia.
      * apply (Hq i q). do 3 (destruct i as [|i]; [lia|]). exact Hi.
  - unfold work, deliver_all. cbn [queues store]. rewrite Hqs. rewrite !length_replicate.
    pose proof (burst_count evs). unfold zlen in Hevs. cbn -[count Z.to_nat Nat.mul]. lia.
Qed.

Lemma on_loop_idle_waiting past qs s k c :
  on_loop past (mkStations qs [] (s, k, c)) -> idle (mkStations qs [] (s, k, c)) ->
  J past s k [0; 0; 0]%nat.
Proof.
  intros (_&log&s0&k0&c1&[= <- <- <-]&HJ&_&_&_&Hl&_) Hidle. cbn [queues] in *.
  do 6 (destruct qs as [|? qs]; [done|]). destruct qs; [|done].
  unfold idle in Hidle. cbn in Hidle. rewrite !Forall_cons in Hidle.
  by destruct Hidle as (->&->&->&_).
Qed.

(** What may arrive between the calls of [poll]. *)
Context (arrives : list (delivery Z) -> Prop).
Context (J_arrive : forall past ds s k,
  arrives ds -> J past s k [0; 0; 0]%nat -> burst ds /\ J (past ++ ds) s k (counts ds)).

Lemma async_laws : station_laws func error_func async_css on_loop work arrives.
Proof using J_event J_arrive func_mild error_mild.
  split.
  - intros past i cs x l qs cl st Hon Hcs Hi. pose proof Hon as [[= ->] _].
    destruct (serves_one past i cs x l qs st Hon Hcs Hi) as (y&ds&st'&Hc&Hy&Hds&Hon').
    exists y, ds, st'. unfold close. rewrite Hy. split_and!; try done.
    apply accepts_open. destruct Hds as [[_ [->|(j&z&Hj&->)]]|[_ ->]];
      [apply Forall_nil_2| |apply Forall_nil_2].
    apply Forall_singleton. cbn. lia.
  - intros past a b Hon Hs [Hb _]. rewrite Hb. clear Hb.
    destruct Hs as [i cs x l y ds qs cl st st' Hcs Hi Hc]. pose proof Hon as [[= ->] _].
    destruct (serves_one past i cs x l qs st Hon Hcs Hi) as (y'&ds'&st2&Hc'&Hy&Hds&_).
    rewrite Hc in Hc'. injection Hc' as <- <- <-. unfold close. rewrite Hy.
    destruct Hon as (_&?&?&?&?&_&_&_&_&_&Hl&_). rewrite !Nat.add_0_r.
    by eapply work_decreases.
  - intros past ds [qs cl [[s k] c]] Hb Hon Hidle. pose proof Hon as [[= ->] _].
    destruct (J_arrive past ds s k Hb (on_loop_idle_waiting _ _ _ _ _ Hon Hidle)) as [Hburst HJ].
    split; [by apply burst_range|]. by eapply arrive_burst.
Qed.

(** The tasks are begun. *)
Lemma on_loop_begun s k : grows sb s -> J [] s k [0; 0; 0]%nat ->
  on_loop [] (deliver_all (news sb s) (mkStations (replicate 6 []) [] (s, k, c0))).
Proof.
  intros Hg HJ. split; [done|]. exists [], s, k, c0. split_and!; [done| |done..|by apply Forall_nil| |].
  - unfold deliver_all. cbn [queues]. by rewrite waiting_news.
  - by rewrite deliver_all_length.
  - intros i q. unfold deliver_all. cbn [queues]. rewrite deliver_all_lookup, for_station_news.
    intros (r&[-> _]%lookup_replicate&->)%fmap_Some_1. unfold queued_at.
    destruct (decide (i < 3)%nat); [|done]. by destruct i as [|[|[|i]]]; [..|lia].
Qed.

(** Nothing is queued any more: every answer was given to the client. *)
Lemma on_loop_idle past a :
  on_loop past a -> idle a ->
  exists log s k, store a = (s, k, foldl step c0 log) /\ J past s k [0; 0; 0]%nat /\
    forall i, (3 <= i < 6)%nat -> for_station i log = news_for i sb s.
Proof.
  intros Hon Hidle. destruct a as [qs cl [[s k] c]]. pose proof Hon as [[= ->] _].
  pose proof (on_loop_idle_waiting _ _ _ _ _ Hon Hidle) as HJ.
  destruct Hon as (_&log&s0&k0&c1&[= <- <- <-]&_&_&->&_&Hl&Hq).
  exists log, s, k. split_and!; [done|done|]. intros i Hi. cbn in Hl, Hq.
  destruct (lookup_lt_is_Some_2 qs i) as [q Hqi]; [lia|].
  pose proof (Forall_lookup_1 _ _ _ _ Hidle Hqi) as ->. specialize (Hq _ _ Hqi).
  unfold queued_at in Hq. rewrite decide_False in Hq by lia. by rewrite app_nil_r in Hq.
Qed.

Lemma work_news st ds :
  (work (deliver_all ds (mkStations (replicate 6 []) [] st)) <= 2 * length ds)%nat.
Proof.
  assert (H : forall qs, length qs = 6%nat ->
    (work (deliver_all ds (mkStations qs [] st)) <= work (mkStations qs [] st) + 2 * length ds)%nat);
    [|by apply (H (replicate 6 []))].
  induction ds as [|d ds IH]; intros qs Hl.
  { unfold deliver_all. cbn [foldl queues closed store]. lia. }
  change (deliver_all (d :: ds) (mkStations qs [] st))
    with (deliver_all ds (mkStations (deliver qs d) [] st)).
  specialize (IH (deliver qs d)). rewrite deliver_length in IH. specialize (IH Hl).
  enough (work (mkStations (deliver qs d) [] st) <= work (mkStations qs [] st) + 2)%nat by (cbn; lia).
  destruct d as [i x]. unfold deliver. cbn [fst snd].
  do 6 (destruct qs as [|? qs]; [done|]). destruct qs; [|done].
  do 6 (destruct i as [|i]; [cbn; rewrite length_app; cbn; lia|]). apply Nat.le_add_r.
Qed.
End laws.

(** ** The client's run *)

(** All the events that epoll reports. *)
Definition reported (masks : list (list Z)) : list stream_event :=
  concat (mask_events <$> concat masks).

Lemma notify_stream_all masks :
  concat (notify_stream <$> masks) =
    (fun ev => (event_station ev, IsValue 0)) <$> reported masks.
Proof.
  unfold reported. induction masks as [|m masks IH]; [done|].
  rewrite fmap_cons. cbn [concat]. rewrite IH. unfold notify_stream at 1.
  by rewrite (fmap_app mask_events), concat_app, fmap_app.
Qed.

Lemma notify_stream_burst masks : zlen masks <= 10922 -> burst (notify_stream masks).
Proof.
  intros Hl. exists (concat (mask_events <$> masks)). split; [|done].
  enough (zlen (concat (mask_events <$> masks)) <= 3 * zlen masks) by lia. clear Hl.
  induction masks as [|m masks IH]; [done|]. rewrite fmap_cons. cbn [concat].
  rewrite zlen_app, zlen_cons. enough (zlen (mask_events m) <= 3) by lia.
  unfold mask_events. by destruct (has_flag m EPOLLOUT), (has_flag m EPOLLIN), (has_flag m EPOLLRDHUP).
Qed.

Lemma count_occ_station ev (evs : list stream_event) (eq_dec : forall x y : stream_event, {x = y} + {x <> y}) :
  count_occ eq_dec evs ev = count (event_station ev) (event_station <$> evs).
Proof.
  induction evs as [|e evs IH]; [done|]. rewrite fmap_cons. unfold count in *.
  rewrite filter_cons. cbn [count_occ].
  destruct (eq_dec e ev) as [->|Hne]; [by rewrite decide_True, IH|].
  rewrite decide_False; [done|]. intros E. apply Hne. by destruct e, ev.
Qed.

(** The stream is set up, the tasks are begun, and what they feed is served;
    whatever [J] is known of the stream and the kernel. *)
Lemma async_starts {K C} (stream_read : Z -> K -> ErrorOr Z * list byte * K)
    (stream_write : list byte -> K -> ErrorOr Z * K)
    (client_func : positive -> Z -> C -> thrown (ErrorOr Z) * C)
    (client_error : positive -> Error -> C -> ErrorOr Z * C) J arrives
    memory b mn mx memw bw len s k c sr kr s1 k1 (w : world Z (AsyncIoStream * K * C)) :
  station_laws (loop_func stream_read stream_write client_func) (loop_error client_error)
    async_css (on_loop client_func client_error s c J) work arrives ->
  repr (loop w) empty_queue -> entered (loop w) -> user (conveyors w) = (s, k, c) ->
  AsyncStream.read stream_read memory b mn mx s k = Ret (sr, kr) ->
  AsyncStream.write stream_write memw bw len sr kr = Ret (s1, k1) ->
  J [] s1 k1 [0; 0; 0]%nat ->
  exists w3 a, async_start stream_read stream_write client_func client_error
      memory b mn mx memw bw len w = Ret w3 /\
    in_world async_css (free_base w) w3 a /\
    on_loop client_func client_error s c J [] a /\ idle a.
Proof.
  intros Hlaws Hr He Hu Hrd Hwr HJ. unfold async_start.
  destruct (stations_open async_css w Hr He) as (w1&->&Hw1). rewrite bind_ret, Hu in *.
  destruct (begin_news _ _ _ _ _ _ _ _ _ _ _ _ _ _ _ Hrd Hwr) as [Hg Hn].
  assert (Hb : begin_tasks (C := C) stream_read stream_write memory b mn mx memw bw len 1 tt
    (s, k, c) = Ret (tt, news s s1, (s1, k1, c))).
  { unfold begin_tasks. by rewrite Hrd, bind_ret, Hwr, bind_ret. }
  assert (Hrange : accepts async_css [] (news s s1)).
  { apply accepts_open, Forall_forall. intros d Hd. unfold news in Hd.
    rewrite !elem_of_app, !list_elem_of_fmap in Hd.
    by destruct Hd as [(x&->&_)|[(x&->&_)|(x&->&_)]]; cbn; lia. }
  destruct (world_call async_css _ _ 1%positive tt [] w1 _ _ _ _ _ _ Hw1 Hb Hrange) as (w2&->&Hw2).
  rewrite bind_ret.
  pose proof (on_loop_begun client_func client_error s c J s1 k1 Hg HJ) as Hon.
  pose proof (work_news (s1, k1, c) (news s s1)) as Hwork.
  destruct (world_poll _ _ _ _ _ _ _ Hlaws [] w2 _ Hw2 Hon) as (w3&a3&->&Hw3&Hon3&_&Hidle3);
    [etrans; [exact Hwork|]; lia|]. by exists w3, a3.
Qed.

(** The stream has seen events, and as many of each kind as have arrived and are
    not queued any more. *)
Definition traced {K} (stream_read : Z -> K -> ErrorOr Z * list byte * K)
    (stream_write : list byte -> K -> ErrorOr Z * K) (s1 : AsyncIoStream) (k1 : K)
    (past : list (delivery Z)) (s : AsyncIoStream) (k : K) (q : list nat) : Prop :=
  exists evs, AsyncStream.on_events stream_read stream_write evs s1 k1 = Ret (s, k) /\
    forall i n, q !! i = Some n -> count i past.*1 = (count i (event_station <$> evs) + n)%nat.

Lemma on_events_app {K} (stream_read : Z -> K -> ErrorOr Z * list byte * K)
    (stream_write : list byte -> K -> ErrorOr Z * K) evs evs' s k :
  AsyncStream.on_events stream_read stream_write (evs ++ evs') s k =
    '(s, k) ← AsyncStream.on_events stream_read stream_write evs s k;
    AsyncStream.on_events stream_read stream_write evs' s k.
Proof.
  revert s k. induction evs as [|ev evs IH]; intros s k; [done|]. cbn.
  destruct (AsyncStream.on_event _ _ ev s k) as [[s' k']|]; [|done]. cbn. apply IH.
Qed.

Lemma traced_event {K} (stream_read : Z -> K -> ErrorOr Z * list byte * K)
    (stream_write : list byte -> K -> ErrorOr Z * K) s1 k1 past s k q ev m :
  (forall evs, exists s k, AsyncStream.on_events stream_read stream_write evs s1 k1 = Ret (s, k)) ->
  traced stream_read stream_write s1 k1 past s k q -> q !! event_station ev = Some (S m) ->
  exists s' k', AsyncStream.on_event stream_read stream_write ev s k = Ret (s', k') /\
    traced stream_read stream_write s1 k1 past s' k' (<[event_station ev := m]> q).
Proof.
  intros Hruns (evs&Hev&Hq) Hi. destruct (Hruns (evs ++ [ev])) as (s'&k'&Hev').
  pose proof Hev' as Hstep. rewrite on_events_app, Hev, bind_ret in Hstep.
  cbn [AsyncStream.on_events] in Hstep. apply bind_Ret_inv in Hstep as ([s2 k2]&Hstep&E).
  injection E as -> ->. exists s', k'. split; [done|]. exists (evs ++ [ev]). split; [done|].
  intros i n. rewrite fmap_app, count_app, list_fmap_singleton, count_one.
  intros [(<-&<-&_)|[Hne Hn]]%list_lookup_insert_Some.
  - rewrite (Hq _ _ Hi), decide_True by done. lia.
  - rewrite (Hq _ _ Hn), decide_False by done. lia.
Qed.

Lemma traced_arrive {K} (stream_read : Z -> K -> ErrorOr Z * list byte * K)
    (stream_write : list byte -> K -> ErrorOr Z * K) s1 k1 past ds s k :
  traced stream_read stream_write s1 k1 past s k [0; 0; 0]%nat ->
  traced stream_read stream_write s1 k1 (past ++ ds) s k (counts ds).
Proof.
  intros (evs&Hev&Hq). exists evs. split; [done|]. intros i n Hi.
  rewrite fmap_app, count_app.
  assert (Hz : (i < 3)%nat -> [0; 0; 0]%nat !! i = Some 0%nat)
    by (intros Hlt; do 3 (destruct i as [|i]; [done|]); lia).
  do 3 (destruct i as [|i]; [injection Hi as <-; rewrite (Hq _ _ (Hz ltac:(lia))); lia|]). done.
Qed.

(** Every event was served. *)
Lemma traced_all {K} (stream_read : Z -> K -> ErrorOr Z * list byte * K)
    (stream_write : list byte -> K -> ErrorOr Z * K) s1 k1 masks s k :
  traced stream_read stream_write s1 k1 (concat (notify_stream <$> masks)) s k [0; 0; 0]%nat ->
  exists evs, evs ≡ₚ reported masks /\
    AsyncStream.on_events stream_read stream_write evs s1 k1 = Ret (s, k).
Proof.
  intros (evs&Hev&Hq). exists evs. split; [|done].
  assert (eq_dec : forall x y : stream_event, {x = y} + {x <> y}) by decide equality.
  apply (Permutation_count_occ eq_dec). intros ev. rewrite !count_occ_station.
  assert (Hi : [0; 0; 0]%nat !! event_station ev = Some 0%nat) by (by destruct ev).
  specialize (Hq _ _ Hi). rewrite notify_stream_all, <- list_fmap_compose in Hq. cbn in Hq.
  rewrite Nat.add_0_r in Hq. symmetry. exact Hq.
Qed.

Lemma async_client_runs {K C} (stream_read : Z -> K -> ErrorOr Z * list byte * K)
    (stream_write : list byte -> K -> ErrorOr Z * K)
    (client_func : positive -> Z -> C -> thrown (ErrorOr Z) * C)
    (client_error : positive -> Error -> C -> ErrorOr Z * C)
    memory b mn mx memw bw len masks s k c sr kr s1 k1 (w : world Z (AsyncIoStream * K * C)) :
  (forall f v c, is_critical (caught (client_func f v c).1) = false) ->
  (forall f e c, is_critical (client_error f e c).1 = false) ->
  repr (loop w) empty_queue -> entered (loop w) -> user (conveyors w) = (s, k, c) ->
  AsyncStream.read stream_read memory b mn mx s k = Ret (sr, kr) ->
  AsyncStream.write stream_write memw bw len sr kr = Ret (s1, k1) ->
  (forall evs, exists s k, AsyncStream.on_events stream_read stream_write evs s1 k1 = Ret (s, k)) ->
  Forall (fun ms => zlen ms <= 10922) masks ->
  exists w2 evs log s' k', async_client stream_read stream_write client_func client_error
      memory b mn mx memw bw len masks w = Ret w2 /\ repr (loop w2) empty_queue /\
    user (conveyors w2) = (s', k', foldl (client_step client_func client_error) c log) /\
    evs ≡ₚ reported masks /\
    AsyncStream.on_events stream_read stream_write evs s1 k1 = Ret (s', k') /\
    forall i, (3 <= i < 6)%nat -> for_station i log = news_for i s s'.
Proof.
  intros Hfm Hem Hr He Hu Hrd Hwr Hruns Hmasks.
  pose proof (async_laws stream_read stream_write client_func client_error Hfm Hem s c
    (traced stream_read stream_write s1 k1)
    (fun past s k q ev m => traced_event stream_read stream_write s1 k1 past s k q ev m Hruns)
    burst (fun past ds s k Hb HJ => conj Hb (traced_arrive _ _ _ _ past ds s k HJ))) as Hlaws.
  destruct (async_starts _ _ _ _ _ _ memory b mn mx memw bw len s k c sr kr s1 k1 w Hlaws Hr He Hu
    Hrd Hwr) as (w3&a3&Hstart&Hw3&Hon3&Hidle3).
  { exists []. split; [done|]. intros i n Hi.
    do 3 (destruct i as [|i]; [by injection Hi as <-|]). done. }
  destruct (world_rounds _ _ _ _ _ _ _ Hlaws [] (notify_stream <$> masks) w3 a3 Hw3 Hon3 Hidle3)
    as (w4&a4&Hrounds&Hw4&Hon4&Hidle4&_).
  { apply Forall_fmap. eapply Forall_impl; [exact Hmasks|]. apply notify_stream_burst. }
  destruct (world_idle _ _ _ _ Hw4 Hidle4) as (Hu4&Hr4&_).
  destruct (on_loop_idle _ _ _ _ _ _ _ Hon4 Hidle4) as (log&s'&k'&Hst&HJ&Hlog).
  destruct (traced_all _ _ _ _ _ _ _ HJ) as (evs&Hperm&Hev).
  exists w4, evs, log, s', k'. unfold async_client. rewrite Hstart, bind_ret.
  split_and!; try done. by rewrite Hu4.
Qed.

Lemma on_events_disconnect {K} stream_read stream_write evs s (k : K) s' k' :
  AsyncStream.on_events stream_read stream_write evs s k = Ret (s', k') ->
  on_read_disconnect s' =
    (fun m => m + Z.of_nat (count 2 (event_station <$> evs))) <$> on_read_disconnect s.
Proof.
  revert s k. induction evs as [|ev evs IH]; intros s k; cbn [AsyncStream.on_events].
  - intros [= -> _]. cbn. destruct (on_read_disconnect s'); [|done]. cbn. f_equal. lia.
  - intros ([s1 k1]&H1&H2)%bind_Ret_inv. cbn beta iota in H2. rewrite (IH _ _ H2).
    change (ev :: evs) with ([ev] ++ evs). rewrite fmap_app, count_app, list_fmap_singleton, count_one.
    destruct ev; cbn [AsyncStream.on_event event_station] in *.
    1, 2: apply bind_Ret_inv in H1 as ([h k2]&_&E); injection E as <- _; done.
    injection H1 as <- _. cbn [on_read_disconnect]. rewrite decide_True by done.
    destruct (on_read_disconnect s) as [m|]; [|done]. cbn [feed_void fmap option_fmap option_map].
    f_equal. lia.
Qed.

(** The answers since a feeder was set up are all that it was fed. *)
Lemma answers_of_notify x o :
  o = notify x (Some []) -> answer <$> fed_since (Some []) o = [answer x].
Proof. by intros ->. Qed.

(** ** Property *)

(** C15: An [AsyncIoStream] over a socket, run by the event loop: a client sets up the
    stream and its own functions on [readDone], [writeDone] and
    [onReadDisconnected], begins a read of [mn] to [mx] bytes and a write of
    [data], and polls, while epoll reports any events, at most 10922 for a [poll];
    the client's functions do not fail critically.  Every reported event is
    served, no event stays armed and nothing faults; the client's memory holds
    exactly the bytes that were received, in order, and the socket has sent a
    beginning of [data]; the client's function on [readDone] has been called not
    at all while the read is pending, and otherwise once, with the number of the
    bytes or the error [Disconnected]; so for [writeDone]; the function on
    [onReadDisconnected] once for each report. *)
Theorem async_stream_on_loop {K C} (recv : Z -> K -> Z * list byte * K)
    (send : list byte -> K -> Z * K) (errno : K -> Z) (source sunk : K -> list byte)
    (client_func : positive -> Z -> C -> thrown (ErrorOr Z) * C)
    (client_error : positive -> Error -> C -> ErrorOr Z * C)
    (memory data memw : list byte) (b mn mx bw : Z) (masks : list (list Z)) (k : K) (c : C)
    (w : world Z (AsyncIoStream * K * C)) :
  recv_law recv source (fun _ => True) -> send_law send sunk ->
  (forall n k, sunk (recv n k).2 = sunk k) ->
  (forall bytes k, source (send bytes k).2 = source k) ->
  0 <= b -> 0 < mn <= mx -> b + mx <= zlen memory -> mx < size_mod ->
  0 <= bw -> 0 < zlen data < size_mod -> bw + zlen data <= zlen memw ->
  ztake (zlen data) (zdrop bw memw) = data ->
  (forall f v c, is_critical (caught (client_func f v c).1) = false) ->
  (forall f e c, is_critical (client_error f e c).1 = false) ->
  Forall (fun ms => zlen ms <= 10922) masks ->
  repr (loop w) empty_queue -> entered (loop w) ->
  user (conveyors w) = (AsyncStream.onReadDisconnected
    (AsyncStream.writeDone (AsyncStream.readDone AsyncStream.new)), k, c) ->
  exists w2 s' k' log bytes n,
    async_client (UnixIoStream_read recv) (UnixIoStream_write send errno)
      client_func client_error memory b mn mx memw bw (zlen data) masks w = Ret w2 /\
    repr (loop w2) empty_queue /\
    user (conveyors w2) = (s', k', foldl (client_step client_func client_error) c log) /\
    source k = bytes ++ source k' /\ zlen bytes <= mx /\
    read_memory (read_stepper s') = list_inserts (Z.to_nat b) bytes memory /\
    match read_task (read_stepper s') with
    | Some _ => zlen bytes < mn /\ for_station 3 log = []
    | None =>
        (mn <= zlen bytes /\ for_station 3 log = [IsValue (zlen bytes)]) \/
        for_station 3 log = [IsError (criticalError_code "Disconnected" Disconnected)]
    end /\
    sunk k' = sunk k ++ ztake n data /\ 0 <= n <= zlen data /\
    match write_task (write_stepper s') with
    | Some _ => n < zlen data /\ for_station 4 log = []
    | None =>
        (n = zlen data /\ for_station 4 log = [IsValue (zlen data)]) \/
        for_station 4 log = [IsError (criticalError_code "Disconnected" Disconnected)]
    end /\
    for_station 5 log =
      replicate (count 2 (event_station <$> reported masks)) (IsValue 0).
Proof.
  intros Hrl Hsl Hra Hsa Hb Hm Hmem Hmx Hbw Hd Hmw Hdata Hfm Hem Hmasks Hr He Hu.
  set (s0 := AsyncStream.onReadDisconnected _) in Hu.
  assert (Hrun : forall evs, _) by exact (fun evs => unix_async_duplex recv send errno source sunk
    memory data memw b mn mx bw evs s0 k Hrl Hsl Hra Hsa Hb Hm Hmem Hmx Hbw Hd Hmw Hdata
    eq_refl eq_refl).
  destruct (AsyncStream.read _ _ _ _ _ s0 k) as [[sr kr]|] eqn:Hrd;
    [|by destruct (Hrun []) as (?&?&?&?&?&_)].
  setoid_rewrite bind_ret in Hrun.
  destruct (AsyncStream.write _ _ _ _ sr kr) as [[s1 k1]|] eqn:Hwr;
    [|by destruct (Hrun []) as (?&?&?&?&?&_)].
  setoid_rewrite bind_ret in Hrun.
  destruct (async_client_runs _ _ client_func client_error memory b mn mx memw bw (zlen data)
    masks s0 k c sr kr s1 k1 w Hfm Hem Hr He Hu Hrd Hwr)
    as (w2&evs&log&s&k'&Hrun2&Hr2&Hst&Hperm&Hev&Hlog); [|done|].
  { intros evs. destruct (Hrun evs) as (s'&k'&_&_&?&_). eauto. }
  destruct (Hrun evs) as (s'&k2&bytes&n&Hev'&Hsrc&Hl&Hmm&Ht&Hsk&Hn&Htw).
  rewrite Hev in Hev'. injection Hev' as <- <-.
  exists w2, s, k', log, bytes, n. rewrite !Hlog by lia.
  pose proof (on_events_disconnect _ _ _ _ _ _ _ Hev) as Hdis.
  destruct (read_once _ _ _ _ _ _ _ _ _ Hrd) as (_&_&E1).
  destruct (write_once _ _ _ _ _ _ _ _ Hwr) as (_&_&E2).
  split_and!; try done; try lia.
  - destruct (read_task (read_stepper s)).
    + destruct Ht as [? Ht]. split; [done|]. cbn [news_for]. by rewrite Ht, fed_since_same.
    + destruct Ht as [[? Ht]|Ht]; [left; split; [done|]|right]; cbn [news_for];
        exact (answers_of_notify _ _ Ht).
  - destruct (write_task (write_stepper s)).
    + destruct Htw as [? Ht']. split; [done|]. cbn [news_for]. by rewrite Ht', fed_since_same.
    + destruct Htw as [[? Ht']|Ht']; [left; split; [done|]|right]; cbn [news_for];
        exact (answers_of_notify _ _ Ht').
  - cbn [news_for]. rewrite Hdis, E2, E1. cbn [s0 AsyncStream.onReadDisconnected on_read_disconnect
      fmap option_fmap option_map].
    replace (count 2 (event_station <$> reported masks)) with (count 2 (event_station <$> evs))
      by (unfold count; by rewrite Hperm).
    f_equal. lia.
Qed.

(** A client that logs what it is given. *)
Definition log_func (f : positive) (v : Z) (log : list (positive * ErrorOr Z))
  : thrown (ErrorOr Z) * list (positive * ErrorOr Z) :=
  (Returned (IsValue v), log ++ [(f, IsValue v)]).
Definition log_error (f : positive) (e : Error) (log : list (positive * ErrorOr Z))
  : ErrorOr Z * list (positive * ErrorOr Z) := (IsError noError, log ++ [(f, IsError e)]).

Lemma async_stream_on_loop_witness :
  let arrives := [[x61; x62]; []; [x63; x64; x65]] in
  let data := [x31; x32; x33] in
  let masks := [[EPOLLIN]; [Z.lor EPOLLIN EPOLLOUT; EPOLLRDHUP]] in
  let s0 := AsyncStream.onReadDisconnected
    (AsyncStream.writeDone (AsyncStream.readDone AsyncStream.new)) in
  exists w2 s' k' log bytes n,
    async_client (UnixIoStream_read duplex_recv)
      (UnixIoStream_write duplex_send (fun k => k.2.2)) log_func log_error
      (replicate 6 x00) 1 3 4 data 0 3 masks (new_world (s0, (arrives, ([], 0)), [])) = Ret w2 /\
    repr (loop w2) empty_queue /\
    user (conveyors w2) = (s', k', foldl (client_step log_func log_error) [] log) /\
    concat arrives = bytes ++ concat k'.1 /\ zlen bytes <= 4 /\
    read_memory (read_stepper s') = list_inserts 1 bytes (replicate 6 x00) /\
    match read_task (read_stepper s') with
    | Some _ => zlen bytes < 3 /\ for_station 3 log = []
    | None =>
        (3 <= zlen bytes /\ for_station 3 log = [IsValue (zlen bytes)]) \/
        for_station 3 log = [IsError (criticalError_code "Disconnected" Disconnected)]
    end /\
    k'.2.1 = ztake n data /\ 0 <= n <= 3 /\
    match write_task (write_stepper s') with
    | Some _ => n < 3 /\ for_station 4 log = []
    | None =>
        (n = 3 /\ for_station 4 log = [IsValue 3]) \/
        for_station 4 log = [IsError (criticalError_code "Disconnected" Disconnected)]
    end /\
    for_station 5 log = [IsValue 0].
Proof.
  apply (async_stream_on_loop duplex_recv duplex_send (fun k => k.2.2) (fun k => concat k.1)
    (fun k => k.2.1) log_func log_error (replicate 6 x00) [x31; x32; x33] [x31; x32; x33] 1 3 4 0
    [[EPOLLIN]; [Z.lor EPOLLIN EPOLLOUT; EPOLLRDHUP]]
    ([[x61; x62]; []; [x63; x64; x65]], ([], 0)) []
    (new_world (AsyncStream.onReadDisconnected
      (AsyncStream.writeDone (AsyncStream.readDone AsyncStream.new)),
      ([[x61; x62]; []; [x63; x64; x65]], ([], 0)), []))).
  - apply duplex_recv_law.
  - apply duplex_send_law.
  - apply duplex_recv_apart.
  - apply duplex_send_apart.
  - lia.
  - lia.
  - vm_compute. discriminate.
  - reflexivity.
  - lia.
  - vm_compute. by split.
  - vm_compute. discriminate.
  - reflexivity.
  - done.
  - done.
  - by repeat constructor.
  - split; [|done]. split_and!; try done. constructor.
  - done.
  - done.
Defined.
