(* ===== verification/UnixPort.v ===== *)
(** Model of the rest of the Unix driver ([driver/io-unix.h], [io-unix.cpp]): how the
    event port is made and destroyed, its timed waits, addresses and what the
    network makes of them.

    A duration is a number of nanoseconds, as on the steady clock. *)

From S2P Require Import Prelude Error.
From stdpp Require Import gmap pretty.
From S2P Require Import UnixIo.
#[local] Open Scope Z_scope.

(** ** [UnixEventPort] *)
Section port.
Context {K : Type}.
(** The system calls; [epoll_add] is as in [UnixIo], [send] that of [wake]. *)
Context (ignore_sigpipe : K -> K) (epoll_create1 signalfd : K -> Z * K).
Context (pipe2 : K -> Z * (Z * Z) * K) (close : Z -> K -> K).
Context (epoll_add : Z -> Z -> Z -> Z -> K -> Z * K).
Context (send : Z -> K -> K).

(** The constructor: it returns where a call fails. *)
Definition UnixEventPort_new (k : K) : UnixEventPort * K :=
  let k := ignore_sigpipe k in
  let '(efd, k) := epoll_create1 k in
  if efd <? 0 then (mkPort efd (-1) None, k)
  else
    let '(sfd, k) := signalfd k in
    if sfd <? 0 then (mkPort efd sfd None, k)
    else
      let k := (epoll_add efd sfd 0 EPOLLIN k).2 in
      let '(rc, fds, k) := pipe2 k in
      if rc <? 0 then (mkPort efd sfd None, k)
      else (mkPort efd sfd (Some fds), (epoll_add efd fds.1 1 EPOLLIN k).2).

Definition UnixEventPort_drop (p : UnixEventPort) (k : K) : outcome K :=
  let k := close (signal_fd p) (close (epoll_fd p) k) in
  match pipefds p with
  | Some (r, w) => Ret (close w (close r k))
  | None => Halt UndefinedBehaviour
  end.

Definition wake (p : UnixEventPort) (k : K) : outcome K :=
  match pipefds p with
  | Some (_, w) => if w <? 0 then Ret k else Ret (send w k)
  | None => Halt UndefinedBehaviour
  end.

(** [saw::setupAsyncIo]: it asks the port for nothing. *)
Definition setupAsyncIo (k : K) : ErrorOr UnixEventPort * K :=
  let '(prt, k) := UnixEventPort_new k in (IsValue prt, k).
End port.

(** ** Timed waits: the [time] that [pollImpl] is given *)

(** The conversion of a [long] to [int]. *)
Definition to_int (n : Z) : Z := (n + 2 ^ 31) mod 2 ^ 32 - 2 ^ 31.
(** [duration_cast<milliseconds>(d).count()] *)
Definition milliseconds (d : Z) : Z := Z.quot d 1000000.

Definition wait_for (duration : Z) : Z := to_int (milliseconds duration).
Definition wait_until (now time_point : Z) : Z :=
  if time_point <=? now then 0 else to_int (milliseconds (time_point - now)).

(** ** Addresses *)

(** [sizeof(SocketAddress::address)], that of [sockaddr_storage]. *)
Definition sizeof_address : Z := 128.

(** [address]: the first [address_length] bytes of the union. *)
Record SocketAddress := mkSocketAddress { raw : list byte; wildcard : bool }.

Definition SocketAddress_new (sockaddr : list byte) (wildcard : bool) : outcome SocketAddress :=
  _ ← assert_that (zlen sockaddr <=? sizeof_address);
  Ret (mkSocketAddress sockaddr wildcard).

Definition SocketAddress_bind {K} (set_v6only : Z -> K -> K) (bind : Z -> list byte -> K -> Z * K)
    (a : SocketAddress) (fd : Z) (k : K) : bool * K :=
  let k := if wildcard a then set_v6only fd k else k in
  let '(error, k) := bind fd (raw a) k in (error <? 0, k).

Record UnixNetworkAddress := mkUnixNetworkAddress {
  path : string;
  port_hint : Z;
  addresses : list SocketAddress
}.

(** [NetworkAddress::representation()] *)
Inductive NetworkAddress :=
| OsNetworkAddress (addr : UnixNetworkAddress)
| StringNetworkAddress (address_value : string) (port_value : Z).

Section resolve.
(** [getaddrinfo(node, service)] with [AF_UNSPEC]: [None] for an error, else the
    addresses of its list. *)
Context (getaddrinfo : string -> string -> option (list (list byte))).

Fixpoint parse_results (l : list (list byte)) (wildcard : bool) : outcome (list SocketAddress) :=
  match l with
  | [] => Ret []
  | ai_addr :: l =>
      if sizeof_address <? zlen ai_addr then parse_results l wildcard
      else
        a ← SocketAddress_new ai_addr wildcard;
        rest ← parse_results l wildcard;
        Ret (a :: rest)
  end.

(** [SocketAddress::parse] *)
Definition parse (str : string) (port_hint : Z) : outcome (list SocketAddress) :=
  let port_string := pretty port_hint in
  let wildcard := bool_decide (str = "*") || bool_decide (str = "::") in
  match getaddrinfo str port_string with
  | None => Ret []
  | Some head => parse_results head wildcard
  end.

Definition UnixNetwork_parseAddress (path : string) (port_hint : Z) : outcome NetworkAddress :=
  addresses ← parse (address_to_parse path) port_hint;
  Ret (OsNetworkAddress (mkUnixNetworkAddress path port_hint addresses)).

(** [translateNetworkAddressToUnixNetworkAddress] and [translateToUnixAddressRef] *)
Definition translate (addr : NetworkAddress) : outcome UnixNetworkAddress :=
  match addr with
  | OsNetworkAddress arg => Ret arg
  | StringNetworkAddress address port =>
      sock_addrs ← parse address port;
      Ret (mkUnixNetworkAddress address port sock_addrs)
  end.
End resolve.

Definition unixAddress (i : nat) (a : UnixNetworkAddress) : outcome SocketAddress :=
  match addresses a !! i with Some s => Ret s | None => Halt AssertionFailed end.

(** ** [UnixNetwork], with the addresses it is given *)
Section network.
Context {K : Type} (getaddrinfo : string -> string -> option (list (list byte))).
Context (socket : SocketAddress -> K -> Z * K) (setsockopt set_v6only : Z -> K -> Z * K).
Context (bind : Z -> list byte -> K -> Z * K) (listen : Z -> K -> K).
Context (connect : Z -> SocketAddress -> K -> option Z * K) (close : Z -> K -> K).
Context (epoll_add : Z -> Z -> Z -> Z -> K -> Z * K) (epoll_del : Z -> Z -> K -> Z * K).
Context (event_port : UnixEventPort).

Definition bind_address (a : SocketAddress) (fd : Z) (k : K) : bool * K :=
  SocketAddress_bind (fun fd k => (set_v6only fd k).2) bind a fd k.

Definition network_listen (owner : Z) (addr : NetworkAddress) (k : K)
  : outcome (option Z * K) :=
  address ← translate getaddrinfo addr;
  UnixNetwork_listen socket setsockopt bind_address listen close epoll_add
    event_port owner (addresses address) k.
Definition network_connect (owner : Z) (addr : NetworkAddress) (k : K)
  : outcome (ErrorOr Z * K) :=
  address ← translate getaddrinfo addr;
  UnixNetwork_connect socket connect close epoll_add epoll_del event_port owner
    (addresses address) k.
Definition network_datagram (owner : Z) (addr : NetworkAddress) (k : K)
  : outcome (option Z * K) :=
  address ← translate getaddrinfo addr;
  UnixNetwork_datagram socket setsockopt bind_address close epoll_add event_port owner
    (addresses address) k.

(** What the resolver answers that fits. *)
Definition resolved (str : string) (port : Z) : list SocketAddress :=
  map (fun a => mkSocketAddress a (bool_decide (str = "*") || bool_decide (str = "::")))
    (filter (fun a => zlen a <= sizeof_address)
       (default [] (getaddrinfo str (pretty port)))).

Lemma parse_results_ok l w :
  parse_results l w =
    Ret (map (fun a => mkSocketAddress a w) (filter (fun a => zlen a <= sizeof_address) l)).
Proof.
  induction l as [|a l IH]; [done|]. cbn [parse_results]. rewrite filter_cons, IH.
  destruct (Z.ltb_spec sizeof_address (zlen a)) as [?|?]; case_decide; try lia; [done|].
  unfold SocketAddress_new. rewrite assert_that_true, !bind_ret by (by apply Z.leb_le). done.
Qed.

Lemma parse_ok str port : parse getaddrinfo str port = Ret (resolved str port).
Proof.
  unfold parse, resolved. destruct (getaddrinfo str (pretty port)) as [l|]; [|done].
  apply parse_results_ok.
Qed.

(** [str] is [path] without a leading [unix:]. *)
Definition without_unix (path str : string) : Prop :=
  path = "unix:" +:+ str \/ (path = str /\ forall rest, path <> "unix:" +:+ rest).

Lemma without_unix_parsed path str : without_unix path str -> address_to_parse path = str.
Proof.
  intros [->|[-> Hn]]; unfold address_to_parse, beginsWith.
  - rewrite string_prefix_of_app.
    change (String.length ("unix:" +:+ str)) with (5 + String.length str)%nat.
    rewrite Nat.add_comm, Nat.add_sub. apply (substring_all str).
  - destruct (String.prefix "unix:" str) eqn:E; [|done].
    apply string_prefix_app in E as (rest&?). by destruct (Hn rest).
Qed.

(** C33: [parseAddress] answers an address for every text, which keeps the text and
    the port.  The text is looked up without a leading [unix:], and what the
    resolver finds is kept in its order, less what does not fit into a
    [SocketAddress], so that its assertion holds.  The answer is an address also
    when nothing is left.  [listen], [connect] and [datagram] then end the program
    with an assertion, and they return, on what the resolver found, exactly when
    something is left.  An address made of the same text and port by a client, a
    [StringNetworkAddress], is looked up with the prefix. *)
Theorem unix_parse_address (path str : string) (port owner : Z) (k : K) :
  without_unix path str ->
  let found := resolved str port in
  exists addr, UnixNetwork_parseAddress getaddrinfo path port = Ret addr /\
    translate getaddrinfo addr = Ret (mkUnixNetworkAddress path port found) /\
    translate getaddrinfo (StringNetworkAddress path port) =
      Ret (mkUnixNetworkAddress path port (resolved path port)) /\
    Forall (fun a => zlen (raw a) <= sizeof_address) found /\
    let answers {R} (call : outcome (R * K)) (on_found : list SocketAddress -> outcome (R * K)) :=
      match found with
      | [] => call = Halt AssertionFailed
      | _ => call = on_found found /\ exists r k', call = Ret (r, k')
      end in
    answers (network_listen owner addr k)
      (fun l => UnixNetwork_listen socket setsockopt bind_address listen close epoll_add
                  event_port owner l k) /\
    answers (network_connect owner addr k)
      (fun l => UnixNetwork_connect socket connect close epoll_add epoll_del event_port
                  owner l k) /\
    answers (network_datagram owner addr k)
      (fun l => UnixNetwork_datagram socket setsockopt bind_address close epoll_add event_port
                  owner l k).
Proof.
  intros Hstr found. unfold UnixNetwork_parseAddress.
  rewrite (without_unix_parsed path str Hstr), parse_ok, bind_ret. fold found.
  eexists. split; [done|]. split; [done|].
  split; [cbn [translate]; by rewrite parse_ok, bind_ret|]. split.
  { unfold found, resolved. rewrite Forall_map. apply Forall_forall. intros a Ha.
    by apply list_elem_of_filter in Ha as [? _]. }
  unfold network_listen, network_connect, network_datagram. cbn [translate].
  rewrite !bind_ret. cbn [addresses]. destruct found as [|a l]; [done|].
  split; [|split]; (split; [done|]); cbn [UnixNetwork_listen UnixNetwork_connect UnixNetwork_datagram];
    destruct (socket a k) as [fd k1].
  - destruct (fd <? 0); [by do 2 eexists|]. destruct (setsockopt fd k1) as [rc k2].
    destruct (rc <? 0); [by do 2 eexists|]. destruct (bind_address a fd k2) as [[] k3];
      by do 2 eexists.
  - destruct (fd <? 0); [by do 2 eexists|]. do 2 eexists. apply f_equal, surjective_pairing.
  - destruct (setsockopt fd k1) as [rc k2].
    destruct (rc <? 0); [by do 2 eexists|]. destruct (bind_address a fd k2) as [[] k3];
      by do 2 eexists.
Qed.
End network.

(** A resolver that knows [/s] on port 80, with an address that is too long. *)
Definition knows_s (node service : string) : option (list (list byte)) :=
  if decide (node = "/s" /\ service = "80")
  then Some [replicate 129 x00; [x01; x02]] else None.

Lemma unix_parse_address_witness :
  let socket (a : SocketAddress) (k : Z) := (3, k) in
  let opt (fd k : Z) := (0, k) in
  let found := resolved knows_s "/s" 80 in
  found = [mkSocketAddress [x01; x02] false] /\
  exists addr, UnixNetwork_parseAddress knows_s "unix:/s" 80 = Ret addr /\
    network_listen knows_s socket opt opt (fun fd a k => (0, k)) (fun fd k => k) (fun fd k => k)
      (fun _ _ _ _ k => (0, k)) (mkPort 9 4 None) 64 addr 0 = Ret (Some 3, 0).
Proof.
  intros socket opt found. split; [by vm_compute|].
  destruct (unix_parse_address knows_s socket opt opt (fun fd a k => (0, k)) (fun fd k => k)
    (fun fd a k => (None, k)) (fun fd k => k) (fun _ _ _ _ k => (0, k)) (fun _ _ k => (0, k))
    (mkPort 9 4 None) "unix:/s" "/s" 80 64 0 (or_introl eq_refl)) as (addr&Hp&_&_&_&Hl&_).
  exists addr. split; [exact Hp|]. exact (proj1 Hl).
Defined.

(** ** The port's descriptors *)
Section lifecycle.
Context {K : Type} (ignore_sigpipe : K -> K) (epoll_create1 signalfd : K -> Z * K).
Context (pipe2 : K -> Z * (Z * Z) * K) (close : Z -> K -> K).
Context (epoll_add : Z -> Z -> Z -> Z -> K -> Z * K) (opened : K -> gset Z).

(** A call that answers a descriptor opens a new one; otherwise it opens none. *)
Definition opens (call : K -> Z * K) : Prop := forall k,
  let '(fd, k') := call k in
  if fd <? 0 then opened k' = opened k
  else (fd ∉ opened k) /\ opened k' = {[fd]} ∪ opened k.
Record port_laws : Prop := {
  sigpipe_law k : opened (ignore_sigpipe k) = opened k;
  epoll_law : opens epoll_create1;
  signalfd_law : opens signalfd;
  pipe_law k : let '(rc, (r, w), k') := pipe2 k in
    if rc <? 0 then opened k' = opened k
    else (r ∉ opened k) /\ (w ∉ opened k) /\ r <> w /\ opened k' = {[r; w]} ∪ opened k;
  close_law fd k : opened (close fd k) = opened k ∖ {[fd]};
  add_law efd fd data events k : opened (epoll_add efd fd data events k).2 = opened k
}.
Hypothesis laws : port_laws.

(** C31: The event port closes what it has opened: after its destructor the
    open descriptors are those from before its constructor, if every call of the
    constructor succeeded.  If one failed, [setupAsyncIo] answers a port all the
    same, and its destructor and [wake] read descriptors that were never set. *)
Theorem unix_port_lifecycle (send : Z -> K -> K) (k : K) :
  let new := UnixEventPort_new ignore_sigpipe epoll_create1 signalfd pipe2 epoll_add k in
  setupAsyncIo ignore_sigpipe epoll_create1 signalfd pipe2 epoll_add k =
    (IsValue new.1, new.2) /\
  match pipefds new.1 with
  | Some _ => exists k', UnixEventPort_drop close new.1 new.2 = Ret k' /\ opened k' = opened k
  | None =>
      UnixEventPort_drop close new.1 new.2 = Halt UndefinedBehaviour /\
      wake send new.1 new.2 = Halt UndefinedBehaviour
  end /\
  (epoll_fd new.1 < 0 \/ signal_fd new.1 < 0 -> pipefds new.1 = None).
Proof.
  intros new. unfold setupAsyncIo. fold new. split; [by destruct new|].
  unfold new, UnixEventPort_new, UnixEventPort_drop, wake. clear new.
  pose proof (sigpipe_law laws k) as H0. pose proof (epoll_law laws (ignore_sigpipe k)) as H1.
  destruct (epoll_create1 (ignore_sigpipe k)) as [efd k1].
  destruct (Z.ltb_spec efd 0) as [He|He]; [by split|].
  pose proof (signalfd_law laws k1) as H2. destruct (signalfd k1) as [sfd k2].
  destruct (Z.ltb_spec sfd 0) as [Hs|Hs]; [by split|].
  pose proof (add_law laws efd sfd 0 EPOLLIN k2) as H3.
  set (k3 := (epoll_add efd sfd 0 EPOLLIN k2).2) in *.
  pose proof (pipe_law laws k3) as H4. destruct (pipe2 k3) as [[rc [r w]] k4].
  destruct (Z.ltb_spec rc 0) as [Hr|Hr]; [by split|]. cbn [fst snd pipefds epoll_fd signal_fd].
  split; [|lia]. eexists. split; [done|].
  rewrite !(close_law laws), (add_law laws).
  destruct H1 as [Hn1 E1], H2 as [Hn2 E2], H4 as (Hn3&Hn4&_&E4).
  rewrite H3, E2, E1, H0 in Hn3, Hn4, E4. rewrite E1, H0 in Hn2. rewrite H0 in Hn1. rewrite E4.
  clear -Hn1 Hn2 Hn3 Hn4. apply set_eq. intros x.
  rewrite !not_elem_of_union, !not_elem_of_singleton in Hn2, Hn3, Hn4.
  rewrite !elem_of_difference, !elem_of_union, !elem_of_singleton. split; [tauto|].
  intros Hx. split_and!; [tauto|intros ->; set_solver..].
Qed.
End lifecycle.

(** A kernel for the witness: how many calls it will grant, the next descriptor,
    and the descriptors, of which those from the next one on do not count. *)
Definition kernel : Type := Z * nat * gset Z.
Definition kernel_opened (k : kernel) : gset Z := filter (fun fd => fd < Z.of_nat k.1.2) k.2.
Definition kernel_open (k : kernel) : Z * kernel :=
  if k.1.1 <=? 0 then (-1, k)
  else (Z.of_nat k.1.2, (k.1.1 - 1, S k.1.2, {[Z.of_nat k.1.2]} ∪ kernel_opened k)).
Definition kernel_pipe (k : kernel) : Z * (Z * Z) * kernel :=
  if k.1.1 <=? 1 then (-1, (0, 0), k)
  else let '(r, k) := kernel_open k in let '(w, k) := kernel_open k in (0, (r, w), k).
Definition kernel_close (fd : Z) (k : kernel) : kernel := (k.1, k.2 ∖ {[fd]}).

Lemma kernel_open_law : opens kernel_opened kernel_open.
Proof.
  intros [[left next] fds]. unfold kernel_open. cbn [fst snd].
  destruct (Z.leb_spec left 0); [done|]. destruct (Z.ltb_spec (Z.of_nat next) 0); [lia|].
  unfold kernel_opened. cbn [fst snd]. split.
  - rewrite elem_of_filter. lia.
  - apply set_eq. intros x. rewrite elem_of_filter, !elem_of_union, !elem_of_filter,
      elem_of_singleton.
    split; [intros [? [->|[? ?]]]; auto|intros [->|[? ?]]; split; auto; lia].
Qed.

Lemma kernel_laws :
  port_laws (fun k => k) kernel_open kernel_open kernel_pipe kernel_close
    (fun _ _ _ _ k => (0, k)) kernel_opened.
Proof.
  split; try done; try apply kernel_open_law.
  - intros k. unfold kernel_pipe. destruct (Z.leb_spec k.1.1 1) as [?|Hk]; [done|].
    pose proof (kernel_open_law k) as H1.
    assert (Hleft : (kernel_open k).2.1.1 = k.1.1 - 1).
    { unfold kernel_open. destruct (Z.leb_spec k.1.1 0); [lia|done]. }
    assert (Hr : 0 <= (kernel_open k).1).
    { unfold kernel_open. destruct (Z.leb_spec k.1.1 0); [lia|]. cbn. lia. }
    destruct (kernel_open k) as [r k1]. cbn [fst snd] in Hleft, Hr.
    pose proof (kernel_open_law k1) as H2.
    assert (Hw : 0 <= (kernel_open k1).1).
    { unfold kernel_open. destruct (Z.leb_spec k1.1.1 0); [lia|]. cbn. lia. }
    destruct (kernel_open k1) as [w k2]. cbn [fst] in Hw.
    destruct (Z.ltb_spec r 0); [lia|]. destruct (Z.ltb_spec w 0); [lia|].
    destruct H1 as [? E1], H2 as [? ->]. rewrite E1 in *. cbn [Z.ltb Z.compare].
    split_and!; set_solver.
  - intros fd [k fds]. unfold kernel_opened, kernel_close. cbn [fst snd]. set_solver.
Qed.

Lemma unix_port_lifecycle_witness :
  let new := UnixEventPort_new (fun k => k) kernel_open kernel_open kernel_pipe
    (fun _ _ _ _ k => (0, k)) (4, 3%nat, {[0; 1; 2]}) in
  match pipefds new.1 with
  | Some _ => exists k', UnixEventPort_drop kernel_close new.1 new.2 = Ret k' /\
      kernel_opened k' = kernel_opened (4, 3%nat, {[0; 1; 2]})
  | None => False
  end.
Proof.
  pose proof (unix_port_lifecycle _ _ _ _ _ _ _ kernel_laws (fun _ k => k)
    (4, 3%nat, {[0; 1; 2]})) as (_&H&_). exact H.
Defined.

(** ** Timed waits *)
Lemma to_int_small n : 0 <= n < 2 ^ 31 -> to_int n = n.
Proof. intros Hn. unfold to_int. rewrite Z.mod_small by lia. lia. Qed.

Lemma to_int_large n : 2 ^ 31 <= n < 2 ^ 32 -> to_int n < 0.
Proof.
  intros Hn. unfold to_int.
  replace ((n + 2 ^ 31) mod 2 ^ 32) with (n + 2 ^ 31 - 2 ^ 32); [lia|].
  apply (Z.mod_unique _ _ 1); lia.
Qed.

Lemma to_int_negative n : - 2 ^ 31 <= n < 0 -> to_int n = n.
Proof. intros Hn. unfold to_int. rewrite Z.mod_small by lia. lia. Qed.

Lemma to_int_wraps n q : to_int (q * 2 ^ 32 + n) = to_int n.
Proof.
  unfold to_int. replace (q * 2 ^ 32 + n + 2 ^ 31) with (n + 2 ^ 31 + q * 2 ^ 32) by lia.
  by rewrite Z.mod_add.
Qed.

Lemma milliseconds_floor d :
  0 <= d -> milliseconds d * 1000000 <= d < (milliseconds d + 1) * 1000000.
Proof.
  intros Hd. unfold milliseconds. rewrite Z.quot_div_nonneg by lia.
  pose proof (Z.div_mod d 1000000 ltac:(lia)). pose proof (Z.mod_pos_bound d 1000000 ltac:(lia)).
  lia.
Qed.

(** [2^32] milliseconds, after which [to_int] begins again. *)
Definition wrap : Z := 2 ^ 32 * 1000000.

Lemma wait_for_wraps d : 0 <= d -> wait_for d = wait_for (d mod wrap).
Proof.
  intros Hd. unfold wait_for, milliseconds, wrap in *.
  pose proof (Z.mod_pos_bound d (2 ^ 32 * 1000000) ltac:(lia)).
  rewrite !Z.quot_div_nonneg by lia.
  rewrite (Z.div_mod d (2 ^ 32 * 1000000)) at 1 by lia.
  replace (2 ^ 32 * 1000000 * (d / (2 ^ 32 * 1000000))) with
    (d / (2 ^ 32 * 1000000) * 2 ^ 32 * 1000000) by lia.
  by rewrite Z.div_add_l, to_int_wraps by lia.
Qed.

(** C32: A timed wait on a port where nothing happens, given that [epoll_wait] lasts
    the milliseconds it is given or up to [overrun] more.  For a duration, and
    until a point of time ahead, the number of milliseconds counts modulo [2^32]:
    where the remainder is below [2^31] milliseconds the wait returns after the
    remainder, less than a millisecond early and at most the overrun late; so it
    keeps a duration below [2^31] milliseconds (twenty-four days), and ends one of
    [2^32] milliseconds (forty-nine days) or more too early.  Where the remainder
    is [2^31] milliseconds or more it waits for ever.  A point that has passed is a
    [poll].  A negative duration of less than a millisecond is one too, and one down
    to minus [2^31] milliseconds waits for ever. *)
Theorem unix_timed_wait {K U} (epoll_wait : Z -> Z -> K -> outcome (option (list epoll_event) * K))
    (read_signal recv_pipe : K -> option Z * K) (pipe_open : bool)
    (notify_owner : Z -> Z -> U -> U) (notify_signal : Z -> U -> U) (clock : K -> Z)
    (fuel rounds : nat) (overrun d time : Z) (k : K) (u : U) :
  (forall m time k, 0 <= time -> exists k', epoll_wait m time k = Ret (Some [], k') /\
     clock k + time * 1000000 <= clock k' <= clock k + time * 1000000 + overrun) ->
  (forall m time k, time < 0 -> epoll_wait m time k = Halt Diverges) ->
  let wait time := pollImpl epoll_wait read_signal recv_pipe pipe_open notify_owner notify_signal
    (S rounds) fuel time k u in
  let returns time shortest longest := exists k', wait time = Ret (true, k', u) /\
    clock k + shortest <= clock k' <= clock k + longest + overrun in
  (0 <= d -> time = wait_for d \/ 0 < d /\ time = wait_until (clock k) (clock k + d) ->
   let left := d mod (2 ^ 32 * 1000000) in
   if left <? 2 ^ 31 * 1000000 then returns time (left - 999999) left
   else wait time = Halt Diverges) /\
  (d <= 0 -> returns (wait_until (clock k) (clock k + d)) 0 0) /\
  (-1000000 < d <= 0 -> returns (wait_for d) 0 0) /\
  (- 2 ^ 31 * 1000000 <= d <= -1000000 -> wait (wait_for d) = Halt Diverges).
Proof.
  intros Hidle Hforever wait returns.
  assert (Hret : forall time, 0 <= time -> returns time (time * 1000000) (time * 1000000)).
  { intros t Ht. unfold returns, wait. cbn [pollImpl].
    destruct (Hidle MAX_EPOLL_EVENTS t k Ht) as (k'&->&?). by exists k'. }
  assert (Hspin : forall time, time < 0 -> wait time = Halt Diverges).
  { intros t Ht. unfold wait. cbn [pollImpl]. by rewrite Hforever. }
  clearbody wait. split; [|split; [|split]].
  - intros Hd Htime left. assert (Et : time = wait_for d).
    { destruct Htime as [->|[Hpos ->]]; [done|]. unfold wait_until, wait_for.
      destruct (Z.leb_spec (clock k + d) (clock k)); [lia|]. do 2 f_equal. lia. }
    rewrite Et, (wait_for_wraps d Hd). unfold wrap. fold left.
    pose proof (Z.mod_pos_bound d (2 ^ 32 * 1000000) ltac:(lia)) as Hl. fold left in Hl.
    pose proof (milliseconds_floor left ltac:(lia)) as Hf. unfold wait_for.
    destruct (Z.ltb_spec left (2 ^ 31 * 1000000)).
    + rewrite to_int_small by lia.
      destruct (Hret (milliseconds left) ltac:(lia)) as (k'&E&Hc). exists k'. split; [done|lia].
    + apply Hspin, to_int_large. lia.
  - intros Hd. unfold wait_until. destruct (Z.leb_spec (clock k + d) (clock k)); [|lia].
    by apply (Hret 0).
  - intros Hd. replace (wait_for d) with 0; [by apply (Hret 0)|].
    unfold wait_for, milliseconds. by rewrite (proj2 (Z.quot_small_iff d 1000000 ltac:(lia))) by lia.
  - intros Hd. apply Hspin. unfold wait_for, milliseconds.
    rewrite <- (Z.opp_involutive d), Z.quot_opp_l, Z.quot_div_nonneg by lia.
    pose proof (Z.div_mod (- d) 1000000 ltac:(lia)).
    pose proof (Z.mod_pos_bound (- d) 1000000 ltac:(lia)).
    rewrite to_int_negative by lia. lia.
Qed.

Lemma unix_timed_wait_witness :
  let late (m time k : Z) := if time <? 0 then Halt Diverges
    else Ret (Some [], k + time * 1000000 + 7) in
  let d := 2 ^ 32 * 1000000 + 2500000 in
  let wait := pollImpl late (fun k => (None, k)) (fun k => (None, k)) true
    (fun _ _ u => u) (fun _ u => u) 1 1 (wait_for d) 70 tt in
  exists k', wait = Ret (true, k', tt) /\ 70 + 1500001 <= k' <= 70 + 2500000 + 9.
Proof.
  intros late d wait.
  assert (Hlate : forall m time k : Z, 0 <= time -> exists k', late m time k = Ret (Some [], k') /\
    k + time * 1000000 <= k' <= k + time * 1000000 + 9).
  { intros m time k Ht. unfold late. destruct (Z.ltb_spec time 0); [lia|]. eexists.
    split; [done|lia]. }
  assert (Hwait : forall m time k : Z, time < 0 -> late m time k = Halt Diverges).
  { intros m time k Ht. unfold late. by destruct (Z.ltb_spec time 0); [|lia]. }
  exact (proj1 (unix_timed_wait late (fun k => (None, k)) (fun k => (None, k)) true
    (fun _ _ u => u) (fun _ u => u) (fun k => k) 1 0 9 d (wait_for d) 70 tt Hlate Hwait)
    ltac:(done) (or_introl eq_refl)).
Defined.
