(* ===== verification/UnixLoop.v ===== *)
(** The event loop over the Unix event port: what [epoll] reports of a socket is fed
    to the conveyors of its stream, and [wait] and [poll] serve it.  This composes
    [EventLoop::wait], [UnixEventPort::pollImpl], [UnixIoStream::notify], the
    conveyors, [AsyncIoStream] and the functions of a client; the kernel is a
    parameter, and changes whenever it is called and between the calls. *)

From S2P Require Import Prelude Error IoHelpers UnixIo UnixTheory AsyncStream UnixPort.
From stdpp Require Import gmap list relations.
From S2P Require Import EventLoop EventQueue Conveyor ConveyorRules ConveyorPipeline Stations AsyncLoop.
#[local] Open Scope Z_scope.
#[local] Abbreviation length := List.length.

(** ** The event port of the loop *)

(** The calls of [EventLoop] and [WaitScope] that ask the port. *)
Inductive loop_call :=
| Poll
| Wait
| WaitFor (duration : Z)
| WaitUntil (time_point : Z).

Section port.
(** The state of the functions has the kernel in the middle. *)
Context {V S K C : Type}.
(** The system calls, as in [UnixIo.v]; [now] is [steady_clock::now()]. *)
Context (epoll_wait : Z -> Z -> K -> outcome (option (list epoll_event) * K)).
Context (read_signal : K -> option Z * K) (recv_pipe : K -> option Z * K) (pipe_open : bool).
Context (rounds fuel : nat) (now : Z).
(** The stream has the address [owner] in the event port and feeds [feeds mask] when
    it is notified; its stations begin at [base]. *)
Context (feeds : Z -> list (delivery V)) (owner : Z) (base : nat).
#[local] Abbreviation state := (S * K * C)%type.
Implicit Types w : world V state.

(** [owner->notify(events)]: what the streams feed, in order.  Only this one has
    conveyors. *)
Definition notify_owner (data mask : Z) (fed : list (delivery V)) : list (delivery V) :=
  if data =? owner then fed ++ feeds mask else fed.

(** [pollImpl(time)] as the loop sees it: the kernel is part of the state of the
    functions.  There is no listener for signals. *)
Definition poll_port (time : Z) (n : outcome (net V state)) : prog (outcome (net V state)) :=
  match n with
  | Halt f => Done (Halt f)
  | Ret n =>
      let '(s, k, c) := user n in
      match pollImpl epoll_wait read_signal recv_pipe pipe_open notify_owner (fun _ fed => fed)
              rounds fuel time k [] with
      | Ret (_, k, fed) =>
          prog_bind (feed_all base fed (set_user (s, k, c) n))
            (fun r => Done ('(_, n) ← r; Ret n))
      | Halt f => Done (Halt f)
      end
  end.

(** [UnixEventPort] as an [EventPort]; registering a listener and waking the port
    are not used here. *)
Definition unix_event_port (on_signal : Z -> outcome (net V state) -> prog (outcome (net V state)))
    (wake : outcome (net V state) -> prog (outcome (net V state)))
  : EventPort (outcome (net V state)) :=
  mkEventPort _ on_signal (poll_port 0) (poll_port (-1))
    (fun duration => poll_port (wait_for duration))
    (fun time_point => poll_port (wait_until now time_point)) wake.

Definition call_time (call : loop_call) : Z :=
  match call with
  | Poll => 0
  | Wait => -1
  | WaitFor duration => wait_for duration
  | WaitUntil time_point => wait_until now time_point
  end.

Section loop.
Context (func : positive -> V -> M V state (thrown (ErrorOr V))).
Context (error_func : positive -> Error -> M V state (ErrorOr V)).
Context (event_port : EventPort (outcome (net V state))).
#[local] Abbreviation fire := (fire_event func error_func).

Definition ask_loop (call : loop_call) w : outcome (bool * world V state) :=
  '(b, r, l) ← match call with
               | Poll => EventLoop_poll fire (Some event_port) (Ret (conveyors w)) (loop w)
               | Wait => EventLoop_wait fire (Some event_port) (Ret (conveyors w)) (loop w)
               | WaitFor duration =>
                   EventLoop_wait_duration fire (Some event_port) duration
                     (Ret (conveyors w)) (loop w)
               | WaitUntil time_point =>
                   EventLoop_wait_time_point fire (Some event_port) time_point
                     (Ret (conveyors w)) (loop w)
               end;
  n ← r; Ret (b, mkWorld n l).

(** The kernel moves on by itself. *)
Definition set_kernel (env : K -> K) w : world V state :=
  let n := conveyors w in
  mkWorld (set_user (let '(s, k, c) := user n in (s, env k, c)) n) (loop w).

Fixpoint ask_loops (calls : list (loop_call * (K -> K))) w : outcome (world V state) :=
  match calls with
  | [] => Ret w
  | (call, env) :: calls => '(_, w) ← ask_loop call (set_kernel env w); ask_loops calls w
  end.

Lemma ask_loops_app calls calls' w :
  ask_loops (calls ++ calls') w = w ← ask_loops calls w; ask_loops calls' w.
Proof.
  revert w. induction calls as [|[call env] calls IH]; intros w; [done|]. cbn [app ask_loops].
  destruct (ask_loop call _) as [[b w1]|]; [|done]. cbn [mbind outcome_bind]. apply IH.
Qed.
End loop.
End port.

(** The client of [AsyncLoop.v], over this port. *)
Definition unix_client {K C} recv send errno epoll_wait read_signal recv_pipe pipe_open
    rounds fuel now owner on_signal wake
    (client_func : positive -> Z -> C -> thrown (ErrorOr Z) * C)
    (client_error : positive -> Error -> C -> ErrorOr Z * C)
    (memory : list byte) (b mn mx : Z) (memw : list byte) (bw len : Z)
    (calls : list (loop_call * (K -> K))) (w : world Z (AsyncIoStream * K * C))
  : outcome (world Z (AsyncIoStream * K * C)) :=
  let base := free_base w in
  let stream_read := UnixIoStream_read recv in
  let stream_write := UnixIoStream_write send errno in
  w ← async_start stream_read stream_write client_func client_error memory b mn mx memw bw len w;
  ask_loops (feeding base (loop_func stream_read stream_write client_func))
    (feeding base (loop_error client_error))
    (unix_event_port epoll_wait read_signal recv_pipe pipe_open rounds fuel now
       (fun mask => notify_stream [mask]) owner base on_signal wake) calls w.

(** ** What is known of the kernel *)
Section kernel.
Context {K : Type} (owner : Z).
(** The bytes that are to be received and those that were sent; the events that
    [epoll] has ready; whether the socket has bytes that arrived, and takes any. *)
Context (source sunk : K -> list byte) (ready : K -> list epoll_event).
Context (readable writable : K -> bool).

Definition reports (flag : Z) (k : K) : Prop :=
  Exists (fun ev => data ev = owner /\ has_flag (UnixIo.events ev) flag = true) (ready k).

(** What can be done is going to be reported. *)
Definition announced (able : K -> bool) (flag : Z) (k : K) : Prop :=
  able k = true -> reports flag k.
Definition announced_in (k : K) : Prop := announced readable EPOLLIN k.
Definition announced_out (k : K) : Prop := announced writable EPOLLOUT k.

Definition same_socket (k k' : K) : Prop :=
  source k' = source k /\ sunk k' = sunk k /\ readable k' = readable k /\ writable k' = writable k.

(** What the kernel does by itself between the calls: nothing is lost. *)
Definition env_ok (env : K -> K) : Prop := forall k,
  source (env k) = source k /\ sunk (env k) = sunk k /\
  (announced_in k -> announced_in (env k)) /\ (announced_out k -> announced_out (env k)).

(** The call returns: a [wait] without limit has something to report. *)
Definition call_ok (now : Z) (call : loop_call * (K -> K)) : Prop :=
  env_ok call.2 /\ -1 <= call_time now call.1 /\
  forall k, blocks (call_time now call.1) (ready (call.2 k)) = false.
End kernel.

(** The system calls as documented: [recv] and [send] do what they say; a call that
    would block does so because there is nothing to do, and what comes later is
    reported (the edge of [EPOLLET]); the calls of [pollImpl] leave the socket
    alone.  What the event port has queued fits its loops. *)
Class kernel_laws {K : Type} (recv : Z -> K -> Z * list byte * K) (send : list byte -> K -> Z * K)
    (errno : K -> Z) (epoll_wait : Z -> Z -> K -> outcome (option (list epoll_event) * K))
    (read_signal recv_pipe : K -> option Z * K) (rounds fuel : nat) (owner : Z)
    (source sunk : K -> list byte) (ready : K -> list epoll_event) (signals : K -> list Z)
    (piped : K -> nat) (readable writable : K -> bool) : Prop := {
  kernel_recv : recv_law recv source (fun _ => True);
  kernel_send : send_law send sunk;
  kernel_poll : poll_laws epoll_wait read_signal recv_pipe ready signals piped;
  recv_sends_nothing n k : sunk (recv n k).2 = sunk k;
  send_receives_nothing bytes k : source (send bytes k).2 = source k;
  recv_blocks n k rc bytes k' :
    0 < n -> recv n k = (rc, bytes, k') -> rc < 0 -> announced_in owner ready readable k';
  send_blocks bytes k rc k' : 0 < zlen bytes -> send bytes k = (rc, k') -> rc <= 0 ->
    errno k' = EAGAIN \/ errno k' = EWOULDBLOCK -> announced_out owner ready writable k';
  recv_announces n k :
    announced_out owner ready writable k -> announced_out owner ready writable (recv n k).2;
  send_announces bytes k :
    announced_in owner ready readable k -> announced_in owner ready readable (send bytes k).2;
  epoll_same n time k r k' :
    epoll_wait n time k = Ret (r, k') -> same_socket source sunk readable writable k k';
  signal_same k : same_socket source sunk readable writable k (read_signal k).2;
  pipe_same k : same_socket source sunk readable writable k (recv_pipe k).2;
  kernel_owner : owner <> 0 /\ owner <> 1;
  kernel_ready k : zlen (ready k) < Z.of_nat rounds * MAX_EPOLL_EVENTS /\ zlen (ready k) <= 10922;
  kernel_fuel k : (length (signals k) < fuel)%nat /\ (piped k < fuel)%nat
}.

(** ** What [pollImpl] reports *)
Section told.
Context {K V : Type}.
Context (recv : Z -> K -> Z * list byte * K) (send : list byte -> K -> Z * K) (errno : K -> Z).
Context (epoll_wait : Z -> Z -> K -> outcome (option (list epoll_event) * K)).
Context (read_signal : K -> option Z * K) (recv_pipe : K -> option Z * K).
Context (rounds fuel : nat) (owner : Z).
Context (source sunk : K -> list byte).
Context (ready : K -> list epoll_event) (signals : K -> list Z) (piped : K -> nat).
Context (readable writable : K -> bool).
Context (laws : kernel_laws recv send errno epoll_wait read_signal recv_pipe rounds fuel owner
  source sunk ready signals piped readable writable).
Context (feeds : Z -> list (delivery V)).

(** What the owner is told of the events that are ready. *)
Definition told (evs : list epoll_event) : list (delivery V) :=
  concat (feeds <$> (UnixIo.events <$> filter (fun ev => data ev = owner) evs)).

Lemma delivered_told evs sigs fed :
  (delivered (notify_owner feeds owner) (fun _ fed => fed) evs sigs fed).2 = fed ++ told evs.
Proof using laws.
  destruct kernel_owner as [H0 H1]. unfold told.
  assert (Hid : forall (l : list Z) (u : list (delivery V)), fold_left (fun u _ => u) l u = u)
    by (intros l; induction l as [|x l IH]; intros u; [done|apply IH]).
  revert sigs fed. induction evs as [|ev evs IH]; intros sigs fed; cbn [delivered].
  { by rewrite filter_nil, app_nil_r. }
  rewrite filter_cons. repeat bcase.
  - rewrite Hid, IH, decide_False; [done|]. lia.
  - rewrite IH, decide_False; [done|]. lia.
  - rewrite IH. unfold notify_owner. bcase.
    + case_decide; [|done]. rewrite !fmap_cons. cbn [concat]. by rewrite app_assoc.
    + by case_decide.
Qed.

(** Everything that is ready is reported, and the socket stays as it is. *)
Lemma port_tells k time pipe_open :
  blocks time (ready k) = false ->
  exists k', pollImpl epoll_wait read_signal recv_pipe pipe_open (notify_owner feeds owner)
      (fun _ fed => fed) rounds fuel time k [] = Ret (true, k', told (ready k)) /\
    same_socket source sunk readable writable k k'.
Proof using laws.
  intros Hb. destruct (kernel_ready k) as [Hk1 _]. destruct (kernel_fuel k) as [Hf1 Hf2].
  pose proof (pollImpl_result epoll_wait read_signal recv_pipe pipe_open (notify_owner feeds owner)
    (fun _ fed => fed) ready signals piped kernel_poll rounds fuel time k [] Hk1 Hf1 Hf2) as Hp.
  rewrite Hb in Hp. destruct Hp as (k'&ds&Hp&_&Hd).
  pose proof (delivered_told (ready k) (signals k) []) as Ht. rewrite Hd in Ht. cbn in Ht. subst ds.
  exists k'. split; [done|].
  apply (pollImpl_keeps epoll_wait read_signal recv_pipe pipe_open (notify_owner feeds owner)
    (fun _ fed => fed) (same_socket source sunk readable writable k)) in Hp; [done|..].
  - intros n t x r x' (E1&E2&E3&E4) Hx. apply epoll_same in Hx as (F1&F2&F3&F4).
    unfold same_socket. by rewrite F1, F2, F3, F4.
  - intros x (E1&E2&E3&E4). destruct (signal_same x) as (F1&F2&F3&F4).
    unfold same_socket. by rewrite F1, F2, F3, F4.
  - intros x (E1&E2&E3&E4). destruct (pipe_same x) as (F1&F2&F3&F4).
    unfold same_socket. by rewrite F1, F2, F3, F4.
  - done.
Qed.
End told.

(** ** The stream under its events *)
Section stream.
Context {K : Type}.
Context (recv : Z -> K -> Z * list byte * K) (send : list byte -> K -> Z * K) (errno : K -> Z).
Context (epoll_wait : Z -> Z -> K -> outcome (option (list epoll_event) * K)).
Context (read_signal : K -> option Z * K) (recv_pipe : K -> option Z * K).
Context (rounds fuel : nat) (owner : Z).
Context (source sunk : K -> list byte).
Context (ready : K -> list epoll_event) (signals : K -> list Z) (piped : K -> nat).
Context (readable writable : K -> bool).
Context (laws : kernel_laws recv send errno epoll_wait read_signal recv_pipe rounds fuel owner
  source sunk ready signals piped readable writable).
#[local] Abbreviation sread := (UnixIoStream_read recv).
#[local] Abbreviation swrite := (UnixIoStream_write send errno).
#[local] Abbreviation ann_in := (announced_in owner ready readable).
#[local] Abbreviation ann_out := (announced_out owner ready writable).
#[local] Abbreviation gone := (fun _ e => e = criticalError_code "Disconnected" Disconnected).

Lemma sread_keeps_out n k : ann_out k -> ann_out (sread n k).2.
Proof.
  intros H. pose proof (recv_announces n k H) as H'.
  unfold UnixIoStream_read. destruct (recv n k) as [[rc bytes] k']. by repeat bcase.
Qed.

Lemma swrite_keeps_in bytes k : ann_in k -> ann_in (swrite bytes k).2.
Proof.
  intros H. pose proof (send_announces bytes k H) as H'.
  unfold UnixIoStream_write. destruct (send bytes k) as [rc k']. by repeat bcase.
Qed.

Lemma sread_busy n k e bytes k' :
  0 < n -> sread n k = (IsError e, bytes, k') -> isCritical e = false -> ann_in k'.
Proof.
  intros Hn. unfold UnixIoStream_read. destruct (recv n k) as [[rc bs] k1] eqn:E.
  repeat bcase; [done|by intros [= <- _ _]|]. intros [= _ _ <-] _.
  eapply recv_blocks; [exact Hn|exact E|lia].
Qed.

Lemma swrite_busy bytes k e k' :
  0 < zlen bytes -> swrite bytes k = (IsError e, k') -> isCritical e = false -> ann_out k'.
Proof.
  intros Hn. unfold UnixIoStream_write. destruct (send bytes k) as [rc k1] eqn:E.
  bcase; [done|].
  destruct ((errno k1 =? EAGAIN) || (errno k1 =? EWOULDBLOCK)) eqn:He; [|by intros [= <- _]].
  intros [= _ <-] _.
  eapply send_blocks; [exact Hn|exact E|lia|].
  apply orb_true_iff in He. by rewrite !Z.eqb_eq in He.
Qed.

(** Two tasks, as in [AsyncStream.v]. *)
Section tasks.
Context (b mn mx : Z) (mem0 src0 : list byte) (feeder0 : option (list fed)).
Context (bw : Z) (out memw sunk0 : list byte) (feederw : option (list fed)).
Context (read_ok : 0 <= b /\ 0 < mn <= mx /\ b + mx <= zlen mem0 /\ mx < size_mod).
Context (write_ok : 0 <= bw /\ 0 <= 0 /\ 0 < zlen out < size_mod /\
  bw + zlen out <= zlen memw /\ ztake (zlen out) (zdrop bw memw) = out).
#[local] Abbreviation rinv := (read_inv source gone b mn mx mem0 src0 feeder0).
#[local] Abbreviation winv := (write_inv sunk gone bw 0 out memw sunk0 feederw).

(** A task is pending only while its next event is queued or announced. *)
Definition wakes {T} (task : option T) (queued : option nat) (announced : Prop) : Prop :=
  task <> None -> (exists m, queued = Some (S m)) \/ announced.

Definition stream_inv (past : list (delivery Z)) (s : AsyncIoStream) (k : K) (q : list nat)
  : Prop :=
  rinv (read_stepper s) k /\ winv (write_stepper s) k /\
  wakes (read_task (read_stepper s)) (q !! 0%nat) (ann_in k) /\
  wakes (write_task (write_stepper s)) (q !! 1%nat) (ann_out k).

Lemma read_pending h k h' k' :
  rinv h' k' -> readStep sread h k = Ret (h', k') -> read_task h' <> None -> ann_in k'.
Proof using laws read_ok.
  intros (bytes&_&_&_&Ht) Hs Hn. destruct (read_task h') as [task|] eqn:E; [|done].
  destruct Ht as (->&?&_). destruct (readStep_busy _ _ _ _ _ _ Hs E) as (r1&e&bs&He&Hc).
  cbn [max_length] in He. eapply sread_busy; [|exact He|exact Hc]. lia.
Qed.

Lemma write_pending h k h' k' :
  winv h' k' -> writeStep swrite h k = Ret (h', k') -> write_task h' <> None -> ann_out k'.
Proof using laws write_ok.
  intros (n&Hn&_&Hm&Ht) Hs Hp. destruct (write_task h') as [task|] eqn:E; [|done].
  destruct Ht as (->&Hlt&_).
  destruct (writeStep_busy _ _ _ _ _ _ Hs E) as (bytes&w1&e&Hr&He&Hc&_).
  cbn [write_buffer IoHelpers.length] in Hr. destruct write_ok as (?&?&?&?&?).
  rewrite Hm, mem_read_ok in Hr by lia. injection Hr as <-.
  eapply swrite_busy; [|exact He|exact Hc].
  rewrite zlen_take by (rewrite zlen_drop; lia). lia.
Qed.

Lemma stream_event past s k q ev m :
  stream_inv past s k q -> q !! event_station ev = Some (S m) ->
  exists s' k', AsyncStream.on_event sread swrite ev s k = Ret (s', k') /\
    stream_inv past s' k' (<[event_station ev := m]> q).
Proof using laws read_ok write_ok.
  intros (Hr&Hw&Hri&Hwi) Hq.
  destruct (duplex_event recv send errno source sunk kernel_recv kernel_send
    recv_sends_nothing
    send_receives_nothing
    b mn mx mem0 src0 feeder0 bw out memw sunk0 feederw read_ok write_ok ev s k (conj Hr Hw))
    as (s'&k'&E&Hr'&Hw').
  exists s', k'. split; [done|]. split_and!; [done|done|..]; clear Hr Hw.
  - destruct ev; cbn [AsyncStream.on_event event_station] in *.
    + apply bind_Ret_inv in E as ([h k1]&E&[= <- <-]). intros Hn. right.
      by eapply read_pending.
    + apply bind_Ret_inv in E as ([h k1]&E&[= <- <-]). cbn [read_stepper].
      rewrite list_lookup_insert_ne by done. intros Hn. destruct (Hri Hn) as [?|Ha]; [by left|right].
      refine (writeStep_keeps _ _ _ _ _ _ _ Ha E). intros bytes x. apply swrite_keeps_in.
    + injection E as <- <-. cbn [read_stepper]. by rewrite list_lookup_insert_ne.
  - destruct ev; cbn [AsyncStream.on_event event_station] in *.
    + apply bind_Ret_inv in E as ([h k1]&E&[= <- <-]). cbn [write_stepper].
      rewrite list_lookup_insert_ne by done. intros Hn. destruct (Hwi Hn) as [?|Ha]; [by left|right].
      refine (readStep_keeps _ _ _ _ _ _ _ Ha E). intros n x. apply sread_keeps_out.
    + apply bind_Ret_inv in E as ([h k1]&E&[= <- <-]). intros Hn. right.
      by eapply write_pending.
    + injection E as <- <-. cbn [write_stepper]. by rewrite list_lookup_insert_ne.
Qed.

#[local] Abbreviation told := (told owner (fun mask => notify_stream [mask])).

Lemma told_stream evs :
  told evs = notify_stream (UnixIo.events <$> filter (fun ev => data ev = owner) evs).
Proof.
  unfold UnixLoop.told, notify_stream. generalize (UnixIo.events <$> filter (fun ev => data ev = owner) evs).
  intros l. induction l as [|m l IH]; [done|]. rewrite !fmap_cons. cbn [concat].
  by rewrite IH, !fmap_app, app_nil_r.
Qed.

Lemma told_burst evs : zlen evs <= 10922 -> burst (told evs).
Proof.
  intros Hl. rewrite told_stream. apply notify_stream_burst. unfold zlen in *. rewrite length_fmap.
  pose proof (length_filter (fun ev => data ev = owner) evs). lia.
Qed.

(** An event that is reported is queued. *)
Lemma told_reports evs flag ev :
  Exists (fun e => data e = owner /\ has_flag (UnixIo.events e) flag = true) evs ->
  (forall mask, has_flag mask flag = true -> ev ∈ mask_events mask) ->
  exists m, counts (told evs) !! event_station ev = Some (S m).
Proof.
  intros Hex Hin. assert (Hc : count (event_station ev) (told evs).*1 <> 0%nat).
  { intros H0%nil_length_inv. apply Exists_exists in Hex as (e&He&Hd&Hf).
    apply (filter_nil_not_elem_of _ _ (event_station ev) H0); [done|].
    rewrite told_stream. unfold notify_stream. rewrite <- list_fmap_compose.
    apply list_elem_of_fmap. exists ev. split; [done|].
    apply list_elem_of_In, in_concat. exists (mask_events (UnixIo.events e)).
    rewrite <- !list_elem_of_In. split; [|by apply Hin].
    apply list_elem_of_fmap_2, list_elem_of_fmap_2. by apply list_elem_of_filter. }
  destruct (count (event_station ev) (told evs).*1) as [|m] eqn:E; [done|]. exists m.
  unfold counts. rewrite list_lookup_fmap. destruct ev; cbn in *; by rewrite E.
Qed.

(** [pollImpl] reports everything that is announced. *)
Lemma poll_tells past s k time pipe_open :
  stream_inv past s k [0; 0; 0]%nat -> blocks time (ready k) = false ->
  exists k' ds, pollImpl epoll_wait read_signal recv_pipe pipe_open
      (notify_owner (fun mask => notify_stream [mask]) owner)
      (fun _ fed => fed) rounds fuel time k [] = Ret (true, k', ds) /\
    burst ds /\ stream_inv past s k' (counts ds).
Proof using laws read_ok write_ok.
  intros (Hr&Hw&Hri&Hwi) Hb. destruct (kernel_ready k) as [_ Hk2].
  destruct (port_tells recv send errno epoll_wait read_signal recv_pipe rounds fuel owner
    source sunk ready signals piped readable writable laws (fun mask => notify_stream [mask]) k time
    pipe_open Hb) as (k'&Hp&Hs).
  destruct Hs as (E1&E2&E3&E4). exists k', (told (ready k)).
  split_and!; [done|by apply told_burst|].
  split_and!; [by eapply read_inv_apart|by eapply write_inv_apart|..].
  - intros Hn. destruct (Hri Hn) as [[m ?]|Ha]; [done|].
    destruct (readable k) eqn:Hre; [left|right; unfold announced_in, announced; congruence].
    apply (told_reports _ EPOLLIN ReadReady (Ha Hre)).
    intros mask Hm. unfold mask_events. rewrite Hm. set_solver.
  - intros Hn. destruct (Hwi Hn) as [[m ?]|Ha]; [done|].
    destruct (writable k) eqn:Hre; [left|right; unfold announced_out, announced; congruence].
    apply (told_reports _ EPOLLOUT WriteReady (Ha Hre)).
    intros mask Hm. unfold mask_events. rewrite Hm. set_solver.
Qed.
End tasks.

(** The tasks are begun: what is pending is announced. *)
Lemma stream_begins b mn mx memory bw out memw s k :
  0 <= b /\ 0 < mn <= mx /\ b + mx <= zlen memory /\ mx < size_mod ->
  0 <= bw /\ 0 <= 0 /\ 0 < zlen out < size_mod /\
    bw + zlen out <= zlen memw /\ ztake (zlen out) (zdrop bw memw) = out ->
  read_task (read_stepper s) = None -> write_task (write_stepper s) = None ->
  exists sr kr s1 k1,
    AsyncStream.read sread memory b mn mx s k = Ret (sr, kr) /\
    AsyncStream.write swrite memw bw (zlen out) sr kr = Ret (s1, k1) /\
    stream_inv b mn mx memory (source k) (read_done (read_stepper s)) bw out memw (sunk k)
      (write_done (write_stepper s)) [] s1 k1 [0; 0; 0]%nat.
Proof using laws.
  intros Hr Hw Hrt Hwt.
  destruct (duplex_begins recv send errno source sunk kernel_recv kernel_send
    recv_sends_nothing send_receives_nothing b mn mx memory bw out memw s k Hr Hw Hrt Hwt)
    as (sr&kr&s1&k1&Erd&Ewr&Hri&Hwi).
  exists sr, kr, s1, k1. split_and!; [done|done|]. split_and!; [done|done|..].
  - intros Hn. right. unfold AsyncStream.write in Ewr.
    apply bind_Ret_inv in Ewr as ([hw k2]&Ewr&[= <- <-]). cbn [read_stepper] in *.
    refine (async_write_keeps _ _ _ _ _ _ _ _ _ (fun bytes x => swrite_keeps_in bytes x) _ Ewr).
    unfold AsyncStream.read in Erd. apply bind_Ret_inv in Erd as ([hr k3]&Erd&[= <- <-]).
    cbn [read_stepper] in *. apply read_begun in Erd as (h0&_&_&_&Erd).
    assert (Hri' : read_inv source gone b mn mx memory (source k) (read_done (read_stepper s)) hr k3).
    { eapply read_inv_apart; [|exact Hri]. symmetry.
      refine (async_write_keeps (fun x => source x = source k3) _ _ _ _ _ _ _ _ _ eq_refl Ewr).
      intros bytes x <-. apply swrite_apart, send_receives_nothing. }
    by eapply read_pending.
  - intros Hn. right. unfold AsyncStream.write in Ewr.
    apply bind_Ret_inv in Ewr as ([hw k2]&Ewr&[= <- <-]). cbn [write_stepper] in *.
    apply write_begun in Ewr as (h0&_&_&_&Ewr). by eapply write_pending.
Qed.
End stream.

(** ** On the loop *)
Lemma exec_prog_bind {U W} (p : prog U) (g : U -> prog W) l :
  exec (prog_bind p g) l = '(u, l) ← exec p l; exec (g u) l.
Proof.
  revert l. induction p as [u|h e p IH|e p IH|e p IH]; intros l; cbn [prog_bind exec]; [done|..].
  - destruct (EventLoop.arm h e l); [|done]. apply IH.
  - destruct (disarm e l); [|done]. apply IH.
  - destruct (isArmed e l); [|done]. apply IH.
Qed.

Section asks.
Context {V S K C : Type}.
Context (epoll_wait : Z -> Z -> K -> outcome (option (list epoll_event) * K)).
Context (read_signal : K -> option Z * K) (recv_pipe : K -> option Z * K) (pipe_open : bool).
Context (rounds fuel : nat) (now : Z).
Context (feeds : Z -> list (delivery V)) (owner : Z) (base : nat).
#[local] Abbreviation state := (S * K * C)%type.
Context (on_signal : Z -> outcome (net V state) -> prog (outcome (net V state))).
Context (wake : outcome (net V state) -> prog (outcome (net V state))).
Context (func : positive -> V -> M V state (thrown (ErrorOr V))).
Context (error_func : positive -> Error -> M V state (ErrorOr V)).
Implicit Types (w : world V state) (a : stations V state).
#[local] Abbreviation port :=
  (unix_event_port epoll_wait read_signal recv_pipe pipe_open rounds fuel now feeds owner base
     on_signal wake).

(** A call of the loop: what [pollImpl] reports is fed, then the loop runs. *)
Lemma ask_loop_polls call w s k c k' fed w1 :
  user (conveyors w) = (s, k, c) ->
  pollImpl epoll_wait read_signal recv_pipe pipe_open (notify_owner feeds owner) (fun _ fed => fed)
    rounds fuel (call_time now call) k [] = Ret (true, k', fed) ->
  run (feed_all base fed) (mkWorld (set_user (s, k', c) (conveyors w)) (loop w)) = Ret (tt, w1) ->
  ask_loop func error_func port call w = poll func error_func w1.
Proof.
  intros Hu Hp Hf. destruct w as [n l]. cbn [conveyors loop] in *.
  assert (E : ask_loop func error_func port call (mkWorld n l) =
    '(b, r, l) ← wait (fire_event func error_func)
      (Some (poll_port epoll_wait read_signal recv_pipe pipe_open rounds fuel feeds owner base
               (call_time now call))) (Ret n) l;
    n ← r; Ret (b, mkWorld n l)) by (by destruct call).
  rewrite E. clear E. unfold wait, poll_port. rewrite Hu, Hp, exec_prog_bind.
  apply bind_Ret_inv in Hf as ([r l1]&Hx&Hf). cbn [conveyors loop] in Hx. rewrite Hx, bind_ret.
  cbn beta iota in Hf. apply bind_Ret_inv in Hf as ([u n1]&->&[= _ <-]).
  rewrite bind_ret. cbn [exec]. rewrite bind_ret. unfold poll, wait. rewrite bind_ret.
  cbn [conveyors loop]. reflexivity.
Qed.
End asks.

(** The state of the functions may change while nothing runs. *)
Lemma held_set {V St} css base closing (w : world V St) qs cl st st' :
  held css base closing w (mkStations qs cl st) ->
  held css base closing (mkWorld (set_user st' (conveyors w)) (loop w)) (mkStations qs cl st').
Proof.
  intros (q&?&?&?&Hh&?). exists q. split_and!; try done. by eapply stations_set_user.
Qed.

Lemma held_user {V St} css base closing (w : world V St) a :
  held css base closing w a -> user (conveyors w) = store a.
Proof. intros (q&_&_&_&Hh&_). apply Hh. Qed.

Section client.
Context {K C : Type}.
Context (recv : Z -> K -> Z * list byte * K) (send : list byte -> K -> Z * K) (errno : K -> Z).
Context (epoll_wait : Z -> Z -> K -> outcome (option (list epoll_event) * K)).
Context (read_signal : K -> option Z * K) (recv_pipe : K -> option Z * K) (pipe_open : bool).
Context (rounds fuel : nat) (now owner : Z).
#[local] Abbreviation state := (AsyncIoStream * K * C)%type.
Context (on_signal : Z -> outcome (net Z state) -> prog (outcome (net Z state))).
Context (wake : outcome (net Z state) -> prog (outcome (net Z state))).
Context (source sunk : K -> list byte).
Context (ready : K -> list epoll_event) (signals : K -> list Z) (piped : K -> nat).
Context (readable writable : K -> bool).
Context (laws : kernel_laws recv send errno epoll_wait read_signal recv_pipe rounds fuel owner
  source sunk ready signals piped readable writable).
Context (client_func : positive -> Z -> C -> thrown (ErrorOr Z) * C).
Context (client_error : positive -> Error -> C -> ErrorOr Z * C).
Context (func_mild : forall f v c, is_critical (caught (client_func f v c).1) = false).
Context (error_mild : forall f e c, is_critical (client_error f e c).1 = false).
(** The tasks, and the stream before they were begun. *)
Context (b mn mx : Z) (mem0 src0 : list byte) (feeder0 : option (list fed)).
Context (bw : Z) (out memw sunk0 : list byte) (feederw : option (list fed)).
Context (read_ok : 0 <= b /\ 0 < mn <= mx /\ b + mx <= zlen mem0 /\ mx < size_mod).
Context (write_ok : 0 <= bw /\ 0 <= 0 /\ 0 < zlen out < size_mod /\
  bw + zlen out <= zlen memw /\ ztake (zlen out) (zdrop bw memw) = out).
Context (sb : AsyncIoStream) (c0 : C).
#[local] Abbreviation J := (stream_inv owner source sunk ready readable writable
  b mn mx mem0 src0 feeder0 bw out memw sunk0 feederw).
#[local] Abbreviation on_loop := (on_loop client_func client_error sb c0 J).
#[local] Abbreviation func :=
  (loop_func (UnixIoStream_read recv) (UnixIoStream_write send errno) client_func).
#[local] Abbreviation error_func := (loop_error (K := K) client_error).
#[local] Abbreviation env_ok := (env_ok owner source sunk ready readable writable).
#[local] Abbreviation call_ok := (call_ok owner source sunk ready readable writable now).

(** Nothing arrives but through the port. *)
Lemma unix_laws : station_laws func error_func async_css on_loop work (fun _ => False).
Proof using laws read_ok write_ok func_mild error_mild.
  apply async_laws; [done|done| |done].
  intros past s k q ev m. eapply stream_event; eassumption.
Qed.

Lemma env_stream past s k q env : env_ok env -> J past s k q -> J past s (env k) q.
Proof.
  intros He (Hr&Hw&Hri&Hwi). destruct (He k) as (E1&E2&E3&E4).
  split_and!; [by eapply read_inv_apart|by eapply write_inv_apart|..].
  - intros Hn. destruct (Hri Hn); auto.
  - intros Hn. destruct (Hwi Hn); auto.
Qed.

Section base.
Context (base : nat).
#[local] Abbreviation afunc := (feeding base func).
#[local] Abbreviation aerror := (feeding base error_func).
#[local] Abbreviation port :=
  (unix_event_port epoll_wait read_signal recv_pipe pipe_open rounds fuel now
     (fun mask => notify_stream [mask]) owner base on_signal wake).

Lemma ask_loop_ok call env w a :
  call_ok (call, env) -> in_world async_css base w a -> on_loop [] a -> idle a ->
  exists w' a', ask_loop afunc aerror port call (set_kernel env w) = Ret (true, w') /\
    in_world async_css base w' a' /\ on_loop [] a' /\ idle a'.
Proof using laws read_ok write_ok func_mild error_mild.
  intros (He&_&Hb) Hw Hon Hidle. cbn [fst snd] in *. destruct a as [qs cl [[s k] c]].
  pose proof Hon as [[= ->] _].
  pose proof (env_stream _ _ _ _ _ He (on_loop_idle_waiting _ _ _ _ _ _ _ _ _ _ Hon Hidle)) as HJ.
  assert (Hb' := Hb k).
  destruct (poll_tells recv send errno epoll_wait read_signal recv_pipe rounds fuel owner source sunk
    ready signals piped readable writable laws b mn mx mem0 src0 feeder0 bw out memw sunk0 feederw
    read_ok write_ok _ _ _ (call_time now call) pipe_open HJ Hb') as (k'&ds&Hp&Hburst&HJ').
  destruct (arrive_burst client_func client_error sb c0 J [] [] ds qs s k k' c Hburst Hon Hidle HJ')
    as [Hon' Hwork].
  pose proof (held_set _ _ _ _ _ _ _ (s, k', c) Hw) as Hw'.
  destruct (world_feed _ _ _ _ _ ds Hw' (burst_range ds Hburst)) as (w1&Hf&Hw1).
  destruct (world_poll _ _ _ _ _ _ _ unix_laws [] w1 _ Hw1 Hon' Hwork)
    as (w2&a2&Hpoll&Hw2&Hon2&_&Hidle2).
  exists w2, a2. split_and!; try done. rewrite <- Hpoll.
  pose proof (held_user _ _ _ _ _ Hw) as Hu.
  eapply ask_loop_polls; [|exact Hp|].
  - unfold set_kernel. cbn [conveyors set_user user]. by rewrite Hu.
  - unfold set_kernel. cbn [conveyors loop]. exact Hf.
Qed.

Lemma ask_loops_ok calls w a :
  Forall call_ok calls -> in_world async_css base w a -> on_loop [] a -> idle a ->
  exists w' a', ask_loops afunc aerror port calls w = Ret w' /\
    in_world async_css base w' a' /\ on_loop [] a' /\ idle a'.
Proof using laws read_ok write_ok func_mild error_mild.
  intros Hc. revert w a. induction Hc as [|[call env] calls Hcall _ IH]; intros w a Hw Hon Hidle.
  { by exists w, a. }
  destruct (ask_loop_ok call env w a Hcall Hw Hon Hidle) as (w1&a1&E&Hw1&Hon1&Hidle1).
  destruct (IH w1 a1 Hw1 Hon1 Hidle1) as (w2&a2&E2&?). exists w2, a2. split; [|done].
  cbn [ask_loops]. by rewrite E, bind_ret.
Qed.
End base.
End client.

(** ** Property *)

(** C4: No wake-up is lost between the kernel and the client.  A client sets up an
    [AsyncIoStream] over a socket, begins a read of [mn] to [mx] bytes and a write of
    [out], and calls [poll], [wait] or a timed wait of the event loop any number of
    times, while data arrives and room is made in the kernel, which reports it
    edge-triggered.  A call has something to report where it waits without limit, and
    never exactly a multiple of 256 events; the client's functions do not fail
    critically.  Then every call returns and leaves no event armed; the memory holds
    exactly the bytes that were received and the socket has sent a beginning of
    [out]; each task was answered once, through the client's own function, or is
    pending - and then whatever the socket could already do for it is about to be
    reported by [epoll], so that the next call goes on with it. *)
Theorem unix_stream_on_loop {K C} (recv : Z -> K -> Z * list byte * K)
    (send : list byte -> K -> Z * K) (errno : K -> Z)
    (epoll_wait : Z -> Z -> K -> outcome (option (list epoll_event) * K))
    (read_signal recv_pipe : K -> option Z * K) (pipe_open : bool) (rounds fuel : nat)
    (now owner : Z) on_signal wake (source sunk : K -> list byte) (ready : K -> list epoll_event)
    (signals : K -> list Z) (piped : K -> nat) (readable writable : K -> bool)
    (client_func : positive -> Z -> C -> thrown (ErrorOr Z) * C)
    (client_error : positive -> Error -> C -> ErrorOr Z * C)
    (memory out memw : list byte) (b mn mx bw : Z) (calls : list (loop_call * (K -> K)))
    (k : K) (c : C) (w : world Z (AsyncIoStream * K * C)) :
  kernel_laws recv send errno epoll_wait read_signal recv_pipe rounds fuel owner
    source sunk ready signals piped readable writable ->
  0 <= b /\ 0 < mn <= mx /\ b + mx <= zlen memory /\ mx < size_mod ->
  0 <= bw /\ 0 <= 0 /\ 0 < zlen out < size_mod /\
    bw + zlen out <= zlen memw /\ ztake (zlen out) (zdrop bw memw) = out ->
  (forall f v c, is_critical (caught (client_func f v c).1) = false) ->
  (forall f e c, is_critical (client_error f e c).1 = false) ->
  Forall (call_ok owner source sunk ready readable writable now) calls ->
  repr (loop w) empty_queue -> entered (loop w) ->
  user (conveyors w) = (AsyncStream.onReadDisconnected
    (AsyncStream.writeDone (AsyncStream.readDone AsyncStream.new)), k, c) ->
  exists w2 s' k' log bytes n,
    unix_client recv send errno epoll_wait read_signal recv_pipe pipe_open rounds fuel now owner
      on_signal wake client_func client_error memory b mn mx memw bw (zlen out) calls w = Ret w2 /\
    repr (loop w2) empty_queue /\
    user (conveyors w2) = (s', k', foldl (client_step client_func client_error) c log) /\
    source k = bytes ++ source k' /\ zlen bytes <= mx /\
    read_memory (read_stepper s') = list_inserts (Z.to_nat b) bytes memory /\
    match read_task (read_stepper s') with
    | Some _ => zlen bytes < mn /\ for_station 3 log = [] /\
        (readable k' = true -> reports owner ready EPOLLIN k')
    | None =>
        (mn <= zlen bytes /\ for_station 3 log = [IsValue (zlen bytes)]) \/
        for_station 3 log = [IsError (criticalError_code "Disconnected" Disconnected)]
    end /\
    sunk k' = sunk k ++ ztake n out /\ 0 <= n <= zlen out /\
    match write_task (write_stepper s') with
    | Some _ => n < zlen out /\ for_station 4 log = [] /\
        (writable k' = true -> reports owner ready EPOLLOUT k')
    | None =>
        (n = zlen out /\ for_station 4 log = [IsValue (zlen out)]) \/
        for_station 4 log = [IsError (criticalError_code "Disconnected" Disconnected)]
    end.
Proof.
  intros Hlaws Hro Hwo Hfm Hem Hcalls Hr He Hu. set (s0 := AsyncStream.onReadDisconnected _) in Hu.
  destruct (stream_begins _ _ _ _ _ _ _ _ _ _ _ _ _ _ _ _ Hlaws b mn mx memory bw out memw s0 k
    Hro Hwo eq_refl eq_refl) as (sr&kr&s1&k1&Hrd&Hwr&HJ).
  destruct (async_starts _ _ client_func client_error _ _ memory b mn mx memw bw (zlen out)
    s0 k c sr kr s1 k1 w (unix_laws _ _ _ _ _ _ _ _ _ _ _ _ _ _ _ _ Hlaws _ _ Hfm Hem
      b mn mx memory (source k) (Some []) bw out memw (sunk k) (Some []) Hro Hwo s0 c)
    Hr He Hu Hrd Hwr HJ) as (w3&a3&Hstart&Hw3&Hon3&Hidle3).
  destruct (ask_loops_ok recv send errno epoll_wait read_signal recv_pipe pipe_open rounds fuel now
    owner on_signal wake source sunk ready signals piped readable writable Hlaws _ _ Hfm Hem
    _ _ _ _ _ _ _ _ _ _ _ Hro Hwo _ _ _ calls w3 a3 Hcalls Hw3 Hon3 Hidle3)
    as (w4&a4&Hasks&Hw4&Hon4&Hidle4).
  destruct (world_idle _ _ _ _ Hw4 Hidle4) as (Hu4&Hr4&_).
  destruct (on_loop_idle _ _ _ _ _ _ _ Hon4 Hidle4) as (log&s'&k'&Hst&HJ'&Hlog).
  destruct HJ' as ((bytes&Hsrc&Hl&Hmm&Ht)&(n&Hn&Hsk&_&Htw)&Hri&Hwi).
  rewrite Z.sub_0_r, zdrop_0 in Hsk by lia.
  exists w4, s', k', log, bytes, n. unfold unix_client. rewrite Hstart, bind_ret, !Hlog by lia.
  split_and!; try done; try lia; [by rewrite Hu4| |]; cbn [news_for s0].
  - destruct (read_task (read_stepper s')).
    + destruct Ht as (_&?&Ht). split_and!; [done|by rewrite Ht|]. by destruct (Hri ltac:(done)) as [[? ?]|?].
    + destruct Ht as [[? Ht]|(e&_&->&Ht)]; [left; split; [done|]|right];
        exact (answers_of_notify _ _ Ht).
  - destruct (write_task (write_stepper s')).
    + destruct Htw as (_&?&Ht'). split_and!; [done|by rewrite Ht'|]. by destruct (Hwi ltac:(done)) as [[? ?]|?].
    + destruct Htw as [[-> Ht']|(e&_&->&Ht')]; [left; split; [done|]|right];
        exact (answers_of_notify _ _ Ht').
Qed.

(** ** A kernel with one socket *)

(** The bytes that are still to come and how many of them have arrived, what was
    sent and how much more the socket takes, and which readiness [epoll] has to
    report. *)
Record one_socket := mkOneSocket {
  coming : list byte;
  arrived : Z;
  sent : list byte;
  room : Z;
  edge_in : bool;
  edge_out : bool
}.

Definition sock_readable (k : one_socket) : bool := 0 <? Z.min (arrived k) (zlen (coming k)).
Definition sock_writable (k : one_socket) : bool := 0 <? room k.

Definition sock_recv (n : Z) (k : one_socket) : Z * list byte * one_socket :=
  if sock_readable k then
    let m := Z.min n (Z.min (arrived k) (zlen (coming k))) in
    (m, ztake m (coming k),
     mkOneSocket (zdrop m (coming k)) (arrived k - m) (sent k) (room k) (edge_in k) (edge_out k))
  else (-1, [], k).
Definition sock_send (bytes : list byte) (k : one_socket) : Z * one_socket :=
  if sock_writable k then
    let m := Z.min (room k) (zlen bytes) in
    (m, mkOneSocket (coming k) (arrived k) (sent k ++ ztake m bytes) (room k - m)
          (edge_in k) (edge_out k))
  else (-1, k).
Definition sock_ready (k : one_socket) : list epoll_event :=
  if edge_in k || edge_out k then
    [mkEpollEvent (Z.lor (if edge_in k then EPOLLIN else 0) (if edge_out k then EPOLLOUT else 0)) 2]
  else [].
Definition sock_epoll (n time : Z) (k : one_socket)
  : outcome (option (list epoll_event) * one_socket) :=
  if decide (time = -1 /\ sock_ready k = []) then Halt Diverges
  else Ret (Some (ztake n (sock_ready k)),
            mkOneSocket (coming k) (arrived k) (sent k) (room k) false false).

(** Data arrives, and room is made. *)
Definition sock_arrive (n : Z) (k : one_socket) : one_socket :=
  mkOneSocket (coming k) (arrived k + n) (sent k) (room k) true (edge_out k).
Definition sock_drain (n : Z) (k : one_socket) : one_socket :=
  mkOneSocket (coming k) (arrived k) (sent k) (room k + n) (edge_in k) true.

Lemma sock_reports_in k : reports 2 sock_ready EPOLLIN k <-> edge_in k = true.
Proof.
  unfold reports, sock_ready. destruct (edge_in k), (edge_out k); cbn [orb];
    rewrite ?Exists_cons, ?Exists_nil; vm_compute; naive_solver.
Qed.

Lemma sock_reports_out k : reports 2 sock_ready EPOLLOUT k <-> edge_out k = true.
Proof.
  unfold reports, sock_ready. destruct (edge_in k), (edge_out k); cbn [orb];
    rewrite ?Exists_cons, ?Exists_nil; vm_compute; naive_solver.
Qed.

Lemma sock_ready_bound k : zlen (sock_ready k) <= 1.
Proof. unfold sock_ready. by destruct (_ || _). Qed.

Lemma sock_laws :
  kernel_laws sock_recv sock_send (fun _ => EAGAIN) sock_epoll (fun k => (None, k))
    (fun k => (None, k)) 1 1 2 coming sent sock_ready (fun _ => []) (fun _ => 0%nat)
    sock_readable sock_writable.
Proof.
  split; unfold announced_in, announced_out, announced.
  - intros n k Hn. unfold sock_recv. destruct (sock_readable k) eqn:Hr; [|split_and!; (done || lia)].
    unfold sock_readable in Hr. apply Z.ltb_lt in Hr. cbn [coming].
    split_and!; [lia| |lia|done]. intros _. rewrite ztake_drop. split; [|done].
    apply zlen_take. lia.
  - intros bytes k Hb. unfold sock_send. destruct (sock_writable k) eqn:Hw; [|split_and!; (done || lia)].
    unfold sock_writable in Hw. apply Z.ltb_lt in Hw. cbn [sent]. split_and!; [lia|done|lia].
  - split.
    + intros n time k Hn. unfold sock_epoll. case_decide; [done|]. eexists. split; [done|].
      pose proof (sock_ready_bound k). by rewrite zdrop_all by lia.
    + intros k. by exists k.
    + intros k. by exists k, None.
  - intros n k. unfold sock_recv. by destruct (sock_readable k).
  - intros bytes k. unfold sock_send. by destruct (sock_writable k).
  - intros n k rc bytes k' Hn. unfold sock_recv. destruct (sock_readable k) eqn:Hr.
    + unfold sock_readable in Hr. apply Z.ltb_lt in Hr. intros [= <- _ _]. lia.
    + intros [= _ _ <-] _. by rewrite Hr.
  - intros bytes k rc k' Hn. unfold sock_send. destruct (sock_writable k) eqn:Hr.
    + unfold sock_writable in Hr. apply Z.ltb_lt in Hr. intros [= <- _]. lia.
    + intros [= _ <-] _ _. by rewrite Hr.
  - intros n k. unfold sock_recv. rewrite !sock_reports_out. by destruct (sock_readable k).
  - intros bytes k. unfold sock_send. rewrite !sock_reports_in. by destruct (sock_writable k).
  - intros n time k r k'. unfold sock_epoll. case_decide; [done|]. by intros [= _ <-].
  - done.
  - done.
  - done.
  - intros k. pose proof (sock_ready_bound k). unfold MAX_EPOLL_EVENTS. lia.
  - intros k. cbn. lia.
Qed.

Lemma sock_arrive_ok n : env_ok 2 coming sent sock_ready sock_readable sock_writable (sock_arrive n).
Proof.
  intros k. unfold announced_in, announced_out, announced.
  rewrite !sock_reports_in, !sock_reports_out. by split_and!.
Qed.

Lemma sock_drain_ok n : env_ok 2 coming sent sock_ready sock_readable sock_writable (sock_drain n).
Proof.
  intros k. unfold announced_in, announced_out, announced.
  rewrite !sock_reports_in, !sock_reports_out. by split_and!.
Qed.

(** Five bytes arrive in two parts and room is made twice, each time during another
    call of the loop. *)
Lemma unix_stream_on_loop_witness :
  let k := mkOneSocket [x61; x62; x63; x64; x65] 0 [] 0 false false in
  let calls := [(Wait, sock_arrive 2); (Poll, sock_drain 2); (WaitFor 5000000, sock_arrive 2);
                (WaitUntil 9000000, sock_drain 2)] in
  let s0 := AsyncStream.onReadDisconnected
    (AsyncStream.writeDone (AsyncStream.readDone AsyncStream.new)) in
  exists w2 s' k' log bytes n,
    unix_client sock_recv sock_send (fun _ => EAGAIN) sock_epoll (fun k => (None, k))
      (fun k => (None, k)) true 1 1 0 2 (fun _ u => Done u) (fun u => Done u) log_func log_error
      (replicate 6 x00) 1 3 4 [x31; x32; x33] 0 3 calls (new_world (s0, k, [])) = Ret w2 /\
    repr (loop w2) empty_queue /\
    user (conveyors w2) = (s', k', foldl (client_step log_func log_error) [] log) /\
    [x61; x62; x63; x64; x65] = bytes ++ coming k' /\ zlen bytes <= 4 /\
    read_memory (read_stepper s') = list_inserts 1 bytes (replicate 6 x00) /\
    match read_task (read_stepper s') with
    | Some _ => zlen bytes < 3 /\ for_station 3 log = [] /\
        (sock_readable k' = true -> reports 2 sock_ready EPOLLIN k')
    | None =>
        (3 <= zlen bytes /\ for_station 3 log = [IsValue (zlen bytes)]) \/
        for_station 3 log = [IsError (criticalError_code "Disconnected" Disconnected)]
    end /\
    sent k' = [] ++ ztake n [x31; x32; x33] /\ 0 <= n <= 3 /\
    match write_task (write_stepper s') with
    | Some _ => n < 3 /\ for_station 4 log = [] /\
        (sock_writable k' = true -> reports 2 sock_ready EPOLLOUT k')
    | None =>
        (n = 3 /\ for_station 4 log = [IsValue 3]) \/
        for_station 4 log = [IsError (criticalError_code "Disconnected" Disconnected)]
    end.
Proof.
  intros k calls s0.
  apply (unix_stream_on_loop sock_recv sock_send (fun _ => EAGAIN) sock_epoll (fun k => (None, k))
    (fun k => (None, k)) true 1 1 0 2 (fun _ u => Done u) (fun u => Done u) coming sent sock_ready
    (fun _ => []) (fun _ => 0%nat) sock_readable sock_writable log_func log_error
    (replicate 6 x00) [x31; x32; x33] [x31; x32; x33] 1 3 4 0 calls k [] (new_world (s0, k, []))).
  - apply sock_laws.
  - vm_compute. by split_and!.
  - vm_compute. by split_and!.
  - done.
  - done.
  - repeat apply Forall_cons_2; [..|by apply Forall_nil_2];
      (split; [apply sock_arrive_ok || apply sock_drain_ok|]; split; [done|]; by intros [? ? ? ? [] []]).
  - split; [|done]. split_and!; try done. constructor.
  - done.
  - done.
Defined.
