(* ===== verification/PeerStations.v ===== *)
(** A [StreamingIoPeer] as stations: the events of its stream, the functions behind
    [readDone] and [writeDone] with their sinks, and the conveyor on which a client
    waits for messages, and may send others. *)

From S2P Require Import Prelude Error Buffer RingBuffer ProtoKel ProtoKelDecode ProtoKelCodec IoHelpers Message MessageAccess.
From stdpp Require Import gmap list relations.
From S2P Require Import EventLoop EventQueue Conveyor ConveyorRules ConveyorPipeline Stations.
From S2P Require Import UnixIo AsyncStream AsyncLoop IoPeer IoPeerTheory IoPeerLink.
#[local] Open Scope Z_scope.
#[local] Abbreviation length := List.length.

(** The elements of its conveyors: a number of bytes, or a message.  An element of a
    [Conveyor<void>] is [void]. *)
Inductive element :=
| Size (n : Z)
| Msg (m : message).
Definition void : ErrorOr element := IsValue (Size 0).

(** What a function of the client does: it sends messages, looks at what [send]
    answers, and goes on with a state of its own. *)
Inductive client_prog (C : Type) :=
| Finish (c : C)
| SendThen (m : message) (k : Error -> client_prog C).
Arguments Finish {C} c.
Arguments SendThen {C} m k.

(** *** The functions *)

(** What its feeders were given, for the stations of [readDone], [writeDone] and of
    the client. *)
Definition of_fed (x : fed) : ErrorOr element :=
  match x with Fed n => IsValue (Size n) | Failed e => IsError e end.
Definition outbox (p : StreamingIoPeer) : list (delivery element) :=
  ((fun x => (3%nat, of_fed x)) <$> default [] (read_done (reader (receiver p)))) ++
  ((fun x => (4%nat, of_fed x)) <$> default [] (write_done (writer (sender p)))) ++
  ((fun m => (5%nat, IsValue (Msg m))) <$> incoming_feeder (receiver p)).

(** It is with the conveyors then. *)
Definition drained (p : StreamingIoPeer) : StreamingIoPeer :=
  let h := reader (receiver p) in
  let g := writer (sender p) in
  mkPeer
    (mkReceiver [] (in_buffer (receiver p)) (mkReadHelper (read_task h) (Some []) (read_memory h))
       (sink_read (receiver p)))
    (mkSender (out_buffer (sender p)) (mkWriteHelper (write_task g) (Some []) (write_memory g))
       (sink_write (sender p))).

Section functions.
Context {K C : Type}.
Context (stream_read : Z -> K -> ErrorOr Z * list byte * K).
Context (stream_write : list byte -> K -> ErrorOr Z * K).
Context (capacity : Z) (Incoming Outgoing : schema) (limits : Limits).
(** The client's function on a message, and what it does at first. *)
Context (client : message -> C -> client_prog C).
#[local] Abbreviation state := (StreamingIoPeer * K * C)%type.

Fixpoint run_client (p : client_prog C) (w : Sender) (k : K) : outcome (C * Sender * K) :=
  match p with
  | Finish c => Ret (c, w, k)
  | SendThen m next =>
      '(e, w, k) ← send stream_write Outgoing m w k;
      run_client (next e) w k
  end.

Definition give {A} (answer : A) (p : StreamingIoPeer) (k : K) (c : C)
  : outcome (A * list (delivery element) * state) := Ret (answer, outbox p, (drained p, k, c)).

(** The functions of the stream's constructor (1 to 3; nobody has asked for
    [onReadDisconnected]), of the peer's (4 and 5) and of the client (6). *)
Definition peer_func (f : positive) (v : element) (st : state)
  : outcome (thrown (ErrorOr element) * list (delivery element) * state) :=
  let '(p, k, c) := st in
  match f, v with
  | 1%positive, _ =>
      '(r, k) ← on_read_ready stream_read (receiver p) k;
      give (Returned void) (mkPeer r (sender p)) k c
  | 2%positive, _ =>
      '(w, k) ← on_write_ready stream_write (sender p) k;
      give (Returned void) (mkPeer (receiver p) w) k c
  | 3%positive, _ => give (Returned void) p k c
  | 4%positive, Size bytes =>
      '(error, r, k) ← read_handler stream_read capacity Incoming limits bytes (receiver p) k;
      give (Returned (match error with Some e => IsError e | None => void end))
        (mkPeer r (sender p)) k c
  | 5%positive, Size bytes =>
      '(w, k) ← write_handler stream_write bytes (sender p) k;
      give (Returned void) (mkPeer (receiver p) w) k c
  | 6%positive, Msg m =>
      '(c, w, k) ← run_client (client m c) (sender p) k;
      give (Returned void) (mkPeer (receiver p) w) k c
  | _, _ => Halt UndefinedBehaviour   (* excluded by the C++ types *)
  end.

(** [PropagateError] everywhere. *)
Definition peer_error (f : positive) (e : Error) (st : state)
  : outcome (ErrorOr element * list (delivery element) * state) := Ret (IsError e, [], st).

Definition peer_css : list (list (positive * positive)) :=
  [[(1, 1)]; [(2, 2)]; [(3, 3)]; [(4, 4)]; [(5, 5)]; [(6, 6)]]%positive.

(** The constructor, after which the client may send. *)
Definition begin_peer (inb outb : RingBuffer) (start : C -> client_prog C) (f : positive) (u : unit)
    (st : state) : outcome (unit * list (delivery element) * state) :=
  let '(_, k, c) := st in
  '(p, k) ← new_peer stream_read inb outb k;
  '(c, w, k) ← run_client (start c) (sender p) k;
  give tt (mkPeer (receiver p) w) k c.

(** [UnixIoStream::notify] *)
Definition peer_feeds (mask : Z) : list (delivery element) :=
  (fun ev => (event_station ev, void)) <$> mask_events mask.
End functions.

(** *** What the client has heard and said *)
Section conversation.
Context {C : Type} (client : message -> C -> client_prog C).

(** The messages that [send] has accepted from a function. *)
Inductive says : client_prog C -> list message -> C -> Prop :=
| says_finish c : says (Finish c) [] c
| says_accepted m next e sent c :
    failed e = false -> says (next e) sent c -> says (SendThen m next) (m :: sent) c
| says_refused m next e sent c :
    failed e = true -> says (next e) sent c -> says (SendThen m next) sent c.

(** The messages [heard] were given to it, in this order, and it has sent [sent]. *)
Inductive converses : C -> list message -> list message -> C -> Prop :=
| converses_nil c : converses c [] [] c
| converses_snoc c heard sent c1 m said c2 :
    converses c heard sent c1 -> says (client m c1) said c2 ->
    converses c (heard ++ [m]) (sent ++ said) c2.
End conversation.

(** ** Handlers on a peer whose feeders are with the conveyors *)

(** What one step of a task does. *)
Section steps.
Context {K : Type}.
Context (stream_read : Z -> K -> ErrorOr Z * list byte * K).
Context (stream_write : list byte -> K -> ErrorOr Z * K).
(** What can be read or written is going to be reported; the connection is gone. *)
Context (announced_in announced_out gone : K -> Prop).
Context (source sunk : K -> list byte).
Context (reads : reads_law stream_read source) (writes : writes_law stream_write sunk).

(** A call that would block does so because there is nothing to do, one that fails
    otherwise has found the connection gone, for ever; a call leaves the other
    direction alone. *)
Class wake_laws : Prop := {
  read_busy n k e bytes k' :
    0 < n -> stream_read n k = (IsError e, bytes, k') -> isCritical e = false -> announced_in k';
  write_busy bytes k e k' :
    0 < zlen bytes -> stream_write bytes k = (IsError e, k') -> isCritical e = false ->
    announced_out k';
  read_gone n k e bytes k' :
    0 < n -> stream_read n k = (IsError e, bytes, k') -> isCritical e = true -> gone k';
  write_gone bytes k e k' :
    0 < zlen bytes -> stream_write bytes k = (IsError e, k') -> isCritical e = true -> gone k';
  read_leaves n k : announced_out k -> announced_out (stream_read n k).2;
  write_leaves bytes k : announced_in k -> announced_in (stream_write bytes k).2;
  read_no_return n k : gone k -> gone (stream_read n k).2;
  write_no_return bytes k : gone k -> gone (stream_write bytes k).2
}.
Context `{laws : wake_laws}.

(** What is fed is an error only when the connection is gone. *)
Definition ends (k : K) (fs : list fed) : Prop :=
  Forall (fun x => match x with Fed _ => True | Failed e => isCritical e = true /\ gone k end) fs.

Lemma ends_mono k k' fs : (gone k -> gone k') -> ends k fs -> ends k' fs.
Proof. intros Hg H. eapply Forall_impl; [exact H|]. intros [n|e]; naive_solver. Qed.

(** Answers cost bytes: there were [before] to be moved and are [after], and every
    one that is not an error took one of them. *)
Definition is_fed (x : fed) : bool := match x with Fed _ => true | Failed _ => false end.
Definition costs (before after : nat) (new : list fed) : Prop :=
  (after <= before)%nat /\ (forallb is_fed new = true -> after + length new <= before)%nat.

Lemma costs_nothing n : costs n n [].
Proof. split; cbn; lia. Qed.

(** A step of a task that had not been answered: it goes on, or is answered. *)
Definition steps_to {T} (announced : Prop) (task : option T) (k' : K) (new : list fed) : Prop :=
  (length new <= 1)%nat /\ ends k' new /\ (task = None -> new <> []) /\ (task <> None -> announced).

Lemma read_step h k h' k' task :
  readStep stream_read h k = Ret (h', k') -> read_done h = Some [] ->
  read_task h = Some task -> min_length task = 1 -> 0 < max_length task ->
  exists new, read_done h' = Some new /\ steps_to (announced_in k') (read_task h') k' new /\
    (announced_out k -> announced_out k') /\ (gone k -> gone k') /\
    costs (length (source k)) (length (source k')) new.
Proof using laws reads.
  unfold steps_to, costs. intros Hs Hd Ht Hmin Hmax.
  assert (Hkeep : (announced_out k -> announced_out k') /\ (gone k -> gone k')).
  { split; intros Hk; refine (readStep_keeps _ _ _ _ _ _ _ Hk Hs); intros n x;
      [apply read_leaves|apply read_no_return]. }
  destruct Hkeep as [Hkeep1 Hkeep2].
  pose proof (readStep_one _ _ _ _ _ _ Hs Ht Hmin) as H. pose proof (reads (max_length task) k Hmax) as Hr.
  destruct (stream_read (max_length task) k) as [[[e|n] bytes] k1] eqn:E.
  - destruct Hr as [_ Hr].
    destruct H as [-> H]. destruct (isCritical e) eqn:He; destruct H as [-> ->]; rewrite Hd, Hr.
    + exists [Failed e]. split_and!; try done.
      apply Forall_singleton. split; [done|]. exact (read_gone _ _ _ _ _ Hmax E He).
    + exists []. split_and!; try done; [cbn; lia|by apply Forall_nil_2| |cbn; lia].
      intros _. exact (read_busy _ _ _ _ _ Hmax E He).
  - destruct Hr as (Hr&Hl&Hsrc). destruct (H Hr) as (->&->&n'&->). rewrite Hd. exists [Fed n'].
    assert (length (source k) = length bytes + length (source k1))%nat by (by rewrite Hsrc, length_app).
    unfold zlen in Hl. split_and!; try done; [by apply Forall_singleton|lia|cbn; lia].
Qed.

Lemma write_step h k h' k' task :
  writeStep stream_write h k = Ret (h', k') -> write_done h = Some [] ->
  write_task h = Some task -> 0 <= write_buffer task -> 0 < IoHelpers.length task < size_mod ->
  (forall task, write_task h' = Some task -> 0 <= write_buffer task /\ 0 < IoHelpers.length task) ->
  exists new, write_done h' = Some new /\ steps_to (announced_out k') (write_task h') k' new /\
    (announced_in k -> announced_in k') /\ (gone k -> gone k') /\
    costs (length (sunk k')) (length (sunk k)) new.
Proof using laws writes.
  unfold steps_to, costs. intros Hs Hd Ht Hb Hl Hleft.
  assert (Hkeep : (announced_in k -> announced_in k') /\ (gone k -> gone k')).
  { split; intros Hk; refine (writeStep_keeps _ _ _ _ _ _ _ Hk Hs); intros bytes x;
      [apply write_leaves|apply write_no_return]. }
  destruct Hkeep as [Hkeep1 Hkeep2].
  destruct (writeStep_ends stream_write (fun x => (length (sunk k) <= length (sunk x))%nat) h k h' k')
    as [Hmono Hends]; [| |done| |done|].
  { intros bytes w n w1 Hz E. pose proof (writes bytes w Hz) as Hn. rewrite E in Hn. apply Hn. }
  { intros bytes w Hz Hw. pose proof (writes bytes w Hz) as Hn.
    destruct (stream_write bytes w) as [[e|n] w1]; [by rewrite <- Hn in Hw|].
    destruct Hn as [_ Hn]. cbn. rewrite Hn, length_app. lia. }
  { intros t Et. rewrite Ht in Et. by injection Et as <-. }
  destruct (write_task h') as [task'|] eqn:Et'.
  - destruct (writeStep_busy _ _ _ _ _ _ Hs Et') as (bytes&k1&e&Hr&E&He&Hsame).
    exists []. rewrite Hsame. split_and!; try done; [cbn; lia|by apply Forall_nil_2| |cbn; lia].
    intros _. destruct (Hleft task' eq_refl) as [Hp' Hl'].
    eapply write_busy; [|exact E|exact He]. by rewrite (mem_read_length _ _ _ _ Hp' (Z.lt_le_incl _ _ Hl') Hr).
  - destruct Hends as (x&bytes&k1&Hx&Hk1&Hz&Hres); [by rewrite Ht|done|].
    rewrite Hd in Hx. pose proof (writes bytes k1 Hz) as Hn. exists [x].
    destruct x as [n|e].
    + destruct Hres as [m E]. rewrite E in Hn. destruct Hn as [Hm Hn].
      assert (length (sunk k') = length (sunk k1) + Z.to_nat m)%nat.
      { rewrite Hn, length_app. f_equal. pose proof (zlen_take m bytes ltac:(lia)) as Hzl.
        unfold zlen in Hzl. lia. }
      split_and!; try done; [by apply Forall_singleton|cbn; lia].
    + destruct Hres as (He&E). split_and!; try done. apply Forall_singleton.
      split; [done|]. exact (write_gone _ _ _ _ Hz E He).
Qed.

Lemma on_reader_inv f (r : Receiver) (k : K) r' k' :
  on_reader f r k = Ret (r', k') ->
  incoming_feeder r' = incoming_feeder r /\ sink_read r' = sink_read r /\
  f (mkReadHelper (read_task (reader r)) (read_done (reader r)) (buffer (in_buffer r))) k =
    Ret (reader r', k').
Proof. unfold on_reader. intros ([h k1]&E&[= <- <-])%bind_Ret_inv. done. Qed.

Lemma on_writer_inv f (w : Sender) (k : K) w' k' :
  on_writer f w k = Ret (w', k') ->
  out_buffer w' = out_buffer w /\ sink_write w' = sink_write w /\
  f (mkWriteHelper (write_task (writer w)) (write_done (writer w)) (buffer (out_buffer w))) k =
    Ret (writer w', k').
Proof. unfold on_writer. intros ([h k1]&E&[= <- <-])%bind_Ret_inv. done. Qed.

Lemma read_more_inv (r : Receiver) (k : K) r' k' :
  read_more stream_read r k = Ret (r', k') ->
  incoming_feeder r' = incoming_feeder r /\ sink_read r' = sink_read r /\
  exists h task, read_done h = read_done (reader r) /\ read_task h = Some task /\
    min_length task = 1 /\ 0 < max_length task /\ readStep stream_read h k = Ret (reader r', k').
Proof.
  unfold read_more. intros (p&_&E)%bind_Ret_inv. apply bind_Ret_inv in E as (n&_&E).
  apply on_reader_inv in E as (?&?&E). split; [done|]. split; [done|].
  apply read_begun in E as (h&Hd&Ht&Hn&E). exists h, (mkReadTask p 1 n 0).
  split_and!; try done. cbn. lia.
Qed.

Lemma write_more_inv (w : Sender) (k : K) w' k' :
  write_more stream_write w k = Ret (w', k') ->
  out_buffer w' = out_buffer w /\ sink_write w' = sink_write w /\
  exists h p n, Ring.read_ref 0 (out_buffer w) = Ret p /\
    Ring.readSegmentLength 0 (out_buffer w) = Ret n /\ 0 < n /\
    write_done h = write_done (writer w) /\ write_task h = Some (mkWriteTask p n 0) /\
    writeStep stream_write h k = Ret (writer w', k').
Proof.
  unfold write_more. intros (p&Hp&E)%bind_Ret_inv. apply bind_Ret_inv in E as (n&Hn&E).
  apply on_writer_inv in E as (?&?&E). split; [done|]. split; [done|].
  apply write_begun in E as (h&Hd&Ht&Hl&E). exists h, p, n. by split_and!.
Qed.
End steps.

(** *** The receiving half *)

(** A receiver as [IoPeerTheory] has it: [fs] waits at its conveyor, which may be
    closed. *)
Definition receiver_view (cl : bool) (fs : list fed) (r : Receiver) : Receiver :=
  mkReceiver [] (in_buffer r)
    (mkReadHelper (read_task (reader r)) (if cl then None else Some fs) (read_memory (reader r)))
    (if cl then Destroyed else Alive).
(** Its own feeders are empty. *)
Definition receiver_drained (r : Receiver) : Prop :=
  incoming_feeder r = [] /\ read_done (reader r) = Some [] /\ sink_read r = Alive.

Lemma receiver_view_id r : receiver_drained r -> receiver_view false [] r = r.
Proof. destruct r as [i b [t d m] s]. unfold receiver_drained. cbn. by intros (->&->&->). Qed.

Section receiving.
Context {K : Type}.
Context (stream_read : Z -> K -> ErrorOr Z * list byte * K).
Context (stream_write : list byte -> K -> ErrorOr Z * K).
Context (announced_in announced_out gone : K -> Prop).
Context (source sunk : K -> list byte).
Context (cap : Z) (s : schema) (limits : Limits).
Context (reads : reads_law stream_read source) (reads_apart : reads_keep stream_read sunk).
Context (schema_ok : schema.ok s = true).
Context {laws : wake_laws stream_read stream_write announced_in announced_out gone}.
Implicit Types r : Receiver.

(** Bytes that wait to be read are announced. *)
Definition read_wakes (r : Receiver) (k : K) : Prop :=
  read_task (reader r) <> None -> announced_in k.

(** It reads on, unless the connection is gone or the buffer was full. *)
Definition reading_on (cl : bool) (fs : list fed) (r : Receiver) (k : K) : Prop :=
  ends gone k fs /\ (cl = true -> gone k \/ room (in_buffer r) = []) /\
  (read_task (reader r) = None -> fs <> [] \/ cl = true).

Lemma reading_on_mono cl fs r k k' :
  (gone k -> gone k') -> reading_on cl fs r k -> reading_on cl fs r k'.
Proof.
  intros Hg (He&Hc&Hn). split_and!; [by eapply ends_mono| |done].
  intros E. destruct (Hc E); auto.
Qed.

(** After a step of its task. *)
Lemma reading_step r k announced new :
  steps_to gone announced (read_task (reader r)) k new -> reading_on false new r k.
Proof. intros (_&He&Hn&_). split_and!; [done|done|]. intros E. left. by apply Hn. Qed.

(** A handler went from [r] to [r'], with [ms] passed on and [new] fed. *)
Definition receives (k : K) (todo : list message) (r' : Receiver) (k' : K)
    (ms : list message) (new : list fed) (todo' : list message) : Prop :=
  todo = ms ++ todo' /\ incoming_feeder r' = ms /\ read_done (reader r') = Some new /\
  sink_read r' = Alive /\ (length new <= 1)%nat /\ sunk k' = sunk k /\
  (announced_out k -> announced_out k') /\ (gone k -> gone k').

Lemma recv_ok_waiting r todo future task :
  recv_ok s r todo future -> read_task (reader r) = Some task ->
  min_length task = 1 /\ 0 < max_length task.
Proof.
  intros [_ [[E _]|(pend&[_ Hr]&_)]] Ht; [congruence|]. rewrite Ht in Hr.
  destruct Hr as (m&(E&?&_)&_). rewrite Ht in E. injection E as ->. cbn. split; [done|lia].
Qed.

Lemma recv_ok_reading cl fs r todo future :
  recv_ok s (receiver_view cl fs r) todo future -> read_task (reader r) <> None ->
  cl = false /\ fs = [].
Proof.
  intros [_ [[E _]|(pend&[Ha Hr]&_)]] Ht; [done|]. destruct cl; [done|]. split; [done|].
  cbn in Hr. destruct (read_task (reader r)); [|done]. destruct Hr as (?&_&_&[= ->]). done.
Qed.

Lemma recv_ok_view r cl fs todo future :
  receiver_drained r -> cl = false -> fs = [] ->
  recv_ok s (receiver_view cl fs r) todo future -> recv_ok s r todo future.
Proof. intros Hd -> ->. by rewrite receiver_view_id. Qed.

(** What a receiver is fed waits at its conveyor. *)
Lemma recv_ok_fed r todo future new :
  read_done (reader r) = Some new -> sink_read r = Alive ->
  recv_ok s r todo future -> recv_ok s (receiver_view false new r) todo future.
Proof.
  intros Hd Ha. unfold recv_ok, broken, receiving, waiting, receiver_view.
  cbn [in_buffer reader read_task read_done sink_read]. by rewrite Hd, Ha.
Qed.

(** The event of [readReady]. *)
Lemma view_read_ready cl fs r k todo future :
  receiver_drained r -> recv_ok s (receiver_view cl fs r) todo (source k ++ future) ->
  reading_on cl fs r k ->
  exists r' k' new, on_read_ready stream_read r k = Ret (r', k') /\
    receives k todo r' k' [] new todo /\ (new <> [] -> cl = false /\ fs = []) /\
    recv_ok s (receiver_view cl (fs ++ new) r') todo (source k' ++ future) /\
    read_wakes r' k' /\ reading_on cl (fs ++ new) r' k' /\
    costs (length (source k)) (length (source k')) new.
Proof using reads reads_apart schema_ok laws.
  intros Hd Hok Hon. pose proof Hd as (Hf&Hrd&Ha).
  destruct (read_task (reader r)) as [task|] eqn:Et.
  - destruct (recv_ok_reading _ _ _ _ _ Hok) as [-> ->]; [congruence|].
    rewrite (receiver_view_id r Hd) in Hok. destruct (recv_ok_waiting _ _ _ _ Hok Et) as [Hmin Hmax].
    destruct (read_ready_steps stream_read source sunk s reads reads_apart r k todo future Hok)
      as (r'&k'&ms&todo'&E&Htodo&Hin&Hsunk&Hok').
    unfold on_read_ready in E. pose proof E as E0. apply on_reader_inv in E as (Hin'&Hs'&E).
    rewrite Hin', Hf in Hin. cbn in Hin. subst ms. cbn in Htodo. subst todo'.
    destruct (read_step stream_read stream_write announced_in announced_out gone source reads
      _ _ _ _ task E Hrd Et Hmin Hmax) as (new&Hnew&Hst&Hout&Hg&Hcost).
    exists r', k', new. split_and!; try done.
    + destruct Hst as [Hl _]. unfold receives. rewrite Hin', Hs'. by split_and!.
    + cbn [app]. apply recv_ok_fed; [done|congruence|done].
    + by destruct Hst as (_&_&_&?).
    + by eapply reading_step.
  - exists (mkReceiver (incoming_feeder r) (in_buffer r)
      (mkReadHelper None (read_done (reader r)) (buffer (in_buffer r))) (sink_read r)), k, [].
    unfold on_read_ready, on_reader, readStep. cbn [read_task]. rewrite Et, bind_ret.
    cbn [read_memory]. rewrite set_buffer_same, app_nil_r. split_and!; try done.
    + unfold receives. cbn. rewrite Hf. split_and!; try done. lia.
    + unfold receiver_view in *. cbn [reader in_buffer read_task] in *.
      rewrite Et in Hok. exact Hok.
    + unfold read_wakes. done.
    + destruct Hon as (?&?&Hn). split; [done|]. split; [done|]. intros _. by apply Hn.
    + apply costs_nothing.
Qed.

Lemma decode_loop_reader fuel r e r' :
  decode_loop cap s limits fuel r = Ret (e, r') -> reader r' = reader r /\ sink_read r' = sink_read r.
Proof.
  revert r. induction fuel as [|fuel IH]; intros r; cbn [decode_loop]; [done|].
  intros ([[e1 root] b]&_&E)%bind_Ret_inv. cbn beta iota in E.
  destruct (isCritical e1); [by injection E as _ <-|].
  destruct (failed e1); cbn [negb] in E; [by injection E as _ <-|].
  by apply IH in E.
Qed.

Lemma read_handler_inv bytes r k e r' k' :
  read_handler stream_read cap s limits bytes r k = Ret (e, r', k') ->
  e <> None /\ reader r' = reader r /\ k' = k \/
  exists h task, read_done h = read_done (reader r) /\ read_task h = Some task /\
    min_length task = 1 /\ 0 < max_length task /\ readStep stream_read h k = Ret (reader r', k').
Proof.
  unfold read_handler. intros (b&_&E)%bind_Ret_inv. apply bind_Ret_inv in E as (n&_&E).
  destruct (n =? 0); [injection E as <- <- <-; by left|]. right.
  apply bind_Ret_inv in E as ([r1 k1]&Hr&E). apply bind_Ret_inv in E as ([e1 r2]&Hl&E).
  injection E as _ <- <-. apply decode_loop_reader in Hl as [-> _].
  by apply read_more_inv in Hr as (_&_&?).
Qed.

(** The function of [readDone]. *)
Lemma view_read_done n r k todo future :
  receiver_drained r -> Forall (message_ok cap s limits) todo ->
  recv_ok s (receiver_view false [Fed n] r) todo (source k ++ future) ->
  exists e r' k' ms new todo', read_handler stream_read cap s limits n r k = Ret (e, r', k') /\
    receives k todo r' k' ms new todo' /\
    (is_critical_error e = true -> ms = [] /\ new = []) /\
    recv_ok s (receiver_view (is_critical_error e) new r') todo' (source k' ++ future) /\
    read_wakes r' k' /\ reading_on (is_critical_error e) new r' k' /\
    costs (length (source k)) (length (source k')) new.
Proof using reads reads_apart schema_ok laws.
  intros Hd Hall [Hwf [[Ht Hb]|(pend&[_ Hr]&Hinc&Hst)]]; [done|].
  cbn [receiver_view in_buffer reader read_task read_done] in *.
  destruct (read_task (reader r)) eqn:Ht; [by destruct Hr as (?&_&_&?)|].
  destruct Hr as ([= ->]&Hp&Hle&Hroom). destruct Hd as (Hf&Hrd&Ha).
  destruct (read_handler_ok stream_read source sunk cap s limits reads reads_apart schema_ok
    pend r k todo future Hwf Ha Ht Hrd Hp Hroom Hall Hst)
    as (e&r'&k'&ms&todo'&E&->&Hin&Hsunk&Ha'&Hok&He).
  rewrite Hf in Hin. cbn in Hin. destruct He as [->|(->&->&Hrr&Hfull)]; cbn [is_critical_error].
  - destruct (read_handler_inv _ _ _ _ _ _ E) as [[? _]|(h&task&Hh&Hht&Hmin&Hmax&Hs)]; [done|].
    rewrite Hrd in Hh.
    destruct (read_step stream_read stream_write announced_in announced_out gone source reads
      _ _ _ _ task Hs Hh Hht Hmin Hmax) as (new&Hnew&Hstep&Hout&Hg&Hcost).
    exists None, r', k', ms, new, todo'. split_and!; try done.
    + destruct Hstep as [Hl _]. by split_and!.
    + by apply recv_ok_fed.
    + by destruct Hstep as (_&_&_&?).
    + by eapply reading_step.
  - assert (Hk : k' = k).
    { destruct (read_handler_inv _ _ _ _ _ _ E) as [(_&_&->)|(h&task&Hh&Hht&Hmin&Hmax&Hs)]; [done|].
      rewrite Hrd in Hh.
      destruct (read_step stream_read stream_write announced_in announced_out gone source reads
        _ _ _ _ task Hs Hh Hht Hmin Hmax) as (new&Hnew&(_&_&Hn&_)&_).
      rewrite Hrr in Hnew, Hn. rewrite Hrd in Hnew. injection Hnew as <-. by destruct (Hn Ht). }
    subst k'. eexists _, r', k, [], [], todo'. split_and!; [exact E|..]; cbn [is_critical_error]; try done.
    + unfold receives. rewrite Hrr, Hrd. split_and!; try done. cbn. lia.
    + cbn. split; [apply Hok|]. left. split; [|done]. cbn. by rewrite Hrr.
    + unfold read_wakes. by rewrite Hrr, Ht.
    + split_and!; [by apply Forall_nil_2|by right|by right].
    + apply costs_nothing.
Qed.

(** An error waits at [readDone], and closes it. *)
Lemma view_read_failed e r k todo future :
  recv_ok s (receiver_view false [Failed e] r) todo future -> reading_on false [Failed e] r k ->
  isCritical e = true /\ recv_ok s (receiver_view true [] r) todo future /\ reading_on true [] r k.
Proof.
  intros [Hwf Hst] (He&_&_). apply Forall_singleton in He as [Hc Hg]. split; [done|]. split.
  - split; [done|]. left. destruct Hst as [[Ht _]|(pend&[_ Hr]&_)].
    + by split.
    + cbn in Hr. destruct (read_task (reader r)); [by destruct Hr as (?&_&_&?)|by destruct Hr].
  - split_and!; [by apply Forall_nil_2|by left|by right].
Qed.

(** At most one element waits. *)
Lemma recv_ok_one cl x l r todo future :
  recv_ok s (receiver_view cl (x :: l) r) todo future -> cl = false -> l = [].
Proof.
  intros [_ Hst] ->. destruct Hst as [[_ Hb]|(pend&[_ Hr]&_)]; cbn in *.
  - destruct x; [done|]. by destruct l.
  - destruct (read_task (reader r)); [by destruct Hr as (?&_&_&?)|]. by destruct Hr as ([= _ ->]&_).
Qed.
End receiving.

(** *** The sending half *)

(** A sender as [IoPeerTheory] has it: [fs] waits at its conveyor. *)
Definition sender_view (cl : bool) (fs : list fed) (w : Sender) : Sender :=
  mkSender (out_buffer w)
    (mkWriteHelper (write_task (writer w)) (if cl then None else Some fs) (write_memory (writer w)))
    (if cl then Destroyed else Alive).
(** Its own feeder holds what a running function has fed. *)
Definition sender_fed (new : list fed) (w : Sender) : Prop :=
  write_done (writer w) = Some new /\ sink_write w = Alive.

Lemma sender_view_id new w : sender_fed new w -> sender_view false new w = w.
Proof. destruct w as [b [t d m] s]. unfold sender_fed. cbn. by intros (->&->). Qed.

(** What a client sends can be encoded. *)
Fixpoint sendable {C} (s : schema) (p : client_prog C) : Prop :=
  match p with
  | Finish _ => True
  | SendThen m next =>
      (typed s m = true /\ zlen (packet_bytes s m) < size_mod) /\ forall e, sendable s (next e)
  end.

Section sending.
Context {K : Type}.
Context (stream_read : Z -> K -> ErrorOr Z * list byte * K).
Context (stream_write : list byte -> K -> ErrorOr Z * K).
Context (announced_in announced_out gone : K -> Prop).
Context (source sunk : K -> list byte).
Context (s : schema).
Context (writes : writes_law stream_write sunk) (writes_apart : writes_keep stream_write source).
Context (schema_ok : schema.ok s = true).
Context {laws : wake_laws stream_read stream_write announced_in announced_out gone}.
Implicit Types w : Sender.

(** Room for what waits to be written is announced. *)
Definition write_wakes (w : Sender) (k : K) : Prop :=
  write_task (writer w) <> None -> announced_out k.

(** A handler took the kernel from [k] to [k'] and has sent more. *)
Definition sends (k : K) (unsent : list byte) (more : list byte) (k' : K) (unsent' : list byte)
  : Prop :=
  source k' = source k /\ ((announced_in k -> announced_in k') /\ (gone k -> gone k')) /\
  sunk k' ++ unsent' = sunk k ++ unsent ++ more.

Lemma send_ok_waiting w unsent task :
  send_ok w unsent -> write_task (writer w) = Some task ->
  0 <= write_buffer task /\ 0 < IoHelpers.length task < size_mod.
Proof.
  intros (Hwf&n&[Hs _]&_) Ht. rewrite Ht in Hs. destruct Hs as (len&->&?&_&?&_).
  destruct Hwf as (?&?&_). cbn. wconst. lia.
Qed.

(** It writes on, unless the connection is gone or all is written. *)
Definition writing_on (cl : bool) (fs : list fed) (w : Sender) (k : K) : Prop :=
  ends gone k fs /\ (cl = true -> gone k) /\
  (write_task (writer w) = None -> fs <> [] \/ cl = true \/ input (out_buffer w) = []).

Lemma writing_on_mono cl fs w k k' :
  (gone k -> gone k') -> writing_on cl fs w k -> writing_on cl fs w k'.
Proof. intros Hg (He&Hc&Hn). split_and!; [by eapply ends_mono|auto|done]. Qed.

(** After a step of its task. *)
Lemma writing_step w k announced new :
  steps_to gone announced (write_task (writer w)) k new -> writing_on false new w k.
Proof. intros (_&He&Hn&_). split_and!; [done|done|]. intros E. left. by apply Hn. Qed.

Lemma send_ok_writing cl fs w unsent :
  send_ok (sender_view cl fs w) unsent -> write_task (writer w) <> None ->
  cl = false /\ fs = [].
Proof.
  intros (_&n&[Hs Hk]&_) Ht. cbn in *. destruct cl.
  { by destruct (Hk ltac:(done)). }
  destruct (write_task (writer w)); [|done]. by destruct Hs as (?&_&_&_&_&[= ->]).
Qed.

Lemma costs_unsent k k' unsent unsent' new :
  costs (length (sunk k')) (length (sunk k)) new -> sunk k' ++ unsent' = sunk k ++ unsent ->
  costs (length unsent) (length unsent') new.
Proof.
  intros [H1 H2] E%(f_equal length). rewrite !length_app in E. split; [lia|]. intros Hn.
  specialize (H2 Hn). lia.
Qed.

(** The event of [writeReady]. *)
Lemma view_write_ready cl fs w k unsent :
  sender_fed [] w -> send_ok (sender_view cl fs w) unsent -> writing_on cl fs w k ->
  exists w' k' new unsent', on_write_ready stream_write w k = Ret (w', k') /\
    sender_fed new w' /\ (new <> [] -> cl = false /\ fs = []) /\ sends k unsent [] k' unsent' /\
    send_ok (sender_view cl (fs ++ new) w') unsent' /\ write_wakes w' k' /\
    writing_on cl (fs ++ new) w' k' /\ costs (length unsent) (length unsent') new.
Proof using writes writes_apart laws.
  intros Hd Hok Hon. pose proof Hd as (Hwd&Ha).
  destruct (write_task (writer w)) as [task|] eqn:Et.
  - destruct (send_ok_writing _ _ _ _ Hok) as [-> ->]; [congruence|].
    rewrite (sender_view_id [] w Hd) in Hok. destruct (send_ok_waiting _ _ _ Hok Et) as [Hp Hl].
    destruct (write_ready_steps stream_write sunk source writes writes_apart w k unsent Hok)
      as (w'&k'&unsent'&E&Hsrc&Hsunk&Hok').
    pose proof E as E0. unfold on_write_ready in E. apply on_writer_inv in E as (_&Hs'&E).
    destruct (write_step stream_read stream_write announced_in announced_out gone sunk writes
      _ _ _ _ task E Hwd Et Hp Hl) as (new&Hnew&Hst&Hin&Hg&Hcost).
    { intros t Ht. destruct (send_ok_waiting _ _ _ Hok' Ht). lia. }
    assert (Hfed : sender_fed new w') by (split; [done|congruence]).
    exists w', k', new, unsent'. split_and!; try done.
    + unfold sends. rewrite app_nil_r. by split_and!.
    + cbn [app]. by rewrite sender_view_id.
    + by destruct Hst as (_&_&_&?).
    + by eapply writing_step.
    + by eapply costs_unsent.
  - unfold on_write_ready, on_writer, writeStep. cbn [write_task]. rewrite Et, bind_ret.
    do 2 eexists. exists [], unsent. split; [done|]. rewrite app_nil_r. split_and!; try done.
    + unfold sends. by rewrite app_nil_r.
    + unfold sender_view in *. cbn [writer write_task out_buffer] in *.
      rewrite Et in Hok. exact Hok.
    + unfold write_wakes. done.
    + destruct Hon as (?&?&Hn). split; [done|]. split; [done|]. intros _. by apply Hn.
    + apply costs_nothing.
Qed.

Lemma write_more_wakes w k w' k' unsent' :
  write_done (writer w) = Some [] -> sink_write w = Alive ->
  write_more stream_write w k = Ret (w', k') -> send_ok w' unsent' ->
  exists new, sender_fed new w' /\ ((announced_in k -> announced_in k') /\ (gone k -> gone k')) /\
    write_wakes w' k' /\ writing_on false new w' k' /\
    costs (length (sunk k')) (length (sunk k)) new.
Proof using writes laws.
  intros Hwd Ha E Hok. apply write_more_inv in E as (Hb&Hs&h&p&n&Hp&Hn&Hpos&Hh&Ht&E).
  rewrite Hwd in Hh. pose proof Hok as [Hwf _]. rewrite Hb in Hwf.
  assert (Hi : input (out_buffer w) <> []).
  { intros Hi. apply ring_no_segment in Hi; [|done]. rewrite Hi in Hn. injection Hn as <-. lia. }
  destruct (ring_read_pointer _ Hwf Hi) as (Hp'&n'&Hn'&_&Hle).
  rewrite Hp in Hp'. injection Hp' as ->. rewrite Hn in Hn'. injection Hn' as <-.
  pose proof Hwf as (?&?&_).
  destruct (write_step stream_read stream_write announced_in announced_out gone sunk writes
    _ _ _ _ _ E Hh Ht) as (new&Hnew&Hst&Hin&Hg&Hcost); cbn [write_buffer IoHelpers.length]; [lia|wconst; lia| |].
  { intros t Et. destruct (send_ok_waiting _ _ _ Hok Et). lia. }
  exists new. split; [split; [done|congruence]|]. split; [done|]. split; [by destruct Hst as (_&_&_&?)|].
  split; [by eapply writing_step|done].
Qed.

(** The function of [writeDone]. *)
Lemma view_write_done n w k unsent :
  sender_fed [] w -> send_ok (sender_view false [Fed n] w) unsent ->
  exists w' k' new unsent', write_handler stream_write n w k = Ret (w', k') /\
    sender_fed new w' /\ sends k unsent [] k' unsent' /\
    send_ok (sender_view false new w') unsent' /\ write_wakes w' k' /\
    writing_on false new w' k' /\ costs (length unsent) (length unsent') new.
Proof using writes writes_apart laws.
  intros Hd Hok. pose proof Hd as (Hwd&Ha).
  assert (Hnone : write_task (writer w) = None).
  { destruct (write_task (writer w)) eqn:Et; [|done].
    destruct (send_ok_writing _ _ _ _ Hok) as [_ ?]; [congruence|done]. }
  destruct (write_done_steps stream_write sunk source writes writes_apart _ k unsent Hok)
    as (w'&k'&unsent'&E&Hsrc&Hsunk&Hok').
  assert (E' : write_handler stream_write n w k = Ret (w', k')).
  { change (on_write_done stream_write (sender_view false [Fed n] w) k)
      with (write_handler stream_write n (sender_view false [] w) k) in E.
    by rewrite sender_view_id in E. }
  assert (Hnew : exists new, sender_fed new w' /\
    ((announced_in k -> announced_in k') /\ (gone k -> gone k')) /\
    write_wakes w' k' /\ writing_on false new w' k' /\ costs (length (sunk k')) (length (sunk k)) new).
  { unfold write_handler in E'. apply bind_Ret_inv in E' as (b&_&E').
    apply bind_Ret_inv in E' as (m&Hm&E'). destruct (Z.ltb_spec 0 m) as [_|Hm0].
    - eapply (write_more_wakes (set_out_buffer b w)); [exact Hwd|exact Ha|exact E'|exact Hok'].
    - injection E' as <- <-. destruct Hok' as [Hwf' _]. cbn [set_out_buffer out_buffer] in Hwf'.
      rewrite law_readCompositeLength in Hm by done. injection Hm as <-.
      exists []. split_and!; [done|done|done|unfold write_wakes; cbn; by rewrite Hnone| |apply costs_nothing].
      split_and!; [by apply Forall_nil_2|done|]. intros _. right. right. cbn.
      destruct (decide (input b = [])) as [?|Hne%zlen_pos]; [done|]. cbn in Hm0, Hne. lia. }
  destruct Hnew as (new&Hfed&[Hin Hg]&Hwakes&Hon&Hcost).
  exists w', k', new, unsent'. split_and!; try done.
  - unfold sends. rewrite app_nil_r. by split_and!.
  - by rewrite sender_view_id.
  - by eapply costs_unsent.
Qed.

(** An error waits at [writeDone], and closes it. *)
Lemma view_write_failed e w k unsent :
  send_ok (sender_view false [Failed e] w) unsent -> writing_on false [Failed e] w k ->
  isCritical e = true /\ send_ok (sender_view true [] w) unsent /\ writing_on true [] w k.
Proof.
  intros (Hwf&n&[Hs _]&->) (He&_&_). apply Forall_singleton in He as [Hc Hg]. split; [done|].
  split; [|split_and!; [by apply Forall_nil_2|done|by right; left]].
  split; [done|]. exists n. split; [|done]. cbn in *.
  destruct (write_task (writer w)) eqn:Ht; [by destruct Hs as (?&_&_&_&_&?)|].
  destruct Hs as [Hn Hne]. assert (Hi : input (out_buffer w) <> []) by (intros E; by specialize (Hne E)).
  split; cbn; rewrite Ht; by split.
Qed.

(** At most one element waits. *)
Lemma send_ok_one cl x l w unsent :
  send_ok (sender_view cl (x :: l) w) unsent -> cl = false -> l = [].
Proof.
  intros (_&n&[Hs _]&_) ->. cbn in Hs.
  destruct (write_task (writer w)); [by destruct Hs as (?&_&_&_&_&?)|].
  by destruct x, l.
Qed.

(** [send] from a function, whose own feeder holds [new] already. *)
Lemma send_inv m w k e w' k' :
  send stream_write s m w k = Ret (e, w', k') ->
  exists n b, Ring.readSegmentLength 0 (out_buffer w) = Ret n /\
    ((exists e0, codec_encode s m (out_buffer w) = Ret (e0, b) /\ e = (if failed e0 then e0 else noError) /\
        (failed e0 = true \/ n <> 0) /\ w' = set_out_buffer b w /\ k' = k) \/
     n = 0 /\ e = noError /\ write_more stream_write (set_out_buffer b w) k = Ret (w', k')).
Proof.
  unfold send. cbn [readSegmentLength ring_ops]. intros (n&Hn&E)%bind_Ret_inv.
  apply bind_Ret_inv in E as ([e0 b]&Hc&E). cbn beta iota in E. exists n, b. split; [done|].
  destruct (failed e0) eqn:Hf.
  - injection E as <- <- <-. left. exists e0. rewrite Hf. split_and!; auto.
  - destruct (Z.eqb_spec n 0) as [->|Hn0].
    + right. apply bind_Ret_inv in E as ([w1 k1]&E&[= <- <- <-]). done.
    + left. exists e0. rewrite Hf. injection E as <- <- <-. split_and!; auto.
Qed.

(** Where nothing is left to write, nothing waits. *)
Lemma sender_view_idle cl fs w unsent :
  send_ok (sender_view cl fs w) unsent -> input (out_buffer w) = [] ->
  cl = false /\ fs = [] /\ write_task (writer w) = None.
Proof.
  intros (_&n&[Hs Hk]&_) Hi. cbn in Hs, Hk, Hi. destruct cl.
  { by destruct (Hk ltac:(done)) as (_&?&_). }
  destruct (write_task (writer w)).
  - destruct Hs as (len&_&?&Hl&_). rewrite Hi, zlen_nil in Hl. lia.
  - split_and!; [done| |done]. destruct fs as [|[x|x] [|y l]]; try done.
    + destruct Hs as (_&[Hs1 Hs2]&_). rewrite Hi, zlen_nil in Hs2. lia.
    + destruct Hs as [_ Hs]. by specialize (Hs Hi).
Qed.

(** Without a restart, what waits at the conveyor plays no part. *)
Lemma send_view cl fs m w k e v k' n :
  Ring.readSegmentLength 0 (out_buffer w) = Ret n -> n <> 0 ->
  send stream_write s m (sender_view cl fs w) k = Ret (e, v, k') ->
  exists b, v = sender_view cl fs (set_out_buffer b w) /\ k' = k /\
    send stream_write s m w k = Ret (e, set_out_buffer b w, k).
Proof.
  intros Hn Hn0. unfold send. cbn [readSegmentLength ring_ops sender_view out_buffer].
  rewrite Hn, !bind_ret. intros ([e0 b]&Hc&E)%bind_Ret_inv. cbn beta iota in E.
  rewrite Hc, bind_ret. rewrite (proj2 (Z.eqb_neq n 0) Hn0) in *. exists b.
  destruct (failed e0); injection E as <- <- <-; done.
Qed.

Lemma view_send cl fs new m w k unsent :
  typed s m = true -> zlen (packet_bytes s m) < size_mod -> sender_fed new w ->
  send_ok (sender_view cl (fs ++ new) w) unsent -> writing_on cl (fs ++ new) w k ->
  exists e w' k' new' unsent', send stream_write s m w k = Ret (e, w', k') /\
    sender_fed new' w' /\ (new' <> new -> cl = false) /\
    sends k unsent (if failed e then [] else packet_bytes s m) k' unsent' /\
    send_ok (sender_view cl (fs ++ new') w') unsent' /\
    (write_wakes w k -> write_wakes w' k') /\ writing_on cl (fs ++ new') w' k'.
Proof using writes writes_apart schema_ok laws.
  intros Hm Hsz Hf Hok Hon.
  destruct (send_message_steps stream_write sunk source s writes writes_apart schema_ok m _ k unsent
    Hm Hsz Hok) as (e&v&k'&unsent'&E&Hsrc&Hsunk&Hok'&Hsame).
  pose proof Hok as (Hwf&_). cbn [sender_view out_buffer] in Hwf.
  destruct (decide (input (out_buffer w) = [])) as [Hi|Hi].
  - destruct (sender_view_idle _ _ _ _ Hok Hi) as (->&[-> ->]%app_eq_nil&Ht). cbn [app] in *.
    rewrite (sender_view_id [] w Hf) in *. pose proof E as E0. apply send_inv in E0 as (n&b&Hn&E0).
    rewrite (proj1 (ring_no_segment _ Hwf) Hi) in Hn. injection Hn as <-.
    assert (Hnew : exists new', sender_fed new' v /\
      ((announced_in k -> announced_in k') /\ (gone k -> gone k')) /\
      write_wakes v k' /\ writing_on false new' v k').
    { destruct E0 as [(e0&_&->&Hr&->&->)|(_&_&E0)].
      - destruct Hr as [Hr|?]; [|done]. rewrite Hr in Hsame. specialize (Hsame Hr).
        exists []. split_and!; [done|done|done|unfold write_wakes; cbn; by rewrite Ht|].
        split_and!; [by apply Forall_nil_2|done|]. intros _. right. right. by rewrite Hsame.
      - destruct Hf as [Hwd Ha].
        destruct (write_more_wakes (set_out_buffer b w) k v k' unsent') as (new'&?&?&?&?&_); try done.
        by exists new'. }
    destruct Hnew as (new'&Hfed&[Hin Hg]&Hwakes&Hon').
    exists e, v, k', new', unsent'. split_and!; try done. by rewrite sender_view_id.
  - destruct (ring_read_pointer (out_buffer w) Hwf Hi) as (_&n&Hn&Hn1&_).
    destruct (send_view _ _ _ _ _ _ _ _ n Hn ltac:(lia) E) as (b&->&->&E').
    exists e, (set_out_buffer b w), k, new, unsent'. split_and!; try done.
    destruct Hon as (He&Hc&Hn'). split; [done|]. split; [done|]. intros Hw.
    destruct (Hn' Hw) as [?|[?|?]]; [by left|by right; left|done].
Qed.

(** A function of the client. *)
Lemma view_client {C} (p : client_prog C) cl fs new w k unsent :
  sendable s p -> sender_fed new w -> send_ok (sender_view cl (fs ++ new) w) unsent ->
  writing_on cl (fs ++ new) w k ->
  exists c w' k' new' unsent' said, run_client stream_write s p w k = Ret (c, w', k') /\
    says p said c /\ sender_fed new' w' /\ (new' <> new -> cl = false) /\
    sends k unsent (stream_bytes s said) k' unsent' /\
    send_ok (sender_view cl (fs ++ new') w') unsent' /\
    (write_wakes w k -> write_wakes w' k') /\ writing_on cl (fs ++ new') w' k'.
Proof using writes writes_apart schema_ok laws.
  revert new w k unsent. induction p as [c|m next IH]; intros new w k unsent Hp Hf Hok Hon.
  - exists c, w, k, new, unsent, []. split_and!; try done; [constructor|].
    unfold sends, stream_bytes. cbn. by rewrite app_nil_r.
  - destruct Hp as [[Hm Hsz] Hp].
    destruct (view_send cl fs new m w k unsent Hm Hsz Hf Hok Hon)
      as (e&w1&k1&new1&u1&E1&Hf1&Hcl1&(Hs1&(Hi1&Hg1)&Hu1)&Hok1&Hw1&Hon1).
    destruct (IH e new1 w1 k1 u1 (Hp e) Hf1 Hok1 Hon1)
      as (c&w2&k2&new2&u2&said&E2&Hsay&Hf2&Hcl2&(Hs2&(Hi2&Hg2)&Hu2)&Hok2&Hw2&Hon2).
    exists c, w2, k2, new2, u2, (if failed e then said else m :: said). cbn [run_client].
    rewrite E1, bind_ret. split_and!; auto.
    + destruct (failed e) eqn:He; [by eapply says_refused|by eapply says_accepted].
    + intros Hne. assert (eq_dec : forall x y : list fed, {x = y} + {x <> y}) by repeat decide equality.
      destruct (eq_dec new1 new) as [->|?]; auto.
    + unfold sends. rewrite Hs2, Hs1, Hu2. split_and!; [done|tauto|tauto|].
      rewrite app_assoc, Hu1, <- !app_assoc. do 2 f_equal.
      destruct (failed e); [done|]. by unfold stream_bytes.
Qed.
End sending.
