(* ===== verification/PeerServing.v ===== *)
(** A [StreamingIoPeer] on the event loop: what holds of it between the events, and
    that every station can be served. *)

From S2P Require Import Prelude Error Buffer RingBuffer ProtoKel ProtoKelDecode ProtoKelCodec IoHelpers Message MessageAccess.
From stdpp Require Import gmap list relations.
From S2P Require Import EventLoop EventQueue Conveyor ConveyorRules ConveyorPipeline Stations.
From S2P Require Import UnixIo AsyncStream AsyncLoop IoPeer IoPeerTheory IoPeerLink PeerStations.
#[local] Open Scope Z_scope.
#[local] Abbreviation length := List.length.

(** ** What is left to do *)
#[local] Open Scope nat_scope.

(** A direction that has not failed yet. *)
Definition live (cl : bool) (fs : list fed) : nat :=
  if cl then 0 else if forallb is_fed fs then 1 else 0.

Definition lower (r' r : nat * nat) : Prop := r'.1 < r.1 \/ r'.1 = r.1 /\ r'.2 < r.2.

(** The first answer to a task, or none. *)
Lemma live_step cl fs new :
  (new <> [] -> cl = false /\ fs = []) ->
  forallb is_fed new = true /\ live cl (fs ++ new) = live cl fs \/
  S (live cl (fs ++ new)) = live cl fs.
Proof.
  intros Hn. destruct new as [|x new]; [left; by rewrite app_nil_r|].
  destruct Hn as [-> ->]; [done|]. cbn [app live].
  destruct (forallb is_fed (x :: new)) eqn:E; [by left|by right].
Qed.

Lemma live_app cl fs new : live cl (fs ++ new) <= live cl fs.
Proof.
  unfold live. rewrite forallb_app. destruct cl, (forallb is_fed fs), (forallb is_fed new); cbn; lia.
Qed.

#[local] Close Scope nat_scope.

(** ** What holds of a peer on the loop *)

(** Where nothing is queued, what is left is announced, unless the connection is
    gone or the incoming buffer was full. *)
Definition settled {K} (announced_in announced_out gone : K -> Prop) (source : K -> list byte)
    (Incoming : schema) (future : list byte) (p : StreamingIoPeer) (k : K)
    (todo : list message) (unsent : list byte) : Prop :=
  let r := receiver p in
  match read_task (reader r) with
  | Some _ =>
      stream_bytes Incoming todo = input (in_buffer r) ++ source k ++ future /\
      incomplete Incoming todo (input (in_buffer r)) /\ announced_in k
  | None => gone k \/ room (in_buffer r) = []
  end /\
  match write_task (writer (sender p)) with
  | Some _ => announced_out k
  | None => gone k \/ unsent = []
  end.

Section invariant.
Context {K C : Type}.
Context (stream_read : Z -> K -> ErrorOr Z * list byte * K).
Context (stream_write : list byte -> K -> ErrorOr Z * K).
Context (announced_in announced_out gone : K -> Prop).
Context (source sunk : K -> list byte).
Context (capacity : Z) (Incoming Outgoing : schema) (limits : Limits).
Context (client : message -> C -> client_prog C).
Context (reads : reads_law stream_read source) (reads_apart : reads_keep stream_read sunk).
Context (writes : writes_law stream_write sunk) (writes_apart : writes_keep stream_write source).
Context (incoming_ok : schema.ok Incoming = true) (outgoing_ok : schema.ok Outgoing = true).
Context {laws : wake_laws stream_read stream_write announced_in announced_out gone}.
Context (client_ok : forall m c, message_ok capacity Incoming limits m -> sendable Outgoing (client m c)).
(** The messages that are on their way, and the bytes of theirs that the kernel will
    never have; what was sent at first, and the client then. *)
Context (coming : list message) (future sunk0 : list byte) (c0 : C).
Context (coming_ok : Forall (message_ok capacity Incoming limits) coming).
#[local] Abbreviation state := (StreamingIoPeer * K * C)%type.
#[local] Abbreviation func :=
  (peer_func stream_read stream_write capacity Incoming Outgoing limits client).
#[local] Abbreviation error_func := (peer_error (K := K) (C := C)).

(** The queues [q0] to [q2] hold events of the stream, [fs3] and [fs4] answers to the
    peer, [wait] messages for the client, who has heard [heard] and sent [sent]. *)
Record peer_at (cl : list nat) (q0 q1 q2 : list (ErrorOr element)) (fs3 fs4 : list fed)
    (wait : list message) (p : StreamingIoPeer) (k : K) (c : C)
    (heard todo sent : list message) (unsent : list byte) : Prop := {
  at_events : Forall (fun x => x = void) (q0 ++ q1 ++ q2);
  at_closed : Forall (fun i => i = 3%nat \/ i = 4%nat) cl;
  at_closed_read : 3%nat ∈ cl -> fs3 = [];
  at_closed_write : 4%nat ∈ cl -> fs4 = [];
  at_reading : reading_on gone (bool_decide (3%nat ∈ cl)) fs3 (receiver p) k;
  at_writing : writing_on gone (bool_decide (4%nat ∈ cl)) fs4 (sender p) k;
  at_receiver : receiver_drained (receiver p);
  at_sender : sender_fed [] (sender p);
  at_coming : coming = heard ++ wait ++ todo;
  at_client : converses client c0 heard sent c;
  at_recv : recv_ok Incoming (receiver_view (bool_decide (3%nat ∈ cl)) fs3 (receiver p)) todo
    (source k ++ future);
  at_send : send_ok (sender_view (bool_decide (4%nat ∈ cl)) fs4 (sender p)) unsent;
  at_sunk : sunk k ++ unsent = sunk0 ++ stream_bytes Outgoing sent;
  at_read_wakes : read_task (reader (receiver p)) <> None -> q0 <> [] \/ announced_in k;
  at_write_wakes : write_task (writer (sender p)) <> None -> q1 <> [] \/ announced_out k
}.

Definition peer_queues (q0 q1 q2 : list (ErrorOr element)) (fs3 fs4 : list fed)
    (wait : list message) : list (list (ErrorOr element)) :=
  [q0; q1; q2; of_fed <$> fs3; of_fed <$> fs4; (fun m => IsValue (Msg m)) <$> wait].

(** What is left to do: messages to be given and directions that may fail; then
    bytes to be moved, what is queued, and stations to be closed. *)
Definition rank (cl : list nat) (q0 q1 q2 : list (ErrorOr element)) (fs3 fs4 : list fed)
    (wait : list message) (k : K) (todo : list message) (unsent : list byte) : nat * nat :=
  ((length wait + length todo + live (bool_decide (3%nat ∈ cl)) fs3 +
     live (bool_decide (4%nat ∈ cl)) fs4)%nat,
   (2 * (length todo + length (source k) + length unsent) +
     length q0 + length q1 + length q2 + 2 * length fs3 + 2 * length fs4 + length cl)%nat).

#[local] Ltac lowers := unfold lower, rank; cbn [fst snd]; rewrite ?length_app; cbn [length]; lia.

Definition peer_ranked (r : nat * nat) (a : stations element state) : Prop :=
  exists cl q0 q1 q2 fs3 fs4 wait p k c heard todo sent unsent,
    a = mkStations (peer_queues q0 q1 q2 fs3 fs4 wait) cl (p, k, c) /\
    peer_at cl q0 q1 q2 fs3 fs4 wait p k c heard todo sent unsent /\
    r = rank cl q0 q1 q2 fs3 fs4 wait k todo unsent.
Definition peer_below (r : nat * nat) (a : stations element state) : Prop :=
  exists r', lower r' r /\ peer_ranked r' a.
Definition peer_inv (a : stations element state) : Prop := exists r, peer_ranked r a.

Lemma ranked_closed r a : peer_ranked r a -> (length (closed a) <= r.2)%nat.
Proof.
  intros (cl&q0&q1&q2&fs3&fs4&wait&p&k&c&heard&todo&sent&unsent&->&_&->). cbn. lia.
Qed.

Lemma below_intro r cl q0 q1 q2 fs3 fs4 wait p k c heard todo sent unsent :
  lower (rank cl q0 q1 q2 fs3 fs4 wait k todo unsent) r ->
  peer_at cl q0 q1 q2 fs3 fs4 wait p k c heard todo sent unsent ->
  peer_below r (mkStations (peer_queues q0 q1 q2 fs3 fs4 wait) cl (p, k, c)).
Proof.
  intros Hl Hat. eexists. split; [exact Hl|].
  exists cl, q0, q1, q2, fs3, fs4, wait, p, k, c, heard, todo, sent, unsent. by split_and!.
Qed.

(** *** What a handler feeds *)
Definition news_of (new3 new4 : list fed) (ms : list message) : list (delivery element) :=
  ((fun x => (3%nat, of_fed x)) <$> new3) ++ ((fun x => (4%nat, of_fed x)) <$> new4) ++
  ((fun m => (5%nat, IsValue (Msg m))) <$> ms).

Lemma outbox_news r w new3 new4 ms :
  read_done (reader r) = Some new3 -> write_done (writer w) = Some new4 ->
  incoming_feeder r = ms -> outbox (mkPeer r w) = news_of new3 new4 ms.
Proof. intros E3 E4 <-. unfold outbox. cbn [receiver sender]. by rewrite E3, E4. Qed.

Lemma deliver_one i qs l (xs : list (ErrorOr element)) :
  qs !! i = Some l -> foldl deliver qs (pair i <$> xs) = <[i := l ++ xs]> qs.
Proof.
  revert qs l. induction xs as [|x xs IH]; intros qs l Hl.
  - cbn. rewrite app_nil_r. by rewrite list_insert_id.
  - rewrite fmap_cons. cbn [foldl]. unfold deliver at 2. cbn [fst snd]. rewrite Hl.
    rewrite (IH _ (l ++ [x])) by (apply list_lookup_insert_eq; by eapply lookup_lt_Some).
    by rewrite list_insert_insert_eq, <- app_assoc.
Qed.

Lemma deliver_news q0 q1 q2 fs3 fs4 wait cl st new3 new4 ms :
  deliver_all (news_of new3 new4 ms) (mkStations (peer_queues q0 q1 q2 fs3 fs4 wait) cl st) =
  mkStations (peer_queues q0 q1 q2 (fs3 ++ new3) (fs4 ++ new4) (wait ++ ms)) cl (St := state) st.
Proof.
  unfold deliver_all, news_of, peer_queues. cbn [queues closed store]. f_equal.
  rewrite !foldl_app.
  change ((fun x => (3%nat, of_fed x)) <$> new3) with ((fun x => pair 3%nat (of_fed x)) <$> new3).
  rewrite (list_fmap_compose of_fed (pair 3%nat)), (list_fmap_compose of_fed (pair 4%nat)),
    (list_fmap_compose (fun m => IsValue (Msg m)) (pair 5%nat)).
  rewrite (deliver_one 3 _ (of_fed <$> fs3)) by done.
  rewrite (deliver_one 4 _ (of_fed <$> fs4)) by done.
  rewrite (deliver_one 5 _ ((fun m => IsValue (Msg m)) <$> wait)) by done.
  by rewrite !fmap_app.
Qed.

Lemma accepts_news cl new3 new4 ms :
  Forall (fun i => i = 3%nat \/ i = 4%nat) cl ->
  (new3 <> [] -> 3%nat ∉ cl) -> (new4 <> [] -> 4%nat ∉ cl) ->
  accepts peer_css cl (news_of new3 new4 ms).
Proof.
  intros Hcl H3 H4. unfold accepts, news_of. repeat apply Forall_app_2; apply Forall_fmap, Forall_forall.
  - intros x Hx. split; [cbn; lia|]. apply H3. by intros ->; apply elem_of_nil in Hx.
  - intros x Hx. split; [cbn; lia|]. apply H4. by intros ->; apply elem_of_nil in Hx.
  - intros m _. split; [cbn; lia|]. intros Hin. rewrite Forall_forall in Hcl.
    by destruct (Hcl _ Hin).
Qed.

(** A handler that returned. *)
Lemma conv_gives f g v st y p k c :
  func f v st = give (Returned y) p k c ->
  convs_at func error_func [(f, g)] (IsValue v) st = Ret (y, outbox p, (drained p, k, c)).
Proof. intros E. cbn [convs_at conv_at fst snd]. rewrite E. cbn. by rewrite app_nil_r. Qed.

(** *** Each station *)
#[local] Abbreviation conv_of i := [(Pos.of_succ_nat i, Pos.of_succ_nat i)].
Definition serves_ok r (i : nat) (x : ErrorOr element) l qs cl (st : state) : Prop :=
  exists y ds st', convs_at func error_func (conv_of i) x st = Ret (y, ds, st') /\
    (is_critical y = true -> l = []) /\ accepts peer_css (close i y cl) ds /\
    peer_below r (deliver_all ds (mkStations (<[i := l]> qs) (close i y cl) st')).

(** A handler that went well. *)
Lemma serves_given rk i v l qs cl st r w k c new3 new4 ms :
  func (Pos.of_succ_nat i) v st = give (Returned void) (mkPeer r w) k c ->
  read_done (reader r) = Some new3 -> write_done (writer w) = Some new4 -> incoming_feeder r = ms ->
  Forall (fun i => i = 3%nat \/ i = 4%nat) cl ->
  (new3 <> [] -> 3%nat ∉ cl) -> (new4 <> [] -> 4%nat ∉ cl) ->
  peer_below rk (deliver_all (news_of new3 new4 ms)
    (mkStations (<[i := l]> qs) cl (drained (mkPeer r w), k, c))) ->
  serves_ok rk i (IsValue v) l qs cl st.
Proof.
  intros E H3 H4 Hms Hcl Hn3 Hn4 Hinv. exists void, (news_of new3 new4 ms), (drained (mkPeer r w), k, c).
  split; [|split; [done|split; [by apply accepts_news|done]]].
  rewrite <- (outbox_news r w new3 new4 ms H3 H4 Hms). by apply conv_gives.
Qed.

Lemma view_drained_receiver r w :
  sink_read r = Alive -> receiver_drained (receiver (drained (mkPeer r w))).
Proof. by intros Ha. Qed.

Lemma view_drained_sender r w new :
  sender_fed new w -> sender_fed [] (sender (drained (mkPeer r w))).
Proof. by intros [_ Ha]. Qed.

Lemma serves_read_ready cl x l q1 q2 fs3 fs4 wait p k c heard todo sent unsent :
  peer_at cl (x :: l) q1 q2 fs3 fs4 wait p k c heard todo sent unsent ->
  serves_ok (rank cl (x :: l) q1 q2 fs3 fs4 wait k todo unsent) 0 x l (peer_queues (x :: l) q1 q2 fs3 fs4 wait) cl (p, k, c).
Proof using reads reads_apart incoming_ok laws.
  intros []. apply Forall_cons in at_events0 as [-> Hev].
  destruct (view_read_ready stream_read stream_write announced_in announced_out gone source sunk Incoming
    reads reads_apart incoming_ok _ _ _ k todo future at_receiver0 at_recv0 at_reading0)
    as (r'&k'&new&E&(_&Hin&Hnew&Ha&_&Hsunk&Hout&Hg)&Hcl&Hok&Hwakes&Hon&Hcost).
  assert (Hopen : new <> [] -> 3%nat ∉ cl) by (by intros [?%bool_decide_eq_false _]%Hcl).
  apply (serves_given _ 0 (Size 0) l _ cl (p, k, c) r' (sender p) k' c new [] []); try done.
  - cbn [peer_func Pos.of_succ_nat]. by rewrite E.
  - apply at_sender0.
  - change (<[0%nat := l]> (peer_queues (void :: l) q1 q2 fs3 fs4 wait))
      with (peer_queues l q1 q2 fs3 fs4 wait).
    rewrite deliver_news, !app_nil_r.
    eapply (below_intro _ cl l q1 q2 (fs3 ++ new) fs4 wait _ _ _ heard todo sent unsent);
      [|split; try done].
    + destruct Hcost as [Hc1 Hc2]. destruct (live_step _ _ _ Hcl) as [[Hn ?]|?]; [specialize (Hc2 Hn)|]; lowers.
    + intros H3. rewrite (at_closed_read0 H3). cbn. destruct new; [done|]. by destruct (Hopen ltac:(done)).
    + exact (writing_on_mono _ _ _ _ _ _ Hg at_writing0).
    + by eapply view_drained_sender.
    + by rewrite Hsunk.
    + intros Hn. right. by apply Hwakes.
    + intros Hn. destruct (at_write_wakes0 Hn); auto.
Qed.

Lemma serves_write_ready cl q0 x l q2 fs3 fs4 wait p k c heard todo sent unsent :
  peer_at cl q0 (x :: l) q2 fs3 fs4 wait p k c heard todo sent unsent ->
  serves_ok (rank cl q0 (x :: l) q2 fs3 fs4 wait k todo unsent) 1 x l (peer_queues q0 (x :: l) q2 fs3 fs4 wait) cl (p, k, c).
Proof using writes writes_apart laws.
  intros []. rewrite !Forall_app, Forall_cons in at_events0. destruct at_events0 as (He0&[-> He1]&He2).
  destruct (view_write_ready stream_read stream_write announced_in announced_out gone source sunk
    writes writes_apart _ _ _ k unsent at_sender0 at_send0 at_writing0)
    as (w'&k'&new&unsent'&E&Hfed&Hcl&(Hsrc&[Hin Hg]&Hsunk)&Hok&Hwakes&Hon&Hcost).
  assert (Hopen : new <> [] -> 4%nat ∉ cl) by (by intros [?%bool_decide_eq_false _]%Hcl).
  rewrite app_nil_r in Hsunk.
  destruct at_receiver0 as (Hf&Hrd&Ha). destruct Hfed as [Hnew Hsink].
  apply (serves_given _ 1 (Size 0) l _ cl (p, k, c) (receiver p) w' k' c [] new []); try done.
  - cbn [peer_func Pos.of_succ_nat]. by rewrite E.
  - change (<[1%nat := l]> (peer_queues q0 (void :: l) q2 fs3 fs4 wait))
      with (peer_queues q0 l q2 fs3 fs4 wait).
    rewrite deliver_news, !app_nil_r.
    eapply (below_intro _ cl q0 l q2 fs3 (fs4 ++ new) wait _ _ _ heard todo sent unsent');
      [|split; try done].
    + destruct Hcost as [Hc1 Hc2]. pose proof (f_equal length Hsrc).
      destruct (live_step _ _ _ Hcl) as [[Hn ?]|?]; [specialize (Hc2 Hn)|]; lowers.
    + rewrite !Forall_app. by split_and!.
    + intros H4. rewrite (at_closed_write0 H4). cbn. destruct new; [done|]. by destruct (Hopen ltac:(done)).
    + exact (reading_on_mono _ _ _ _ _ _ Hg at_reading0).
    + by rewrite Hsrc.
    + by rewrite Hsunk.
    + intros Hn. destruct (at_read_wakes0 Hn); auto.
    + intros Hn. right. by apply Hwakes.
Qed.

Lemma serves_disconnected cl q0 q1 x l fs3 fs4 wait p k c heard todo sent unsent :
  peer_at cl q0 q1 (x :: l) fs3 fs4 wait p k c heard todo sent unsent ->
  serves_ok (rank cl q0 q1 (x :: l) fs3 fs4 wait k todo unsent) 2 x l (peer_queues q0 q1 (x :: l) fs3 fs4 wait) cl (p, k, c).
Proof.
  intros []. rewrite !Forall_app, Forall_cons in at_events0. destruct at_events0 as (He0&He1&[-> He2]).
  destruct at_receiver0 as (Hf&Hrd&Ha). pose proof at_sender0 as [Hwd Hs].
  apply (serves_given _ 2 (Size 0) l _ cl (p, k, c) (receiver p) (sender p) k c [] [] []); try done.
  - change (<[2%nat := l]> (peer_queues q0 q1 (void :: l) fs3 fs4 wait))
      with (peer_queues q0 q1 l fs3 fs4 wait).
    rewrite deliver_news, !app_nil_r.
    eapply (below_intro _ cl q0 q1 l fs3 fs4 wait _ _ _ heard todo sent unsent);
      [lowers|split; try done]. rewrite !Forall_app. by split_and!.
Qed.

(** A message is given to the client. *)
Lemma serves_message cl q0 q1 q2 fs3 fs4 m wait p k c heard todo sent unsent :
  peer_at cl q0 q1 q2 fs3 fs4 (m :: wait) p k c heard todo sent unsent ->
  serves_ok (rank cl q0 q1 q2 fs3 fs4 (m :: wait) k todo unsent) 5 (IsValue (Msg m)) ((fun m => IsValue (Msg m)) <$> wait)
    (peer_queues q0 q1 q2 fs3 fs4 (m :: wait)) cl (p, k, c).
Proof using writes writes_apart outgoing_ok laws client_ok coming_ok.
  intros [].
  assert (Hm : message_ok capacity Incoming limits m).
  { rewrite at_coming0, Forall_app, <- app_comm_cons, Forall_cons in coming_ok. apply coming_ok. }
  destruct (view_client stream_read stream_write announced_in announced_out gone source sunk Outgoing
    writes writes_apart outgoing_ok (client m c) (bool_decide (4%nat ∈ cl)) fs4 [] (sender p) k unsent
    (client_ok m c Hm) at_sender0)
    as (c'&w'&k'&new&unsent'&said&E&Hsay&Hfed&Hcl&(Hsrc&[Hin Hg]&Hsunk)&Hok&Hwakes&Hon);
    [by rewrite app_nil_r..|].
  rewrite bool_decide_eq_false in Hcl.
  destruct at_receiver0 as (Hf&Hrd&Ha). destruct Hfed as [Hnew Hsink].
  apply (serves_given _ 5 (Msg m) _ _ cl (p, k, c) (receiver p) w' k' c' [] new []); try done.
  - cbn [peer_func Pos.of_succ_nat]. by rewrite E.
  - change (<[5%nat := (fun m => IsValue (Msg m)) <$> wait]> (peer_queues q0 q1 q2 fs3 fs4 (m :: wait)))
      with (peer_queues q0 q1 q2 fs3 fs4 wait).
    rewrite deliver_news, !app_nil_r.
    eapply (below_intro _ cl q0 q1 q2 fs3 (fs4 ++ new) wait _ _ _ (heard ++ [m]) todo (sent ++ said)
      unsent'); [|split; try done].
    + pose proof (live_app (bool_decide (4%nat ∈ cl)) fs4 new). lowers.
    + intros H4. rewrite (at_closed_write0 H4). cbn. destruct new; [done|]. by destruct (Hcl ltac:(done)).
    + exact (reading_on_mono _ _ _ _ _ _ Hg at_reading0).
    + by rewrite at_coming0, <- app_assoc.
    + by econstructor.
    + by rewrite Hsrc.
    + by rewrite Hsunk, app_assoc, at_sunk0, stream_bytes_app, <- app_assoc.
    + intros Hn. destruct (at_read_wakes0 Hn); auto.
    + intros Hn. destruct (decide (write_task (writer (sender p)) = None)) as [Ht|Ht].
      * right. apply Hwakes; [|done]. by intros ?.
      * destruct (at_write_wakes0 Ht) as [?|?]; [by left|right]. apply Hwakes; [by intros _|done].
Qed.

(** A station that answers may be closed by it. *)
Lemma close_elem i j y cl : j ∈ close i y cl <-> j ∈ cl \/ j = i /\ is_critical (V := element) y = true.
Proof.
  unfold close. destruct (is_critical y); [|naive_solver]. rewrite elem_of_cons. naive_solver.
Qed.

Lemma close_forall i y cl :
  i = 3%nat \/ i = 4%nat -> Forall (fun i => i = 3%nat \/ i = 4%nat) cl ->
  Forall (fun i => i = 3%nat \/ i = 4%nat) (close i (V := element) y cl).
Proof. intros Hi Hcl. unfold close. destruct (is_critical y); [by constructor|done]. Qed.

Lemma close_same i y cl : i ∉ cl ->
  bool_decide (i ∈ close i y cl) = is_critical (V := element) y.
Proof.
  intros Hi. apply eq_bool_prop_intro. rewrite bool_decide_spec, close_elem.
  destruct (is_critical y); cbn; naive_solver.
Qed.

Lemma close_other i j y cl : j <> i ->
  bool_decide (j ∈ close i (V := element) y cl) = bool_decide (j ∈ cl).
Proof. intros Hj. apply bool_decide_ext. rewrite close_elem. naive_solver. Qed.

(** The function of [readDone] takes what was read. *)
Lemma serves_read_fed cl q0 q1 q2 n fs fs4 wait p k c heard todo sent unsent :
  peer_at cl q0 q1 q2 (Fed n :: fs) fs4 wait p k c heard todo sent unsent ->
  serves_ok (rank cl q0 q1 q2 (Fed n :: fs) fs4 wait k todo unsent) 3 (IsValue (Size n)) (of_fed <$> fs) (peer_queues q0 q1 q2 (Fed n :: fs) fs4 wait) cl (p, k, c).
Proof using reads reads_apart incoming_ok laws coming_ok.
  intros []. assert (Hcl : 3%nat ∉ cl) by (intros H3; by specialize (at_closed_read0 H3)).
  rewrite (bool_decide_eq_false_2 _ Hcl) in at_recv0.
  pose proof (recv_ok_one _ _ _ _ _ _ _ at_recv0 eq_refl) as ->.
  assert (Htodo : Forall (message_ok capacity Incoming limits) todo).
  { rewrite at_coming0, !Forall_app in coming_ok. apply coming_ok. }
  destruct (view_read_done stream_read stream_write announced_in announced_out gone source sunk capacity
    Incoming limits reads reads_apart incoming_ok n _ k todo future at_receiver0 Htodo at_recv0)
    as (e&r'&k'&ms&new&todo'&E&(->&Hin&Hnew&Ha&_&Hsunk&Hout&Hg)&Hcrit&Hok&Hwakes&Hon&Hcost).
  set (y := match e with Some e => IsError e | None => void end).
  assert (Hy : is_critical y = is_critical_error e) by (by destruct e).
  exists y, (news_of new [] ms), (drained (mkPeer r' (sender p)), k', c). split_and!.
  - rewrite <- (outbox_news r' (sender p) new [] ms Hnew (proj1 at_sender0) Hin). apply conv_gives.
    cbn [peer_func Pos.of_succ_nat]. by rewrite E.
  - done.
  - apply accepts_news; [by apply close_forall; [left|]| |done].
    intros Hn. rewrite close_elem. intros [?|[_ Hc]]; [done|]. rewrite Hy in Hc.
    by destruct (Hcrit Hc) as [_ ->].
  - change (<[3%nat := of_fed <$> []]> (peer_queues q0 q1 q2 [Fed n] fs4 wait))
      with (peer_queues q0 q1 q2 [] fs4 wait).
    rewrite deliver_news, !app_nil_r. cbn [app].
    eapply (below_intro _ (close 3 y cl) q0 q1 q2 new fs4 (wait ++ ms) _ _ _ heard todo' sent unsent);
      [|split].
    + destruct Hcost as [Hc1 Hc2]. unfold rank. rewrite (bool_decide_eq_false_2 _ Hcl), close_same, close_other, Hy by done.
      unfold close. rewrite Hy. unfold live. destruct (is_critical_error e) eqn:Hce.
      * destruct (Hcrit eq_refl) as [-> ->]. cbn [forallb is_fed andb]. lowers.
      * cbn [forallb is_fed andb]. destruct (forallb is_fed new) eqn:Hn; [specialize (Hc2 eq_refl)|]; lowers.
    + done.
    + by apply close_forall; [left|].
    + rewrite close_elem, Hy. intros [?|[_ Hc]]; [done|]. by destruct (Hcrit Hc) as [_ ->].
    + rewrite close_elem. by intros [?|[? _]]; [auto|].
    + rewrite close_same, Hy by done. exact Hon.
    + rewrite close_other by done. exact (writing_on_mono _ _ _ _ _ _ Hg at_writing0).
    + done.
    + by eapply view_drained_sender.
    + by rewrite <- app_assoc.
    + done.
    + rewrite close_same, Hy by done. exact Hok.
    + rewrite close_other by done. exact at_send0.
    + by rewrite Hsunk.
    + intros Hn. right. by apply Hwakes.
    + intros Hn. destruct (at_write_wakes0 Hn); auto.
Qed.

Lemma serves_read_failed cl q0 q1 q2 e fs fs4 wait p k c heard todo sent unsent :
  peer_at cl q0 q1 q2 (Failed e :: fs) fs4 wait p k c heard todo sent unsent ->
  serves_ok (rank cl q0 q1 q2 (Failed e :: fs) fs4 wait k todo unsent) 3 (IsError e) (of_fed <$> fs) (peer_queues q0 q1 q2 (Failed e :: fs) fs4 wait) cl (p, k, c).
Proof.
  intros []. assert (Hcl : 3%nat ∉ cl) by (intros H3; by specialize (at_closed_read0 H3)).
  rewrite (bool_decide_eq_false_2 _ Hcl) in at_recv0, at_reading0.
  pose proof (recv_ok_one _ _ _ _ _ _ _ at_recv0 eq_refl) as ->.
  destruct (view_read_failed _ _ _ _ _ _ _ at_recv0 at_reading0) as (Hcrit&Hok&Hon).
  exists (IsError e), [], (p, k, c). split_and!; [done|done|by apply Forall_nil_2|].
  eapply (below_intro _ (close 3 (V := element) (IsError e) cl) q0 q1 q2 [] fs4 wait p k c heard todo
    sent unsent); [|split; try done].
  - unfold rank. rewrite (bool_decide_eq_false_2 _ Hcl), close_same, close_other by done.
    unfold close, live. cbn [is_critical forallb is_fed andb]. rewrite Hcrit. lowers.
  - by apply close_forall; [left|].
  - rewrite close_elem. by intros [?|[? _]]; [auto|].
  - rewrite close_same by done. cbn [is_critical]. by rewrite Hcrit.
  - rewrite close_other by done. exact at_writing0.
  - rewrite close_same by done. cbn [is_critical]. by rewrite Hcrit.
  - rewrite close_other by done. exact at_send0.
Qed.

(** The function of [writeDone] goes on with the buffer. *)
Lemma serves_write_fed cl q0 q1 q2 fs3 n fs wait p k c heard todo sent unsent :
  peer_at cl q0 q1 q2 fs3 (Fed n :: fs) wait p k c heard todo sent unsent ->
  serves_ok (rank cl q0 q1 q2 fs3 (Fed n :: fs) wait k todo unsent) 4 (IsValue (Size n)) (of_fed <$> fs) (peer_queues q0 q1 q2 fs3 (Fed n :: fs) wait) cl (p, k, c).
Proof using writes writes_apart laws.
  intros []. assert (Hcl : 4%nat ∉ cl) by (intros H4; by specialize (at_closed_write0 H4)).
  rewrite (bool_decide_eq_false_2 _ Hcl) in at_send0.
  pose proof (send_ok_one _ _ _ _ _ at_send0 eq_refl) as ->.
  destruct (view_write_done stream_read stream_write announced_in announced_out gone source sunk
    writes writes_apart n _ k unsent at_sender0 at_send0)
    as (w'&k'&new&unsent'&E&Hfed&(Hsrc&[Hin Hg]&Hsunk)&Hok&Hwakes&Hon&Hcost).
  rewrite app_nil_r in Hsunk. destruct at_receiver0 as (Hf&Hrd&Ha). destruct Hfed as [Hnew Hsink].
  apply (serves_given _ 4 (Size n) _ _ cl (p, k, c) (receiver p) w' k' c [] new []); try done.
  - cbn [peer_func Pos.of_succ_nat]. by rewrite E.
  - change (<[4%nat := of_fed <$> []]> (peer_queues q0 q1 q2 fs3 [Fed n] wait))
      with (peer_queues q0 q1 q2 fs3 [] wait).
    rewrite deliver_news, !app_nil_r. cbn [app].
    eapply (below_intro _ cl q0 q1 q2 fs3 new wait _ _ _ heard todo sent unsent');
      [|split; try done].
    + destruct Hcost as [Hc1 Hc2]. pose proof (f_equal length Hsrc).
      unfold rank. rewrite (bool_decide_eq_false_2 _ Hcl). unfold live. cbn [forallb is_fed andb].
      destruct (forallb is_fed new) eqn:Hn; [specialize (Hc2 eq_refl)|]; lowers.
    + exact (reading_on_mono _ _ _ _ _ _ Hg at_reading0).
    + by rewrite (bool_decide_eq_false_2 _ Hcl).
    + by rewrite Hsrc.
    + by rewrite (bool_decide_eq_false_2 _ Hcl).
    + by rewrite Hsunk.
    + intros Hn. destruct (at_read_wakes0 Hn); auto.
    + intros Hn. right. by apply Hwakes.
Qed.

Lemma serves_write_failed cl q0 q1 q2 fs3 e fs wait p k c heard todo sent unsent :
  peer_at cl q0 q1 q2 fs3 (Failed e :: fs) wait p k c heard todo sent unsent ->
  serves_ok (rank cl q0 q1 q2 fs3 (Failed e :: fs) wait k todo unsent) 4 (IsError e) (of_fed <$> fs) (peer_queues q0 q1 q2 fs3 (Failed e :: fs) wait) cl (p, k, c).
Proof.
  intros []. assert (Hcl : 4%nat ∉ cl) by (intros H4; by specialize (at_closed_write0 H4)).
  rewrite (bool_decide_eq_false_2 _ Hcl) in at_send0, at_writing0.
  pose proof (send_ok_one _ _ _ _ _ at_send0 eq_refl) as ->.
  destruct (view_write_failed _ _ _ _ _ at_send0 at_writing0) as (Hcrit&Hok&Hon).
  exists (IsError e), [], (p, k, c). split_and!; [done|done|by apply Forall_nil_2|].
  eapply (below_intro _ (close 4 (V := element) (IsError e) cl) q0 q1 q2 fs3 [] wait p k c heard todo
    sent unsent); [|split; try done].
  - unfold rank. rewrite (bool_decide_eq_false_2 _ Hcl), close_same, close_other by done.
    unfold close, live. cbn [is_critical forallb is_fed andb]. rewrite Hcrit. lowers.
  - by apply close_forall; [right|].
  - rewrite close_elem. by intros [?|[? _]]; [auto|].
  - rewrite close_other by done. exact at_reading0.
  - rewrite close_same by done. cbn [is_critical]. by rewrite Hcrit.
  - rewrite close_other by done. exact at_recv0.
  - rewrite close_same by done. cbn [is_critical]. by rewrite Hcrit.
Qed.

(** Whatever is queued can be served, and then less is left to do. *)
Lemma peer_serves_below r i cs x l qs cl st :
  peer_ranked r (mkStations qs cl st) -> peer_css !! i = Some cs -> qs !! i = Some (x :: l) ->
  exists y ds st', convs_at func error_func cs x st = Ret (y, ds, st') /\
    (is_critical y = true -> l = []) /\ accepts peer_css (close i y cl) ds /\
    peer_below r (deliver_all ds (mkStations (<[i := l]> qs) (close i y cl) st')).
Proof using reads reads_apart writes writes_apart incoming_ok outgoing_ok laws client_ok coming_ok.
  intros (cl'&q0&q1&q2&fs3&fs4&wait&p&k&c&heard&todo&sent&unsent&[= -> -> ->]&Hat&->) Hcs Hi.
  unfold peer_css in Hcs.
  destruct i as [|[|[|[|[|[|i]]]]]]; [..|done]; injection Hcs as <-; injection Hi as Hi.
  - subst q0. by eapply serves_read_ready.
  - subst q1. by eapply serves_write_ready.
  - subst q2. by eapply serves_disconnected.
  - destruct fs3 as [|[n|e] fs3]; [done|..]; injection Hi as <- <-.
    + by eapply serves_read_fed.
    + by eapply serves_read_failed.
  - destruct fs4 as [|[n|e] fs4]; [done|..]; injection Hi as <- <-.
    + by eapply serves_write_fed.
    + by eapply serves_write_failed.
  - destruct wait as [|m wait]; [done|]. injection Hi as <- <-. by eapply serves_message.
Qed.

Lemma peer_serves i cs x l qs cl st :
  peer_inv (mkStations qs cl st) -> peer_css !! i = Some cs -> qs !! i = Some (x :: l) ->
  exists y ds st', convs_at func error_func cs x st = Ret (y, ds, st') /\
    (is_critical y = true -> l = []) /\ accepts peer_css (close i y cl) ds /\
    peer_inv (deliver_all ds (mkStations (<[i := l]> qs) (close i y cl) st')).
Proof using reads reads_apart writes writes_apart incoming_ok outgoing_ok laws client_ok coming_ok.
  intros [r Hr] Hcs Hi. destruct (peer_serves_below r _ _ _ _ _ _ _ Hr Hcs Hi)
    as (y&ds&st'&?&?&?&r'&_&?). exists y, ds, st'. split_and!; try done. by exists r'.
Qed.

(** A poll that gives no message and finds no failure moves bytes, or serves or
    closes what was queued. *)
Lemma serves_lower j r a b :
  peer_ranked r a -> nsteps (serve func error_func peer_css) j a b ->
  exists r', peer_ranked r' b /\ ((r'.1 < r.1)%nat \/ r'.1 = r.1 /\ (r'.2 + j <= r.2)%nat).
Proof using reads reads_apart writes writes_apart incoming_ok outgoing_ok laws client_ok coming_ok.
  intros Hr Hs. revert r Hr. induction Hs as [a|j a b c Hab _ IH]; intros r Hr.
  { exists r. split; [done|]. right. lia. }
  destruct Hab as [i cs x l y ds qs cl st st' Hcs Hi Hc].
  destruct (peer_serves_below r _ _ _ _ _ _ _ Hr Hcs Hi) as (y'&ds'&st2&Hc'&_&_&r1&Hlow&Hr1).
  rewrite Hc in Hc'. injection Hc' as <- <- <-.
  destruct (IH r1 Hr1) as (r2&Hr2&H2). exists r2. split; [done|]. unfold lower in Hlow. lia.
Qed.

(** *** What arrives *)

(** Events of the stream, while the kernel may have moved on without the peer. *)
Definition stream_events (ds : list (delivery element)) : Prop :=
  Forall (fun d => (d.1 < 3)%nat /\ d.2 = void) ds.

Lemma events_for i ds : stream_events ds -> (3 <= i)%nat -> for_station i ds = [].
Proof.
  intros Hd Hi. induction Hd as [|d ds [Hd _] _ IH]; [done|].
  rewrite for_station_cons, decide_False by lia. exact IH.
Qed.

Lemma events_void i ds : stream_events ds -> Forall (fun x => x = void) (for_station i ds).
Proof.
  intros Hd. induction Hd as [|d ds [_ Hv] _ IH]; [by apply Forall_nil_2|].
  rewrite for_station_cons. case_decide; [by apply Forall_cons|done].
Qed.

Lemma events_accepted cl ds :
  stream_events ds -> Forall (fun i => i = 3%nat \/ i = 4%nat) cl -> accepts peer_css cl ds.
Proof.
  intros Hd Hcl. eapply Forall_impl; [exact Hd|]. intros d [Hlt _]. split; [cbn; lia|].
  intros Hin. rewrite Forall_forall in Hcl. destruct (Hcl _ Hin); lia.
Qed.

Lemma deliver_events ds q0 q1 q2 fs3 fs4 wait cl st :
  stream_events ds ->
  deliver_all ds (mkStations (peer_queues q0 q1 q2 fs3 fs4 wait) cl st) =
  mkStations (peer_queues (q0 ++ for_station 0 ds) (q1 ++ for_station 1 ds) (q2 ++ for_station 2 ds)
    fs3 fs4 wait) cl (St := state) st.
Proof.
  intros Hd. unfold deliver_all. cbn [queues closed store]. f_equal.
  apply list_eq. intros i. rewrite deliver_all_lookup.
  do 3 (destruct i as [|i]; [done|]).
  do 3 (destruct i as [|i]; [cbn; rewrite events_for by (done || lia); by rewrite app_nil_r|]). done.
Qed.

Lemma for_stations_length ds :
  (length (for_station 0 ds) + length (for_station 1 ds) + length (for_station (V := element) 2 ds)
     <= length ds)%nat.
Proof.
  induction ds as [|[i x] ds IH]; [done|]. rewrite !for_station_cons. cbn [fst snd].
  repeat case_decide; cbn [app length]; lia.
Qed.

Lemma peer_arrives r qs cl p k k' c ds :
  peer_ranked r (mkStations qs cl (p, k, c)) -> stream_events ds ->
  source k' = source k -> sunk k' = sunk k -> (gone k -> gone k') ->
  (announced_in k -> announced_in k' \/ for_station 0 ds <> []) ->
  (announced_out k -> announced_out k' \/ for_station 1 ds <> []) ->
  accepts peer_css cl ds /\ exists r', peer_ranked r' (deliver_all ds (mkStations qs cl (p, k', c))) /\
    r'.1 = r.1 /\ (r'.2 <= r.2 + length ds)%nat.
Proof.
  intros (cl'&q0&q1&q2&fs3&fs4&wait&p'&k0&c'&heard&todo&sent&unsent&[= -> -> <- <- <-]&[]&->) Hd Hsrc Hsunk Hg Hin Hout.
  split; [by apply events_accepted|]. rewrite deliver_events by done.
  exists (rank cl' (q0 ++ for_station 0 ds) (q1 ++ for_station 1 ds) (q2 ++ for_station 2 ds) fs3 fs4
    wait k' todo unsent).
  split; [|pose proof (f_equal length Hsrc); pose proof (for_stations_length ds);
    unfold rank; cbn [fst snd]; rewrite !length_app; split; [done|lia]].
  exists cl', (q0 ++ for_station 0 ds), (q1 ++ for_station 1 ds), (q2 ++ for_station 2 ds), fs3, fs4,
    wait, p, k', c, heard, todo, sent, unsent. split; [done|]. split; [|done]. split; try done.
  - rewrite !Forall_app in *. destruct at_events0 as (?&?&?). split_and!; try done; by apply events_void.
  - exact (reading_on_mono _ _ _ _ _ _ Hg at_reading0).
  - exact (writing_on_mono _ _ _ _ _ _ Hg at_writing0).
  - by rewrite Hsrc.
  - by rewrite Hsunk.
  - intros Hn. destruct (at_read_wakes0 Hn) as [Hq|Ha].
    + left. intros [? _]%app_eq_nil. done.
    + destruct (Hin Ha) as [?|Hq]; [by right|left]. by intros [_ ?]%app_eq_nil.
  - intros Hn. destruct (at_write_wakes0 Hn) as [Hq|Ha].
    + left. intros [? _]%app_eq_nil. done.
    + destruct (Hout Ha) as [?|Hq]; [by right|left]. by intros [_ ?]%app_eq_nil.
Qed.

(** *** Nothing is queued *)
Lemma peer_queues_idle q0 q1 q2 fs3 fs4 wait cl (st : state) :
  idle (mkStations (peer_queues q0 q1 q2 fs3 fs4 wait) cl st) ->
  q0 = [] /\ q1 = [] /\ q2 = [] /\ fs3 = [] /\ fs4 = [] /\ wait = [].
Proof.
  unfold idle, peer_queues. cbn [queues].
  rewrite !Forall_cons. intros (?&?&?&H3&H4&H5&_). apply fmap_nil_inv in H3, H4, H5. by split_and!.
Qed.

Lemma peer_at_settled cl wait p k c heard todo sent unsent :
  peer_at cl [] [] [] [] [] wait p k c heard todo sent unsent ->
  settled announced_in announced_out gone source Incoming future p k todo unsent.
Proof.
  intros []. unfold settled. cbv zeta. split.
  - destruct (read_task (reader (receiver p))) as [task|] eqn:Et.
    + destruct at_recv0 as [_ [[E _]|(pend&[_ Hr]&Hinc&Hs)]]; [cbn in E; congruence|].
      cbn in Hr, Hinc, Hs. rewrite Et in Hr. destruct Hr as (m&_&->&_). split_and!; [done|done|].
      destruct at_read_wakes0 as [?|?]; [congruence|done|done].
    + destruct at_reading0 as (_&Hc&Hn). destruct (Hn Et) as [?|Hcl]; [done|]. by apply Hc.
  - destruct (write_task (writer (sender p))) as [task|] eqn:Et.
    + destruct at_write_wakes0 as [?|?]; [congruence|done|done].
    + destruct at_writing0 as (_&Hc&Hn). destruct (Hn Et) as [?|[Hcl|Hi]]; [done|left; by apply Hc|right].
      destruct at_send0 as (_&n&_&->). cbn [sender_view out_buffer]. rewrite Hi. apply drop_nil.
Qed.

(** *** The constructor *)
Lemma peer_begins inb k :
  fresh inb -> stream_bytes Incoming coming = source k ++ future ->
  exists r k' new, read_more stream_read
      (mkReceiver [] inb (mkReadHelper None (Some []) (buffer inb)) Alive) k = Ret (r, k') /\
    incoming_feeder r = [] /\ read_done (reader r) = Some new /\ sink_read r = Alive /\
    sunk k' = sunk k /\
    recv_ok Incoming (receiver_view false new r) coming (source k' ++ future) /\
    read_wakes announced_in r k' /\ reading_on gone false new r k'.
Proof using reads reads_apart incoming_ok laws.
  intros (Hwf&Hi&Hne) Hs. clear coming_ok. set (r0 := mkReceiver _ _ _ _).
  destruct (read_more_receiving stream_read source sunk reads reads_apart r0 k Hwf Hne eq_refl eq_refl
    eq_refl) as (r&k'&E&Hwf'&Hi'&Hin&Hsunk&Ha&_&Hst).
  assert (Hok : recv_ok Incoming r coming (source k' ++ future)).
  { split; [done|]. destruct Hst as [?|(pend&?&Hf)]; [by left|right]. exists pend.
    cbn [r0 in_buffer] in Hi'. rewrite Hi', Hi. split_and!; [done| |by rewrite Hs, Hf, <- app_assoc].
    destruct coming as [|m ms]; [done|]. cbn [incomplete]. rewrite zlen_nil, packet_len.
    pose proof (zlen_nonneg (encode_bytes Incoming m)). lia. }
  pose proof E as E0. apply read_more_inv in E0 as (_&_&h&task&Hh&Ht&Hmin&Hmax&E0). cbn in Hh.
  destruct (read_step stream_read stream_write announced_in announced_out gone source reads
    _ _ _ _ task E0 Hh Ht Hmin Hmax) as (new&Hnew&Hstep&_&_).
  exists r, k', new. split_and!; try done.
  - by apply recv_ok_fed.
  - by destruct Hstep as (_&_&_&?).
  - by eapply reading_step.
Qed.
End invariant.

(** The peer is constructed and the client has sent its first messages. *)
Lemma peer_begun {K C} (stream_read : Z -> K -> ErrorOr Z * list byte * K)
    (stream_write : list byte -> K -> ErrorOr Z * K) (announced_in announced_out gone : K -> Prop)
    (source sunk : K -> list byte) (Incoming Outgoing : schema)
    (client : message -> C -> client_prog C) (start : C -> client_prog C)
    (coming : list message) (future : list byte) inb outb p0 (k : K) (c : C) :
  reads_law stream_read source -> reads_keep stream_read sunk ->
  writes_law stream_write sunk -> writes_keep stream_write source ->
  schema.ok Incoming = true -> schema.ok Outgoing = true ->
  wake_laws stream_read stream_write announced_in announced_out gone ->
  sendable Outgoing (start c) -> fresh inb -> fresh outb ->
  stream_bytes Incoming coming = source k ++ future ->
  exists said c1 p k1 ds,
    begin_peer stream_read stream_write Outgoing inb outb start 1 tt (p0, k, c) =
      Ret (tt, ds, (p, k1, c1)) /\
    says (start c) said c1 /\ accepts peer_css [] ds /\
    peer_inv announced_in announced_out gone source sunk Incoming Outgoing client
      coming future (sunk k ++ stream_bytes Outgoing said) c1
      (deliver_all ds (mkStations (replicate 6 []) [] (p, k1, c1))).
Proof.
  intros Hr Hra Hw Hwa Hin Hout Hlaws Hstart Hib Hob Hs.
  destruct (peer_begins stream_read stream_write announced_in announced_out gone source sunk
    Incoming Hr Hra Hin coming future inb k Hib Hs)
    as (r&k1&new3&E1&Hf&Hn3&Ha&Hsunk&Hok&Hwakes&Hon).
  set (w0 := mkSender outb (mkWriteHelper None (Some []) (buffer outb)) Alive).
  assert (Hfed0 : sender_fed [] w0) by done. destruct Hob as (Hwf&Ho&_).
  pose proof (new_sender_ok outb Hwf Ho) as Hw0.
  destruct (view_client stream_read stream_write announced_in announced_out gone source sunk Outgoing
    Hw Hwa Hout (start c) false [] [] w0 k1 [] Hstart Hfed0)
    as (c1&w1&k2&new4&unsent&said&E2&Hsay&Hfed&_&(Hsrc&[Hai Hg]&Hsk)&Hsend&Hww&Hwon).
  { cbn [app]. by rewrite sender_view_id. }
  { split_and!; [by apply Forall_nil_2|done|]. intros _. right. by right. }
  exists said, c1, (drained (mkPeer r w1)), k2, (news_of new3 new4 []). split; [|split; [done|split]].
  - unfold begin_peer, new_peer. fold w0. rewrite E1, !bind_ret. cbn [sender receiver].
    rewrite E2, bind_ret. unfold give. by rewrite (outbox_news r w1 new3 new4 [] Hn3 (proj1 Hfed) Hf).
  - by apply accepts_news; [apply Forall_nil_2|intros _; apply not_elem_of_nil..].
  - change (replicate 6 []) with (peer_queues [] [] [] [] [] []). rewrite deliver_news.
    eexists. exists [], [], [], [], new3, new4, [], (drained (mkPeer r w1)), k2, c1, [], coming, [], unsent.
    split; [done|]. split; [|reflexivity]. split; try done.
    + by intros ?%not_elem_of_nil.
    + by intros ?%not_elem_of_nil.
    + exact (reading_on_mono _ _ _ _ _ _ Hg Hon).
    + by eapply view_drained_sender.
    + constructor.
    + by rewrite Hsrc.
    + rewrite Hsk, Hsunk, <- app_assoc. f_equal. unfold stream_bytes. cbn. by rewrite !app_nil_r.
    + intros Hn. right. by apply Hai, Hwakes.
    + intros Hn. right. by apply Hww; [intros ?|].
Qed.
