(* ===== verification/PeerLoop.v ===== *)
(** A [StreamingIoPeer] over a Unix socket on the event loop: every layer of the
    program at work, from [epoll] to the messages of a client. *)

From S2P Require Import Prelude Error Buffer RingBuffer ProtoKel ProtoKelDecode ProtoKelCodec IoHelpers Message MessageAccess.
From stdpp Require Import gmap list relations.
From S2P Require Import EventLoop EventQueue Conveyor ConveyorRules ConveyorPipeline Stations.
From S2P Require Import UnixIo UnixTheory AsyncStream AsyncLoop IoPeer IoPeerTheory IoPeerLink SocketPeers UnixPort UnixLoop PeerStations PeerServing.
#[local] Open Scope Z_scope.
#[local] Abbreviation length := List.length.

(** The client of a peer: it sets up the stream with its conveyors, builds the peer,
    sends its first messages, and calls the loop. *)
Definition unix_peer {K C} recv send errno epoll_wait read_signal recv_pipe pipe_open
    rounds fuel now owner on_signal wake (capacity : Z) (Incoming Outgoing : schema)
    (limits : Limits) (client : message -> C -> client_prog C) (start : C -> client_prog C)
    (inb outb : RingBuffer) (calls : list (loop_call * (K -> K)))
    (w : world element (StreamingIoPeer * K * C)) : outcome (world element (StreamingIoPeer * K * C)) :=
  let base := free_base w in
  let stream_read := UnixIoStream_read recv in
  let stream_write := UnixIoStream_write send errno in
  w ← open_stations peer_css w;
  '(_, w) ← run (feeding base (begin_peer stream_read stream_write Outgoing inb outb start) 1%positive tt) w;
  ask_loops
    (feeding base (peer_func stream_read stream_write capacity Incoming Outgoing limits client))
    (feeding base peer_error)
    (unix_event_port epoll_wait read_signal recv_pipe pipe_open rounds fuel now
       peer_feeds owner base on_signal wake) calls w.

(** ** What is known of the kernel *)

(** [recv] answers 0, or [send] an error that does not ask to try again, only when
    the connection is gone, and it stays gone. *)
Class hangup_laws {K : Type} (recv : Z -> K -> Z * list byte * K) (send : list byte -> K -> Z * K)
    (errno : K -> Z) (epoll_wait : Z -> Z -> K -> outcome (option (list epoll_event) * K))
    (read_signal recv_pipe : K -> option Z * K) (hung_up : K -> Prop) : Prop := {
  recv_hung n k bytes k' : 0 < n -> recv n k = (0, bytes, k') -> hung_up k';
  send_hung bytes k rc k' : 0 < zlen bytes -> send bytes k = (rc, k') -> rc <= 0 ->
    errno k' <> EAGAIN -> errno k' <> EWOULDBLOCK -> hung_up k';
  recv_no_return n k : hung_up k -> hung_up (recv n k).2;
  send_no_return bytes k : hung_up k -> hung_up (send bytes k).2;
  epoll_no_return n time k r k' : hung_up k -> epoll_wait n time k = Ret (r, k') -> hung_up k';
  signal_no_return k : hung_up k -> hung_up (read_signal k).2;
  pipe_no_return k : hung_up k -> hung_up (recv_pipe k).2
}.

Section kernel.
Context {K : Type}.
Context (recv : Z -> K -> Z * list byte * K) (send : list byte -> K -> Z * K) (errno : K -> Z).
Context (epoll_wait : Z -> Z -> K -> outcome (option (list epoll_event) * K)).
Context (read_signal : K -> option Z * K) (recv_pipe : K -> option Z * K).
Context (rounds fuel : nat) (owner : Z).
Context (source sunk : K -> list byte).
Context (ready : K -> list epoll_event) (signals : K -> list Z) (piped : K -> nat).
Context (readable writable : K -> bool) (hung_up : K -> Prop).
Context (laws : kernel_laws recv send errno epoll_wait read_signal recv_pipe rounds fuel owner
  source sunk ready signals piped readable writable).
Context (hangs : hangup_laws recv send errno epoll_wait read_signal recv_pipe hung_up).
#[local] Abbreviation sread := (UnixIoStream_read recv).
#[local] Abbreviation swrite := (UnixIoStream_write send errno).
#[local] Abbreviation ann_in := (announced_in owner ready readable).
#[local] Abbreviation ann_out := (announced_out owner ready writable).

(** A Unix socket keeps the promises a peer relies on. *)
Lemma socket_wakes : wake_laws sread swrite ann_in ann_out hung_up.
Proof using laws hangs.
  split.
  - intros. eapply sread_busy; eassumption.
  - intros. eapply swrite_busy; eassumption.
  - intros n k e bytes k' Hn. unfold UnixIoStream_read.
    destruct (recv n k) as [[rc bs] k1] eqn:E. repeat bcase; [done| |by intros [= <- _ _]].
    intros [= _ _ <-] _. assert (rc = 0) as -> by lia. eapply recv_hung; eassumption.
  - intros bytes k e k' Hn. unfold UnixIoStream_write.
    destruct (send bytes k) as [rc k1] eqn:E. bcase; [done|].
    destruct ((errno k1 =? EAGAIN) || (errno k1 =? EWOULDBLOCK)) eqn:He; [by intros [= <- _]|].
    intros [= _ <-] _. apply orb_false_iff in He. rewrite !Z.eqb_neq in He.
    eapply send_hung; [eassumption..|lia| |]; apply He.
  - intros. eapply sread_keeps_out; eassumption.
  - intros. eapply swrite_keeps_in; eassumption.
  - intros n k H. pose proof (recv_no_return n k H) as H'. unfold UnixIoStream_read.
    destruct (recv n k) as [[rc bs] k1]. by repeat bcase.
  - intros bytes k H. pose proof (send_no_return bytes k H) as H'. unfold UnixIoStream_write.
    destruct (send bytes k) as [rc k1]. by repeat bcase.
Qed.

#[local] Abbreviation told := (UnixLoop.told (V := element) owner peer_feeds).

Lemma told_events evs : stream_events (told evs).
Proof.
  unfold UnixLoop.told. apply Forall_concat, Forall_fmap, Forall_forall. intros mask _.
  unfold peer_feeds. apply Forall_fmap, Forall_forall. intros ev _. cbn.
  split; [destruct ev; cbn; lia|done].
Qed.

Lemma told_length evs : zlen evs <= 10922 -> zlen (told evs) <= 32766.
Proof.
  intros Hl. assert (Hn : (length (told evs) <= 3 * length evs)%nat).
  { unfold UnixLoop.told. clear Hl. induction evs as [|ev evs IH]; [done|].
    rewrite filter_cons. case_decide; [|cbn [length]; lia].
    rewrite !fmap_cons. cbn [concat length]. rewrite length_app. unfold peer_feeds at 1.
    rewrite length_fmap. unfold mask_events. rewrite !length_app.
    repeat (destruct (has_flag _ _); cbn [length]; try lia). }
  unfold zlen in *. lia.
Qed.

(** An event that is reported reaches its station. *)
Lemma told_arrives evs flag ev :
  Exists (fun e => data e = owner /\ has_flag (UnixIo.events e) flag = true) evs ->
  (forall mask, has_flag mask flag = true -> ev ∈ mask_events mask) ->
  for_station (event_station ev) (told evs) <> [].
Proof.
  intros Hex Hin E. apply Exists_exists in Hex as (e&He&Hd&Hf).
  assert (Hx : void ∈ for_station (event_station ev) (told evs)).
  { unfold for_station. apply list_elem_of_fmap. exists (event_station ev, void). split; [done|].
    apply list_elem_of_filter. split; [done|]. unfold UnixLoop.told.
    apply list_elem_of_In, in_concat. exists (peer_feeds (UnixIo.events e)).
    rewrite <- !list_elem_of_In. split.
    - apply list_elem_of_fmap_2, list_elem_of_fmap_2. by apply list_elem_of_filter.
    - apply list_elem_of_fmap. exists ev. split; [done|]. by apply Hin. }
  rewrite E in Hx. by apply not_elem_of_nil in Hx.
Qed.

(** [pollImpl] reports everything that is announced, and nothing else changes. *)
Lemma poll_tells_peer time pipe_open k :
  blocks time (ready k) = false ->
  exists k' ds, pollImpl epoll_wait read_signal recv_pipe pipe_open (notify_owner peer_feeds owner)
      (fun _ fed => fed) rounds fuel time k [] = Ret (true, k', ds) /\
    stream_events ds /\ zlen ds <= 32766 /\ source k' = source k /\ sunk k' = sunk k /\ (hung_up k -> hung_up k') /\
    (ann_in k -> ann_in k' \/ for_station 0 ds <> []) /\
    (ann_out k -> ann_out k' \/ for_station 1 ds <> []).
Proof using laws hangs.
  intros Hb. destruct (port_tells recv send errno epoll_wait read_signal recv_pipe rounds fuel owner
    source sunk ready signals piped readable writable laws peer_feeds k time pipe_open Hb)
    as (k'&Hp&E1&E2&E3&E4).
  exists k', (told (ready k)). split_and!; [done|apply told_events|by apply told_length, kernel_ready|done|done|..].
  - intros Hg. apply (pollImpl_keeps epoll_wait read_signal recv_pipe pipe_open
      (notify_owner peer_feeds owner) (fun _ fed => fed) hung_up) in Hp; [done|..|done].
    + intros n t x r x' Hx E. exact (epoll_no_return _ _ _ _ _ Hx E).
    + exact signal_no_return.
    + exact pipe_no_return.
  - intros Ha. destruct (readable k) eqn:Hr; [right|left; unfold announced_in, announced; congruence].
    apply (told_arrives _ EPOLLIN AsyncStream.ReadReady (Ha Hr)).
    intros mask Hm. unfold mask_events. rewrite Hm. set_solver.
  - intros Ha. destruct (writable k) eqn:Hr; [right|left; unfold announced_out, announced; congruence].
    apply (told_arrives _ EPOLLOUT AsyncStream.WriteReady (Ha Hr)).
    intros mask Hm. unfold mask_events. rewrite Hm. set_solver.
Qed.
End kernel.

(** ** The peer on the loop *)
Section peer.
Context {K C : Type}.
Context (recv : Z -> K -> Z * list byte * K) (send : list byte -> K -> Z * K) (errno : K -> Z).
Context (epoll_wait : Z -> Z -> K -> outcome (option (list epoll_event) * K)).
Context (read_signal : K -> option Z * K) (recv_pipe : K -> option Z * K) (pipe_open : bool).
Context (rounds fuel : nat) (now owner : Z).
#[local] Abbreviation state := (StreamingIoPeer * K * C)%type.
Context (on_signal : Z -> outcome (net element state) -> prog (outcome (net element state))).
Context (wake : outcome (net element state) -> prog (outcome (net element state))).
Context (source sunk : K -> list byte).
Context (ready : K -> list epoll_event) (signals : K -> list Z) (piped : K -> nat).
Context (readable writable : K -> bool) (hung_up : K -> Prop).
Context (laws : kernel_laws recv send errno epoll_wait read_signal recv_pipe rounds fuel owner
  source sunk ready signals piped readable writable).
Context (hangs : hangup_laws recv send errno epoll_wait read_signal recv_pipe hung_up).
Context (capacity : Z) (Incoming Outgoing : schema) (limits : Limits).
Context (client : message -> C -> client_prog C).
Context (incoming_ok : schema.ok Incoming = true) (outgoing_ok : schema.ok Outgoing = true).
Context (client_ok : forall m c, message_ok capacity Incoming limits m -> sendable Outgoing (client m c)).
Context (coming : list message) (future sunk0 : list byte) (c0 : C) (base : nat).
Context (coming_ok : Forall (message_ok capacity Incoming limits) coming).
#[local] Abbreviation sread := (UnixIoStream_read recv).
#[local] Abbreviation swrite := (UnixIoStream_write send errno).
#[local] Abbreviation ann_in := (announced_in owner ready readable).
#[local] Abbreviation ann_out := (announced_out owner ready writable).
#[local] Abbreviation inv := (peer_inv ann_in ann_out hung_up source sunk Incoming Outgoing client coming future sunk0 c0).
#[local] Abbreviation ranked := (peer_ranked ann_in ann_out hung_up source sunk Incoming Outgoing
  client coming future sunk0 c0).
#[local] Abbreviation pfunc := (peer_func sread swrite capacity Incoming Outgoing limits client).
#[local] Abbreviation perror := (peer_error (K := K) (C := C)).
#[local] Abbreviation port := (unix_event_port epoll_wait read_signal recv_pipe pipe_open rounds fuel
  now peer_feeds owner base on_signal wake).
#[local] Abbreviation call_ok := (call_ok owner source sunk ready readable writable now).

(** A call of the loop, while the kernel moves on. *)
Definition peer_call_ok (call : loop_call * (K -> K)) : Prop :=
  call_ok call /\ forall k, hung_up k -> hung_up (call.2 k).

(** What is left to do is done, or less is left, whatever the call has reported. *)
Definition gets_on (rk : nat * nat) (closing : list nat) (a : stations element state)
    (rk' : nat * nat) (closing' : list nat) (a' : stations element state) : Prop :=
  idle a' /\ closing' = [] \/
  (rk'.1 < rk.1)%nat \/
  rk'.1 = rk.1 /\ (rk'.2 + length closing' + length (closed a) <
    rk.2 + length closing + length (closed a'))%nat.

Lemma peer_call rk closing call env w a :
  peer_call_ok (call, env) -> held peer_css base closing w a -> ranked rk a ->
  exists w' a' closing' rk', ask_loop (feeding base pfunc) (feeding base perror) port call
      (set_kernel env w) = Ret (true, w') /\ held peer_css base closing' w' a' /\ ranked rk' a' /\
    gets_on rk closing a rk' closing' a'.
Proof using laws hangs incoming_ok outgoing_ok client_ok coming_ok.
  intros [(He&_&Hb) Hg] Hw Hinv. cbn [fst snd] in *.
  pose proof (socket_wakes _ _ _ _ _ _ _ _ _ _ _ _ _ _ _ _ _ laws hangs) as Hwakes.
  destruct a as [qs cl [[p k] c]]. destruct (He k) as (Hs0&Hk0&Hi0&Ho0).
  destruct (poll_tells_peer recv send errno epoll_wait read_signal recv_pipe rounds fuel owner source
    sunk ready signals piped readable writable hung_up laws hangs (call_time now call) pipe_open
    (env k) (Hb k)) as (k'&ds&Hp&Hev&Hds&Hs&Hk&Hh&Hi&Ho).
  destruct (peer_arrives ann_in ann_out hung_up source sunk Incoming Outgoing client
    coming future sunk0 c0 rk qs cl p k k' c ds Hinv Hev) as (Hacc&r1&Hr1&Hr11&Hr12);
    [by rewrite Hs|by rewrite Hk|auto..|].
  pose proof (held_set _ _ _ _ _ _ _ (p, k', c) Hw) as Hw'.
  destruct (world_feed _ _ _ _ _ ds Hw' Hacc) as (w1&Hf&Hw1).
  destruct (world_turns pfunc perror peer_css base inv _ _ _
    (peer_serves sread swrite ann_in ann_out hung_up source sunk capacity Incoming Outgoing limits
      client (socket_reads _ _ _ kernel_recv) (socket_reads_keep _ _ recv_sends_nothing)
      (socket_writes _ _ _ kernel_send) (socket_writes_keep _ _ _ send_receives_nothing)
      incoming_ok outgoing_ok client_ok coming future sunk0 c0 coming_ok) Hw1 (ex_intro _ r1 Hr1))
    as (w2&a2&closing'&j&m&Hpoll&Hw2&_&Hsteps&Hclosed&Hend).
  destruct (serves_lower sread swrite ann_in ann_out hung_up source sunk capacity Incoming Outgoing
    limits client (socket_reads _ _ _ kernel_recv) (socket_reads_keep _ _ recv_sends_nothing)
    (socket_writes _ _ _ kernel_send) (socket_writes_keep _ _ _ send_receives_nothing)
    incoming_ok outgoing_ok client_ok coming future sunk0 c0 coming_ok _ _ _ _ Hr1 Hsteps)
    as (r2&Hr2&Hlow).
  exists w2, a2, closing', r2. split; [|split; [done|split; [done|]]].
  - rewrite <- Hpoll. pose proof (held_user _ _ _ _ _ Hw) as Hu.
    eapply ask_loop_polls; [|exact Hp|].
    + unfold set_kernel. cbn [conveyors set_user user]. by rewrite Hu.
    + unfold set_kernel. cbn [conveyors loop]. exact Hf.
  - unfold gets_on. destruct Hend as [Hjm|?]; [right|by left].
    cbn [deliver_all closed] in *. unfold zlen in Hds. lia.
Qed.

Lemma peer_calls calls closing w a :
  Forall peer_call_ok calls -> held peer_css base closing w a -> inv a ->
  exists w' a' closing', ask_loops (feeding base pfunc) (feeding base perror) port calls w = Ret w' /\
    held peer_css base closing' w' a' /\ inv a'.
Proof using laws hangs incoming_ok outgoing_ok client_ok coming_ok.
  intros Hc. revert closing w a. induction Hc as [|[call env] calls Hcall _ IH]; intros closing w a Hw [r Hr].
  { exists w, a, closing. split_and!; [done|done|by exists r]. }
  destruct (peer_call r closing call env w a Hcall Hw Hr) as (w1&a1&c1&r1&E&Hw1&Hr1&_).
  destruct (IH _ w1 a1 Hw1 (ex_intro _ r1 Hr1)) as (w2&a2&c2&E2&?). exists w2, a2, c2. split; [|done].
  cbn [ask_loops]. by rewrite E, bind_ret.
Qed.

(** Calls that follow one another. *)
Lemma peer_catches_on (calls : nat -> loop_call * (K -> K)) messages bytes :
  (forall i, peer_call_ok (calls i)) -> forall i rk closing w a,
  held peer_css base closing w a -> ranked rk a ->
  (rk.1 <= messages)%nat -> (rk.2 + length closing <= bytes + length (closed a))%nat ->
  exists n w' a', ask_loops (feeding base pfunc) (feeding base perror) port (calls <$> seq i n) w =
      Ret w' /\ held peer_css base [] w' a' /\ inv a' /\ idle a'.
Proof using laws hangs incoming_ok outgoing_ok client_ok coming_ok.
  intros Hcalls. revert bytes. induction messages as [messages IHm] using lt_wf_ind.
  intros bytes. induction bytes as [bytes IHb] using lt_wf_ind.
  intros i rk closing w a Hw Hr Hm Hb. destruct (calls i) as [call env] eqn:Ei.
  destruct (peer_call rk closing call env w a) as (w1&a1&cl1&r1&E&Hw1&Hr1&Hon);
    [by rewrite <- Ei|done|done|].
  assert (Hstep : forall n w', ask_loops (feeding base pfunc) (feeding base perror) port
      (calls <$> seq (S i) n) w1 = Ret w' ->
    ask_loops (feeding base pfunc) (feeding base perror) port (calls <$> seq i (S n)) w = Ret w').
  { intros n w' En. cbn [seq]. rewrite fmap_cons, Ei. cbn [ask_loops]. by rewrite E, bind_ret. }
  assert (Hcl1 : (length (closed a1) <= r1.2)%nat) by (by eapply ranked_closed).
  destruct Hon as [[Hidle ->]|[Hlt|[Heq Hlt]]].
  - exists 1%nat, w1, a1. split; [by apply Hstep|]. split; [done|]. split; [by exists r1|done].
  - destruct (IHm (r1.1) ltac:(lia) (r1.2 + length cl1)%nat (S i) r1 cl1 w1 a1 Hw1 Hr1)
      as (n&w'&a'&En&?); [lia..|]. exists (S n), w', a'. split; [by apply Hstep|done].
  - destruct (IHb (r1.2 + length cl1 - length (closed a1))%nat ltac:(lia) (S i) r1 cl1 w1 a1 Hw1 Hr1)
      as (n&w'&a'&En&?); [lia..|]. exists (S n), w', a'. split; [by apply Hstep|done].
Qed.
End peer.

(** ** From the beginning *)
Section start.
Context {K C : Type}.
Context (recv : Z -> K -> Z * list byte * K) (send : list byte -> K -> Z * K) (errno : K -> Z).
Context (epoll_wait : Z -> Z -> K -> outcome (option (list epoll_event) * K)).
Context (read_signal : K -> option Z * K) (recv_pipe : K -> option Z * K) (pipe_open : bool).
Context (rounds fuel : nat) (now owner : Z).
#[local] Abbreviation state := (StreamingIoPeer * K * C)%type.
Context (on_signal : Z -> outcome (net element state) -> prog (outcome (net element state))).
Context (wake : outcome (net element state) -> prog (outcome (net element state))).
Context (source sunk : K -> list byte).
Context (ready : K -> list epoll_event) (signals : K -> list Z) (piped : K -> nat).
Context (readable writable : K -> bool) (hung_up : K -> Prop).
Context (laws : kernel_laws recv send errno epoll_wait read_signal recv_pipe rounds fuel owner
  source sunk ready signals piped readable writable).
Context (hangs : hangup_laws recv send errno epoll_wait read_signal recv_pipe hung_up).
Context (capacity : Z) (Incoming Outgoing : schema) (limits : Limits).
Context (client : message -> C -> client_prog C) (start : C -> client_prog C).
Context (incoming_ok : schema.ok Incoming = true) (outgoing_ok : schema.ok Outgoing = true).
Context (coming : list message) (future : list byte) (inb outb : RingBuffer).
Context (p0 : StreamingIoPeer) (k : K) (c : C) (w : world element state).
Context (start_ok : sendable Outgoing (start c)) (in_fresh : fresh inb) (out_fresh : fresh outb).
Context (all_bytes : stream_bytes Incoming coming = source k ++ future).
Context (empty : repr (loop w) empty_queue) (inside : entered (loop w)).
Context (nothing : user (conveyors w) = (p0, k, c)).
#[local] Abbreviation base := (free_base w).
#[local] Abbreviation inv := (peer_inv (announced_in owner ready readable)
  (announced_out owner ready writable) hung_up source sunk Incoming Outgoing client coming future).

(** The client has set everything up and may call the loop. *)
Lemma peer_starts :
  exists said c1 w2 a,
    (forall calls, unix_peer recv send errno epoll_wait read_signal recv_pipe pipe_open rounds fuel
        now owner on_signal wake capacity Incoming Outgoing limits client start inb outb calls w =
      ask_loops
        (feeding base (peer_func (UnixIoStream_read recv) (UnixIoStream_write send errno)
           capacity Incoming Outgoing limits client))
        (feeding base peer_error)
        (unix_event_port epoll_wait read_signal recv_pipe pipe_open rounds fuel now peer_feeds owner
           base on_signal wake) calls w2) /\
    says (start c) said c1 /\ held peer_css base [] w2 a /\
    inv (sunk k ++ stream_bytes Outgoing said) c1 a.
Proof using laws hangs incoming_ok outgoing_ok start_ok in_fresh out_fresh all_bytes empty inside nothing.
  pose proof (socket_wakes _ _ _ _ _ _ _ _ _ _ _ _ _ _ _ _ _ laws hangs) as Hwakes.
  destruct (peer_begun (UnixIoStream_read recv) (UnixIoStream_write send errno) _ _ hung_up source
    sunk Incoming Outgoing client start coming future inb outb p0 k c
    (socket_reads _ _ _ kernel_recv) (socket_reads_keep _ _ recv_sends_nothing)
    (socket_writes _ _ _ kernel_send) (socket_writes_keep _ _ _ send_receives_nothing)
    incoming_ok outgoing_ok Hwakes start_ok in_fresh out_fresh all_bytes)
    as (said&c1&p1&k1&ds&Hbegin&Hsay&Hacc&Hinv).
  destruct (stations_open peer_css w empty inside) as (w1&Hopen&Hw1).
  unfold empty_stations in Hw1. rewrite nothing in Hw1.
  destruct (world_call peer_css base _ 1%positive tt [] w1 _ _ _ _ _ _ Hw1 Hbegin Hacc)
    as (w2&Hrun&Hw2).
  exists said, c1, w2. eexists. split; [|by split_and!].
  intros calls. unfold unix_peer. cbv zeta. by rewrite Hopen, bind_ret, Hrun, bind_ret.
Qed.

(** What the world says at any time. *)
Lemma peer_at_any_time closing w3 a said c1 :
  held peer_css base closing w3 a -> inv (sunk k ++ stream_bytes Outgoing said) c1 a ->
  exists q p k' c2 heard waiting todo sent unsent,
    repr (loop w3) q /\ user (conveyors w3) = (p, k', c2) /\
    coming = heard ++ waiting ++ todo /\ converses client c1 heard sent c2 /\
    sunk k' ++ unsent = sunk k ++ stream_bytes Outgoing (said ++ sent) /\
    (items q = [] -> idle a) /\
    (idle a -> waiting = [] /\
       settled (announced_in owner ready readable) (announced_out owner ready writable) hung_up
         source Incoming future p k' todo unsent).
Proof using.
  intros Hw3 (rk&cl&q0&q1&q2&fs3&fs4&wait&p&k'&c2&heard&todo&sent&unsent&->&Hat&_).
  destruct (world_quiet _ _ _ _ _ Hw3) as (q&Hq&Hu3&Hquiet).
  exists q, p, k', c2, heard, wait, todo, sent, unsent. pose proof Hat as []. split_and!; try done.
  { by rewrite at_sunk, stream_bytes_app, app_assoc. }
  { intros Hi. by destruct (Hquiet Hi). }
  intros Hidle. destruct (peer_queues_idle _ _ _ _ _ _ _ _ Hidle) as (->&->&->&->&->&->).
  split; [done|]. by eapply peer_at_settled.
Qed.
End start.

(** ** Properties *)

(** C2: No message is lost between the kernel and the client.  A client builds a
    [StreamingIoPeer] over a socket, whose other end sends the messages [coming]; it
    sends messages of its own at first and whenever it is given one, and calls
    [poll], [wait] or a timed wait of the event loop any number of times, while data
    arrives and room is made in the kernel, which reports it edge-triggered.  The
    messages are within the packet limit; a call has something to report where it
    waits without limit, and never exactly a multiple of 256 events, with which
    [pollImpl] would wait again.  Then every call returns.  At every time the client has been given a beginning of the
    messages, in order and each as it was sent, the next ones wait at its conveyor,
    and the socket has taken a beginning of the packets of what [send] accepted.
    When no event is armed, the client has been given everything that was read: the
    rest is not a packet yet and reading and writing wait for what the kernel is
    about to report - unless the connection is gone, everything is written, or the
    incoming buffer was full at once, which ends the reading. *)
Theorem unix_peer_on_loop {K C} (recv : Z -> K -> Z * list byte * K)
    (send : list byte -> K -> Z * K) (errno : K -> Z)
    (epoll_wait : Z -> Z -> K -> outcome (option (list epoll_event) * K))
    (read_signal recv_pipe : K -> option Z * K) (pipe_open : bool) (rounds fuel : nat)
    (now owner : Z) on_signal wake (source sunk : K -> list byte) (ready : K -> list epoll_event)
    (signals : K -> list Z) (piped : K -> nat) (readable writable : K -> bool) (hung_up : K -> Prop)
    (capacity : Z) (Incoming Outgoing : schema) (limits : Limits)
    (client : message -> C -> client_prog C) (start : C -> client_prog C)
    (coming : list message) (future : list byte) (inb outb : RingBuffer)
    (calls : list (loop_call * (K -> K))) (p0 : StreamingIoPeer) (k : K) (c : C)
    (w : world element (StreamingIoPeer * K * C)) :
  kernel_laws recv send errno epoll_wait read_signal recv_pipe rounds fuel owner
    source sunk ready signals piped readable writable ->
  hangup_laws recv send errno epoll_wait read_signal recv_pipe hung_up ->
  schema.ok Incoming = true -> schema.ok Outgoing = true ->
  (forall m c, message_ok capacity Incoming limits m -> sendable Outgoing (client m c)) ->
  sendable Outgoing (start c) -> fresh inb -> fresh outb ->
  Forall (message_ok capacity Incoming limits) coming ->
  stream_bytes Incoming coming = source k ++ future ->
  Forall (peer_call_ok now owner source sunk ready readable writable hung_up) calls ->
  repr (loop w) empty_queue -> entered (loop w) -> user (conveyors w) = (p0, k, c) ->
  exists w2 q p k' c1 c2 said heard waiting todo sent unsent,
    unix_peer recv send errno epoll_wait read_signal recv_pipe pipe_open rounds fuel now owner
      on_signal wake capacity Incoming Outgoing limits client start inb outb calls w = Ret w2 /\
    repr (loop w2) q /\ user (conveyors w2) = (p, k', c2) /\
    coming = heard ++ waiting ++ todo /\
    says (start c) said c1 /\ converses client c1 heard sent c2 /\
    sunk k' ++ unsent = sunk k ++ stream_bytes Outgoing (said ++ sent) /\
    (items q = [] -> waiting = [] /\
       settled (announced_in owner ready readable) (announced_out owner ready writable) hung_up
         source Incoming future p k' todo unsent).
Proof.
  intros Hlaws Hhang Hin Hout Hclient Hstart Hib Hob Hall Hs Hcalls Hr He Hu.
  destruct (peer_starts recv send errno epoll_wait read_signal recv_pipe pipe_open rounds fuel now
    owner on_signal wake source sunk ready signals piped readable writable hung_up Hlaws Hhang
    capacity Incoming Outgoing limits client start Hin Hout coming future inb outb p0 k c w
    Hstart Hib Hob Hs Hr He Hu) as (said&c1&w2&a&Hrun&Hsay&Hw2&Hinv).
  destruct (peer_calls recv send errno epoll_wait read_signal recv_pipe pipe_open rounds fuel now
    owner on_signal wake source sunk ready signals piped readable writable hung_up Hlaws Hhang
    capacity Incoming Outgoing limits client Hin Hout Hclient coming future _ c1 (free_base w) Hall
    calls [] w2 _ Hcalls Hw2 Hinv) as (w3&a3&closing&Hask&Hw3&Hinv3).
  destruct (peer_at_any_time _ _ _ _ _ _ _ _ _ _ _ _ _ _ _ _ _ _ _ Hw3 Hinv3)
    as (q&p&k'&c2&heard&wait&todo&sent&unsent&?&?&?&?&?&?&?).
  exists w3, q, p, k', c1, c2, said, heard, wait, todo, sent, unsent. rewrite Hrun. split_and!; auto.
Qed.

(** C3: A peer catches up, again and again, under the same conditions.  However the
    client calls the event loop, for ever, and whatever the kernel reports meanwhile,
    after any number of calls there are finitely many more after which no event is armed, every message
    that was read in full has been given to the client, what the client has sent
    since is with the socket or waits for it, and nothing but the kernel, a
    connection that is gone or a buffer that was full keeps the rest from being
    moved. *)
Theorem unix_peer_catches_up {K C} (recv : Z -> K -> Z * list byte * K)
    (send : list byte -> K -> Z * K) (errno : K -> Z)
    (epoll_wait : Z -> Z -> K -> outcome (option (list epoll_event) * K))
    (read_signal recv_pipe : K -> option Z * K) (pipe_open : bool) (rounds fuel : nat)
    (now owner : Z) on_signal wake (source sunk : K -> list byte) (ready : K -> list epoll_event)
    (signals : K -> list Z) (piped : K -> nat) (readable writable : K -> bool) (hung_up : K -> Prop)
    (capacity : Z) (Incoming Outgoing : schema) (limits : Limits)
    (client : message -> C -> client_prog C) (start : C -> client_prog C)
    (coming : list message) (future : list byte) (inb outb : RingBuffer)
    (calls : nat -> loop_call * (K -> K)) (p0 : StreamingIoPeer) (k : K) (c : C)
    (w : world element (StreamingIoPeer * K * C)) :
  kernel_laws recv send errno epoll_wait read_signal recv_pipe rounds fuel owner
    source sunk ready signals piped readable writable ->
  hangup_laws recv send errno epoll_wait read_signal recv_pipe hung_up ->
  schema.ok Incoming = true -> schema.ok Outgoing = true ->
  (forall m c, message_ok capacity Incoming limits m -> sendable Outgoing (client m c)) ->
  sendable Outgoing (start c) -> fresh inb -> fresh outb ->
  Forall (message_ok capacity Incoming limits) coming ->
  stream_bytes Incoming coming = source k ++ future ->
  (forall i, peer_call_ok now owner source sunk ready readable writable hung_up (calls i)) ->
  repr (loop w) empty_queue -> entered (loop w) -> user (conveyors w) = (p0, k, c) ->
  forall m, exists n w2 p k' c1 c2 said heard todo sent unsent, (m <= n)%nat /\
    unix_peer recv send errno epoll_wait read_signal recv_pipe pipe_open rounds fuel now owner
      on_signal wake capacity Incoming Outgoing limits client start inb outb (calls <$> seq 0 n) w =
      Ret w2 /\
    repr (loop w2) empty_queue /\ user (conveyors w2) = (p, k', c2) /\
    coming = heard ++ todo /\
    says (start c) said c1 /\ converses client c1 heard sent c2 /\
    sunk k' ++ unsent = sunk k ++ stream_bytes Outgoing (said ++ sent) /\
    settled (announced_in owner ready readable) (announced_out owner ready writable) hung_up
      source Incoming future p k' todo unsent.
Proof.
  intros Hlaws Hhang Hin Hout Hclient Hstart Hib Hob Hall Hs Hcalls Hr He Hu m.
  destruct (peer_starts recv send errno epoll_wait read_signal recv_pipe pipe_open rounds fuel now
    owner on_signal wake source sunk ready signals piped readable writable hung_up Hlaws Hhang
    capacity Incoming Outgoing limits client start Hin Hout coming future inb outb p0 k c w
    Hstart Hib Hob Hs Hr He Hu) as (said&c1&w2&a&Hrun&Hsay&Hw2&Hinv).
  destruct (peer_calls recv send errno epoll_wait read_signal recv_pipe pipe_open rounds fuel now
    owner on_signal wake source sunk ready signals piped readable writable hung_up Hlaws Hhang
    capacity Incoming Outgoing limits client Hin Hout Hclient coming future _ c1 (free_base w) Hall
    (calls <$> seq 0 m) [] w2 _ ltac:(apply Forall_fmap, Forall_true; intros; apply Hcalls) Hw2 Hinv)
    as (w3&a3&closing&Hask&Hw3&rk&Hrk).
  destruct (peer_catches_on recv send errno epoll_wait read_signal recv_pipe pipe_open rounds fuel now
    owner on_signal wake source sunk ready signals piped readable writable hung_up Hlaws Hhang
    capacity Incoming Outgoing limits client Hin Hout Hclient coming future _ c1 (free_base w) Hall
    calls rk.1 (rk.2 + length closing)%nat Hcalls m rk closing w3 a3 Hw3 Hrk)
    as (n&w4&a4&Hask2&Hw4&Hinv4&Hidle); [lia..|].
  destruct (peer_at_any_time _ _ _ _ _ _ _ _ _ _ _ _ _ _ _ _ _ _ _ Hw4 Hinv4)
    as (q&p&k'&c2&heard&wait&todo&sent&unsent&_&?&?&?&?&_&Hset).
  destruct (Hset Hidle) as [-> ?]. destruct (world_idle _ _ _ _ Hw4 Hidle) as (_&?&_).
  exists (m + n)%nat, w4, p, k', c1, c2, said, heard, todo, sent, unsent. split; [lia|].
  rewrite Hrun, seq_app, fmap_app, ask_loops_app, Hask, bind_ret. by split_and!.
Qed.

(** ** An echo *)

(** A client that sends every message back and counts those that were accepted. *)
Definition echo (m : message) (n : nat) : client_prog nat :=
  SendThen m (fun e => Finish (if failed e then n else S n)).
(** Two packets of nine bytes are on their way. *)
Definition echo_kernel : one_socket :=
  mkOneSocket (stream_bytes schema.UInt8 [MPrimitive 7; MPrimitive 9]) 0 [] 0 false false.
(** Twelve bytes arrive, then the rest; room is made twice. *)
Definition echo_calls : list (loop_call * (one_socket -> one_socket)) :=
  [(Wait, sock_arrive 12); (Poll, sock_drain 5); (WaitFor 5000000, sock_arrive 6);
   (WaitUntil 9000000, sock_drain 20)].
(** The peer before its constructor ran. *)
Definition no_peer : StreamingIoPeer :=
  mkPeer (mkReceiver [] (empty_ring 32) (mkReadHelper None None []) Alive)
    (mkSender (empty_ring 32) (mkWriteHelper None None []) Alive).
Definition echo_run : outcome (world element (StreamingIoPeer * one_socket * nat)) :=
  unix_peer sock_recv sock_send (fun _ => EAGAIN) sock_epoll (fun k => (None, k))
    (fun k => (None, k)) true 1 1 0 2 (fun _ u => Done u) (fun u => Done u) 1000
    schema.UInt8 schema.UInt8 default_limits echo (@Finish nat) (empty_ring 32) (empty_ring 32)
    echo_calls (new_world (no_peer, echo_kernel, 0%nat)).

(** Both come back. *)
Example echo_answers :
  (w ← echo_run; let '(_, k, n) := user (conveyors w) in Ret (sent k, n)) =
  Ret (stream_bytes schema.UInt8 [MPrimitive 7; MPrimitive 9], 2%nat).
Proof. vm_compute. reflexivity. Qed.

Lemma sock_hangs :
  hangup_laws sock_recv sock_send (fun _ => EAGAIN) sock_epoll (fun k => (None, k))
    (fun k => (None, k)) (fun _ => False).
Proof.
  split; try done.
  intros n k bytes k' Hn. unfold sock_recv. destruct (sock_readable k) eqn:Hr; [|done].
  unfold sock_readable in Hr. intros [= E _ _]. lia.
Qed.

Lemma unix_peer_on_loop_witness :
  exists w2 q p k' c1 c2 said heard waiting todo sent' unsent,
    echo_run = Ret w2 /\
    repr (loop w2) q /\ user (conveyors w2) = (p, k', c2) /\
    [MPrimitive 7; MPrimitive 9] = heard ++ waiting ++ todo /\
    says (Finish 0%nat) said c1 /\ converses echo c1 heard sent' c2 /\
    sent k' ++ unsent = [] ++ stream_bytes schema.UInt8 (said ++ sent') /\
    (items q = [] -> waiting = [] /\
       settled (announced_in 2 sock_ready sock_readable) (announced_out 2 sock_ready sock_writable)
         (fun _ => False) coming schema.UInt8 [] p k' todo unsent).
Proof.
  apply (unix_peer_on_loop sock_recv sock_send (fun _ => EAGAIN) sock_epoll (fun k => (None, k))
    (fun k => (None, k)) true 1 1 0 2 (fun _ u => Done u) (fun u => Done u) coming sent sock_ready
    (fun _ => []) (fun _ => 0%nat) sock_readable sock_writable (fun _ => False) 1000
    schema.UInt8 schema.UInt8 default_limits echo (@Finish nat) [MPrimitive 7; MPrimitive 9] []
    (empty_ring 32) (empty_ring 32) echo_calls no_peer echo_kernel 0%nat
    (new_world (no_peer, echo_kernel, 0%nat))).
  - apply sock_laws.
  - apply sock_hangs.
  - reflexivity.
  - reflexivity.
  - intros m c (Ht&_&_&Hz). split; [done|]. intros e. exact I.
  - exact I.
  - vm_compute. by split_and!.
  - vm_compute. by split_and!.
  - repeat constructor; vm_compute; done.
  - rewrite app_nil_r. reflexivity.
  - repeat apply Forall_cons_2; [..|by apply Forall_nil_2]; (split; [|done]);
      (split; [apply sock_arrive_ok || apply sock_drain_ok|]; split; [done|]; by intros [? ? ? ? [] []]).
  - split; [|done]. split_and!; try done. constructor.
  - done.
  - reflexivity.
Defined.

(** The same calls, and then [poll] for ever. *)
Definition echo_for_ever (i : nat) : loop_call * (one_socket -> one_socket) :=
  default (Poll, id) (echo_calls !! i).

Lemma unix_peer_catches_up_witness :
  exists n w2 p k' c1 c2 said heard todo sent' unsent, (4 <= n)%nat /\
    unix_peer sock_recv sock_send (fun _ => EAGAIN) sock_epoll (fun k => (None, k))
      (fun k => (None, k)) true 1 1 0 2 (fun _ u => Done u) (fun u => Done u) 1000
      schema.UInt8 schema.UInt8 default_limits echo (@Finish nat) (empty_ring 32) (empty_ring 32)
      (echo_for_ever <$> seq 0 n) (new_world (no_peer, echo_kernel, 0%nat)) = Ret w2 /\
    repr (loop w2) empty_queue /\ user (conveyors w2) = (p, k', c2) /\
    [MPrimitive 7; MPrimitive 9] = heard ++ todo /\
    says (Finish 0%nat) said c1 /\ converses echo c1 heard sent' c2 /\
    sent k' ++ unsent = [] ++ stream_bytes schema.UInt8 (said ++ sent') /\
    settled (announced_in 2 sock_ready sock_readable) (announced_out 2 sock_ready sock_writable)
      (fun _ => False) coming schema.UInt8 [] p k' todo unsent.
Proof.
  apply (unix_peer_catches_up sock_recv sock_send (fun _ => EAGAIN) sock_epoll (fun k => (None, k))
    (fun k => (None, k)) true 1 1 0 2 (fun _ u => Done u) (fun u => Done u) coming sent sock_ready
    (fun _ => []) (fun _ => 0%nat) sock_readable sock_writable (fun _ => False) 1000
    schema.UInt8 schema.UInt8 default_limits echo (@Finish nat) [MPrimitive 7; MPrimitive 9] []
    (empty_ring 32) (empty_ring 32) echo_for_ever no_peer echo_kernel 0%nat
    (new_world (no_peer, echo_kernel, 0%nat))).
  - apply sock_laws.
  - apply sock_hangs.
  - reflexivity.
  - reflexivity.
  - intros m c (Ht&_&_&Hz). split; [done|]. intros e. exact I.
  - exact I.
  - vm_compute. by split_and!.
  - vm_compute. by split_and!.
  - repeat constructor; vm_compute; done.
  - rewrite app_nil_r. reflexivity.
  - intros i. do 4 (destruct i as [|i];
      [split; [|done]; (split; [apply sock_arrive_ok || apply sock_drain_ok|]; split; [done|]; by intros [? ? ? ? [] []])|]).
    split; [|done]. by split_and!.
  - split; [|done]. split_and!; try done. constructor.
  - done.
  - reflexivity.
Defined.
