(* ===== verification/Tls.v ===== *)
(** Model of [source/forstio/tls/tls.h] and [tls.cpp]: streams, connecting and
    listening over GnuTLS.

    The library is a parameter, a [GnuTLS] record with one field per function that
    the source calls; [K] is its state together with that of the streams below it,
    [S] are sessions, [I] the inner streams.  A session handle that was never
    initialised is [None]. *)

From S2P Require Import Prelude Error.
From stdpp Require Import pretty.

#[local] Open Scope Z_scope.

(** The constants of the GnuTLS headers that the source compares with. *)
Definition GNUTLS_E_SUCCESS : Z := 0.
Definition GNUTLS_E_AGAIN : Z := -28.
Definition GNUTLS_E_INTERRUPTED : Z := -52.

Record GnuTLS (K S I : Type) := mkGnuTLS {
  error_is_fatal : Z -> Z;
  strerror : Z -> string;
  record_recv : S -> Z -> K -> Z * list byte * K;
  record_send : S -> list byte -> K -> Z * K;
  handshake : S -> K -> Z * K;
  bye : S -> K -> K;
  init_client : K -> S * K;
  server_name_set : S -> string -> K -> K;
  set_default_priority : S -> K -> K;
  credentials_set : S -> K -> K;
  session_set_verify_cert : S -> string -> K -> K;
  transport_set : S -> I -> K -> K
}.
Arguments mkGnuTLS {K S I}.
Arguments error_is_fatal {K S I}.
Arguments strerror {K S I}.
Arguments record_recv {K S I}.
Arguments record_send {K S I}.
Arguments handshake {K S I}.
Arguments bye {K S I}.
Arguments init_client {K S I}.
Arguments server_name_set {K S I}.
Arguments set_default_priority {K S I}.
Arguments credentials_set {K S I}.
Arguments session_set_verify_cert {K S I}.
Arguments transport_set {K S I}.

Section tls.
Context {K S I : Type} (gnutls : GnuTLS K S I).

(** ** [TlsIoStream] *)
Record TlsIoStream := mkTlsIoStream { internal : I; session_handle : option S }.

Definition session (st : TlsIoStream) : outcome S :=
  match session_handle st with Some s => Ret s | None => Halt UndefinedBehaviour end.

Definition TlsIoStream_read (s : S) (length : Z) (k : K) : ErrorOr Z * list byte * K :=
  let '(size, bytes, k) := record_recv gnutls s length k in
  if size <? 0 then
    if error_is_fatal gnutls size =? 0 then
      (IsError (recoverableError_format
         (Some ("Read recoverable Error " +:+ strerror gnutls size)) "Error read r"), bytes, k)
    else
      (IsError (criticalError_format
         (Some ("Read critical Error " +:+ strerror gnutls size)) "Error read c"), bytes, k)
  else if size =? 0 then (IsError (criticalError "Disconnected"), bytes, k)
  else (IsValue length, bytes, k).

Definition TlsIoStream_write (s : S) (bytes : list byte) (k : K) : ErrorOr Z * K :=
  let '(size, k) := record_send gnutls s bytes k in
  if size <? 0 then
    if error_is_fatal gnutls size =? 0 then
      (IsError (recoverableError_format
         (Some ("Write recoverable Error " +:+ strerror gnutls size +:+ " " +:+ pretty size))
         "Error write r"), k)
    else
      (IsError (criticalError_format
         (Some ("Write critical Error " +:+ strerror gnutls size +:+ " " +:+ pretty size))
         "Error write c"), k)
  else (IsValue size, k).

(** [~TlsIoStream()] *)
Definition TlsIoStream_drop (st : TlsIoStream) (k : K) : outcome K :=
  s ← session st; Ret (bye gnutls s k).

(** ** The functions that GnuTLS calls on the inner stream; a null pointer is
    [None]. *)
Definition forst_tls_push_func {J} (write : J -> list byte -> K -> ErrorOr Z * K)
    (p : option J) (data : list byte) (k : K) : Z * K :=
  match p with
  | None => (-1, k)
  | Some stream =>
      let '(length, k) := write stream data k in
      match length with IsError _ => (-1, k) | IsValue n => (n, k) end
  end.

Definition forst_tls_pull_func {J} (read : J -> Z -> K -> ErrorOr Z * list byte * K)
    (p : option J) (size : Z) (k : K) : Z * list byte * K :=
  match p with
  | None => (-1, [], k)
  | Some stream =>
      let '(length, data, k) := read stream size k in
      match length with IsError _ => (-1, data, k) | IsValue n => (n, data, k) end
  end.

(** ** [TlsServer]: a null [internal] is [None]. *)
Definition TlsServer_accept {V} (internal : option V) (stream : I) : outcome TlsIoStream :=
  _ ← assert_that (match internal with Some _ => true | None => false end);
  Ret (mkTlsIoStream stream None).

(** ** [TlsClientStreamHelper] *)

(** What the feeder of a connecting client is given. *)
Inductive answer :=
| Connected (stream : TlsIoStream)
| Refused (error : Error).

Record TlsClientStreamHelper := mkHelper {
  feeder : option (list answer);
  stream_reader : bool;
  stream_writer : bool;
  stream : option TlsIoStream
}.

(** The constructor. *)
Definition newHelper (f : option (list answer)) : TlsClientStreamHelper :=
  mkHelper f false false None.

Definition setupTurn (h : TlsClientStreamHelper) : outcome TlsClientStreamHelper :=
  _ ← assert_that (match stream h with Some _ => true | None => false end);
  Ret (mkHelper (feeder h) true true (stream h)).

(** The [do ... while]: it calls again while it is told to try later. *)
Fixpoint handshake_loop (fuel : nat) (s : S) (k : K) : outcome (Z * K) :=
  match fuel with
  | O => Halt Diverges
  | Datatypes.S fuel =>
      let '(ret, k) := handshake gnutls s k in
      if ((ret =? GNUTLS_E_AGAIN) || (ret =? GNUTLS_E_INTERRUPTED))
         && (error_is_fatal gnutls ret =? 0)
      then handshake_loop fuel s k
      else Ret (ret, k)
  end.

Definition feed_answer (x : answer) (f : list answer) : option (list answer) := Some (f ++ [x]).

Definition turn (fuel : nat) (h : TlsClientStreamHelper) (k : K)
  : outcome (TlsClientStreamHelper * K) :=
  match stream h with
  | None => Ret (h, k)
  | Some st =>
      match feeder h with
      | None => Halt AssertionFailed
      | Some f =>
          s ← session st;
          '(ret, k) ← handshake_loop fuel s k;
          if negb (error_is_fatal gnutls ret =? 0) then
            let f := feed_answer (Refused (criticalError "Couldn't create Tls connection")) f in
            k ← TlsIoStream_drop st k;
            Ret (mkHelper f (stream_reader h) (stream_writer h) None, k)
          else if ret =? GNUTLS_E_SUCCESS then
            Ret (mkHelper (feed_answer (Connected st) f) (stream_reader h) (stream_writer h) None,
                 k)
          else Ret (h, k)
      end
  end.

(** The functions behind [readReady()] and [writeReady()]. *)
Inductive ready := Readable | Writable.
Definition on_ready (fuel : nat) (ev : ready) (h : TlsClientStreamHelper) (k : K)
  : outcome (TlsClientStreamHelper * K) :=
  let attached := match ev with Readable => stream_reader h | Writable => stream_writer h end in
  if attached : bool then turn fuel h k else Ret (h, k).

(** ** [TlsNetwork] *)

(** The function behind the conveyor of [internal.connect]. *)
Definition on_connected (fuel : nat) (addr : string) (inner : I)
    (h : TlsClientStreamHelper) (k : K) : outcome (TlsClientStreamHelper * K) :=
  let '(s, k) := init_client gnutls k in
  let k := server_name_set gnutls s addr k in
  let k := set_default_priority gnutls s k in
  let k := credentials_set gnutls s k in
  let k := session_set_verify_cert gnutls s addr k in
  let k := transport_set gnutls s inner k in
  h ← setupTurn (mkHelper (feeder h) (stream_reader h) (stream_writer h)
                   (Some (mkTlsIoStream inner (Some s))));
  turn fuel h k.

(** [connect]: the one element of the inner conveyor, then the times at which the
    stream is ready.  The error of the inner conveyor ends in [connection_sink]. *)
Definition connect_result (fuel : nat) (addr : string) (r : ErrorOr I) (k : K)
  : outcome (TlsClientStreamHelper * K) :=
  let h := newHelper (Some []) in
  match r with
  | IsError _ => Ret (h, k)
  | IsValue inner => on_connected fuel addr inner h k
  end.
Fixpoint connect_turns (fuel : nat) (evs : list ready) (h : TlsClientStreamHelper) (k : K)
  : outcome (TlsClientStreamHelper * K) :=
  match evs with
  | [] => Ret (h, k)
  | ev :: evs => '(h, k) ← on_ready fuel ev h k; connect_turns fuel evs h k
  end.
Definition TlsNetwork_connect (fuel : nat) (addr : string) (r : ErrorOr I) (evs : list ready)
    (k : K) : outcome (TlsClientStreamHelper * K) :=
  '(h, k) ← connect_result fuel addr r k; connect_turns fuel evs h k.

(** [listen] wraps what the inner network answers, [nullptr] too. *)
Definition TlsNetwork_listen {V A} (internal_listen : A -> option V) (address : A) : option V :=
  internal_listen address.
Definition TlsNetwork_datagram {V A} (address : A) : option V := None.
End tls.

Definition setupTlsNetwork {N V} (network : N) : option V := None.
Arguments TlsIoStream : clear implicits.
Arguments TlsClientStreamHelper : clear implicits.
Arguments answer : clear implicits.
