(* ===== verification/TlsTheory.v ===== *)
(** What a client of [tls.cpp] can rely on: connecting answers at most once; and
    where it cannot: a handshake that waits spins, a read overstates what it
    read. *)

From S2P Require Import Prelude Error IoHelpers Tls.

Section connect.
Context {K S I : Type} (gnutls : GnuTLS K S I).
(** What holds of a session once its handshake has succeeded. *)
Context (established : S -> K -> Prop).
(** How often the library says in a row that it would have to wait. *)
Context (patience : K -> nat) (fuel : nat).
Hypothesis handshake_established : forall s k k',
  handshake gnutls s k = (GNUTLS_E_SUCCESS, k') -> established s k'.
Hypothesis handshake_waits : forall s k ret k',
  handshake gnutls s k = (ret, k') -> ret = GNUTLS_E_AGAIN \/ ret = GNUTLS_E_INTERRUPTED ->
  (patience k' < patience k)%nat.
Hypothesis patience_bounded : forall k, (patience k < fuel)%nat.

Lemma handshake_loop_ends n s k :
  (patience k < n)%nat ->
  exists ret k', handshake_loop gnutls n s k = Ret (ret, k') /\
    (ret = GNUTLS_E_SUCCESS -> established s k').
Proof.
  revert k. induction n as [|n IH]; intros k Hn; [lia|]. cbn [handshake_loop].
  destruct (handshake gnutls s k) as [ret k'] eqn:E.
  destruct (_ && _) eqn:Hc.
  - apply andb_true_iff in Hc as [Hc _]. apply orb_true_iff in Hc. rewrite !Z.eqb_eq in Hc.
    apply IH. pose proof (handshake_waits _ _ _ _ E Hc). lia.
  - do 2 eexists. split; [done|]. intros ->. by eapply handshake_established.
Qed.

(** The states of a client after the inner connection stands. *)
Definition client_ok (st : TlsIoStream S I) (s : S) (h : TlsClientStreamHelper S I) (k : K)
  : Prop :=
  session_handle st = Some s /\
  ((feeder h = Some [] /\ stream h = Some st) \/
   (feeder h = Some [Connected st] /\ stream h = None /\ established s k) \/
   (feeder h = Some [Refused (criticalError "Couldn't create Tls connection")] /\
    stream h = None)).

Lemma turn_ok st s h k :
  client_ok st s h k -> exists h' k', turn gnutls fuel h k = Ret (h', k') /\ client_ok st s h' k'.
Proof.
  intros (Hs&Hst). unfold turn.
  destruct Hst as [[Hf E]|[(Hf&E&He)|[Hf E]]]; rewrite E.
  - rewrite Hf. unfold session. rewrite Hs, bind_ret.
    destruct (handshake_loop_ends fuel s k (patience_bounded k)) as (ret&k'&->&He).
    rewrite bind_ret. destruct (Z.eqb_spec (error_is_fatal gnutls ret) 0) as [Hz|Hz]; cbn [negb].
    + destruct (Z.eqb_spec ret GNUTLS_E_SUCCESS) as [Hr|Hr]; do 2 eexists; (split; [done|]).
      * split; [done|]. right. left. auto.
      * split; [done|]. by left.
    + unfold TlsIoStream_drop, session. rewrite Hs, !bind_ret. do 2 eexists. split; [done|].
      split; [done|]. by right; right.
  - do 2 eexists. split; [done|]. split; [done|]. right. by left.
  - do 2 eexists. split; [done|]. split; [done|]. by right; right.
Qed.

Lemma connect_turns_ok evs st s h k :
  client_ok st s h k ->
  exists h' k', connect_turns gnutls fuel evs h k = Ret (h', k') /\ client_ok st s h' k'.
Proof.
  revert h k. induction evs as [|ev evs IH]; intros h k Hok; cbn [connect_turns]; [by exists h, k|].
  assert (exists h' k', on_ready gnutls fuel ev h k = Ret (h', k') /\ client_ok st s h' k')
    as (h'&k'&->&Hok').
  { unfold on_ready. destruct ev; destruct (_ : bool); eauto using turn_ok. }
  rewrite bind_ret. by apply IH.
Qed.

(** C30: A TLS connection over a library that does not keep it waiting for ever:
    whenever the stream is ready, and however often, the client is answered at
    most once: with the stream, and then its handshake has succeeded and nothing
    has touched the session since, or with a critical error, and then the stream
    is destroyed.  When the connection below fails, it is never answered. *)
Theorem tls_connect_answers addr (r : ErrorOr I) evs k :
  exists h k', TlsNetwork_connect gnutls fuel addr r evs k = Ret (h, k') /\
    match r with
    | IsError _ => feeder h = Some [] /\ stream h = None /\ k' = k
    | IsValue inner => exists s,
        client_ok (mkTlsIoStream inner (Some s)) s h k'
    end.
Proof.
  unfold TlsNetwork_connect, connect_result. destruct r as [e|inner].
  - rewrite bind_ret. exists (newHelper (Some [])), k. split; [|done].
    induction evs as [|[] evs IH]; [done|..]; exact IH.
  - unfold on_connected. destruct (init_client gnutls k) as [s k1].
    cbn [newHelper feeder stream_reader stream_writer]. unfold setupTurn. cbn [stream].
    rewrite (assert_that_true true), !bind_ret by done.
    set (h0 := mkHelper _ _ _ _). set (k2 := transport_set _ _ _ _).
    destruct (turn_ok (mkTlsIoStream inner (Some s)) s h0 k2) as (h1&k3&->&Hok);
      [by split; [|left]|].
    rewrite bind_ret. destruct (connect_turns_ok evs _ _ h1 k3 Hok) as (h&k'&->&Hok').
    exists h, k'. split; [done|]. by exists s.
Qed.
End connect.

(** A library that follows a script: [k] is how many answers of [handshake] were
    used; sessions are numbered by when they began. *)
Definition scripted_gnutls (script : list Z) : GnuTLS nat nat Z :=
  mkGnuTLS (fun ret => if (ret =? -28) || (ret =? -52) || (0 <=? ret) then 0 else 1)
    (fun _ => "scripted") (fun _ _ k => (-10, [], k)) (fun _ _ k => (-10, k))
    (fun _ k => (nth k script (-1), Datatypes.S k)) (fun _ k => k) (fun k => (k, k))
    (fun _ _ k => k) (fun _ k => k) (fun _ k => k) (fun _ _ k => k) (fun _ _ k => k).

Lemma tls_connect_answers_witness :
  let gnutls := scripted_gnutls [-28; 5; -52; -28; 0] in
  exists h k', TlsNetwork_connect gnutls 6 "example.org" (IsValue 7)
      [Readable; Writable; Readable] 0%nat = Ret (h, k') /\
    exists s, client_ok (fun _ k => k = 5%nat) (mkTlsIoStream 7 (Some s)) s h k'.
Proof.
  apply (tls_connect_answers (scripted_gnutls [-28; 5; -52; -28; 0]) (fun _ k => k = 5%nat)
    (fun k => (5 - k)%nat) 6) with (r := IsValue 7).
  - intros _ k k' [= E <-].
    do 5 (destruct k as [|k]; [first [reflexivity|discriminate E]|]). by destruct k.
  - intros _ k ret k' [= <- <-] Hr.
    do 5 (destruct k as [|k]; [lia|]). by destruct Hr, k.
  - intros k. lia.
Defined.

(** C38: The [do ... while] around [gnutls_handshake] does not return to the event
    loop: as long as the library answers that it has to wait, [turn] calls it
    again, so that a peer that is silent after the connection was made stops the
    whole program, whatever the fuel, although both ready conveyors are set up. *)
Theorem tls_handshake_spins {K S I} (gnutls : GnuTLS K S I) (waits : S -> K -> Prop)
    (fuel : nat) (addr : string) (inner : I) (evs : list ready) (k : K) :
  (forall s k, waits s k -> exists k',
     handshake gnutls s k = (GNUTLS_E_AGAIN, k') /\ waits s k') ->
  error_is_fatal gnutls GNUTLS_E_AGAIN = 0 ->
  (let '(s, k1) := init_client gnutls k in
   waits s (transport_set gnutls s inner (session_set_verify_cert gnutls s addr
     (credentials_set gnutls s (set_default_priority gnutls s
       (server_name_set gnutls s addr k1)))))) ->
  TlsNetwork_connect gnutls fuel addr (IsValue inner) evs k = Halt Diverges.
Proof.
  intros Hw Hf Hk. unfold TlsNetwork_connect, connect_result, on_connected.
  destruct (init_client gnutls k) as [s k1].
  assert (Hloop : forall n k, waits s k -> handshake_loop gnutls n s k = Halt Diverges).
  { induction n as [|n IH]; intros k2 Hk2; [done|]. cbn [handshake_loop].
    destruct (Hw s k2 Hk2) as (k3&->&Hk3). rewrite Hf. by apply IH. }
  unfold setupTurn. cbn [newHelper stream feeder stream_reader stream_writer].
  rewrite (assert_that_true true), !bind_ret by done. unfold turn, session.
  cbn [stream feeder session_handle]. rewrite bind_ret, Hloop; done.
Qed.

Lemma tls_handshake_spins_witness :
  TlsNetwork_connect
    (mkGnuTLS (fun _ => 0) (fun _ => "Resource temporarily unavailable")
       (fun _ _ k => (-28, [], k)) (fun _ _ k => (-28, k)) (fun _ k => (-28, k))
       (fun _ k => k) (fun k => (tt, k)) (fun _ _ k => k) (fun _ k => k) (fun _ k => k)
       (fun _ _ k => k) (fun _ (_ : Z) k => k))
    1000 "example.org" (IsValue 7) [Readable] tt = Halt Diverges.
Proof.
  apply (tls_handshake_spins _ (fun _ _ => True)); [|reflexivity|exact Logic.I].
  intros s k _. by exists k.
Defined.

(** C37: A read over TLS reports the length that was asked for, whatever arrived:
    an asynchronous read of [mn] to [mx] bytes is done with [mx] after the first
    record, although only its [zlen bytes] bytes are in the caller's memory. *)
Theorem tls_read_overstates {K S I} (gnutls : GnuTLS K S I) (s : S)
    (memory bytes : list byte) (b mn mx : Z) (h : ReadHelper) (k k' : K) :
  0 <= b -> 0 < mn <= mx -> mx < size_mod -> read_task h = None ->
  record_recv gnutls s mx k = (zlen bytes, bytes, k') ->
  0 < zlen bytes < mx -> b + mx <= zlen memory ->
  AsyncIoStream_read (TlsIoStream_read gnutls s) memory b mn mx h k =
    Ret (mkReadHelper None (notify (Fed mx) (read_done h))
           (list_inserts (Z.to_nat b) bytes memory), k').
Proof.
  intros Hb Hm Hmx Ht Hr Hl Hmem. unfold AsyncIoStream_read. rewrite Ht.
  rewrite !assert_that_true, !bind_ret by (rewrite ?andb_true_iff; lia).
  unfold readStep. cbn [read_task max_length readStep_loop].
  unfold read_iteration, TlsIoStream_read. cbn [max_length min_length read_buffer read_memory
    already_read]. rewrite Hr.
  destruct (Z.ltb_spec (zlen bytes) 0) as [|_]; [lia|].
  destruct (Z.eqb_spec (zlen bytes) 0) as [|_]; [lia|].
  rewrite mem_write_ok, bind_ret by lia.
  rewrite (proj2 (Z.leb_le mn mx)), (proj2 (Z.leb_le mx mx)) by lia.
  cbn [andb]. rewrite bind_ret. wsimp. rewrite Z.add_0_r. by destruct (Z.to_nat mx).
Qed.

Lemma tls_read_overstates_witness :
  let gnutls := mkGnuTLS (fun _ => 0) (fun _ => "none")
    (fun (_ : unit) n q => (Z.min n 3, ztake 3 q, zdrop 3 q)) (fun _ _ k => (-28, k))
    (fun _ k => (0, k)) (fun _ k => k) (fun k => (tt, k)) (fun _ _ k => k) (fun _ k => k)
    (fun _ k => k) (fun _ _ k => k) (fun _ (_ : Z) k => k) in
  AsyncIoStream_read (TlsIoStream_read gnutls tt) (replicate 8 x00) 0 1 8
    (mkReadHelper None (Some []) []) [x61; x62; x63] =
  Ret (mkReadHelper None (Some [Fed 8]) [x61; x62; x63; x00; x00; x00; x00; x00], []).
Proof.
  intros gnutls.
  apply (tls_read_overstates gnutls tt (replicate 8 x00) [x61; x62; x63] 0 1 8
    (mkReadHelper None (Some []) []) [x61; x62; x63] []); [lia|lia|reflexivity|reflexivity|
    reflexivity|vm_compute; by split|vm_compute; discriminate].
Defined.
